(* ===== verification/_CoqProject ===== *)
-Q . S2P
Prelude.v
Resumption.v
Threads.v
Interfaces.v
Optional.v
BlockingQueue.v
Mutex.v
ExecutionContext.v
Time.v
Retry.v
Client.v
StreamClients.v
AsyncClient.v
CompletionQueuePool.v
AsyncPool.v
Rpc.v
TypeTraits.v
Server.v
RoundRobin.v
Service.v
ServiceThreads.v
ServiceFrame.v
HandlerWrapper.v
ServiceInv.v
ServiceLemmas.v
ServiceHandlers.v
ServiceSafety.v
ServiceSteps.v
ServiceFlow.v
ServiceProtocol.v
ServiceOrder.v
HandlerReplay.v
ServiceLeak.v
ThreadInv.v
ThreadFrame.v
ThreadSafety.v
ThreadHandlers.v
ThreadTurn.v
ThreadEvents.v
ThreadRuns.v
ThreadFlow.v
ThreadEquiv.v
EventLoop.v
ServiceDrain.v
ServiceExamples.v
ThreadProps.v
Tracing.v
ServerLife.v
ServerThreads.v
TestServer.v
MathService.v
ClientServer.v
ServiceProps.v
