(* ===== verification/Prelude.v ===== *)
(** * async_grpc: a verification development

    async_grpc (src/async_grpc/) is a C++ framework on top of gRPC's
    asynchronous API.  This library models its server, its clients and the
    utilities they are built on as executable Rocq definitions, function by
    function, and proves what makes them work.

    ** The program and its parts

    A [Server] (server.h, server.cc) is made by a [Server::Builder], on which
    handlers are registered by method name.  It owns completion queue threads,
    which take tags from gRPC, and event queue threads, which handle events.
    It has one [Service] (service.h, service.cc) per gRPC service.  A service
    keeps an [Rpc] object (rpc.h, rpc.cc) per connection and per slot waiting
    for one, in an [ActiveRpcs] map of shared pointers.  The tags given to
    gRPC are pointers to events inside the [Rpc]; a tag that comes back is
    pushed to the event queue of its [Rpc] (a [BlockingQueue]) and handled by
    [Service::HandleEvent], which calls the application's handler
    (rpc_handler.h) and makes the next calls into gRPC.  Handlers answer by
    queueing messages in the [Rpc]; they can hand out [Writer]s, which do so
    from other threads through a weak pointer.  On the other side there are
    blocking clients with retries (client.h, retry.cc), asynchronous clients
    (async_client.h) and the pool of completion queues these use
    (completion_queue_pool.cc).

    ** Files

    - [Prelude] (this file): failures, the state and failure monad [M], its
      weakest preconditions [wp] (returns normally) and [wlp] (if it returns),
      the relational [preserves] with its hint database and tactic,
      interleavings of lists, integers of fixed width.
    - [Resumption]: programs as sequences of steps on a shared state, between
      which other programs can run; what they do uninterrupted, and triples
      for threads that interleave.
    - [Interfaces]: what is outside the repository, as type classes: gRPC's
      status, messages and handlers, the build configuration, and the event
      queue selector a service is constructed with.
    - [Threads], [Optional], [BlockingQueue], [Time], [Retry]: the thread
      objects of event_queue_thread.cc and completion_queue_thread.cc,
      common/optional.h with the heap cells its objects own,
      common/blocking_queue.h, common/time.cc, retry.cc.
    - [Mutex]: common/mutex.h, the monitor and its condition variable, run by
      concurrent calls of the member functions of [BlockingQueue].
    - [ExecutionContext]: execution_context.h, the lock of the shared context
      and the [Synchronized] objects of threads that use it.
    - [Client] (the unary client), [StreamClients] (the other three),
      [AsyncClient], [CompletionQueuePool], [AsyncPool]: client.h,
      async_client.h, completion_queue_pool.cc, and any number of asynchronous
      clients on the queues of the pool.
    - [TypeTraits], [Server]: type_traits.h, rpc_service_method_traits.h, and
      the builder of server.h.
    - [Rpc]: rpc.h and rpc.cc with the handler side of rpc_handler.h.  All
      state of one service is the record [World]: the heap of [Rpc] objects
      with their use counts, the keys of [ActiveRpcs::rpcs_], the event
      queues, the tags gRPC holds, writer calls in progress, and history
      variables that no operation reads.
    - [Service]: service.cc, the [Handle] functions of events, the bodies of
      the loops of [Server::RunCompletionQueue] and [Server::RunEventQueue],
      the [Writer] split into its critical sections, and the step relation
      [step] with the runs [run] of a service.
    - [ServiceThreads]: the same functions cut at their accesses to shared
      state, one program per event queue thread, and the steps [tstep] of a
      service whose threads interleave there.
    - [ServiceFrame]: relations that every step preserves, from what the
      primitives of [Rpc] preserve; [HandlerWrapper]:
      testing/rpc_handler_wrapper.h, proved with it.
    - [ServiceInv], [ServiceLemmas], [ServiceHandlers], [ServiceSafety],
      [ServiceSteps]: the invariant of a service, its lemmas, that each
      operation preserves it, that each step does, and the runs [calm_run] on
      which it holds.
    - [ServiceFlow] (send queues), [ServiceProtocol] and [ServiceOrder] (what
      one step changes; order of callbacks; listeners), [ServiceLeak] (active
      objects have something outstanding), [EventLoop] (the draining loop),
      [ServiceDrain] (a service whose completion queues run empty),
      [HandlerReplay] (handlers run by the framework and on their own),
      [Tracing] (span.h, opencensus_span.cc and the protocol of spans).
    - [ThreadInv] (what each thread knows, and the invariant of all of them),
      [ThreadFrame] (what a step leaves alone), [ThreadSafety] (no step
      fails: rules), [ThreadHandlers], [ThreadTurn], [ThreadEvents]
      (the triple of each operation, up to a turn), [ThreadRuns] (the steps of
      the other threads), [ThreadFlow] (send queues, on every run of the
      threads), [ThreadEquiv] (the two encodings of a turn agree
      when it is not interrupted),
      [ThreadProps] (the theorems and concrete runs).
    - [RoundRobin], [ServerLife]: the server's selector; construction, start
      and shutdown of a server, whose services step in any interleaving.
    - [ServerThreads]: the event queue threads, the completion queue threads
      and [Server::Shutdown] step by step, and the destructor of a server.
    - [TestServer]: testing/rpc_handler_test_server.h, on top of a server.
    - [MathService]: the application of server_test.cc, its five handlers on
      the service of math_service.proto, and what the server answers.
    - [ClientServer]: the clients of server_test.cc over channels whose other
      end is that server.
    - [ServiceExamples], [ServiceProps]: evaluation of concrete runs; the
      theorems about a service with runs on which their hypotheses hold.

    ** How code is represented

    A member function is a function of the object's address into [M World]
    (or into [M] of the component's own state).  CHECK, LOG(FATAL), null and
    freed pointers, exceptions, undefined arithmetic and blocking are values
    of [failure].  [std::shared_ptr] and [std::weak_ptr] to an [Rpc] are use
    counts on a heap: the last [release] deletes the object, and any later
    access is [UseAfterFree].  The application's callbacks are arbitrary
    functions of the handler's state and the shared context that return the
    framework calls they make.  [int] and [int64] are checked for overflow,
    [size_t] wraps, doubles are IEEE 754 ([SpecFloat]).

    gRPC is an environment: a label [LCompletion] returns a tag that is in
    flight, [DONE] only for calls that started.  The other labels are one
    turn of an event queue thread, a step of a writer call, [StopServing], and
    what other services of the server do to the selector and the context.
    In [ServiceThreads] the turn of an event queue thread is cut into its
    accesses ([Access]) to locked queues and maps, use counts, gRPC, the
    context and [shutting_down_]; a label [TTurn] is the next of them.

    ** What the theorems show

    - Safety of the service ([service_step_safe], [service_tags_alive],
      [service_pending_exact], [service_use_count], [handle_event_isolated]):
      no step of a calm run crashes, and the bookkeeping that decides when an
      object is deleted is exact.  Calm runs exclude two things, and the
      theorems [failed_connection_use_after_free],
      [refused_connection_dangles] and [writer_race_aborts] show that the code
      does fail there: connections that fail while serving or succeed after
      [StopServing], and the removal of an RPC in the middle of a writer call.
    - Interleaving threads ([threaded_step_safe], [threaded_tags_alive]): the
      same with event queue threads that interleave at every access to shared
      state.  The conditions
      of calm runs are those above, for single accesses ([access_ok],
      [sole_removal]), and that [Writer::Finish] finds the handler in its
      object ([span_ok]).  Both exclusions are needed:
      [finish_before_handler_crashes] and [creator_outlives_rpc] are crashes
      that handling events in one step hides.
    - Messages ([threaded_send_order], [threaded_queue_served] and
      [threaded_one_write], [late_write_finishes_twice]), for interleaving
      threads; the first two hold on every run of theirs, calm or not.
    - Callbacks and handlers, for events handled in one step.  On calm runs
      callbacks are made in order ([callbacks_in_order]).  On every run what
      an RPC's handler does is what its class does by itself on the same
      callbacks, and what is sent is what it asks for interleaved with what
      its [Writer]s write ([handlers_faithful]).
      [math_server_answers] composes this with the builder, the server and the
      order of callbacks to the answers of the server of server_test.cc, and
      [stream_clients_correct], [unary_clients_correct] and
      [async_clients_correct] go on to what the blocking and asynchronous
      clients of its tests return.  There the
      hypotheses on the channel say that gRPC hands to the client, in order,
      what the server handed to gRPC in some calm run in which the handler did
      not overflow an [int]; errors of the transport are excluded, except for
      the client of [GetSum], and so are deadlines.
    - Tracing ([span_protocol]): every span is started once, used only while
      it is open, and ended once.
    - Life cycle: on calm runs, between two events, [one_listener_per_slot],
      [active_rpc_outstanding] and [drained_service_destroys]; on every run
      [drain_terminates], for the loop running alone.
    - Shutdown ([shutdown_exact], [server_destroy_phases],
      [abandoned_queues_mute]): after [Shutdown] every thread is joined, and
      the destructor of the server returns exactly when no completion is left
      in an event queue.  That is so if the event queue threads wait for the
      completion queue threads, which the code does not ensure
      ([hasty_shutdown_aborts]); it also starts operations on completion
      queues it has shut down ([read_after_queue_shutdown]), which the other
      theorems exclude.
    - The server ([Build_exact], [builder_invariant], [tracing_configured],
      [ParseMethodFullName_exact], [server_life_cycle], [server_start_total],
      [round_robin_fair]) and the composition [server_services_safe]: the
      selector meets the interface [SelectorOk] the service theorems are
      proved against, and every service of a server built by [Build] is in a
      calm run of its own whatever the others do.
    - Test helpers ([test_server_ready], [wait_for_handler_exact],
      [second_send_write_aborts]): the test sees the callbacks of the handler
      once each and in order; a unary method can be called only once.
    - Queues ([monitor_linearizable], [no_lost_wakeup], [monitor_progress],
      [blocking_queue_capacity]): concurrent calls of a queue behave as the
      atomic operations the other components use, and are woken up.  The
      execution context ([context_serializable], [nested_GetContext_stuck]):
      scopes of accesses through [Synchronized] objects run one after the
      other, without deadlock unless a thread nests them.
    - [optional_equivalence]: [optional] objects are variables holding an
      option, also under aliasing, and own their cells.  [traits_exact]: the
      classes that have method traits, and why the others are rejected.
    - Asynchronous clients ([async_stream_callbacks], [async_clients_served],
      [pool_refines]).  Retries, clients, time: the theorems of their files.

    ** Bounds and fuel

    [RetryWithStrategy] takes the number of turns of its loop as fuel:
    [limited_strategy_bounded] and [unary_write_total] show that
    [max_attempts] turns are enough for a limited strategy, and
    [unrecoverable_codes_stop] gives the number of turns for an unlimited one.
    [RunEventQueue_drain] takes fuel: [drain_terminates] shows that some
    amount is enough from every reachable state.  The clients of [ClientServer]
    that read until a read fails take the number of reads; the theorems say
    how many are enough.  Everything else is total.

    ** What is not modelled

    What gRPC, protobuf, OpenCensus and gtest do inside.  BUILD_TRACING is a
    parameter ([BuildConfig]) of the builder and of [Start]; the calls on
    spans are recorded as the build with tracing makes them.  The
    array forms of [make_unique] (unused) and the aliases of port.h (integers
    are [Z] with their width written out).  The overload of [SendWrite] for
    serialized messages, which calls a function that does not exist.  The
    other locks ([send_queue_lock_], [ActiveRpcs::lock_], the pool's and the
    selector's): their critical sections are atomic.  A call of a handler is
    one access to the context; its calls of the framework are steps of their
    own.  The order of callbacks, the behaviour of handlers, spans, listeners
    and the shutdown of a server are for runs in which a thread handles an
    event in one step; they are not carried over to turns that are
    interrupted.  Where accesses are cut, the flag of an event, which no two
    threads use at the same time, is set together with the call into gRPC it
    belongs to and reset together with the pop of its event; a completion
    queue thread takes a tag and pushes its event in one step.  A response
    given to [Send] or [Write] is a message, never a null pointer.  Of the
    tests, those of client_test.cc and type_traits_test.cc.  Build files. *)

From Stdlib Require Import ZArith Lia.
From stdpp Require Import base option list strings gmap.

Set Default Proof Using "Type".

(** ** Failures

    The C++ code can stop in the ways listed here.  [CHECK(...)] and
    [LOG(FATAL)] abort the process; the other constructors name undefined
    behaviour the code would run into, an exception, a call of
    [std::terminate], or a call that blocks. *)

Inductive failure :=
  | CheckFailed (where_ : string)
  | LogFatal (where_ : string)
  | UseAfterFree
  | NullPointer
  | OutOfRange
  | UndefinedBehaviour
  | Exception
  | Terminate
  | Blocked.

#[global] Instance failure_eq_dec : EqDecision failure.
Proof. solve_decision. Defined.

(** ** A state and failure monad

    [Ok a s] is a normal return with value [a] in state [s]. *)

Inductive outcome (S A : Type) :=
  | Ok (a : A) (s : S)
  | Fail (f : failure).
Arguments Ok {S A} a s.
Arguments Fail {S A} f.

Definition M (S A : Type) : Type := S → outcome S A.

#[global] Instance M_ret {S} : MRet (M S) := λ A a s, Ok a s.
#[global] Instance M_bind {S} : MBind (M S) := λ A B k m s,
  match m s with
  | Ok a s' => k a s'
  | Fail f => Fail f
  end.

Definition fail {S A} (f : failure) : M S A := λ _, Fail f.
Definition get {S} : M S S := λ s, Ok s s.
Definition put {S} (s : S) : M S unit := λ _, Ok tt s.
Definition modify {S} (f : S → S) : M S unit := λ s, Ok tt (f s).
Definition gets {S A} (f : S → A) : M S A := λ s, Ok (f s) s.

(** glog's [CHECK(cond) << where]. *)
Definition check {S} (cond : bool) (where_ : string) : M S unit :=
  if cond then mret tt else fail (CheckFailed where_).

(** A range-based [for] loop. *)
Fixpoint for_each {S A} (l : list A) (body : A → M S unit) : M S unit :=
  match l with
  | [] => mret tt
  | x :: l' => body x ;; for_each l' body
  end.

Definition is_ok {S A} (o : outcome S A) : bool :=
  match o with Ok _ _ => true | Fail _ => false end.

(** ** Hoare-style reasoning

    [wp m Q s]: from [s], [m] returns (it neither fails nor blocks) and [Q]
    holds of the result.  [wlp m Q s]: if [m] returns, [Q] holds. *)

Definition wp {S A} (m : M S A) (Q : A → S → Prop) (s : S) : Prop :=
  match m s with Ok a s' => Q a s' | Fail _ => False end.

Definition wlp {S A} (m : M S A) (Q : A → S → Prop) (s : S) : Prop :=
  match m s with Ok a s' => Q a s' | Fail _ => True end.

Section hoare.
Context {S : Type}.
Implicit Types s : S.

Lemma wp_ret {A} (a : A) (Q : A → S → Prop) s : Q a s → wp (mret a) Q s.
Proof. done. Qed.

Lemma wp_bind {A B} (m : M S A) (k : A → M S B) Q s :
  wp m (λ a, wp (k a) Q) s → wp (m ≫= k) Q s.
Proof. unfold wp, mbind, M_bind. by destruct (m s). Qed.

Lemma wp_mono {A} (m : M S A) (P Q : A → S → Prop) s :
  wp m P s → (∀ a s', P a s' → Q a s') → wp m Q s.
Proof. unfold wp. destruct (m s); naive_solver. Qed.

Lemma wp_gets {A} (f : S → A) Q s : Q (f s) s → wp (gets f) Q s.
Proof. done. Qed.

Lemma wp_modify (f : S → S) Q s : Q tt (f s) → wp (modify f) Q s.
Proof. done. Qed.

Lemma wp_check (b : bool) where_ Q s : b = true → Q tt s → wp (check b where_) Q s.
Proof. by intros -> HQ. Qed.

Lemma wp_ok {A} (m : M S A) Q s : wp m Q s ↔ ∃ a s', m s = Ok a s' ∧ Q a s'.
Proof. unfold wp. destruct (m s); naive_solver. Qed.

Lemma wp_for_each {A} (l : list A) (body : A → M S unit) (I : S → Prop) s :
  (∀ x s', x ∈ l → I s' → wp (body x) (λ _, I) s') →
  I s → wp (for_each l body) (λ _, I) s.
Proof.
  revert s. induction l as [|x l IH]; intros s Hbody HI; [done|].
  apply wp_bind. eapply wp_mono; [apply Hbody; [left|done]|].
  intros [] s' HI'. apply IH; [|done]. intros y s'' Hy. apply Hbody. by right.
Qed.

Lemma wlp_ret {A} (a : A) (Q : A → S → Prop) s : Q a s → wlp (mret a) Q s.
Proof. done. Qed.

Lemma wlp_bind {A B} (m : M S A) (k : A → M S B) Q s :
  wlp m (λ a, wlp (k a) Q) s → wlp (m ≫= k) Q s.
Proof. unfold wlp, mbind, M_bind. by destruct (m s). Qed.

Lemma wlp_assoc {A B C} (m : M S A) (k : A → M S B) (g : B → M S C) Q s :
  wlp ((m ≫= k) ≫= g) Q s → wlp (m ≫= λ a, k a ≫= g) Q s.
Proof. unfold wlp, mbind, M_bind. by destruct (m s). Qed.

Lemma wlp_mono {A} (m : M S A) (P Q : A → S → Prop) s :
  wlp m P s → (∀ a s', P a s' → Q a s') → wlp m Q s.
Proof. unfold wlp. destruct (m s); naive_solver. Qed.

Lemma wlp_gets {A} (f : S → A) Q s : Q (f s) s → wlp (gets f) Q s.
Proof. done. Qed.

Lemma wlp_modify (f : S → S) Q s : Q tt (f s) → wlp (modify f) Q s.
Proof. done. Qed.

Lemma wlp_check (b : bool) where_ Q s : (b = true → Q tt s) → wlp (check b where_) Q s.
Proof. destruct b; naive_solver. Qed.

Lemma wlp_fail {A} f (Q : A → S → Prop) s : wlp (fail f) Q s.
Proof. done. Qed.

Lemma wlp_ok {A} (m : M S A) Q s a s' : wlp m Q s → m s = Ok a s' → Q a s'.
Proof. unfold wlp. intros H Hm. by rewrite Hm in H. Qed.

Lemma wlp_intro {A} (m : M S A) (Q : A → S → Prop) s :
  (∀ a s', m s = Ok a s' → Q a s') → wlp m Q s.
Proof. unfold wlp. destruct (m s); naive_solver. Qed.

Lemma wlp_for_each {A} (l : list A) (body : A → M S unit) (I : S → Prop) s :
  (∀ x s', x ∈ l → I s' → wlp (body x) (λ _, I) s') →
  I s → wlp (for_each l body) (λ _, I) s.
Proof.
  revert s. induction l as [|x l IH]; intros s Hbody HI; [done|].
  apply wlp_bind. eapply wlp_mono; [apply Hbody; [left|done]|].
  intros [] s' HI'. apply IH; [|done]. intros y s'' Hy. apply Hbody. by right.
Qed.

Lemma wp_wlp {A} (m : M S A) Q s : wp m Q s → wlp m Q s.
Proof. unfold wp, wlp. by destruct (m s). Qed.

End hoare.

(** ** Preservation of a relation

    [preserves R m]: whenever [m] returns, the final state is related to the
    initial one by [R]. For a preorder [R] this composes. *)

Definition preserves {S A} (R : S → S → Prop) (m : M S A) : Prop :=
  ∀ s, wlp m (λ _ s', R s s') s.

Section preserves.
Context {S : Type} (R : S → S → Prop) `{!PreOrder R}.

Lemma preserves_ret {A} (a : A) : preserves R (mret a : M S A).
Proof using PreOrder0. intros s. apply wlp_ret. reflexivity. Qed.

Lemma preserves_fail {A} f : preserves R (fail f : M S A).
Proof using. intros s. apply wlp_fail. Qed.

Lemma preserves_get : preserves R (get : M S S).
Proof using PreOrder0. intros s. unfold wlp, get. reflexivity. Qed.

Lemma preserves_check b where_ : preserves R (check b where_ : M S unit).
Proof using PreOrder0. destruct b; [apply preserves_ret|apply preserves_fail]. Qed.

Lemma preserves_modify (f : S → S) : (∀ s, R s (f s)) → preserves R (modify f).
Proof using. intros Hf s. apply wlp_modify, Hf. Qed.

Lemma preserves_bind {A B} (m : M S A) (k : A → M S B) :
  preserves R m → (∀ a, preserves R (k a)) → preserves R (m ≫= k).
Proof using PreOrder0.
  intros Hm Hk s. apply wlp_bind. eapply wlp_mono; [apply Hm|]. intros a s' Hs.
  eapply wlp_mono; [apply Hk|]. intros b s'' Hs'. simpl in *. by transitivity s'.
Qed.

Lemma preserves_assoc {A B C} (m : M S A) (k : A → M S B) (g : B → M S C) :
  preserves R ((m ≫= k) ≫= g) → preserves R (m ≫= λ a, k a ≫= g).
Proof using.
  intros Hp s. specialize (Hp s). unfold wlp, mbind, M_bind in *. by destruct (m s).
Qed.

Lemma preserves_for_each {A} (l : list A) (body : A → M S unit) :
  (∀ x, preserves R (body x)) → preserves R (for_each l body).
Proof using PreOrder0.
  intros Hb. induction l as [|x l IH]; simpl; [apply preserves_ret|].
  by apply preserves_bind.
Qed.

Lemma preserves_Ok {A} (m : M S A) s a s' : preserves R m → m s = Ok a s' → R s s'.
Proof using. intros Hm Hs. specialize (Hm s). unfold wlp in Hm. by rewrite Hs in Hm. Qed.

Lemma wp_preserves {A} (m : M S A) (Q : A → S → Prop) s :
  preserves R m → wp m Q s → wp m (λ a s', Q a s' ∧ R s s') s.
Proof using. intros Hm. specialize (Hm s). unfold wp, wlp in *. by destruct (m s). Qed.

Lemma wlp_preserves {A} (m : M S A) (Q : A → S → Prop) s :
  preserves R m → wlp m Q s → wlp m (λ a s', Q a s' ∧ R s s') s.
Proof using. intros Hm. specialize (Hm s). unfold wlp in *. by destruct (m s). Qed.

End preserves.

(** Hints about primitive operations go to this database; the tactic walks
    through monadic code and leaves what they do not solve. *)
Create HintDb preserves discriminated.

Ltac preserves_tac :=
  repeat first
    [ lazymatch goal with
      | |- ∀ _, _ => intro
      | |- PreOrder _ => typeclasses eauto
      end
    | apply preserves_ret
    | apply preserves_fail
    | apply preserves_get
    | apply preserves_check
    | solve [auto with preserves]
    | apply preserves_bind
    | apply preserves_for_each
    | case_match ].

(** ** Interleavings of two lists *)

(** [shuffle l1 l2 l]: the elements of [l1] and [l2] make up [l], those of
    each list in its order. *)
Inductive shuffle {A} : list A → list A → list A → Prop :=
  | shuffle_nil : shuffle [] [] []
  | shuffle_left x l1 l2 l : shuffle l1 l2 l → shuffle (l1 ++ [x]) l2 (l ++ [x])
  | shuffle_right x l1 l2 l : shuffle l1 l2 l → shuffle l1 (l2 ++ [x]) (l ++ [x]).

Section shuffle.
Context {A : Type}.
Implicit Types l : list A.

Lemma shuffle_app_left l1 l2 l k : shuffle l1 l2 l → shuffle (l1 ++ k) l2 (l ++ k).
Proof.
  intros Hs. induction k as [|x k IH] using rev_ind; [by rewrite !app_nil_r|].
  rewrite !app_assoc. by constructor.
Qed.

Lemma shuffle_only_left l1 l2 l : shuffle l1 l2 l → l2 = [] → l1 = l.
Proof.
  induction 1 as [|x l1 l2 l _ IH|x l1 l2 l _ _]; intros E; [done| |by destruct l2].
  by rewrite (IH E).
Qed.

Lemma shuffle_only_right l1 l2 l : shuffle l1 l2 l → l1 = [] → l2 = l.
Proof.
  induction 1 as [|x l1 l2 l _ _|x l1 l2 l _ IH]; intros E; [done|by destruct l1|].
  by rewrite (IH E).
Qed.

End shuffle.

(** ** Machine integers

    Signed arithmetic that leaves its width is undefined in C++, so the
    checked operations return [None] there; unsigned arithmetic wraps. *)

Definition int_max : Z := 2 ^ 31 - 1.
Definition int_min : Z := - 2 ^ 31.
Definition int64_max : Z := 2 ^ 63 - 1.
Definition int64_min : Z := - 2 ^ 63.
Definition size_t_modulus : Z := 2 ^ 64.

Definition in_int (z : Z) : bool := (int_min <=? z)%Z && (z <=? int_max)%Z.
Definition in_int64 (z : Z) : bool := (int64_min <=? z)%Z && (z <=? int64_max)%Z.

Definition int_checked (z : Z) : option Z := if in_int z then Some z else None.
Definition int64_checked (z : Z) : option Z := if in_int64 z then Some z else None.
Definition to_size_t (z : Z) : Z := (z mod size_t_modulus)%Z.

Lemma int64_checked_Some z z' : int64_checked z = Some z' ↔ z' = z ∧ (int64_min ≤ z ≤ int64_max)%Z.
Proof.
  unfold int64_checked, in_int64.
  destruct (Z.leb_spec int64_min z), (Z.leb_spec z int64_max); simpl; split;
    naive_solver lia.
Qed.

Lemma int_checked_Some z z' : int_checked z = Some z' ↔ z' = z ∧ (int_min ≤ z ≤ int_max)%Z.
Proof.
  unfold int_checked, in_int.
  destruct (Z.leb_spec int_min z), (Z.leb_spec z int_max); simpl; split;
    naive_solver lia.
Qed.

(** ** Strings *)

Lemma string_append_empty_r (s : string) : (s +:+ EmptyString = s)%string.
Proof. induction s as [|c s IH]; [done|]. exact (f_equal (String c) IH). Qed.
