(* ===== verification/Resumption.v ===== *)
(** * Programs that can be interrupted

    [Prog L S A] is a computation cut into atomic steps: each step is run
    without interruption on the shared state [S], can fail, and returns what
    is left to do.  A step carries a label of type [L] that tells what it
    accesses.  Running all steps in a row gives a computation of the monad
    [M S]; the laws of this file let such a computation be read off operation
    by operation.  The triples at the end are for several programs on one
    state, whose steps interleave. *)

From Stdlib Require Import Lia.
From stdpp Require Import base option list.
From S2P Require Import Prelude.

Set Default Proof Using "Type".

Inductive Prog (L S A : Type) :=
  | Ret (a : A)
  | Atom (l : L) (m : S → outcome S (Prog L S A)).
Arguments Ret {L S A} a.
Arguments Atom {L S A} l m.

Section prog.
Context {L S : Type}.

Fixpoint Prog_elim {A} (P : Prog L S A → Prop) (HRet : ∀ a, P (Ret a))
    (HAtom : ∀ l m, (∀ s p s', m s = Ok p s' → P p) → P (Atom l m)) (p : Prog L S A) : P p :=
  match p with
  | Ret a => HRet a
  | Atom l m => HAtom l m (λ s p' s' E,
      match m s as o return o = Ok p' s' → P p' with
      | Ok p1 s1 => λ E1,
          match E1 in _ = o return match o with Ok p2 _ => P p2 | Fail _ => True end with
          | eq_refl => Prog_elim P HRet HAtom p1
          end
      | Fail f => λ E1, match E1 in _ = o return match o with Ok p2 _ => P p2 | Fail _ => True end with
                        | eq_refl => I
                        end
      end E)
  end.

#[global] Instance Prog_ret : MRet (Prog L S) := λ A a, Ret a.

#[global] Instance Prog_bind : MBind (Prog L S) := λ A B k,
  fix bind (p : Prog L S A) : Prog L S B :=
    match p with
    | Ret a => k a
    | Atom l m => Atom l (λ s,
        match m s with
        | Ok p' s' => Ok (bind p') s'
        | Fail f => Fail f
        end)
    end.

(** One atomic step. *)
Definition atom {A} (l : L) (m : M S A) : Prog L S A :=
  Atom l (λ s, match m s with Ok a s' => Ok (Ret a) s' | Fail f => Fail f end).

(** A range-based [for] loop. *)
Fixpoint for_all {A} (l : list A) (body : A → Prog L S unit) : Prog L S unit :=
  match l with
  | [] => mret tt
  | x :: l' => body x ;; for_all l' body
  end.

(** The program run to its end without interruption. *)
Fixpoint uninterrupted {A} (p : Prog L S A) : M S A := λ s,
  match p with
  | Ret a => Ok a s
  | Atom _ m =>
      match m s with
      | Ok p' s' => uninterrupted p' s'
      | Fail f => Fail f
      end
  end.

(** ** Equality of computations *)

Definition same {A} (m1 m2 : M S A) : Prop := ∀ s, m1 s = m2 s.

#[global] Instance same_equiv {A} : Equivalence (@same A).
Proof. split; [by intros m s|by intros m1 m2 E s|intros m1 m2 m3 E1 E2 s; by rewrite E1, E2]. Qed.

Lemma same_bind {A B} (m1 m2 : M S A) (k1 k2 : A → M S B) :
  same m1 m2 → (∀ a, same (k1 a) (k2 a)) → same (m1 ≫= k1) (m2 ≫= k2).
Proof.
  intros Em Ek s. unfold mbind, M_bind. rewrite Em. destruct (m2 s); [apply Ek|done].
Qed.

Lemma same_assoc {A B C} (m : M S A) (k : A → M S B) (g : B → M S C) :
  same ((m ≫= k) ≫= g) (m ≫= λ a, k a ≫= g).
Proof. intros s. unfold mbind, M_bind. by destruct (m s). Qed.

Lemma same_ret_l {A B} (a : A) (k : A → M S B) : same (mret a ≫= k) (k a).
Proof. done. Qed.

Lemma same_ret_r {A} (m : M S A) : same (m ≫= mret) m.
Proof. intros s. unfold mbind, M_bind, mret, M_ret. by destruct (m s). Qed.

(** ** The laws of [uninterrupted] *)

Lemma uninterrupted_bind {A B} (p : Prog L S A) (k : A → Prog L S B) :
  same (uninterrupted (p ≫= k)) (uninterrupted p ≫= λ a, uninterrupted (k a)).
Proof.
  induction p as [a|l m IH] using Prog_elim; intros s; [done|].
  simpl. unfold mbind, M_bind. simpl. destruct (m s) as [p' s'|f] eqn:E; [|done].
  apply (IH _ _ _ E).
Qed.

Lemma uninterrupted_atom {A} l (m : M S A) : same (uninterrupted (atom l m)) m.
Proof. intros s. simpl. by destruct (m s). Qed.

Lemma uninterrupted_for_all {A} (l : list A) (body : A → Prog L S unit) (body' : A → M S unit) :
  (∀ x, same (uninterrupted (body x)) (body' x)) →
  same (uninterrupted (for_all l body)) (for_each l body').
Proof.
  intros Hb. induction l as [|x l IH]; [done|]. simpl.
  etransitivity; [apply uninterrupted_bind|]. apply same_bind; [apply Hb|intros _; apply IH].
Qed.

End prog.

#[global] Arguments Prog_bind : simpl never.
#[global] Arguments uninterrupted : simpl never.
#[global] Arguments atom : simpl never.

(** Walks through a program; operations whose equation is in the database
    [uninterrupted] are replaced by it. *)
Create HintDb uninterrupted discriminated.

Ltac uninterrupted_tac :=
  repeat first
    [ lazymatch goal with |- ∀ _, _ => intro end
    | reflexivity
    | solve [auto with uninterrupted]
    | apply uninterrupted_atom
    | apply uninterrupted_for_all
    | etransitivity; [apply uninterrupted_bind|]; apply same_bind
    | case_match ].

(** ** Threads

    Several programs run on the shared state, a step of one at a time.  Thread
    [q] knows [k] about the state, and [inv] holds of the state and what all
    threads know.  [triple q k p Q]: a thread that knows [k] runs [p], with
    steps of others in between that keep [inv] and what the thread knows, and
    [Q] holds of its result and of what it knows in the end.  Steps are made
    in states that [may] allows for their label, and looked at if they [goes];
    [crash] is what to show of a step that fails. *)

Section triples.
Context {L S K : Type} (inv : list K → S → Prop) (may : L → S → Prop) (goes : S → S → Prop)
  (crash : Prop).

(** What a thread knows can be changed without a step. *)
Definition shifts (q : nat) (k k' : K) : Prop :=
  ∀ ks s, inv ks s → ks !! q = Some k → inv (<[q := k']> ks) s.

Fixpoint triple {A} (q : nat) (k : K) (p : Prog L S A) (Q : A → K → Prop) : Prop :=
  match p with
  | Ret a => ∃ k', shifts q k k' ∧ Q a k'
  | Atom l m => ∀ ks s, inv ks s → ks !! q = Some k → may l s →
      match m s with
      | Ok p' s' => goes s s' → ∃ k', inv (<[q := k']> ks) s' ∧ triple q k' p' Q
      | Fail _ => crash
      end
  end.

Lemma insert_known (ks : list K) q (k k' : K) :
  ks !! q = Some k → <[q := k']> ks !! q = Some k'.
Proof. intros Hk. apply list_lookup_insert_eq. by eapply lookup_lt_Some. Qed.

Lemma shift_refl q k : shifts q k k.
Proof. intros ks s G Hk. by rewrite list_insert_id. Qed.

Lemma shift_trans q k1 k2 k3 : shifts q k1 k2 → shifts q k2 k3 → shifts q k1 k3.
Proof.
  intros H12 H23 ks s G Hk. rewrite <- (list_insert_insert_eq ks q k3 k2).
  apply H23; [by apply H12|by eapply insert_known].
Qed.

Lemma triple_shift {A} q k k' (p : Prog L S A) Q :
  shifts q k k' → triple q k' p Q → triple q k p Q.
Proof.
  intros Hs. destruct p as [a|a m]; simpl.
  - intros (k2 & Hs2 & HQ). exists k2. split; [by eapply shift_trans|done].
  - intros Hm ks s G Hk Ha. specialize (Hm _ _ (Hs _ _ G Hk) ltac:(by eapply insert_known) Ha).
    destruct (m s) as [p' s'|]; [|done]. by setoid_rewrite list_insert_insert_eq in Hm.
Qed.

Lemma triple_post {A} q k (p : Prog L S A) (Q Q' : A → K → Prop) :
  triple q k p Q → (∀ a k', Q a k' → ∃ k2, shifts q k' k2 ∧ Q' a k2) → triple q k p Q'.
Proof.
  intros Hp HQ. revert k Hp. induction p as [a|a m IH] using Prog_elim; simpl; intros k.
  - intros (k' & Hs & Ha). destruct (HQ _ _ Ha) as (k2 & Hs2 & ?). eauto using shift_trans.
  - intros Hm ks s G Hk Ha. specialize (Hm ks s G Hk Ha).
    destruct (m s) as [p' s'|] eqn:E; [|done]. intros Hr. destruct (Hm Hr) as (k' & G' & Hp').
    exists k'. split; [done|]. by apply (IH _ _ _ E).
Qed.

Lemma triple_mono {A} q k (p : Prog L S A) (Q Q' : A → K → Prop) :
  triple q k p Q → (∀ a k', Q a k' → Q' a k') → triple q k p Q'.
Proof. intros Hp HQ. eapply triple_post; [done|]. eauto using shift_refl. Qed.

Lemma triple_bind {A B} q k (p : Prog L S A) (f : A → Prog L S B) Q :
  triple q k p (λ a k', triple q k' (f a) Q) → triple q k (p ≫= f) Q.
Proof.
  revert k. induction p as [a|a m IH] using Prog_elim; intros k.
  - intros (k' & Hs & Hk). by eapply triple_shift.
  - intros Hm ks s G Hk Ha. specialize (Hm ks s G Hk Ha). simpl.
    destruct (m s) as [p' s'|] eqn:E; [|done]. intros Hr. destruct (Hm Hr) as (k' & G' & Hp').
    exists k'. split; [done|]. by apply (IH _ _ _ E).
Qed.

Lemma triple_ret {A} q k (a : A) (Q : A → K → Prop) : Q a k → triple q k (mret a) Q.
Proof. intros HQ. exists k. split; [apply shift_refl|done]. Qed.

Lemma triple_atom {A} q k l (m : M S A) (Q : A → K → Prop) :
  (∀ ks s, inv ks s → ks !! q = Some k → may l s →
     match m s with
     | Ok b s' => goes s s' → ∃ k', inv (<[q := k']> ks) s' ∧ Q b k'
     | Fail _ => crash
     end) →
  triple q k (atom l m) Q.
Proof.
  intros Hm ks s G Hk Ha. specialize (Hm ks s G Hk Ha). simpl.
  destruct (m s) as [b s'|]; [|done]. intros Hr. destruct (Hm Hr) as (k' & G' & HQ).
  exists k'. split; [done|]. simpl. exists k'. split; [apply shift_refl|done].
Qed.

Lemma triple_for_all {A} q k (xs : list A) (body : A → Prog L S unit) :
  (∀ x, triple q k (body x) (λ _ k', k' = k)) → triple q k (for_all xs body) (λ _ k', k' = k).
Proof.
  intros Hb. induction xs as [|x xs IH]; [by apply triple_ret|].
  apply triple_bind. eapply triple_mono; [apply Hb|]. by intros [] k' ->.
Qed.

(** Every thread can run the rest of its program and be idle then. *)
Definition triples (idle : K) (ks : list K) (ps : list (Prog L S unit)) : Prop :=
  ∀ q p, ps !! q = Some p → ∃ k, ks !! q = Some k ∧ triple q k p (λ _ k', k' = idle).

Lemma triples_insert idle ks ps q k k' p' :
  triples idle ks ps → ks !! q = Some k → triple q k' p' (λ _ k2, k2 = idle) →
  triples idle (<[q := k']> ks) (<[q := p']> ps).
Proof.
  intros Hps Hk Hp' q0 p0 [(<- & <- & _)|[Hne Hp0]]%list_lookup_insert_Some.
  - exists k'. split; [by eapply insert_known|done].
  - destruct (Hps q0 p0 Hp0) as (k0 & Hk0 & Ht). exists k0. by rewrite list_lookup_insert_ne.
Qed.

Lemma triples_idle idle n : triples idle (replicate n idle) (replicate n (Ret tt)).
Proof.
  intros q p [-> Hq]%lookup_replicate. exists idle. split; [by apply lookup_replicate|].
  exists idle. split; [apply shift_refl|done].
Qed.

(** Threads that have all come to the end of their programs are idle. *)
Lemma triples_rest idle ks ps s :
  inv ks s → triples idle ks ps → length ks = length ps →
  (∀ q p, ps !! q = Some p → p = Ret tt) → inv (replicate (length ks) idle) s.
Proof.
  intros G Hps Hlen Hrest.
  assert (∀ n, n ≤ length ks → inv (replicate n idle ++ drop n ks) s) as Hn.
  { induction n as [|n IH]; intros Hle; [done|].
    destruct (lookup_lt_is_Some_2 ks n) as [k Hk]; [lia|].
    destruct (lookup_lt_is_Some_2 ps n) as [p Hp]; [lia|].
    destruct (Hps n p Hp) as (k0 & Hk0 & Ht). rewrite (Hrest n p Hp) in Ht. simplify_eq.
    destruct Ht as (k' & Hs & ->). specialize (Hs _ _ (IH ltac:(lia))).
    assert (replicate (Datatypes.S n) idle ++ drop (Datatypes.S n) ks =
      <[n := idle]> (replicate n idle ++ drop n ks)) as ->.
    { rewrite (drop_S ks k n) by done. rewrite insert_app_r_alt by (by rewrite length_replicate).
      rewrite length_replicate, Nat.sub_diag. by rewrite replicate_S_end, <- app_assoc. }
    apply Hs. rewrite lookup_app_r by (by rewrite length_replicate).
    by rewrite length_replicate, Nat.sub_diag, lookup_drop, Nat.add_0_r. }
  specialize (Hn (length ks) ltac:(lia)). by rewrite drop_all, app_nil_r in Hn.
Qed.

End triples.
