(* ===== verification/Threads.v ===== *)
(** * Thread objects

    What [EventQueueThread] (event_queue_thread.cc), [CompletionQueueThread]
    (completion_queue_thread.cc) and [CompletionQueue] (completion_queue_pool.cc)
    do with the thread they own, and the loops that do it for all of them. *)

From stdpp Require Import base list strings.
From S2P Require Import Prelude.

Set Default Proof Using "Type".

(** A thread object of [EventQueueThread] or [CompletionQueueThread]: the
    unique pointer is null, points to a running thread, or to one that has
    been joined. *)
Inductive ThreadState := NotStarted | Running | Joined.

#[global] Instance ThreadState_eq_dec : EqDecision ThreadState.
Proof. solve_decision. Defined.

Definition Thread_Start (t : ThreadState) : failure + ThreadState :=
  match t with
  | NotStarted => inr Running
  | Running | Joined => inl (CheckFailed "Start")
  end.

(** [join] returns once the runner has: [returns] says whether it does.  A
    thread that was joined before is not joinable, and [join] throws. *)
Definition Thread_join (returns : bool) (t : ThreadState) : failure + ThreadState :=
  match t with
  | NotStarted => inl NullPointer
  | Running => if returns then inr Joined else inl Blocked
  | Joined => inl Exception
  end.

(** [CompletionQueueThread]: [Shutdown] shuts down the completion queue before
    it joins, and the runner returns once the queue is drained. *)
Definition CompletionQueueThread_Start (t : ThreadState) : failure + ThreadState := Thread_Start t.

Definition CompletionQueueThread_Shutdown (t : ThreadState) : failure + ThreadState :=
  Thread_join true t.

(** [EventQueueThread]: [Shutdown] only joins. *)
Definition EventQueueThread_Start (t : ThreadState) : failure + ThreadState := Thread_Start t.

Definition EventQueueThread_Shutdown (returns : bool) (t : ThreadState) : failure + ThreadState :=
  Thread_join returns t.

(** A range-based loop over thread objects. *)
Fixpoint for_threads (f : ThreadState → failure + ThreadState) (l : list ThreadState) :
    failure + list ThreadState :=
  match l with
  | [] => inr []
  | t :: l' =>
      match f t with
      | inl e => inl e
      | inr t' => match for_threads f l' with inl e => inl e | inr l'' => inr (t' :: l'') end
      end
  end.

Lemma for_threads_ok f l t t' :
  Forall (eq t) l → f t = inr t' → for_threads f l = inr (replicate (length l) t').
Proof. intros Hl Hf. induction Hl as [|u l <- Hl IH]; simpl; [done|]. by rewrite Hf, IH. Qed.

Lemma for_threads_fail f l t e :
  Forall (eq t) l → l ≠ [] → f t = inl e → for_threads f l = inl e.
Proof. intros Hl Hne Hf. destruct Hl as [|u l <- Hl]; simpl; [done|]. by rewrite Hf. Qed.
