(* ===== verification/Interfaces.v ===== *)
(** * Interfaces to code outside the repository

    The framework is generic in three things it does not define: gRPC's
    status values, the protobuf messages that flow through it, and the
    application's handler classes.  Each is a type class here; every theorem
    quantifies over its instances.  The file also has the two enumerations
    that the framework switches on. *)

From Stdlib Require Import ZArith.
From stdpp Require Import base option strings.
From S2P Require Import Prelude.

(** [::grpc::internal::RpcMethod::RpcType]. *)
Inductive RpcType :=
  | NORMAL_RPC
  | CLIENT_STREAMING
  | SERVER_STREAMING
  | BIDI_STREAMING.

#[global] Instance RpcType_eq_dec : EqDecision RpcType.
Proof. solve_decision. Defined.

(** [::grpc::Status]: a code and a message; [ok()] is [error_code() == OK]. *)
Class GrpcStatus := {
  Status : Type;
  Status_make : Z → string → Status;
  error_code : Status → Z;
  error_message : Status → string;
  error_code_make : ∀ c m, error_code (Status_make c m) = c;
  error_message_make : ∀ c m, error_message (Status_make c m) = m
}.

Definition StatusCode_OK : Z := 0.
Definition StatusCode_INTERNAL : Z := 13.

Section status.
Context `{GrpcStatus}.

Definition Status_OK : Status := Status_make StatusCode_OK EmptyString.
Definition status_ok (s : Status) : bool := (error_code s =? StatusCode_OK)%Z.

Lemma status_ok_OK : status_ok Status_OK = true.
Proof. unfold status_ok, Status_OK. by rewrite error_code_make. Qed.

End status.

(** Messages, their descriptors and the default-constructed message
    ([MessageFactory::GetPrototype(descriptor)->New()]); the private state of
    handler objects; the state behind the server-wide [ExecutionContext*],
    with the value that stands for a null pointer. *)
Class Application := {
  Message : Type;
  Descriptor : Type;
  GetPrototype_New : Descriptor → Message;
  HandlerState : Type;
  Context_ : Type;
  null_context : Context_
}.

(** How the library is compiled; src/async_grpc/BUILD.bazel has a target for
    each value, and without a definition [BUILD_TRACING] is 0. *)
Class BuildConfig := { BUILD_TRACING : bool }.

#[global] Instance default_build : BuildConfig | 1000 := {| BUILD_TRACING := false |}.

(** A concrete instance of each, for the examples and witnesses: a status is
    its code and text, messages are integers, a handler keeps an integer. *)
#[local] Program Instance example_status : GrpcStatus := {|
  Status := Z * string;
  Status_make := pair;
  error_code := fst;
  error_message := snd
|}.
Solve Obligations with done.

#[local] Instance example_application : Application := {|
  Message := Z;
  Descriptor := unit;
  GetPrototype_New := λ _, 0%Z;
  HandlerState := Z;
  Context_ := Z;
  null_context := 0%Z
|}.

(** The event queue selector a [Service] is constructed with
    ([Service::EventQueueSelector]): a nullary function with private state
    that returns an event queue.  [SelectorOk n] is what the service relies
    on: the selector returns, and what it returns is one of [n] queues. *)
Class EventQueueSelector := {
  sel_state : Type;
  sel_next : M sel_state nat
}.

Class SelectorOk `{EventQueueSelector} (n : nat) := {
  sel_inv : sel_state → Prop;
  sel_next_ok : ∀ s, sel_inv s → wp sel_next (λ q s', q < n ∧ sel_inv s') s
}.
