(* ===== verification/Optional.v ===== *)
(** * [optional] and [make_unique]

    src/async_grpc/common/optional.h and common/make_unique.h.  An [optional]
    owns its value through a [std::unique_ptr], so what it does depends on
    which objects share a cell of the heap, when a cell is deleted and what a
    [const T&] argument refers to.  The model keeps the heap cells and the
    [optional] objects at their addresses, and passes references.  The theorem
    [optional_equivalence] says that programs cannot tell these objects from
    variables that hold a Rocq [option]: the other files use that type for
    them. *)

From Stdlib Require Import ZArith Lia.
From stdpp Require Import base option list strings gmap fin_maps.
From S2P Require Import Prelude.

Set Default Proof Using "Type".

(** Variables that hold an [option]. *)
Abbreviation Vars T := (gmap nat (option T)) (only parsing).

Section optional.
Context {T : Type}.

(** [cells]: the live objects of type [T] made by [new].  [vars]: the live
    [optional<T>] objects, each the content of its member [value_], where
    [None] is the null pointer. *)
Record Store := mkStore {
  cells : gmap nat T;
  vars : gmap nat (option nat)
}.

Definition empty_store : Store := mkStore ∅ ∅.

(** A [const T&]: bound to a temporary, or to a cell of the heap. *)
Inductive ref :=
  | Temporary (v : T)
  | Cell (c : nat).

Definition read (r : ref) : M Store T := λ s,
  match r with
  | Temporary v => Ok v s
  | Cell c => match cells s !! c with Some v => Ok v s | None => Fail UseAfterFree end
  end.

Definition value_ (o : nat) : M Store (option nat) := λ s,
  match vars s !! o with Some p => Ok p s | None => Fail UseAfterFree end.

(** ** [std::unique_ptr] *)

(** [common::make_unique<T>(value)]: copies what the reference refers to into
    an object at an address not in use. *)
Definition make_unique (r : ref) : M Store nat :=
  v ← read r;
  c ← gets (λ s, fresh (dom (cells s)));
  modify (λ s, mkStore (<[c := v]> (cells s)) (vars s));;
  mret c.

Definition delete_cell (c : nat) : M Store unit := λ s,
  match cells s !! c with
  | Some _ => Ok tt (mkStore (delete c (cells s)) (vars s))
  | None => Fail UseAfterFree
  end.

(** Assignment to [value_]: the new pointer is stored, then what the old one
    pointed to is deleted. *)
Definition set_value (o : nat) (p : option nat) : M Store unit :=
  old ← value_ o;
  modify (λ s, mkStore (cells s) (<[o := p]> (vars s)));;
  match old with Some c => delete_cell c | None => mret tt end.

(** ** [optional] *)

(** The members are initialised: no object may live at the address. *)
Definition optional_default (o : nat) : M Store unit := λ s,
  match vars s !! o with
  | Some _ => Fail UndefinedBehaviour
  | None => Ok tt (mkStore (cells s) (<[o := None]> (vars s)))
  end.

Definition has_value (o : nat) : M Store bool :=
  p ← value_ o; mret (bool_decide (p ≠ None)).

Definition value (o : nat) : M Store ref :=
  p ← value_ o;
  check (bool_decide (p ≠ None)) "value_ != nullptr";;
  match p with Some c => mret (Cell c) | None => fail NullPointer end.

Definition optional_copy (o other : nat) : M Store unit :=
  optional_default o;;
  b ← has_value other;
  if b : bool then
    r ← value other;
    c ← make_unique r;
    set_value o (Some c)
  else mret tt.

Definition optional_of_value (o : nat) (v : ref) : M Store unit :=
  optional_default o;;
  c ← make_unique v;
  set_value o (Some c).

Definition assign_value (o : nat) (other_value : ref) : M Store unit :=
  c ← make_unique other_value;
  set_value o (Some c).

Definition assign_optional (o other : nat) : M Store unit :=
  b ← has_value other;
  if negb b then set_value o None
  else
    r ← value other;
    c ← make_unique r;
    set_value o (Some c).

(** The implicit destructor destroys [value_]. *)
Definition optional_destroy (o : nat) : M Store unit :=
  set_value o None;;
  modify (λ s, mkStore (cells s) (delete o (vars s))).

(** ** Programs over [optional] objects

    An argument of type [const T&] is a temporary or the result of [value()]
    on some object, possibly the one that is assigned to. *)

Inductive arg :=
  | Literal (v : T)
  | ValueOf (o : nat).

Inductive stmt :=
  | SDefault (o : nat)
  | SCopy (o other : nat)
  | SOfValue (o : nat) (a : arg)
  | SHasValue (o : nat)
  | SGetValue (o : nat)
  | SAssignValue (o : nat) (a : arg)
  | SAssignOptional (o other : nat)
  | SDestroy (o : nat).

Inductive observation :=
  | ObsBool (b : bool)
  | ObsValue (v : T).

Definition eval_arg (a : arg) : M Store ref :=
  match a with Literal v => mret (Temporary v) | ValueOf o => value o end.

Definition exec (c : stmt) : M Store (list observation) :=
  match c with
  | SDefault o => optional_default o;; mret []
  | SCopy o other => optional_copy o other;; mret []
  | SOfValue o a => (r ← eval_arg a; optional_of_value o r);; mret []
  | SHasValue o => b ← has_value o; mret [ObsBool b]
  | SGetValue o => v ← (r ← value o; read r); mret [ObsValue v]
  | SAssignValue o a => (r ← eval_arg a; assign_value o r);; mret []
  | SAssignOptional o other => assign_optional o other;; mret []
  | SDestroy o => optional_destroy o;; mret []
  end.

(** ** The reference: variables of type [option T] *)

Definition lookup_var (o : nat) : M (Vars T) (option T) := λ t,
  match t !! o with Some x => Ok x t | None => Fail UseAfterFree end.

Definition declare_var (o : nat) (x : option T) : M (Vars T) unit := λ t,
  match t !! o with Some _ => Fail UndefinedBehaviour | None => Ok tt (<[o := x]> t) end.

Definition update_var (o : nat) (x : option T) : M (Vars T) unit :=
  lookup_var o;; modify (<[o := x]>).

Definition get_var (o : nat) : M (Vars T) T :=
  x ← lookup_var o;
  match x with Some v => mret v | None => fail (CheckFailed "value_ != nullptr") end.

Definition spec_arg (a : arg) : M (Vars T) T :=
  match a with Literal v => mret v | ValueOf o => get_var o end.

Definition spec_exec (c : stmt) : M (Vars T) (list observation) :=
  match c with
  | SDefault o => declare_var o None;; mret []
  | SCopy o other => (declare_var o None;; x ← lookup_var other; update_var o x);; mret []
  | SOfValue o a => (v ← spec_arg a; declare_var o (Some v));; mret []
  | SHasValue o => b ← (x ← lookup_var o; mret (bool_decide (x ≠ None))); mret [ObsBool b]
  | SGetValue o => v ← get_var o; mret [ObsValue v]
  | SAssignValue o a => (v ← spec_arg a; update_var o (Some v));; mret []
  | SAssignOptional o other => (x ← lookup_var other; update_var o x);; mret []
  | SDestroy o => (lookup_var o;; modify (delete o));; mret []
  end.

End optional.
Arguments Store : clear implicits.
Arguments stmt : clear implicits.
Arguments arg : clear implicits.
Arguments ref : clear implicits.
Arguments observation : clear implicits.

(** Runs a list of statements and collects what they observe. *)
Fixpoint run_stmts {S T} (step : stmt T → M S (list (observation T))) (cs : list (stmt T)) :
    M S (list (observation T)) :=
  match cs with
  | [] => mret []
  | c :: cs' => obs ← step c; obs' ← run_stmts step cs'; mret (obs ++ obs')
  end.

Section proofs.
Context {T : Type}.
Implicit Types s : Store T.

(** What a store means. *)
Definition content s (p : option nat) : option T := c ← p; cells s !! c.
Definition abs s : Vars T := content s <$> vars s.

(** Every cell has exactly one owner, and every owner's cell is alive; [loose]
    is a cell between two owners, as while an assignment is under way. *)
Record owned (loose : option nat) s : Prop := {
  owner_alive : ∀ o c, vars s !! o = Some (Some c) → is_Some (cells s !! c);
  loose_alive : ∀ c, loose = Some c → is_Some (cells s !! c);
  owner_unique : ∀ o1 o2 c,
    vars s !! o1 = Some (Some c) → vars s !! o2 = Some (Some c) → o1 = o2;
  loose_unowned : ∀ o c, loose = Some c → vars s !! o ≠ Some (Some c);
  cell_owned : ∀ c,
    is_Some (cells s !! c) → loose = Some c ∨ ∃ o, vars s !! o = Some (Some c)
}.

Lemma owned_empty : owned None empty_store.
Proof.
  split; simpl; intros *; rewrite ?lookup_empty; [done..|].
  by intros [? ?].
Qed.

Lemma abs_lookup s o : abs s !! o = content s <$> vars s !! o.
Proof. apply lookup_fmap. Qed.

(** [abs] looks only at cells with an owner. *)
Lemma abs_cells_eq s (f : gmap nat T) :
  (∀ o c, vars s !! o = Some (Some c) → f !! c = cells s !! c) →
  abs (mkStore f (vars s)) = abs s.
Proof.
  intros Hf. apply map_eq. intros o. rewrite !abs_lookup. simpl.
  destruct (vars s !! o) as [[c|]|] eqn:Ho; [|done..].
  simpl. unfold content. simpl. by rewrite (Hf o c Ho).
Qed.

(** The reference [r] refers to [v] in [s]. *)
Definition refers s (r : ref T) (v : T) : Prop := read r s = Ok v s.

Lemma refers_cells s s' r v : cells s' = cells s → refers s r v → refers s' r v.
Proof.
  unfold refers. destruct r as [?|c]; simpl; [congruence|]. intros ->.
  destruct (cells s !! c); congruence.
Qed.

Lemma make_unique_ok s r v :
  owned None s → refers s r v →
  ∃ c s', make_unique r s = Ok c s' ∧ owned (Some c) s' ∧ vars s' = vars s ∧
          abs s' = abs s ∧ cells s' !! c = Some v.
Proof.
  intros Hs Hr. unfold make_unique, gets, modify, mbind, M_bind, mret, M_ret.
  rewrite Hr. set (c := fresh (dom (cells s))).
  assert (cells s !! c = None) as Hc by apply not_elem_of_dom, is_fresh.
  assert (∀ o', vars s !! o' ≠ Some (Some c)) as Hfree.
  { intros o' Ho'. destruct (owner_alive _ _ Hs o' c Ho') as [x Hx]. congruence. }
  exists c. eexists. split; [done|]. split; [split|split_and!]; simpl; try done.
  - intros o d Ho. destruct (decide (d = c)) as [->|Hne]; [by destruct (Hfree o)|].
    rewrite lookup_insert_ne by done. by eapply owner_alive.
  - intros d [= <-]. by rewrite lookup_insert_eq.
  - by eapply owner_unique.
  - intros o d [= <-]. done.
  - intros d [x [[<- _]|[Hne Hx]]%lookup_insert_Some]; [by left|].
    destruct (cell_owned _ _ Hs d) as [?|?]; [done..|by right].
  - apply abs_cells_eq. intros o d Ho. apply lookup_insert_ne. intros <-. by eapply Hfree.
  - apply lookup_insert_eq.
Qed.

Lemma swap_owner s o old p :
  owned p s → vars s !! o = Some old →
  let s' := mkStore (cells s) (<[o := p]> (vars s)) in
  owned old s' ∧ abs s' = <[o := content s p]> (abs s).
Proof.
  intros Hs Ho. split; [split|]; simpl.
  - intros o' c [[-> ->]|[Hne Ho']]%lookup_insert_Some;
      [by eapply loose_alive|by eapply owner_alive].
  - intros c ->. by eapply owner_alive.
  - intros o1 o2 c [[<- ->]|[Hne1 Ho1]]%lookup_insert_Some
      [[<- Hp]|[Hne2 Ho2]]%lookup_insert_Some; simplify_eq; try done.
    + by destruct (loose_unowned _ _ Hs o2 c).
    + by destruct (loose_unowned _ _ Hs o1 c).
    + by eapply owner_unique.
  - intros o' c -> [[-> ->]|[Hne Ho']]%lookup_insert_Some.
    + by destruct (loose_unowned _ _ Hs o' c).
    + apply Hne. by eapply owner_unique.
  - intros c Hc. destruct (cell_owned _ _ Hs c Hc) as [->|[o' Ho']].
    + right. exists o. apply lookup_insert_eq.
    + destruct (decide (o = o')) as [<-|Hne]; [left; congruence|].
      right. exists o'. by rewrite lookup_insert_ne.
  - unfold abs. simpl. rewrite fmap_insert. f_equal.
Qed.

Lemma delete_loose s c :
  owned (Some c) s →
  ∃ s', delete_cell c s = Ok tt s' ∧ owned None s' ∧ vars s' = vars s ∧ abs s' = abs s.
Proof.
  intros Hs. unfold delete_cell. destruct (loose_alive _ _ Hs c eq_refl) as [x Hx].
  rewrite Hx. eexists. split; [done|].
  assert (∀ o d, vars s !! o = Some (Some d) → d ≠ c) as Hne.
  { intros o d Ho ->. by eapply loose_unowned. }
  split; [split|split]; simpl; try done.
  - intros o d Ho. rewrite lookup_delete_ne by naive_solver. by eapply owner_alive.
  - by eapply owner_unique.
  - intros d [y [Hd Hy]%lookup_delete_Some].
    destruct (cell_owned _ _ Hs d) as [?|?]; [done|congruence|by right].
  - apply abs_cells_eq. intros o d Ho. apply lookup_delete_ne. by symmetry; eapply Hne.
Qed.

Lemma set_value_ok s o old p :
  owned p s → vars s !! o = Some old →
  ∃ s', set_value o p s = Ok tt s' ∧ owned None s' ∧
        vars s' = <[o := p]> (vars s) ∧ abs s' = <[o := content s p]> (abs s).
Proof.
  intros Hs Ho. destruct (swap_owner s o old p Hs Ho) as [Hs' Habs].
  unfold set_value, value_, modify, mbind, M_bind. rewrite Ho.
  destruct old as [c|]; [|by eexists].
  destruct (delete_loose _ c Hs') as (s' & Hd & Hs'' & Hv & Ha).
  exists s'. split; [exact Hd|]. split; [done|]. by rewrite Hv, Ha.
Qed.

(** A copy of what the reference refers to replaces what [o] owned, also when
    the reference is bound to the cell that is deleted. *)
Lemma replace_cell s o old r v :
  owned None s → vars s !! o = Some old → refers s r v →
  ∃ s', (c ← make_unique r; set_value o (Some c)) s = Ok tt s' ∧
        owned None s' ∧ abs s' = <[o := Some v]> (abs s).
Proof.
  intros Hs Ho Hr. destruct (make_unique_ok s r v Hs Hr) as (c & s1 & Hm & Hs1 & Hv & Ha & Hc).
  rewrite <-Hv in Ho. destruct (set_value_ok s1 o old (Some c) Hs1 Ho) as (s2 & Hset & Hs2 & _ & Ha2).
  exists s2. unfold mbind, M_bind. rewrite Hm, Hset, Ha2, Ha. unfold content. simpl.
  by rewrite Hc.
Qed.

(** ** Simulation *)

(** Both fail alike, or both return the same in states that correspond. *)
Definition related {A} (x : outcome (Store T) A) (y : outcome (Vars T) A) : Prop :=
  match x, y with
  | Ok a s', Ok a' t => a = a' ∧ owned None s' ∧ t = abs s'
  | Fail f, Fail f' => f = f'
  | _, _ => False
  end.

(** [m] behaves as [n], from a store and its meaning. *)
Definition simulates {A} (m : M (Store T) A) (n : M (Vars T) A) : Prop :=
  ∀ s, owned None s → related (m s) (n (abs s)).

Lemma simulates_ret {A} (a : A) : simulates (mret a) (mret a).
Proof. by intros s Hs. Qed.

Lemma simulates_bind {A B} (m : M (Store T) A) n (k : A → M (Store T) B) k' :
  simulates m n → (∀ a, simulates (k a) (k' a)) → simulates (m ≫= k) (n ≫= k').
Proof.
  intros Hm Hk s Hs. specialize (Hm s Hs). unfold mbind, M_bind.
  destruct (m s), (n (abs s)); try done. destruct Hm as (-> & Hs' & ->). by apply Hk.
Qed.

(** What a primitive does, by what [abs] says about the object. *)
Lemma vars_abs s o :
  owned None s →
  match abs s !! o with
  | None => vars s !! o = None
  | Some None => vars s !! o = Some None
  | Some (Some v) => ∃ c, vars s !! o = Some (Some c) ∧ cells s !! c = Some v
  end.
Proof.
  intros Hs. rewrite abs_lookup. destruct (vars s !! o) as [[c|]|] eqn:Ho; simpl; [|done..].
  unfold content. simpl. destruct (owner_alive _ _ Hs o c Ho) as [v Hv]. rewrite Hv. eauto.
Qed.

Lemma value_var s o :
  owned None s →
  match get_var o (abs s) with
  | Ok v t => t = abs s ∧ ∃ r, value o s = Ok r s ∧ refers s r v
  | Fail f => value o s = Fail f
  end.
Proof.
  intros Hs. pose proof (vars_abs s o Hs) as Hv.
  unfold get_var, lookup_var, value, value_, refers, mbind, M_bind.
  destruct (abs s !! o) as [[v|]|]; simpl.
  - destruct Hv as (c & -> & Hc). split; [done|]. exists (Cell c). simpl. by rewrite Hc.
  - by rewrite Hv.
  - by rewrite Hv.
Qed.

Lemma eval_arg_var s a :
  owned None s →
  match spec_arg a (abs s) with
  | Ok v t => t = abs s ∧ ∃ r, eval_arg a s = Ok r s ∧ refers s r v
  | Fail f => eval_arg a s = Fail f
  end.
Proof. intros Hs. destruct a as [v|o]; simpl; [|by apply value_var].
  split; [done|]. by exists (Temporary v).
Qed.

Lemma simulates_arg {A} (a : arg T) (k : ref T → M (Store T) A) k' :
  (∀ s r v, owned None s → refers s r v →
     related (k r s) (k' v (abs s))) →
  simulates (r ← eval_arg a; k r) (v ← spec_arg a; k' v).
Proof.
  intros Hk s Hs. pose proof (eval_arg_var s a Hs) as Ha. unfold mbind, M_bind.
  destruct (spec_arg a (abs s)) as [v t|f].
  - destruct Ha as (-> & r & -> & Hr). by apply Hk.
  - by rewrite Ha.
Qed.

Lemma simulates_default o : simulates (optional_default o) (declare_var o (@None T)).
Proof.
  intros s Hs. unfold optional_default, declare_var. pose proof (vars_abs s o Hs) as Ho.
  destruct (abs s !! o) as [[v|]|] eqn:Ha.
  - by destruct Ho as (c & -> & _).
  - by rewrite Ho.
  - rewrite Ho. split; [done|]. split; [|unfold abs; simpl; by rewrite fmap_insert].
    split; simpl; try done.
    + intros o' c [[_ ?]|[_ Ho']]%lookup_insert_Some; [done|by eapply owner_alive].
    + intros o1 o2 c [[_ ?]|[_ H1]]%lookup_insert_Some [[_ ?]|[_ H2]]%lookup_insert_Some;
        [done..|]. by eapply owner_unique.
    + intros c Hc. destruct (cell_owned _ _ Hs c Hc) as [?|[o' Ho']]; [done|].
      right. exists o'. rewrite lookup_insert_ne; [done|]. intros ->. congruence.
Qed.

(** After [make_unique], the assignment to an object that may be dead. *)
Lemma assign_var s o r v :
  owned None s → refers s r v →
  related (assign_value o r s) (update_var o (Some v) (abs s)).
Proof.
  intros Hs Hr. unfold update_var, lookup_var, modify, mbind, M_bind.
  destruct (vars s !! o) as [old|] eqn:Ho.
  - destruct (replace_cell s o old r v Hs Ho Hr) as (s' & Hrun & Hs' & Ha).
    unfold assign_value. rewrite Hrun, abs_lookup, Ho. simpl. by rewrite Ha.
  - destruct (make_unique_ok s r v Hs Hr) as (c & s1 & Hm & _ & Hv & _).
    unfold assign_value, set_value, value_, mbind, M_bind.
    by rewrite Hm, Hv, Ho, abs_lookup, Ho.
Qed.

Lemma simulates_assign_value o a :
  simulates (r ← eval_arg a; assign_value o r) (v ← spec_arg a; update_var o (Some v)).
Proof. apply simulates_arg. intros s r v. apply assign_var. Qed.

Lemma simulates_clear o : simulates (set_value o None) (update_var o (@None T)).
Proof.
  intros s Hs. unfold update_var, lookup_var, modify, mbind, M_bind.
  destruct (vars s !! o) as [old|] eqn:Ho.
  - destruct (set_value_ok s o old None Hs Ho) as (s' & -> & Hs' & _ & Ha).
    rewrite abs_lookup, Ho. simpl. by rewrite Ha.
  - unfold set_value, value_, mbind, M_bind. by rewrite Ho, abs_lookup, Ho.
Qed.

(** [optional(const optional&)] and [operator=(const optional&)] after the
    test of [other.has_value()]. *)
Lemma simulates_from o other :
  simulates (assign_optional o other) (x ← lookup_var other; update_var o x).
Proof.
  intros s Hs. pose proof (vars_abs s other Hs) as Hv.
  unfold assign_optional, has_value, value_, lookup_var, mbind, M_bind.
  destruct (abs s !! other) as [[v|]|] eqn:Ha.
  - destruct Hv as (c & Hother & Hc). unfold value, value_, mbind, M_bind. rewrite Hother.
    simpl. rewrite Hother. simpl. apply (assign_var s o (Cell c) v Hs).
    unfold refers. simpl. by rewrite Hc.
  - rewrite Hv. simpl. by apply simulates_clear.
  - by rewrite Hv.
Qed.

Lemma simulates_copy o other :
  simulates (optional_copy o other)
    (declare_var o None;; x ← lookup_var other; update_var o x).
Proof.
  intros s Hs. pose proof (simulates_default o s Hs) as Hd.
  unfold optional_copy. unfold mbind at 1 5, M_bind at 1 5.
  destruct (optional_default o s) as [[] s1|f] eqn:Hrun, (declare_var o None (abs s)); try done.
  destruct Hd as (_ & Hs1 & ->).
  pose proof (simulates_from o other s1 Hs1) as Hfrom.
  assert (vars s1 !! o = Some None) as Ho.
  { unfold optional_default in Hrun. destruct (vars s !! o); [done|].
    injection Hrun as <-. apply lookup_insert_eq. }
  unfold assign_optional, mbind, M_bind in *.
  destruct (has_value other s1) as [[] s2|f] eqn:Hh; [done| |done].
  unfold set_value, value_, modify, mbind, M_bind in Hfrom.
  assert (s2 = s1) as ->.
  { unfold has_value, value_, mbind, M_bind, mret, M_ret in Hh.
    destruct (vars s1 !! other); congruence. }
  simpl in Hfrom. rewrite Ho in Hfrom. simpl in Hfrom.
  by rewrite insert_id in Hfrom; [destruct s1|].
Qed.

Lemma simulates_of_value o a :
  simulates (r ← eval_arg a; optional_of_value o r) (v ← spec_arg a; declare_var o (Some v)).
Proof.
  apply simulates_arg. intros s r v Hs Hr. pose proof (simulates_default o s Hs) as Hd.
  unfold optional_of_value, mbind at 1, M_bind at 1.
  unfold optional_default, declare_var in *. rewrite abs_lookup in *.
  destruct (vars s !! o) as [p|] eqn:Ho; [done|]. simpl in *. destruct Hd as (_ & Hs1 & Ha).
  edestruct (replace_cell _ o None r v Hs1) as (s2 & Hrun & Hs2 & Ha2);
    [apply lookup_insert_eq|by eapply refers_cells; [|exact Hr]|].
  rewrite Hrun. split; [done|]. split; [done|]. rewrite Ha2, <-Ha. by rewrite insert_insert_eq.
Qed.

Lemma simulates_destroy o :
  simulates (optional_destroy o) (lookup_var o;; modify (delete o) : M (Vars T) unit).
Proof.
  intros s Hs. unfold optional_destroy, lookup_var, modify, mbind, M_bind.
  destruct (vars s !! o) as [old|] eqn:Ho.
  - destruct (set_value_ok s o old None Hs Ho) as (s' & -> & Hs' & Hv & Ha).
    rewrite abs_lookup, Ho. simpl. split; [done|]. split.
    + split; simpl; try done.
      * intros o' c [_ Ho']%lookup_delete_Some. by eapply owner_alive.
      * intros o1 o2 c [_ H1]%lookup_delete_Some [_ H2]%lookup_delete_Some.
        by eapply owner_unique.
      * intros c Hc. destruct (cell_owned _ _ Hs' c Hc) as [?|[o' Ho']]; [done|].
        right. exists o'. rewrite lookup_delete_ne; [done|]. intros <-.
        rewrite Hv, lookup_insert_eq in Ho'. done.
    + unfold abs at 2. simpl. rewrite fmap_delete.
      change (content {| cells := cells s'; vars := delete o (vars s') |}) with (content s').
      fold (abs s'). by rewrite Ha, delete_insert_eq.
  - unfold set_value, value_, mbind, M_bind. by rewrite Ho, abs_lookup, Ho.
Qed.

Lemma simulates_has_value o :
  simulates (has_value o) (x ← lookup_var o; mret (bool_decide (x ≠ None))).
Proof.
  intros s Hs. pose proof (vars_abs s o Hs) as Hv.
  unfold has_value, value_, lookup_var, mbind, M_bind.
  destruct (abs s !! o) as [[v|]|]; [destruct Hv as (c & -> & _)|rewrite Hv..]; done.
Qed.

Lemma simulates_get_value o : simulates (r ← value o; read r) (get_var (T:=T) o).
Proof.
  intros s Hs. pose proof (value_var s o Hs) as Hv. unfold mbind, M_bind.
  destruct (get_var o (abs s)) as [v t|f]; [|by rewrite Hv].
  destruct Hv as (-> & r & -> & Hr). by rewrite Hr.
Qed.

Lemma simulates_then {A B} (f : A → B) (m : M (Store T) A) n :
  simulates m n → simulates (a ← m; mret (f a)) (a ← n; mret (f a)).
Proof. intros Hm. apply simulates_bind; [done|]. intros a. apply simulates_ret. Qed.

Lemma simulates_exec c : simulates (exec c) (spec_exec (T:=T) c).
Proof.
  destruct c; simpl.
  - apply simulates_then, simulates_default.
  - apply simulates_then, simulates_copy.
  - apply simulates_then, simulates_of_value.
  - apply (simulates_then (λ b, [ObsBool b])), simulates_has_value.
  - apply (simulates_then (λ v, [ObsValue v])), simulates_get_value.
  - apply simulates_then, simulates_assign_value.
  - apply simulates_then, simulates_from.
  - apply simulates_then, simulates_destroy.
Qed.

Lemma simulates_run cs : simulates (run_stmts exec cs) (run_stmts (spec_exec (T:=T)) cs).
Proof.
  induction cs as [|c cs IH]; simpl; [apply simulates_ret|].
  apply simulates_bind; [apply simulates_exec|]. intros obs.
  apply simulates_bind; [done|]. intros obs'. apply simulates_ret.
Qed.

(** A store in which no [optional] is left has no cell left. *)
Lemma owned_no_leak s : owned None s → vars s = ∅ → cells s = ∅.
Proof.
  intros Hs Hv. apply map_empty. intros c. apply eq_None_not_Some. intros Hc.
  destruct (cell_owned _ _ Hs c Hc) as [?|[o Ho]]; [done|]. by rewrite Hv, lookup_empty in Ho.
Qed.

End proofs.

(** C25: [optional] objects cannot be told from variables that hold a Rocq
    [option].  Any program that constructs, copies, assigns, queries and
    destroys such objects, with arguments that may refer to the value inside
    any object (also the one assigned to), either fails in both with the same
    failure ([CHECK] in [value()], use of an object that does not live,
    construction over a living one), or returns the same observations.  Then
    the values are the same, no two objects own the same heap cell, and the
    cells in use are those the living objects own: when the program has
    destroyed its objects, nothing has leaked. *)
Theorem optional_equivalence {T} (cs : list (stmt T)) :
  match run_stmts exec cs empty_store with
  | Ok obs s =>
      run_stmts spec_exec cs ∅ = Ok obs (abs s) ∧
      (∀ o1 o2 c, vars s !! o1 = Some (Some c) → vars s !! o2 = Some (Some c) → o1 = o2) ∧
      (∀ c, is_Some (cells s !! c) ↔ ∃ o, vars s !! o = Some (Some c)) ∧
      (vars s = ∅ → cells s = ∅)
  | Fail f => run_stmts spec_exec cs ∅ = Fail f
  end.
Proof.
  pose proof (simulates_run cs empty_store owned_empty) as Hsim.
  assert (abs (T:=T) empty_store = ∅) as Habs by apply fmap_empty. rewrite Habs in Hsim.
  destruct (run_stmts exec cs empty_store) as [obs s|f], (run_stmts spec_exec cs ∅) as [obs' t|f'];
    try done; [|by rewrite Hsim].
  destruct Hsim as (-> & Hs & ->). split; [done|]. split; [by eapply owner_unique|].
  split; [|by apply owned_no_leak]. intros c. split.
  - intros Hc. by destruct (cell_owned _ _ Hs c Hc).
  - intros [o Ho]. by eapply owner_alive.
Qed.

(** An assignment from the object's own value and a self-assignment keep the
    value; a [CHECK] fails on an object without one. *)
Example optional_aliasing :
  run_stmts exec
    [SOfValue 0 (Literal 7%Z); SAssignValue 0 (ValueOf 0); SAssignOptional 0 0;
     SCopy 1 0; SAssignValue 0 (Literal 8%Z); SGetValue 0; SGetValue 1;
     SDestroy 0; SDestroy 1; SDefault 2; SHasValue 2] empty_store
  = Ok [ObsValue 8%Z; ObsValue 7%Z; ObsBool false] (mkStore ∅ {[ 2 := None ]}) ∧
  run_stmts exec [SDefault 0; SGetValue (T:=Z) 0] empty_store
  = Fail (CheckFailed "value_ != nullptr").
Proof. split; vm_compute; reflexivity. Qed.
