(* ===== verification/BlockingQueue.v ===== *)
(** * [common::BlockingQueue]

    The operations of src/async_grpc/common/blocking_queue.h as atomic steps:
    each member function holds [mutex_] from its first line to its return
    except while it waits, so what it does to [deque_] happens at one instant,
    the one at which its wait condition was found to hold.  [None] stands for
    a call that would still be waiting. *)

From Stdlib Require Import ZArith Lia.
From stdpp Require Import base option list.
From S2P Require Import Prelude.

Set Default Proof Using "Type".

Definition kInfiniteQueueSize : Z := 0.

Record BlockingQueue (T : Type) := mkBlockingQueue {
  queue_size_ : Z;
  deque_ : list T
}.
Arguments mkBlockingQueue {T} queue_size_ deque_.
Arguments queue_size_ {T} b.
Arguments deque_ {T} b.

(** The explicit constructor and the default one. *)
Definition BlockingQueue_sized {T} (queue_size : Z) : BlockingQueue T :=
  mkBlockingQueue queue_size [].

Definition BlockingQueue_default {T} : BlockingQueue T :=
  BlockingQueue_sized kInfiniteQueueSize.

Section operations.
Context {T : Type}.
Implicit Types q : BlockingQueue T.

Definition QueueEmptyCondition q : bool :=
  match deque_ q with [] => true | _ => false end.

Definition QueueNotFullCondition q : bool :=
  (queue_size_ q =? kInfiniteQueueSize)%Z ||
  (Z.of_nat (length (deque_ q)) <? queue_size_ q)%Z.

Definition push_back (t : T) q : BlockingQueue T :=
  mkBlockingQueue (queue_size_ q) (deque_ q ++ [t]).

Definition pop_front q : option (T * BlockingQueue T) :=
  match deque_ q with
  | [] => None
  | t :: d => Some (t, mkBlockingQueue (queue_size_ q) d)
  end.

(** [Push] waits for [QueueNotFullCondition]. *)
Definition Push (t : T) q : option (BlockingQueue T) :=
  if QueueNotFullCondition q then Some (push_back t q) else None.

(** [AwaitWithTimeout] returns the value of the predicate when the wait
    ends, so the result [false] means the queue was full at that instant. *)
Definition PushWithTimeout (t : T) q : bool * BlockingQueue T :=
  if QueueNotFullCondition q then (true, push_back t q) else (false, q).

(** [Pop] waits for [!QueueEmptyCondition]. *)
Definition Pop q : option (T * BlockingQueue T) :=
  if negb (QueueEmptyCondition q) then pop_front q else None.

(** The value [None] is the [nullptr] of a timed-out call. *)
Definition PopWithTimeout q : option T * BlockingQueue T :=
  if negb (QueueEmptyCondition q) then
    match pop_front q with
    | Some (t, q') => (Some t, q')
    | None => (None, q)
    end
  else (None, q).

Definition Peek q : option T :=
  match deque_ q with [] => None | t :: _ => Some t end.

Definition Size q : nat := length (deque_ q).

(** [WaitUntilEmpty] returns when the queue is empty and changes nothing. *)
Definition WaitUntilEmpty q : option unit :=
  if QueueEmptyCondition q then Some tt else None.

(** A finite sequence of calls made on one queue, in the order in which they
    took effect.  [run_ops] returns the queue after them, the values accepted
    by the push calls and the values handed out by the pop calls. *)
Inductive QueueOp :=
  | OpPush (t : T)
  | OpPushWithTimeout (t : T)
  | OpPop
  | OpPopWithTimeout
  | OpPeek
  | OpSize
  | OpWaitUntilEmpty.

Definition run_op (o : QueueOp) q : option (BlockingQueue T * list T * list T) :=
  match o with
  | OpPush t => q' ← Push t q; Some (q', [t], [])
  | OpPushWithTimeout t =>
      let '(ok, q') := PushWithTimeout t q in
      Some (q', if ok then [t] else [], [])
  | OpPop => '(t, q') ← Pop q; Some (q', [], [t])
  | OpPopWithTimeout =>
      let '(r, q') := PopWithTimeout q in
      Some (q', [], match r with Some t => [t] | None => [] end)
  | OpPeek => Some (q, [], [])
  | OpSize => Some (q, [], [])
  | OpWaitUntilEmpty => _ ← WaitUntilEmpty q; Some (q, [], [])
  end.

Fixpoint run_ops (os : list QueueOp) q : option (BlockingQueue T * list T * list T) :=
  match os with
  | [] => Some (q, [], [])
  | o :: os' =>
      '(q1, pushed1, popped1) ← run_op o q;
      '(q2, pushed2, popped2) ← run_ops os' q1;
      Some (q2, pushed1 ++ pushed2, popped1 ++ popped2)
  end.

(** The capacity invariant. *)
Definition queue_wf q : Prop :=
  queue_size_ q = kInfiniteQueueSize ∨ (Z.of_nat (length (deque_ q)) ≤ queue_size_ q)%Z.

(** ** Lemmas *)

Lemma Push_infinite t q :
  queue_size_ q = kInfiniteQueueSize → Push t q = Some (push_back t q).
Proof. intros Hq. unfold Push, QueueNotFullCondition. by rewrite Hq. Qed.

Lemma run_op_size o q q' pushed popped :
  run_op o q = Some (q', pushed, popped) → queue_size_ q' = queue_size_ q.
Proof.
  destruct o; unfold run_op, Push, PushWithTimeout, Pop, PopWithTimeout, pop_front,
    WaitUntilEmpty; repeat case_match; naive_solver.
Qed.

Lemma run_op_fifo o q q' pushed popped :
  run_op o q = Some (q', pushed, popped) → deque_ q ++ pushed = popped ++ deque_ q'.
Proof.
  destruct o; unfold run_op, Push, PushWithTimeout, Pop, PopWithTimeout, pop_front,
    WaitUntilEmpty; destruct q as [n [|x d]]; simpl; intros H; repeat case_match;
    simplify_eq/=; by rewrite ?app_nil_r.
Qed.

Lemma run_op_wf o q q' pushed popped :
  queue_wf q → run_op o q = Some (q', pushed, popped) → queue_wf q'.
Proof.
  destruct o; unfold run_op, Push, PushWithTimeout, Pop, PopWithTimeout, pop_front,
    WaitUntilEmpty, queue_wf, QueueNotFullCondition; destruct q as [n d]; simpl;
    intros Hwf H; repeat case_match; simplify_eq/=; try done;
    rewrite ?orb_true_iff, ?orb_false_iff in *;
    rewrite ?Z.eqb_eq, ?Z.ltb_lt, ?length_app in *; simpl in *; naive_solver lia.
Qed.

Lemma run_ops_size os q q' pushed popped :
  run_ops os q = Some (q', pushed, popped) → queue_size_ q' = queue_size_ q.
Proof.
  revert q q' pushed popped. induction os as [|o os IH]; simpl; intros q q' pushed popped H.
  - by simplify_eq.
  - apply bind_Some in H as ([[q1 pu1] po1] & H1 & H).
    apply bind_Some in H as ([[q2 pu2] po2] & H2 & [= <- <- <-]).
    apply run_op_size in H1. apply IH in H2. congruence.
Qed.

End operations.
Arguments QueueOp T : clear implicits.

(** ** Properties *)

Section properties.
Context {T : Type}.

(** FIFO and no loss.  For every sequence of calls that took effect on
    one queue, whatever kind each call is, the values handed out followed by
    the values still queued are exactly the values that were there followed
    by the accepted ones, in order. *)
Theorem blocking_queue_fifo (os : list (QueueOp T)) q q' pushed popped :
  run_ops os q = Some (q', pushed, popped) → deque_ q ++ pushed = popped ++ deque_ q'.
Proof.
  revert q q' pushed popped. induction os as [|o os IH]; simpl; intros q q' pushed popped H.
  - simplify_eq. apply app_nil_r.
  - apply bind_Some in H as ([[q1 pu1] po1] & H1 & H).
    apply bind_Some in H as ([[q2 pu2] po2] & H2 & [= <- <- <-]).
    apply run_op_fifo in H1. apply IH in H2.
    by rewrite app_assoc, H1, <- !app_assoc, H2.
Qed.

(** C26: capacity.  A queue constructed with a positive size never holds more
    than that many items, over every sequence of calls. *)
Theorem blocking_queue_capacity (n : Z) (os : list (QueueOp T)) q' pushed popped :
  (0 < n)%Z → run_ops os (BlockingQueue_sized n) = Some (q', pushed, popped) →
  (Z.of_nat (Size q') ≤ n)%Z.
Proof.
  intros Hn Hrun.
  assert (queue_wf (BlockingQueue_sized (T:=T) n)) as Hwf by (right; simpl; lia).
  pose proof (run_ops_size _ _ _ _ _ Hrun) as Hsz. simpl in Hsz.
  assert (queue_wf q') as [Hinf|Hle]; [|rewrite Hinf in Hsz; unfold kInfiniteQueueSize in *; lia
    |by rewrite Hsz in Hle].
  clear Hn Hsz. revert Hwf Hrun. generalize (BlockingQueue_sized (T:=T) n) as q.
  revert pushed popped. induction os as [|o os IH]; simpl; intros pushed popped q Hwf H;
    [by simplify_eq|].
  apply bind_Some in H as ([[q1 pu1] po1] & H1 & H).
  apply bind_Some in H as ([[q2 pu2] po2] & H2 & [= <- <- <-]).
  eapply IH; [by eapply run_op_wf|done].
Qed.

End properties.

Lemma blocking_queue_fifo_witness :
  deque_ (BlockingQueue_sized (T:=nat) 2) ++ [1; 2; 4] = [1; 2] ++ [4].
Proof.
  apply (blocking_queue_fifo
    [OpPush 1; OpPush 2; OpPushWithTimeout 3; OpPop; OpPopWithTimeout; OpPopWithTimeout;
     OpWaitUntilEmpty; OpPush 4]
    (BlockingQueue_sized 2) (mkBlockingQueue 2 [4]) [1; 2; 4] [1; 2]).
  reflexivity.
Defined.

Lemma blocking_queue_capacity_witness :
  (Z.of_nat (Size (mkBlockingQueue 2 [1; 2])) ≤ 2)%Z.
Proof.
  apply (blocking_queue_capacity 2 [OpPush 1; OpPush 2; OpPushWithTimeout 3]
    (mkBlockingQueue 2 [1; 2]) [1; 2] []); [lia|reflexivity].
Defined.
