(* ===== verification/Mutex.v ===== *)
(** * [common::Mutex] under [common::BlockingQueue]

    The monitor of src/async_grpc/common/mutex.h: [Locker] acquires the mutex,
    [Await] and [AwaitWithTimeout] wait on the condition variable, and the
    destructor of [Locker] first unlocks and then notifies all waiters.  Calls
    of the member functions of [BlockingQueue] run through it concurrently,
    one instruction at a time.  The theorems say that the calls take effect
    one after the other, as the atomic operations of [BlockingQueue] do, and
    that no wake-up is lost. *)

From Stdlib Require Import ZArith Lia.
From stdpp Require Import base option list relations.
From S2P Require Import Prelude BlockingQueue.

Set Default Proof Using "Type".

Section monitor.
Context {T : Type}.
Implicit Types (o : QueueOp T) (q : BlockingQueue T).

(** What a call returns. *)
Inductive QueueResult :=
  | RVoid
  | RBool (b : bool)
  | RValue (v : option T)
  | RSize (n : nat).

(** ** The member functions, split at the wait *)

(** The predicate a member function waits for. *)
Definition await_condition o q : bool :=
  match o with
  | OpPush _ | OpPushWithTimeout _ => QueueNotFullCondition q
  | OpPop | OpPopWithTimeout => negb (QueueEmptyCondition q)
  | OpPeek | OpSize => true
  | OpWaitUntilEmpty => QueueEmptyCondition q
  end.

(** What follows the wait.  [None]: [front] or [pop_front] of an empty
    deque. *)
Definition critical_section o q : option (QueueResult * BlockingQueue T) :=
  match o with
  | OpPush t => Some (RVoid, push_back t q)
  | OpPushWithTimeout t => Some (RBool true, push_back t q)
  | OpPop | OpPopWithTimeout => '(t, q') ← pop_front q; Some (RValue (Some t), q')
  | OpPeek => Some (RValue (Peek q), q)
  | OpSize => Some (RSize (Size q), q)
  | OpWaitUntilEmpty => Some (RVoid, q)
  end.

(** What a call returns when [AwaitWithTimeout] returned false; the other
    functions have no timeout. *)
Definition timeout_result o : option QueueResult :=
  match o with
  | OpPushWithTimeout _ => Some (RBool false)
  | OpPopWithTimeout => Some (RValue None)
  | _ => None
  end.

(** ** The monitor *)

(** Where a call is.  In [Checking], [Inside] and [Unlocking] it holds the
    mutex; [timed_out] says that the wait that ended had timed out. *)
Inductive Pc :=
  | Acquiring
  | Checking (timed_out : bool)
  | Waiting
  | Waking (timed_out : bool)
  | Inside
  | Unlocking (r : QueueResult)
  | Notifying (r : QueueResult)
  | Returned (r : QueueResult).

Record Call := mkCall {
  call_op : QueueOp T;
  call_pc : Pc
}.

(** [history] lists the calls in the order in which they took effect. *)
Record Monitor := mkMonitor {
  owner : option nat;
  monitor_queue : BlockingQueue T;
  monitor_calls : list Call;
  history : list (nat * QueueOp T * QueueResult)
}.

Definition Monitor_new q : Monitor := mkMonitor None q [] [].

Definition goto (i : nat) (o : QueueOp T) (pc : Pc) (m : Monitor) : list Call :=
  <[i := mkCall o pc]> (monitor_calls m).

(** Taking the mutex, in the constructor of [Locker] or on the way out of a
    wait. *)
Definition acquire (i : nat) o (timed_out : bool) (m : Monitor) : option Monitor :=
  match owner m with
  | None => Some (mkMonitor (Some i) (monitor_queue m) (goto i o (Checking timed_out) m) (history m))
  | Some _ => None
  end.

(** One turn of the loop of [condition_.wait(lock_, predicate)] and of
    [condition_.wait_for(lock_, timeout, predicate)]: waiting releases the
    mutex. *)
Definition await (i : nat) o (timed_out : bool) (m : Monitor) : option Monitor :=
  if await_condition o (monitor_queue m) then
    Some (mkMonitor (owner m) (monitor_queue m) (goto i o Inside m) (history m))
  else
    match timed_out, timeout_result o with
    | true, Some r =>
        Some (mkMonitor (owner m) (monitor_queue m) (goto i o (Unlocking r) m)
          (history m ++ [(i, o, r)]))
    | _, _ => Some (mkMonitor None (monitor_queue m) (goto i o Waiting m) (history m))
    end.

(** The rest of the member function. *)
Definition run_inside (i : nat) o (m : Monitor) : option Monitor :=
  '(r, q') ← critical_section o (monitor_queue m);
  Some (mkMonitor (owner m) q' (goto i o (Unlocking r) m) (history m ++ [(i, o, r)])).

(** The destructor of [Locker]: [lock_.unlock()], then [notify_all()]. *)
Definition unlock (i : nat) o r (m : Monitor) : option Monitor :=
  Some (mkMonitor None (monitor_queue m) (goto i o (Notifying r) m) (history m)).

Definition notified (c : Call) : Call :=
  match call_pc c with Waiting => mkCall (call_op c) (Waking false) | _ => c end.

Definition notify_all (i : nat) o r (m : Monitor) : option Monitor :=
  Some (mkMonitor (owner m) (monitor_queue m) (<[i := mkCall o (Returned r)]>
    (notified <$> monitor_calls m)) (history m)).

(** The next instruction of call [i], if it can run. *)
Definition go (i : nat) (m : Monitor) : option Monitor :=
  c ← monitor_calls m !! i;
  match call_pc c with
  | Acquiring => acquire i (call_op c) false m
  | Checking timed_out => await i (call_op c) timed_out m
  | Waiting => None
  | Waking timed_out => acquire i (call_op c) timed_out m
  | Inside => run_inside i (call_op c) m
  | Unlocking r => unlock i (call_op c) r m
  | Notifying r => notify_all i (call_op c) r m
  | Returned _ => None
  end.

(** A waiting call can also wake up by itself or because its time is up. *)
Definition wake (i : nat) (timed_out : bool) (m : Monitor) : option Monitor :=
  c ← monitor_calls m !! i;
  match call_pc c with
  | Waiting =>
      Some (mkMonitor (owner m) (monitor_queue m) (goto i (call_op c) (Waking timed_out) m)
        (history m))
  | _ => None
  end.

Definition begin_call o (m : Monitor) : Monitor :=
  mkMonitor (owner m) (monitor_queue m) (monitor_calls m ++ [mkCall o Acquiring]) (history m).

Inductive monitor_step (m m' : Monitor) : Prop :=
  | step_call o : m' = begin_call o m → monitor_step m m'
  | step_go i : go i m = Some m' → monitor_step m m'
  | step_wake i timed_out : wake i timed_out m = Some m' → monitor_step m m'.

(** ** The atomic specification *)

(** A call that takes effect at one instant, by the operations of
    [BlockingQueue]. *)
Definition atomic_call o q : option (QueueResult * BlockingQueue T) :=
  match o with
  | OpPush t => q' ← Push t q; Some (RVoid, q')
  | OpPushWithTimeout t => let '(b, q') := PushWithTimeout t q in Some (RBool b, q')
  | OpPop => '(t, q') ← Pop q; Some (RValue (Some t), q')
  | OpPopWithTimeout => let '(v, q') := PopWithTimeout q in Some (RValue v, q')
  | OpPeek => Some (RValue (Peek q), q)
  | OpSize => Some (RSize (Size q), q)
  | OpWaitUntilEmpty => WaitUntilEmpty q ;; Some (RVoid, q)
  end.

(** Calls one after the other, with the results they are said to have. *)
Inductive replays : BlockingQueue T → list (nat * QueueOp T * QueueResult) → BlockingQueue T → Prop :=
  | replays_nil q : replays q [] q
  | replays_snoc q l q1 i o r q2 :
      replays q l q1 → atomic_call o q1 = Some (r, q2) → replays q (l ++ [(i, o, r)]) q2.

(** ** The invariant *)

Definition holds_mutex (pc : Pc) : bool :=
  match pc with Checking _ | Inside | Unlocking _ => true | _ => false end.

(** The result of a call that took effect. *)
Definition pc_result (pc : Pc) : option QueueResult :=
  match pc with Unlocking r | Notifying r | Returned r => Some r | _ => None end.

(** It has not notified the waiters yet. *)
Definition will_notify (pc : Pc) : bool :=
  match pc with Unlocking _ | Notifying _ => true | _ => false end.

Record monitor_inv (q0 : BlockingQueue T) (m : Monitor) : Prop := {
  m_owner : ∀ i c, monitor_calls m !! i = Some c → holds_mutex (call_pc c) = true ↔ owner m = Some i;
  m_bound : ∀ i, owner m = Some i → i < length (monitor_calls m);
  m_inside : ∀ i c, monitor_calls m !! i = Some c → call_pc c = Inside →
    await_condition (call_op c) (monitor_queue m) = true;
  m_history : replays q0 (history m) (monitor_queue m);
  m_results : ∀ i o r, (i, o, r) ∈ history m ↔
    ∃ c, monitor_calls m !! i = Some c ∧ call_op c = o ∧ pc_result (call_pc c) = Some r;
  m_once : NoDup (history m).*1.*1;
  m_wake : ∀ i c, monitor_calls m !! i = Some c → call_pc c = Waiting →
    await_condition (call_op c) (monitor_queue m) = true →
    ∃ j d, monitor_calls m !! j = Some d ∧ will_notify (call_pc d) = true
}.

(** ** Preservation *)

(** One call moves on. *)
Lemma inv_goto q0 m i c pc ow q' h :
  monitor_inv q0 m → monitor_calls m !! i = Some c →
  (holds_mutex pc = true ↔ ow = Some i) → (∀ j, j ≠ i → owner m = Some j ↔ ow = Some j) →
  (pc = Inside → await_condition (call_op c) q' = true) →
  (q' = monitor_queue m ∨ holds_mutex (call_pc c) = true) →
  replays q0 h q' →
  (h = history m ∧ pc_result pc = pc_result (call_pc c) ∨
   ∃ r, h = history m ++ [(i, call_op c, r)] ∧ pc_result (call_pc c) = None ∧
     pc_result pc = Some r) →
  (will_notify pc = true ∨
   q' = monitor_queue m ∧ will_notify (call_pc c) = false ∧
     (pc = Waiting → await_condition (call_op c) q' = false)) →
  monitor_inv q0 (mkMonitor ow q' (goto i (call_op c) pc m) h).
Proof.
  intros I Hc Hown Hother Hin Hq Hrep Hhist Hwake.
  assert (i < length (monitor_calls m)) as Hlt by (by eapply lookup_lt_Some).
  split; simpl; unfold goto.
  - intros j d [(-> & <- & _)|[Hne Hd]]%list_lookup_insert_Some; [done|].
    rewrite <- Hother by done. by apply (m_owner _ _ I).
  - intros j Hj. rewrite length_insert. destruct (decide (j = i)) as [->|Hne]; [done|].
    apply (m_bound _ _ I). by apply Hother.
  - intros j d [(-> & <- & _)|[Hne Hd]]%list_lookup_insert_Some Hpc; [by apply Hin|].
    destruct Hq as [->|Hh]; [by eapply (m_inside _ _ I)|]. exfalso.
    assert (owner m = Some j) by (apply (m_owner _ _ I _ _ Hd); by rewrite Hpc).
    apply (m_owner _ _ I _ _ Hc) in Hh. congruence.
  - done.
  - intros j o r. destruct (decide (j = i)) as [->|Hne].
    + rewrite list_lookup_insert_eq by done. destruct Hhist as [[-> Hr]|(r' & -> & Hn & Hr)].
      * rewrite (m_results _ _ I), Hc. split; intros (d & [= <-] & <- & Hd); simpl in *;
          eexists; (split; [done|]); simpl; split; congruence.
      * rewrite elem_of_app, list_elem_of_singleton, (m_results _ _ I), Hc. split.
        -- intros [(d & [= <-] & _ & ?)|[= -> ->]]; [congruence|eauto].
        -- intros (d & [= <-] & <- & Hd). right. simpl in *. congruence.
    + rewrite list_lookup_insert_ne by done. rewrite <- (m_results _ _ I).
      destruct Hhist as [[-> _]|(r' & -> & _)]; [done|].
      rewrite elem_of_app, list_elem_of_singleton. naive_solver.
  - destruct Hhist as [[-> _]|(r & -> & Hn & _)]; [apply I|].
    rewrite !fmap_app. apply NoDup_app. split_and!; [apply I| |apply NoDup_singleton].
    simpl. intros j Hj ->%list_elem_of_singleton.
    apply list_elem_of_fmap in Hj as ([j o] & -> & Hj). apply list_elem_of_fmap in Hj as ([[j' o'] r'] & [= -> ->] & Hj).
    apply (m_results _ _ I) in Hj as (d & Hd & _ & ?). simpl in *. congruence.
  - intros j d Hj Hpc Hcond. destruct Hwake as [Hw|(-> & Hnw & Hwait)].
    { exists i, (mkCall (call_op c) pc). by rewrite list_lookup_insert_eq. }
    apply list_lookup_insert_Some in Hj as [(-> & <- & _)|[Hne Hd]].
    { simpl in *. rewrite Hwait in Hcond by done. done. }
    destruct (m_wake _ _ I _ _ Hd Hpc Hcond) as (k & e & He & Hke). exists k, e.
    rewrite list_lookup_insert_ne; [done|]. intros ->. congruence.
Qed.

Lemma critical_section_atomic o q r q' :
  await_condition o q = true → critical_section o q = Some (r, q') →
  atomic_call o q = Some (r, q').
Proof.
  unfold atomic_call, critical_section, await_condition, Push, PushWithTimeout, Pop, PopWithTimeout,
    WaitUntilEmpty. destruct o; intros Hc; rewrite ?Hc; try done.
  by destruct (pop_front q) as [[t q1]|].
Qed.

Lemma timeout_atomic o q r :
  await_condition o q = false → timeout_result o = Some r → atomic_call o q = Some (r, q).
Proof.
  unfold atomic_call, await_condition, PushWithTimeout, PopWithTimeout.
  destruct o; simpl; try done; intros -> [= <-]; done.
Qed.

(** After the wait the deque operations are defined. *)
Lemma critical_section_defined o q :
  await_condition o q = true → is_Some (critical_section o q).
Proof.
  unfold await_condition, critical_section, QueueEmptyCondition, pop_front.
  destruct o; try (intros _; eexists; reflexivity); destruct (deque_ q); simpl; try done;
    intros _; eexists; reflexivity.
Qed.

Lemma inv_acquire q0 m i c timed_out m' :
  monitor_inv q0 m → monitor_calls m !! i = Some c → call_pc c = Acquiring ∨ (∃ b, call_pc c = Waking b) →
  acquire i (call_op c) timed_out m = Some m' → monitor_inv q0 m'.
Proof.
  unfold acquire. intros I Hc Hpc. destruct (owner m) eqn:Ho; [done|]. intros [= <-].
  apply (inv_goto q0 m i c (Checking timed_out)); try done; try (by left); try apply I.
  - rewrite Ho. naive_solver.
  - left. split; [done|]. destruct Hpc as [->|[b ->]]; done.
  - right. split_and!; try done. destruct Hpc as [->|[b ->]]; done.
Qed.

Lemma inv_await q0 m i c timed_out m' :
  monitor_inv q0 m → monitor_calls m !! i = Some c → call_pc c = Checking timed_out →
  await i (call_op c) timed_out m = Some m' → monitor_inv q0 m'.
Proof.
  unfold await. intros I Hc Hpc. assert (owner m = Some i) as Ho.
  { apply (m_owner _ _ I _ _ Hc). by rewrite Hpc. }
  destruct (await_condition _ _) eqn:Hcond.
  { intros [= <-]. apply (inv_goto q0 m i c Inside); try done; try (by left); try apply I.
    - by left; rewrite Hpc.
    - by right; rewrite Hpc. }
  assert (Some (mkMonitor None (monitor_queue m) (goto i (call_op c) Waiting m) (history m)) = Some m' →
    monitor_inv q0 m') as Hwait.
  { intros [= <-]. apply (inv_goto q0 m i c Waiting); try done; try (by left); try apply I.
    - rewrite Ho. naive_solver.
    - by left; rewrite Hpc.
    - by right; rewrite Hpc. }
  destruct timed_out; [|done]. destruct (timeout_result _) as [r|] eqn:Hr; [|done]. intros [= <-].
  apply (inv_goto q0 m i c (Unlocking r)); try done; try (by left).
  - eapply replays_snoc; [apply I|]. by apply timeout_atomic.
  - right. exists r. by rewrite Hpc.
Qed.

Lemma inv_inside q0 m i c m' :
  monitor_inv q0 m → monitor_calls m !! i = Some c → call_pc c = Inside →
  run_inside i (call_op c) m = Some m' → monitor_inv q0 m'.
Proof.
  unfold run_inside. intros I Hc Hpc ([r q'] & Hcs & [= <-])%bind_Some.
  assert (owner m = Some i) as Ho by (apply (m_owner _ _ I _ _ Hc); by rewrite Hpc).
  apply (inv_goto q0 m i c (Unlocking r)); try done; try (by left).
  - right. by rewrite Hpc.
  - eapply replays_snoc; [apply I|]. apply critical_section_atomic; [|done].
    by eapply (m_inside _ _ I).
  - right. exists r. by rewrite Hpc.
Qed.

Lemma inv_unlock q0 m i c r m' :
  monitor_inv q0 m → monitor_calls m !! i = Some c → call_pc c = Unlocking r →
  unlock i (call_op c) r m = Some m' → monitor_inv q0 m'.
Proof.
  unfold unlock. intros I Hc Hpc [= <-].
  assert (owner m = Some i) as Ho by (apply (m_owner _ _ I _ _ Hc); by rewrite Hpc).
  apply (inv_goto q0 m i c (Notifying r)); try done; try (by left); try apply I.
  - rewrite Ho. naive_solver.
  - left. by rewrite Hpc.
Qed.

Lemma notified_fields c :
  call_op (notified c) = call_op c ∧ pc_result (call_pc (notified c)) = pc_result (call_pc c) ∧
  holds_mutex (call_pc (notified c)) = holds_mutex (call_pc c) ∧
  (call_pc (notified c) = Inside → call_pc c = Inside) ∧ call_pc (notified c) ≠ Waiting.
Proof. destruct c as [o []]; done. Qed.

(** Waking everyone and returning, as one update of all calls. *)
Lemma inv_notify q0 m i c r m' :
  monitor_inv q0 m → monitor_calls m !! i = Some c → call_pc c = Notifying r →
  notify_all i (call_op c) r m = Some m' → monitor_inv q0 m'.
Proof.
  unfold notify_all. intros I Hc Hpc [= <-].
  assert (∀ j d, <[i := mkCall (call_op c) (Returned r)]> (notified <$> monitor_calls m) !! j = Some d →
    ∃ d0, monitor_calls m !! j = Some d0 ∧ call_op d = call_op d0 ∧
      pc_result (call_pc d) = pc_result (call_pc d0) ∧
      holds_mutex (call_pc d) = holds_mutex (call_pc d0) ∧
      (call_pc d = Inside → call_pc d0 = Inside) ∧ call_pc d ≠ Waiting) as Hcalls.
  { intros j d [(-> & <- & _)|[Hne Hd]]%list_lookup_insert_Some.
    - exists c. by rewrite Hpc.
    - rewrite list_lookup_fmap in Hd. apply fmap_Some in Hd as (d0 & Hd0 & ->).
      exists d0. split; [done|]. apply notified_fields. }
  split; simpl.
  - intros j d (d0 & Hd0 & _ & _ & -> & _)%Hcalls. by apply (m_owner _ _ I).
  - intros j Hj. rewrite length_insert, length_fmap. by apply (m_bound _ _ I).
  - intros j d (d0 & Hd0 & -> & _ & _ & Hin & _)%Hcalls Hpd. apply (m_inside _ _ I _ _ Hd0). auto.
  - apply I.
  - intros j o r'. rewrite (m_results _ _ I). split.
    + intros (d0 & Hd0 & <- & Hr).
      assert (is_Some (<[i := mkCall (call_op c) (Returned r)]> (notified <$> monitor_calls m) !! j)) as [d Hd].
      { apply lookup_lt_is_Some. rewrite length_insert, length_fmap. by eapply lookup_lt_Some. }
      exists d. destruct (Hcalls _ _ Hd) as (d1 & Hd1 & -> & -> & _). simplify_eq. done.
    + intros (d & Hd & <- & Hr). destruct (Hcalls _ _ Hd) as (d0 & Hd0 & Ho & Hr0 & _).
      exists d0. split_and!; [done|done|congruence].
  - apply I.
  - intros j d (d0 & _ & _ & _ & _ & _ & Hw)%Hcalls. done.
Qed.

Lemma inv_wake_up q0 m i timed_out m' :
  monitor_inv q0 m → wake i timed_out m = Some m' → monitor_inv q0 m'.
Proof.
  unfold wake. intros I (c & Hc & Hw)%bind_Some. destruct (call_pc c) eqn:Hpc; try done.
  injection Hw as <-. apply (inv_goto q0 m i c (Waking timed_out)); try done; try (by left); try apply I.
  - split; [done|]. intros Ho. apply (m_owner _ _ I _ _ Hc) in Ho. by rewrite Hpc in Ho.
  - by left; rewrite Hpc.
  - by right; rewrite Hpc.
Qed.

Lemma inv_begin q0 m o : monitor_inv q0 m → monitor_inv q0 (begin_call o m).
Proof.
  intros I. split; simpl; try apply I.
  - intros i c [Hc|[Hge Hc]]%lookup_app_Some; [by apply (m_owner _ _ I)|].
    apply list_lookup_singleton_Some in Hc as [_ <-]. split; [done|].
    intros Ho. pose proof (m_bound _ _ I _ Ho). lia.
  - intros i Hi. pose proof (m_bound _ _ I _ Hi). rewrite length_app. simpl. lia.
  - intros i c [Hc|[_ [_ <-]%list_lookup_singleton_Some]]%lookup_app_Some; [|done].
    by apply (m_inside _ _ I i).
  - intros i o' r. rewrite (m_results _ _ I). split.
    + intros (c & Hc & ?). exists c. split; [|done]. by apply lookup_app_l_Some.
    + intros (c & [Hc|[_ [_ <-]%list_lookup_singleton_Some]]%lookup_app_Some & ? & ?); [eauto|done].
  - intros i c [Hc|[_ [_ <-]%list_lookup_singleton_Some]]%lookup_app_Some Hpc Hcond; [|done].
    destruct (m_wake _ _ I _ _ Hc Hpc Hcond) as (j & d & Hd & Hj).
    exists j, d. split; [by apply lookup_app_l_Some|done].
Qed.

Lemma inv_step q0 m m' : monitor_inv q0 m → monitor_step m m' → monitor_inv q0 m'.
Proof.
  intros I [o ->|i Hgo|i b Hw]; [by apply inv_begin| |by eapply inv_wake_up].
  unfold go in Hgo. apply bind_Some in Hgo as (c & Hc & Hgo). destruct (call_pc c) eqn:Hpc; try done.
  - eapply inv_acquire; eauto.
  - by eapply inv_await.
  - eapply inv_acquire; eauto.
  - by eapply inv_inside.
  - by eapply inv_unlock.
  - by eapply inv_notify.
Qed.

Lemma inv_new q0 : monitor_inv q0 (Monitor_new q0).
Proof.
  split; simpl; try done; [constructor| |constructor].
  intros i o r. split; [by intros ?%elem_of_nil|by intros (? & ? & _)].
Qed.

Lemma inv_reachable q0 m : rtc monitor_step (Monitor_new q0) m → monitor_inv q0 m.
Proof.
  intros Hr. cut (∀ m1 m2, rtc monitor_step m1 m2 → monitor_inv q0 m1 → monitor_inv q0 m2).
  { intros Hgo. eapply Hgo; [exact Hr|apply inv_new]. }
  clear Hr. induction 1 as [|m1 m2 m3 Hstep _ IH]; [done|]. intros I. apply IH. by eapply inv_step.
Qed.

(** ** First in, first out *)

Definition accepted (e : nat * QueueOp T * QueueResult) : list T :=
  match e with
  | (_, OpPush t, _) | (_, OpPushWithTimeout t, RBool true) => [t]
  | _ => []
  end.

Definition handed (e : nat * QueueOp T * QueueResult) : list T :=
  match e with
  | (_, OpPop, RValue (Some t)) | (_, OpPopWithTimeout, RValue (Some t)) => [t]
  | _ => []
  end.

Lemma atomic_call_fifo i o q r q' :
  atomic_call o q = Some (r, q') → deque_ q ++ accepted (i, o, r) = handed (i, o, r) ++ deque_ q'.
Proof.
  destruct o; unfold atomic_call, Push, PushWithTimeout, Pop, PopWithTimeout, pop_front,
    WaitUntilEmpty; destruct q as [n [|x d]]; simpl; intros Hx; repeat case_match;
    simplify_eq/=; by rewrite ?app_nil_r.
Qed.

Lemma replays_fifo q l q' :
  replays q l q' → deque_ q ++ (l ≫= accepted) = (l ≫= handed) ++ deque_ q'.
Proof.
  induction 1 as [q|q l q1 i o r q2 _ IH Hc]; [by rewrite app_nil_r|].
  rewrite !bind_app, app_assoc, IH. cbn [mbind list_bind]. rewrite !app_nil_r, <- !app_assoc.
  f_equal. by apply atomic_call_fifo.
Qed.

Lemma history_grows m m' : monitor_step m m' → history m `prefix_of` history m'.
Proof.
  intros [o ->|i Hgo|i b Hw]; [done| |].
  - unfold go in Hgo. apply bind_Some in Hgo as (c & _ & Hgo).
    unfold acquire, await, run_inside, unlock, notify_all in Hgo.
    repeat case_match; simplify_option_eq; repeat case_match; simplify_eq/=; try done;
      by eexists.
  - unfold wake in Hw. apply bind_Some in Hw as (c & _ & Hw). by case_match; simplify_eq/=.
Qed.

(** ** Properties *)

(** C22: concurrent calls are atomic.  However calls of the member functions
    interleave, spurious wake-ups and timeouts included, the queue is what the
    calls that took effect make of it one after the other; every call that
    returned is among them, once, with the result it returned; the order of
    the calls that took effect never changes later; and values leave the queue
    in the order in which they were accepted. *)
Theorem monitor_linearizable q0 m :
  rtc monitor_step (Monitor_new q0) m →
  replays q0 (history m) (monitor_queue m) ∧ NoDup (history m).*1.*1 ∧
  (∀ i c r, monitor_calls m !! i = Some c → call_pc c = Returned r →
     (i, call_op c, r) ∈ history m) ∧
  (∀ m', monitor_step m m' → history m `prefix_of` history m') ∧
  deque_ q0 ++ (history m ≫= accepted) = (history m ≫= handed) ++ deque_ (monitor_queue m).
Proof.
  intros I%inv_reachable. split_and!; [apply I|apply I| |apply history_grows|].
  - intros i c r Hc Hpc. apply (m_results _ _ I). exists c. by rewrite Hpc.
  - apply replays_fifo, I.
Qed.

(** C23: no lost wake-up.  When a call is blocked in a wait although its
    condition holds, some call is about to notify all waiters: it has taken
    effect and is in the destructor of its [Locker]. *)
Theorem no_lost_wakeup q0 m i c :
  rtc monitor_step (Monitor_new q0) m → monitor_calls m !! i = Some c → call_pc c = Waiting →
  await_condition (call_op c) (monitor_queue m) = true →
  ∃ j d, monitor_calls m !! j = Some d ∧ will_notify (call_pc d) = true.
Proof. intros I%inv_reachable. apply (m_wake _ _ I). Qed.

Lemma go_enabled q0 m i c :
  monitor_inv q0 m → monitor_calls m !! i = Some c →
  (holds_mutex (call_pc c) = true ∨ (∃ r, call_pc c = Notifying r) ∨
   owner m = None ∧ (call_pc c = Acquiring ∨ ∃ b, call_pc c = Waking b)) →
  is_Some (go i m).
Proof.
  intros I Hc Hpc. unfold go. rewrite Hc. simpl.
  destruct (call_pc c) eqn:E; simpl in Hpc; try naive_solver.
  - unfold acquire. destruct Hpc as [?|[[? ?]|[-> _]]]; [done|done|by eexists].
  - unfold await. destruct (await_condition _ _); [by eexists|].
    destruct timed_out; [|by eexists]. destruct (timeout_result _); by eexists.
  - unfold acquire. destruct Hpc as [?|[[? ?]|[-> _]]]; [done|done|by eexists].
  - unfold run_inside.
    destruct (critical_section_defined (call_op c) (monitor_queue m)) as [[r q'] ->];
      [by eapply (m_inside _ _ I)|by eexists].
Qed.

(** No deadlock.  As long as some call has not returned, some call can
    run its next instruction, unless all calls that have not returned are
    waiting for a condition that does not hold. *)
Theorem monitor_progress q0 m :
  rtc monitor_step (Monitor_new q0) m →
  (∃ i, is_Some (go i m)) ∨
  ∀ i c, monitor_calls m !! i = Some c →
    (∃ r, call_pc c = Returned r) ∨
    call_pc c = Waiting ∧ await_condition (call_op c) (monitor_queue m) = false.
Proof.
  intros I%inv_reachable.
  destruct (decide (Exists (λ i, is_Some (go i m)) (seq 0 (length (monitor_calls m)))))
    as [(i & _ & Hi)%Exists_exists|Hnone]; [eauto|right].
  assert (∀ i, ¬ is_Some (go i m)) as Hstuck.
  { intros i Hi. apply Hnone, Exists_exists. exists i. split; [|done]. apply elem_of_seq.
    unfold go in Hi. destruct (monitor_calls m !! i) eqn:Hc; [|by destruct Hi].
    apply lookup_lt_Some in Hc. lia. }
  assert (owner m = None) as Ho.
  { destruct (owner m) as [j|] eqn:Ho; [exfalso|done].
    destruct (lookup_lt_is_Some_2 _ _ (m_bound _ _ I _ Ho)) as [d Hd].
    apply (Hstuck j), (go_enabled q0 m j d I Hd). left. by apply (m_owner _ _ I _ _ Hd). }
  intros i c Hc. pose proof (λ H, Hstuck i (go_enabled q0 m i c I Hc H)) as Hn.
  destruct (call_pc c) eqn:Hpc; [exfalso; apply Hn|exfalso; apply Hn; by left| |exfalso; apply Hn
    |exfalso; apply Hn; by left|exfalso; apply Hn; by left|exfalso; apply Hn|by left; eexists].
  - right. right. split; [done|by left].
  - right. split; [done|]. destruct (await_condition _ _) eqn:Hcond; [exfalso|done].
    destruct (m_wake _ _ I _ _ Hc Hpc Hcond) as (j & d & Hd & Hj).
    apply (Hstuck j), (go_enabled q0 m j d I Hd).
    destruct (call_pc d); try done; [by left|right; left; by eexists].
  - right. right. split; [done|right; by eexists].
  - right. left. by eexists.
Qed.

End monitor.

(** ** A producer and a consumer

    The consumer comes first and waits; the producer pushes, unlocks and is
    about to notify it. *)

Definition run_go (js : list nat) (m : Monitor (T:=nat)) : option Monitor :=
  foldl (λ r i, m ← r; go i m) (Some m) js.

Lemma run_go_steps js (m m' : Monitor (T:=nat)) :
  run_go js m = Some m' → rtc monitor_step m m'.
Proof.
  unfold run_go. revert m. induction js as [|i js IH]; simpl; intros m Hr; [by simplify_eq|].
  destruct (go i m) as [m1|] eqn:Hg.
  - eapply rtc_l; [by eapply step_go|]. by apply IH.
  - exfalso. revert Hr. clear. induction js as [|j js IHj]; simpl; [done|exact IHj].
Qed.

Definition two_calls : Monitor (T:=nat) :=
  begin_call (OpPush 5) (begin_call OpPop (Monitor_new BlockingQueue_default)).

Lemma two_calls_reachable js (m : Monitor) :
  run_go js two_calls = Some m →
  rtc monitor_step (Monitor_new BlockingQueue_default) m.
Proof.
  intros Hr%run_go_steps. eapply rtc_l; [by eapply step_call|].
  eapply rtc_l; [by eapply step_call|]. exact Hr.
Qed.

Lemma monitor_linearizable_witness :
  deque_ (BlockingQueue_default (T:=nat)) ++ [5] = [5] ++ [].
Proof.
  apply (monitor_linearizable BlockingQueue_default
    (mkMonitor None BlockingQueue_default
      [mkCall OpPop (Returned (RValue (Some 5))); mkCall (OpPush 5) (Returned RVoid)]
      [(1, OpPush 5, RVoid); (0, OpPop, RValue (Some 5))])).
  apply (two_calls_reachable [0; 0; 1; 1; 1; 1; 1; 0; 0; 0; 0; 0]). reflexivity.
Defined.

Lemma no_lost_wakeup_witness :
  ∃ j d, [mkCall OpPop Waiting; mkCall (OpPush 5) (Notifying RVoid)] !! j = Some d ∧
    will_notify (T:=nat) (call_pc d) = true.
Proof.
  apply (no_lost_wakeup BlockingQueue_default
    (mkMonitor None (mkBlockingQueue 0 [5])
      [mkCall OpPop Waiting; mkCall (OpPush 5) (Notifying RVoid)] [(1, OpPush 5, RVoid)])
    0 (mkCall OpPop Waiting)); [|reflexivity..].
  apply (two_calls_reachable [0; 0; 1; 1; 1; 1]). reflexivity.
Defined.

Lemma monitor_progress_witness :
  (∃ i, is_Some (go i two_calls)) ∨
  ∀ i c, monitor_calls two_calls !! i = Some c →
    (∃ r, call_pc c = Returned r) ∨
    call_pc c = Waiting ∧ await_condition (call_op c) (monitor_queue two_calls) = false.
Proof.
  apply (monitor_progress BlockingQueue_default two_calls).
  apply (two_calls_reachable []). reflexivity.
Defined.
