(* ===== verification/ExecutionContext.v ===== *)
(** * [ExecutionContext] and its [Synchronized] accessor

    src/async_grpc/execution_context.h with [GetContext] and
    [GetUnsynchronizedContext] of rpc_handler.h and server.h.  The threads
    that share a context run their accesses one at a time, in any order the
    lock allows.  The theorems justify how [Rpc] models handlers: a scope with
    a [Synchronized] object acts on the context as one function. *)

From Stdlib Require Import ZArith Lia.
From stdpp Require Import base option list strings relations.
From S2P Require Import Prelude.

Set Default Proof Using "Type".

Section execution_context.
(** What a context holds; the classes derived from [ExecutionContext], and
    which of them a class is or derives from. *)
Context {Content ContextType : Type} (derives : ContextType → ContextType → bool).

(** An object of some class derived from [ExecutionContext]; [lock_] is the
    thread that holds the mutex. *)
Record ExecutionContext := mkExecutionContext {
  lock_ : option nat;
  dynamic_type : ContextType;
  content : Content
}.

(** [ExecutionContext*], null until [Server::SetExecutionContext]. *)
Abbreviation ContextPtr := (option ExecutionContext).

Definition deref_context (p : ContextPtr) : outcome ContextPtr ExecutionContext :=
  match p with Some c => Ok c p | None => Fail NullPointer end.

Definition set_lock (l : option nat) (c : ExecutionContext) : ExecutionContext :=
  mkExecutionContext l (dynamic_type c) (content c).

Definition set_content (f : Content → Content) (c : ExecutionContext) : ExecutionContext :=
  mkExecutionContext (lock_ c) (dynamic_type c) (f (content c)).

(** The constructor of [Synchronized] acquires the mutex; locking a
    [std::mutex] its own thread holds is undefined. *)
Definition Synchronized_new (i : nat) (c : ExecutionContext) : M ContextPtr unit :=
  match lock_ c with
  | None => put (Some (set_lock (Some i) c))
  | Some j => fail (if decide (j = i) then UndefinedBehaviour else Blocked)
  end.

(** [RpcHandler::GetContext<T>()]: [execution_context_->lock()] dereferences
    the pointer. *)
Definition GetContext (i : nat) : M ContextPtr unit :=
  c ← deref_context; Synchronized_new i c.

(** [Server::GetContext<T>()], for code outside handlers, does the same. *)
Definition Server_GetContext (i : nat) : M ContextPtr unit :=
  c ← deref_context; Synchronized_new i c.

(** An access through [operator->], which casts statically. *)
Definition Synchronized_arrow (T : ContextType) (f : Content → Content) : M ContextPtr unit :=
  c ← deref_context;
  if derives (dynamic_type c) T then put (Some (set_content f c)) else fail UndefinedBehaviour.

(** The end of the scope of a [Synchronized]: the locker is destroyed. *)
Definition Synchronized_destroy : M ContextPtr unit :=
  c ← deref_context; put (Some (set_lock None c)).

(** [dynamic_cast]: null for the wrong class, and for a null pointer. *)
Definition GetUnsynchronizedContext (T : ContextType) : M ContextPtr bool := λ p,
  match p with
  | Some c => Ok (derives (dynamic_type c) T) p
  | None => Ok false p
  end.

Definition Server_GetUnsynchronizedContext (T : ContextType) : M ContextPtr bool :=
  GetUnsynchronizedContext T.

Definition Unsynchronized_arrow (T : ContextType) (f : Content → Content) : M ContextPtr unit :=
  cast ← GetUnsynchronizedContext T;
  if (cast : bool) then modify (fmap (set_content f)) else fail NullPointer.

(** ** Threads that use a context *)

Inductive Stmt :=
  | SGetContext
  | SArrow (T : ContextType) (f : Content → Content)
  | SEndScope
  | SUnsynchronized (T : ContextType) (f : Content → Content).

Definition exec_stmt (i : nat) (s : Stmt) : M ContextPtr unit :=
  match s with
  | SGetContext => GetContext i
  | SArrow T f => Synchronized_arrow T f
  | SEndScope => Synchronized_destroy
  | SUnsynchronized T f => Unsynchronized_arrow T f
  end.

Record System := mkSystem {
  context_ptr : ContextPtr;
  code : list (list Stmt)
}.

Inductive context_step (s : System) : System → Prop :=
  | context_step_intro i st rest p :
      code s !! i = Some (st :: rest) → exec_stmt i st (context_ptr s) = Ok tt p →
      context_step s (mkSystem p (<[i := rest]> (code s))).

(** A scope: the accesses made through one [Synchronized] object. *)
Definition Scope : Type := list (ContextType * (Content → Content)).

Definition arrows (k : Scope) : list Stmt := (λ a, SArrow a.1 a.2) <$> k.

Definition compile_scope (k : Scope) : list Stmt := SGetContext :: arrows k ++ [SEndScope].
Definition compile (ks : list Scope) : list Stmt := mjoin (compile_scope <$> ks).

(** What a scope does when nothing comes between, and a sequence of scopes of
    several threads. *)
Definition run_scope (k : Scope) (x : Content) : Content := foldl (λ x a, a.2 x) x k.

Definition run_scopes (ks : list (nat * Scope)) (x : Content) : Content :=
  foldl (λ x k, run_scope k.2 x) x ks.

Definition scopes_of (i : nat) (ks : list (nat * Scope)) : list Scope :=
  omap (λ k, if decide (k.1 = i) then Some k.2 else None) ks.

Lemma compile_cons k ks : compile (k :: ks) = SGetContext :: arrows k ++ SEndScope :: compile ks.
Proof. unfold compile. simpl. by rewrite <- app_assoc. Qed.

Lemma scopes_of_snoc i j k ks :
  scopes_of i (ks ++ [(j, k)]) = scopes_of i ks ++ (if decide (j = i) then [k] else []).
Proof. unfold scopes_of. rewrite omap_app. simpl. by destruct (decide (j = i)). Qed.

Lemma run_scopes_snoc ks i k x : run_scopes (ks ++ [(i, k)]) x = run_scope k (run_scopes ks x).
Proof. unfold run_scopes. by rewrite foldl_app. Qed.

Lemma run_scope_snoc k a x : run_scope (k ++ [a]) x = a.2 (run_scope k x).
Proof. unfold run_scope. by rewrite foldl_app. Qed.

(** ** The invariant *)

Section programs.
Context (ty : ContextType) (x0 : Content) (programs : list (list Scope)).
(** Every access uses a class the context is of. *)
Hypothesis well_typed :
  ∀ ks k a, ks ∈ programs → k ∈ ks → a ∈ k → derives ty a.1 = true.

Definition context_start : System :=
  mkSystem (Some (mkExecutionContext None ty x0)) (compile <$> programs).

(** Thread [i] is between two scopes. *)
Definition outside (s : System) (done_ : list (nat * Scope)) (i : nat) (prog : list Scope) : Prop :=
  ∃ rest, code s !! i = Some (compile rest) ∧ scopes_of i done_ ++ rest = prog.

(** Thread [i] is in a scope of which it has made the accesses [pre]. *)
Definition inside (s : System) (done_ : list (nat * Scope)) (i : nat) (prog : list Scope)
    (pre post : Scope) : Prop :=
  ∃ rest, code s !! i = Some (arrows post ++ SEndScope :: compile rest) ∧
    scopes_of i done_ ++ (pre ++ post) :: rest = prog.

Record context_inv (s : System) (done_ : list (nat * Scope)) (pre : Scope) : Prop := {
  ci_length : length (code s) = length programs;
  ci_context : ∃ l, context_ptr s =
    Some (mkExecutionContext l ty (run_scope pre (run_scopes done_ x0))) ∧
    match l with
    | None => pre = [] ∧ ∀ i prog, programs !! i = Some prog → outside s done_ i prog
    | Some h => h < length programs ∧ ∀ i prog, programs !! i = Some prog →
        if decide (i = h) then ∃ post, inside s done_ i prog pre post else outside s done_ i prog
    end
}.

Lemma context_inv_start : context_inv context_start [] [].
Proof.
  split; simpl; [apply length_fmap|]. exists None. split; [done|]. split; [done|].
  intros i prog Hi. exists prog. simpl. by rewrite list_lookup_fmap, Hi.
Qed.

Lemma outside_other s p i j c done_ prog :
  i ≠ j → outside s done_ i prog → outside (mkSystem p (<[j := c]> (code s))) done_ i prog.
Proof. intros Hne (rest & Hc & Hp). exists rest. simpl. by rewrite list_lookup_insert_ne. Qed.

Lemma outside_snoc s i j k done_ prog :
  i ≠ j → outside s done_ i prog → outside s (done_ ++ [(j, k)]) i prog.
Proof.
  intros Hne (rest & Hc & Hp). exists rest. rewrite scopes_of_snoc, decide_False by done.
  by rewrite app_nil_r.
Qed.

(** The first statement of a thread between two scopes. *)
Lemma outside_head s done_ i prog st rest :
  outside s done_ i prog → code s !! i = Some (st :: rest) →
  ∃ k ks, st = SGetContext ∧ rest = arrows k ++ SEndScope :: compile ks ∧
    scopes_of i done_ ++ k :: ks = prog.
Proof.
  intros ([|k ks] & Hc & Hp) Hi; rewrite Hc in Hi; [done|]. rewrite compile_cons in Hi.
  injection Hi as <- <-. eauto.
Qed.

(** Taking the lock, an access, and dropping the lock. *)
Lemma context_inv_enter s done_ pre i k ks prog x :
  context_inv s done_ pre → context_ptr s = Some (mkExecutionContext None ty x) →
  programs !! i = Some prog → scopes_of i done_ ++ k :: ks = prog →
  context_inv (mkSystem (Some (mkExecutionContext (Some i) ty x))
    (<[i := arrows k ++ SEndScope :: compile ks]> (code s))) done_ [].
Proof.
  intros [Hlen (l' & Hc & Hl)] Hp Hi Hk. rewrite Hp in Hc. simplify_eq.
  destruct Hl as [-> Hout]. split; simpl; [by rewrite length_insert|]. eexists. split; [done|].
  split; [by eapply lookup_lt_Some|]. intros j pj Hj. destruct (decide (j = i)) as [->|Hne].
  - rewrite Hi in Hj. simplify_eq. exists k, ks. simpl.
    rewrite list_lookup_insert_eq; [done|]. rewrite Hlen. by eapply lookup_lt_Some.
  - by apply outside_other, Hout.
Qed.

Lemma context_inv_access s done_ pre a post ks h prog x :
  context_inv s done_ pre → context_ptr s = Some (mkExecutionContext (Some h) ty x) →
  programs !! h = Some prog → scopes_of h done_ ++ (pre ++ a :: post) :: ks = prog →
  context_inv (mkSystem (Some (mkExecutionContext (Some h) ty (a.2 x)))
    (<[h := arrows post ++ SEndScope :: compile ks]> (code s))) done_ (pre ++ [a]).
Proof.
  intros [Hlen (l' & Hc & Hl)] Hp Hh Hk. rewrite Hp in Hc. simplify_eq.
  destruct Hl as [Hlt Hall]. split; simpl; [by rewrite length_insert|]. exists (Some h).
  rewrite run_scope_snoc. split; [done|]. split; [done|]. intros j pj Hj. specialize (Hall j pj Hj).
  destruct (decide (j = h)) as [->|Hne]; [|by apply outside_other].
  rewrite Hh in Hj. simplify_eq. exists post, ks. simpl.
  rewrite list_lookup_insert_eq by (rewrite Hlen; done). by rewrite <- app_assoc.
Qed.

Lemma context_inv_leave s done_ pre ks h prog x :
  context_inv s done_ pre → context_ptr s = Some (mkExecutionContext (Some h) ty x) →
  programs !! h = Some prog → scopes_of h done_ ++ pre :: ks = prog →
  context_inv (mkSystem (Some (mkExecutionContext None ty x)) (<[h := compile ks]> (code s)))
    (done_ ++ [(h, pre)]) [].
Proof.
  intros [Hlen (l' & Hc & Hl)] Hp Hh Hk. rewrite Hp in Hc. simplify_eq.
  destruct Hl as [Hlt Hall]. split; simpl; [by rewrite length_insert|]. exists None.
  rewrite run_scopes_snoc. split; [done|]. split; [done|]. intros j pj Hj.
  destruct (decide (j = h)) as [->|Hne].
  - rewrite Hh in Hj. simplify_eq. exists ks. simpl.
    rewrite list_lookup_insert_eq by (rewrite Hlen; done). split; [done|].
    rewrite scopes_of_snoc, decide_True by done. by rewrite <- app_assoc.
  - apply outside_snoc, outside_other; [done..|]. specialize (Hall j pj Hj).
    by rewrite decide_False in Hall.
Qed.

(** The holder of the lock, and what it does next. *)
Lemma holder_next s done_ pre h x st rest :
  context_inv s done_ pre → context_ptr s = Some (mkExecutionContext (Some h) ty x) →
  code s !! h = Some (st :: rest) →
  ∃ prog ks, programs !! h = Some prog ∧
    ((st = SEndScope ∧ rest = compile ks ∧ scopes_of h done_ ++ pre :: ks = prog) ∨
     ∃ a post, st = SArrow a.1 a.2 ∧ rest = arrows post ++ SEndScope :: compile ks ∧
       derives ty a.1 = true ∧ scopes_of h done_ ++ (pre ++ a :: post) :: ks = prog).
Proof using well_typed.
  intros [Hlen (l & Hc & Hl)] Hp Hh. rewrite Hp in Hc. simplify_eq. destruct Hl as [Hlt Hall].
  destruct (lookup_lt_is_Some_2 programs h Hlt) as [prog Hprog]. specialize (Hall h prog Hprog).
  rewrite decide_True in Hall by done. destruct Hall as ([|a post] & ks & Hcode & Hk);
    rewrite Hcode in Hh; simplify_eq/=; eexists _, ks; (split; [done|]).
  - left. by rewrite app_nil_r in *.
  - right. exists a, post. split_and!; try done.
    eapply (well_typed _ (pre ++ a :: post)); [by eapply list_elem_of_lookup_2| |]; set_solver.
Qed.

Lemma context_inv_step s s' done_ pre :
  context_inv s done_ pre → context_step s s' → ∃ done' pre', context_inv s' done' pre'.
Proof using well_typed.
  intros Hinv [i st rest p Hi Hx]. pose proof Hinv as [Hlen (l & Hc & Hl)].
  destruct (lookup_lt_is_Some_2 programs i) as [prog Hprog].
  { rewrite <- Hlen. by eapply lookup_lt_Some. }
  destruct l as [h|].
  - destruct (decide (i = h)) as [->|Hne].
    + destruct (holder_next _ _ _ _ _ _ _ Hinv Hc Hi)
        as (prog' & ks & Hp' & [(-> & -> & Hk)|(a & post & -> & -> & Hty & Hk)]);
        rewrite Hc in Hx;
        unfold exec_stmt, Synchronized_arrow, Synchronized_destroy, mbind, M_bind in Hx; simpl in Hx.
      * injection Hx as <-. by eexists _, _; eapply context_inv_leave.
      * rewrite Hty in Hx. injection Hx as <-. by eexists _, _; eapply context_inv_access.
    + destruct Hl as [_ Hall]. specialize (Hall i prog Hprog). rewrite decide_False in Hall by done.
      destruct (outside_head _ _ _ _ _ _ Hall Hi) as (k & ks & -> & _). exfalso.
      rewrite Hc in Hx. unfold exec_stmt, GetContext, mbind, M_bind in Hx. simpl in Hx.
      by destruct (decide (h = i)).
  - destruct Hl as [-> Hall].
    destruct (outside_head _ _ _ _ _ _ (Hall i prog Hprog) Hi) as (k & ks & -> & -> & Hk).
    rewrite Hc in Hx. injection Hx as <-. by eexists _, _; eapply context_inv_enter.
Qed.

Lemma context_inv_run s :
  rtc context_step context_start s → ∃ done_ pre, context_inv s done_ pre.
Proof using well_typed.
  revert s. apply (rtc_ind_r (λ s, ∃ done_ pre, context_inv s done_ pre)).
  - exists [], []. apply context_inv_start.
  - intros s s' _ Hs (done_ & pre & Hinv). by eapply context_inv_step.
Qed.

(** ** Serialisation *)

(** Every step shortens what is left to do. *)
Lemma context_step_shorter s s' :
  context_step s s' → sum_list (length <$> code s') < sum_list (length <$> code s).
Proof.
  intros [i st rest p Hi _]. simpl. generalize dependent i. induction (code s) as [|c cs IH];
    intros [|i] Hi; simplify_eq/=; [lia|]. specialize (IH i Hi). lia.
Qed.

Lemma context_can_step s :
  rtc context_step context_start s → ¬ Forall (λ c, length c = 0) (code s) → ∃ s', context_step s s'.
Proof using well_typed.
  intros Hr Hmore. destruct (context_inv_run s Hr) as (done_ & pre & Hinv).
  pose proof Hinv as [Hlen (l & Hc & Hl)]. destruct l as [h|].
  - destruct Hl as [Hlt _]. assert (∃ st rest, code s !! h = Some (st :: rest)) as (st & rest & Hh).
    { destruct (lookup_lt_is_Some_2 programs h Hlt) as [prog Hp].
      destruct Hinv as [_ (l & Hc' & Hl')]. rewrite Hc in Hc'. simplify_eq.
      destruct Hl' as [_ Hall]. specialize (Hall h prog Hp). rewrite decide_True in Hall by done.
      destruct Hall as ([|a post] & ks & -> & _); simpl; eauto. }
    destruct (holder_next _ _ _ _ _ _ _ Hinv Hc Hh)
      as (prog & ks & _ & [(-> & _)|(a & post & -> & _ & Hty & _)]);
      (eexists; eapply context_step_intro; [exact Hh|]); rewrite Hc; [done|].
    unfold exec_stmt, Synchronized_arrow, mbind, M_bind. simpl. by rewrite Hty.
  - destruct Hl as [-> Hall]. apply not_Forall_Exists in Hmore; [|apply _].
    apply Exists_exists in Hmore as (c & [i Hi]%list_elem_of_lookup_1 & Hne).
    destruct (lookup_lt_is_Some_2 programs i) as [prog Hprog].
    { rewrite <- Hlen. by eapply lookup_lt_Some. }
    destruct c as [|st rest]; [by destruct Hne|].
    destruct (outside_head _ _ _ _ _ _ (Hall i prog Hprog) Hi) as (k & ks & -> & _).
    eexists. eapply context_step_intro; [exact Hi|]. by rewrite Hc.
Qed.

Definition finished (s : System) : Prop := ∀ c, c ∈ code s → c = [].

Lemma context_can_finish s :
  rtc context_step context_start s → ∃ s', rtc context_step s s' ∧ finished s'.
Proof using well_typed.
  intros Hr. remember (sum_list (length <$> code s)) as n eqn:Hn. revert s Hn Hr.
  induction (lt_wf n) as [n _ IH]. intros s Hn Hr.
  destruct (decide (Forall (λ c, length c = 0) (code s))) as [Hdone|Hmore].
  { exists s. split; [done|]. intros c Hc. apply nil_length_inv.
    rewrite Forall_forall in Hdone. by apply Hdone. }
  destruct (context_can_step s Hr Hmore) as [s1 Hs1].
  destruct (IH (sum_list (length <$> code s1))) with (s := s1) as (s2 & Hs2 & Hend); [|done| |].
  - rewrite Hn. by apply context_step_shorter.
  - by eapply rtc_r.
  - exists s2. split; [by eapply rtc_l|done].
Qed.

(** C24: threads that access a context that is set through [Synchronized]
    objects, one at a time each (a scope ends before the same thread calls
    [GetContext] again: nested scopes deadlock, see
    [nested_GetContext_stuck]), of a type the context has: from every state
    that is reached the threads can run to their end, and when they are done,
    the lock is free and the context holds what their scopes compute when run
    one after the other, each without interruption, in an order that keeps the
    order of each thread. *)
Theorem context_serializable s :
  rtc context_step context_start s →
  (∃ s', rtc context_step s s' ∧ finished s') ∧
  (finished s →
   ∃ order, context_ptr s = Some (mkExecutionContext None ty (run_scopes order x0)) ∧
     ∀ i prog, programs !! i = Some prog → scopes_of i order = prog).
Proof using well_typed.
  intros Hr. split; [by apply context_can_finish|]. intros Hdone.
  destruct (context_inv_run s Hr) as (order & pre & Hlen & l & Hc & Hl).
  exists order. destruct l as [h|].
  - exfalso. destruct Hl as [Hlt Hall]. destruct (lookup_lt_is_Some_2 programs h Hlt) as [prog Hp].
    specialize (Hall h prog Hp). rewrite decide_True in Hall by done.
    destruct Hall as (post & rest & Hcode & _).
    apply list_elem_of_lookup_2, Hdone in Hcode. by destruct post.
  - destruct Hl as [-> Hall]. split; [done|]. intros i prog Hi.
    destruct (Hall i prog Hi) as (rest & Hcode & Hk).
    apply list_elem_of_lookup_2, Hdone in Hcode. destruct rest; [|by rewrite compile_cons in Hcode].
    by rewrite app_nil_r in Hk.
Qed.

End programs.
(** A second [GetContext] in a scope of the same thread never returns, and
    the other threads then wait forever. *)
Theorem nested_GetContext_stuck (ty : ContextType) x rest others :
  (∀ c, c ∈ others → ∃ c', c = SGetContext :: c') →
  ∃ s, rtc context_step
    (mkSystem (Some (mkExecutionContext None ty x)) ((SGetContext :: SGetContext :: rest) :: others)) s ∧
    (∀ s', ¬ context_step s s') ∧ exec_stmt 0 SGetContext (context_ptr s) = Fail UndefinedBehaviour.
Proof.
  intros Hothers.
  exists (mkSystem (Some (mkExecutionContext (Some 0) ty x)) ((SGetContext :: rest) :: others)).
  split_and!; [|intros s' [i st r p Hi Hx]|done].
  - apply rtc_once. exact (context_step_intro (mkSystem (Some (mkExecutionContext None ty x))
      ((SGetContext :: SGetContext :: rest) :: others)) 0 SGetContext (SGetContext :: rest)
      (Some (mkExecutionContext (Some 0) ty x)) eq_refl eq_refl).
  - destruct i as [|i]; [by simplify_eq/=|]. cbn in Hi.
    apply list_elem_of_lookup_2, Hothers in Hi as [c' [= -> ->]]. done.
Qed.

End execution_context.

(** Two handlers of a counter that read it and write it back in two accesses
    of one scope. *)
Definition counter_scope : Scope := [(tt, λ x : nat * nat, (x.1, x.1)); (tt, λ x, (S x.2, x.2))].

Lemma counter_scopes_typed ks k a :
  ks ∈ [[counter_scope]; [counter_scope; counter_scope]] → k ∈ ks → a ∈ k →
  (λ _ _ : unit, true) tt a.1 = true.
Proof. done. Qed.

Lemma context_serializable_witness :
  ∃ s, rtc (context_step (λ _ _ : unit, true))
      (context_start tt (0, 0) [[counter_scope]; [counter_scope; counter_scope]]) s ∧
    ∃ order : list (nat * Scope (ContextType := unit)),
      context_ptr s = Some (mkExecutionContext None tt (run_scopes order (0, 0))).
Proof.
  destruct (context_serializable (λ _ _, true) tt (0, 0)
    [[counter_scope]; [counter_scope; counter_scope]] counter_scopes_typed _ (rtc_refl _ _))
    as [(s & Hr & Hdone) _].
  exists s. split; [exact Hr|].
  destruct (context_serializable (λ _ _, true) tt (0, 0)
    [[counter_scope]; [counter_scope; counter_scope]] counter_scopes_typed s Hr)
    as [_ (order & Hc & _)]; [exact Hdone|].
  exists order. exact Hc.
Defined.
