(* ===== verification/Time.v ===== *)
(** * [common::Duration] and [common::Time]

    src/async_grpc/common/time.h and time.cc.  A duration is a signed 64-bit
    count of 100 ns ticks; seconds are IEEE 754 doubles, modelled by the
    Standard Library's [SpecFloat] with the parameters of binary64.  [None] is
    undefined behaviour: signed overflow, or the conversion to an integer of
    a double out of its range. *)

From Stdlib Require Import ZArith Lia SpecFloat.
From stdpp Require Import base numbers option strings pretty.
From S2P Require Import Prelude.

Set Default Proof Using "Type".

(** [std::chrono::duration<int64, std::ratio<1, 10000000>>] and time points. *)
Abbreviation Duration := Z (only parsing).
Abbreviation Time := Z (only parsing).

Definition kTicksPerSecond : Z := 10000000.

(** ** Doubles *)

Definition double_of_Z (z : Z) : spec_float := binary_normalize 53 1024 z 0 false.
Definition double_mul : spec_float → spec_float → spec_float := SFmul 53 1024.
Definition double_div : spec_float → spec_float → spec_float := SFdiv 53 1024.

(** Truncation towards zero; the range check is that of the target type. *)
Definition int64_of_double (x : spec_float) : option Z :=
  match x with
  | S754_zero _ => Some 0%Z
  | S754_infinity _ | S754_nan => None
  | S754_finite s m e =>
      let abs := if (0 <=? e)%Z then (Zpos m * 2 ^ e)%Z else (Zpos m / 2 ^ (- e))%Z in
      int64_checked (if s then (- abs)%Z else abs)
  end.

(** ** Conversions *)

(** [duration_cast] from seconds to ticks multiplies by the ratio of the
    periods in the common type, here [double]. *)
Definition FromSeconds (seconds : spec_float) : option Duration :=
  int64_of_double (double_mul seconds (double_of_Z kTicksPerSecond)).

Definition ToSeconds (duration : Duration) : spec_float :=
  double_div (double_of_Z duration) (double_of_Z kTicksPerSecond).

Definition FromUniversal (ticks : Z) : Time := ticks.
Definition ToUniversal (time : Time) : Z := time.

(** [duration_cast] from milliseconds to ticks, in [int64]. *)
Definition FromMilliseconds (milliseconds : Z) : option Duration :=
  int64_checked (milliseconds * 10000)%Z.

(** [operator<<]: the stream gets the ticks in decimal. *)
Definition output (os : string) (time : Time) : string := os +:+ pretty (ToUniversal time).

(** Different times are printed differently. *)
Lemma output_inj os t1 t2 : output os t1 = output os t2 → t1 = t2.
Proof. intros E%(inj (String.append os)). by apply (inj pretty) in E. Qed.

(** Milliseconds.  [FromMilliseconds] gives 10000 ticks per millisecond
    exactly for the values between -922337203685477 and 922337203685477; for
    every other 64-bit argument the multiplication overflows. *)
Theorem FromMilliseconds_exact (ms : Z) (d : Duration) :
  FromMilliseconds ms = Some d ↔
  d = (10000 * ms)%Z ∧ (-922337203685477 ≤ ms ≤ 922337203685477)%Z.
Proof.
  unfold FromMilliseconds. rewrite int64_checked_Some. unfold int64_min, int64_max. split.
  - intros [-> ?]. split; [lia|]. change (2 ^ 63)%Z with 9223372036854775808%Z in *. lia.
  - intros [-> ?]. split; [lia|]. change (2 ^ 63)%Z with 9223372036854775808%Z. lia.
Qed.

(** The way through [double] truncates: 2.1 microseconds lose a tick. *)
Example seconds_round_trip_loses_tick : FromSeconds (ToSeconds 21) = Some 20%Z.
Proof. vm_compute. reflexivity. Qed.
