(* ===== verification/Retry.v ===== *)
(** * Retry strategies

    src/async_grpc/retry.h and retry.cc.  A strategy is a function of the
    number of failed attempts and the last status; it may fail a CHECK or
    overflow, so its results are sums.  [RetryWithStrategy] loops without
    bound in the source; here it takes fuel, and the theorems say how much is
    enough. *)

From Stdlib Require Import ZArith Lia SpecFloat.
From stdpp Require Import base option list strings gmap.
From S2P Require Import Prelude Interfaces Time.

Set Default Proof Using "Type".

Section strategies.
Context `{GrpcStatus}.

Definition RetryIndicator : Type := Z → Status → bool.
Definition RetryDelayCalculator : Type := Z → failure + Duration.
Definition RetryStrategy : Type := Z → Status → failure + option Duration.

Definition CreateRetryStrategy (retry_indicator : RetryIndicator)
    (retry_delay_calculator : RetryDelayCalculator) : RetryStrategy :=
  λ failed_attempts status,
  if negb (retry_indicator failed_attempts status) then inr None
  else match retry_delay_calculator failed_attempts with
       | inl f => inl f
       | inr d => inr (Some d)
       end.

Definition CreateLimitedRetryIndicator (max_attempts : Z) : RetryIndicator :=
  λ failed_attempts _, (failed_attempts <? max_attempts)%Z.

Definition CreateUnlimitedRetryIndicator : RetryIndicator := λ _ _, true.

(** The overload with a set of codes; [StatusCode] is its integer value. *)
Definition CreateUnlimitedRetryIndicator_codes (unrecoverable_codes : gset Z) : RetryIndicator :=
  λ _ status, bool_decide (error_code status ∉ unrecoverable_codes).

(** [pow] is [std::pow] of a [float] base, converted to [double]; the factor
    is passed as that double. *)
Definition CreateBackoffDelayCalculator (pow : spec_float → Z → spec_float) (min_delay : Duration)
    (backoff_factor : spec_float) : RetryDelayCalculator :=
  λ failed_attempts,
  if negb (0 <=? failed_attempts)%Z then inl (CheckFailed "failed_attempts")
  else
    match int_checked (failed_attempts - 1) with
    | None => inl UndefinedBehaviour
    | Some e =>
        match FromSeconds (double_mul (pow backoff_factor e) (ToSeconds min_delay)) with
        | Some d => inr d
        | None => inl UndefinedBehaviour
        end
    end.

Definition CreateConstantDelayCalculator (delay : Duration) : RetryDelayCalculator :=
  λ _, inr delay.

Definition CreateLimitedBackoffStrategy (pow : spec_float → Z → spec_float) (min_delay : Duration)
    (backoff_factor : spec_float) (max_attempts : Z) : RetryStrategy :=
  CreateRetryStrategy (CreateLimitedRetryIndicator max_attempts)
    (CreateBackoffDelayCalculator pow min_delay backoff_factor).

Definition CreateUnlimitedConstantDelayStrategy (delay : Duration) : RetryStrategy :=
  CreateRetryStrategy CreateUnlimitedRetryIndicator (CreateConstantDelayCalculator delay).

Definition CreateUnlimitedConstantDelayStrategy_codes (delay : Duration)
    (unrecoverable_codes : gset Z) : RetryStrategy :=
  CreateRetryStrategy (CreateUnlimitedRetryIndicator_codes unrecoverable_codes)
    (CreateConstantDelayCalculator delay).

(** ** The loop *)

Section loop.
Context {S : Type} (sleep_for : Duration → M S unit).
Context (retry_strategy : option RetryStrategy) (op : M S Status) (reset : option (M S unit)).

(** One turn of the loop, from [failed_attempts]: [inl b] returns [b],
    [inr n] goes on with [n] failed attempts. *)
Definition RetryWithStrategy_body (failed_attempts : Z) : M S (bool + Z) :=
  status ← op;
  if status_ok status then mret (inl true)
  else
    match retry_strategy with
    | None => mret (inl false)
    | Some strategy =>
        match int_checked (failed_attempts + 1) with
        | None => fail UndefinedBehaviour
        | Some failed =>
            match strategy failed status with
            | inl f => fail f
            | inr None => mret (inl false)
            | inr (Some delay) =>
                sleep_for delay ;;
                (match reset with Some r => r | None => mret tt end) ;;
                mret (inr failed)
            end
        end
    end.

Fixpoint RetryWithStrategy_loop (fuel : nat) (failed_attempts : Z) (s : S) :
    option (outcome S bool) :=
  match fuel with
  | 0 => None
  | Datatypes.S fuel' =>
      match RetryWithStrategy_body failed_attempts s with
      | Fail f => Some (Fail f)
      | Ok (inl b) s' => Some (Ok b s')
      | Ok (inr failed) s' => RetryWithStrategy_loop fuel' failed s'
      end
  end.

Definition RetryWithStrategy (fuel : nat) (s : S) : option (outcome S bool) :=
  RetryWithStrategy_loop fuel 0 s.

(** Reasoning about the loop: an invariant of the state and the number of
    failed attempts, kept by every turn that goes on. *)
Lemma retry_loop_invariant (I : Z → S → Prop) (Q : bool → S → Prop) fuel n s b s' :
  (∀ n s, I n s → wlp (RetryWithStrategy_body n)
     (λ r s', match r with inl b => Q b s' | inr n' => I n' s' end) s) →
  I n s → RetryWithStrategy_loop fuel n s = Some (Ok b s') → Q b s'.
Proof.
  intros Hbody. revert n s. induction fuel as [|fuel IH]; intros n s HI; simpl; [done|].
  pose proof (Hbody n s HI) as Hb. unfold wlp in Hb.
  destruct (RetryWithStrategy_body n s) as [[b'|n'] s1|f]; [|by apply IH|done].
  by intros [= -> ->].
Qed.

(** With operations that return and a limited indicator, [max] turns are
    enough. *)
Lemma retry_loop_terminates (max : Z) (calc : RetryDelayCalculator) fuel n s :
  retry_strategy = Some (CreateRetryStrategy (CreateLimitedRetryIndicator max) calc) →
  (∀ m, (1 ≤ m < max)%Z → ∃ d, calc m = inr d) → (max ≤ int_max)%Z →
  (∀ s, wp op (λ _ _, True) s) → (∀ d s, wp (sleep_for d) (λ _ _, True) s) →
  (∀ r s, reset = Some r → wp r (λ _ _, True) s) →
  (0 ≤ n)%Z → (n < max ∨ n = 0)%Z → (max - n ≤ Z.of_nat fuel)%Z → 0 < fuel →
  ∃ b s', RetryWithStrategy_loop fuel n s = Some (Ok b s').
Proof.
  intros Hst Hcalc Hmax Hop Hsl Hre. revert n s.
  induction fuel as [|fuel IH]; intros n s Hn Hlt Hfuel Hpos; [lia|]. simpl.
  unfold RetryWithStrategy_body, mbind, M_bind. specialize (Hop s) as Hops. unfold wp in Hops.
  destruct (op s) as [st s1|f]; [|done]. destruct (status_ok st); [by eauto|].
  rewrite Hst. destruct (int_checked (n + 1)) as [m|] eqn:Hm.
  2:{ exfalso. unfold int_checked, in_int, int_min, int_max in *.
      destruct (Z.leb_spec (- 2 ^ 31) (n + 1)), (Z.leb_spec (n + 1) (2 ^ 31 - 1)); simpl in *; try done; lia. }
  apply int_checked_Some in Hm as [-> _].
  unfold CreateRetryStrategy, CreateLimitedRetryIndicator.
  destruct (Z.ltb_spec (n + 1) max) as [Hlim|Hlim]; simpl; [|by eauto].
  destruct (Hcalc (n + 1)%Z ltac:(lia)) as [d ->].
  specialize (Hsl d s1) as Hsls. unfold wp in Hsls. destruct (sleep_for d s1) as [[] s2|f]; [|done].
  assert (∃ s3, match reset with Some r => r | None => mret tt end s2 = Ok tt s3) as [s3 ->].
  { destruct reset as [r|]; [|by eexists]. specialize (Hre r s2 eq_refl). unfold wp in Hre.
    destruct (r s2) as [[] s3|f]; [by eexists|done]. }
  unfold mret, M_ret. apply IH; lia.
Qed.

End loop.

(** ** A scripted environment

    The [i]-th call of [op] returns [answers i]; the state records what the
    loop did. *)

Inductive Effect := EAttempt | ESleep (d : Duration) | EReset.

Record Script := mkScript { attempts : nat; effects : list Effect }.

Definition script_op (answers : nat → Status) : M Script Status := λ s,
  Ok (answers (attempts s)) (mkScript (S (attempts s)) (effects s ++ [EAttempt])).

Definition script_effect (e : Effect) : M Script unit :=
  modify (λ s, mkScript (attempts s) (effects s ++ [e])).

Definition retry_scripted (strategy : option RetryStrategy) (answers : nat → Status)
    (fuel : nat) : option (outcome Script bool) :=
  RetryWithStrategy (λ d, script_effect (ESleep d)) strategy (script_op answers)
    (Some (script_effect EReset)) fuel (mkScript 0 []).

(** The specification: what [n] failed attempts leave behind, and what the
    whole call does when the first success, if any, is at [k]. *)
Fixpoint retries (delays : Z → Duration) (n : nat) : list Effect :=
  match n with
  | 0 => []
  | Datatypes.S n' => retries delays n' ++ [EAttempt; ESleep (delays (Z.of_nat n)); EReset]
  end.

Lemma retry_turn delays strategy answers i :
  status_ok (answers i) = false → (Z.of_nat i + 1 ≤ int_max)%Z →
  strategy (Z.of_nat (S i)) (answers i) = inr (Some (delays (Z.of_nat (S i)))) →
  RetryWithStrategy_body (λ d, script_effect (ESleep d)) (Some strategy) (script_op answers)
    (Some (script_effect EReset)) (Z.of_nat i) (mkScript i (retries delays i)) =
  Ok (inr (Z.of_nat (S i))) (mkScript (S i) (retries delays (S i))).
Proof.
  intros Hbad Hmax Hd. unfold RetryWithStrategy_body, script_op, mbind, M_bind. simpl. rewrite Hbad.
  assert (int_checked (Z.of_nat i + 1) = Some (Z.of_nat (S i))) as ->.
  { apply int_checked_Some. unfold int_min, int_max in *. lia. }
  rewrite Hd. unfold script_effect, modify, mret, M_ret. simpl. by rewrite <- !app_assoc.
Qed.

(** The loop runs through failed attempts as long as the strategy says so. *)
Lemma retry_turns delays strategy answers n fuel :
  (∀ i, i < n → status_ok (answers i) = false) → (Z.of_nat n ≤ int_max)%Z →
  (∀ i, i < n → strategy (Z.of_nat (S i)) (answers i) = inr (Some (delays (Z.of_nat (S i))))) →
  retry_scripted (Some strategy) answers (n + fuel) =
  RetryWithStrategy_loop (λ d, script_effect (ESleep d)) (Some strategy) (script_op answers)
    (Some (script_effect EReset)) fuel (Z.of_nat n) (mkScript n (retries delays n)).
Proof.
  unfold retry_scripted, RetryWithStrategy.
  induction n as [|n IH] in fuel |- *; intros Hbad Hmax Hd; [done|].
  replace (S n + fuel) with (n + S fuel) by lia.
  rewrite IH; [|by intros i Hi; apply Hbad; lia|lia|by intros i Hi; apply Hd; lia].
  simpl RetryWithStrategy_loop.
  rewrite (retry_turn delays) by (first [apply Hbad; lia|apply Hd; lia|lia]). done.
Qed.

(** C27: the limited strategy.  Whatever [op] answers, a limited strategy with
    a maximum of [max] attempts ends: with the first success among the first
    [max] attempts, or, when they all fail, after exactly [max] attempts (at
    least one) with the result false.  Between two attempts it sleeps for the
    delay the calculator gives for the number of failures so far, and
    resets. *)
Theorem limited_strategy_bounded (max : Z) (calc : RetryDelayCalculator) (delays : Z → Duration)
    (answers : nat → Status) :
  (1 ≤ max ≤ int_max)%Z → (∀ n, (1 ≤ n < max)%Z → calc n = inr (delays n)) →
  ∃ k b, (Z.of_nat k < max)%Z ∧ (∀ i, i < k → status_ok (answers i) = false) ∧
    status_ok (answers k) = b ∧ (b = false → Z.of_nat (S k) = max) ∧
    retry_scripted (Some (CreateRetryStrategy (CreateLimitedRetryIndicator max) calc)) answers
      (Z.to_nat max) =
    Some (Ok b (mkScript (S k) (retries delays k ++ [EAttempt]))).
Proof.
  intros Hmax Hcalc. set (strategy := CreateRetryStrategy _ calc).
  assert (∀ i, (Z.of_nat (S i) < max)%Z → ∀ st,
    strategy (Z.of_nat (S i)) st = inr (Some (delays (Z.of_nat (S i))))) as Hgo.
  { intros i Hi st. unfold strategy, CreateRetryStrategy, CreateLimitedRetryIndicator.
    rewrite (proj2 (Z.ltb_lt _ _) Hi). simpl negb. cbv iota. by rewrite Hcalc by lia. }
  assert (∀ k fuel b, (Z.of_nat k + 1 ≤ max)%Z → (∀ i, i < k → status_ok (answers i) = false) →
    status_ok (answers k) = b → (b = false → Z.of_nat (S k) = max) →
    retry_scripted (Some strategy) answers (k + S fuel) =
      Some (Ok b (mkScript (S k) (retries delays k ++ [EAttempt])))) as Hend.
  { intros k fuel b Hk Hbad Hb Hlast.
    rewrite (retry_turns delays) by (first [done|lia|intros i Hi; apply Hgo; lia]).
    simpl. unfold RetryWithStrategy_body, script_op, mbind, M_bind. simpl. rewrite Hb.
    destruct b; [done|].
    assert (int_checked (Z.of_nat k + 1) = Some max) as ->.
    { apply int_checked_Some. unfold int_min, int_max in *. lia. }
    unfold strategy, CreateRetryStrategy, CreateLimitedRetryIndicator.
    by rewrite Z.ltb_irrefl. }
  assert (∀ n, (Z.of_nat n + 1 ≤ max)%Z → (∀ i, i < n → status_ok (answers i) = false) ∨
    ∃ k, k < n ∧ (∀ i, i < k → status_ok (answers i) = false) ∧ status_ok (answers k) = true)
    as Hfirst.
  { induction n as [|n IH]; intros Hn; [left; lia|]. destruct IH as [Hall|(k & ? & ?)]; [lia| |].
    - destruct (status_ok (answers n)) eqn:E; [right; exists n; by split_and!; [lia|..]|left].
      intros i Hi. destruct (decide (i = n)) as [->|]; [done|apply Hall; lia].
    - right. exists k. split; [lia|done]. }
  destruct (Hfirst (Z.to_nat (max - 1)) ltac:(lia)) as [Hall|(k & Hk & Hbad & Hok)].
  - exists (Z.to_nat (max - 1)), (status_ok (answers (Z.to_nat (max - 1)))).
    split_and!; [lia|done|done|lia|].
    replace (Z.to_nat max) with (Z.to_nat (max - 1) + 1) by lia. apply Hend; [lia|done|done|lia].
  - exists k, true. split_and!; [lia|done|done|done|].
    replace (Z.to_nat max) with (k + S (Z.to_nat max - S k)) by lia. apply Hend; [lia|done|done|done].
Qed.

(** Unrecoverable codes.  With the strategy that never gives up except on
    a set of status codes, the call ends after the first attempt that
    succeeds or fails with a code of the set, and says which it was. *)
Theorem unrecoverable_codes_stop (delay : Duration) (codes : gset Z) (answers : nat → Status)
    (k : nat) :
  (Z.of_nat k + 1 ≤ int_max)%Z →
  (∀ i, i < k → status_ok (answers i) = false ∧ error_code (answers i) ∉ codes) →
  status_ok (answers k) = true ∨ error_code (answers k) ∈ codes →
  retry_scripted (Some (CreateUnlimitedConstantDelayStrategy_codes delay codes)) answers (S k) =
    Some (Ok (status_ok (answers k)) (mkScript (S k) (retries (λ _, delay) k ++ [EAttempt]))).
Proof.
  intros Hmax Hbad Hend. set (strategy := CreateUnlimitedConstantDelayStrategy_codes delay codes).
  replace (S k) with (k + 1) at 1 by lia. rewrite (retry_turns (λ _, delay)).
  - simpl. unfold RetryWithStrategy_body, script_op, mbind, M_bind. simpl.
    destruct (status_ok (answers k)) eqn:Hok; [done|].
    assert (int_checked (Z.of_nat k + 1) = Some (Z.of_nat (S k))) as ->.
    { apply int_checked_Some. unfold int_min, int_max in *. lia. }
    destruct Hend as [?|Hin]; [done|]. unfold strategy, CreateUnlimitedConstantDelayStrategy_codes,
      CreateRetryStrategy, CreateUnlimitedRetryIndicator_codes.
    by rewrite bool_decide_eq_false_2 by (by intros ?).
  - intros i Hi. by apply Hbad.
  - lia.
  - intros i Hi. unfold strategy, CreateUnlimitedConstantDelayStrategy_codes, CreateRetryStrategy,
      CreateUnlimitedRetryIndicator_codes.
    rewrite bool_decide_eq_true_2 by (by apply Hbad). done.
Qed.

(** The example of the README.  With a minimal delay of 100 ms, a factor
    of 2 and at most 5 attempts, an operation that keeps failing is retried
    after 100, 200, 400 and 800 ms and then given up.  [pow] is assumed to be
    exact on powers of two. *)
Theorem backoff_readme_example (pow : spec_float → Z → spec_float) (answers : nat → Status) :
  (∀ n, (0 ≤ n < 1024)%Z → pow (double_of_Z 2) n = double_of_Z (2 ^ n)) →
  (∀ i, status_ok (answers i) = false) →
  retry_scripted (Some (CreateLimitedBackoffStrategy pow 1000000 (double_of_Z 2) 5)) answers 5 =
  Some (Ok false (mkScript 5
    [EAttempt; ESleep 1000000; EReset; EAttempt; ESleep 2000000; EReset;
     EAttempt; ESleep 4000000; EReset; EAttempt; ESleep 8000000; EReset; EAttempt])).
Proof.
  intros Hpow Hbad. set (strategy := CreateLimitedBackoffStrategy _ _ _ _).
  change 5 with (4 + 1) at 1. rewrite (retry_turns (λ n, 1000000 * 2 ^ (n - 1))%Z).
  - simpl. unfold RetryWithStrategy_body, script_op, mbind, M_bind. simpl. by rewrite Hbad.
  - intros i _. apply Hbad.
  - done.
  - intros i Hi. assert (∀ e : Z, (0 ≤ e < 4)%Z →
      FromSeconds (double_mul (double_of_Z (2 ^ e)) (ToSeconds 1000000)) =
        Some (1000000 * 2 ^ e)%Z) as Hd.
    { intros e He. assert (e = 0 ∨ e = 1 ∨ e = 2 ∨ e = 3)%Z as [-> |[-> |[-> | ->]]] by lia;
        vm_compute; reflexivity. }
    unfold strategy, CreateLimitedBackoffStrategy, CreateRetryStrategy, CreateLimitedRetryIndicator,
      CreateBackoffDelayCalculator.
    rewrite (proj2 (Z.ltb_lt _ _)) by lia. simpl negb. cbv iota.
    assert (int_checked (Z.of_nat (S i) - 1) = Some (Z.of_nat (S i) - 1)%Z) as ->.
    { apply int_checked_Some. unfold int_min, int_max. lia. }
    rewrite Hpow, Hd by lia. done.
Qed.

End strategies.

(** ** Concrete strategies *)

#[local] Existing Instance example_status.

(** Fails twice, then succeeds. *)
Definition third_time (i : nat) : Status := if decide (i < 2) then (14%Z, EmptyString) else Status_OK.

Definition unavailable (i : nat) : Status := (14%Z, EmptyString).

Lemma limited_strategy_bounded_witness :
  ∃ k b, (Z.of_nat k < 5)%Z ∧ (∀ i, i < k → status_ok (third_time i) = false) ∧
    status_ok (third_time k) = b ∧ (b = false → Z.of_nat (S k) = 5%Z) ∧
    retry_scripted (Some (CreateRetryStrategy (CreateLimitedRetryIndicator 5)
      (CreateConstantDelayCalculator 7))) third_time (Z.to_nat 5) =
    Some (Ok b (mkScript (S k) (retries (λ _, 7%Z) k ++ [EAttempt]))).
Proof.
  apply (limited_strategy_bounded 5 (CreateConstantDelayCalculator 7) (λ _, 7%Z) third_time).
  - unfold int_max. lia.
  - intros n _. reflexivity.
Defined.

Lemma unrecoverable_codes_stop_witness :
  retry_scripted (Some (CreateUnlimitedConstantDelayStrategy_codes 7 {[3%Z]})) third_time 3 =
    Some (Ok true (mkScript 3 (retries (λ _, 7%Z) 2 ++ [EAttempt]))).
Proof.
  apply (unrecoverable_codes_stop 7 {[3%Z]} third_time 2).
  - unfold int_max. lia.
  - intros [|[|i]] Hi; [split; [reflexivity|set_solver]..|lia].
  - left. reflexivity.
Defined.

Lemma backoff_readme_example_witness :
  retry_scripted (Some (CreateLimitedBackoffStrategy (λ _ n, double_of_Z (2 ^ n)) 1000000
    (double_of_Z 2) 5)) unavailable 5 =
  Some (Ok false (mkScript 5
    [EAttempt; ESleep 1000000; EReset; EAttempt; ESleep 2000000; EReset;
     EAttempt; ESleep 4000000; EReset; EAttempt; ESleep 8000000; EReset; EAttempt])).
Proof.
  apply (backoff_readme_example (λ _ n, double_of_Z (2 ^ n)) unavailable).
  - intros n _. reflexivity.
  - intros i. reflexivity.
Defined.
