(* ===== verification/Client.v ===== *)
(** * The blocking clients

    src/async_grpc/client.h: the specialisation of [Client] for unary methods.
    What gRPC answers is given by the class [Channel]: the [i]-th call made
    through it gets the [i]-th answer.  The calls made are recorded. *)

From Stdlib Require Import ZArith Lia.
From stdpp Require Import base option list strings gmap.
From S2P Require Import Prelude Interfaces Time Retry.

Set Default Proof Using "Type".

(** [::grpc::Channel] with the operations the clients use.  What the other
    side answers is a function of how many operations came before; [Finish]
    gives the status and, for a method with a single response, that
    response. *)
Class Channel `{GrpcStatus, Application} := {
  BlockingUnaryCall : nat → Message → Status * Message;
  stream_Write : nat → Message → bool;
  stream_Read : nat → option Message;
  stream_WritesDone : nat → bool;
  stream_Finish : nat → Status * Message
}.

Section client.
Context `{GrpcStatus, Application, !Channel}.

(** ** [NORMAL_RPC] *)

(** A [ClientContext]: its identity and its deadline. *)
Record ClientContext := mkContext {
  context_id : nat;
  deadline_ : option Z
}.

Record UnaryClient := mkUnaryClient {
  client_context_ : ClientContext;
  timeout_ : option Duration;
  response_ : Message;
  retry_strategy_ : option RetryStrategy;
  internal_status : Status;
  next_context : nat;
  calls : list (ClientContext * Message);
  slept : list Duration
}.

(** The constructors; [response] is a default message.  The first context is
    made by the constructor and has no deadline. *)
Definition UnaryClient_new (response : Message) : UnaryClient :=
  mkUnaryClient (mkContext 0 None) None response None Status_OK 1 [] [].

Definition UnaryClient_with_timeout (timeout : Duration) (retry_strategy : option RetryStrategy)
    (response : Message) : UnaryClient :=
  mkUnaryClient (mkContext 0 None) (Some timeout) response retry_strategy Status_OK 1 [] [].

(** [ResetContext] and the assignment to [client_context_]. *)
Definition ResetContext (deadline : option Z) : M UnaryClient unit :=
  modify (λ c, mkUnaryClient (mkContext (next_context c) deadline) (timeout_ c) (response_ c)
    (retry_strategy_ c) (internal_status c) (S (next_context c)) (calls c) (slept c)).

(** [WriteImpl] with a non-null status: one blocking call with the current
    context. *)
Definition UnaryClient_WriteImpl (request : Message) : M UnaryClient Status := λ c,
  let '(status, response) := BlockingUnaryCall (length (calls c)) request in
  Ok status (mkUnaryClient (client_context_ c) (timeout_ c) response (retry_strategy_ c) status
    (next_context c) (calls c ++ [(client_context_ c, request)]) (slept c)).

Definition sleep_for (d : Duration) : M UnaryClient unit :=
  modify (λ c, mkUnaryClient (client_context_ c) (timeout_ c) (response_ c) (retry_strategy_ c)
    (internal_status c) (next_context c) (calls c) (slept c ++ [d])).

(** [std::chrono::system_clock] counts nanoseconds; [now] is its value when
    [Write] is called. *)
Definition compute_deadline (now : Z) (timeout : option Duration) : failure + option Z :=
  match timeout with
  | None => inr None
  | Some t =>
      match int64_checked (t * 100) with
      | None => inl UndefinedBehaviour
      | Some ns => match int64_checked (now + ns) with
                   | None => inl UndefinedBehaviour
                   | Some d => inr (Some d)
                   end
      end
  end.

(** The result is that of [Write] with the value stored through [status]. *)
Definition UnaryClient_Write (fuel : nat) (now : Z) (request : Message) (c : UnaryClient) :
    option (outcome UnaryClient (bool * Status)) :=
  match compute_deadline now (timeout_ c) with
  | inl f => Some (Fail f)
  | inr deadline =>
      match ResetContext deadline c with
      | Fail f => Some (Fail f)
      | Ok _ c1 =>
          match RetryWithStrategy sleep_for (retry_strategy_ c1) (UnaryClient_WriteImpl request)
                  (Some (ResetContext deadline)) fuel c1 with
          | None => None
          | Some (Fail f) => Some (Fail f)
          | Some (Ok result c2) => Some (Ok (result, internal_status c2) c2)
          end
      end
  end.

(** What holds during the attempts of one [Write] that started with the calls
    [old] made: the current context is unused, and the new calls used
    different contexts with the same deadline and sent the request. *)
Definition attempting (old : list (ClientContext * Message)) (request : Message)
    (deadline : option Z) (fresh : nat) (c : UnaryClient) : Prop :=
  deadline_ (client_context_ c) = deadline ∧
  fresh ≤ context_id (client_context_ c) < next_context c ∧
  ∃ new, calls c = old ++ new ∧
    Forall (λ x, x.2 = request ∧ deadline_ x.1 = deadline ∧
      fresh ≤ context_id x.1 < context_id (client_context_ c)) new ∧
    NoDup ((λ x, context_id x.1) <$> new).

(** What holds when the attempts are over. *)
Definition attempted (old : list (ClientContext * Message)) (request : Message)
    (deadline : option Z) (fresh : nat) (result : bool) (c : UnaryClient) : Prop :=
  status_ok (internal_status c) = result ∧
  ∃ new i, calls c = old ++ new ∧ new ≠ [] ∧
    Forall (λ x, x.2 = request ∧ deadline_ x.1 = deadline ∧ fresh ≤ context_id x.1) new ∧
    NoDup ((λ x, context_id x.1) <$> new) ∧
    S i = length (old ++ new) ∧ BlockingUnaryCall i request = (internal_status c, response_ c).

(** One attempt. *)
Lemma wlp_attempt old request deadline fresh c :
  attempting old request deadline fresh c →
  wlp (UnaryClient_WriteImpl request) (λ st c', st = internal_status c' ∧
    attempted old request deadline fresh (status_ok st) c' ∧
    client_context_ c' = client_context_ c ∧ next_context c' = next_context c ∧
    ∃ new, calls c' = old ++ new ∧
      Forall (λ x, x.2 = request ∧ deadline_ x.1 = deadline ∧
        fresh ≤ context_id x.1 ≤ context_id (client_context_ c)) new ∧
      NoDup ((λ x, context_id x.1) <$> new)) c.
Proof.
  intros (Hd & Hid & new & Hc & Hall & Hnd). unfold wlp, UnaryClient_WriteImpl.
  destruct (BlockingUnaryCall (length (calls c)) request) as [st m] eqn:Hb. simpl.
  assert (NoDup ((λ x, context_id x.1) <$> new ++ [(client_context_ c, request)])) as Hnd'.
  { rewrite fmap_app. apply NoDup_app. split_and!; [done| |apply NoDup_singleton].
    intros k (x & -> & Hx)%list_elem_of_fmap. simpl. rewrite list_elem_of_singleton. intros E.
    pose proof (proj1 (Forall_forall _ _) Hall x Hx) as (_ & _ & _ & ?). simpl in *. lia. }
  assert (Forall (λ x, x.2 = request ∧ deadline_ x.1 = deadline ∧
    fresh ≤ context_id x.1 ≤ context_id (client_context_ c)) (new ++ [(client_context_ c, request)]))
    as Hall'.
  { apply Forall_app. split; [|by repeat constructor; simpl; lia || done].
    eapply Forall_impl; [done|]. intros x (? & ? & ?). split_and!; try done; lia. }
  split_and!; try done.
  - split; [done|]. exists (new ++ [(client_context_ c, request)]), (length (calls c)). simpl.
    rewrite Hc, <- app_assoc. split_and!; try done.
    + by destruct new.
    + eapply Forall_impl; [done|]. intros x (? & ? & ? & ?). done.
    + rewrite !length_app. simpl. lia.
    + by rewrite <- Hc.
  - exists (new ++ [(client_context_ c, request)]). simpl. by rewrite Hc, <- app_assoc.
Qed.

(** A unary call with retries.  Whatever the strategy, when [Write]
    returns, every attempt sent the request with a context of its own that no
    earlier call had used; all attempts of this [Write] shared one deadline,
    computed before the first; and the result, the status handed out and the
    response are those of the last attempt. *)
Theorem unary_write_attempts fuel now request c r st c' :
  UnaryClient_Write fuel now request c = Some (Ok (r, st) c') →
  ∃ deadline, compute_deadline now (timeout_ c) = inr deadline ∧ st = internal_status c' ∧
    attempted (calls c) request deadline (next_context c) r c'.
Proof.
  unfold UnaryClient_Write. destruct (compute_deadline _ _) as [f|deadline]; [done|]. simpl.
  destruct (RetryWithStrategy _ _ _ _ _ _) as [[r' c2|f]|] eqn:Hx; [|done..].
  intros [= <- <- <-]. exists deadline. split; [done|split; [done|]].
  unfold RetryWithStrategy in Hx.
  eapply (retry_loop_invariant _ _ _ _ (λ _, attempting (calls c) request deadline (next_context c))
    (attempted (calls c) request deadline (next_context c))); [| |exact Hx].
  - intros n c1 Ha. apply wlp_bind. eapply wlp_mono; [by apply wlp_attempt|].
    intros st1 c3 (-> & Hend & Ec & En & new & Hc & Hall & Hnd).
    destruct (status_ok (internal_status c3)) eqn:Hok; [by apply wlp_ret|].
    destruct (retry_strategy_ _) as [strategy|]; [|by apply wlp_ret].
    destruct (int_checked _) as [failed|]; [|done].
    destruct (strategy failed _) as [f|[d|]]; [done| |by apply wlp_ret].
    apply wlp_bind, wlp_modify, wlp_bind, wlp_modify, wlp_ret.
    destruct Ha as (_ & Hid & _). split_and!; simpl; [done|lia|lia|].
    exists new. split_and!; [done| |done]. eapply Forall_impl; [done|].
    intros x (? & ? & ? & ?). split_and!; try done. lia.
  - split_and!; simpl; [done|lia|lia|]. exists []. rewrite app_nil_r. split_and!; [done|constructor..].
Qed.

(** A unary call ends.  With a limited strategy [Write] returns, and
    within [max] attempts. *)
Theorem unary_write_total max calc now request c :
  retry_strategy_ c = Some (CreateRetryStrategy (CreateLimitedRetryIndicator max) calc) →
  (∀ m, (1 ≤ m < max)%Z → ∃ d, calc m = inr d) → (1 ≤ max ≤ int_max)%Z →
  (∃ d, compute_deadline now (timeout_ c) = inr d) →
  ∃ r c', UnaryClient_Write (Z.to_nat max) now request c = Some (Ok r c').
Proof.
  intros Hst Hcalc Hmax [deadline Hd]. unfold UnaryClient_Write. rewrite Hd. simpl. rewrite Hst.
  destruct (retry_loop_terminates sleep_for
    (Some (CreateRetryStrategy (CreateLimitedRetryIndicator max) calc))
    (UnaryClient_WriteImpl request) (Some (ResetContext deadline)) max calc (Z.to_nat max) 0
    (mkUnaryClient (mkContext (next_context c) deadline) (timeout_ c) (response_ c)
      (retry_strategy_ c) (internal_status c) (S (next_context c)) (calls c) (slept c)))
    as (b & c' & Hx); try done; try lia.
  - intros s. unfold wp, UnaryClient_WriteImpl. by destruct (BlockingUnaryCall _ _).
  - intros r s [= <-]. done.
  - unfold RetryWithStrategy. rewrite Hst in Hx. rewrite Hx. eauto.
Qed.

End client.

(** ** Concrete clients *)

#[local] Existing Instance example_status.
#[local] Existing Instance example_application.

(** The first call fails, the later ones succeed; streams refuse writes. *)
#[local] Instance example_channel : Channel := {|
  BlockingUnaryCall := λ i m, if decide (i = 0) then ((14%Z, EmptyString), 0%Z) else (Status_OK, (m * m)%Z);
  stream_Write := λ _ _, false;
  stream_Read := λ _, None;
  stream_WritesDone := λ _, false;
  stream_Finish := λ _, (Status_OK, 0%Z)
|}.

Definition example_request : Message := 7%Z.

Definition example_client : UnaryClient :=
  mkUnaryClient (mkContext 0 None) (Some 10000000%Z) 0%Z
    (Some (CreateRetryStrategy (CreateLimitedRetryIndicator 3) (CreateConstantDelayCalculator 5)))
    Status_OK 1 [] [].

Definition example_result : bool * Status * UnaryClient :=
  match UnaryClient_Write 3 1000 example_request example_client with
  | Some (Ok (r, st) c') => (r, st, c')
  | _ => (false, Status_OK, example_client)
  end.

Lemma unary_write_attempts_witness :
  ∃ deadline, compute_deadline 1000 (timeout_ example_client) = inr deadline ∧
    example_result.1.2 = internal_status example_result.2 ∧
    attempted (calls example_client) example_request deadline (next_context example_client)
      example_result.1.1 example_result.2.
Proof.
  apply (unary_write_attempts 3 1000 example_request example_client example_result.1.1 example_result.1.2
    example_result.2). reflexivity.
Defined.

Lemma unary_write_total_witness :
  ∃ r c', UnaryClient_Write (Z.to_nat 3) 1000 example_request example_client = Some (Ok r c').
Proof.
  apply (unary_write_total 3 (CreateConstantDelayCalculator 5) 1000 example_request example_client).
  - reflexivity.
  - intros m _. exists 5%Z. reflexivity.
  - unfold int_max. lia.
  - eexists. reflexivity.
Defined.
