(* ===== verification/StreamClients.v ===== *)
(** * The blocking clients of streaming methods

    src/async_grpc/client.h: the specialisations of [Client] for methods that
    stream requests, responses or both.  A client owns one gRPC stream, which
    it creates with the factory for its kind; the operations on the stream
    are recorded, and what they return is up to the [Channel]. *)

From Stdlib Require Import ZArith Lia.
From stdpp Require Import base option list strings.
From S2P Require Import Prelude Interfaces Client.

Set Default Proof Using "Type".

Section streams.
Context `{GrpcStatus, Application, !Channel}.

(** What a client does with the gRPC stream it owns.  [OpCreate] is a call of
    the [Create] function of one of gRPC's stream factories, with the method
    and, where the factory takes one, the request. *)
Inductive StreamOp :=
  | OpCreate (method : string) (type : RpcType) (context : nat) (request : option Message)
  | OpWrite (request : Message)
  | OpRead
  | OpWritesDone
  | OpFinish.

(** The members the three classes have in common, [channel_] aside;
    [stream_set] says whether the unique pointer to the stream is set, and
    [stream_ops] records the operations on it. *)
Record StreamMembers := mkStream {
  stream_context_ : ClientContext;
  rpc_method_name_ : string;
  rpc_method_ : RpcType;
  stream_set : bool;
  stream_ops : list StreamOp
}.

(** The class for methods that stream requests: [client_writer_] and the
    response are its own. *)
Record ClientStreamingClient := mkClientStreaming {
  client_writer_ : StreamMembers;
  stream_response_ : Message
}.

(** The class for methods that stream responses, with [client_reader_]. *)
Definition ServerStreamingClient : Type := StreamMembers.

(** The class for methods that stream both, with [client_reader_writer_]. *)
Definition BidiClient : Type := StreamMembers.

Definition stream_new (name : string) (t : RpcType) : StreamMembers :=
  mkStream (mkContext 0 None) name t false [].

Definition ClientStreaming_new (name : string) (response : Message) : ClientStreamingClient :=
  mkClientStreaming (stream_new name CLIENT_STREAMING) response.
Definition ServerStreaming_new (name : string) : ServerStreamingClient :=
  stream_new name SERVER_STREAMING.
Definition Bidi_new (name : string) : BidiClient := stream_new name BIDI_STREAMING.

(** ** The stream *)

Definition set_stream (ops : list StreamOp) (c : StreamMembers) : StreamMembers :=
  mkStream (stream_context_ c) (rpc_method_name_ c) (rpc_method_ c) true ops.

(** [reset(Factory::Create(channel, rpc_method_, client_context_, ...))]. *)
Definition create_stream (request : option Message) : M StreamMembers unit :=
  modify (λ c, set_stream (stream_ops c ++
    [OpCreate (rpc_method_name_ c) (rpc_method_ c) (context_id (stream_context_ c)) request]) c).

(** A call through the unique pointer. *)
Definition stream_call {A} (o : StreamOp) (answer : nat → A) : M StreamMembers A := λ c,
  if stream_set c
  then Ok (answer (length (stream_ops c))) (set_stream (stream_ops c ++ [o]) c)
  else Fail NullPointer.

Definition create_if_needed : M StreamMembers unit :=
  c ← get;
  if negb (stream_set c) then create_stream None else mret tt.

(** ** [CLIENT_STREAMING] *)

Definition on_writer {A} (m : M StreamMembers A) : M ClientStreamingClient A := λ c,
  match m (client_writer_ c) with
  | Ok a w => Ok a (mkClientStreaming w (stream_response_ c))
  | Fail f => Fail f
  end.

Definition InstantiateClientWriterIfNeeded : M ClientStreamingClient unit :=
  on_writer create_if_needed.

Definition ClientWriter_WriteImpl (request : Message) : M ClientStreamingClient bool :=
  InstantiateClientWriterIfNeeded ;;
  on_writer (stream_call (OpWrite request) (λ i, stream_Write i request)).

(** The result of [WriteImpl] is dropped, and it does not set the status. *)
Definition ClientStreaming_Write (request : Message) : M ClientStreamingClient (bool * Status) :=
  let internal_status := Status_OK in
  ClientWriter_WriteImpl request ;;
  mret (status_ok internal_status, internal_status).

Definition ClientStreaming_StreamWritesDone : M ClientStreamingClient bool :=
  InstantiateClientWriterIfNeeded ;;
  on_writer (stream_call OpWritesDone stream_WritesDone).

(** gRPC writes the response to the [response_] it was given at creation. *)
Definition ClientStreaming_StreamFinish : M ClientStreamingClient Status :=
  InstantiateClientWriterIfNeeded ;;
  r ← on_writer (stream_call OpFinish stream_Finish);
  modify (λ c, mkClientStreaming (client_writer_ c) r.2) ;;
  mret r.1.

(** ** [SERVER_STREAMING] *)

(** The unique pointer is reset: an older stream goes away. *)
Definition InstantiateClientReader (request : Message) : M ServerStreamingClient unit :=
  create_stream (Some request).

Definition ServerStreaming_WriteImpl (request : Message) : M ServerStreamingClient bool :=
  InstantiateClientReader request ;;
  mret true.

Definition ServerStreaming_Write (request : Message) : M ServerStreamingClient (bool * Status) :=
  let internal_status := Status_OK in
  ServerStreaming_WriteImpl request ;;
  mret (status_ok internal_status, internal_status).

Definition ServerStreaming_StreamRead : M ServerStreamingClient (option Message) :=
  c ← get;
  check (stream_set c) "client_reader_" ;;
  stream_call OpRead stream_Read.

Definition ServerStreaming_StreamFinish : M ServerStreamingClient Status :=
  c ← get;
  check (stream_set c) "client_reader_" ;;
  r ← stream_call OpFinish stream_Finish;
  mret r.1.

(** ** [BIDI_STREAMING] *)

Definition InstantiateClientReaderWriterIfNeeded : M BidiClient unit := create_if_needed.

Definition Bidi_StreamRead : M BidiClient (option Message) :=
  InstantiateClientReaderWriterIfNeeded ;;
  stream_call OpRead stream_Read.

Definition Bidi_WriteImpl (request : Message) : M BidiClient bool :=
  InstantiateClientReaderWriterIfNeeded ;;
  stream_call (OpWrite request) (λ i, stream_Write i request).

Definition Bidi_Write (request : Message) : M BidiClient (bool * Status) :=
  let internal_status := Status_OK in
  Bidi_WriteImpl request ;;
  mret (status_ok internal_status, internal_status).

Definition Bidi_StreamWritesDone : M BidiClient bool :=
  InstantiateClientReaderWriterIfNeeded ;;
  stream_call OpWritesDone stream_WritesDone.

Definition Bidi_StreamFinish : M BidiClient Status :=
  InstantiateClientReaderWriterIfNeeded ;;
  r ← stream_call OpFinish stream_Finish;
  mret r.1.

(** ** Sequences of calls *)

Inductive ClientCall :=
  | DoWrite (request : Message)
  | DoRead
  | DoWritesDone
  | DoFinish.

Definition client_op (k : ClientCall) : StreamOp :=
  match k with
  | DoWrite request => OpWrite request
  | DoRead => OpRead
  | DoWritesDone => OpWritesDone
  | DoFinish => OpFinish
  end.

Definition bidi_call (k : ClientCall) : M BidiClient unit :=
  match k with
  | DoWrite request => Bidi_Write request ;; mret tt
  | DoRead => Bidi_StreamRead ;; mret tt
  | DoWritesDone => Bidi_StreamWritesDone ;; mret tt
  | DoFinish => Bidi_StreamFinish ;; mret tt
  end.

(** A server-streaming client has no [StreamWritesDone]. *)
Definition server_streaming_call (k : ClientCall) : M ServerStreamingClient unit :=
  match k with
  | DoWrite request => ServerStreaming_Write request ;; mret tt
  | DoRead => ServerStreaming_StreamRead ;; mret tt
  | DoWritesDone => mret tt
  | DoFinish => ServerStreaming_StreamFinish ;; mret tt
  end.

(** Its operations on streams: a write makes a new stream. *)
Definition server_streaming_op (name : string) (k : ClientCall) : option StreamOp :=
  match k with
  | DoWrite request => Some (OpCreate name SERVER_STREAMING 0 (Some request))
  | DoRead => Some OpRead
  | DoWritesDone => None
  | DoFinish => Some OpFinish
  end.

(** Nothing is read before the first write. *)
Fixpoint writes_first (ks : list ClientCall) : bool :=
  match ks with
  | [] | DoWrite _ :: _ => true
  | DoWritesDone :: ks' => writes_first ks'
  | DoRead :: _ | DoFinish :: _ => false
  end.

(** A bidirectional or server-streaming client whose stream exists. *)
Definition streaming (name : string) (t : RpcType) (ops : list StreamOp) : StreamMembers :=
  mkStream (mkContext 0 None) name t true ops.

Lemma bidi_calls_instantiated ks name ops :
  for_each ks bidi_call (streaming name BIDI_STREAMING ops) =
    Ok tt (streaming name BIDI_STREAMING (ops ++ (client_op <$> ks))).
Proof.
  revert ops. induction ks as [|k ks IH]; intros ops; cbn [for_each]; [by rewrite app_nil_r|].
  unfold mbind, M_bind.
  assert (bidi_call k (streaming name BIDI_STREAMING ops) =
    Ok tt (streaming name BIDI_STREAMING (ops ++ [client_op k]))) as -> by (by destruct k).
  rewrite IH, <- app_assoc. done.
Qed.

(** One stream per bidirectional client.  Every sequence of calls
    returns; the first call creates the stream, no later one does, and the
    stream sees the operations of the calls, in their order. *)
Theorem bidi_client_one_stream (ks : list ClientCall) name :
  for_each ks bidi_call (Bidi_new name) =
    Ok tt (match ks with
           | [] => Bidi_new name
           | _ => streaming name BIDI_STREAMING
                    (OpCreate name BIDI_STREAMING 0 None :: (client_op <$> ks))
           end).
Proof.
  destruct ks as [|k ks]; [done|]. cbn [for_each]. unfold mbind at 1, M_bind at 1.
  assert (bidi_call k (Bidi_new name) = Ok tt (streaming name BIDI_STREAMING
    [OpCreate name BIDI_STREAMING 0 None; client_op k])) as -> by (by destruct k).
  by rewrite bidi_calls_instantiated.
Qed.

Lemma server_streaming_instantiated ks name ops :
  for_each ks server_streaming_call (streaming name SERVER_STREAMING ops) =
    Ok tt (streaming name SERVER_STREAMING (ops ++ omap (server_streaming_op name) ks)).
Proof.
  revert ops. induction ks as [|k ks IH]; intros ops; cbn [for_each]; [by rewrite app_nil_r|].
  unfold mbind, M_bind.
  assert (server_streaming_call k (streaming name SERVER_STREAMING ops) =
    Ok tt (streaming name SERVER_STREAMING (ops ++ omap (server_streaming_op name) [k]))) as ->.
  { destruct k; try done. by rewrite app_nil_r. }
  rewrite IH, <- app_assoc. by destruct k.
Qed.

(** The server-streaming client.  A sequence of calls on a new client
    fails, in a CHECK, exactly when it reads or finishes before the first
    write; otherwise every write creates a stream for its request, which the
    following reads and finishes then use. *)
Theorem server_streaming_exact (ks : list ClientCall) name :
  for_each ks server_streaming_call (ServerStreaming_new name) =
    if writes_first ks
    then Ok tt (mkStream (mkContext 0 None) name SERVER_STREAMING
           (existsb (λ k, match k with DoWrite _ => true | _ => false end) ks)
           (omap (server_streaming_op name) ks))
    else Fail (CheckFailed "client_reader_").
Proof.
  induction ks as [|k ks IH]; [done|]. cbn [for_each].
  destruct k as [m| | |]; [|done| |done]; unfold mbind at 1, M_bind at 1.
  - etransitivity; [exact (server_streaming_instantiated ks name
      [OpCreate name SERVER_STREAMING 0 (Some m)])|done].
  - etransitivity; [exact IH|done].
Qed.

(** Writes that fail unnoticed.  The client-streaming and the
    bidirectional client report success for a write whatever gRPC answered:
    [Write] returns true and an OK status also when the stream refused the
    message, which [WriteImpl] knows. *)
Theorem stream_write_ignores_failure request c :
  ∃ c' b, b = stream_Write (length (stream_ops c') - 1) request ∧
    Bidi_WriteImpl request c = Ok b c' ∧ Bidi_Write request c = Ok (true, Status_OK) c' ∧
    ∀ r, ClientWriter_WriteImpl request (mkClientStreaming c r) = Ok b (mkClientStreaming c' r) ∧
      ClientStreaming_Write request (mkClientStreaming c r) =
        Ok (true, Status_OK) (mkClientStreaming c' r).
Proof.
  unfold ClientStreaming_Write, ClientWriter_WriteImpl, Bidi_Write, Bidi_WriteImpl,
    InstantiateClientWriterIfNeeded, InstantiateClientReaderWriterIfNeeded, create_if_needed,
    create_stream, on_writer, stream_call, mbind, M_bind, get, modify, mret, M_ret.
  rewrite status_ok_OK.
  destruct c as [cx name t [] ops]; simpl; do 2 eexists; (split_and!; [|reflexivity|reflexivity|by split]);
    simpl; rewrite !length_app; simpl; f_equal; lia.
Qed.

End streams.
