(* ===== verification/AsyncClient.v ===== *)
(** * The asynchronous clients

    src/async_grpc/async_client.h, with the events and the completion queue
    loop of completion_queue_pool.h and .cc.  A client is a state machine: the
    application starts it with [WriteAsync], and each tag gRPC returns leads
    to one call of [HandleEvent].  The calls of the user's callback are
    recorded. *)

From Stdlib Require Import ZArith Lia.
From stdpp Require Import base option list strings.
From S2P Require Import Prelude Interfaces.

Set Default Proof Using "Type".

Module ClientEvent.
Inductive Event := FINISH | READ | WRITE.

#[global] Instance Event_eq_dec : EqDecision Event.
Proof. solve_decision. Defined.
End ClientEvent.
Import ClientEvent.

Section async.
Context `{GrpcStatus, Application}.

(** What the callback is called with. *)
Definition CallbackArgs : Type := Status * option Message.

(** ** [NORMAL_RPC] *)

Record AsyncUnary := mkAsyncUnary {
  u_response_reader_ : bool;
  u_callback_ : bool;
  u_status_ : Status;
  u_response_ : Message;
  u_tags : list Event;
  u_log : list CallbackArgs
}.

Definition AsyncUnary_WriteAsync (request : Message) : M AsyncUnary unit :=
  modify (λ c, mkAsyncUnary true (u_callback_ c) (u_status_ c) (u_response_ c)
    (u_tags c ++ [FINISH]) (u_log c)).

Definition AsyncUnary_HandleFinishEvent : M AsyncUnary unit :=
  modify (λ c,
    if u_callback_ c then
      mkAsyncUnary (u_response_reader_ c) true (u_status_ c) (u_response_ c) (u_tags c)
        (u_log c ++ [(u_status_ c, if status_ok (u_status_ c) then Some (u_response_ c) else None)])
    else c).

Definition AsyncUnary_HandleEvent (e : Event) : M AsyncUnary unit :=
  match e with
  | FINISH => AsyncUnary_HandleFinishEvent
  | _ => fail (LogFatal "Unhandled event type")
  end.

(** gRPC returns a tag, having written the status and the response; the loop
    of [CompletionQueue::RunCompletionQueue] dispatches it. *)
Definition AsyncUnary_complete (e : Event) (st : Status) (m : Message) : M AsyncUnary unit :=
  modify (λ c, mkAsyncUnary (u_response_reader_ c) (u_callback_ c) st m
    (filter (λ t, t ≠ e) (u_tags c)) (u_log c)) ;;
  AsyncUnary_HandleEvent e.

(** An asynchronous unary call.  After [WriteAsync] one tag is with
    gRPC; when it comes back, the callback is called once, with the status
    gRPC wrote and with the response exactly when that status is OK. *)
Theorem async_unary_callback request st m st0 m0 :
  ∃ c c', AsyncUnary_WriteAsync request (mkAsyncUnary false true st0 m0 [] []) = Ok tt c ∧
    u_tags c = [FINISH] ∧ AsyncUnary_complete FINISH st m c = Ok tt c' ∧
    u_tags c' = [] ∧ u_log c' = [(st, if status_ok st then Some m else None)].
Proof. do 2 eexists. split_and!; done. Qed.

(** ** [SERVER_STREAMING] *)

(** [received] records the messages gRPC delivered with successful reads. *)
Record AsyncStream := mkAsyncStream {
  response_reader_ : bool;
  callback_ : bool;
  async_response_ : option Message;
  finish_status_ : Status;
  stream_tags : list Event;
  stream_log : list CallbackArgs;
  received : list Message
}.

Definition AsyncStream_new (st : Status) : AsyncStream :=
  mkAsyncStream false true None st [] [] [].

(** A call on the reader that registers a tag. *)
Definition reader_call (e : Event) : M AsyncStream unit := λ c,
  if response_reader_ c
  then Ok tt (mkAsyncStream true (callback_ c) (async_response_ c) (finish_status_ c)
         (stream_tags c ++ [e]) (stream_log c) (received c))
  else Fail NullPointer.

Definition call_callback (args : CallbackArgs) : M AsyncStream unit :=
  modify (λ c, mkAsyncStream (response_reader_ c) (callback_ c) (async_response_ c)
    (finish_status_ c) (stream_tags c) (stream_log c ++ [args]) (received c)).

Definition clear_callback : M AsyncStream unit :=
  modify (λ c, mkAsyncStream (response_reader_ c) false (async_response_ c) (finish_status_ c)
    (stream_tags c) (stream_log c) (received c)).

Definition set_finish_status (st : Status) : M AsyncStream unit :=
  modify (λ c, mkAsyncStream (response_reader_ c) (callback_ c) (async_response_ c) st
    (stream_tags c) (stream_log c) (received c)).

Definition AsyncStream_WriteAsync (request : Message) : M AsyncStream unit :=
  modify (λ c, mkAsyncStream true (callback_ c) (async_response_ c) (finish_status_ c)
    (stream_tags c ++ [WRITE]) (stream_log c) (received c)).

Definition HandleWriteEvent (ok : bool) : M AsyncStream unit :=
  if negb ok then
    let status := Status_make StatusCode_INTERNAL "Write failed in async server streaming." in
    c ← get;
    (if callback_ c then call_callback (status, None) ;; clear_callback else mret tt) ;;
    set_finish_status status ;;
    reader_call FINISH
  else reader_call READ.

Definition HandleReadEvent (ok : bool) : M AsyncStream unit :=
  if ok then
    c ← get;
    (if callback_ c then
       call_callback (Status_OK, async_response_ c) ;;
       (if negb ok then clear_callback else mret tt)
     else mret tt) ;;
    reader_call READ
  else
    set_finish_status Status_OK ;;
    reader_call FINISH.

Definition HandleFinishEvent (ok : bool) : M AsyncStream unit :=
  c ← get;
  if callback_ c then
    call_callback
      (if ok then Status_OK
       else Status_make StatusCode_INTERNAL "Finish failed in async server streaming.", None) ;;
    clear_callback
  else mret tt.

Definition AsyncStream_HandleEvent (e : Event) (ok : bool) : M AsyncStream unit :=
  match e with
  | WRITE => HandleWriteEvent ok
  | READ => HandleReadEvent ok
  | FINISH => HandleFinishEvent ok
  end.

(** gRPC returns the tag [e]: a successful read wrote [m] to the response, a
    finish wrote [st] to the finish status. *)
Definition AsyncStream_complete (e : Event) (ok : bool) (m : Message) (st : Status) :
    M AsyncStream unit :=
  modify (λ c,
    let reads := bool_decide (e = READ) && ok in
    mkAsyncStream (response_reader_ c) (callback_ c)
      (if reads then Some m else async_response_ c)
      (if bool_decide (e = FINISH) then st else finish_status_ c)
      (filter (λ t, t ≠ e) (stream_tags c)) (stream_log c)
      (if reads then received c ++ [m] else received c)) ;;
  AsyncStream_HandleEvent e ok.

(** The states a client can be in: one call of [WriteAsync], then any tags
    gRPC may return. *)
Inductive stream_run (st0 : Status) : AsyncStream → Prop :=
  | stream_start request c :
      AsyncStream_WriteAsync request (AsyncStream_new st0) = Ok tt c → stream_run st0 c
  | stream_next c e ok m st c' :
      stream_run st0 c → e ∈ stream_tags c → AsyncStream_complete e ok m st c = Ok tt c' →
      stream_run st0 c'.

(** The last call of the callback, if it was made. *)
Definition terminal (c : AsyncStream) : list CallbackArgs :=
  drop (length (received c)) (stream_log c).

(** The invariant: the messages received were handed out, in order, and then
    perhaps one call without a message; the callback is dropped exactly with
    that call; there is one tag with gRPC until the call is finished. *)
Definition stream_inv (c : AsyncStream) : Prop :=
  response_reader_ c = true ∧
  (∃ t, stream_log c = ((λ m, (Status_OK, Some m)) <$> received c) ++ t ∧
     (t = [] ∧ callback_ c = true ∨ (∃ st, t = [(st, None)]) ∧ callback_ c = false)) ∧
  (stream_tags c = [WRITE] ∧ callback_ c = true ∨ stream_tags c = [READ] ∧ callback_ c = true ∨
   stream_tags c = [FINISH] ∨ stream_tags c = [] ∧ callback_ c = false).

Lemma stream_inv_step e ok m st c :
  stream_inv c → e ∈ stream_tags c → wp (AsyncStream_complete e ok m st) (λ _, stream_inv) c.
Proof.
  destruct c as [rd cb re fs tg lg rc]. intros (Hrd & (t & Hl & Ht) & Htag) He. simpl in *. subst rd lg.
  destruct Htag as [[-> ->]|[[-> ->]|[->|[-> ->]]]]; rewrite ?list_elem_of_singleton in He;
    [subst e..|by apply elem_of_nil in He].
  - destruct Ht as [[-> _]|[_ ?]]; [|done]. rewrite app_nil_r. destruct ok.
    + split_and!; simpl; [done| |by auto]. exists []. rewrite app_nil_r. auto.
    + split_and!; simpl; [done| |by auto]. eexists [_]. split; [done|]. right. eauto.
  - destruct Ht as [[-> _]|[_ ?]]; [|done]. rewrite app_nil_r. destruct ok.
    + split_and!; simpl; [done| |by auto]. exists []. rewrite fmap_app, app_nil_r. auto.
    + split_and!; simpl; [done| |by auto]. exists []. rewrite app_nil_r. auto.
  - destruct cb.
    + destruct Ht as [[-> _]|[_ ?]]; [|done]. rewrite app_nil_r.
      destruct ok; (split_and!; simpl; [done| |by auto]); eexists [_]; (split; [done|]); right; eauto.
    + destruct Ht as [[_ ?]|[[st' ->] _]]; [done|].
      split_and!; simpl; [done| |by auto]. eexists [_]. split; [done|]. right. eauto.
Qed.

Lemma stream_run_inv st0 c : stream_run st0 c → stream_inv c.
Proof.
  induction 1 as [request c Hx|c e ok m st c' _ IH He Hx].
  - injection Hx as <-. split_and!; simpl; auto. exists []. auto.
  - pose proof (stream_inv_step e ok m st c IH He) as Hw. unfold wp in Hw. by rewrite Hx in Hw.
Qed.

(** Executing a list of completions. *)
Fixpoint stream_exec (ls : list (Event * bool * Message * Status)) (c : AsyncStream) :
    option AsyncStream :=
  match ls with
  | [] => Some c
  | (e, ok, m, st) :: ls' =>
      if decide (e ∈ stream_tags c) then
        match AsyncStream_complete e ok m st c with
        | Ok _ c' => stream_exec ls' c'
        | Fail _ => None
        end
      else None
  end.

Lemma stream_exec_run st0 ls c c' :
  stream_run st0 c → stream_exec ls c = Some c' → stream_run st0 c'.
Proof.
  revert c. induction ls as [|[[[e ok] m] st] ls IH]; intros c Hc; simpl; [by intros [= <-]|].
  destruct (decide _) as [He|]; [|done].
  destruct (AsyncStream_complete e ok m st c) as [[] c1|] eqn:Hx; [|done].
  apply IH. by eapply stream_next.
Qed.

(** An asynchronous stream.  In every state of a server-streaming client,
    the callback got the messages received so far, each with status OK and in
    order, followed by at most one call without a message; no more than one
    tag is with gRPC, and when there is none, that last call was made; and
    whatever tag gRPC returns next is handled without a crash. *)
Theorem async_stream_callbacks st0 c :
  stream_run st0 c →
  stream_log c = ((λ m, (Status_OK, Some m)) <$> received c) ++ terminal c ∧
  length (terminal c) ≤ 1 ∧ Forall (λ a, a.2 = None) (terminal c) ∧
  length (stream_tags c) ≤ 1 ∧ (stream_tags c = [] → length (terminal c) = 1) ∧
  ∀ e ok m st, e ∈ stream_tags c → ∃ c', AsyncStream_complete e ok m st c = Ok tt c'.
Proof.
  intros Hrun%stream_run_inv. pose proof Hrun as (_ & (t & Hl & Ht) & Htag).
  assert (terminal c = t) as ->.
  { unfold terminal. rewrite Hl. apply drop_app_length'. by rewrite length_fmap. }
  split_and!.
  - done.
  - destruct Ht as [[-> _]|[[st ->] _]]; simpl; lia.
  - destruct Ht as [[-> _]|[[st ->] _]]; by repeat constructor.
  - destruct Htag as [[-> _]|[[-> _]|[->|[-> _]]]]; simpl; lia.
  - intros E. destruct Htag as [[E' _]|[[E' _]|[E'|[_ Hcb]]]]; [congruence..|].
    destruct Ht as [[_ ?]|[[st ->] _]]; [congruence|done].
  - intros e ok m st He. pose proof (stream_inv_step e ok m st c Hrun He) as Hw. unfold wp in Hw.
    destruct (AsyncStream_complete e ok m st c) as [[] c'|]; [by exists c'|done].
Qed.

(** The server's status is dropped.  When the reads of a stream end and
    the finish completes, the callback is told OK whatever status the server
    finished with. *)
Theorem async_stream_drops_status c m st :
  response_reader_ c = true → callback_ c = true → stream_tags c = [FINISH] →
  ∃ c', AsyncStream_complete FINISH true m st c = Ok tt c' ∧ finish_status_ c' = st ∧
    stream_log c' = stream_log c ++ [(Status_OK, None)].
Proof.
  destruct c as [rd cb re fs tg lg rc]. simpl. intros -> -> ->. eexists. split_and!; done.
Qed.

End async.

(** ** Concrete runs *)

#[local] Existing Instance example_status.
#[local] Existing Instance example_application.

(** The call is started, two messages arrive and the server ends the stream
    with an error. *)
Definition example_message : Message := 0%Z.

Definition example_start : AsyncStream :=
  mkAsyncStream true true None Status_OK [WRITE] [] [].

Definition example_completions : list (Event * bool * Message * Status) :=
  [(WRITE, true, 0%Z, Status_OK); (READ, true, 4%Z, Status_OK); (READ, true, 9%Z, Status_OK);
   (READ, false, 0%Z, Status_OK)].

Definition example_stream : AsyncStream :=
  default example_start (stream_exec example_completions example_start).

Lemma example_stream_run : stream_run Status_OK example_stream.
Proof.
  apply (stream_exec_run _ example_completions example_start); [|vm_compute; reflexivity].
  by apply (stream_start _ example_message).
Qed.

Lemma async_stream_callbacks_witness :
  stream_log example_stream =
    ((λ m, (Status_OK, Some m)) <$> received example_stream) ++ terminal example_stream.
Proof. apply (async_stream_callbacks Status_OK example_stream). apply example_stream_run. Defined.

Lemma async_stream_drops_status_witness :
  ∃ c', AsyncStream_complete FINISH true example_message (Status_make StatusCode_INTERNAL "gone")
      example_stream = Ok tt c' ∧
    finish_status_ c' = Status_make StatusCode_INTERNAL "gone" ∧
    stream_log c' = stream_log example_stream ++ [(Status_OK, None)].
Proof.
  apply (async_stream_drops_status example_stream example_message
    (Status_make StatusCode_INTERNAL "gone")); reflexivity.
Defined.
