(* ===== verification/CompletionQueuePool.v ===== *)
(** * The pool of client completion queues

    src/async_grpc/completion_queue_pool.h and .cc.  The pool is a singleton;
    its mutex makes [Initialize] and [Shutdown] atomic. *)

From Stdlib Require Import ZArith Lia.
From stdpp Require Import base option list strings.
From S2P Require Import Prelude Threads.

Set Default Proof Using "Type".

Definition kDefaultNumberCompletionQueues : Z := 2.

Record CompletionQueuePool := mkPool {
  initialized_ : bool;
  number_completion_queues_ : Z;
  completion_queues_ : list ThreadState
}.

Definition CompletionQueuePool_new : CompletionQueuePool :=
  mkPool false kDefaultNumberCompletionQueues [].

Definition CompletionQueue_Start (t : ThreadState) : failure + ThreadState := Thread_Start t.

(** [CompletionQueue::Shutdown]: unlike the threads of the server it checks
    that the thread exists. *)
Definition CompletionQueue_Shutdown (t : ThreadState) : failure + ThreadState :=
  match t with
  | NotStarted => inl (CheckFailed "CompletionQueue not yet started.")
  | t => Thread_join true t
  end.

Definition lift_queues (r : failure + list ThreadState) : M CompletionQueuePool (list ThreadState) :=
  match r with inl f => fail f | inr l => mret l end.

(** [std::vector::resize]. *)
Definition resize (n : nat) (l : list ThreadState) : list ThreadState :=
  take n l ++ replicate (n - length l) NotStarted.

Definition Initialize : M CompletionQueuePool unit :=
  p ← get;
  if initialized_ p then mret tt
  else
    qs ← lift_queues (for_threads CompletionQueue_Start
      (resize (Z.to_nat (number_completion_queues_ p)) (completion_queues_ p)));
    modify (λ p, mkPool true (number_completion_queues_ p) qs).

Definition SetNumberCompletionQueues (n : Z) : M CompletionQueuePool unit :=
  p ← get;
  check (negb (initialized_ p))
    "Can't change number of completion queues after initialization." ;;
  check (0 <? n)%Z "number_completion_queues" ;;
  modify (λ p, mkPool (initialized_ p) n (completion_queues_ p)).

(** [r] is what [rand()] returns; the result is the index of the queue. *)
Definition GetCompletionQueue (r : Z) : M CompletionQueuePool nat :=
  Initialize ;;
  p ← get;
  let size := Z.of_nat (length (completion_queues_ p)) in
  if decide (size = 0)%Z then fail UndefinedBehaviour
  else
    let qid := (to_size_t r mod size)%Z in
    if (qid <? size)%Z then mret (Z.to_nat qid) else fail OutOfRange.

Definition Start : M CompletionQueuePool unit := Initialize.

Definition Shutdown : M CompletionQueuePool unit :=
  p ← get;
  lift_queues (for_threads CompletionQueue_Shutdown (completion_queues_ p)) ;;
  modify (λ p, mkPool false (number_completion_queues_ p) []).

(** ** Sequences of calls *)

Inductive PoolCall :=
  | PSetNumber (n : Z)
  | PGet (r : Z)
  | PStart
  | PShutdown.

Definition pool_call (k : PoolCall) : M CompletionQueuePool unit :=
  match k with
  | PSetNumber n => SetNumberCompletionQueues n
  | PGet r => GetCompletionQueue r ;; mret tt
  | PStart => Start
  | PShutdown => Shutdown
  end.

(** The state after a call, [None] when the call aborts. *)
Definition pool_spec (s : bool * Z) (k : PoolCall) : option (bool * Z) :=
  match k with
  | PSetNumber n => if negb s.1 && (0 <? n)%Z then Some (false, n) else None
  | PGet _ | PStart => Some (true, s.2)
  | PShutdown => Some (false, s.2)
  end.

Fixpoint pool_spec_all (s : bool * Z) (ks : list PoolCall) : option (bool * Z) :=
  match ks with
  | [] => Some s
  | k :: ks' => s' ← pool_spec s k; pool_spec_all s' ks'
  end.

(** How a pool implements the specification: all its queues run when it is
    initialised, and it has none otherwise. *)
Definition pool_rep (s : bool * Z) (p : CompletionQueuePool) : Prop :=
  (0 < s.2)%Z ∧
  p = mkPool s.1 s.2 (if s.1 then replicate (Z.to_nat s.2) Running else []).

Lemma Initialize_rep s p :
  pool_rep s p → ∃ p', Initialize p = Ok tt p' ∧ pool_rep (true, s.2) p'.
Proof.
  destruct s as [[] n]; intros [Hn ->]; simpl in *; [by eexists|].
  unfold Initialize, mbind, M_bind, get. simpl. unfold resize. rewrite take_nil, Nat.sub_0_r. simpl.
  rewrite (for_threads_ok _ _ NotStarted Running) by (try done; by apply Forall_replicate).
  simpl. eexists. split; [done|]. split; [done|]. simpl. by rewrite length_replicate.
Qed.

(** [GetCompletionQueue] on a pool that implements the specification. *)
Lemma GetCompletionQueue_rep s p r :
  pool_rep s p →
  ∃ q p', GetCompletionQueue r p = Ok q p' ∧ pool_rep (true, s.2) p' ∧
    completion_queues_ p' !! q = Some Running.
Proof.
  intros Hp. destruct (Initialize_rep s p Hp) as (p' & Hi & [Hn ->]). simpl in *.
  unfold GetCompletionQueue, mbind, M_bind. rewrite Hi. unfold get. simpl.
  rewrite length_replicate, Z2Nat.id, decide_False by lia.
  assert (0 ≤ to_size_t r mod s.2 < s.2)%Z as Hm by (apply Z.mod_pos_bound; lia).
  rewrite (proj2 (Z.ltb_lt _ _)) by lia. do 2 eexists. split; [done|]. split; [by split|]. simpl.
  apply lookup_replicate. split; [done|lia].
Qed.

Lemma pool_call_rep s p k :
  pool_rep s p →
  match pool_call k p with
  | Ok _ p' => ∃ s', pool_spec s k = Some s' ∧ pool_rep s' p'
  | Fail _ => pool_spec s k = None
  end.
Proof.
  intros Hp. destruct k as [n|r| |]; simpl.
  - destruct s as [b m], Hp as [Hm ->]. simpl in *.
    unfold SetNumberCompletionQueues, mbind, M_bind, get. simpl.
    destruct b; simpl; [done|]. destruct (Z.ltb_spec 0 n); simpl; [|done].
    eexists. split; [done|]. by split.
  - destruct (GetCompletionQueue_rep s p r Hp) as (q & p' & Hg & Hp' & _).
    unfold mbind, M_bind. rewrite Hg. exists (true, s.2). by split.
  - destruct (Initialize_rep s p Hp) as (p' & Hi & Hr). unfold Start. rewrite Hi. eauto.
  - destruct s as [b n], Hp as [Hn ->]. simpl in *. unfold Shutdown, mbind, M_bind, get. simpl.
    destruct b; simpl.
    + rewrite (for_threads_ok _ _ Running Joined) by (try done; by apply Forall_replicate).
      simpl. eexists. split; [done|]. by split.
    + eexists. split; [done|]. by split.
Qed.

(** C29: the pool.  A sequence of calls on the pool returns exactly when the
    number of queues is only changed to a positive value and while the pool is
    not initialised; then, after each call, an initialised pool has the set
    number of queues, each with a running thread, and one that is not has
    none.  In particular the pool can be used again after a shutdown. *)
Theorem pool_refines (ks : list PoolCall) :
  match for_each ks pool_call CompletionQueuePool_new with
  | Ok _ p => ∃ s, pool_spec_all (false, kDefaultNumberCompletionQueues) ks = Some s ∧ pool_rep s p
  | Fail _ => pool_spec_all (false, kDefaultNumberCompletionQueues) ks = None
  end.
Proof.
  assert (pool_rep (false, kDefaultNumberCompletionQueues) CompletionQueuePool_new) as Hp by done.
  revert Hp. generalize (false, kDefaultNumberCompletionQueues) as s, CompletionQueuePool_new as p.
  induction ks as [|k ks IH]; intros s p Hp; simpl; [by exists s|].
  pose proof (pool_call_rep s p k Hp) as Hk. unfold mbind at 1, M_bind.
  destruct (pool_call k p) as [[] p1|f]; [|by rewrite Hk].
  destruct Hk as (s1 & -> & Hp1). by apply IH.
Qed.

(** The queue that is handed out.  On every pool reached by calls that
    returned, [GetCompletionQueue] returns the index of a queue whose thread
    runs, whatever [rand()] gives. *)
Theorem GetCompletionQueue_running (ks : list PoolCall) p r :
  for_each ks pool_call CompletionQueuePool_new = Ok tt p →
  ∃ q p', GetCompletionQueue r p = Ok q p' ∧ completion_queues_ p' !! q = Some Running.
Proof.
  intros Hx.
  assert (∃ s, pool_rep s p) as [s Hp].
  { revert Hx. assert (∃ s, pool_rep s CompletionQueuePool_new) as H0.
    { by exists (false, kDefaultNumberCompletionQueues). }
    revert H0. generalize CompletionQueuePool_new as p0.
    induction ks as [|k ks IH]; intros p0 [s0 H0]; simpl; [intros [= <-]; eauto|].
    pose proof (pool_call_rep s0 p0 k H0) as Hk. unfold mbind at 1, M_bind.
    destruct (pool_call k p0) as [[] p1|f]; [|done]. destruct Hk as (s1 & _ & Hp1). eauto. }
  destruct (GetCompletionQueue_rep s p r Hp) as (q & p' & Hg & _ & Hq). eauto.
Qed.

Lemma GetCompletionQueue_running_witness :
  ∃ q p', GetCompletionQueue 1804289383 (mkPool false 5 []) = Ok q p' ∧
    completion_queues_ p' !! q = Some Running.
Proof.
  apply (GetCompletionQueue_running [PGet 7; PShutdown; PSetNumber 5]). reflexivity.
Defined.
