(* ===== verification/AsyncPool.v ===== *)
(** * Asynchronous clients on the pool of completion queues

    How async_client.h and completion_queue_pool.cc work together: a client
    takes one of the pool's completion queues when it is constructed, the tags
    it gives gRPC are pointers to events inside the client
    ([CompletionQueue::ClientEvent]), and the thread of the queue hands each
    tag that comes back to its client.  Clients are objects at addresses;
    completion queues are told apart by the number of shutdowns before their
    creation. *)

From Stdlib Require Import ZArith Lia.
From stdpp Require Import base option list strings gmap.
From S2P Require Import Prelude Interfaces Threads AsyncClient CompletionQueuePool.
Import ClientEvent.

Set Default Proof Using "Type".

Section async_pool.
Context `{GrpcStatus, Application}.

(** The two specialisations behind [AsyncClientInterface]. *)
Inductive AsyncObject :=
  | UnaryClient_ (c : AsyncUnary)
  | StreamClient_ (c : AsyncStream).

Record ClientObject := mkClientObject {
  completion_queue_ : nat * nat;
  object_ : AsyncObject
}.

(** The tags a client has with gRPC. *)
Definition client_tags (o : AsyncObject) : list Event :=
  match o with UnaryClient_ c => u_tags c | StreamClient_ c => stream_tags c end.

(** [generation]: the shutdowns of the pool so far.  [orphans]: the tags of
    clients that were destroyed before gRPC returned them. *)
Record AsyncWorld := mkAsyncWorld {
  pool_ : CompletionQueuePool;
  generation : nat;
  clients : gmap nat ClientObject;
  next_client : nat;
  orphans : list (nat * Event)
}.

Definition async_init : AsyncWorld := mkAsyncWorld CompletionQueuePool_new 0 ∅ 0 [].

Definition on_pool {A} (m : M CompletionQueuePool A) : M AsyncWorld A := λ w,
  match m (pool_ w) with
  | Ok a p => Ok a (mkAsyncWorld p (generation w) (clients w) (next_client w) (orphans w))
  | Fail f => Fail f
  end.

Definition on_client (p : nat) (f : AsyncObject → outcome AsyncObject unit) : M AsyncWorld unit := λ w,
  match clients w !! p with
  | None => Fail UseAfterFree
  | Some c =>
      match f (object_ c) with
      | Ok _ o => Ok tt (mkAsyncWorld (pool_ w) (generation w)
          (<[p := mkClientObject (completion_queue_ c) o]> (clients w)) (next_client w) (orphans w))
      | Fail e => Fail e
      end
  end.

Definition lift_unary (m : M AsyncUnary unit) (c : AsyncUnary) : outcome AsyncObject unit :=
  match m c with Ok _ c' => Ok tt (UnaryClient_ c') | Fail f => Fail f end.

Definition lift_stream (m : M AsyncStream unit) (c : AsyncStream) : outcome AsyncObject unit :=
  match m c with Ok _ c' => Ok tt (StreamClient_ c') | Fail f => Fail f end.

(** The members of a client that was constructed: [st] and [m] are the default
    status and message. *)
Definition AsyncUnary_new (st : Status) (m : Message) : AsyncUnary :=
  mkAsyncUnary false true st m [] [].

(** The constructors: [completion_queue_(GetCompletionQueue())], where [r] is
    what [rand()] returns. *)
Definition AsyncClient_new (r : Z) (o : AsyncObject) : M AsyncWorld nat :=
  q ← on_pool (GetCompletionQueue r);
  w ← get;
  let p := next_client w in
  modify (λ w, mkAsyncWorld (pool_ w) (generation w)
    (<[p := mkClientObject (generation w, q) o]> (clients w)) (S p) (orphans w)) ;;
  mret p.

(** The queue a client points to still exists. *)
Definition queue_alive (w : AsyncWorld) (q : nat * nat) : bool :=
  bool_decide (q.1 = generation w) && bool_decide (q.2 < length (completion_queues_ (pool_ w))).

(** [WriteAsync] creates the call on the client's queue. *)
Definition WriteAsync (p : nat) (request : Message) : M AsyncWorld unit := λ w,
  match clients w !! p with
  | None => Fail UseAfterFree
  | Some c =>
      if queue_alive w (completion_queue_ c) then
        on_client p (λ o,
          match o with
          | UnaryClient_ u => lift_unary (AsyncUnary_WriteAsync request) u
          | StreamClient_ s => lift_stream (AsyncStream_WriteAsync request) s
          end) w
      else Fail UseAfterFree
  end.

(** The body of [CompletionQueue::RunCompletionQueue] for the tag of event [e]
    of the client at [p]: storing [ok] in the event and calling
    [HandleEvent] use the client. *)
Definition RunCompletionQueue (p : nat) (e : Event) (ok : bool) (m : Message) (st : Status) :
    M AsyncWorld unit :=
  on_client p (λ o,
    match o with
    | UnaryClient_ u => lift_unary (AsyncUnary_complete e st m) u
    | StreamClient_ s => lift_stream (AsyncStream_complete e ok m st) s
    end).

(** The destructor: the members go, the tags stay with gRPC. *)
Definition AsyncClient_destroy (p : nat) : M AsyncWorld unit := λ w,
  match clients w !! p with
  | None => Fail UseAfterFree
  | Some c => Ok tt (mkAsyncWorld (pool_ w) (generation w) (delete p (clients w)) (next_client w)
      (orphans w ++ ((λ e, (p, e)) <$> client_tags (object_ c))))
  end.

Definition pool_operation (k : PoolCall) : M AsyncWorld unit :=
  on_pool (pool_call k) ;;
  match k with
  | PShutdown => modify (λ w, mkAsyncWorld (pool_ w) (S (generation w)) (clients w) (next_client w)
      (orphans w))
  | _ => mret tt
  end.

(** ** Runs *)

Inductive AsyncLabel :=
  | AConstruct (r : Z) (o : AsyncObject)
  | AWrite (p : nat) (request : Message)
  | AComplete (p : nat) (e : Event) (ok : bool) (m : Message) (st : Status)
  | ADestroy (p : nat)
  | APool (k : PoolCall).

Definition async_exec (l : AsyncLabel) : M AsyncWorld unit :=
  match l with
  | AConstruct r o => AsyncClient_new r o ;; mret tt
  | AWrite p request => WriteAsync p request
  | AComplete p e ok m st => RunCompletionQueue p e ok m st
  | ADestroy p => AsyncClient_destroy p
  | APool k => pool_operation k
  end.

(** A client as its constructor leaves it. *)
Definition is_new (o : AsyncObject) : Prop :=
  match o with
  | UnaryClient_ c => ∃ st m, c = AsyncUnary_new st m
  | StreamClient_ c => ∃ st, c = AsyncStream_new st
  end.

Definition in_flight (w : AsyncWorld) (p : nat) (e : Event) : Prop :=
  (∃ c, clients w !! p = Some c ∧ e ∈ client_tags (object_ c)) ∨ (p, e) ∈ orphans w.

(** What may happen: gRPC returns a tag it holds;
    the application starts one call per client, while the pool that gave it its
    queue is up, destroys a client only when it has no tag with gRPC, shuts
    the pool down only when no client has one, and sets the number of queues
    as the pool allows. *)
Definition disciplined (w : AsyncWorld) (l : AsyncLabel) : Prop :=
  match l with
  | AConstruct _ o => is_new o
  | AWrite p _ => ∃ c, clients w !! p = Some c ∧ is_new (object_ c) ∧
      (completion_queue_ c).1 = generation w
  | AComplete p e _ _ _ => in_flight w p e
  | ADestroy p => ∃ c, clients w !! p = Some c ∧ client_tags (object_ c) = []
  | APool (PSetNumber n) => initialized_ (pool_ w) = false ∧ (0 < n)%Z
  | APool PShutdown => ∀ p e, ¬ in_flight w p e
  | APool _ => True
  end.

Inductive async_step (w w' : AsyncWorld) : Prop :=
  | async_step_intro l : disciplined w l → async_exec l w = Ok tt w' → async_step w w'.

(** ** The invariant *)
















(** A client destroyed too early.  Nothing in the destructor of a client waits
    for its tags or takes them back: when a client is destroyed with a tag
    outstanding, the return of that tag uses the destroyed object. *)
Theorem destroyed_client_use_after_free w w' p c e ok m st :
  clients w !! p = Some c → e ∈ client_tags (object_ c) → AsyncClient_destroy p w = Ok tt w' →
  in_flight w' p e ∧ RunCompletionQueue p e ok m st w' = Fail UseAfterFree.
Proof.
  intros Hp He. unfold AsyncClient_destroy. rewrite Hp. intros [= <-]. split.
  - right. simpl. apply elem_of_app. right. apply list_elem_of_fmap. by exists e.
  - unfold RunCompletionQueue, on_client. simpl. by rewrite lookup_delete_eq.
Qed.

End async_pool.

(** ** A stream in the middle of its reads *)

#[local] Existing Instance example_status.
#[local] Existing Instance example_application.

Definition message (z : Z) : @Message example_application := z.

Definition after_labels (ls : list AsyncLabel) : AsyncWorld :=
  match for_each ls async_exec async_init with Ok _ w => w | Fail _ => async_init end.

Definition stream_labels : list AsyncLabel :=
  [AConstruct 3 (StreamClient_ (AsyncStream_new Status_OK)); AWrite 0 (message 5);
   AComplete 0 WRITE true (message 0) Status_OK].

Definition stream_object (tags : list Event) : ClientObject :=
  mkClientObject (0, 1) (StreamClient_
    (mkAsyncStream (bool_decide (tags ≠ [])) true None Status_OK tags [] [])).

Lemma after_stream_labels :
  rtc async_step async_init (after_labels stream_labels) ∧
  clients (after_labels stream_labels) = {[0 := stream_object [READ]]}.
Proof.
  split; [|vm_compute; reflexivity].
  eapply rtc_l; [|eapply rtc_l; [|apply rtc_once]].
  - eapply (async_step_intro _ (after_labels (take 1 stream_labels))
      (AConstruct 3 (StreamClient_ (AsyncStream_new Status_OK)))); [|vm_compute; reflexivity].
    by exists Status_OK.
  - eapply (async_step_intro _ (after_labels (take 2 stream_labels)) (AWrite 0 (message 5)));
      [|vm_compute; reflexivity].
    exists (stream_object []). split; [vm_compute; reflexivity|]. split; [by exists Status_OK|].
    vm_compute; reflexivity.
  - eapply (async_step_intro _ _ (AComplete 0 WRITE true (message 0) Status_OK));
      [|vm_compute; reflexivity].
    left. exists (stream_object [WRITE]). split; [vm_compute; reflexivity|]. left.
Qed.


Lemma destroyed_client_use_after_free_witness :
  ∃ w', RunCompletionQueue 0 READ true (message 4) Status_OK w' = Fail UseAfterFree.
Proof.
  destruct (AsyncClient_destroy 0 (after_labels stream_labels)) as [[] w'|] eqn:E;
    [|exfalso; vm_compute in E; discriminate E].
  exists w'. apply (destroyed_client_use_after_free (after_labels stream_labels) w' 0
    (stream_object [READ]) READ).
  - rewrite (proj2 after_stream_labels). reflexivity.
  - left.
  - exact E.
Defined.
