(* ===== verification/Rpc.v ===== *)
(** * [Rpc] and [ActiveRpcs]

    Data and operations of src/async_grpc/rpc.h and rpc.cc, with the parts of
    rpc_handler.h and rpc_handler_interface.h a handler uses to talk back to
    its [Rpc].  All state shared by the objects of one [Service] is the
    record [World]; an operation of an object is a function of the object's
    address that runs in the monad [M World]. *)

From Stdlib Require Import ZArith Lia.
From stdpp Require Import base option list strings gmap.
From S2P Require Import Prelude Interfaces BlockingQueue.

Set Default Proof Using "Type".

(** [Rpc*] and [EventQueue*]. *)
Abbreviation RpcPtr := nat (only parsing).
Abbreviation QueuePtr := nat (only parsing).

Module Event.
Inductive t :=
  | NEW_CONNECTION
  | READ
  | WRITE_NEEDED
  | WRITE
  | FINISH
  | DONE.

#[global] Instance eq_dec : EqDecision t.
Proof. solve_decision. Defined.
End Event.
Import Event.

Module EventDeleter.
Inductive Action := DELETE | DO_NOT_DELETE.

#[global] Instance Action_eq_dec : EqDecision Action.
Proof. solve_decision. Defined.
End EventDeleter.
Import EventDeleter.

(** A [CompletionQueueRpcEvent] is a member of its [Rpc]. *)
Record CompletionQueueRpcEvent := mkCQEvent {
  event : Event.t;
  rpc_ptr : RpcPtr;
  ok : bool;
  pending : bool
}.

Definition CompletionQueueRpcEvent_new (e : Event.t) (rpc : RpcPtr) : CompletionQueueRpcEvent :=
  mkCQEvent e rpc false false.

(** What an event queue holds: a pointer to one of the events stored in an
    [Rpc], or a heap-allocated [InternalRpcEvent] with a weak pointer. *)
Inductive EventBase :=
  | CompletionEvent (rpc : RpcPtr) (e : Event.t)
  | InternalRpcEvent (e : Event.t) (rpc : RpcPtr).

Record UniqueEventPtr := mkUniqueEventPtr {
  event_ptr : EventBase;
  action_ : Action
}.

(** [EventDeleter::operator()] on a non-null event: is the event deleted? *)
Definition EventDeleter_call (p : UniqueEventPtr) : bool :=
  bool_decide (action_ p = DELETE).

Section rpc.
Context `{GrpcStatus, Application, EventQueueSelector}.

(** ** Handlers

    A handler's code is the application's.  What the framework can observe of
    one call of it is the new private state, the new shared context, and the
    calls of [Send], [Finish] and [GetWriter] it makes, in order. *)

Inductive HandlerAction :=
  | ASend (response : Message)
  | AFinish (status : Status)
  | AGetWriter.

Definition HandlerBody : Type :=
  HandlerState → Context_ → HandlerState * Context_ * list HandlerAction.

(** A handler class: its constructor together with [Initialize], and the
    three callbacks of [RpcHandlerInterface]. *)
Record RpcHandlerClass := mkHandlerClass {
  handler_Initialize : Context_ → HandlerState * Context_ * list HandlerAction;
  handler_OnRequest : Message → HandlerBody;
  handler_OnReadsDone : HandlerBody;
  handler_OnFinish : HandlerBody
}.

Record RpcHandlerInfo := mkRpcHandlerInfo {
  request_descriptor : Descriptor;
  response_descriptor : Descriptor;
  rpc_handler_class : RpcHandlerClass;
  rpc_type : RpcType;
  fully_qualified_name : string
}.

Record SendItem := mkSendItem {
  msg : option Message;
  status : Status
}.

(** ** The [Rpc] object

    [execution_context_], [service_] and [weak_ptr_factory_] are the same for
    all objects of one service and are not stored; the four unique pointers
    to gRPC reader and writer objects are represented by whether they are
    set. *)

Record Rpc := mkRpc {
  method_index_ : nat;
  server_completion_queue_ : nat;
  event_queue_ : QueuePtr;
  rpc_handler_info_ : RpcHandlerInfo;
  new_connection_event_ : CompletionQueueRpcEvent;
  read_event_ : CompletionQueueRpcEvent;
  write_event_ : CompletionQueueRpcEvent;
  finish_event_ : CompletionQueueRpcEvent;
  done_event_ : CompletionQueueRpcEvent;
  request_ : option Message;
  response_ : option Message;
  handler_ : option HandlerState;
  server_async_response_writer_ : bool;
  server_async_reader_ : bool;
  server_async_reader_writer_ : bool;
  server_async_writer_ : bool;
  send_queue_ : list SendItem
}.

Definition set_event_queue f (x : Rpc) : Rpc :=
  mkRpc (method_index_ x) (server_completion_queue_ x) (f (event_queue_ x))
   (rpc_handler_info_ x) (new_connection_event_ x) (read_event_ x) (write_event_ x)
   (finish_event_ x) (done_event_ x) (request_ x) (response_ x) (handler_ x)
   (server_async_response_writer_ x) (server_async_reader_ x) (server_async_reader_writer_ x)
   (server_async_writer_ x) (send_queue_ x).

Definition set_new_connection_event f (x : Rpc) : Rpc :=
  mkRpc (method_index_ x) (server_completion_queue_ x) (event_queue_ x) (rpc_handler_info_ x)
   (f (new_connection_event_ x)) (read_event_ x) (write_event_ x) (finish_event_ x)
   (done_event_ x) (request_ x) (response_ x) (handler_ x) (server_async_response_writer_ x)
   (server_async_reader_ x) (server_async_reader_writer_ x) (server_async_writer_ x)
   (send_queue_ x).

Definition set_read_event f (x : Rpc) : Rpc :=
  mkRpc (method_index_ x) (server_completion_queue_ x) (event_queue_ x) (rpc_handler_info_ x)
   (new_connection_event_ x) (f (read_event_ x)) (write_event_ x) (finish_event_ x)
   (done_event_ x) (request_ x) (response_ x) (handler_ x) (server_async_response_writer_ x)
   (server_async_reader_ x) (server_async_reader_writer_ x) (server_async_writer_ x)
   (send_queue_ x).

Definition set_write_event f (x : Rpc) : Rpc :=
  mkRpc (method_index_ x) (server_completion_queue_ x) (event_queue_ x) (rpc_handler_info_ x)
   (new_connection_event_ x) (read_event_ x) (f (write_event_ x)) (finish_event_ x)
   (done_event_ x) (request_ x) (response_ x) (handler_ x) (server_async_response_writer_ x)
   (server_async_reader_ x) (server_async_reader_writer_ x) (server_async_writer_ x)
   (send_queue_ x).

Definition set_finish_event f (x : Rpc) : Rpc :=
  mkRpc (method_index_ x) (server_completion_queue_ x) (event_queue_ x) (rpc_handler_info_ x)
   (new_connection_event_ x) (read_event_ x) (write_event_ x) (f (finish_event_ x))
   (done_event_ x) (request_ x) (response_ x) (handler_ x) (server_async_response_writer_ x)
   (server_async_reader_ x) (server_async_reader_writer_ x) (server_async_writer_ x)
   (send_queue_ x).

Definition set_done_event f (x : Rpc) : Rpc :=
  mkRpc (method_index_ x) (server_completion_queue_ x) (event_queue_ x) (rpc_handler_info_ x)
   (new_connection_event_ x) (read_event_ x) (write_event_ x) (finish_event_ x)
   (f (done_event_ x)) (request_ x) (response_ x) (handler_ x)
   (server_async_response_writer_ x) (server_async_reader_ x) (server_async_reader_writer_ x)
   (server_async_writer_ x) (send_queue_ x).

Definition set_request f (x : Rpc) : Rpc :=
  mkRpc (method_index_ x) (server_completion_queue_ x) (event_queue_ x) (rpc_handler_info_ x)
   (new_connection_event_ x) (read_event_ x) (write_event_ x) (finish_event_ x)
   (done_event_ x) (f (request_ x)) (response_ x) (handler_ x)
   (server_async_response_writer_ x) (server_async_reader_ x) (server_async_reader_writer_ x)
   (server_async_writer_ x) (send_queue_ x).

Definition set_response f (x : Rpc) : Rpc :=
  mkRpc (method_index_ x) (server_completion_queue_ x) (event_queue_ x) (rpc_handler_info_ x)
   (new_connection_event_ x) (read_event_ x) (write_event_ x) (finish_event_ x)
   (done_event_ x) (request_ x) (f (response_ x)) (handler_ x)
   (server_async_response_writer_ x) (server_async_reader_ x) (server_async_reader_writer_ x)
   (server_async_writer_ x) (send_queue_ x).

Definition set_handler f (x : Rpc) : Rpc :=
  mkRpc (method_index_ x) (server_completion_queue_ x) (event_queue_ x) (rpc_handler_info_ x)
   (new_connection_event_ x) (read_event_ x) (write_event_ x) (finish_event_ x)
   (done_event_ x) (request_ x) (response_ x) (f (handler_ x))
   (server_async_response_writer_ x) (server_async_reader_ x) (server_async_reader_writer_ x)
   (server_async_writer_ x) (send_queue_ x).

Definition set_send_queue f (x : Rpc) : Rpc :=
  mkRpc (method_index_ x) (server_completion_queue_ x) (event_queue_ x) (rpc_handler_info_ x)
   (new_connection_event_ x) (read_event_ x) (write_event_ x) (finish_event_ x)
   (done_event_ x) (request_ x) (response_ x) (handler_ x) (server_async_response_writer_ x)
   (server_async_reader_ x) (server_async_reader_writer_ x) (server_async_writer_ x)
   (f (send_queue_ x)).

(** ** The shared state of a service

    - [heap_]: the live [Rpc] objects with the use count of their
      [std::shared_ptr] (0 while a [std::unique_ptr] owns the object);
      [next_ptr] is the next fresh address.
    - [rpcs_]: the keys of [ActiveRpcs::rpcs_]; the value stored under a key
      is the [shared_ptr] to that same object.
    - [shutting_down_]: the member of [Service].
    - [event_queues]: the server's event queues; [selector_]: the state of
      the selector; [context_]: what the [ExecutionContext] holds.
    - [inflight]: the tags gRPC holds, registered by a call and not yet
      returned by [CompletionQueue::Next]; [started]: the connections gRPC
      has established.
    - [weak_refs]: the [Rpc]s for which a [Writer] was handed out;
      [threads]: calls of [Writer] methods in progress on other threads.
    - [grpc_calls], [enqueued], [callbacks], [spans], [written]: history
      variables recording the calls made into gRPC, the items ever put into a
      send queue, the callbacks ever made into handlers, the calls made on
      their trace spans when built with BUILD_TRACING, and which of the items
      were put there by [Writer]s.  No operation reads them. *)

Inductive GrpcCall :=
  | AsyncNotifyWhenDone (rpc : RpcPtr)
  | RequestAsync (kind : RpcType) (rpc : RpcPtr) (method_index : nat) (cq : nat)
  | Read (rpc : RpcPtr)
  | WriteMsg (rpc : RpcPtr) (m : Message)
  | FinishStream (rpc : RpcPtr) (s : Status)
  | FinishMsg (rpc : RpcPtr) (m : Message) (s : Status)
  | FinishWithError (rpc : RpcPtr) (s : Status).

(** The tag a call registers with the completion queue. *)
Definition tag_of (c : GrpcCall) : RpcPtr * Event.t :=
  match c with
  | AsyncNotifyWhenDone rpc => (rpc, DONE)
  | RequestAsync _ rpc _ _ => (rpc, NEW_CONNECTION)
  | Read rpc => (rpc, READ)
  | WriteMsg rpc _ => (rpc, WRITE)
  | FinishStream rpc _ | FinishMsg rpc _ _ | FinishWithError rpc _ => (rpc, FINISH)
  end.

Inductive Callback :=
  | CbInitialize
  | CbOnRequest (m : Message)
  | CbOnReadsDone
  | CbOnFinish.

(** A call on the trace span of a handler. *)
Inductive SpanCall :=
  | SpanStart (name : string)
  | SpanSetStatus (s : Status)
  | SpanEnd.

(** A [Writer] call on another thread, between two of its atomic steps. *)
Inductive WriterOp :=
  | WWrite (m : Message)
  | WWritesDone
  | WFinish (s : Status).

Inductive WriterPc :=
  | AtEnqueue
  | AtGetWeakPtr
  | AtPush
  | AtSpan
  | AtReturn.

Record WriterThread := mkWriterThread {
  wt_rpc : RpcPtr;
  wt_op : WriterOp;
  wt_pc : WriterPc
}.

Record World := mkWorld {
  heap_ : gmap RpcPtr (nat * Rpc);
  next_ptr : RpcPtr;
  rpcs_ : gset RpcPtr;
  shutting_down_ : bool;
  event_queues : list (BlockingQueue UniqueEventPtr);
  selector_ : sel_state;
  context_ : Context_;
  inflight : list (RpcPtr * Event.t);
  started : gset RpcPtr;
  weak_refs : gset RpcPtr;
  threads : list WriterThread;
  grpc_calls : list GrpcCall;
  enqueued : list (RpcPtr * SendItem);
  callbacks : list (RpcPtr * Callback);
  spans : list (RpcPtr * SpanCall);
  written : list (RpcPtr * SendItem)
}.

Definition upd_heap f (w : World) : World :=
  mkWorld (f (heap_ w)) (next_ptr w) (rpcs_ w) (shutting_down_ w) (event_queues w)
   (selector_ w) (context_ w) (inflight w) (started w) (weak_refs w) (threads w)
   (grpc_calls w) (enqueued w) (callbacks w) (spans w)
   (written w).

Definition upd_next_ptr f (w : World) : World :=
  mkWorld (heap_ w) (f (next_ptr w)) (rpcs_ w) (shutting_down_ w) (event_queues w)
   (selector_ w) (context_ w) (inflight w) (started w) (weak_refs w) (threads w)
   (grpc_calls w) (enqueued w) (callbacks w) (spans w)
   (written w).

Definition upd_rpcs f (w : World) : World :=
  mkWorld (heap_ w) (next_ptr w) (f (rpcs_ w)) (shutting_down_ w) (event_queues w)
   (selector_ w) (context_ w) (inflight w) (started w) (weak_refs w) (threads w)
   (grpc_calls w) (enqueued w) (callbacks w) (spans w)
   (written w).

Definition upd_shutting_down f (w : World) : World :=
  mkWorld (heap_ w) (next_ptr w) (rpcs_ w) (f (shutting_down_ w)) (event_queues w)
   (selector_ w) (context_ w) (inflight w) (started w) (weak_refs w) (threads w)
   (grpc_calls w) (enqueued w) (callbacks w) (spans w)
   (written w).

Definition upd_event_queues f (w : World) : World :=
  mkWorld (heap_ w) (next_ptr w) (rpcs_ w) (shutting_down_ w) (f (event_queues w))
   (selector_ w) (context_ w) (inflight w) (started w) (weak_refs w) (threads w)
   (grpc_calls w) (enqueued w) (callbacks w) (spans w)
   (written w).

Definition upd_selector f (w : World) : World :=
  mkWorld (heap_ w) (next_ptr w) (rpcs_ w) (shutting_down_ w) (event_queues w)
   (f (selector_ w)) (context_ w) (inflight w) (started w) (weak_refs w) (threads w)
   (grpc_calls w) (enqueued w) (callbacks w) (spans w)
   (written w).

Definition upd_context f (w : World) : World :=
  mkWorld (heap_ w) (next_ptr w) (rpcs_ w) (shutting_down_ w) (event_queues w) (selector_ w)
   (f (context_ w)) (inflight w) (started w) (weak_refs w) (threads w) (grpc_calls w)
   (enqueued w) (callbacks w) (spans w)
   (written w).

Definition upd_inflight f (w : World) : World :=
  mkWorld (heap_ w) (next_ptr w) (rpcs_ w) (shutting_down_ w) (event_queues w) (selector_ w)
   (context_ w) (f (inflight w)) (started w) (weak_refs w) (threads w) (grpc_calls w)
   (enqueued w) (callbacks w) (spans w)
   (written w).

Definition upd_started f (w : World) : World :=
  mkWorld (heap_ w) (next_ptr w) (rpcs_ w) (shutting_down_ w) (event_queues w) (selector_ w)
   (context_ w) (inflight w) (f (started w)) (weak_refs w) (threads w) (grpc_calls w)
   (enqueued w) (callbacks w) (spans w)
   (written w).

Definition upd_weak_refs f (w : World) : World :=
  mkWorld (heap_ w) (next_ptr w) (rpcs_ w) (shutting_down_ w) (event_queues w) (selector_ w)
   (context_ w) (inflight w) (started w) (f (weak_refs w)) (threads w) (grpc_calls w)
   (enqueued w) (callbacks w) (spans w)
   (written w).

Definition upd_threads f (w : World) : World :=
  mkWorld (heap_ w) (next_ptr w) (rpcs_ w) (shutting_down_ w) (event_queues w) (selector_ w)
   (context_ w) (inflight w) (started w) (weak_refs w) (f (threads w)) (grpc_calls w)
   (enqueued w) (callbacks w) (spans w)
   (written w).

Definition upd_grpc_calls f (w : World) : World :=
  mkWorld (heap_ w) (next_ptr w) (rpcs_ w) (shutting_down_ w) (event_queues w) (selector_ w)
   (context_ w) (inflight w) (started w) (weak_refs w) (threads w) (f (grpc_calls w))
   (enqueued w) (callbacks w) (spans w)
   (written w).

Definition upd_enqueued f (w : World) : World :=
  mkWorld (heap_ w) (next_ptr w) (rpcs_ w) (shutting_down_ w) (event_queues w) (selector_ w)
   (context_ w) (inflight w) (started w) (weak_refs w) (threads w) (grpc_calls w)
   (f (enqueued w)) (callbacks w) (spans w)
   (written w).

Definition upd_callbacks f (w : World) : World :=
  mkWorld (heap_ w) (next_ptr w) (rpcs_ w) (shutting_down_ w) (event_queues w) (selector_ w)
   (context_ w) (inflight w) (started w) (weak_refs w) (threads w) (grpc_calls w) (enqueued w)
   (f (callbacks w)) (spans w)
   (written w).

Definition upd_spans f (w : World) : World :=
  mkWorld (heap_ w) (next_ptr w) (rpcs_ w) (shutting_down_ w) (event_queues w) (selector_ w)
   (context_ w) (inflight w) (started w) (weak_refs w) (threads w) (grpc_calls w) (enqueued w)
   (callbacks w) (f (spans w)) (written w).

Definition upd_written f (w : World) : World :=
  mkWorld (heap_ w) (next_ptr w) (rpcs_ w) (shutting_down_ w) (event_queues w) (selector_ w)
   (context_ w) (inflight w) (started w) (weak_refs w) (threads w) (grpc_calls w) (enqueued w)
   (callbacks w) (spans w) (f (written w)).

(** ** Memory *)

Definition deref (p : RpcPtr) : M World Rpc := λ w,
  match heap_ w !! p with
  | Some (_, x) => Ok x w
  | None => Fail UseAfterFree
  end.

Definition store (p : RpcPtr) (f : Rpc → Rpc) : M World unit := λ w,
  match heap_ w !! p with
  | Some (n, x) => Ok tt (upd_heap (insert p (n, f x)) w)
  | None => Fail UseAfterFree
  end.

(** [weak_ptr::lock]: true when the object is still there. *)
Definition lock (p : RpcPtr) : M World bool := λ w,
  match heap_ w !! p with
  | Some (n, x) => Ok true (upd_heap (insert p (S n, x)) w)
  | None => Ok false w
  end.

(** [~Rpc] destroys the handler, if there is one; [~RpcHandler] ends its
    span. *)
Definition end_span (p : RpcPtr) (x : Rpc) (l : list (RpcPtr * SpanCall)) :
    list (RpcPtr * SpanCall) :=
  match handler_ x with Some _ => l ++ [(p, SpanEnd)] | None => l end.

(** Destruction of a [shared_ptr]: the last one deletes the object. *)
Definition release (p : RpcPtr) : M World unit := λ w,
  match heap_ w !! p with
  | Some (S (S n), x) => Ok tt (upd_heap (insert p (S n, x)) w)
  | Some (_, x) => Ok tt (upd_heap (delete p) (upd_spans (end_span p x) w))
  | None => Fail UseAfterFree
  end.

Definition push_event (q : QueuePtr) (p : UniqueEventPtr) : M World unit := λ w,
  match event_queues w !! q with
  | Some bq =>
      match Push p bq with
      | Some bq' => Ok tt (upd_event_queues (insert q bq') w)
      | None => Fail Blocked
      end
  | None => Fail UndefinedBehaviour
  end.

Definition grpc_call (c : GrpcCall) : M World unit :=
  modify (λ w, upd_inflight (λ l, l ++ [tag_of c]) (upd_grpc_calls (λ l, l ++ [c]) w)).

(** ** [ActiveRpcs] *)

(** [Add] moves the unique pointer into a local [shared_ptr] and puts a copy
    of it into the map; the caller gets the local one and drops it. *)
Definition ActiveRpcs_Add (p : RpcPtr) : M World unit :=
  w ← get;
  check (bool_decide (p ∉ rpcs_ w)) "RPC already active." ;;
  modify (upd_rpcs (λ s, {[p]} ∪ s)) ;;
  lock p ;; lock p ;;
  mret tt.

Definition ActiveRpcs_Remove (p : RpcPtr) : M World bool :=
  w ← get;
  if decide (p ∈ rpcs_ w) then
    modify (upd_rpcs (λ s, s ∖ {[p]})) ;;
    release p ;;
    mret true
  else mret false.

(** The weak pointer itself needs no representation beyond the address. *)
Definition ActiveRpcs_GetWeakPtr (p : RpcPtr) : M World RpcPtr :=
  w ← get;
  check (bool_decide (p ∈ rpcs_ w)) "ActiveRpcs::GetWeakPtr" ;;
  mret p.

(** The destructor. *)
Definition ActiveRpcs_destroy : M World unit :=
  w ← get;
  if decide (rpcs_ w = ∅) then mret tt else fail (LogFatal "RPCs still in flight!").

(** ** [Rpc]: construction *)

(** [InitializeReadersAndWriters] sets the one pointer the type needs. *)
Definition InitializeReadersAndWriters (t : RpcType) : bool * bool * bool * bool :=
  match t with
  | BIDI_STREAMING => (false, false, true, false)
  | CLIENT_STREAMING => (false, true, false, false)
  | NORMAL_RPC => (true, false, false, false)
  | SERVER_STREAMING => (false, false, false, true)
  end.

Definition Rpc_new (this : RpcPtr) (method_index cq : nat) (eq : QueuePtr)
    (info : RpcHandlerInfo) : Rpc :=
  let '(response_writer, reader, reader_writer, writer) :=
    InitializeReadersAndWriters (rpc_type info) in
  mkRpc method_index cq eq info
    (CompletionQueueRpcEvent_new NEW_CONNECTION this)
    (CompletionQueueRpcEvent_new READ this)
    (CompletionQueueRpcEvent_new WRITE this)
    (CompletionQueueRpcEvent_new FINISH this)
    (CompletionQueueRpcEvent_new DONE this)
    (Some (GetPrototype_New (request_descriptor info)))
    (Some (GetPrototype_New (response_descriptor info)))
    None response_writer reader reader_writer writer [].

(** [make_unique<Rpc>(...)]: the new object gets a fresh address. *)
Definition make_unique_Rpc (method_index cq : nat) (eq : QueuePtr)
    (info : RpcHandlerInfo) : M World RpcPtr :=
  w ← get;
  let p := next_ptr w in
  modify (λ w, upd_next_ptr S (upd_heap (insert p (0, Rpc_new p method_index cq eq info)) w)) ;;
  mret p.

Definition Clone (this : RpcPtr) : M World RpcPtr :=
  x ← deref this;
  make_unique_Rpc (method_index_ x) (server_completion_queue_ x) (event_queue_ x)
    (rpc_handler_info_ x).

Definition SetEventQueue (this : RpcPtr) (q : QueuePtr) : M World unit :=
  store this (set_event_queue (λ _, q)).

(** ** [Rpc]: event bookkeeping *)

Definition event_member (x : Rpc) (e : Event.t) : option CompletionQueueRpcEvent :=
  match e with
  | NEW_CONNECTION => Some (new_connection_event_ x)
  | READ => Some (read_event_ x)
  | WRITE_NEEDED => None
  | WRITE => Some (write_event_ x)
  | FINISH => Some (finish_event_ x)
  | DONE => Some (done_event_ x)
  end.

Definition update_event_member (e : Event.t)
    (f : CompletionQueueRpcEvent → CompletionQueueRpcEvent) (x : Rpc) : Rpc :=
  match e with
  | NEW_CONNECTION => set_new_connection_event f x
  | READ => set_read_event f x
  | WRITE_NEEDED => x
  | WRITE => set_write_event f x
  | FINISH => set_finish_event f x
  | DONE => set_done_event f x
  end.

Definition set_pending (b : bool) (ev : CompletionQueueRpcEvent) : CompletionQueueRpcEvent :=
  mkCQEvent (event ev) (rpc_ptr ev) (ok ev) b.

Definition set_ok (b : bool) (ev : CompletionQueueRpcEvent) : CompletionQueueRpcEvent :=
  mkCQEvent (event ev) (rpc_ptr ev) b (pending ev).

Definition GetRpcEvent (this : RpcPtr) (e : Event.t) : M World CompletionQueueRpcEvent :=
  x ← deref this;
  match event_member x e with
  | Some ev => mret ev
  | None => fail (LogFatal "Rpc does not store Event::WRITE_NEEDED.")
  end.

Definition GetRpcEventState (this : RpcPtr) (e : Event.t) : M World bool :=
  ev ← GetRpcEvent this e; mret (pending ev).

Definition SetRpcEventState (this : RpcPtr) (e : Event.t) (b : bool) : M World unit :=
  GetRpcEvent this e ;;
  store this (update_event_member e (set_pending b)).

Definition IsRpcEventPending (this : RpcPtr) (e : Event.t) : M World bool :=
  GetRpcEventState this e.

Definition IsAnyEventPending (this : RpcPtr) : M World bool :=
  d ← IsRpcEventPending this DONE;
  r ← IsRpcEventPending this READ;
  w ← IsRpcEventPending this WRITE;
  f ← IsRpcEventPending this FINISH;
  mret (d || r || w || f).

(** ** [Rpc]: gRPC reader and writer objects *)

Inductive StreamObject :=
  | ServerAsyncReaderWriter
  | ServerAsyncReader
  | ServerAsyncResponseWriter
  | ServerAsyncWriter.

Definition use_stream (set : bool) (o : StreamObject) : M World StreamObject :=
  if set then mret o else fail NullPointer.

Definition streaming_interface (this : RpcPtr) : M World StreamObject :=
  x ← deref this;
  match rpc_type (rpc_handler_info_ x) with
  | BIDI_STREAMING => use_stream (server_async_reader_writer_ x) ServerAsyncReaderWriter
  | CLIENT_STREAMING => use_stream (server_async_reader_ x) ServerAsyncReader
  | NORMAL_RPC => use_stream (server_async_response_writer_ x) ServerAsyncResponseWriter
  | SERVER_STREAMING => use_stream (server_async_writer_ x) ServerAsyncWriter
  end.

Definition async_reader_interface (this : RpcPtr) : M World StreamObject :=
  x ← deref this;
  match rpc_type (rpc_handler_info_ x) with
  | BIDI_STREAMING => use_stream (server_async_reader_writer_ x) ServerAsyncReaderWriter
  | CLIENT_STREAMING => use_stream (server_async_reader_ x) ServerAsyncReader
  | NORMAL_RPC => fail (LogFatal "For NORMAL_RPC no streaming reader interface exists.")
  | SERVER_STREAMING =>
      fail (LogFatal "For SERVER_STREAMING no streaming reader interface exists.")
  end.

Definition async_writer_interface (this : RpcPtr) : M World StreamObject :=
  x ← deref this;
  match rpc_type (rpc_handler_info_ x) with
  | BIDI_STREAMING => use_stream (server_async_reader_writer_ x) ServerAsyncReaderWriter
  | CLIENT_STREAMING | NORMAL_RPC =>
      fail (LogFatal "For NORMAL_RPC and CLIENT_STREAMING no streaming writer interface exists.")
  | SERVER_STREAMING => use_stream (server_async_writer_ x) ServerAsyncWriter
  end.

(** ** [Rpc]: the send queue *)

Definition EnqueueMessage (this : RpcPtr) (item : SendItem) : M World unit :=
  store this (set_send_queue (λ q, q ++ [item])) ;;
  modify (upd_enqueued (λ l, l ++ [(this, item)])).

(** [event_queue_->Push(UniqueEventPtr(new InternalRpcEvent(WRITE_NEEDED, weak)))]. *)
Definition push_write_needed (this weak : RpcPtr) : M World unit :=
  x ← deref this;
  push_event (event_queue_ x) (mkUniqueEventPtr (InternalRpcEvent WRITE_NEEDED weak) DELETE).

Definition Rpc_Write (this : RpcPtr) (message : Message) : M World unit :=
  EnqueueMessage this (mkSendItem (Some message) Status_OK) ;;
  weak ← ActiveRpcs_GetWeakPtr this;
  push_write_needed this weak.

Definition Rpc_Finish (this : RpcPtr) (s : Status) : M World unit :=
  EnqueueMessage this (mkSendItem None s) ;;
  weak ← ActiveRpcs_GetWeakPtr this;
  push_write_needed this weak.

Definition SendUnaryFinish (this : RpcPtr) (s : Status) (m : option Message) : M World unit :=
  match m with
  | Some m => grpc_call (FinishMsg this m s)
  | None => grpc_call (FinishWithError this s)
  end.

Definition PerformFinish (this : RpcPtr) (message : option Message) (s : Status) : M World unit :=
  SetRpcEventState this FINISH true ;;
  x ← deref this;
  match rpc_type (rpc_handler_info_ x) with
  | BIDI_STREAMING =>
      check (bool_decide (message = None)) "PerformFinish" ;;
      use_stream (server_async_reader_writer_ x) ServerAsyncReaderWriter ;;
      grpc_call (FinishStream this s)
  | CLIENT_STREAMING =>
      store this (set_response (λ _, message)) ;;
      use_stream (server_async_reader_ x) ServerAsyncReader ;;
      SendUnaryFinish this s message
  | NORMAL_RPC =>
      store this (set_response (λ _, message)) ;;
      use_stream (server_async_response_writer_ x) ServerAsyncResponseWriter ;;
      SendUnaryFinish this s message
  | SERVER_STREAMING =>
      check (bool_decide (message = None)) "PerformFinish" ;;
      use_stream (server_async_writer_ x) ServerAsyncWriter ;;
      grpc_call (FinishStream this s)
  end.

(** The [status] argument is unused in the source. *)
Definition PerformWrite (this : RpcPtr) (message : option Message) (s : Status) : M World unit :=
  x ← deref this;
  match message with
  | None => fail (CheckFailed "PerformWrite must be called with a non-null message")
  | Some m =>
      check (bool_decide (rpc_type (rpc_handler_info_ x) ≠ NORMAL_RPC)) "PerformWrite" ;;
      check (bool_decide (rpc_type (rpc_handler_info_ x) ≠ CLIENT_STREAMING)) "PerformWrite" ;;
      SetRpcEventState this WRITE true ;;
      store this (set_response (λ _, Some m)) ;;
      async_writer_interface this ;;
      grpc_call (WriteMsg this m)
  end.

Definition HandleSendQueue (this : RpcPtr) : M World unit :=
  x ← deref this;
  write_pending ← IsRpcEventPending this WRITE;
  finish_pending ← IsRpcEventPending this FINISH;
  match send_queue_ x with
  | [] => mret tt
  | send_item :: rest =>
      if (write_pending || finish_pending) then mret tt
      else
        store this (set_send_queue (λ _, rest)) ;;
        if bool_decide (msg send_item = None) ||
           bool_decide (rpc_type (rpc_handler_info_ x) = NORMAL_RPC) ||
           bool_decide (rpc_type (rpc_handler_info_ x) = CLIENT_STREAMING)
        then PerformFinish this (msg send_item) (status send_item)
        else PerformWrite this (msg send_item) (status send_item)
  end.

(** ** Handlers and their calls back into the [Rpc] *)

Definition RpcHandler_Send (this : RpcPtr) (response : Message) : M World unit :=
  Rpc_Write this response.

Definition log_span (this : RpcPtr) (c : SpanCall) : M World unit :=
  modify (upd_spans (λ l, l ++ [(this, c)])).

Definition RpcHandler_Finish (this : RpcPtr) (s : Status) : M World unit :=
  Rpc_Finish this s ;;
  log_span this (SpanSetStatus s).

Definition RpcHandler_GetWriter (this : RpcPtr) : M World unit :=
  weak ← ActiveRpcs_GetWeakPtr this;
  modify (upd_weak_refs (λ s, {[weak]} ∪ s)).

Definition run_action (this : RpcPtr) (a : HandlerAction) : M World unit :=
  match a with
  | ASend m => RpcHandler_Send this m
  | AFinish s => RpcHandler_Finish this s
  | AGetWriter => RpcHandler_GetWriter this
  end.

Definition log_callback (this : RpcPtr) (c : Callback) : M World unit :=
  modify (upd_callbacks (λ l, l ++ [(this, c)])).

(** One virtual call of a handler method through [handler_]. *)
Definition call_handler (this : RpcPtr) (c : Callback) (body : RpcHandlerClass → HandlerBody) :
    M World unit :=
  x ← deref this;
  match handler_ x with
  | None => fail NullPointer
  | Some h =>
      log_callback this c ;;
      w ← get;
      let '(h', c', actions) := body (rpc_handler_class (rpc_handler_info_ x)) h (context_ w) in
      store this (set_handler (λ _, Some h')) ;;
      modify (upd_context (λ _, c')) ;;
      for_each actions (run_action this)
  end.

(** The factory that [Server::Builder::RegisterHandler] stores: construct
    (which starts the span), [SetRpc], [SetExecutionContext], [Initialize]. *)
Definition rpc_handler_factory (this : RpcPtr) : M World HandlerState :=
  x ← deref this;
  log_span this (SpanStart (fully_qualified_name (rpc_handler_info_ x))) ;;
  log_callback this CbInitialize ;;
  w ← get;
  let '(h, c', actions) :=
    handler_Initialize (rpc_handler_class (rpc_handler_info_ x)) (context_ w) in
  modify (upd_context (λ _, c')) ;;
  for_each actions (run_action this) ;;
  mret h.

Definition OnRequest (this : RpcPtr) : M World unit :=
  x ← deref this;
  match request_ x with
  | None => fail NullPointer
  | Some m => call_handler this (CbOnRequest m) (λ c, handler_OnRequest c m)
  end.

Definition OnReadsDone (this : RpcPtr) : M World unit :=
  call_handler this CbOnReadsDone handler_OnReadsDone.

Definition OnFinish (this : RpcPtr) : M World unit :=
  call_handler this CbOnFinish handler_OnFinish.

(** ** [Rpc]: connection set-up and reads *)

Definition RequestNextMethodInvocation (this : RpcPtr) : M World unit :=
  SetRpcEventState this DONE true ;;
  GetRpcEvent this DONE ;;
  grpc_call (AsyncNotifyWhenDone this) ;;
  SetRpcEventState this NEW_CONNECTION true ;;
  x ← deref this;
  streaming_interface this ;;
  GetRpcEvent this NEW_CONNECTION ;;
  grpc_call (RequestAsync (rpc_type (rpc_handler_info_ x)) this (method_index_ x)
    (server_completion_queue_ x)).

Definition RequestStreamingReadIfNeeded (this : RpcPtr) : M World unit :=
  x ← deref this;
  match rpc_type (rpc_handler_info_ x) with
  | BIDI_STREAMING | CLIENT_STREAMING =>
      SetRpcEventState this READ true ;;
      async_reader_interface this ;;
      GetRpcEvent this READ ;;
      grpc_call (Read this)
  | NORMAL_RPC | SERVER_STREAMING =>
      OnRequest this ;;
      OnReadsDone this
  end.

Definition OnConnection (this : RpcPtr) : M World unit :=
  x ← deref this;
  (match handler_ x with
   | Some _ => mret tt
   | None =>
       h ← rpc_handler_factory this;
       store this (set_handler (λ _, Some h))
   end) ;;
  RequestStreamingReadIfNeeded this.

End rpc.
