(* ===== verification/TypeTraits.v ===== *)
(** * Type traits of handlers and service methods

    src/async_grpc/type_traits.h and rpc_service_method_traits.h compute, from
    the C++ types a service method is declared with, the message types and
    the streaming type, and reject at compile time what is not a service
    method.  The C++ types involved are a small syntax; class templates with
    partial specialisations are resolved by the rules of the language
    ([instantiate]); classes have named members, which the detection macros
    look up.  A failed static assertion is a value. *)

From stdpp Require Import base option list strings gmap.
From S2P Require Import Prelude Interfaces.

Set Default Proof Using "Type".

Section traits.
Context `{Application}.

(** A message type (given by its descriptor), [Stream<T>], or a type that is
    neither. *)
Inductive CppType :=
  | MessageType (d : Descriptor)
  | Stream (t : CppType)
  | OtherType.

(** ** Class templates *)

(** The arguments of a partial specialisation: a template parameter, or
    [Stream<...>]. *)
Inductive Pattern :=
  | PParam
  | PStream (p : Pattern).

Fixpoint matches (p : Pattern) (t : CppType) : bool :=
  match p, t with
  | PParam, _ => true
  | PStream p', Stream t' => matches p' t'
  | PStream _, _ => false
  end.

(** Every type that matches [p] matches [q]. *)
Fixpoint at_least_as_specialized (p q : Pattern) : bool :=
  match q, p with
  | PParam, _ => true
  | PStream q', PStream p' => at_least_as_specialized p' q'
  | PStream _, PParam => false
  end.

Record Specialization (V : Type) := mkSpecialization {
  sp_patterns : list Pattern;
  sp_value : list CppType → V
}.
Arguments mkSpecialization {V} sp_patterns sp_value.
Arguments sp_patterns {V} s.
Arguments sp_value {V} s.

Inductive Instantiation (V : Type) :=
  | Instance_ (v : V)
  | Ambiguous.
Arguments Instance_ {V} v.
Arguments Ambiguous {V}.

Fixpoint all2 {A B} (f : A → B → bool) (l : list A) (k : list B) : bool :=
  match l, k with
  | [], [] => true
  | a :: l', b :: k' => f a b && all2 f l' k'
  | _, _ => false
  end.

(** Among the specialisations that match, the one that is at least as
    specialised as all of them; the primary template when none matches. *)
Definition instantiate {V} (primary : list CppType → V) (specs : list (Specialization V))
    (args : list CppType) : Instantiation V :=
  match List.filter (λ s, all2 matches (sp_patterns s) args) specs with
  | [] => Instance_ (primary args)
  | matching =>
      match List.filter (λ s, forallb (λ s',
              all2 at_least_as_specialized (sp_patterns s) (sp_patterns s')) matching) matching with
      | [s] => Instance_ (sp_value s args)
      | _ => Ambiguous
      end
  end.

(** [Strip<Stream, T>]: the specialisation binds [Param]. *)
Definition param_of (t : CppType) : CppType := match t with Stream param => param | t => t end.

Definition Strip_Stream (t : CppType) : Instantiation CppType :=
  instantiate (λ args, default OtherType (head args))
    [mkSpecialization [PStream PParam] (λ args, param_of (default OtherType (head args)))] [t].

Definition RpcType_template (incoming outgoing : CppType) : Instantiation RpcType :=
  instantiate (λ _, NORMAL_RPC)
    [mkSpecialization [PStream PParam; PParam] (λ _, CLIENT_STREAMING);
     mkSpecialization [PParam; PStream PParam] (λ _, SERVER_STREAMING);
     mkSpecialization [PStream PParam; PStream PParam] (λ _, BIDI_STREAMING)]
    [incoming; outgoing].

(** What they compute. *)
Definition StripStream (t : CppType) : CppType :=
  match t with
  | Stream param => param
  | t => t
  end.

Definition RpcType_ (incoming outgoing : CppType) : RpcType :=
  match incoming, outgoing with
  | Stream _, Stream _ => BIDI_STREAMING
  | Stream _, _ => CLIENT_STREAMING
  | _, Stream _ => SERVER_STREAMING
  | _, _ => NORMAL_RPC
  end.

(** The templates of type_traits.h resolve, for every argument types, to one
    specialisation: no use of them is ambiguous, [StripStream] removes one
    [Stream], and [RpcType] names the sides that are streams.  (Without the
    third specialisation the pair of two streams would be ambiguous.) *)
Theorem templates_resolve (incoming outgoing : CppType) :
  Strip_Stream incoming = Instance_ (StripStream incoming) ∧
  RpcType_template incoming outgoing = Instance_ (RpcType_ incoming outgoing).
Proof. split; [by destruct incoming|by destruct incoming, outgoing]. Qed.

(** ** Members of a class *)

(** Function types of static member functions: [const char* (void)], or any
    other. *)
Inductive FunctionType :=
  | ConstCharPtr_void
  | OtherFunctionType.

#[global] Instance FunctionType_eq_dec : EqDecision FunctionType.
Proof. solve_decision. Defined.

Inductive Member :=
  | MemberType (t : CppType)
  | StaticFunction (type : FunctionType) (returns : string).

(** A class: its members by name. *)
Definition CppClass : Type := gmap string Member.

(** [DEFINE_HAS_SIGNATURE]: the first overload of [check] is viable
    when [&T::name] has exactly that type; otherwise the variadic one is
    chosen. *)
Definition has_signature (name : string) (signature : FunctionType) (c : CppClass) : bool :=
  match c !! name with
  | Some (StaticFunction type _) => bool_decide (type = signature)
  | _ => false
  end.

(** [DEFINE_HAS_MEMBER_TYPE]: the name is looked up in [Derived], which
    inherits it from [Fallback] and, if there, from [T]. *)
Inductive NameLookup := Found | AmbiguousName.

Definition lookup_in_Derived (name : string) (c : CppClass) : NameLookup :=
  match c !! name with Some (MemberType _) => AmbiguousName | _ => Found end.

(** Sizes of the results of the two overloads of [check]: the first one is
    viable only if the lookup finds one type, and is then chosen. *)
Definition sizeof_check (l : NameLookup) : nat :=
  match l with Found => 2 | AmbiguousName => 1 end.

Definition has_member_type (name : string) (c : CppClass) : bool :=
  bool_decide (sizeof_check (lookup_in_Derived name c) = 1).

Definition has_service_method_name : CppClass → bool :=
  has_signature "MethodName" ConstCharPtr_void.
Definition has_incoming_type : CppClass → bool := has_member_type "IncomingType".
Definition has_outgoing_type : CppClass → bool := has_member_type "OutgoingType".

(** [DEFINE_HANDLER_SIGNATURE]. *)
Definition handler_signature (incomingType outgoingType : CppType) (methodName : string) : CppClass :=
  <["IncomingType"%string := MemberType incomingType]>
    (<["OutgoingType"%string := MemberType outgoingType]>
      {["MethodName"%string := StaticFunction ConstCharPtr_void methodName]}).

(** ** [RpcServiceMethodTraits] *)

(** The static assertions. *)
Inductive StaticAssert :=
  | NoMethodName
  | NoIncomingType
  | NoOutgoingType
  | RequestNotMessage
  | ResponseNotMessage.

Record RpcServiceMethodTraits := mkTraits {
  MethodName : string;
  RequestType : Descriptor;
  ResponseType : Descriptor;
  StreamType : RpcType
}.

(** [std::is_base_of<Message, T>], and the descriptor of such a type. *)
Definition message_descriptor (t : CppType) : option Descriptor :=
  match t with MessageType d => Some d | _ => None end.

Definition member_type (name : string) (c : CppClass) : option CppType :=
  match c !! name with Some (MemberType t) => Some t | _ => None end.

Definition call_static (name : string) (c : CppClass) : string :=
  match c !! name with Some (StaticFunction _ s) => s | _ => EmptyString end.

(** The traits of a service method concept, or the first assertion that
    fails. *)
Definition traits_of (c : CppClass) : StaticAssert + RpcServiceMethodTraits :=
  if negb (has_service_method_name c) then inl NoMethodName
  else if negb (has_incoming_type c) then inl NoIncomingType
  else if negb (has_outgoing_type c) then inl NoOutgoingType
  else
    match member_type "IncomingType" c, member_type "OutgoingType" c with
    | None, _ => inl NoIncomingType
    | _, None => inl NoOutgoingType
    | Some incoming, Some outgoing =>
        match message_descriptor (StripStream incoming), message_descriptor (StripStream outgoing) with
        | None, _ => inl RequestNotMessage
        | _, None => inl ResponseNotMessage
        | Some request, Some response =>
            inr (mkTraits (call_static "MethodName" c) request response
                   (RpcType_ incoming outgoing))
        end
    end.

(** Which side of an RPC of each type is a stream. *)
Definition client_streams (t : RpcType) : bool :=
  match t with CLIENT_STREAMING | BIDI_STREAMING => true | _ => false end.

Definition server_streams (t : RpcType) : bool :=
  match t with SERVER_STREAMING | BIDI_STREAMING => true | _ => false end.

(** [T] or [Stream<T>]. *)
Definition stream_if (b : bool) (d : Descriptor) : CppType :=
  if b then Stream (MessageType d) else MessageType d.

(** The service method concept a class must satisfy to have the traits [tr]. *)
Record satisfies_concept (c : CppClass) (tr : RpcServiceMethodTraits) : Prop := {
  sc_name : c !! "MethodName"%string = Some (StaticFunction ConstCharPtr_void (MethodName tr));
  sc_incoming : c !! "IncomingType"%string =
    Some (MemberType (stream_if (client_streams (StreamType tr)) (RequestType tr)));
  sc_outgoing : c !! "OutgoingType"%string =
    Some (MemberType (stream_if (server_streams (StreamType tr)) (ResponseType tr)))
}.

Lemma stripped_message t d :
  message_descriptor (StripStream t) = Some d → t = MessageType d ∨ t = Stream (MessageType d).
Proof. destruct t as [?|[?|?|]|]; simpl; intros [= <-]; auto. Qed.

(** What the assertion that failed says is missing: no function of that type;
    no such member type; a type that is not a message under at most one
    [Stream]. *)
Definition violates (c : CppClass) (e : StaticAssert) : Prop :=
  match e with
  | NoMethodName => ∀ s, c !! "MethodName"%string ≠ Some (StaticFunction ConstCharPtr_void s)
  | NoIncomingType => ∀ t, c !! "IncomingType"%string ≠ Some (MemberType t)
  | NoOutgoingType => ∀ t, c !! "OutgoingType"%string ≠ Some (MemberType t)
  | RequestNotMessage => ∃ t, c !! "IncomingType"%string = Some (MemberType t) ∧
      ∀ b d, t ≠ stream_if b d
  | ResponseNotMessage => ∃ t, c !! "OutgoingType"%string = Some (MemberType t) ∧
      ∀ b d, t ≠ stream_if b d
  end.

Lemma not_message t : message_descriptor (StripStream t) = None → ∀ b d, t ≠ stream_if b d.
Proof. by intros Hm [] d ->. Qed.

Lemma traits_sound c : match traits_of c with inr tr => satisfies_concept c tr | inl e => violates c e end.
Proof.
  unfold traits_of, has_service_method_name, has_signature.
  destruct (c !! "MethodName"%string) as [[?|[] s]|] eqn:En; simpl; rewrite ?En; try done.
  unfold has_incoming_type, has_outgoing_type, has_member_type, lookup_in_Derived, member_type.
  destruct (c !! "IncomingType"%string) as [[i|]|] eqn:Ei; simpl; rewrite ?Ei; try done.
  destruct (c !! "OutgoingType"%string) as [[o|]|] eqn:Eo; simpl; rewrite ?Eo; try done.
  destruct (message_descriptor (StripStream i)) as [di|] eqn:Hi;
    [|exists i; split; [done|by apply not_message]].
  destruct (message_descriptor (StripStream o)) as [dr|] eqn:Ho;
    [|exists o; split; [done|by apply not_message]].
  unfold call_static. rewrite En.
  apply stripped_message in Hi as [-> | ->], Ho as [-> | ->]; by split.
Qed.

(** C32: the traits of a class.  A class has the traits [tr] exactly when it
    has a static function [const char* MethodName()] that returns the name,
    and types [IncomingType] and [OutgoingType] that are the message types
    with [Stream] around the sides that stream; any other class is rejected
    by an assertion that names a requirement it violates. *)
Theorem traits_exact (c : CppClass) :
  (∀ tr, traits_of c = inr tr ↔ satisfies_concept c tr) ∧
  (∀ e, traits_of c = inl e → violates c e).
Proof.
  pose proof (traits_sound c) as Hc. split; [|intros e He; by rewrite He in Hc].
  intros [name req res ty]. split; [intros Htr; by rewrite Htr in Hc|]. intros [Hn Hi Ho].
  clear Hc. simpl in *.
  unfold traits_of, has_service_method_name, has_signature, has_incoming_type, has_outgoing_type,
    has_member_type, lookup_in_Derived, member_type, call_static.
  rewrite Hn, Hi, Ho. simpl. by destruct ty.
Qed.

(** [DEFINE_HANDLER_SIGNATURE] on message types, wrapped or not, makes a class
    that satisfies the concept. *)
Lemma handler_signature_concept name req res t :
  satisfies_concept
    (handler_signature (stream_if (client_streams t) req) (stream_if (server_streams t) res) name)
    (mkTraits name req res t).
Proof. by split. Qed.

End traits.
