(* ===== verification/Server.v ===== *)
(** * [Server::Builder]

    The builder of src/async_grpc/server.h and server.cc: its options, method
    names, and the registration of handlers. *)

From Stdlib Require Import ZArith Lia Ascii SpecFloat.
From stdpp Require Import base option list strings gmap.
From S2P Require Import Prelude Interfaces BlockingQueue Time Rpc TypeTraits.

Set Default Proof Using "Type".

(** ** Method names *)

(** [std::getline(stream, line, delim)] on the rest of the stream: the line
    and what remains after the delimiter.  At the end of the stream the line
    stays empty. *)
Fixpoint getline (delim : ascii) (stream : string) : string * string :=
  match stream with
  | EmptyString => (EmptyString, EmptyString)
  | String c rest =>
      if decide (c = delim) then (EmptyString, rest)
      else let '(line, rest') := getline delim rest in (String c line, rest')
  end.

Definition slash : ascii := "/"%char.

(** [at(0)] throws on the empty string. *)
Definition ParseMethodFullName (method_full_name : string) : failure + (string * string) :=
  match method_full_name with
  | EmptyString => inl OutOfRange
  | String c rest =>
      if decide (c = slash) then
        let '(service_full_name, stream) := getline slash rest in
        let '(method_name, _) := getline slash stream in
        if decide (service_full_name ≠ EmptyString ∧ method_name ≠ EmptyString)
        then inr (service_full_name, method_name)
        else inl (CheckFailed "ParseMethodFullName")
      else inl (CheckFailed "Invalid method name.")
  end.

(** No slash in a string. *)
Fixpoint no_slash (s : string) : bool :=
  match s with
  | EmptyString => true
  | String c s' => negb (bool_decide (c = slash)) && no_slash s'
  end.

Definition starts_with_slash (s : string) : bool :=
  match s with EmptyString => true | String c _ => bool_decide (c = slash) end.

(** What [getline] consumed: the line has no delimiter, and it was followed
    by one or by the end of the stream. *)
Lemma getline_spec s line rest :
  getline slash s = (line, rest) ↔
  no_slash line = true ∧
  (s = (line +:+ String slash rest)%string ∨ s = line ∧ rest = EmptyString).
Proof.
  revert line rest. induction s as [|c s IH]; intros line rest; simpl.
  - split; [intros [= <- <-]; auto|]. intros [Hl [He|[<- ->]]]; [|done]. by destruct line.
  - destruct (decide (c = slash)) as [->|Hc].
    + split; [intros [= <- <-]; auto|]. intros [Hl [He|[<- ->]]].
      * destruct line as [|c' line]; [by injection He as ->|]. simpl in *. by injection He as <- _.
      * by simpl in Hl.
    + destruct (getline slash s) as [l r] eqn:E. destruct (proj1 (IH l r) eq_refl) as [Hnl Hor].
      split.
      * intros [= <- <-]. simpl. rewrite bool_decide_eq_false_2 by done. split; [done|].
        destruct Hor as [->|[-> ->]]; auto.
      * intros [Hl He]. destruct line as [|c' line]; simpl in *.
        { destruct He as [He|[He _]]; [by injection He as ->|done]. }
        assert (c' = c ∧ (s = (line +:+ String slash rest)%string ∨ s = line ∧ rest = EmptyString))
          as [-> Hs] by (destruct He as [He|[He ->]]; injection He as -> ->; auto).
        rewrite bool_decide_eq_false_2 in Hl by done. simpl in Hl.
        assert ((l, r) = (line, rest)) as [= -> ->] by (by apply IH). done.
Qed.

(** C31: method names.  A name is accepted exactly when it has the form
    /service/method, both parts not empty and without slashes, possibly
    followed by a slash and more, which is ignored; the parts are returned. *)
Theorem ParseMethodFullName_exact name service method :
  ParseMethodFullName name = inr (service, method) ↔
  service ≠ EmptyString ∧ method ≠ EmptyString ∧ no_slash service = true ∧
  no_slash method = true ∧
  ∃ more, starts_with_slash more = true ∧
    name = (String slash (service +:+ String slash (method +:+ more)))%string.
Proof.
  unfold ParseMethodFullName. destruct name as [|c rest].
  { split; [done|]. by intros (_ & _ & _ & _ & more & _ & ?). }
  destruct (decide (c = slash)) as [->|Hc];
    [|split; [done|]; intros (_ & _ & _ & _ & more & _ & [= ? _]); congruence].
  destruct (getline slash rest) as [s stream] eqn:E1.
  destruct (getline slash stream) as [m more'] eqn:E2.
  apply getline_spec in E1 as [Hs Es]. apply getline_spec in E2 as [Hm Em]. split.
  - case_decide as Hne; [|done]. intros [= <- <-]. split_and!; [apply Hne|apply Hne|done|done|].
    assert (rest = (s +:+ String slash stream)%string) as ->.
    { destruct Es as [?|[-> ->]]; [done|]. exfalso. apply Hne. destruct Em as [Em|[-> _]]; [|done].
      by destruct m. }
    destruct Em as [->|[-> ->]].
    + by exists (String slash more').
    + exists EmptyString. split; [done|]. by rewrite string_append_empty_r.
  - intros (Hs0 & Hm0 & Hns & Hnm & more & Hmore & [= Er]).
    assert (getline slash rest = (service, method +:+ more)%string) as G1.
    { apply getline_spec. auto. }
    assert (s = service ∧ stream = (method +:+ more)%string) as [-> ->].
    { assert (getline slash rest = (s, stream)) as G by (apply getline_spec; auto).
      rewrite G1 in G. by injection G. }
    assert (m = method) as ->.
    { assert (∃ r, getline slash (method +:+ more) = (method, r)) as [r G2].
      { destruct more as [|c' more]; simpl in Hmore.
        - exists EmptyString. apply getline_spec. rewrite string_append_empty_r. auto.
        - apply bool_decide_eq_true in Hmore as ->. exists more. apply getline_spec. auto. }
      assert (getline slash (method +:+ more) = (m, more')) as G by (apply getline_spec; auto).
      rewrite G2 in G. by injection G. }
    by rewrite decide_True.
Qed.

(** ** The builder *)

(** [Options]; [Options() = default] leaves the two thread counts
    indeterminate, which [None] stands for. *)
Definition kDefaultMaxMessageSize : Z := 10 * 1024 * 1024.

(** The literal [0.01]: the double nearest to 1/100. *)
Definition kDefaultTracingSamplerProbability : spec_float :=
  double_div (double_of_Z 1) (double_of_Z 100).

Record Options := mkOptions {
  num_grpc_threads : option Z;
  num_event_threads : option Z;
  server_address : string;
  max_receive_message_size : Z;
  max_send_message_size : Z;
  enable_tracing : bool;
  tracing_sampler_probability : spec_float;
  tracing_task_name : string;
  tracing_gcp_project_id : string
}.

Definition Options_default : Options :=
  mkOptions None None EmptyString kDefaultMaxMessageSize kDefaultMaxMessageSize false
    kDefaultTracingSamplerProbability EmptyString EmptyString.

Definition Options_new (num_grpc_threads num_event_threads : Z) (server_address : string) : Options :=
  mkOptions (Some num_grpc_threads) (Some num_event_threads) server_address kDefaultMaxMessageSize
    kDefaultMaxMessageSize false kDefaultTracingSamplerProbability EmptyString EmptyString.

(** The descriptors compiled into the program
    ([DescriptorPool::generated_pool()]). *)
Class DescriptorPool `{Application} := {
  ServiceDescriptor : Type;
  MethodDescriptor : Type;
  FindServiceByName : string → option ServiceDescriptor;
  FindMethodByName : ServiceDescriptor → string → option MethodDescriptor;
  input_type : MethodDescriptor → Descriptor;
  output_type : MethodDescriptor → Descriptor;
  client_streaming : MethodDescriptor → bool;
  server_streaming : MethodDescriptor → bool
}.

Section builder.
Context `{GrpcStatus, Application, !EqDecision Descriptor, !DescriptorPool, !BuildConfig}.

(** What [RegisterHandler] gets as its template argument. *)
Record RpcHandlerType := mkRpcHandlerType {
  RpcServiceMethod : RpcServiceMethodTraits;
  handler_class : RpcHandlerClass
}.

Abbreviation ServiceInfo := (gmap string RpcHandlerInfo).

Record Builder := mkBuilder {
  options_ : Options;
  rpc_handlers_ : gmap string ServiceInfo
}.

Definition Builder_new : Builder := mkBuilder Options_default ∅.

Definition set_options (f : Options → Options) (b : Builder) : Builder :=
  mkBuilder (f (options_ b)) (rpc_handlers_ b).

Definition SetNumGrpcThreads (n : Z) : M Builder unit :=
  modify (set_options (λ o, mkOptions (Some n) (num_event_threads o) (server_address o)
    (max_receive_message_size o) (max_send_message_size o) (enable_tracing o)
    (tracing_sampler_probability o) (tracing_task_name o) (tracing_gcp_project_id o))).

Definition SetNumEventThreads (n : Z) : M Builder unit :=
  modify (set_options (λ o, mkOptions (num_grpc_threads o) (Some n) (server_address o)
    (max_receive_message_size o) (max_send_message_size o) (enable_tracing o)
    (tracing_sampler_probability o) (tracing_task_name o) (tracing_gcp_project_id o))).

Definition SetServerAddress (a : string) : M Builder unit :=
  modify (set_options (λ o, mkOptions (num_grpc_threads o) (num_event_threads o) a
    (max_receive_message_size o) (max_send_message_size o) (enable_tracing o)
    (tracing_sampler_probability o) (tracing_task_name o) (tracing_gcp_project_id o))).

Definition SetMaxReceiveMessageSize (n : Z) : M Builder unit :=
  check (0 <? n)%Z "max_receive_message_size must be larger than 0." ;;
  modify (set_options (λ o, mkOptions (num_grpc_threads o) (num_event_threads o) (server_address o)
    n (max_send_message_size o) (enable_tracing o)
    (tracing_sampler_probability o) (tracing_task_name o) (tracing_gcp_project_id o))).

Definition SetMaxSendMessageSize (n : Z) : M Builder unit :=
  check (0 <? n)%Z "max_send_message_size must be larger than 0." ;;
  modify (set_options (λ o, mkOptions (num_grpc_threads o) (num_event_threads o) (server_address o)
    (max_receive_message_size o) n (enable_tracing o)
    (tracing_sampler_probability o) (tracing_task_name o) (tracing_gcp_project_id o))).

Definition EnableTracing : M Builder unit :=
  if BUILD_TRACING then
    modify (set_options (λ o, mkOptions (num_grpc_threads o) (num_event_threads o) (server_address o)
      (max_receive_message_size o) (max_send_message_size o) true
      (tracing_sampler_probability o) (tracing_task_name o) (tracing_gcp_project_id o)))
  else fail (LogFatal "Enable tracing support by compiling with -DBUILD_TRACING=1.").

Definition DisableTracing : M Builder unit :=
  modify (set_options (λ o, mkOptions (num_grpc_threads o) (num_event_threads o) (server_address o)
    (max_receive_message_size o) (max_send_message_size o) false
    (tracing_sampler_probability o) (tracing_task_name o) (tracing_gcp_project_id o))).

Definition SetTracingSamplerProbability (p : spec_float) : M Builder unit :=
  modify (set_options (λ o, mkOptions (num_grpc_threads o) (num_event_threads o) (server_address o)
    (max_receive_message_size o) (max_send_message_size o) (enable_tracing o)
    p (tracing_task_name o) (tracing_gcp_project_id o))).

Definition SetTracingTaskName (t : string) : M Builder unit :=
  modify (set_options (λ o, mkOptions (num_grpc_threads o) (num_event_threads o) (server_address o)
    (max_receive_message_size o) (max_send_message_size o) (enable_tracing o)
    (tracing_sampler_probability o) t (tracing_gcp_project_id o))).

Definition SetTracingGcpProjectId (g : string) : M Builder unit :=
  modify (set_options (λ o, mkOptions (num_grpc_threads o) (num_event_threads o) (server_address o)
    (max_receive_message_size o) (max_send_message_size o) (enable_tracing o)
    (tracing_sampler_probability o) (tracing_task_name o) g)).

Definition CheckHandlerCompatibility (h : RpcHandlerType) (service_full_name method_name : string) :
    M Builder unit :=
  match FindServiceByName service_full_name with
  | None => fail (CheckFailed "Unknown service")
  | Some service =>
      match FindMethodByName service method_name with
      | None => fail (CheckFailed "Unknown method")
      | Some d =>
          let m := RpcServiceMethod h in
          check (bool_decide (RequestType m = input_type d)) "request_type" ;;
          check (bool_decide (ResponseType m = output_type d)) "response_type" ;;
          match StreamType m with
          | NORMAL_RPC =>
              check (negb (client_streaming d)) "client_streaming" ;;
              check (negb (server_streaming d)) "server_streaming"
          | CLIENT_STREAMING =>
              check (client_streaming d) "client_streaming" ;;
              check (negb (server_streaming d)) "server_streaming"
          | SERVER_STREAMING =>
              check (negb (client_streaming d)) "client_streaming" ;;
              check (server_streaming d) "server_streaming"
          | BIDI_STREAMING =>
              check (client_streaming d) "client_streaming" ;;
              check (server_streaming d) "server_streaming"
          end
      end
  end.

(** [std::map::emplace]: an existing entry stays. *)
Definition map_emplace {A} (k : string) (v : A) (m : gmap string A) : gmap string A :=
  match m !! k with Some _ => m | None => <[k := v]> m end.

Definition RegisterHandler (h : RpcHandlerType) : M Builder unit :=
  let m := RpcServiceMethod h in
  match ParseMethodFullName (MethodName m) with
  | inl f => fail f
  | inr (service_full_name, method_name) =>
      CheckHandlerCompatibility h service_full_name method_name ;;
      modify (λ b,
        let service := default ∅ (rpc_handlers_ b !! service_full_name) in
        let info := mkRpcHandlerInfo (RequestType m) (ResponseType m) (handler_class h)
          (StreamType m) (MethodName m) in
        mkBuilder (options_ b)
          (<[service_full_name := map_emplace method_name info service]> (rpc_handlers_ b)))
  end.

(** Any call on a builder other than [Build]. *)
Inductive BuilderCall :=
  | CSetNumGrpcThreads (n : Z)
  | CSetNumEventThreads (n : Z)
  | CSetServerAddress (a : string)
  | CSetMaxReceiveMessageSize (n : Z)
  | CSetMaxSendMessageSize (n : Z)
  | CEnableTracing
  | CDisableTracing
  | CSetTracingSamplerProbability (p : spec_float)
  | CSetTracingTaskName (t : string)
  | CSetTracingGcpProjectId (g : string)
  | CRegisterHandler (h : RpcHandlerType).

Definition builder_call (c : BuilderCall) : M Builder unit :=
  match c with
  | CSetNumGrpcThreads n => SetNumGrpcThreads n
  | CSetNumEventThreads n => SetNumEventThreads n
  | CSetServerAddress a => SetServerAddress a
  | CSetMaxReceiveMessageSize n => SetMaxReceiveMessageSize n
  | CSetMaxSendMessageSize n => SetMaxSendMessageSize n
  | CEnableTracing => EnableTracing
  | CDisableTracing => DisableTracing
  | CSetTracingSamplerProbability p => SetTracingSamplerProbability p
  | CSetTracingTaskName t => SetTracingTaskName t
  | CSetTracingGcpProjectId g => SetTracingGcpProjectId g
  | CRegisterHandler h => RegisterHandler h
  end.

(** *** What a registered handler satisfies *)

(** The method exists in the descriptor pool with these message types, and it
    streams on the sides the handler's type says. *)
Definition compatible (service method : string) (info : RpcHandlerInfo) : Prop :=
  ParseMethodFullName (fully_qualified_name info) = inr (service, method) ∧
  ∃ s d, FindServiceByName service = Some s ∧ FindMethodByName s method = Some d ∧
    request_descriptor info = input_type d ∧ response_descriptor info = output_type d ∧
    client_streams (rpc_type info) = client_streaming d ∧
    server_streams (rpc_type info) = server_streaming d.

Record builder_wf (b : Builder) : Prop := {
  b_receive : (0 < max_receive_message_size (options_ b))%Z;
  b_send : (0 < max_send_message_size (options_ b))%Z;
  b_tracing : enable_tracing (options_ b) = true → BUILD_TRACING = true;
  b_handlers : ∀ service infos method info,
    rpc_handlers_ b !! service = Some infos → infos !! method = Some info →
    compatible service method info
}.

Definition keeps_builder (b b' : Builder) : Prop := builder_wf b → builder_wf b'.

#[global] Instance keeps_builder_preorder : PreOrder keeps_builder.
Proof. split; [intros b Hb; exact Hb|]. unfold keeps_builder. intros b1 b2 b3. auto. Qed.

Lemma wlp_CheckHandlerCompatibility h service method b :
  ParseMethodFullName (MethodName (RpcServiceMethod h)) = inr (service, method) →
  wlp (CheckHandlerCompatibility h service method) (λ _ b', b' = b ∧
    compatible service method (mkRpcHandlerInfo (RequestType (RpcServiceMethod h))
      (ResponseType (RpcServiceMethod h)) (handler_class h) (StreamType (RpcServiceMethod h))
      (MethodName (RpcServiceMethod h)))) b.
Proof.
  intros Hp. unfold CheckHandlerCompatibility.
  destruct (FindServiceByName service) as [s|] eqn:Hs; [|done].
  destruct (FindMethodByName s method) as [d|] eqn:Hd; [|done].
  apply wlp_bind, wlp_check. intros Hreq%bool_decide_eq_true.
  apply wlp_bind, wlp_check. intros Hres%bool_decide_eq_true.
  destruct (StreamType _) eqn:Ht; apply wlp_bind, wlp_check; intros Hc;
    apply wlp_check; intros Hs'; rewrite ?negb_true_iff in *;
    (split; [done|]; split; [done|]); exists s, d; by rewrite Hc, Hs'.
Qed.

Lemma map_emplace_lookup {A} k (v : A) m k' v' :
  map_emplace k v m !! k' = Some v' → m !! k' = Some v' ∨ k' = k ∧ v' = v.
Proof.
  unfold map_emplace. destruct (m !! k) eqn:E; [by left|].
  intros [[-> ->]|[_ ?]]%lookup_insert_Some; auto.
Qed.

Lemma RegisterHandler_wf h : preserves keeps_builder (RegisterHandler h).
Proof.
  intros b. apply wlp_intro. intros [] b' Hx W. revert Hx. unfold RegisterHandler.
  destruct (ParseMethodFullName _) as [f|[service method]] eqn:Hp; [done|]. intros Hx.
  unfold mbind, M_bind in Hx.
  destruct (CheckHandlerCompatibility h service method b) as [[] b1|f] eqn:Hc; [|done].
  destruct (wlp_ok _ _ _ _ _ (wlp_CheckHandlerCompatibility h service method b Hp) Hc) as [-> Hok].
  injection Hx as <-. destruct W as [W1 W2 W3 W4]. split; [done|done|done|]. simpl.
  intros service' infos method' info [[<- <-]|[_ Hin]]%lookup_insert_Some Hi; [|by eapply W4].
  apply map_emplace_lookup in Hi as [Hi|[-> ->]]; [|done].
  destruct (rpc_handlers_ b !! service) as [infos|] eqn:Hs; [by eapply W4|]. simpl in Hi.
  by rewrite lookup_empty in Hi.
Qed.

Lemma builder_call_wf c : preserves keeps_builder (builder_call c).
Proof.
  destruct c; simpl; try apply RegisterHandler_wf;
    try (apply preserves_modify; intros b [W1 W2 W3 W4]; by split).
  - intros b. apply wlp_bind, wlp_check. intros Hn%Z.ltb_lt. apply wlp_modify.
    intros [W1 W2 W3 W4]. by split.
  - intros b. apply wlp_bind, wlp_check. intros Hn%Z.ltb_lt. apply wlp_modify.
    intros [W1 W2 W3 W4]. by split.
  - unfold EnableTracing. destruct BUILD_TRACING eqn:E; [|apply preserves_fail].
    apply preserves_modify. intros b [W1 W2 W3 W4]. by split.
Qed.

(** What a builder holds.  After any sequence of calls on a new builder
    that returned, the message size limits are positive, tracing is off unless
    it was compiled in, and every registered handler matches the method it is registered for: the
    method exists, has the handler's message types, and streams on exactly
    the sides the handler's streaming type says. *)
Theorem builder_invariant (cs : list BuilderCall) b :
  for_each cs builder_call Builder_new = Ok tt b → builder_wf b.
Proof.
  intros Hx. eapply (preserves_Ok keeps_builder); [|exact Hx|].
  - apply preserves_for_each; [apply _|]. apply builder_call_wf.
  - split; [done|done|done|]. intros service infos method info Hs. simpl in Hs.
    by rewrite lookup_empty in Hs.
Qed.

(** ** Tracing *)

(** Whether the last call that says so turned tracing on. *)
Definition tracing_after (cs : list BuilderCall) : bool :=
  foldl (λ on c, match c with CEnableTracing => true | CDisableTracing => false | _ => on end) false cs.

(** The last values given for the two options that [Start] uses. *)
Definition project_after (cs : list BuilderCall) : string :=
  foldl (λ g c, match c with CSetTracingGcpProjectId g' => g' | _ => g end) EmptyString cs.
Definition probability_after (cs : list BuilderCall) : spec_float :=
  foldl (λ p c, match c with CSetTracingSamplerProbability p' => p' | _ => p end)
    kDefaultTracingSamplerProbability cs.

Definition tracing_options (b : Builder) : bool * string * spec_float :=
  (enable_tracing (options_ b), tracing_gcp_project_id (options_ b),
   tracing_sampler_probability (options_ b)).

Lemma builder_call_tracing c b b' :
  builder_call c b = Ok tt b' →
  tracing_options b' =
    (match c with CEnableTracing => true | CDisableTracing => false | _ => enable_tracing (options_ b) end,
     match c with CSetTracingGcpProjectId g => g | _ => tracing_gcp_project_id (options_ b) end,
     match c with CSetTracingSamplerProbability p => p | _ => tracing_sampler_probability (options_ b) end).
Proof.
  destruct c as [n|n|a|n|n| | |p|t|g|h]; simpl; try (by intros [= <-]).
  - unfold SetMaxReceiveMessageSize, check, mbind, M_bind. destruct (_ <? _)%Z; [by intros [= <-]|done].
  - unfold SetMaxSendMessageSize, check, mbind, M_bind. destruct (_ <? _)%Z; [by intros [= <-]|done].
  - unfold EnableTracing. destruct BUILD_TRACING; [by intros [= <-]|done].
  - unfold RegisterHandler. destruct (ParseMethodFullName _) as [f|[service method]] eqn:Hp; [done|].
    unfold mbind, M_bind. destruct (CheckHandlerCompatibility h service method b) as [[] b1|f] eqn:Hc;
      [|done].
    destruct (wlp_ok _ _ _ _ _ (wlp_CheckHandlerCompatibility h service method b Hp) Hc) as [-> _].
    by intros [= <-].
Qed.

(** What a sequence of calls makes of the options of tracing. *)
Lemma builder_tracing cs b :
  for_each cs builder_call Builder_new = Ok tt b →
  tracing_options b = (tracing_after cs, project_after cs, probability_after cs).
Proof.
  assert (∀ b0, for_each cs builder_call b0 = Ok tt b → tracing_options b =
    (foldl (λ on c, match c with CEnableTracing => true | CDisableTracing => false | _ => on end)
       (enable_tracing (options_ b0)) cs,
     foldl (λ g c, match c with CSetTracingGcpProjectId g' => g' | _ => g end)
       (tracing_gcp_project_id (options_ b0)) cs,
     foldl (λ p c, match c with CSetTracingSamplerProbability p' => p' | _ => p end)
       (tracing_sampler_probability (options_ b0)) cs)) as Hgo; [|exact (Hgo Builder_new)].
  induction cs as [|c cs IH]; intros b0 Hx; simpl in *; [by injection Hx as <-|].
  unfold mbind, M_bind in Hx. destruct (builder_call c b0) as [[] b1|f] eqn:Hc; [|done].
  rewrite (IH b1 Hx). apply builder_call_tracing in Hc. unfold tracing_options in Hc.
  by injection Hc as -> -> ->.
Qed.

(** The first registration of a method wins.  Registering a handler for a
    method that already has one returns normally and changes nothing about
    it. *)
Theorem RegisterHandler_first_wins h b service method infos info :
  ParseMethodFullName (MethodName (RpcServiceMethod h)) = inr (service, method) →
  rpc_handlers_ b !! service = Some infos → infos !! method = Some info →
  is_ok (CheckHandlerCompatibility h service method b) = true →
  RegisterHandler h b = Ok tt b.
Proof.
  intros Hp Hs Hm Hok. unfold RegisterHandler, mbind, M_bind. rewrite Hp.
  destruct (CheckHandlerCompatibility h service method b) as [[] b1|f] eqn:Hc; [|done].
  destruct (wlp_ok _ _ _ _ _ (wlp_CheckHandlerCompatibility h service method b Hp) Hc) as [-> _].
  unfold modify. cbv beta zeta. rewrite Hs. simpl. unfold map_emplace. rewrite Hm.
  rewrite insert_id by done. by destruct b.
Qed.

End builder.

(** ** A concrete builder

    The service of src/async_grpc/proto/math_service.proto, with one unary
    and one bidirectional method. *)

#[local] Existing Instance example_status.
#[local] Existing Instance example_application.

#[local] Instance math_pool : DescriptorPool := {|
  ServiceDescriptor := unit;
  MethodDescriptor := bool;
  FindServiceByName := λ s, if decide (s = "async_grpc.proto.Math"%string) then Some tt else None;
  FindMethodByName := λ _ m,
    if decide (m = "GetSquare"%string) then Some false
    else if decide (m = "GetRunningSum"%string) then Some true else None;
  input_type := λ _, tt;
  output_type := λ _, tt;
  client_streaming := λ b, b;
  server_streaming := λ b, b
|}.

Definition math_handler (c : RpcHandlerClass) (name : string) (t : RpcType) : RpcHandlerType :=
  mkRpcHandlerType (mkTraits name tt tt t) c.

Definition idle_handler : RpcHandlerClass :=
  mkHandlerClass (λ c, (0%Z, c, [])) (λ m h c, (h, c, [])) (λ h c, (h, c, [])) (λ h c, (h, c, [])).

Definition math_calls : list BuilderCall :=
  [CSetServerAddress "[::1]:50051"; CSetNumGrpcThreads 2; CSetNumEventThreads 1;
   CSetMaxSendMessageSize 1024;
   CRegisterHandler (math_handler idle_handler "/async_grpc.proto.Math/GetSquare" NORMAL_RPC);
   CRegisterHandler (math_handler idle_handler "/async_grpc.proto.Math/GetRunningSum"
     BIDI_STREAMING)].

Definition math_builder : Builder :=
  match for_each math_calls builder_call Builder_new with
  | Ok _ b => b
  | Fail _ => Builder_new
  end.

Lemma builder_invariant_witness : builder_wf math_builder.
Proof. apply (builder_invariant math_calls math_builder). vm_compute. reflexivity. Defined.

Lemma RegisterHandler_first_wins_witness :
  RegisterHandler (math_handler idle_handler "/async_grpc.proto.Math/GetSquare" NORMAL_RPC)
    math_builder = Ok tt math_builder.
Proof.
  destruct (rpc_handlers_ math_builder !! "async_grpc.proto.Math"%string) as [infos|] eqn:Hs;
    [|by vm_compute in Hs].
  destruct (infos !! "GetSquare"%string) as [info|] eqn:Hm;
    [|exfalso; vm_compute in Hs; injection Hs as <-; by vm_compute in Hm].
  apply (RegisterHandler_first_wins _ math_builder "async_grpc.proto.Math" "GetSquare" infos info).
  - vm_compute. reflexivity.
  - exact Hs.
  - exact Hm.
  - vm_compute. reflexivity.
Defined.
