(* ===== verification/RoundRobin.v ===== *)
(** * Round-robin selection of event queues

    [Server::SelectNextEventQueueRoundRobin] of src/async_grpc/server.cc, the
    selector every [Service] of a server is constructed with, and the proof
    that it is what [Service] asks for. *)

From Stdlib Require Import ZArith Lia.
From stdpp Require Import base option list strings gmap.
From S2P Require Import Prelude Interfaces.

Set Default Proof Using "Type".

(** Conversion to [int] of a value of an unsigned type. *)
Definition to_int (z : Z) : Z := ((z + 2 ^ 31) mod 2 ^ 32 - 2 ^ 31)%Z.

(** [current_event_queue_id_] is an [int], [num_event_threads] a [size_t]:
    the increment is signed, the remainder unsigned, and the result is
    converted back and forth.  [event_queue_threads_] has [num_event_threads]
    elements. *)
Definition SelectNextEventQueueRoundRobin (num_event_threads : Z) : M Z nat :=
  λ current_event_queue_id_,
  match int_checked (current_event_queue_id_ + 1) with
  | None => Fail UndefinedBehaviour
  | Some next =>
      if decide (num_event_threads = 0)%Z then Fail UndefinedBehaviour
      else
        let id := to_int (to_size_t next mod num_event_threads) in
        let index := to_size_t id in
        if (index <? num_event_threads)%Z then Ok (Z.to_nat index) id else Fail OutOfRange
  end.

(** The selector as [Service] sees it: its state is the option
    [num_event_threads] and the member [current_event_queue_id_]. *)
#[export] Instance server_selector : EventQueueSelector := {|
  sel_state := Z * Z;
  sel_next := λ st,
    match SelectNextEventQueueRoundRobin st.1 st.2 with
    | Ok q id => Ok q (st.1, id)
    | Fail f => Fail f
    end
|}.

Lemma select_next n id :
  (0 < n ≤ int_max)%Z → (0 ≤ id < n)%Z →
  SelectNextEventQueueRoundRobin n id =
    Ok (Z.to_nat ((id + 1) mod n)) ((id + 1) mod n)%Z.
Proof.
  intros Hn Hid. unfold SelectNextEventQueueRoundRobin.
  assert (0 ≤ (id + 1) mod n < n)%Z as Hm by (apply Z.mod_pos_bound; lia).
  assert (int_checked (id + 1) = Some (id + 1)%Z) as ->
    by (apply int_checked_Some; unfold int_min, int_max in *; lia).
  rewrite decide_False by lia.
  assert (to_size_t (id + 1) = (id + 1)%Z) as ->
    by (apply Z.mod_small; unfold size_t_modulus, int_max in *; lia).
  assert (to_int ((id + 1) mod n) = (id + 1) mod n)%Z as ->.
  { unfold to_int, int_max in *. rewrite Z.mod_small; lia. }
  assert (to_size_t ((id + 1) mod n) = (id + 1) mod n)%Z as ->
    by (apply Z.mod_small; unfold size_t_modulus, int_max in *; lia).
  by rewrite (proj2 (Z.ltb_lt _ _)) by lia.
Qed.

(** The state of the selector of a server with [k] event queues. *)
Definition selector_in_range (k : nat) (st : Z * Z) : Prop :=
  Z.to_nat st.1 = k ∧ (0 < st.1 ≤ int_max)%Z ∧ (0 ≤ st.2 < st.1)%Z.

(** What [Service] asks of its selector. *)
#[export] Program Instance server_selector_ok (k : nat) : @SelectorOk server_selector k := {|
  sel_inv := selector_in_range k
|}.
Next Obligation.
  intros k [n id] (Hk & Hn & Hid). unfold wp. simpl in *. rewrite select_next by done.
  assert (0 ≤ (id + 1) mod n < n)%Z as Hm by (apply Z.mod_pos_bound; lia).
  split; [simpl; lia|]. done.
Qed.

(** [k] selections in a row. *)
Fixpoint select_many (n : Z) (k : nat) : M Z (list nat) :=
  match k with
  | 0 => mret []
  | S k' =>
      q ← SelectNextEventQueueRoundRobin n;
      qs ← select_many n k';
      mret (q :: qs)
  end.

Lemma select_many_eq n k id :
  (0 < n ≤ int_max)%Z → (0 ≤ id < n)%Z →
  select_many n k id =
    Ok ((λ i : nat, Z.to_nat ((id + Z.of_nat i) mod n)) <$> seq 1 k) ((id + Z.of_nat k) mod n)%Z.
Proof.
  intros Hn. revert id. induction k as [|k IH]; intros id Hid; simpl.
  { unfold mret, M_ret. rewrite Z.add_0_r, Z.mod_small by done. done. }
  unfold mbind, M_bind. rewrite select_next by done.
  assert (0 ≤ (id + 1) mod n < n)%Z as Hm by (apply Z.mod_pos_bound; lia).
  rewrite IH by done. unfold mret, M_ret. f_equal.
  - f_equal. rewrite <- (fmap_S_seq 1 k), <- list_fmap_compose. apply list_fmap_ext.
    intros _ i _. simpl. rewrite Zplus_mod_idemp_l. f_equal. f_equal. lia.
  - rewrite Zplus_mod_idemp_l. f_equal. lia.
Qed.

(** C21: fairness.  Whatever queue was selected last, the next
    [num_event_threads] selections return every event queue exactly once and
    leave the selector where it was. *)
Theorem round_robin_fair n id :
  (0 < n ≤ int_max)%Z → (0 ≤ id < n)%Z →
  ∃ qs, select_many n (Z.to_nat n) id = Ok qs id ∧ qs ≡ₚ seq 0 (Z.to_nat n).
Proof.
  intros Hn Hid. rewrite select_many_eq by done. eexists. split.
  - rewrite Z2Nat.id by lia. replace (id + n)%Z with (id + 1 * n)%Z by lia.
    by rewrite Z_mod_plus_full, Z.mod_small.
  - apply submseteq_length_Permutation.
    + apply NoDup_submseteq.
      * apply NoDup_fmap_2_strong; [|apply NoDup_seq]. intros i j Hi%elem_of_seq Hj%elem_of_seq E.
        assert (0 ≤ (id + Z.of_nat i) mod n < n)%Z by (apply Z.mod_pos_bound; lia).
        assert (0 ≤ (id + Z.of_nat j) mod n < n)%Z by (apply Z.mod_pos_bound; lia).
        assert ((id + Z.of_nat i) mod n = (id + Z.of_nat j) mod n)%Z as Em by lia.
        pose proof (Z_div_mod_eq_full (id + Z.of_nat i) n) as Ei.
        pose proof (Z_div_mod_eq_full (id + Z.of_nat j) n) as Ej. rewrite Em in Ei.
        assert (n * ((id + Z.of_nat i) / n - (id + Z.of_nat j) / n) =
          Z.of_nat i - Z.of_nat j)%Z as Ed by lia.
        assert ((id + Z.of_nat i) / n = (id + Z.of_nat j) / n)%Z by nia. lia.
      * intros q (i & -> & Hi%elem_of_seq)%list_elem_of_fmap. apply elem_of_seq.
        assert (0 ≤ (id + Z.of_nat i) mod n < n)%Z by (apply Z.mod_pos_bound; lia). lia.
    + by rewrite length_fmap, !length_seq.
Qed.

Lemma round_robin_fair_witness :
  ∃ qs, select_many 4 (Z.to_nat 4) 2%Z = Ok qs 2%Z ∧ qs ≡ₚ seq 0 (Z.to_nat 4).
Proof. apply (round_robin_fair 4 2); unfold int_max; lia. Defined.

