(* ===== verification/Service.v ===== *)
(** * [Service] and the threads that drive it

    The member functions of src/async_grpc/service.cc, the [Handle] functions
    of the two kinds of events (rpc.cc), one iteration of the two thread
    bodies of src/async_grpc/server.cc, the [Writer] of rpc_handler.h split
    into its atomic steps, and the step relation these make up together with
    the environment. *)

From Stdlib Require Import ZArith Lia.
From stdpp Require Import base option list strings gmap.
From S2P Require Import Prelude Interfaces BlockingQueue Rpc.
Import Event EventDeleter.

Set Default Proof Using "Type".

Section service.
Context `{GrpcStatus, Application, EventQueueSelector}.

(** ** Member functions of [Service] *)

(** The call of [event_queue_selector_]. *)
Definition event_queue_selector_ : M World QueuePtr := λ w,
  match sel_next (selector_ w) with
  | Ok q s => Ok q (upd_selector (λ _, s) w)
  | Fail f => Fail f
  end.

Definition RemoveIfNotPending (rpc : RpcPtr) : M World unit :=
  any ← IsAnyEventPending rpc;
  if negb any then ActiveRpcs_Remove rpc ;; mret tt else mret tt.

Definition HandleNewConnection (rpc : RpcPtr) (ok : bool) : M World unit :=
  w ← get;
  if shutting_down_ w then
    ActiveRpcs_Remove rpc ;; mret tt
  else
    (if negb ok then ActiveRpcs_Remove rpc ;; mret tt else mret tt) ;;
    (if ok then OnConnection rpc else mret tt) ;;
    new_rpc ← Clone rpc;
    q ← event_queue_selector_;
    SetEventQueue new_rpc q ;;
    ActiveRpcs_Add new_rpc ;;
    RequestNextMethodInvocation new_rpc ;;
    release new_rpc.

Definition HandleRead (rpc : RpcPtr) (ok : bool) : M World unit :=
  if ok then
    OnRequest rpc ;;
    RequestStreamingReadIfNeeded rpc
  else
    OnReadsDone rpc ;;
    RemoveIfNotPending rpc.

Definition HandleWrite (rpc : RpcPtr) (ok : bool) : M World unit :=
  HandleSendQueue rpc ;;
  RemoveIfNotPending rpc.

Definition HandleFinish (rpc : RpcPtr) (ok : bool) : M World unit :=
  OnFinish rpc ;;
  RemoveIfNotPending rpc.

Definition HandleDone (rpc : RpcPtr) (ok : bool) : M World unit :=
  RemoveIfNotPending rpc.

Definition HandleEvent (e : Event.t) (rpc : RpcPtr) (ok : bool) : M World unit :=
  match e with
  | NEW_CONNECTION => HandleNewConnection rpc ok
  | READ => HandleRead rpc ok
  | WRITE_NEEDED | WRITE => HandleWrite rpc ok
  | FINISH => HandleFinish rpc ok
  | DONE => HandleDone rpc ok
  end.

Definition StopServing : M World unit := modify (upd_shutting_down (λ _, true)).

(** [i] counts the methods; [cqs] are the completion queues. *)
Fixpoint StartServing_from (i : nat) (infos : list RpcHandlerInfo) (cqs : list nat) :
    M World unit :=
  match infos with
  | [] => mret tt
  | info :: infos' =>
      for_each cqs (λ cq,
        q ← event_queue_selector_;
        rpc ← make_unique_Rpc i cq q info;
        ActiveRpcs_Add rpc ;;
        RequestNextMethodInvocation rpc ;;
        release rpc) ;;
      StartServing_from (S i) infos' cqs
  end.

Definition StartServing (infos : list RpcHandlerInfo) (cqs : list nat) : M World unit :=
  StartServing_from 0 infos cqs.

(** ** Events *)

(** [CompletionQueueRpcEvent::Handle]: the event is a member of the object
    [rpc_ptr] points to. *)
Definition CompletionQueueRpcEvent_Handle (rpc : RpcPtr) (e : Event.t) : M World unit :=
  ev ← GetRpcEvent rpc e;
  SetRpcEventState rpc e false ;;
  HandleEvent (event ev) (rpc_ptr ev) (ok ev).

Definition InternalRpcEvent_Handle (e : Event.t) (rpc : RpcPtr) : M World unit :=
  locked ← lock rpc;
  if (locked : bool) then
    HandleEvent e rpc true ;;
    release rpc
  else mret tt.

Definition Handle (ev : EventBase) : M World unit :=
  match ev with
  | CompletionEvent rpc e => CompletionQueueRpcEvent_Handle rpc e
  | InternalRpcEvent e rpc => InternalRpcEvent_Handle e rpc
  end.

Definition PushToEventQueue (rpc : RpcPtr) (e : Event.t) : M World unit :=
  x ← deref rpc;
  push_event (event_queue_ x) (mkUniqueEventPtr (CompletionEvent rpc e) DO_NOT_DELETE).

(** ** Thread bodies *)

(** The body of the loop of [Server::RunCompletionQueue], for a tag that
    [Next] returned. *)
Definition RunCompletionQueue_body (rpc : RpcPtr) (e : Event.t) (ok : bool) : M World unit :=
  GetRpcEvent rpc e ;;
  store rpc (update_event_member e (set_ok ok)) ;;
  PushToEventQueue rpc e.

(** The body of the loops of [Server::RunEventQueue]: pop with a timeout and
    handle what was popped.  The result says whether there was an event. *)
Definition pop_event (q : QueuePtr) : M World (option UniqueEventPtr) := λ w,
  match event_queues w !! q with
  | Some bq =>
      let '(r, bq') := PopWithTimeout bq in
      Ok r (upd_event_queues (insert q bq') w)
  | None => Fail UndefinedBehaviour
  end.

Definition RunEventQueue_body (q : QueuePtr) : M World bool :=
  r ← pop_event q;
  match r with
  | Some p => Handle (event_ptr p) ;; mret true
  | None => mret false
  end.

(** ** [Writer] calls from other threads

    [Writer::Write], [WritesDone] and [Finish] first lock the weak pointer;
    [Writer_begin] is that step and its result is what the call returns.
    With the lock held they run [Rpc::Write] or [Rpc::Finish], whose accesses
    to shared state are three separate critical sections: the send queue, the
    map of active RPCs, the event queue.  [Writer::Finish] then looks at the
    handler's span.  Last, the lock is dropped. *)

Definition Writer_begin (rpc : RpcPtr) (op : WriterOp) : M World bool :=
  locked ← lock rpc;
  if (locked : bool) then
    modify (upd_threads (λ l, l ++ [mkWriterThread rpc op AtEnqueue])) ;;
    mret true
  else mret false.

Definition writer_item (op : WriterOp) : SendItem :=
  match op with
  | WWrite m => mkSendItem (Some m) Status_OK
  | WWritesDone => mkSendItem None Status_OK
  | WFinish s => mkSendItem None s
  end.

(** The history of what [Writer]s put into send queues. *)
Definition log_written (rpc : RpcPtr) (item : SendItem) : M World unit :=
  modify (upd_written (λ l, l ++ [(rpc, item)])).

Definition set_pc (i : nat) (t : WriterThread) (pc : WriterPc) : M World unit :=
  modify (upd_threads (insert i (mkWriterThread (wt_rpc t) (wt_op t) pc))).

(** One step of the thread with index [i]. *)
Definition Writer_step (i : nat) : M World unit :=
  w ← get;
  match threads w !! i with
  | None => mret tt
  | Some t =>
      let rpc := wt_rpc t in
      match wt_pc t with
      | AtEnqueue =>
          EnqueueMessage rpc (writer_item (wt_op t)) ;;
          log_written rpc (writer_item (wt_op t)) ;;
          set_pc i t AtGetWeakPtr
      | AtGetWeakPtr => ActiveRpcs_GetWeakPtr rpc ;; set_pc i t AtPush
      | AtPush =>
          push_write_needed rpc rpc ;;
          set_pc i t (match wt_op t with WFinish _ => AtSpan | _ => AtReturn end)
      | AtSpan =>
          x ← deref rpc;
          (match handler_ x with
           | Some _ =>
               match wt_op t with WFinish s => log_span rpc (SpanSetStatus s) | _ => mret tt end
           | None => fail NullPointer
           end) ;;
          set_pc i t AtReturn
      | AtReturn =>
          release rpc ;;
          modify (upd_threads (delete i))
      end
  end.

(** ** The environment and the step relation *)

(** gRPC returns a tag: it is no longer in flight; a successful new
    connection starts the call; a message that arrived is written to the
    request buffer the framework provided. *)
Definition grpc_completes (rpc : RpcPtr) (e : Event.t) (ok : bool) (payload : option Message) :
    M World unit :=
  modify (λ w, upd_inflight (λ l, filter (λ t, t ≠ (rpc, e)) l)
    (if bool_decide (e = NEW_CONNECTION) && ok
     then upd_started (λ s, {[rpc]} ∪ s) w else w)) ;;
  match payload with
  | Some m => store rpc (set_request (λ _, Some m))
  | None => mret tt
  end.

(** The steps of the threads that run this service, and the two ways in which
    the other services of the same server are noticed: they advance the
    selector and their handlers write to the shared context.  (Their events
    share the event queues; what is queued here are the events of this
    service, in their order.) *)
Inductive Label :=
  | LCompletion (rpc : RpcPtr) (e : Event.t) (ok : bool) (payload : option Message)
  | LEvent (q : QueuePtr)
  | LWriterBegin (rpc : RpcPtr) (op : WriterOp)
  | LWriterStep (i : nat)
  | LStopServing
  | LOtherSelects
  | LOtherContext (c : Context_).

Definition exec (l : Label) : M World unit :=
  match l with
  | LCompletion rpc e ok payload =>
      grpc_completes rpc e ok payload ;; RunCompletionQueue_body rpc e ok
  | LEvent q => RunEventQueue_body q ;; mret tt
  | LWriterBegin rpc op => Writer_begin rpc op ;; mret tt
  | LWriterStep i => Writer_step i
  | LStopServing => StopServing
  | LOtherSelects => event_queue_selector_ ;; mret tt
  | LOtherContext c => modify (upd_context (λ _, c))
  end.

(** What gRPC guarantees about the tags it returns: only tags in flight; the
    tag of [AsyncNotifyWhenDone] only once the call has started; a message
    only with a successful read, or with a successful connection of an RPC
    whose request is not a stream.  Application threads can only use
    [Writer]s that were handed out. *)
Definition unary_request (t : RpcType) : bool :=
  match t with NORMAL_RPC | SERVER_STREAMING => true | _ => false end.

Definition env_ok (w : World) (l : Label) : Prop :=
  match l with
  | LCompletion rpc e ok payload =>
      (rpc, e) ∈ inflight w ∧
      (e = DONE → rpc ∈ started w) ∧
      (is_Some payload →
         ok = true ∧
         (e = READ ∨
          e = NEW_CONNECTION ∧ ∃ n x, heap_ w !! rpc = Some (n, x) ∧
            unary_request (rpc_type (rpc_handler_info_ x)) = true))
  | LEvent q => q < length (event_queues w)
  | LWriterBegin rpc _ => rpc ∈ weak_refs w
  | LWriterStep i => i < length (threads w)
  | LStopServing | LOtherSelects | LOtherContext _ => True
  end.

(** The world before [StartServing]: the server has built its event queues
    and nothing else has happened. *)
Definition world_init (num_event_threads : nat) (s : sel_state) (c : Context_) : World :=
  mkWorld ∅ 0 ∅ false (replicate num_event_threads BlockingQueue_default) s c
    [] ∅ ∅ [] [] [] [] [] [].

Inductive step (w : World) (l : Label) (w' : World) : Prop :=
  | step_intro : env_ok w l → exec l w = Ok tt w' → step w l w'.

(** Runs of a service that was started with the given methods and queues. *)
Inductive run (infos : list RpcHandlerInfo) (cqs : list nat) (n : nat) (s : sel_state)
    (c : Context_) : World → Prop :=
  | run_start w :
      StartServing infos cqs (world_init n s c) = Ok tt w → run infos cqs n s c w
  | run_step w l w' :
      run infos cqs n s c w → step w l w' → run infos cqs n s c w'.

End service.
