(* ===== verification/ServiceThreads.v ===== *)
(** * Event queue threads, one access at a time

    [Service] lets an event queue thread handle an event in one step.  Here
    the same functions of service.cc and rpc.cc are cut where they access
    what other threads access too: the queues and maps behind a lock, the use
    counts of shared pointers, the context, gRPC, the flag [shutting_down_].
    The accesses of a thread to the objects it alone uses are steps of their
    own ([AOwn]) or part of the step before or after them.  A server runs one
    such program per event queue thread, in any interleaving; run without
    interruption, the steps of a function are the function of [Rpc] or
    [Service] ([ThreadEquiv]). *)

From Stdlib Require Import ZArith Lia.
From stdpp Require Import base option list strings gmap.
From S2P Require Import Prelude Resumption Interfaces BlockingQueue Rpc Service.
Import Event EventDeleter.

Set Default Proof Using "Type".

(** What a step accesses besides objects of its own thread.  The access to
    [shutting_down_] is made on behalf of a connection that succeeded or
    failed. *)
Inductive Access :=
  | AOwn
  | AEventQueue
  | ASendQueue
  | AActiveRpcs
  | ASelector
  | AUseCount
  | AContext
  | AGrpc
  | AShuttingDown (ok : bool).

Section steps.
Context `{GrpcStatus, Application, EventQueueSelector}.

Abbreviation P := (Prog Access World).

(** ** Handlers and their calls back into the [Rpc] *)

Definition Rpc_Write_steps (this : RpcPtr) (message : Message) : P unit :=
  atom ASendQueue (EnqueueMessage this (mkSendItem (Some message) Status_OK)) ;;
  weak ← atom AActiveRpcs (ActiveRpcs_GetWeakPtr this);
  atom AEventQueue (push_write_needed this weak).

Definition Rpc_Finish_steps (this : RpcPtr) (s : Status) : P unit :=
  atom ASendQueue (EnqueueMessage this (mkSendItem None s)) ;;
  weak ← atom AActiveRpcs (ActiveRpcs_GetWeakPtr this);
  atom AEventQueue (push_write_needed this weak).

Definition run_action_steps (this : RpcPtr) (a : HandlerAction) : P unit :=
  match a with
  | ASend m => Rpc_Write_steps this m
  | AFinish s => Rpc_Finish_steps this s ;; atom AOwn (log_span this (SpanSetStatus s))
  | AGetWriter => atom AActiveRpcs (RpcHandler_GetWriter this)
  end.

(** The virtual call itself: the code of the handler, up to its calls of the
    framework, which are returned. *)
Definition call_body (this : RpcPtr) (c : Callback) (body : RpcHandlerClass → HandlerBody) :
    M World (list HandlerAction) :=
  x ← deref this;
  match handler_ x with
  | None => fail NullPointer
  | Some h =>
      log_callback this c ;;
      w ← get;
      let '(h', c', actions) := body (rpc_handler_class (rpc_handler_info_ x)) h (context_ w) in
      store this (set_handler (λ _, Some h')) ;;
      modify (upd_context (λ _, c')) ;;
      mret actions
  end.

Definition call_handler_steps (this : RpcPtr) (c : Callback)
    (body : RpcHandlerClass → HandlerBody) : P unit :=
  actions ← atom AContext (call_body this c body);
  for_all actions (run_action_steps this).

Definition factory_body (this : RpcPtr) : M World (HandlerState * list HandlerAction) :=
  x ← deref this;
  log_span this (SpanStart (fully_qualified_name (rpc_handler_info_ x))) ;;
  log_callback this CbInitialize ;;
  w ← get;
  let '(h, c', actions) :=
    handler_Initialize (rpc_handler_class (rpc_handler_info_ x)) (context_ w) in
  modify (upd_context (λ _, c')) ;;
  mret (h, actions).

Definition rpc_handler_factory_steps (this : RpcPtr) : P HandlerState :=
  made ← atom AContext (factory_body this);
  for_all made.2 (run_action_steps this) ;;
  mret made.1.

Definition OnRequest_steps (this : RpcPtr) : P unit :=
  x ← atom AOwn (deref this);
  match request_ x with
  | None => atom AOwn (fail NullPointer)
  | Some m => call_handler_steps this (CbOnRequest m) (λ c, handler_OnRequest c m)
  end.

Definition OnReadsDone_steps (this : RpcPtr) : P unit :=
  call_handler_steps this CbOnReadsDone handler_OnReadsDone.

Definition OnFinish_steps (this : RpcPtr) : P unit :=
  call_handler_steps this CbOnFinish handler_OnFinish.

(** ** Connection set-up, reads and writes *)

(** The two calls into gRPC, each with the flag of its tag. *)
Definition notify_when_done (this : RpcPtr) : M World unit :=
  SetRpcEventState this DONE true ;;
  GetRpcEvent this DONE ;;
  grpc_call (AsyncNotifyWhenDone this).

Definition request_call (this : RpcPtr) : M World unit :=
  SetRpcEventState this NEW_CONNECTION true ;;
  x ← deref this;
  streaming_interface this ;;
  GetRpcEvent this NEW_CONNECTION ;;
  grpc_call (RequestAsync (rpc_type (rpc_handler_info_ x)) this (method_index_ x)
    (server_completion_queue_ x)).

Definition RequestNextMethodInvocation_steps (this : RpcPtr) : P unit :=
  atom AGrpc (notify_when_done this) ;;
  atom AGrpc (request_call this).

Definition request_read (this : RpcPtr) : M World unit :=
  SetRpcEventState this READ true ;;
  async_reader_interface this ;;
  GetRpcEvent this READ ;;
  grpc_call (Read this).

Definition RequestStreamingReadIfNeeded_steps (this : RpcPtr) : P unit :=
  x ← atom AOwn (deref this);
  match rpc_type (rpc_handler_info_ x) with
  | BIDI_STREAMING | CLIENT_STREAMING => atom AGrpc (request_read this)
  | NORMAL_RPC | SERVER_STREAMING => OnRequest_steps this ;; OnReadsDone_steps this
  end.

Definition OnConnection_steps (this : RpcPtr) : P unit :=
  x ← atom AOwn (deref this);
  (match handler_ x with
   | Some _ => mret tt
   | None =>
       h ← rpc_handler_factory_steps this;
       atom AOwn (store this (set_handler (λ _, Some h)))
   end) ;;
  RequestStreamingReadIfNeeded_steps this.

(** The critical section of [HandleSendQueue]. *)
Definition pop_send_item (this : RpcPtr) : M World (option SendItem) :=
  x ← deref this;
  write_pending ← IsRpcEventPending this WRITE;
  finish_pending ← IsRpcEventPending this FINISH;
  match send_queue_ x with
  | [] => mret None
  | send_item :: rest =>
      if (write_pending || finish_pending) then mret None
      else store this (set_send_queue (λ _, rest)) ;; mret (Some send_item)
  end.

Definition HandleSendQueue_steps (this : RpcPtr) : P unit :=
  popped ← atom ASendQueue (pop_send_item this);
  match popped with
  | None => mret tt
  | Some send_item =>
      x ← atom AOwn (deref this);
      if bool_decide (msg send_item = None) ||
         bool_decide (rpc_type (rpc_handler_info_ x) = NORMAL_RPC) ||
         bool_decide (rpc_type (rpc_handler_info_ x) = CLIENT_STREAMING)
      then atom AGrpc (PerformFinish this (msg send_item) (status send_item))
      else atom AGrpc (PerformWrite this (msg send_item) (status send_item))
  end.

(** ** [Service] *)

Definition Remove_step (rpc : RpcPtr) : P unit :=
  atom AActiveRpcs (ActiveRpcs_Remove rpc ;; mret tt).

Definition RemoveIfNotPending_steps (rpc : RpcPtr) : P unit :=
  any ← atom AOwn (IsAnyEventPending rpc);
  if negb any then Remove_step rpc else mret tt.

(** [new_rpc] is reachable for no other thread before [Add]: its allocation
    is part of that step. *)
Definition add_clone (x : Rpc) (q : QueuePtr) : M World RpcPtr :=
  new_rpc ← make_unique_Rpc (method_index_ x) (server_completion_queue_ x) (event_queue_ x)
    (rpc_handler_info_ x);
  SetEventQueue new_rpc q ;;
  ActiveRpcs_Add new_rpc ;;
  mret new_rpc.

Definition HandleNewConnection_steps (rpc : RpcPtr) (ok : bool) : P unit :=
  shutting_down ← atom (AShuttingDown ok) (gets shutting_down_);
  if (shutting_down : bool) then Remove_step rpc
  else
    (if negb ok then Remove_step rpc else mret tt) ;;
    (if ok then OnConnection_steps rpc else mret tt) ;;
    x ← atom AOwn (deref rpc);
    q ← atom ASelector event_queue_selector_;
    new_rpc ← atom AActiveRpcs (add_clone x q);
    RequestNextMethodInvocation_steps new_rpc ;;
    atom AUseCount (release new_rpc).

Definition HandleRead_steps (rpc : RpcPtr) (ok : bool) : P unit :=
  if ok then
    OnRequest_steps rpc ;;
    RequestStreamingReadIfNeeded_steps rpc
  else
    OnReadsDone_steps rpc ;;
    RemoveIfNotPending_steps rpc.

Definition HandleWrite_steps (rpc : RpcPtr) (ok : bool) : P unit :=
  HandleSendQueue_steps rpc ;;
  RemoveIfNotPending_steps rpc.

Definition HandleFinish_steps (rpc : RpcPtr) (ok : bool) : P unit :=
  OnFinish_steps rpc ;;
  RemoveIfNotPending_steps rpc.

Definition HandleDone_steps (rpc : RpcPtr) (ok : bool) : P unit :=
  RemoveIfNotPending_steps rpc.

Definition HandleEvent_steps (e : Event.t) (rpc : RpcPtr) (ok : bool) : P unit :=
  match e with
  | NEW_CONNECTION => HandleNewConnection_steps rpc ok
  | READ => HandleRead_steps rpc ok
  | WRITE_NEEDED | WRITE => HandleWrite_steps rpc ok
  | FINISH => HandleFinish_steps rpc ok
  | DONE => HandleDone_steps rpc ok
  end.

Definition InternalRpcEvent_Handle_steps (e : Event.t) (rpc : RpcPtr) : P unit :=
  locked ← atom AUseCount (lock rpc);
  if (locked : bool) then
    HandleEvent_steps e rpc true ;;
    atom AUseCount (release rpc)
  else mret tt.

(** ** One turn of an event queue thread *)

(** What a thread has to do for the event it took. *)
Inductive Taken :=
  | TakenCompletion (e : Event.t) (rpc : RpcPtr) (ok : bool)
  | TakenInternal (e : Event.t) (rpc : RpcPtr).

(** The pop, and for a completion event the first two accesses of its
    [Handle]: to the event, a member of the object. *)
Definition take_event (q : QueuePtr) : M World (option Taken) :=
  r ← pop_event q;
  match r with
  | None => mret None
  | Some p =>
      match event_ptr p with
      | CompletionEvent rpc e =>
          ev ← GetRpcEvent rpc e;
          SetRpcEventState rpc e false ;;
          mret (Some (TakenCompletion (event ev) (rpc_ptr ev) (ok ev)))
      | InternalRpcEvent e rpc => mret (Some (TakenInternal e rpc))
      end
  end.

Definition Handle_steps (t : Taken) : P unit :=
  match t with
  | TakenCompletion e rpc ok => HandleEvent_steps e rpc ok
  | TakenInternal e rpc => InternalRpcEvent_Handle_steps e rpc
  end.

Definition RunEventQueue_turn (q : QueuePtr) : P unit :=
  taken ← atom AEventQueue (take_event q);
  match taken with
  | None => mret tt
  | Some t => Handle_steps t
  end.

(** ** A service with several event queue threads

    [turns] has the rest of the turn of every event queue thread; [Ret] is a
    thread between two turns. *)

Record Threaded := mkThreaded {
  shared : World;
  turns : list (P unit)
}.

Inductive TLabel :=
  | TShared (l : Label)
  | TTurn (q : QueuePtr).

(** The next step of the thread of queue [q]. *)
Definition current (q : QueuePtr) (p : P unit) : P unit :=
  match p with Ret _ => RunEventQueue_turn q | Atom _ _ => p end.

Definition texec (l : TLabel) : M Threaded unit := λ t,
  match l with
  | TShared l =>
      match exec l (shared t) with
      | Ok _ w => Ok tt (mkThreaded w (turns t))
      | Fail f => Fail f
      end
  | TTurn q =>
      match turns t !! q with
      | Some p =>
          match current q p with
          | Ret _ => Ok tt t
          | Atom _ m =>
              match m (shared t) with
              | Ok p' w => Ok tt (mkThreaded w (<[q := p']> (turns t)))
              | Fail f => Fail f
              end
          end
      | None => Fail UndefinedBehaviour
      end
  end.

(** The steps of [Service] other than the turn of an event queue thread, and
    the steps of those threads. *)
Definition tenv_ok (t : Threaded) (l : TLabel) : Prop :=
  match l with
  | TShared (LEvent _) => False
  | TShared l => env_ok (shared t) l
  | TTurn q => q < length (turns t)
  end.

Inductive tstep (t : Threaded) (l : TLabel) (t' : Threaded) : Prop :=
  | tstep_intro : tenv_ok t l → texec l t = Ok tt t' → tstep t l t'.

Inductive tsteps : Threaded → Threaded → Prop :=
  | tsteps_refl t : tsteps t t
  | tsteps_step t l t' t'' : tstep t l t' → tsteps t' t'' → tsteps t t''.

(** A service that was started, with [n] idle event queue threads. *)
Definition tinit (n : nat) (w : World) : Threaded := mkThreaded w (replicate n (Ret tt)).

(** [HandleSendQueue] is its critical section and what follows it. *)

Lemma IsRpcEventPending_reads this e w : IsRpcEventPending this e w =
  match heap_ w !! this with
  | Some (_, x) =>
      match event_member x e with
      | Some ev => Ok (pending ev) w
      | None => Fail (LogFatal "Rpc does not store Event::WRITE_NEEDED.")
      end
  | None => Fail UseAfterFree
  end.
Proof.
  unfold IsRpcEventPending, GetRpcEventState, GetRpcEvent, deref, mbind, M_bind.
  destruct (heap_ w !! this) as [[n x]|]; [|done]. by destruct (event_member x e).
Qed.

Lemma pop_send_item_steps this :
  same (HandleSendQueue this)
    (popped ← pop_send_item this;
     match popped with
     | None => mret tt
     | Some send_item =>
         x ← deref this;
         if bool_decide (msg send_item = None) ||
            bool_decide (rpc_type (rpc_handler_info_ x) = NORMAL_RPC) ||
            bool_decide (rpc_type (rpc_handler_info_ x) = CLIENT_STREAMING)
         then PerformFinish this (msg send_item) (status send_item)
         else PerformWrite this (msg send_item) (status send_item)
     end).
Proof.
  intros w. unfold HandleSendQueue, pop_send_item, mbind, M_bind, deref, store.
  destruct (heap_ w !! this) as [[n x]|] eqn:Hx; [|done].
  do 2 (rewrite IsRpcEventPending_reads, Hx; simpl).
  destruct (send_queue_ x) as [|item rest]; [done|].
  destruct (_ || _); [done|]. rewrite Hx. simpl. by rewrite lookup_insert_eq.
Qed.

End steps.
