(* ===== verification/ServiceFrame.v ===== *)
(** * Relations that every step of a service preserves

    Many facts about a service say how the state before a step relates to the
    state after it, for a relation that only some primitives of [Rpc] matter
    to.  The class [ServiceFrame] lists those primitives; its instances get
    the relation for every operation of [Service], for every step and for the
    start of a service. *)

From Stdlib Require Import ZArith Lia.
From stdpp Require Import base option list strings gmap.
From S2P Require Import Prelude Interfaces BlockingQueue Rpc Service.
Import Event EventDeleter.

Set Default Proof Using "Type".

Section frame.
Context `{GrpcStatus, Application, EventQueueSelector}.

(** Updates of the state that leave alone the objects, what handlers share,
    the weak pointers given out, and the record of the items enqueued or
    written by writers, of the callbacks and of the calls on spans; calls that
    started stay started. *)
Definition inert (f : World → World) : Prop :=
  ∀ w, heap_ (f w) = heap_ w ∧ next_ptr (f w) = next_ptr w ∧ context_ (f w) = context_ w ∧
    weak_refs (f w) = weak_refs w ∧ enqueued (f w) = enqueued w ∧
    callbacks (f w) = callbacks w ∧ spans (f w) = spans w ∧ written (f w) = written w ∧
    started w ⊆ started (f w).

(** Updates of an object that leave alone its method and its handler. *)
Definition inert_object (f : Rpc → Rpc) : Prop :=
  ∀ x, rpc_handler_info_ (f x) = rpc_handler_info_ x ∧ handler_ (f x) = handler_ x.

(** ** What the calls of a handler preserve *)

Class ActionFrame (p : RpcPtr) (R : World → World → Prop) := {
  af_preorder :: PreOrder R;
  af_deref : preserves R (deref p);
  af_enqueue it : preserves R (EnqueueMessage p it);
  af_get_writer : preserves R (RpcHandler_GetWriter p);
  af_push_event q e : preserves R (push_event q e);
  af_modify f : inert f → preserves R (modify f);
  af_status s : preserves R (log_span p (SpanSetStatus s))
}.

Section actions.
Context (p : RpcPtr) (R : World → World → Prop) `{!ActionFrame p R}.

#[local] Hint Extern 1 (preserves _ (deref _)) => apply af_deref : preserves.
#[local] Hint Extern 1 (preserves _ (push_event _ _)) => apply (af_push_event (p := p)) : preserves.
#[local] Hint Extern 1 (preserves _ (log_span _ _)) => apply af_status : preserves.
#[local] Hint Extern 1 (preserves _ (modify _)) => apply (af_modify (p := p)); done : preserves.
#[local] Hint Extern 1 (preserves _ (EnqueueMessage _ _)) => apply af_enqueue : preserves.
#[local] Hint Extern 1 (preserves _ (RpcHandler_GetWriter _)) => apply af_get_writer : preserves.

Lemma frame_run_action a : preserves R (run_action p a).
Proof using All.
  unfold run_action, RpcHandler_Send, RpcHandler_Finish, Rpc_Write, Rpc_Finish,
    ActiveRpcs_GetWeakPtr, push_write_needed. preserves_tac.
Qed.

End actions.

(** ** What the operations of a service preserve *)

(** The three virtual calls the framework makes. *)
Inductive virtual_call : Callback → (RpcHandlerClass → HandlerBody) → Prop :=
  | call_OnRequest m : virtual_call (CbOnRequest m) (λ c, handler_OnRequest c m)
  | call_OnReadsDone : virtual_call CbOnReadsDone handler_OnReadsDone
  | call_OnFinish : virtual_call CbOnFinish handler_OnFinish.

(** [ok_info] restricts the methods a service is started with. *)
Class ServiceFrame (R : World → World → Prop) (ok_info : RpcHandlerInfo → Prop) := {
  fr_preorder :: PreOrder R;
  fr_deref p : preserves R (deref p);
  fr_store p f : inert_object f → preserves R (store p f);
  fr_lock p : preserves R (lock p);
  fr_release p : preserves R (release p);
  fr_push_event q e : preserves R (push_event q e);
  fr_pop_event q : preserves R (pop_event q);
  fr_selector : preserves R event_queue_selector_;
  fr_modify f : inert f → preserves R (modify f);
  fr_Clone p : preserves R (Clone p);
  fr_make_unique i cq q info : ok_info info → preserves R (make_unique_Rpc i cq q info);
  fr_call p cb body : virtual_call cb body → preserves R (call_handler p cb body);
  fr_connect p :
    preserves R (x ← deref p;
      match handler_ x with
      | Some _ => mret tt
      | None => h ← rpc_handler_factory p; store p (set_handler (λ _, Some h))
      end);
  fr_status p (s : Status) :
    preserves R (x ← deref p;
      match handler_ x with
      | Some _ => log_span p (SpanSetStatus s)
      | None => fail NullPointer
      end)
}.

Section derived.
Context {R : World → World → Prop} {ok_info : RpcHandlerInfo → Prop} `{!ServiceFrame R ok_info}.

Ltac frame_prim :=
  first [ apply fr_deref | apply fr_lock | apply fr_release | apply fr_push_event
        | apply fr_pop_event | apply fr_selector | apply fr_Clone ].
#[local] Hint Extern 1 (preserves _ _) => frame_prim : preserves.
#[local] Hint Extern 1 (preserves _ (modify _)) =>
  apply fr_modify; intros ?; repeat case_match; (done || (split_and!; simpl; done || set_solver))
  : preserves.
#[local] Hint Extern 1 (preserves _ (store _ _)) =>
  apply fr_store; intros ?; repeat case_match; done : preserves.

Lemma frame_GetRpcEvent p e : preserves R (GetRpcEvent p e).
Proof using All. unfold GetRpcEvent. preserves_tac. Qed.
#[local] Hint Resolve frame_GetRpcEvent : preserves.
Lemma frame_SetRpcEventState p e b : preserves R (SetRpcEventState p e b).
Proof using All. unfold SetRpcEventState. destruct e; preserves_tac. Qed.
Lemma frame_IsRpcEventPending p e : preserves R (IsRpcEventPending p e).
Proof using All. unfold IsRpcEventPending, GetRpcEventState. preserves_tac. Qed.
Lemma frame_use_stream b o : preserves R (use_stream b o).
Proof using All. unfold use_stream. preserves_tac. Qed.
Lemma frame_GetWeakPtr p : preserves R (ActiveRpcs_GetWeakPtr p).
Proof using All. unfold ActiveRpcs_GetWeakPtr. preserves_tac. Qed.
Lemma frame_grpc_call c : preserves R (grpc_call c).
Proof using All. unfold grpc_call. preserves_tac. Qed.
Lemma frame_push_write_needed p q : preserves R (push_write_needed p q).
Proof using All. unfold push_write_needed. preserves_tac. Qed.
#[local] Hint Resolve frame_SetRpcEventState frame_IsRpcEventPending frame_use_stream
  frame_GetWeakPtr frame_grpc_call frame_push_write_needed : preserves.

Lemma frame_OnRequest p : preserves R (OnRequest p).
Proof using All.
  unfold OnRequest. apply preserves_bind; [apply _|apply fr_deref|]. intros x.
  destruct (request_ x) as [m|]; [|apply preserves_fail]. apply fr_call. constructor.
Qed.
Lemma frame_OnReadsDone p : preserves R (OnReadsDone p).
Proof using All. apply fr_call. constructor. Qed.
Lemma frame_OnFinish p : preserves R (OnFinish p).
Proof using All. apply fr_call. constructor. Qed.
#[local] Hint Resolve frame_OnRequest frame_OnReadsDone frame_OnFinish : preserves.

Lemma frame_RequestStreamingReadIfNeeded p : preserves R (RequestStreamingReadIfNeeded p).
Proof using All. unfold RequestStreamingReadIfNeeded, async_reader_interface. preserves_tac. Qed.
#[local] Hint Resolve frame_RequestStreamingReadIfNeeded : preserves.
Lemma frame_OnConnection p : preserves R (OnConnection p).
Proof using All.
  unfold OnConnection. apply preserves_assoc.
  apply preserves_bind; [apply _|apply fr_connect|]. intros _. preserves_tac.
Qed.
Lemma frame_Remove p : preserves R (ActiveRpcs_Remove p).
Proof using All. unfold ActiveRpcs_Remove. preserves_tac. Qed.
Lemma frame_Add p : preserves R (ActiveRpcs_Add p).
Proof using All. unfold ActiveRpcs_Add. preserves_tac. Qed.
Lemma frame_RequestNextMethodInvocation p : preserves R (RequestNextMethodInvocation p).
Proof using All. unfold RequestNextMethodInvocation, streaming_interface. preserves_tac. Qed.
#[local] Hint Resolve frame_OnConnection frame_Remove frame_Add
  frame_RequestNextMethodInvocation : preserves.
Lemma frame_RemoveIfNotPending p : preserves R (RemoveIfNotPending p).
Proof using All. unfold RemoveIfNotPending, IsAnyEventPending. preserves_tac. Qed.
Lemma frame_HandleSendQueue p : preserves R (HandleSendQueue p).
Proof using All.
  unfold HandleSendQueue, PerformFinish, PerformWrite, SendUnaryFinish, async_writer_interface.
  preserves_tac.
Qed.
#[local] Hint Resolve frame_RemoveIfNotPending frame_HandleSendQueue : preserves.
Lemma frame_HandleEvent e p b : preserves R (HandleEvent e p b).
Proof using All.
  unfold HandleEvent, HandleNewConnection, HandleRead, HandleWrite, HandleFinish, HandleDone,
    SetEventQueue. preserves_tac.
Qed.
#[local] Hint Resolve frame_HandleEvent : preserves.

(** A step of a writer call, when what it enqueues preserves the relation. *)
Lemma frame_Writer_step i w :
  (∀ t it, threads w !! i = Some t →
     wlp (EnqueueMessage (wt_rpc t) it ;; log_written (wt_rpc t) it) (λ _, R w) w) →
  wlp (Writer_step i) (λ _, R w) w.
Proof using All.
  intros Henq. unfold Writer_step. apply wlp_bind, wlp_intro. intros a w0 [= <- <-].
  destruct (threads w !! i) as [t|] eqn:Ht; [|apply wlp_ret; reflexivity].
  unfold set_pc. destruct (wt_pc t).
  - apply wlp_assoc, wlp_bind. apply (wlp_mono _ (λ _, R w)); [by apply Henq|]. intros _ w1 Hw1. apply wlp_modify.
    etransitivity; [exact Hw1|].
    exact (fr_modify (R := R) (upd_threads _) (λ _, ltac:(done)) w1).
  - refine ((_ : preserves R _) w). preserves_tac.
  - refine ((_ : preserves R _) w). preserves_tac.
  - refine ((_ : preserves R _) w). destruct (wt_op t) as [m| |status]; [preserves_tac..|].
    apply preserves_assoc. apply preserves_bind; [apply _|apply fr_status|]. intros _. preserves_tac.
  - refine ((_ : preserves R _) w). preserves_tac.
Qed.

(** Every step but the one that stands for another service's handler. *)
Lemma frame_step l w :
  (∀ c, l ≠ LOtherContext c) →
  (∀ i t it, l = LWriterStep i → threads w !! i = Some t →
     wlp (EnqueueMessage (wt_rpc t) it ;; log_written (wt_rpc t) it) (λ _, R w) w) →
  wlp (exec l) (λ _, R w) w.
Proof using All.
  intros Hl Henq. destruct l as [r e b payload|q|r op|i| | |c]; [..|by destruct (Hl c)].
  4: { apply frame_Writer_step. intros t it. by apply Henq. }
  all: refine ((_ : preserves R _) w); simpl.
  - unfold grpc_completes, RunCompletionQueue_body, PushToEventQueue. destruct e; preserves_tac.
  - unfold RunEventQueue_body, Handle, CompletionQueueRpcEvent_Handle, InternalRpcEvent_Handle.
    preserves_tac.
  - unfold Writer_begin. preserves_tac.
  - unfold StopServing. preserves_tac.
  - preserves_tac.
Qed.

Lemma frame_exec l :
  (∀ c, l ≠ LOtherContext c) → (∀ p it, preserves R (EnqueueMessage p it)) →
  (∀ p it, preserves R (log_written p it)) → preserves R (exec l).
Proof using All.
  intros Hl Henq Hlog w. apply frame_step; [done|]. intros i t it _ _.
  by apply preserves_bind; [apply _|apply Henq|].
Qed.

Lemma frame_StartServing infos cqs : Forall ok_info infos → preserves R (StartServing infos cqs).
Proof using All.
  unfold StartServing. generalize 0 as i. induction infos as [|info infos IH]; intros i Hok; simpl.
  { apply preserves_ret. apply _. }
  apply Forall_cons in Hok as [Hinfo Hok].
  apply preserves_bind; [apply _| |intros _; by apply IH].
  apply preserves_for_each; [apply _|]. intros cq.
  apply preserves_bind; [apply _|apply fr_selector|]. intros q.
  apply preserves_bind; [apply _|by apply fr_make_unique|]. intros p. preserves_tac.
Qed.

End derived.
End frame.
