(* ===== verification/HandlerWrapper.v ===== *)
(** * The handler wrapper of the test helpers

    src/async_grpc/testing/rpc_handler_wrapper.h: a handler class derived from
    the handler under test that reports each callback after it has run.  The
    reports go to a queue of the test server (rpc_handler_test_server.h), so
    the state handlers share is here the application's context together with
    that queue.  The lemmas say that every operation of a service pushes one
    event per callback, in the order of the callbacks. *)

From Stdlib Require Import ZArith Lia.
From stdpp Require Import base option list strings gmap.
From S2P Require Import Prelude Interfaces BlockingQueue Rpc Service ServiceFrame.
Import Event EventDeleter.

Set Default Proof Using "Type".

Inductive RpcHandlerEvent :=
  | ON_REQUEST
  | ON_READS_DONE
  | ON_FINISH.

#[global] Instance RpcHandlerEvent_eq_dec : EqDecision RpcHandlerEvent.
Proof. solve_decision. Defined.

(** [event_callback]: [rpc_handler_event_queue_.Push(event)], on a queue made
    by the default constructor, whose [Push] never waits. *)
Definition event_callback (e : RpcHandlerEvent) (q : BlockingQueue RpcHandlerEvent) :
    BlockingQueue RpcHandlerEvent :=
  default q (Push e q).

(** The application whose handlers share the queue as well. *)
Definition wrapped_application (base : Application) : Application := {|
  Message := @Message base;
  Descriptor := @Descriptor base;
  GetPrototype_New := @GetPrototype_New base;
  HandlerState := @HandlerState base;
  Context_ := @Context_ base * BlockingQueue RpcHandlerEvent;
  null_context := (@null_context base, BlockingQueue_default)
|}.

(** An application that is passed explicitly, not found as an instance. *)
Definition ExplicitApplication : Type := Application.

Section wrapper.
Context `{GrpcStatus, EventQueueSelector}.
Variable base : ExplicitApplication.
#[local] Instance wrapped : Application := wrapped_application base.

Definition lift_action (a : @HandlerAction _ base) : HandlerAction :=
  match a with
  | ASend m => ASend (m : @Message wrapped)
  | AFinish s => AFinish s
  | AGetWriter => AGetWriter
  end.

(** One override: the callback of the base class, then [event_callback_]. *)
Definition override (e : RpcHandlerEvent) (body : @HandlerBody _ base) : HandlerBody :=
  λ h c,
    let '(h', c', actions) := body h c.1 in
    (h', (c', event_callback e c.2), lift_action <$> actions).

(** [RpcHandlerWrapper<RpcHandlerType>]; [Initialize] is not overridden. *)
Definition RpcHandlerWrapper (handler : @RpcHandlerClass _ base) : RpcHandlerClass :=
  mkHandlerClass
    (λ c, let '(h, c', actions) := handler_Initialize handler c.1 in
          (h, (c', c.2), lift_action <$> actions))
    (λ m, override ON_REQUEST (handler_OnRequest handler m))
    (override ON_READS_DONE (handler_OnReadsDone handler))
    (override ON_FINISH (handler_OnFinish handler)).

(** ** Events and callbacks *)

(** The event that reports a callback. *)
Definition event_of (cb : Callback) : option RpcHandlerEvent :=
  match cb with
  | CbInitialize => None
  | CbOnRequest _ => Some ON_REQUEST
  | CbOnReadsDone => Some ON_READS_DONE
  | CbOnFinish => Some ON_FINISH
  end.

(** The events the callbacks made so far stand for; the events in the queue. *)
Definition events (w : World) : list RpcHandlerEvent := omap event_of (callbacks w).*2.
Definition queued (w : World) : list RpcHandlerEvent := deque_ (context_ w).2.

(** The queue never waits, and every object runs a wrapped handler. *)
Definition is_wrapped (info : RpcHandlerInfo) : Prop :=
  ∃ handler, rpc_handler_class info = RpcHandlerWrapper handler.

Record reporting (w : World) : Prop := {
  rp_infinite : queue_size_ (context_ w).2 = kInfiniteQueueSize;
  rp_wrapped : map_Forall (λ _ o, is_wrapped (rpc_handler_info_ o.2)) (heap_ w)
}.

(** One operation: what it reports is what it calls. *)
Definition mirrors (w w' : World) : Prop :=
  reporting w →
  reporting w' ∧ ∃ es, events w' = events w ++ es ∧ queued w' = queued w ++ es.

#[global] Instance mirrors_preorder : PreOrder mirrors.
Proof.
  split.
  - intros w Hw. split; [done|]. exists []. by rewrite !app_nil_r.
  - intros w1 w2 w3 H12 H23 Hw1. destruct (H12 Hw1) as (Hw2 & es & He & Hq).
    destruct (H23 Hw2) as (Hw3 & es' & He' & Hq'). split; [done|]. exists (es ++ es').
    by rewrite He', He, Hq', Hq, !app_assoc.
Qed.

Lemma reporting_insert w p n n' x x' :
  heap_ w !! p = Some (n, x) → rpc_handler_info_ x' = rpc_handler_info_ x →
  map_Forall (λ _ o, is_wrapped (rpc_handler_info_ o.2)) (heap_ w) →
  map_Forall (λ _ o, is_wrapped (rpc_handler_info_ o.2)) (<[p := (n', x')]> (heap_ w)).
Proof.
  intros Hp Hx Hall. apply map_Forall_insert_2; [|done]. simpl. rewrite Hx. exact (Hall _ _ Hp).
Qed.

(** Operations that call no handler. *)
Lemma mirrors_same w w' :
  context_ w' = context_ w → callbacks w' = callbacks w →
  (map_Forall (λ _ o, is_wrapped (rpc_handler_info_ o.2)) (heap_ w) →
   map_Forall (λ _ o, is_wrapped (rpc_handler_info_ o.2)) (heap_ w')) → mirrors w w'.
Proof.
  intros Hc Hcb Hh [Hi Hw]. unfold events, queued. rewrite Hc, Hcb. split.
  - split; [by rewrite Hc|by apply Hh].
  - exists []. by rewrite !app_nil_r.
Qed.

Ltac mirror_prim :=
  repeat case_match; simplify_eq; try done; apply mirrors_same; try done; simpl;
  try (apply map_Forall_delete); try (by eapply reporting_insert).

(** One call of a wrapped handler: the record of the callback and the report
    go together. *)
Lemma mirrors_call w p cb e n x (h' : HandlerState) c' :
  heap_ w !! p = Some (n, x) → event_of cb = Some e →
  mirrors w (upd_context (λ _, (c', event_callback e (context_ w).2))
    (upd_heap (insert p (n, set_handler (λ _, Some h') x)) (upd_callbacks (λ l, l ++ [(p, cb)]) w))).
Proof.
  intros Hp He [Hi Hw]. unfold event_callback. rewrite Push_infinite by done. simpl. split.
  - split; [done|]. simpl. by eapply reporting_insert.
  - exists [e]. unfold events, queued. simpl. rewrite fmap_app, omap_app. simpl. by rewrite He.
Qed.

Lemma override_reports e body h c :
  ∃ h' c' acts, override e body h c = (h', (c', event_callback e c.2), acts).
Proof. unfold override. destruct (body h c.1) as [[h' c'] acts]. eauto. Qed.

Lemma virtual_call_reports cb body :
  virtual_call cb body →
  ∃ e, event_of cb = Some e ∧ ∀ handler h c, ∃ h' c' acts,
    body (RpcHandlerWrapper handler) h c = (h', (c', event_callback e c.2), acts).
Proof. intros [m| |]; (eexists; split; [done|]); intros; apply override_reports. Qed.

Lemma mi_deref p : preserves mirrors (deref p).
Proof. intros w. unfold wlp, deref. mirror_prim. Qed.
Lemma mi_store p f :
  (∀ x, rpc_handler_info_ (f x) = rpc_handler_info_ x) → preserves mirrors (store p f).
Proof. intros Hf w. unfold wlp, store. mirror_prim. Qed.
Lemma mi_push_event q e : preserves mirrors (push_event q e).
Proof. intros w. unfold wlp, push_event. mirror_prim. Qed.
Lemma mi_modify f :
  (∀ w, heap_ (f w) = heap_ w ∧ context_ (f w) = context_ w ∧ callbacks (f w) = callbacks w) →
  preserves mirrors (modify f).
Proof.
  intros Hf. apply preserves_modify. intros w. destruct (Hf w) as (Eh & Ec & Ecb).
  apply mirrors_same; [done..|]. by rewrite Eh.
Qed.

Lemma mi_enqueue p it : preserves mirrors (EnqueueMessage p it).
Proof. apply preserves_bind; [apply _|by apply mi_store|]. intros _. by apply mi_modify. Qed.

#[global] Instance mirrors_actions p : ActionFrame p mirrors.
Proof.
  split; [apply _|apply mi_deref|apply mi_enqueue| |apply mi_push_event| |].
  - apply preserves_bind; [apply _|unfold ActiveRpcs_GetWeakPtr; preserves_tac|].
    intros q. by apply mi_modify.
  - intros f Hf. apply mi_modify. intros w. by destruct (Hf w) as (? & ? & ? & ? & ? & ? & ? & ?).
  - intros s. by apply mi_modify.
Qed.

Lemma mi_call p cb body : virtual_call cb body → preserves mirrors (call_handler p cb body).
Proof.
  intros (e & He & Hbody)%virtual_call_reports w. apply wlp_intro. intros [] w' Hrun Hrep.
  unfold call_handler, deref, log_callback, modify, get, store, mbind, M_bind in Hrun.
  destruct (heap_ w !! p) as [[n x]|] eqn:Hp; [|done].
  destruct (handler_ x) as [h|]; [|done]. simpl in Hrun.
  destruct (rp_wrapped _ Hrep _ _ Hp) as [handler Hx]. simpl in Hx. rewrite Hx in Hrun.
  destruct (Hbody handler h (context_ w)) as (h' & c' & acts & Eb). rewrite Eb in Hrun.
  simpl in Hrun. rewrite Hp in Hrun. simpl in Hrun. revert Hrep.
  change (mirrors w w'). etransitivity; [by eapply (mirrors_call w p cb e n x h' c')|].
  refine (preserves_Ok _ _ _ _ _ (preserves_for_each mirrors acts _ _) Hrun).
  intros a. apply frame_run_action. apply _.
Qed.

(** [Initialize] reports nothing. *)
Lemma mi_factory p : preserves mirrors (rpc_handler_factory p).
Proof.
  intros w. apply wlp_intro. intros h0 w' Hrun Hrep.
  unfold rpc_handler_factory, deref, log_callback, log_span, modify, get, mbind, M_bind in Hrun.
  destruct (heap_ w !! p) as [[n x]|] eqn:Hp; [|done].
  destruct (rp_wrapped _ Hrep _ _ Hp) as [handler Hx]. simpl in Hx, Hrun. rewrite Hx in Hrun.
  simpl in Hrun. destruct (handler_Initialize handler (context_ w).1) as [[h c'] acts].
  destruct (for_each _ _ _) as [[] w1|] eqn:Hacts; [|done]. injection Hrun as <- <-.
  revert Hrep. change (mirrors w w1).
  etransitivity; [|refine (preserves_Ok _ _ _ _ _ (preserves_for_each mirrors _ _ _) Hacts);
    intros a; apply frame_run_action; apply _].
  intros [Hi Hw]. split; [by split|]. exists []. unfold events, queued. simpl.
  by rewrite fmap_app, omap_app, !app_nil_r.
Qed.

#[global] Instance mirrors_frame : ServiceFrame mirrors is_wrapped.
Proof.
  assert (∀ i cq q info, is_wrapped info → preserves mirrors (make_unique_Rpc i cq q info)) as Hnew.
  { intros i cq q info Hi w. apply mirrors_same; try done. simpl. intros Hall.
    apply map_Forall_insert_2; [|done]. unfold Rpc_new. simpl.
    by destruct (InitializeReadersAndWriters _) as [[[? ?] ?] ?]. }
  split; [apply _|apply mi_deref|intros p f Hf; apply mi_store; intros x; apply Hf| | |apply mi_push_event| | | | |done|apply mi_call| |].
  - intros p w. unfold wlp, lock. mirror_prim.
  - intros p w. unfold wlp, release. mirror_prim.
  - intros q w. unfold wlp, pop_event. mirror_prim.
  - intros w. unfold wlp, event_queue_selector_. mirror_prim.
  - apply (af_modify (p := 0)).
  - intros p w. apply wlp_intro. intros q w' Hrun Hrep. revert Hrun.
    unfold Clone, deref, mbind at 1, M_bind at 1. destruct (heap_ w !! p) as [[n x]|] eqn:Hp; [|done].
    intros Hrun. exact (preserves_Ok _ _ _ _ _ (Hnew _ _ _ _ (rp_wrapped _ Hrep _ _ Hp)) Hrun Hrep).
  - intros p. apply preserves_bind; [apply _|apply mi_deref|]. intros x.
    destruct (handler_ x); [apply preserves_ret; apply _|].
    apply preserves_bind; [apply _|apply mi_factory|]. intros h. by apply mi_store.
  - intros p s. apply preserves_bind; [apply _|apply mi_deref|]. intros x.
    destruct (handler_ x); [apply af_status|apply preserves_fail].
Qed.

End wrapper.
