(* ===== verification/ServiceInv.v ===== *)
(** * The lifetime invariant of [Rpc] objects

    Completion queue tags and the events in the event queues are raw pointers
    into [Rpc] objects.  The invariant of this file ties them to the [pending]
    flags on which [Service::RemoveIfNotPending] decides: every tag or queued
    event that can still be delivered points into a live object whose flag
    for that event is set, and conversely. [ServiceSafety] shows that the
    steps of the service preserve it. *)

From Stdlib Require Import ZArith Lia.
From stdpp Require Import base option list strings gmap.
From S2P Require Import Prelude Interfaces BlockingQueue Rpc Service.
Import Event EventDeleter.

Set Default Proof Using "Type".

Section inv.
Context `{GrpcStatus, Application, EventQueueSelector} (N : nat) `{!SelectorOk N}.

(** The pending flag of an event of an object. *)
Definition is_pending (x : Rpc) (e : Event.t) : bool :=
  match event_member x e with Some ev => pending ev | None => false end.

(** The completion events and the internal events in a queue. *)
Definition tag_in (p : UniqueEventPtr) : option (RpcPtr * Event.t) :=
  match event_ptr p with CompletionEvent r e => Some (r, e) | InternalRpcEvent _ _ => None end.

Definition weak_in (p : UniqueEventPtr) : option RpcPtr :=
  match event_ptr p with CompletionEvent _ _ => None | InternalRpcEvent _ r => Some r end.

Definition tags (bq : BlockingQueue UniqueEventPtr) : list (RpcPtr * Event.t) :=
  omap tag_in (deque_ bq).

Definition weaks (bq : BlockingQueue UniqueEventPtr) : list RpcPtr :=
  omap weak_in (deque_ bq).

(** Internal events carry [WRITE_NEEDED] only. *)
Definition internal_ok (p : UniqueEventPtr) : Prop :=
  match event_ptr p with
  | CompletionEvent _ _ => action_ p = DO_NOT_DELETE
  | InternalRpcEvent e _ => e = WRITE_NEEDED ∧ action_ p = DELETE
  end.

(** In a queue no event of an object comes before its [NEW_CONNECTION]. *)
Fixpoint nc_first (l : list (RpcPtr * Event.t)) : Prop :=
  match l with
  | [] => True
  | (r, e) :: l' => (r, NEW_CONNECTION) ∉ l' ∧ nc_first l'
  end.

(** How an object is wired up; none of this changes after construction. *)
Definition wired (r : RpcPtr) (x : Rpc) : Prop :=
  InitializeReadersAndWriters (rpc_type (rpc_handler_info_ x)) =
    (server_async_response_writer_ x, server_async_reader_ x,
     server_async_reader_writer_ x, server_async_writer_ x) ∧
  is_Some (request_ x) ∧
  ∀ e ev, event_member x e = Some ev → event ev = e ∧ rpc_ptr ev = r.

(** The number of writer calls in progress on an object. *)
Definition holders (w : World) (r : RpcPtr) : nat :=
  length (filter (λ t, wt_rpc t = r) (threads w)).

Definition queued (w : World) (r : RpcPtr) (e : Event.t) (q : QueuePtr) : Prop :=
  ∃ bq, event_queues w !! q = Some bq ∧ (r, e) ∈ tags bq.

Definition mentioned (w : World) (r : RpcPtr) : Prop :=
  r ∈ weak_refs w ∨ ∃ q bq, event_queues w !! q = Some bq ∧ r ∈ weaks bq.

(** What holds at every moment of a handler's execution.  [ex r] counts the
    temporary shared pointers to [r] held by the handler. *)
Record core (ex : RpcPtr → nat) (w : World) : Prop := {
  c_sel : sel_inv (selector_ w);
  c_len : length (event_queues w) = N;
  c_queues : ∀ q bq, event_queues w !! q = Some bq →
    queue_size_ bq = kInfiniteQueueSize ∧ NoDup (tags bq) ∧ nc_first (tags bq) ∧
    Forall internal_ok (deque_ bq);
  c_nodup : NoDup (inflight w);
  c_fresh : ∀ r, next_ptr w ≤ r →
    heap_ w !! r = None ∧ r ∉ started w ∧ ¬ mentioned w r ∧
    (∀ e, (r, e) ∉ inflight w) ∧ holders w r = 0 ∧ ex r = 0;
  c_active : ∀ r, r ∈ rpcs_ w → is_Some (heap_ w !! r);
  c_wired : ∀ r n x, heap_ w !! r = Some (n, x) → wired r x ∧ event_queue_ x < N;
  c_count : ∀ r n x, heap_ w !! r = Some (n, x) →
    n = (if decide (r ∈ rpcs_ w) then 1 else 0) + holders w r + ex r;
  c_pos : ∀ r n x, heap_ w !! r = Some (n, x) → 0 < n;
  c_alive : ∀ r n x e, heap_ w !! r = Some (n, x) → is_pending x e = true → r ∈ rpcs_ w;
  c_complete : ∀ r n x e, heap_ w !! r = Some (n, x) → is_pending x e = true →
    (r, e) ∈ inflight w ∨ queued w r e (event_queue_ x);
  c_queued : ∀ r e q, queued w r e q → ∃ n x, heap_ w !! r = Some (n, x) ∧
    event_queue_ x = q ∧ is_pending x e = true ∧ (r, e) ∉ inflight w ∧
    (e = DONE → r ∈ started w);
  c_flying : ∀ r e, (r, e) ∈ inflight w →
    (∃ n x, heap_ w !! r = Some (n, x) ∧ is_pending x e = true) ∨
    (heap_ w !! r = None ∧ e = DONE ∧ r ∉ started w);
  c_listen : ∀ r, (r, NEW_CONNECTION) ∈ inflight w → r ∉ started w
}.

(** The two phases of an object between steps: listening or connected. *)
Definition phase (w : World) (r : RpcPtr) (x : Rpc) : Prop :=
  if is_pending x NEW_CONNECTION then
    handler_ x = None ∧ is_pending x READ = false ∧ is_pending x WRITE = false ∧
    is_pending x FINISH = false ∧ is_pending x DONE = true ∧ ¬ mentioned w r ∧
    (r ∈ started w → ok (new_connection_event_ x) = true)
  else is_Some (handler_ x).

Definition inv (w : World) : Prop :=
  core (λ _, 0) w ∧
  (∀ r n x, heap_ w !! r = Some (n, x) → phase w r x) ∧
  (∀ t, t ∈ threads w → wt_rpc t ∈ rpcs_ w ∧ wt_rpc t ∈ weak_refs w).

(** The invariant while a handler for [this] runs; [P] is what is known of
    the object, and [busy] are objects that are being handled too. *)
Record handling_among {busy : gset RpcPtr} (ex : RpcPtr → nat) (this : RpcPtr) (P : Rpc → Prop)
    (w : World) : Prop := {
  h_core : core ex w;
  h_others : ∀ r n x, r ≠ this → r ∉ busy → heap_ w !! r = Some (n, x) → phase w r x;
  h_threads : ∀ t, t ∈ threads w → wt_rpc t ∈ rpcs_ w ∧ wt_rpc t ∈ weak_refs w;
  h_active : this ∈ rpcs_ w;
  h_obj : ∃ n x, heap_ w !! this = Some (n, x) ∧ P x
}.

(** ** Lists of tags *)

Lemma nc_first_snoc l r e :
  nc_first l → (e = NEW_CONNECTION → ∀ e', (r, e') ∉ l) → nc_first (l ++ [(r, e)]).
Proof.
  induction l as [|[r' e'] l IH]; simpl; [set_solver|].
  intros [Hnin Hl] Hnew. split; [|by apply IH; set_solver].
  rewrite elem_of_app, list_elem_of_singleton. intros [?|[= -> <-]]; [done|].
  apply (Hnew eq_refl e'). set_solver.
Qed.

Lemma tags_push_back p (bq : BlockingQueue UniqueEventPtr) :
  tags (push_back p bq) = tags bq ++ match tag_in p with Some t => [t] | None => [] end.
Proof. unfold tags. simpl. rewrite omap_app. simpl. by destruct (tag_in p). Qed.

Lemma weaks_push_back p (bq : BlockingQueue UniqueEventPtr) :
  weaks (push_back p bq) = weaks bq ++ match weak_in p with Some t => [t] | None => [] end.
Proof. unfold weaks. simpl. rewrite omap_app. simpl. by destruct (weak_in p). Qed.

Lemma is_pending_update_eq x e b :
  e ≠ WRITE_NEEDED → is_pending (update_event_member e (set_pending b) x) e = b.
Proof. by destruct e. Qed.

Lemma is_pending_update_ne x e e' b :
  e ≠ e' → is_pending (update_event_member e (set_pending b) x) e' = is_pending x e'.
Proof. by destruct e, e'. Qed.

Lemma is_pending_set_ok x e e' b :
  is_pending (update_event_member e (set_ok b) x) e' = is_pending x e'.
Proof. by destruct e, e'. Qed.

Lemma is_pending_write_needed x : is_pending x WRITE_NEEDED = false.
Proof. done. Qed.

(** ** Changes of one object *)

(** The object at [this] is replaced by [x'], and the tags [new] are handed
    to gRPC with their flags set. *)
Lemma core_update ex w this n x x' new :
  core ex w → heap_ w !! this = Some (n, x) → this ∈ rpcs_ w →
  event_queue_ x' = event_queue_ x → wired this x' → NoDup new →
  (∀ t, t ∈ new → t.1 = this ∧ is_pending x t.2 = false ∧
     (t.2 = NEW_CONNECTION → this ∉ started w)) →
  (∀ e, is_pending x' e = true ↔ is_pending x e = true ∨ (this, e) ∈ new) →
  core ex (upd_inflight (λ l, l ++ new) (upd_heap (insert this (n, x')) w)).
Proof.
  intros C Hx Hact Hq Hw Hnd Hnew Hp. split; simpl.
  - apply C.
  - apply C.
  - apply C.
  - apply NoDup_app. split_and!; [apply C| |done].
    intros [r e] Hin Hin'. destruct (Hnew _ Hin') as (Hr & Hpe & _); simpl in *; subst r.
    destruct (c_flying _ _ C _ _ Hin) as [(m & y & ? & ?)|(? & _)]; congruence.
  - intros r Hr. destruct (c_fresh _ _ C r Hr) as (Hn & Hs & Hm & Hi & Hh & He).
    assert (r ≠ this) as Hne by (intros ->; congruence).
    rewrite lookup_insert_ne by done. split_and!; try done.
    intros e. rewrite elem_of_app. intros [?|Hin]; [by eapply Hi|].
    by apply Hnew in Hin as [? _].
  - intros r Hr. destruct (decide (this = r)) as [->|];
      [rewrite lookup_insert_eq; by eexists|rewrite lookup_insert_ne by done; by apply C].
  - intros r m y [[-> [= -> ->]]|[Hne Hy]]%lookup_insert_Some; [|by eapply C].
    split; [done|]. rewrite Hq. by eapply (c_wired _ _ C).
  - intros r m y [[-> [= -> ->]]|[Hne Hy]]%lookup_insert_Some; by eapply (c_count _ _ C).
  - intros r m y [[-> [= -> ->]]|[Hne Hy]]%lookup_insert_Some; by eapply (c_pos _ _ C).
  - intros r m y e [[-> [= -> ->]]|[Hne Hy]]%lookup_insert_Some ?; [done|by eapply C].
  - intros r m y e [[-> [= -> ->]]|[Hne Hy]]%lookup_insert_Some Hpe.
    + rewrite elem_of_app, Hq. apply Hp in Hpe as [Hpe|?]; [|by left; right].
      destruct (c_complete _ _ C _ _ _ _ Hx Hpe); [by left; left|by right].
    + rewrite elem_of_app. destruct (c_complete _ _ C _ _ _ _ Hy Hpe); [by left; left|by right].
  - intros r e q Hqd. destruct (c_queued _ _ C _ _ _ Hqd) as (m & y & Hy & Hyq & Hpe & Hni & Hd).
    destruct (decide (this = r)) as [->|Hne].
    + simplify_eq. exists n, x'. rewrite lookup_insert_eq. split_and!; try done.
      * apply Hp. by left.
      * rewrite elem_of_app. intros [?|Hin]; [done|]. apply Hnew in Hin as (_ & ? & _).
        simpl in *. congruence.
    + exists m, y. rewrite lookup_insert_ne by done. split_and!; try done.
      rewrite elem_of_app. intros [?|Hin]; [done|]. by apply Hnew in Hin as [? _].
  - intros r e. rewrite elem_of_app. intros [Hin|Hin].
    + destruct (decide (this = r)) as [->|Hne].
      * left. exists n, x'. rewrite lookup_insert_eq. split; [done|]. apply Hp. left.
        destruct (c_flying _ _ C _ _ Hin) as [(m & y & ? & ?)|(? & _)]; congruence.
      * rewrite lookup_insert_ne by done. by apply C.
    + destruct (Hnew _ Hin) as [Hr _]; simpl in Hr; subst. left. exists n, x'.
      rewrite lookup_insert_eq. split; [done|]. apply Hp. by right.
  - intros r. rewrite elem_of_app. intros [?|Hin]; [by apply (c_listen _ _ C)|].
    destruct (Hnew _ Hin) as (Hr & _ & Hs). simpl in *. subst. by apply Hs.
Qed.

Lemma core_store ex w this n x x' :
  core ex w → heap_ w !! this = Some (n, x) → this ∈ rpcs_ w →
  event_queue_ x' = event_queue_ x → wired this x' →
  (∀ e, is_pending x' e = is_pending x e) →
  core ex (upd_heap (insert this (n, x')) w).
Proof.
  intros C Hx Hact Hq Hw Hp.
  pose proof (core_update ex w this n x x' [] C Hx Hact Hq Hw) as Hc.
  unfold upd_inflight, upd_heap in *; simpl in *. rewrite app_nil_r in Hc. apply Hc.
  - constructor.
  - set_solver.
  - intros e. rewrite Hp. set_solver.
Qed.

(** Setting the flag of [e] and registering its tag. *)
Lemma core_arm ex w this n x x' e :
  core ex w → heap_ w !! this = Some (n, x) → this ∈ rpcs_ w →
  event_queue_ x' = event_queue_ x → wired this x' →
  is_pending x e = false → (e = NEW_CONNECTION → this ∉ started w) → is_pending x' e = true →
  (∀ e', e' ≠ e → is_pending x' e' = is_pending x e') →
  core ex (upd_inflight (λ l, l ++ [(this, e)]) (upd_heap (insert this (n, x')) w)).
Proof.
  intros C Hx Hact Hq Hw Hpe Hne Hpe' Hp. eapply core_update; eauto.
  - apply NoDup_singleton.
  - intros t ->%list_elem_of_singleton. done.
  - intros e'. rewrite list_elem_of_singleton. destruct (decide (e' = e)) as [->|Hne'].
    + naive_solver.
    + rewrite Hp by done. naive_solver.
Qed.

(** An internal event is appended to a queue. *)
Lemma core_push_internal ex w q bq r :
  core ex w → event_queues w !! q = Some bq → r < next_ptr w →
  core ex (upd_event_queues (insert q (push_back
    (mkUniqueEventPtr (InternalRpcEvent WRITE_NEEDED r) DELETE) bq)) w).
Proof.
  intros C Hq Hr.
  set (p := mkUniqueEventPtr _ _). set (w' := upd_event_queues _ w).
  assert (∀ r e q', queued w' r e q' ↔ queued w r e q') as Hqd.
  { intros r' e q'. unfold queued, w'; simpl. destruct (decide (q = q')) as [<-|Hne].
    - rewrite list_lookup_insert_eq by (by eapply lookup_lt_Some).
      split; intros (b & Hb & Hin); simplify_eq; eexists; (split; [done|]).
      + rewrite tags_push_back in Hin. simpl in Hin. by rewrite app_nil_r in Hin.
      + rewrite tags_push_back. simpl. by rewrite app_nil_r.
    - by rewrite list_lookup_insert_ne. }
  split; try (apply C).
  - simpl. rewrite length_insert. apply C.
  - simpl. intros q' b [(-> & <- & _)|[Hne Hb]]%list_lookup_insert_Some; [|by eapply C].
    destruct (c_queues _ _ C _ _ Hq) as (? & ? & ? & ?).
    rewrite tags_push_back. simpl. rewrite app_nil_r. split_and!; try done.
    apply Forall_app. split; [done|]. by repeat constructor.
  - intros r' Hr'. simpl in *. destruct (c_fresh _ _ C r' Hr') as (? & ? & Hm & ? & ? & ?).
    split_and!; try done. intros [?|(q' & b & Hb & Hin)]; [by apply Hm; left|].
    apply list_lookup_insert_Some in Hb as [(-> & <- & _)|[Hne Hb]].
    + rewrite weaks_push_back in Hin. simpl in Hin.
      apply elem_of_app in Hin as [?| ->%list_elem_of_singleton]; [|lia].
      apply Hm. right. eauto.
    + apply Hm. right. eauto.
  - intros r' n x e Hx Hp. rewrite Hqd. by eapply C.
  - intros r' e q' Hqd'%Hqd. by apply C.
Qed.

End inv.

(** The case where [this] is the only object being handled. *)
Abbreviation handling N := (handling_among N (busy := ∅)).
