(* ===== verification/ServiceLemmas.v ===== *)
(** * Preservation of the lifetime invariant by single state changes

    One lemma per way in which the steps of a service change the world:
    taking an event from a queue, gRPC completing a tag, dropping an object,
    creating a listening object. *)

From Stdlib Require Import ZArith Lia.
From stdpp Require Import base option list strings gmap.
From S2P Require Import Prelude Interfaces BlockingQueue Rpc Service ServiceInv.
Import Event EventDeleter.

Set Default Proof Using "Type".

Section lemmas.
Context `{GrpcStatus, Application, EventQueueSelector} (N : nat) `{!SelectorOk N}.

(** Only these parts of the world matter for the invariant. *)
Definition view (w : World) :=
  (heap_ w, next_ptr w, rpcs_ w, event_queues w, inflight w, started w, weak_refs w,
   threads w, selector_ w).

Lemma core_view ex w w' : view w = view w' → core N ex w → core N ex w'.
Proof.
  unfold view. intros [= E1 E2 E3 E4 E5 E6 E7 E8 E9] C.
  assert (∀ r, holders w' r = holders w r) as Hh by (intros; unfold holders; by rewrite E8).
  assert (∀ r, mentioned w' r ↔ mentioned w r) as Hm
    by (intros; unfold mentioned; by rewrite E7, E4).
  assert (∀ r e q, queued w' r e q ↔ queued w r e q) as Hq
    by (intros; unfold queued; by rewrite E4).
  destruct C; split; rewrite <- ?E1, <- ?E2, <- ?E3, <- ?E4, <- ?E5, <- ?E6, <- ?E9; try done.
  - intros r Hr. rewrite Hh, Hm. eauto.
  - intros r n x Hx. rewrite Hh. eauto.
  - intros r n x e Hx He. rewrite Hq. eauto.
  - intros r e q Hqd%Hq. eauto.
Qed.

Lemma phase_view w w' r x : view w = view w' → phase w r x → phase w' r x.
Proof.
  unfold view, phase, mentioned. intros [= E1 E2 E3 E4 E5 E6 E7 E8 E9].
  by rewrite E4, E6, E7.
Qed.

Lemma handling_view {busy} ex this P w w' :
  view w = view w' → handling_among N (busy := busy) ex this P w →
  handling_among N (busy := busy) ex this P w'.
Proof.
  intros E [C O T A B]. pose proof E as E'. unfold view in E'.
  injection E' as E1 E2 E3 E4 E5 E6 E7 E8 E9. split.
  - by eapply core_view.
  - intros r n x Hne Hb Hx. eapply phase_view; [done|]. eapply O; [done..|]. by rewrite E1.
  - by rewrite <- E3, <- E7, <- E8.
  - by rewrite <- E3.
  - by rewrite <- E1.
Qed.

Lemma core_heap_lt ex w r y : core N ex w → heap_ w !! r = Some y → r < next_ptr w.
Proof.
  intros C Hr. destruct (decide (next_ptr w ≤ r)) as [Hle|]; [|lia].
  apply (c_fresh _ _ _ C) in Hle as [? _]. congruence.
Qed.

Lemma handling_mono {busy} ex this (P Q : Rpc → Prop) w :
  (∀ x, P x → Q x) → handling_among N (busy := busy) ex this P w →
  handling_among N (busy := busy) ex this Q w.
Proof. intros HPQ [C O T A (n & x & Hx & HP)]. split; eauto. Qed.

(** ** Taking an event from a queue *)

Lemma core_pop_internal ex w q bq p d :
  core N ex w → event_queues w !! q = Some bq → deque_ bq = p :: d → tag_in p = None →
  core N ex (upd_event_queues (insert q (mkBlockingQueue (queue_size_ bq) d)) w).
Proof.
  intros C Hq Hd Hp. set (w' := upd_event_queues _ w).
  assert (tags bq = omap tag_in d) as Htags by (unfold tags; rewrite Hd; simpl; by rewrite Hp).
  assert (∀ r e q', queued w' r e q' ↔ queued w r e q') as Hqd.
  { intros r e q'. unfold queued, w'; simpl. destruct (decide (q = q')) as [<-|Hne].
    - rewrite list_lookup_insert_eq by (by eapply lookup_lt_Some).
      split; intros (b & Hb & Hin); simplify_eq; eexists; (split; [done|]).
      + by rewrite Htags.
      + by rewrite Htags in Hin.
    - by rewrite list_lookup_insert_ne. }
  split; try (apply C).
  - simpl. rewrite length_insert. apply C.
  - simpl. intros q' b [(-> & <- & _)|[Hne Hb]]%list_lookup_insert_Some; [|by eapply C].
    destruct (c_queues _ _ _ C _ _ Hq) as (? & Hnd & Hnc & Hf).
    unfold tags at 1 2; simpl. rewrite <- Htags. split_and!; try done.
    rewrite Hd in Hf. by inversion Hf.
  - intros r Hr. destruct (c_fresh _ _ _ C r Hr) as (? & ? & Hm & ? & ? & ?).
    split_and!; try done. intros [?|(q' & b & Hb & Hin)]; [by apply Hm; left|].
    apply list_lookup_insert_Some in Hb as [(-> & <- & _)|[Hne Hb]]; apply Hm; right;
      [|by eauto].
    exists q', bq. split; [done|]. unfold weaks in *. rewrite Hd. simpl in *.
    destruct (weak_in p); [by right|done].
  - intros r n x e Hx Hpe. rewrite Hqd. by eapply C.
  - intros r e q' Hqd'%Hqd. by apply C.
Qed.

(** After a pop there are fewer internal events. *)
Lemma mentioned_pop w q bq p d r :
  event_queues w !! q = Some bq → deque_ bq = p :: d →
  mentioned (upd_event_queues (insert q (mkBlockingQueue (queue_size_ bq) d)) w) r →
  mentioned w r.
Proof.
  intros Hq Hd [?|(q' & b & Hb & Hin)]; [by left|]. right. simpl in Hb.
  apply list_lookup_insert_Some in Hb as [(-> & <- & _)|[Hne Hb]]; [|by eauto].
  exists q', bq. split; [done|]. unfold weaks in *. rewrite Hd. simpl in *.
  destruct (weak_in p); [by right|done].
Qed.

Lemma wired_set_pending r e b x : wired r x → wired r (update_event_member e (set_pending b) x).
Proof.
  intros (Hi & Hr & Hm). destruct e; (split_and!; [done|done|]); intros e' ev Hev;
    destruct e'; simpl in Hev; simplify_eq; simpl;
    (apply (Hm NEW_CONNECTION) || apply (Hm READ) || apply (Hm WRITE) || apply (Hm FINISH)
     || apply (Hm DONE)); done.
Qed.

Lemma wired_set_ok r e b x : wired r x → wired r (update_event_member e (set_ok b) x).
Proof.
  intros (Hi & Hr & Hm). destruct e; (split_and!; [done|done|]); intros e' ev Hev;
    destruct e'; simpl in Hev; simplify_eq; simpl;
    (apply (Hm NEW_CONNECTION) || apply (Hm READ) || apply (Hm WRITE) || apply (Hm FINISH)
     || apply (Hm DONE)); done.
Qed.

Lemma event_queue_update_event e f x : event_queue_ (update_event_member e f x) = event_queue_ x.
Proof. by destruct e. Qed.

(** *** A completion event leaves its queue and its flag is cleared *)

Lemma pending_cleared e x e' :
  e ≠ WRITE_NEEDED →
  is_pending (update_event_member e (set_pending false) x) e' = true ↔
  is_pending x e' = true ∧ e' ≠ e.
Proof.
  intros Hwn. destruct (decide (e' = e)) as [->|Hne].
  - rewrite is_pending_update_eq by done. naive_solver.
  - rewrite is_pending_update_ne by done. naive_solver.
Qed.

(** The queued events after the first event of a queue was popped. *)
Lemma queued_pop ex w w' q bq p d r e :
  core N ex w → event_queues w !! q = Some bq → deque_ bq = p :: d → tag_in p = Some (r, e) →
  event_queues w' = insert q (mkBlockingQueue (queue_size_ bq) d) (event_queues w) →
  ∀ r' e' q', queued w' r' e' q' ↔ queued w r' e' q' ∧ (r', e') ≠ (r, e).
Proof.
  intros C Hq Hd Hp Eq r' e' q'.
  assert (tags bq = (r, e) :: omap tag_in d) as Htags
    by (unfold tags; rewrite Hd; simpl; by rewrite Hp).
  destruct (c_queues _ _ _ C _ _ Hq) as (_ & Hnd & _).
  rewrite Htags in Hnd. apply NoDup_cons in Hnd as [Hnin _].
  assert (queued w r e q) as Hqd0 by (exists bq; split; [done|]; rewrite Htags; left).
  unfold queued at 1. rewrite Eq. destruct (decide (q = q')) as [<-|Hne].
  - rewrite list_lookup_insert_eq by (by eapply lookup_lt_Some). split.
    + intros (b & Hb & Hin). simplify_eq. unfold tags in Hin; simpl in Hin. split.
      * exists bq. split; [done|]. rewrite Htags. by right.
      * intros [= -> ->]. done.
    + intros [(b & Hb & Hin) Hne]. simplify_eq. eexists. split; [done|].
      rewrite Htags in Hin. by apply elem_of_cons in Hin as [?|?].
  - rewrite list_lookup_insert_ne by done. split; [|by intros [? _]].
    intros Hqd. split; [done|]. intros [= -> ->].
    destruct (c_queued _ _ _ C _ _ _ Hqd) as (? & ? & ? & ? & _).
    destruct (c_queued _ _ _ C _ _ _ Hqd0) as (? & ? & ? & ? & _). congruence.
Qed.

Lemma core_pop_completion ex w q bq p d r e n x :
  core N ex w → event_queues w !! q = Some bq → deque_ bq = p :: d →
  tag_in p = Some (r, e) → heap_ w !! r = Some (n, x) →
  core N ex (upd_heap (insert r (n, update_event_member e (set_pending false) x))
    (upd_event_queues (insert q (mkBlockingQueue (queue_size_ bq) d)) w)).
Proof.
  intros C Hq Hd Hp Hx. set (x' := update_event_member _ _ x). set (w' := upd_heap _ _).
  assert (tags bq = (r, e) :: omap tag_in d) as Htags
    by (unfold tags; rewrite Hd; simpl; by rewrite Hp).
  assert (queued w r e q) as Hqd0 by (exists bq; split; [done|]; rewrite Htags; left).
  destruct (c_queued _ _ _ C _ _ _ Hqd0) as (n' & y & Hy & _ & Hpe & Hni & _).
  rewrite Hx in Hy. injection Hy as <- <-.
  pose proof (queued_pop ex w w' q bq p d r e C Hq Hd Hp eq_refl) as Hqd.
  pose proof (λ e', pending_cleared e x e' ltac:(by intros ->)) as Hpx. fold x' in Hpx.
  split; try (apply C).
  - simpl. rewrite length_insert. apply C.
  - simpl. intros q' b [(-> & <- & _)|[Hne Hb]]%list_lookup_insert_Some; [|by eapply C].
    destruct (c_queues _ _ _ C _ _ Hq) as (? & Hnd & Hnc & Hf). rewrite Htags in Hnd, Hnc.
    rewrite Hd in Hf. apply NoDup_cons in Hnd as [_ Hnd]. destruct Hnc as [_ Hnc].
    split_and!; try done. by inversion Hf.
  - intros r' Hr'. destruct (c_fresh _ _ _ C r' Hr') as (? & ? & Hm & ? & ? & ?).
    simpl. rewrite lookup_insert_ne by congruence.
    split_and!; try done. intros Hm'. by apply Hm, (mentioned_pop w q bq p d).
  - simpl. intros r' Hr'. destruct (decide (r = r')) as [->|];
      [rewrite lookup_insert_eq; by eexists|rewrite lookup_insert_ne by done; by apply C].
  - simpl. intros r' m y [[-> [= <- <-]]|[Hne Hy]]%lookup_insert_Some; [|by eapply C].
    unfold x'. rewrite event_queue_update_event.
    destruct (c_wired _ _ _ C _ _ _ Hx). by split; [apply wired_set_pending|].
  - simpl. intros r' m y [[-> [= <- <-]]|[Hne Hy]]%lookup_insert_Some; by eapply (c_count _ _ _ C).
  - simpl. intros r' m y [[-> [= <- <-]]|[Hne Hy]]%lookup_insert_Some; by eapply (c_pos _ _ _ C).
  - simpl. intros r' m y e' [[-> [= <- <-]]|[Hne Hy]]%lookup_insert_Some Hpe'; [|by eapply C].
    apply Hpx in Hpe' as [Hpe' _]. by eapply (c_alive _ _ _ C).
  - simpl. intros r' m y e' [[-> [= <- <-]]|[Hne Hy]]%lookup_insert_Some Hpe'; rewrite Hqd.
    + apply Hpx in Hpe' as [Hpe' Hne']. unfold x'. rewrite event_queue_update_event.
      destruct (c_complete _ _ _ C _ _ _ _ Hx Hpe'); [by left|right; split; [done|congruence]].
    + destruct (c_complete _ _ _ C _ _ _ _ Hy Hpe'); [by left|right; split; [done|congruence]].
  - intros r' e' q' [Hqd' Hne]%Hqd.
    destruct (c_queued _ _ _ C _ _ _ Hqd') as (m & y & Hy & Hyq & Hpe' & ?). simpl.
    destruct (decide (r = r')) as [<-|Hner]; [|exists m, y; by rewrite lookup_insert_ne].
    rewrite Hx in Hy. injection Hy as <- <-. exists n, x'. rewrite lookup_insert_eq.
    split_and!; [done|unfold x'; by rewrite event_queue_update_event| |by destruct_and!..].
    apply Hpx. split; [done|congruence].
  - simpl. intros r' e' Hin.
    destruct (decide (r = r')) as [<-|Hner]; [|rewrite lookup_insert_ne by done; by apply C].
    left. exists n, x'. rewrite lookup_insert_eq. split; [done|]. apply Hpx.
    destruct (c_flying _ _ _ C _ _ Hin) as [(m & y & ? & ?)|(? & _)]; [|congruence].
    split; [congruence|]. intros ->. done.
Qed.

(** ** A tag returns from gRPC *)

(** The tag moves from gRPC to the event queue of its object. *)
Section move.
Context (ex : RpcPtr → nat) (w : World) (r : RpcPtr) (e : Event.t) (n : nat) (x : Rpc)
  (bq : BlockingQueue UniqueEventPtr).
Hypotheses (C : core N ex w) (Hx : heap_ w !! r = Some (n, x)) (Hin : (r, e) ∈ inflight w)
  (Hbq : event_queues w !! event_queue_ x = Some bq).

Let moved : World := upd_event_queues
  (insert (event_queue_ x) (push_back (mkUniqueEventPtr (CompletionEvent r e) DO_NOT_DELETE) bq))
  (upd_inflight (λ l, filter (λ t, t ≠ (r, e)) l) w).

Lemma flying_not_queued q : ¬ queued w r e q.
Proof using C Hin.
  intros Hqd. by destruct (c_queued _ _ _ C _ _ _ Hqd) as (? & ? & _ & _ & _ & ? & _).
Qed.

Lemma flying_pending : is_pending x e = true.
Proof using C Hx Hin.
  destruct (c_flying _ _ _ C _ _ Hin) as [(? & ? & ? & ?)|(? & _)]; congruence.
Qed.

Lemma queued_moved r' e' q' :
  queued moved r' e' q' ↔ queued w r' e' q' ∨ (q' = event_queue_ x ∧ r' = r ∧ e' = e).
Proof using Hbq.
  unfold queued, moved. simpl. destruct (decide (event_queue_ x = q')) as [<-|Hne].
  - rewrite list_lookup_insert_eq by (by eapply lookup_lt_Some). split.
    + intros (? & [= <-] & Hi). rewrite tags_push_back in Hi; simpl in Hi.
      apply elem_of_app in Hi as [?|[= -> ->]%list_elem_of_singleton]; [left; eauto|by right].
    + intros Hor. eexists. split; [done|]. rewrite tags_push_back; simpl.
      rewrite elem_of_app, list_elem_of_singleton.
      destruct Hor as [(bq' & Hbq' & ?)|(_ & -> & ->)]; [|by right]. left. congruence.
  - rewrite list_lookup_insert_ne by done. split; [by left|].
    intros [?|(? & _)]; [done|congruence].
Qed.

Lemma mentioned_moved r' : mentioned moved r' → mentioned w r'.
Proof using Hbq.
  intros [Hm|(q' & bb & Hbb & Hi)]; [by left|right]. simpl in Hbb.
  apply list_lookup_insert_Some in Hbb as [(<- & <- & _)|[Hne Hbb]]; [|by eauto].
  rewrite weaks_push_back in Hi; simpl in Hi. rewrite app_nil_r in Hi. eauto.
Qed.

(** A new connection is the first event of its object in the queue. *)
Lemma queues_moved q' bb :
  (e = NEW_CONNECTION → ∀ e', is_pending x e' = true → e' = NEW_CONNECTION ∨ e' = DONE) →
  event_queues moved !! q' = Some bb →
  queue_size_ bb = kInfiniteQueueSize ∧ NoDup (tags bb) ∧ nc_first (tags bb) ∧
  Forall internal_ok (deque_ bb).
Proof using C Hx Hin Hbq.
  intros Hnc [(<- & <- & _)|[Hne Hbb]]%list_lookup_insert_Some; [|by eapply C].
  destruct (c_queues _ _ _ C _ _ Hbq) as (? & Hnd & Hncf & Hf). rewrite tags_push_back; simpl.
  split_and!; [done| | |].
  - apply NoDup_app. split_and!; [done| |apply NoDup_singleton].
    intros t Ht ->%list_elem_of_singleton. apply (flying_not_queued (event_queue_ x)). by exists bq.
  - apply nc_first_snoc; [done|]. intros He e' Hi.
    assert (queued w r e' (event_queue_ x)) as Hqd' by (by exists bq).
    destruct (c_queued _ _ _ C _ _ _ Hqd') as (m & y & Hy & _ & Hpe & _ & Hd).
    assert (is_pending x e' = true) as Hpx by congruence.
    destruct (Hnc He _ Hpx) as [E|E].
    + apply (flying_not_queued (event_queue_ x)). by rewrite He, <- E.
    + apply (c_listen _ _ _ C r); [by rewrite <- He|by apply Hd].
  - apply Forall_app. split; [done|]. by repeat constructor.
Qed.

Lemma core_move :
  (e = DONE → r ∈ started w) →
  (e = NEW_CONNECTION → ∀ e', is_pending x e' = true → e' = NEW_CONNECTION ∨ e' = DONE) →
  core N ex moved.
Proof using C Hx Hin Hbq.
  intros Hdone Hnc. split; try (apply C).
  - simpl. rewrite length_insert. apply C.
  - intros q' bb. by apply queues_moved.
  - apply NoDup_filter, C.
  - intros r' Hr'. destruct (c_fresh _ _ _ C r' Hr') as (? & ? & Hm & Hi & ? & ?).
    split_and!; try done; [by intros Hm'%mentioned_moved|].
    intros e'. simpl. rewrite list_elem_of_filter. intros [_ ?]. by eapply Hi.
  - intros r' m y e' Hy Hp. rewrite queued_moved. simpl. rewrite list_elem_of_filter.
    destruct (decide ((r', e') = (r, e))) as [[= -> ->]|Hne].
    + right. right. split_and!; try done. simpl in Hy. congruence.
    + destruct (c_complete _ _ _ C _ _ _ _ Hy Hp); [by left|by right; left].
  - intros r' e' q'. rewrite queued_moved. intros [Hqd'|(-> & -> & ->)]; simpl.
    + destruct (c_queued _ _ _ C _ _ _ Hqd') as (m & y & Hy & Hyq & Hpe & Hni & Hd).
      exists m, y. rewrite list_elem_of_filter. split_and!; try done. by intros [_ ?].
    + exists n, x. rewrite list_elem_of_filter.
      split_and!; [done|done|apply flying_pending|by intros [? _]|done].
  - intros r' e'. simpl. rewrite list_elem_of_filter. intros [_ Hi]. by apply C.
  - intros r'. simpl. rewrite list_elem_of_filter. intros [_ Hi]. by apply (c_listen _ _ _ C).
Qed.

End move.

(** A call has started: the tag of its new connection is no longer with
    gRPC. *)
Lemma core_start ex w r n x :
  core N ex w → heap_ w !! r = Some (n, x) → (r, NEW_CONNECTION) ∉ inflight w →
  core N ex (upd_started (λ s, {[r]} ∪ s) w).
Proof.
  intros C Hx Hnin. pose proof (core_heap_lt _ _ _ _ C Hx) as Hlt. split; try (apply C); simpl.
  - intros r' Hr'. destruct (c_fresh _ _ _ C r' Hr') as (? & ? & ? & ? & ? & ?).
    split_and!; try done. rewrite elem_of_union, elem_of_singleton. intros [->|?]; [lia|done].
  - intros r' e' q' Hqd. destruct (c_queued _ _ _ C _ _ _ Hqd) as (m & y & ? & ? & ? & ? & ?).
    exists m, y. set_solver.
  - intros r' e' Hi. destruct (c_flying _ _ _ C _ _ Hi) as [?|(? & ? & ?)]; [by left|right].
    split_and!; try done. rewrite elem_of_union, elem_of_singleton. intros [->|?]; [congruence|done].
  - intros r' Hi. rewrite elem_of_union, elem_of_singleton.
    intros [->|?]; [done|]. by eapply (c_listen _ _ _ C r').
Qed.

Lemma core_completion ex w r e n x x' bq (b : bool) :
  core N ex w → heap_ w !! r = Some (n, x) → (r, e) ∈ inflight w →
  (e = DONE → r ∈ started w) → (b = true → e = NEW_CONNECTION) →
  (e = NEW_CONNECTION → ∀ e', is_pending x e' = true → e' = NEW_CONNECTION ∨ e' = DONE) →
  event_queue_ x' = event_queue_ x → wired r x' → (∀ e', is_pending x' e' = is_pending x e') →
  event_queues w !! event_queue_ x = Some bq →
  core N ex (upd_event_queues
    (insert (event_queue_ x) (push_back (mkUniqueEventPtr (CompletionEvent r e) DO_NOT_DELETE) bq))
    (upd_heap (insert r (n, x')) (upd_inflight (λ l, filter (λ t, t ≠ (r, e)) l)
      (if b then upd_started (λ s, {[r]} ∪ s) w else w)))).
Proof.
  intros C Hx Hin Hdone Hb Hnc Hq Hw Hp Hbq.
  assert (r ∈ rpcs_ w) as Hact by (eapply (c_alive _ _ _ C); [done|by eapply flying_pending]).
  pose proof (core_store N ex w r n x x' C Hx Hact Hq Hw Hp) as C1.
  assert (heap_ (upd_heap (insert r (n, x')) w) !! r = Some (n, x')) as Hx1 by apply lookup_insert_eq.
  pose proof (core_move ex _ r e n x' bq C1 Hx1 Hin ltac:(by rewrite Hq) Hdone
    ltac:(by intros He e'; rewrite Hp; apply Hnc)) as C2. rewrite Hq in C2.
  destruct b; [|by eapply core_view; [|exact C2]].
  eapply core_view; [|eapply (core_start ex _ r n x' C2); [exact Hx1|]]; [done|].
  simpl. rewrite list_elem_of_filter, (Hb eq_refl). by intros [? _].
Qed.

(** ** Shared pointers *)

Definition bump (r : RpcPtr) (ex : RpcPtr → nat) : RpcPtr → nat :=
  λ r', ex r' + if decide (r' = r) then 1 else 0.

Lemma bump_eq r ex : bump r ex r = S (ex r).
Proof. unfold bump. rewrite decide_True by done. lia. Qed.

Lemma bump_ne r r' ex : r' ≠ r → bump r ex r' = ex r'.
Proof. intros. unfold bump. rewrite decide_False by done. lia. Qed.

(** A change of a use count that keeps the object. *)
Lemma core_recount ex ex' w s' r n n' x :
  core N ex w → heap_ w !! r = Some (n, x) →
  (∀ r', r' ≠ r → (r' ∈ s' ↔ r' ∈ rpcs_ w) ∧ ex' r' = ex r') →
  n' = (if decide (r ∈ s') then 1 else 0) + holders w r + ex' r → 0 < n' →
  (∀ e, is_pending x e = true → r ∈ s') →
  core N ex' (upd_heap (insert r (n', x)) (upd_rpcs (λ _, s') w)).
Proof.
  intros C Hx Hs Hn Hpos Hp. split; simpl; try (apply C).
  - intros r' Hr'. destruct (c_fresh _ _ _ C r' Hr') as (? & ? & ? & ? & ? & ?).
    pose proof (core_heap_lt _ _ _ _ C Hx). assert (r' ≠ r) as Hne by lia.
    destruct (Hs r' Hne) as [_ ->]. by rewrite lookup_insert_ne.
  - intros r' Hr'. destruct (decide (r = r')) as [->|Hne];
      [rewrite lookup_insert_eq; by eexists|rewrite lookup_insert_ne by done].
    apply C. apply Hs; [congruence|done].
  - intros r' m y [[-> [= <- <-]]|[Hne Hy]]%lookup_insert_Some; by eapply (c_wired _ _ _ C).
  - intros r' m y [[-> [= <- <-]]|[Hne Hy]]%lookup_insert_Some; [done|].
    rewrite (c_count _ _ _ C _ _ _ Hy). destruct (Hs r') as [Hiff ->]; [congruence|].
    by rewrite (decide_ext _ _ _ _ Hiff).
  - intros r' m y [[-> [= <- <-]]|[Hne Hy]]%lookup_insert_Some; [done|by eapply (c_pos _ _ _ C)].
  - intros r' m y e [[-> [= <- <-]]|[Hne Hy]]%lookup_insert_Some He; [by eapply Hp|].
    apply Hs; [congruence|]. by eapply (c_alive _ _ _ C).
  - intros r' m y e [[-> [= <- <-]]|[Hne Hy]]%lookup_insert_Some He;
      by eapply (c_complete _ _ _ C).
  - intros r' e q Hqd. destruct (c_queued _ _ _ C _ _ _ Hqd) as (m & y & Hy & Hrest).
    destruct (decide (r = r')) as [->|Hne].
    + rewrite Hx in Hy. injection Hy as <- <-. exists n', x. by rewrite lookup_insert_eq.
    + exists m, y. by rewrite lookup_insert_ne.
  - intros r' e Hin. destruct (decide (r = r')) as [->|Hne].
    + left. destruct (c_flying _ _ _ C _ _ Hin) as [(m & y & Hy & He)|(? & _)]; [|congruence].
      rewrite Hx in Hy. injection Hy as <- <-. exists n', x. by rewrite lookup_insert_eq.
    + rewrite lookup_insert_ne by done. by apply C.
Qed.

(** The last shared pointer goes away and the object with it.  Either no
    event of it is pending, or only the [DONE] of a call that never started. *)
Lemma core_delete ex ex' w s' r n x :
  core N ex w → heap_ w !! r = Some (n, x) →
  (∀ r', r' ≠ r → (r' ∈ s' ↔ r' ∈ rpcs_ w) ∧ ex' r' = ex r') → r ∉ s' →
  ex' r = 0 → (∀ e, is_pending x e = true → e = DONE ∧ r ∉ started w) →
  core N ex' (upd_heap (delete r) (upd_rpcs (λ _, s') w)).
Proof.
  intros C Hx Hs Hns Hex Hp.
  assert (∀ e q, ¬ queued w r e q) as Hnq.
  { intros e q Hqd. destruct (c_queued _ _ _ C _ _ _ Hqd) as (m & y & Hy & _ & He & _ & Hd).
    rewrite Hx in Hy. injection Hy as <- <-. apply Hp in He as [-> Hns']. auto. }
  split; simpl; try (apply C).
  - intros r' Hr'. destruct (c_fresh _ _ _ C r' Hr') as (? & ? & ? & ? & ? & ?).
    pose proof (core_heap_lt _ _ _ _ C Hx). assert (r' ≠ r) as Hne by lia.
    destruct (Hs r' Hne) as [_ ->]. by rewrite lookup_delete_ne.
  - intros r' Hr'. assert (r' ≠ r) as Hne by (intros ->; done).
    rewrite lookup_delete_ne by done. apply C. by apply Hs.
  - intros r' m y [Hne Hy]%lookup_delete_Some. by eapply (c_wired _ _ _ C).
  - intros r' m y [Hne Hy]%lookup_delete_Some. rewrite (c_count _ _ _ C _ _ _ Hy).
    destruct (Hs r') as [Hiff ->]; [congruence|]. by rewrite (decide_ext _ _ _ _ Hiff).
  - intros r' m y [Hne Hy]%lookup_delete_Some. by eapply (c_pos _ _ _ C).
  - intros r' m y e [Hne Hy]%lookup_delete_Some He. apply Hs; [congruence|].
    by eapply (c_alive _ _ _ C).
  - intros r' m y e [Hne Hy]%lookup_delete_Some He. by eapply (c_complete _ _ _ C).
  - intros r' e q Hqd. destruct (c_queued _ _ _ C _ _ _ Hqd) as (m & y & Hy & Hrest).
    assert (r' ≠ r) as Hne by (intros ->; by eapply Hnq).
    exists m, y. by rewrite lookup_delete_ne.
  - intros r' e Hin. destruct (decide (r = r')) as [<-|Hne].
    + right. rewrite lookup_delete_eq.
      destruct (c_flying _ _ _ C _ _ Hin) as [(m & y & Hy & He)|(? & _)]; [|congruence].
      rewrite Hx in Hy. injection Hy as <- <-. by apply Hp in He.
    + rewrite lookup_delete_ne by done. by apply C.
Qed.

(** ** A new listening object *)

Lemma core_spawn ex w x s' :
  core N ex w → sel_inv s' → wired (next_ptr w) x → event_queue_ x < N →
  (∀ e, is_pending x e = true ↔ e = DONE ∨ e = NEW_CONNECTION) →
  core N ex (mkWorld (insert (next_ptr w) (1, x) (heap_ w)) (S (next_ptr w))
    ({[next_ptr w]} ∪ rpcs_ w) (shutting_down_ w) (event_queues w) s' (context_ w)
    (inflight w ++ [(next_ptr w, DONE); (next_ptr w, NEW_CONNECTION)]) (started w)
    (weak_refs w) (threads w) (grpc_calls w) (enqueued w) (callbacks w) (spans w)
    (written w)).
Proof.
  intros C Hsel Hw Hq Hp. set (r := next_ptr w) in *.
  destruct (c_fresh _ _ _ C r) as (Hn & Hs & Hm & Hi & Hh & He); [done|].
  split; simpl; try (apply C); try done.
  - apply NoDup_app. split_and!; [apply C| |apply NoDup_cons; split;
      [set_solver|apply NoDup_singleton]].
    intros [r' e'] Hin. rewrite !elem_of_cons, elem_of_nil. intros [[= -> ->]|[[= -> ->]|[]]];
      by eapply Hi.
  - intros r' Hr'. destruct (c_fresh _ _ _ C r') as (? & ? & ? & Hi' & ? & ?); [lia|].
    rewrite lookup_insert_ne by lia. split_and!; try done. intros e.
    rewrite elem_of_app, !elem_of_cons, elem_of_nil.
    intros [?|[[= ? _]|[[= ? _]|[]]]]; [by eapply Hi'|lia|lia].
  - intros r' [->%elem_of_singleton|Hr']%elem_of_union; [rewrite lookup_insert_eq; by eexists|].
    destruct (decide (r = r')) as [<-|]; [rewrite lookup_insert_eq; by eexists|].
    rewrite lookup_insert_ne by done. by apply C.
  - intros r' m y [[-> [= <- <-]]|[Hne Hy]]%lookup_insert_Some; [done|by eapply C].
  - intros r' m y [[<- [= <- <-]]|[Hne Hy]]%lookup_insert_Some.
    + rewrite decide_True by set_solver. unfold holders in *. simpl. lia.
    + rewrite (c_count _ _ _ C _ _ _ Hy). unfold holders. simpl.
      rewrite (decide_ext (r' ∈ {[r]} ∪ rpcs_ w) (r' ∈ rpcs_ w)); [done|set_solver].
  - intros r' m y [[-> [= <- <-]]|[Hne Hy]]%lookup_insert_Some; [lia|by eapply (c_pos _ _ _ C)].
  - intros r' m y e [[-> [= <- <-]]|[Hne Hy]]%lookup_insert_Some Hpe; [set_solver|].
    apply elem_of_union_r. by eapply (c_alive _ _ _ C).
  - intros r' m y e [[<- [= <- <-]]|[Hne Hy]]%lookup_insert_Some Hpe.
    + left. apply Hp in Hpe as [->| ->]; set_solver.
    + destruct (c_complete _ _ _ C _ _ _ _ Hy Hpe); [left; set_solver|by right].
  - intros r' e q Hqd. destruct (c_queued _ _ _ C _ _ _ Hqd) as (m & y & Hy & ? & ? & Hni & ?).
    assert (r ≠ r') as Hne by (intros <-; congruence).
    exists m, y. rewrite lookup_insert_ne by done. split_and!; try done.
    rewrite elem_of_app, !elem_of_cons, elem_of_nil. intros [?|[[= ? _]|[[= ? _]|[]]]]; congruence.
  - intros r' e. rewrite elem_of_app, !elem_of_cons, elem_of_nil. intros [Hin|Hnew].
    + assert (r ≠ r') as Hne by (intros <-; by eapply Hi).
      rewrite lookup_insert_ne by done. by apply C.
    + left. destruct Hnew as [[= -> ->]|[[= -> ->]|[]]]; exists 1, x;
        rewrite lookup_insert_eq, Hp; auto.
  - intros r'. rewrite elem_of_app, !elem_of_cons, elem_of_nil.
    intros [?|[[=]|[[= ->]|[]]]]; [by apply (c_listen _ _ _ C)|done].
Qed.

(** ** Threads *)

Lemma holders_app w l r :
  holders (upd_threads (λ _, l) w) r = length (filter (λ t, wt_rpc t = r) l).
Proof. done. Qed.

(** A change of the list of threads that keeps count of who holds what. *)
Lemma core_threads ex ex' w l :
  core N ex w →
  (∀ r, holders w r + ex r = length (filter (λ t, wt_rpc t = r) l) + ex' r) →
  core N ex' (upd_threads (λ _, l) w).
Proof.
  intros C Hl. split; try (apply C).
  - intros r Hr. destruct (c_fresh _ _ _ C r Hr) as (? & ? & ? & ? & Hh & He).
    rewrite holders_app. specialize (Hl r). split_and!; try done; lia.
  - intros r n x Hx. rewrite holders_app. simpl in *.
    pose proof (c_count _ _ _ C _ _ _ Hx). specialize (Hl r). lia.
Qed.

Lemma holders_snoc w t r ex :
  holders w r + bump (wt_rpc t) ex r =
  length (filter (λ t, wt_rpc t = r) (threads w ++ [t])) + ex r.
Proof.
  rewrite filter_app, length_app. unfold holders, bump. simpl.
  destruct (decide (r = wt_rpc t)) as [->|Hne].
  - rewrite filter_cons_True by done. simpl. lia.
  - rewrite filter_cons_False by congruence. simpl. lia.
Qed.

Lemma holders_delete w i t r ex :
  threads w !! i = Some t →
  holders w r + ex r =
  length (filter (λ t, wt_rpc t = r) (delete i (threads w))) + bump (wt_rpc t) ex r.
Proof.
  intros Hi. unfold holders, bump. rewrite delete_take_drop.
  rewrite <- (take_drop_middle _ _ _ Hi) at 1. rewrite !filter_app, !length_app.
  destruct (decide (r = wt_rpc t)) as [->|Hne].
  - rewrite filter_cons_True by done. simpl. lia.
  - rewrite filter_cons_False by congruence. lia.
Qed.

Lemma holders_insert w i t t' r :
  threads w !! i = Some t → wt_rpc t' = wt_rpc t →
  holders w r = length (filter (λ t, wt_rpc t = r) (<[i:=t']> (threads w))).
Proof.
  intros Hi Ht. unfold holders. rewrite insert_take_drop by (by eapply lookup_lt_Some).
  rewrite <- (take_drop_middle _ _ _ Hi) at 1. rewrite !filter_app, !length_app.
  rewrite !filter_cons, Ht. by destruct (decide (wt_rpc t = r)).
Qed.

Lemma holders_pos w t : t ∈ threads w → 0 < holders w (wt_rpc t).
Proof.
  intros Ht. unfold holders.
  assert (t ∈ filter (λ t', wt_rpc t' = wt_rpc t) (threads w)) as Hin
    by (by apply list_elem_of_filter).
  destruct (filter _ _); [set_solver|simpl; lia].
Qed.

Lemma holders_zero w r : (∀ t, t ∈ threads w → wt_rpc t ≠ r) → holders w r = 0.
Proof.
  intros Hr. unfold holders. destruct (filter _ (threads w)) as [|t l] eqn:Hf; [done|].
  assert (t ∈ filter (λ t', wt_rpc t' = r) (threads w)) as Hin by (rewrite Hf; left).
  apply list_elem_of_filter in Hin as [? Hin]. by apply Hr in Hin.
Qed.

End lemmas.
