(* ===== verification/ServiceHandlers.v ===== *)
(** * Specifications of the operations of [Rpc] and [Service]

    Each operation, run while its object is the one being handled, returns
    normally and keeps the invariant.  The triples are stated with [wp], so
    they include the absence of failed checks, null pointers and accesses to
    destroyed objects. *)

From Stdlib Require Import ZArith Lia.
From stdpp Require Import base option list strings gmap.
From S2P Require Import Prelude Interfaces BlockingQueue Rpc Service ServiceInv ServiceLemmas.
Import Event EventDeleter.

Set Default Proof Using "Type".

Section handlers.
Context `{GrpcStatus, Application, EventQueueSelector} (N : nat) `{!SelectorOk N}.

(** The objects other threads are handling. *)
Context {busy : gset RpcPtr}.
#[local] Abbreviation handling N := (handling_among N (busy := busy)).

(** ** Primitive operations *)

Lemma heap_upd_eq p y w : heap_ (upd_heap (insert p y) w) !! p = Some y.
Proof. apply lookup_insert_eq. Qed.

Lemma wp_deref p n x (Q : Rpc → World → Prop) w :
  heap_ w !! p = Some (n, x) → Q x w → wp (deref p) Q w.
Proof. unfold wp, deref. by intros -> HQ. Qed.

Lemma wp_store p f n x (Q : unit → World → Prop) w :
  heap_ w !! p = Some (n, x) → Q tt (upd_heap (insert p (n, f x)) w) → wp (store p f) Q w.
Proof. unfold wp, store. by intros -> HQ. Qed.

Lemma wp_GetRpcEvent p e n x ev (Q : CompletionQueueRpcEvent → World → Prop) w :
  heap_ w !! p = Some (n, x) → event_member x e = Some ev → Q ev w → wp (GetRpcEvent p e) Q w.
Proof. intros Hx He HQ. apply wp_bind. eapply wp_deref; [done|]. by rewrite He. Qed.

Lemma wp_SetRpcEventState p e b n x (Q : unit → World → Prop) w :
  heap_ w !! p = Some (n, x) → e ≠ WRITE_NEEDED →
  Q tt (upd_heap (insert p (n, update_event_member e (set_pending b) x)) w) →
  wp (SetRpcEventState p e b) Q w.
Proof.
  intros Hx He HQ. apply wp_bind.
  destruct (event_member x e) as [ev|] eqn:Hev; [|by destruct e].
  eapply wp_GetRpcEvent; [done|done|]. by eapply wp_store.
Qed.

Lemma wp_IsRpcEventPending p e n x (Q : bool → World → Prop) w :
  heap_ w !! p = Some (n, x) → e ≠ WRITE_NEEDED → Q (is_pending x e) w →
  wp (IsRpcEventPending p e) Q w.
Proof.
  intros Hx He HQ. apply wp_bind. unfold is_pending in HQ.
  destruct (event_member x e) as [ev|] eqn:Hev; [|by destruct e].
  by eapply wp_GetRpcEvent.
Qed.

Lemma wp_IsAnyEventPending p n x (Q : bool → World → Prop) w :
  heap_ w !! p = Some (n, x) →
  Q (is_pending x DONE || is_pending x READ || is_pending x WRITE || is_pending x FINISH) w →
  wp (IsAnyEventPending p) Q w.
Proof.
  intros Hx HQ. unfold IsAnyEventPending.
  repeat (apply wp_bind; eapply wp_IsRpcEventPending; [done|done|]). done.
Qed.

Lemma wp_push_event q p bq (Q : unit → World → Prop) w :
  event_queues w !! q = Some bq → queue_size_ bq = kInfiniteQueueSize →
  Q tt (upd_event_queues (insert q (push_back p bq)) w) → wp (push_event q p) Q w.
Proof. unfold wp, push_event. intros -> Hsz HQ. by rewrite Push_infinite. Qed.

Lemma wp_GetWeakPtr p (Q : RpcPtr → World → Prop) w :
  p ∈ rpcs_ w → Q p w → wp (ActiveRpcs_GetWeakPtr p) Q w.
Proof.
  intros Hp HQ. apply wp_bind, wp_bind, wp_check; [by apply bool_decide_eq_true|done].
Qed.

Lemma wp_use_stream (b : bool) o (Q : StreamObject → World → Prop) w :
  b = true → Q o w → wp (use_stream b o) Q w.
Proof. by intros ->. Qed.

(** ** The invariant during handling *)

Definition keeps (f : Rpc → Rpc) : Prop :=
  ∀ r x, event_queue_ (f x) = event_queue_ x ∧ (wired r x → wired r (f x)) ∧
    ∀ e, is_pending (f x) e = is_pending x e.

Lemma keeps_send_queue g : keeps (set_send_queue g).
Proof. intros r x. split_and!; [done|done|by intros []]. Qed.
Lemma keeps_handler g : keeps (set_handler g).
Proof. intros r x. split_and!; [done|done|by intros []]. Qed.
Lemma keeps_response g : keeps (set_response g).
Proof. intros r x. split_and!; [done|done|by intros []]. Qed.

Lemma handling_store ex this (P Q : Rpc → Prop) f n x w :
  handling N ex this P w → heap_ w !! this = Some (n, x) → keeps f → Q (f x) →
  handling N ex this Q (upd_heap (insert this (n, f x)) w).
Proof.
  intros [C O T A B] Hx Hf HQ. destruct (Hf this x) as (Hq & Hw & Hp). split; simpl.
  - eapply core_store; eauto. apply Hw. by eapply (c_wired _ _ _ C).
  - intros r m y Hne. rewrite lookup_insert_ne by done. by apply O.
  - done.
  - done.
  - exists n, (f x). by rewrite lookup_insert_eq.
Qed.

Lemma handling_arm ex this (P Q : Rpc → Prop) e x x' n w :
  handling N ex this P w → heap_ w !! this = Some (n, x) → is_pending x e = false →
  event_queue_ x' = event_queue_ x → wired this x' →
  e ≠ NEW_CONNECTION → is_pending x' e = true →
  (∀ e', e' ≠ e → is_pending x' e' = is_pending x e') → Q x' →
  handling N ex this Q
    (upd_inflight (λ l, l ++ [(this, e)]) (upd_heap (insert this (n, x')) w)).
Proof.
  intros [C O T A B] Hx Hpe Hq Hw Hne Hpe' Hp HQ. split; simpl.
  - by eapply core_arm.
  - intros r m y Hner. rewrite lookup_insert_ne by done. by apply O.
  - done.
  - done.
  - exists n, x'. by rewrite lookup_insert_eq.
Qed.

Lemma mentioned_push w q bq p r :
  event_queues w !! q = Some bq →
  mentioned (upd_event_queues (insert q (push_back p bq)) w) r →
  mentioned w r ∨ weak_in p = Some r.
Proof.
  intros Hq [?|(q' & b & Hb & Hin)]; [by left; left|]. simpl in Hb.
  apply list_lookup_insert_Some in Hb as [(-> & <- & _)|[Hne Hb]]; [|by left; right; eauto].
  rewrite weaks_push_back in Hin. apply elem_of_app in Hin as [Hin|Hin]; [left; right; eauto|].
  right. destruct (weak_in p) as [r'|]; [|set_solver].
  apply list_elem_of_singleton in Hin. congruence.
Qed.

Lemma phase_mentioned w w' r x :
  started w' = started w → (mentioned w' r → mentioned w r) → phase w r x → phase w' r x.
Proof.
  unfold phase. intros -> Hm. destruct (is_pending x NEW_CONNECTION); [|done]. tauto.
Qed.

Lemma handling_queue ex this P w :
  handling N ex this P w → ∃ n x bq, heap_ w !! this = Some (n, x) ∧ P x ∧
    event_queues w !! event_queue_ x = Some bq ∧ queue_size_ bq = kInfiniteQueueSize.
Proof.
  intros [C O T A (n & x & Hx & HP)]. destruct (c_wired _ _ _ C _ _ _ Hx) as [_ Hq].
  rewrite <- (c_len _ _ _ C) in Hq. apply lookup_lt_is_Some in Hq as [bq Hbq].
  exists n, x, bq. split_and!; try done. by apply (c_queues _ _ _ C) in Hbq as [? _].
Qed.

Lemma handling_push ex this P w n x bq :
  handling N ex this P w → heap_ w !! this = Some (n, x) →
  event_queues w !! event_queue_ x = Some bq →
  handling N ex this P (upd_event_queues (insert (event_queue_ x)
    (push_back (mkUniqueEventPtr (InternalRpcEvent WRITE_NEEDED this) DELETE) bq)) w).
Proof.
  intros [C O T A B] Hx Hbq. split; try done.
  - apply core_push_internal; [done|done|by eapply core_heap_lt].
  - intros r m y Hne Hb Hy. apply (phase_mentioned w); [done| |by eapply O].
    intros [?|[= ->]]%mentioned_push; done.
Qed.

(** ** Calls from handlers back into their [Rpc] *)

Definition stable_send (P : Rpc → Prop) : Prop := ∀ x g, P x → P (set_send_queue g x).

Lemma wp_push_write_needed ex this P w :
  handling N ex this P w → wp (push_write_needed this this) (λ _, handling N ex this P) w.
Proof.
  intros Hh. destruct (handling_queue _ _ _ _ Hh) as (n & x & bq & Hx & HP & Hbq & Hsz).
  apply wp_bind. eapply wp_deref; [done|]. eapply wp_push_event; [done|done|].
  by eapply handling_push.
Qed.

Lemma wp_EnqueueMessage ex this P item w :
  handling N ex this P w → stable_send P →
  wp (EnqueueMessage this item) (λ _, handling N ex this P) w.
Proof.
  intros Hh HP. pose proof (h_obj _ _ _ _ _ Hh) as (n & x & Hx & HPx).
  apply wp_bind. eapply wp_store; [done|]. apply wp_modify.
  eapply handling_view; [|eapply handling_store; eauto using keeps_send_queue]. done.
Qed.

Lemma wp_enqueue_and_push ex this P item w :
  handling N ex this P w → stable_send P →
  wp (EnqueueMessage this item ;;
      weak ← ActiveRpcs_GetWeakPtr this; push_write_needed this weak)
    (λ _, handling N ex this P) w.
Proof.
  intros Hh HP. apply wp_bind. eapply wp_mono; [by apply wp_EnqueueMessage|].
  intros [] w' Hh'. apply wp_bind, wp_GetWeakPtr; [apply Hh'|]. by apply wp_push_write_needed.
Qed.

Lemma wp_GetWriter ex this P w :
  handling N ex this P w → wp (RpcHandler_GetWriter this) (λ _, handling N ex this P) w.
Proof.
  intros Hh. apply wp_bind, wp_GetWeakPtr; [apply Hh|]. apply wp_modify.
  destruct Hh as [C O T A (n & x & Hx & HP)].
  assert (∀ r, mentioned (upd_weak_refs (λ s, {[this]} ∪ s) w) r → mentioned w r ∨ r = this)
    as Hm.
  { intros r [Hr|Hr]; [simpl in Hr|by left; right]. destruct (decide (r = this)); [by right|].
    left. left. set_solver. }
  split; simpl; try done.
  - destruct C; split; try done. simpl. intros r Hr. destruct (c_fresh r Hr) as (? & ? & ? & ?).
    split_and!; try done; [|naive_solver..]. intros [?| ->]%Hm; [done|congruence].
  - intros r m y Hne Hb Hy. apply (phase_mentioned w); [done| |by eapply O].
    intros [?|?]%Hm; done.
  - intros t Ht. destruct (T t Ht). set_solver.
  - eauto.
Qed.

Lemma wp_run_action ex this P a w :
  handling N ex this P w → stable_send P →
  wp (run_action this a) (λ _, handling N ex this P) w.
Proof.
  intros Hh HP. destruct a; simpl.
  - by apply wp_enqueue_and_push.
  - apply wp_bind. eapply wp_mono; [by apply wp_enqueue_and_push|]. intros [] w' Hh'.
    apply wp_modify. by eapply handling_view; [|exact Hh'].
  - by apply wp_GetWriter.
Qed.

Lemma wp_run_actions ex this P l w :
  handling N ex this P w → stable_send P →
  wp (for_each l (run_action this)) (λ _, handling N ex this P) w.
Proof. intros Hh HP. apply wp_for_each; [|done]. intros a w' _ Hh'. by apply wp_run_action. Qed.

(** ** Calls of handlers *)

(** What is known of the object of a connected RPC. *)
Definition connected (x : Rpc) : Prop :=
  is_pending x NEW_CONNECTION = false ∧ is_Some (handler_ x).

Definition connected_not (e : Event.t) (x : Rpc) : Prop :=
  connected x ∧ is_pending x e = false.

(** What is known of it between the connection and the handler's creation. *)
Definition connecting (x : Rpc) : Prop :=
  is_pending x NEW_CONNECTION = false ∧ handler_ x = None ∧ is_pending x READ = false.

Lemma wp_call_handler ex this e cb body w :
  handling N ex this (connected_not e) w →
  wp (call_handler this cb body) (λ _, handling N ex this (connected_not e)) w.
Proof.
  intros Hh. pose proof (h_obj _ _ _ _ _ Hh) as (n & x & Hx & [Hnc [h Hhd]] & Hpe).
  apply wp_bind. eapply wp_deref; [done|]. rewrite Hhd. apply wp_bind, wp_modify, wp_bind.
  simpl. unfold wp at 1, get. destruct (body _ _ _) as [[h' c'] acts].
  apply wp_bind. eapply wp_store; [done|]. apply wp_bind, wp_modify.
  apply wp_run_actions; [|by intros y g [[? ?] ?]].
  eapply handling_view; [|eapply (handling_store _ _ _ (connected_not e)); [exact Hh|done|
    apply (keeps_handler (λ _, Some h'))|]].
  - done.
  - destruct e; repeat split; try done; by eexists.
Qed.

Lemma wp_OnRequest ex this e w :
  handling N ex this (connected_not e) w →
  wp (OnRequest this) (λ _, handling N ex this (connected_not e)) w.
Proof.
  intros Hh. pose proof (h_obj _ _ _ _ _ Hh) as (n & x & Hx & _).
  destruct (c_wired _ _ _ (h_core _ _ _ _ _ Hh) _ _ _ Hx) as [(_ & [m Hm] & _) _].
  apply wp_bind. eapply wp_deref; [done|]. rewrite Hm. by apply wp_call_handler.
Qed.

Lemma wp_factory ex this w :
  handling N ex this connecting w →
  wp (rpc_handler_factory this) (λ _, handling N ex this connecting) w.
Proof.
  intros Hh. pose proof (h_obj _ _ _ _ _ Hh) as (n & x & Hx & _).
  apply wp_bind. eapply wp_deref; [done|]. apply wp_bind, wp_modify, wp_bind, wp_modify, wp_bind.
  simpl. unfold wp at 1, get. destruct (handler_Initialize _ _) as [[h c'] acts].
  apply wp_bind, wp_modify, wp_bind. eapply wp_mono.
  - apply wp_run_actions; [by eapply handling_view; [|exact Hh]|by intros y g (? & ? & ?)].
  - intros [] w' Hh'. exact Hh'.
Qed.

(** ** Reads *)

Lemma handling_wired ex this P w n x :
  handling N ex this P w → heap_ w !! this = Some (n, x) → wired this x.
Proof. intros Hh Hx. by eapply (c_wired _ _ _ (h_core _ _ _ _ _ Hh)). Qed.

(** The reader and writer objects an RPC of each type uses are set. *)
Lemma wired_reader r x :
  wired r x →
  match rpc_type (rpc_handler_info_ x) with
  | BIDI_STREAMING => server_async_reader_writer_ x = true
  | CLIENT_STREAMING => server_async_reader_ x = true
  | NORMAL_RPC => server_async_response_writer_ x = true
  | SERVER_STREAMING => server_async_writer_ x = true
  end.
Proof. intros [Hi _]. destruct (rpc_type _); simpl in Hi; by injection Hi. Qed.

Lemma wp_async_reader_interface this n x (Q : StreamObject → World → Prop) w :
  heap_ w !! this = Some (n, x) → wired this x →
  unary_request (rpc_type (rpc_handler_info_ x)) = false → (∀ o, Q o w) →
  wp (async_reader_interface this) Q w.
Proof.
  intros Hx Hw%wired_reader Hu HQ. apply wp_bind. eapply wp_deref; [done|].
  destruct (rpc_type _); try done; by apply wp_use_stream.
Qed.

Lemma wp_async_writer_interface this n x (Q : StreamObject → World → Prop) w :
  heap_ w !! this = Some (n, x) → wired this x →
  rpc_type (rpc_handler_info_ x) ≠ NORMAL_RPC →
  rpc_type (rpc_handler_info_ x) ≠ CLIENT_STREAMING → (∀ o, Q o w) →
  wp (async_writer_interface this) Q w.
Proof.
  intros Hx Hw%wired_reader H1' H2' HQ. apply wp_bind. eapply wp_deref; [done|].
  destruct (rpc_type _); try done; by apply wp_use_stream.
Qed.

(** Setting the flag of [e] and making the gRPC call whose tag it is. *)
Lemma handling_arm_pending ex this P e c x x' n w w' :
  handling N ex this P w → heap_ w !! this = Some (n, x) → connected_not e x →
  tag_of c = (this, e) → e ≠ NEW_CONNECTION → e ≠ WRITE_NEEDED →
  (x' = update_event_member e (set_pending true) x ∨
   ∃ m, x' = set_response (λ _, m) (update_event_member e (set_pending true) x)) →
  view w' = view (upd_inflight (λ l, l ++ [tag_of c]) (upd_heap (insert this (n, x')) w)) →
  handling N ex this (λ y, connected y ∧ is_pending y e = true) w'.
Proof.
  intros Hh Hx [[Hnc Hhd] Hpe] Htag Hne Hwn Hx' Hv. eapply handling_view; [by symmetry|].
  pose proof (handling_wired _ _ _ _ _ _ Hh Hx) as Hw.
  apply (wired_set_pending _ e true) in Hw. rewrite Htag.
  eapply handling_arm; eauto.
  - destruct Hx' as [->|[m ->]]; simpl; apply event_queue_update_event.
  - by destruct Hx' as [->|[m ->]].
  - destruct Hx' as [->|[m ->]]; by destruct e.
  - intros e' Hne'. rewrite <- (is_pending_update_ne x e e' true) by done.
    destruct Hx' as [->|[m ->]]; by destruct e'.
  - destruct Hx' as [->|[m ->]]; (split; [split|]); by destruct e.
Qed.

Lemma handling_arm_call ex this P e c x x' n w w' :
  handling N ex this P w → heap_ w !! this = Some (n, x) → connected_not e x →
  tag_of c = (this, e) → e ≠ NEW_CONNECTION → e ≠ WRITE_NEEDED →
  (x' = update_event_member e (set_pending true) x ∨
   ∃ m, x' = set_response (λ _, m) (update_event_member e (set_pending true) x)) →
  view w' = view (upd_inflight (λ l, l ++ [tag_of c]) (upd_heap (insert this (n, x')) w)) →
  handling N ex this connected w'.
Proof.
  intros. eapply handling_mono; [|by eapply handling_arm_pending]. by intros y [? _].
Qed.

Lemma wp_RequestStreamingReadIfNeeded ex this w :
  handling N ex this (connected_not READ) w →
  wp (RequestStreamingReadIfNeeded this) (λ _, handling N ex this connected) w.
Proof.
  intros Hh. pose proof (h_obj _ _ _ _ _ Hh) as (n & x & Hx & Hconn).
  apply wp_bind. eapply wp_deref; [done|].
  assert (unary_request (rpc_type (rpc_handler_info_ x)) = true →
    wp (OnRequest this ;; OnReadsDone this) (λ _, handling N ex this connected) w) as Hunary.
  { intros _. apply wp_bind. eapply wp_mono; [by apply wp_OnRequest|]. intros [] w' Hh'.
    eapply wp_mono; [by apply wp_call_handler|]. intros [] w''. apply handling_mono.
    by intros y [? _]. }
  assert (unary_request (rpc_type (rpc_handler_info_ x)) = false →
    wp (SetRpcEventState this READ true ;; async_reader_interface this ;;
        GetRpcEvent this READ ;; grpc_call (Read this))
      (λ _, handling N ex this connected) w) as Hstream.
  { intros Hu. apply wp_bind. eapply wp_SetRpcEventState; [done|done|].
    apply wp_bind. eapply wp_async_reader_interface;
      [apply heap_upd_eq|by eapply wired_set_pending, handling_wired
      |done|intros o].
    apply wp_bind. eapply wp_GetRpcEvent; [apply heap_upd_eq|done|].
    apply wp_modify. eapply (handling_arm_call _ _ _ READ (Read this)); eauto. }
  destruct (rpc_type _); auto.
Qed.

Lemma wp_OnConnection ex this w :
  handling N ex this connecting w →
  wp (OnConnection this) (λ _, handling N ex this connected) w.
Proof.
  intros Hh. pose proof (h_obj _ _ _ _ _ Hh) as (n & x & Hx & Hconn & Hnone & _).
  apply wp_bind. eapply wp_deref; [done|]. rewrite Hnone.
  apply wp_bind, wp_bind. eapply wp_mono; [by apply wp_factory|]. intros h w' Hh'.
  pose proof (h_obj _ _ _ _ _ Hh') as (n' & x' & Hx' & Hnc' & _ & Hr').
  eapply wp_store; [done|]. apply wp_RequestStreamingReadIfNeeded.
  eapply handling_store; [exact Hh'|done|apply keeps_handler|].
  split; [split; [exact Hnc'|by eexists]|exact Hr'].
Qed.

(** ** Writes *)

Lemma wp_SendUnaryFinish ex this P x m s n w w' :
  handling N ex this P w → heap_ w !! this = Some (n, x) → connected_not FINISH x →
  w' = upd_heap (insert this (n, set_response (λ _, m)
         (update_event_member FINISH (set_pending true) x))) w →
  wp (SendUnaryFinish this s m) (λ _, handling N ex this connected) w'.
Proof.
  intros Hh Hx Hc ->. destruct m as [m|]; apply wp_modify;
    eapply (handling_arm_call _ _ _ FINISH (FinishWithError this s)); eauto.
Qed.

Lemma upd_heap_insert_twice this y z w :
  upd_heap (insert this z) (upd_heap (insert this y) w) = upd_heap (insert this z) w.
Proof. unfold upd_heap; simpl. by rewrite insert_insert_eq. Qed.

Lemma wp_PerformFinish ex this m s n x w :
  handling N ex this (connected_not FINISH) w → heap_ w !! this = Some (n, x) →
  (m = None ∨ rpc_type (rpc_handler_info_ x) = NORMAL_RPC ∨
   rpc_type (rpc_handler_info_ x) = CLIENT_STREAMING) →
  wp (PerformFinish this m s) (λ _, handling N ex this connected) w.
Proof.
  intros Hh Hx Hm. pose proof (h_obj _ _ _ _ _ Hh) as (n' & y & Hy & Hc). simplify_eq.
  pose proof (wired_reader _ _ (handling_wired _ _ _ _ _ _ Hh Hx)) as Hw.
  apply wp_bind. eapply wp_SetRpcEventState; [done|done|].
  apply wp_bind. eapply wp_deref; [apply heap_upd_eq|]. simpl.
  assert (m = None → wp (grpc_call (FinishStream this s)) (λ _, handling N ex this connected)
    (upd_heap (insert this (n, update_event_member FINISH (set_pending true) x)) w)) as Hs.
  { intros _. apply wp_modify. eapply (handling_arm_call _ _ _ FINISH (FinishStream this s)); eauto. }
  assert (wp (store this (set_response (λ _, m)) ;; SendUnaryFinish this s m)
    (λ _, handling N ex this connected)
    (upd_heap (insert this (n, update_event_member FINISH (set_pending true) x)) w)) as Hu.
  { apply wp_bind. eapply wp_store; [apply heap_upd_eq|].
    rewrite upd_heap_insert_twice. by eapply wp_SendUnaryFinish. }
  destruct (rpc_type (rpc_handler_info_ x)) eqn:Ht.
  - unfold wp, mbind, M_bind in *. destruct (store _ _ _) as [[] w'|]; [|done]. by rewrite Hw.
  - unfold wp, mbind, M_bind in *. destruct (store _ _ _) as [[] w'|]; [|done]. by rewrite Hw.
  - apply wp_bind, wp_check; [apply bool_decide_eq_true; naive_solver|].
    apply wp_bind, wp_use_stream; [done|]. apply Hs. naive_solver.
  - apply wp_bind, wp_check; [apply bool_decide_eq_true; naive_solver|].
    apply wp_bind, wp_use_stream; [done|]. apply Hs. naive_solver.
Qed.

Lemma wp_PerformWrite ex this m s n x w :
  handling N ex this (connected_not WRITE) w → heap_ w !! this = Some (n, x) →
  rpc_type (rpc_handler_info_ x) ≠ NORMAL_RPC →
  rpc_type (rpc_handler_info_ x) ≠ CLIENT_STREAMING →
  wp (PerformWrite this (Some m) s) (λ _, handling N ex this connected) w.
Proof.
  intros Hh Hx Ht1 Ht2. pose proof (h_obj _ _ _ _ _ Hh) as (n' & y & Hy & Hc). simplify_eq.
  apply wp_bind. eapply wp_deref; [done|].
  apply wp_bind, wp_check; [by apply bool_decide_eq_true|].
  apply wp_bind, wp_check; [by apply bool_decide_eq_true|].
  apply wp_bind. eapply wp_SetRpcEventState; [done|done|].
  apply wp_bind. eapply wp_store; [apply heap_upd_eq|].
  rewrite upd_heap_insert_twice.
  apply wp_bind. eapply wp_async_writer_interface;
    [apply heap_upd_eq| |done|done|intros o].
  - apply (keeps_response _ this), wired_set_pending, (handling_wired _ _ _ _ _ _ Hh Hx).
  - apply wp_modify. eapply (handling_arm_call _ _ _ WRITE (WriteMsg this m)); eauto.
Qed.

Lemma wp_HandleSendQueue ex this w :
  handling N ex this connected w →
  wp (HandleSendQueue this) (λ _, handling N ex this connected) w.
Proof.
  intros Hh. pose proof (h_obj _ _ _ _ _ Hh) as (n & x & Hx & Hc).
  apply wp_bind. eapply wp_deref; [done|].
  apply wp_bind. eapply wp_IsRpcEventPending; [done|done|].
  apply wp_bind. eapply wp_IsRpcEventPending; [done|done|].
  destruct (send_queue_ x) as [|item rest]; [done|].
  destruct (is_pending x WRITE) eqn:Hpw, (is_pending x FINISH) eqn:Hpf; try done. simpl.
  apply wp_bind. eapply wp_store; [done|].
  set (w' := upd_heap _ _).
  assert (∀ e, is_pending x e = false → handling N ex this (connected_not e) w') as Hh'.
  { intros e He. eapply handling_store; eauto using keeps_send_queue. split; [done|by destruct e]. }
  assert (heap_ w' !! this = Some (n, set_send_queue (λ _, rest) x)) as Hx'
    by (simpl; by rewrite lookup_insert_eq).
  destruct (bool_decide (msg item = None)) eqn:Hm; simpl.
  { apply bool_decide_eq_true in Hm. eapply wp_PerformFinish; eauto. }
  destruct (bool_decide (_ = NORMAL_RPC)) eqn:Hn; simpl.
  { apply bool_decide_eq_true in Hn. eapply wp_PerformFinish; eauto. }
  destruct (bool_decide (_ = CLIENT_STREAMING)) eqn:Hcs; simpl.
  { apply bool_decide_eq_true in Hcs. eapply wp_PerformFinish; eauto. }
  apply bool_decide_eq_false in Hm, Hn, Hcs.
  destruct (msg item) as [m|]; [|done]. eapply wp_PerformWrite; eauto.
Qed.

End handlers.
