(* ===== verification/ServiceSafety.v ===== *)
(** * Steps of a service keep the invariant and do not fail *)

From Stdlib Require Import ZArith Lia.
From stdpp Require Import base option list strings gmap.
From S2P Require Import Prelude Interfaces BlockingQueue Rpc Service ServiceInv ServiceLemmas.
From S2P Require Import ServiceHandlers.
Import Event EventDeleter.

Set Default Proof Using "Type".

Section safety.
Context `{GrpcStatus, Application, EventQueueSelector} (N : nat) `{!SelectorOk N}.

(** The invariant when no object is being handled, except that a writer may
    hold an object that is no longer active. *)
Definition settled (ex : RpcPtr → nat) (w : World) : Prop :=
  core N ex w ∧ ∀ r n x, heap_ w !! r = Some (n, x) → phase w r x.

Lemma handling_settled ex this w : handling N ex this connected w → settled ex w.
Proof.
  intros [C O T A (n & x & Hx & Hnc & Hh)]. split; [done|]. intros r m y Hy.
  destruct (decide (r = this)) as [->|Hne]; [|by eapply O].
  rewrite Hx in Hy. injection Hy as <- <-. unfold phase. by rewrite Hnc.
Qed.

(** ** Dropping objects *)

(** The heap after one shared pointer to [r] was dropped. *)
Definition dropped (r : RpcPtr) (n : nat) (x : Rpc) (h : gmap RpcPtr (nat * Rpc)) :
    gmap RpcPtr (nat * Rpc) :=
  match n with S (S m) => insert r (S m, x) h | _ => delete r h end.

(** The calls on spans after it. *)
Definition dropped_spans (r : RpcPtr) (n : nat) (x : Rpc) (l : list (RpcPtr * SpanCall)) :
    list (RpcPtr * SpanCall) :=
  match n with S (S _) => l | _ => end_span r x l end.

Lemma wp_release r n x (Q : unit → World → Prop) w :
  heap_ w !! r = Some (n, x) →
  Q tt (upd_heap (dropped r n x) (upd_spans (dropped_spans r n x) w)) → wp (release r) Q w.
Proof.
  unfold wp, release, dropped. intros ->. destruct n as [|[|n]]; [done..|]. by destruct w.
Qed.

Lemma settled_view ex w w' : view w = view w' → settled ex w → settled ex w'.
Proof.
  intros E [C Hph]. split; [by eapply core_view|]. intros r n x Hx. eapply phase_view; [done|].
  pose proof E as E'. unfold view in E'. injection E' as E1 _ _ _ _ _ _ _ _.
  eapply Hph. by rewrite E1.
Qed.

Lemma dropped_lookup r n x h r' m y :
  h !! r = Some (n, x) → dropped r n x h !! r' = Some (m, y) → ∃ m', h !! r' = Some (m', y).
Proof.
  intros Hr. destruct (decide (r = r')) as [<-|Hne].
  - intros Hy. exists n. rewrite Hr. destruct n as [|[|n]]; simpl in Hy;
      rewrite ?lookup_delete_eq, ?lookup_insert_eq in Hy; by simplify_eq.
  - destruct n as [|[|n]]; simpl; rewrite ?lookup_delete_ne, ?lookup_insert_ne by done; eauto.
Qed.

Lemma core_drop ex ex' w s' r n x :
  core N ex w → heap_ w !! r = Some (n, x) →
  (∀ r', r' ≠ r → (r' ∈ s' ↔ r' ∈ rpcs_ w) ∧ ex' r' = ex r') →
  n = S ((if decide (r ∈ s') then 1 else 0) + holders w r + ex' r) →
  (r ∉ s' → ∀ e, is_pending x e = true → e = DONE ∧ r ∉ started w ∧ n = 1) →
  core N ex' (upd_heap (dropped r n x) (upd_rpcs (λ _, s') w)).
Proof.
  intros C Hx Hs Hn Hp. destruct n as [|[|n]]; simpl; [done| |].
  - destruct (decide (r ∈ s')) as [?|Hns]; [lia|].
    eapply core_delete; [done|done|done|done|lia|]. intros e He.
    by destruct (Hp Hns e He) as (-> & ? & _).
  - eapply core_recount; [done|done|done|lia|lia|]. intros e He.
    destruct (decide (r ∈ s')) as [?|Hns]; [done|]. destruct (Hp Hns e He) as (_ & _ & ?). lia.
Qed.

Lemma settled_drop ex ex' w s' r n x :
  settled ex w → heap_ w !! r = Some (n, x) →
  (∀ r', r' ≠ r → (r' ∈ s' ↔ r' ∈ rpcs_ w) ∧ ex' r' = ex r') →
  n = S ((if decide (r ∈ s') then 1 else 0) + holders w r + ex' r) →
  (r ∉ s' → ∀ e, is_pending x e = true → e = DONE ∧ r ∉ started w ∧ n = 1) →
  settled ex' (upd_heap (dropped r n x) (upd_rpcs (λ _, s') w)).
Proof.
  intros [C Hph] Hx Hs Hn Hp. split; [by eapply core_drop|].
  simpl. intros r' m y Hy. destruct (dropped_lookup _ _ _ _ _ _ _ Hx Hy) as [m' Hm'].
    by eapply Hph.
Qed.

Lemma wp_ActiveRpcs_Remove ex this n x w :
  settled ex w → heap_ w !! this = Some (n, x) → this ∈ rpcs_ w →
  (∀ e, is_pending x e = true → e = DONE ∧ this ∉ started w ∧ n = 1) →
  wp (ActiveRpcs_Remove this) (λ b w', b = true ∧ settled ex w' ∧
    w' = upd_heap (dropped this n x) (upd_spans (dropped_spans this n x)
      (upd_rpcs (λ s, s ∖ {[this]}) w))) w.
Proof.
  intros Hs Hx Hact Hp. apply wp_bind. unfold wp at 1, get. rewrite decide_True by done.
  apply wp_bind, wp_modify, wp_bind. eapply wp_release; [done|].
  split_and!; [done| |done].
  eapply settled_view; [|eapply (settled_drop ex _ _ (rpcs_ w ∖ {[this]})); [done|done| | |]]; [done|..|done].
  - set_solver.
  - destruct Hs as [C _]. rewrite (c_count _ _ _ C _ _ _ Hx), decide_True by done.
    rewrite decide_False by set_solver. lia.
Qed.

Lemma wp_RemoveIfNotPending ex this w :
  handling N ex this connected w →
  wp (RemoveIfNotPending this) (λ _ w', settled ex w' ∧
    (0 < ex this → is_Some (heap_ w' !! this))) w.
Proof.
  intros Hh. pose proof (handling_settled _ _ _ Hh) as Hs.
  destruct Hh as [C O T A (n & x & Hx & Hnc & Hhd)].
  apply wp_bind. eapply wp_IsAnyEventPending; [done|].
  destruct (_ || _) eqn:Hany; simpl; [split; [done|by rewrite Hx]|].
  rewrite !orb_false_iff in Hany. destruct Hany as (((Hd & Hr) & Hw) & Hf).
  apply wp_bind. eapply wp_mono; [apply wp_ActiveRpcs_Remove; [done|done|done|]|].
  - intros [] ?; try congruence; done.
  - intros b w' (_ & Hs' & ->). split; [done|]. simpl. intros Hex.
    rewrite (c_count _ _ _ C _ _ _ Hx), decide_True by done.
    destruct (holders w this + ex this) as [|k] eqn:E; [lia|].
    simpl. rewrite <- Nat.add_assoc, E || rewrite E. simpl. rewrite lookup_insert_eq. eauto.
Qed.

(** ** Creating listening objects *)

(** The object as it is after [RequestNextMethodInvocation]. *)
Definition listening (x : Rpc) : Rpc :=
  update_event_member NEW_CONNECTION (set_pending true)
    (update_event_member DONE (set_pending true) x).

Lemma inv_settled w : inv N w → settled (λ _, 0) w.
Proof. by intros (? & ? & _). Qed.

Lemma inv_active w r n x : inv N w → heap_ w !! r = Some (n, x) → r ∈ rpcs_ w.
Proof.
  intros (C & _ & T) Hx. destruct (decide (r ∈ rpcs_ w)) as [?|Hn]; [done|].
  pose proof (c_count _ _ _ C _ _ _ Hx) as Hc. pose proof (c_pos _ _ _ C _ _ _ Hx).
  rewrite decide_False in Hc by done. rewrite (holders_zero w r) in Hc; [lia|].
  intros t Ht <-. by destruct (T t Ht).
Qed.

Lemma is_pending_listening x e :
  (∀ e, is_pending x e = false) →
  is_pending (listening x) e = true ↔ e = DONE ∨ e = NEW_CONNECTION.
Proof.
  intros Hp. specialize (Hp e). destruct e; unfold is_pending in *; simpl in *;
    (split; [intros ?; auto; congruence|by intros [?|?]]).
Qed.

Lemma inv_spawn w w' x :
  inv N w → sel_inv (selector_ w') → wired (next_ptr w) x → handler_ x = None →
  event_queue_ x < N → (∀ e, is_pending x e = false) →
  view w' = (<[next_ptr w := (1, listening x)]> (heap_ w), S (next_ptr w),
    {[next_ptr w]} ∪ rpcs_ w, event_queues w,
    inflight w ++ [(next_ptr w, DONE); (next_ptr w, NEW_CONNECTION)], started w, weak_refs w,
    threads w, selector_ w') →
  inv N w'.
Proof.
  intros (C & Hph & Hthr) Hsel Hw Hhd Hq Hp Hv. set (p := next_ptr w) in *.
  destruct (c_fresh _ _ _ C p) as (Hn & Hst & Hm & _); [done|].
  assert (wired p (listening x)) as Hwl by (by apply wired_set_pending, wired_set_pending).
  pose proof (core_spawn N (λ _, 0) w (listening x) (selector_ w') C Hsel Hwl Hq
    (λ e, is_pending_listening x e Hp)) as C'.
  split_and!.
  - eapply core_view; [|exact C']. by rewrite Hv.
  - unfold view in Hv. injection Hv as -> E2 E3 E4 E5 E6 E7 E8.
    intros r n y Hy. unfold phase, mentioned. rewrite E4, E6, E7.
    apply lookup_insert_Some in Hy as [[<- [= <- <-]]|[Hne Hy]]; [|by eapply Hph].
    simpl. split_and!; [done|apply (Hp READ)|apply (Hp WRITE)|apply (Hp FINISH)|done|done|done].
  - unfold view in Hv. injection Hv as E1 E2 E3 E4 E5 E6 E7 E8. rewrite E3, E7, E8.
    intros t Ht. destruct (Hthr t Ht). set_solver.
Qed.

(** [active_rpcs_.Add(rpc)->RequestNextMethodInvocation()] on a new object. *)
Lemma wp_register w w1 x (Q : unit → World → Prop) :
  inv N w → sel_inv (selector_ w1) → wired (next_ptr w) x → handler_ x = None →
  event_queue_ x < N → (∀ e, is_pending x e = false) →
  view w1 = (<[next_ptr w := (0, x)]> (heap_ w), S (next_ptr w), rpcs_ w, event_queues w,
    inflight w, started w, weak_refs w, threads w, selector_ w1) →
  (∀ w', inv N w' → heap_ w' = <[next_ptr w := (1, listening x)]> (heap_ w) →
     next_ptr w' = S (next_ptr w) → shutting_down_ w' = shutting_down_ w1 → Q tt w') →
  wp (ActiveRpcs_Add (next_ptr w) ;; RequestNextMethodInvocation (next_ptr w) ;;
      release (next_ptr w)) Q w1.
Proof.
  intros Hinv Hsel Hw Hhd Hq Hp Hv HQ. unfold view in Hv. injection Hv as E1 E2 E3 E4 E5 E6 E7 E8.
  pose proof (inv_spawn w) as Hspawn. set (p := next_ptr w) in *.
  apply wp_bind, wp_bind. unfold wp at 1, get. apply wp_bind, wp_check.
  { apply bool_decide_eq_true. rewrite E3.
    intros [? Hy]%(c_active _ _ _ (proj1 Hinv)).
    destruct (c_fresh _ _ _ (proj1 Hinv) p) as [? _]; [done|]. congruence. }
  apply wp_bind, wp_modify.
  unfold lock, wp, mbind, M_bind, mret, M_ret; simpl. rewrite E1, lookup_insert_eq; simpl.
  rewrite lookup_insert_eq; simpl.
  unfold RequestNextMethodInvocation, SetRpcEventState, GetRpcEvent, streaming_interface, deref,
    store, grpc_call, modify, release, mbind, M_bind, mret, M_ret; simpl.
  repeat (rewrite lookup_insert_eq; simpl).
  pose proof (wired_reader _ _ Hw) as Hstream.
  destruct (rpc_type (rpc_handler_info_ x)) eqn:Ht; simpl; rewrite Hstream; simpl;
    repeat (rewrite lookup_insert_eq; simpl); apply HQ; simpl;
    rewrite ?E1, ?E2, ?insert_insert_eq; try done;
    (eapply Hspawn; eauto); unfold view; simpl;
    by rewrite E1, E2, E3, E4, E5, E6, E7, E8, ?insert_insert_eq, <- app_assoc.
Qed.

Lemma wp_event_queue_selector (Q : QueuePtr → World → Prop) w :
  sel_inv (selector_ w) →
  (∀ q s', q < N → sel_inv s' → Q q (upd_selector (λ _, s') w)) →
  wp event_queue_selector_ Q w.
Proof.
  intros Hs HQ. pose proof (sel_next_ok _ Hs) as Hn. unfold wp, event_queue_selector_ in *.
  destruct (sel_next (selector_ w)) as [q s'|]; [|done]. destruct Hn. by apply HQ.
Qed.

Lemma Rpc_new_wired p mi cq q info :
  wired p (Rpc_new p mi cq q info) ∧ handler_ (Rpc_new p mi cq q info) = None ∧
  event_queue_ (Rpc_new p mi cq q info) = q ∧
  ∀ e, is_pending (Rpc_new p mi cq q info) e = false.
Proof.
  unfold Rpc_new. destruct (InitializeReadersAndWriters (rpc_type info)) as [[[a b] c] d] eqn:E.
  split_and!; try done; [|by intros []].
  split_and!; [done|by eexists|]. intros [] ev Hev; simpl in Hev; by simplify_eq.
Qed.

(** The tail of [HandleNewConnection]: a clone takes over listening. *)
Lemma wp_replace_listener this n x (Q : unit → World → Prop) w :
  inv N w → heap_ w !! this = Some (n, x) →
  (∀ w' q, inv N w' → q < N → shutting_down_ w' = shutting_down_ w →
     next_ptr w' = S (next_ptr w) →
     heap_ w' = <[next_ptr w := (1, listening (set_event_queue (λ _, q)
       (Rpc_new (next_ptr w) (method_index_ x) (server_completion_queue_ x) (event_queue_ x)
         (rpc_handler_info_ x))))]> (heap_ w) → Q tt w') →
  wp (new_rpc ← Clone this;
      q ← event_queue_selector_;
      SetEventQueue new_rpc q ;;
      ActiveRpcs_Add new_rpc ;;
      RequestNextMethodInvocation new_rpc ;;
      release new_rpc) Q w.
Proof.
  intros Hinv Hx HQ. apply wp_bind, wp_bind. eapply wp_deref; [done|].
  apply wp_bind. unfold wp at 1, get. apply wp_bind, wp_modify, wp_ret, wp_bind.
  apply wp_event_queue_selector; [apply Hinv|]. intros q s' Hq Hs.
  apply wp_bind. eapply wp_store; [simpl; apply lookup_insert_eq|].
  destruct (Rpc_new_wired (next_ptr w) (method_index_ x) (server_completion_queue_ x)
    (event_queue_ x) (rpc_handler_info_ x)) as (Hw & Hh & _ & Hp).
  eapply (wp_register w _ (set_event_queue (λ _, q) _)); [exact Hinv|done| |exact Hh|exact Hq| | |].
  - exact Hw.
  - intros e. specialize (Hp e). by destruct e.
  - unfold view; simpl. by rewrite insert_insert_eq.
  - intros w' Hinv' E1 E2 E3. by eapply HQ.
Qed.

Lemma wp_start_one i cq info (Q : unit → World → Prop) w :
  inv N w →
  (∀ w' q, inv N w' → q < N → shutting_down_ w' = shutting_down_ w →
     next_ptr w' = S (next_ptr w) →
     heap_ w' = <[next_ptr w := (1, listening (Rpc_new (next_ptr w) i cq q info))]> (heap_ w) →
     Q tt w') →
  wp (q ← event_queue_selector_;
      rpc ← make_unique_Rpc i cq q info;
      ActiveRpcs_Add rpc ;;
      RequestNextMethodInvocation rpc ;;
      release rpc) Q w.
Proof.
  intros Hinv HQ. apply wp_bind, wp_event_queue_selector; [apply Hinv|]. intros q s' Hq Hs.
  apply wp_bind, wp_bind. unfold wp at 1, get. apply wp_bind, wp_modify, wp_ret. simpl.
  destruct (Rpc_new_wired (next_ptr w) i cq q info) as (Hw & Hh & Hqe & Hp).
  eapply wp_register; [exact Hinv|done|exact Hw|exact Hh|by rewrite Hqe|exact Hp|done|].
  intros w' Hinv' E1 E2 E3. by eapply HQ.
Qed.

Lemma inv_init s c : sel_inv s → inv N (world_init N s c).
Proof.
  intros Hs. split_and!; [|done|simpl; set_solver].
  assert (∀ q (bq : BlockingQueue UniqueEventPtr),
    replicate N BlockingQueue_default !! q = Some bq → bq = BlockingQueue_default) as Hq.
  { by intros q bq [-> _]%lookup_replicate. }
  split; simpl; try done.
  - apply length_replicate.
  - intros q bq ->%Hq. repeat split; constructor.
  - constructor.
  - intros r _. split_and!; try done; [|set_solver].
    intros [?|(q & bq & ->%Hq & Hin)]; [done|]. by apply elem_of_nil in Hin.
  - intros r e q (bq & ->%Hq & Hin). by apply elem_of_nil in Hin.
  - set_solver.
Qed.

Lemma wp_StartServing infos cqs w :
  inv N w → shutting_down_ w = false →
  wp (StartServing infos cqs) (λ _ w', inv N w' ∧ shutting_down_ w' = false) w.
Proof.
  unfold StartServing. generalize 0 as i. revert w.
  induction infos as [|info infos IH]; intros w i Hinv Hsd; [done|].
  apply wp_bind. eapply wp_mono.
  - apply (wp_for_each _ _ (λ w, inv N w ∧ shutting_down_ w = false)); [|done].
    intros cq w' _ [Hinv' Hsd']. apply wp_start_one; [done|]. intros w'' q ? _ -> _ _. done.
  - intros [] w' [Hinv' Hsd']. by apply IH.
Qed.

(** ** Handling of events *)

Lemma handling_inv this w : handling N (λ _, 0) this connected w → inv N w.
Proof.
  intros Hh. destruct (handling_settled _ _ _ Hh) as [C Hph]. split_and!; [done|done|].
  apply Hh.
Qed.

Lemma wp_HandleNewConnection_ok this w :
  handling N (λ _, 0) this connecting w → shutting_down_ w = false →
  wp (HandleNewConnection this true) (λ _ w', settled (λ _, 0) w') w.
Proof.
  intros Hh Hsd. apply wp_bind. unfold wp at 1, get. rewrite Hsd. simpl.
  apply wp_bind, wp_ret, wp_bind. eapply wp_mono; [by apply wp_OnConnection|].
  intros [] w' Hh'. pose proof (h_obj _ _ _ _ _ Hh') as (n & x & Hx & _).
  eapply wp_replace_listener; [by eapply handling_inv|done|].
  intros w'' q Hinv _ _ _ _. by apply inv_settled.
Qed.

Lemma wp_HandleNewConnection_refused this x ok w :
  core N (λ _, 0) w → heap_ w !! this = Some (1, x) → this ∈ rpcs_ w →
  (∀ r n y, r ≠ this → heap_ w !! r = Some (n, y) → phase w r y) →
  shutting_down_ w = true → (∀ e, is_pending x e = true → e = DONE ∧ this ∉ started w) →
  wp (HandleNewConnection this ok) (λ _ w', settled (λ _, 0) w') w.
Proof.
  intros C Hx Hact Hph Hsd Hp. apply wp_bind. unfold wp at 1, get. rewrite Hsd.
  apply wp_bind, wp_bind. unfold wp at 1, get. rewrite decide_True by done.
  apply wp_bind, wp_modify, wp_bind. eapply wp_release; [done|].
  eapply (settled_view _ (upd_heap (delete this) (upd_rpcs (λ s, s ∖ {[this]}) w))); [done|]. split.
  - eapply core_delete; [done|done| |set_solver|done|done]. set_solver.
  - simpl. intros r n y [Hne Hy]%lookup_delete_Some. eapply Hph; [congruence|done].
Qed.

Lemma wp_HandleEvent_connected ex this e ok w :
  handling N ex this (connected_not e) w → e ≠ NEW_CONNECTION →
  wp (HandleEvent e this ok) (λ _ w', settled ex w' ∧
    (0 < ex this → is_Some (heap_ w' !! this))) w.
Proof.
  intros Hh Hne.
  assert (handling N ex this connected w) as Hc by (eapply handling_mono; [|done]; by intros y []).
  assert (∀ w', handling N ex this connected w' →
    settled ex w' ∧ (0 < ex this → is_Some (heap_ w' !! this))) as Hkeep.
  { intros w' Hh'. split; [by eapply handling_settled|]. intros _.
    destruct (h_obj _ _ _ _ _ Hh') as (n & x & -> & _). by eexists. }
  assert (∀ cb body, wp (call_handler this cb body ;; RemoveIfNotPending this)
    (λ _ w', settled ex w' ∧ (0 < ex this → is_Some (heap_ w' !! this))) w) as Hcall.
  { intros cb body. apply wp_bind. eapply wp_mono; [by apply wp_call_handler|].
    intros [] w' Hh'. apply wp_RemoveIfNotPending. eapply handling_mono; [|done]. by intros y []. }
  assert (wp (HandleSendQueue this ;; RemoveIfNotPending this)
    (λ _ w', settled ex w' ∧ (0 < ex this → is_Some (heap_ w' !! this))) w) as Hsend.
  { apply wp_bind. eapply wp_mono; [by apply wp_HandleSendQueue|]. intros [] w' Hh'.
    by apply wp_RemoveIfNotPending. }
  destruct e; simpl; try done.
  - destruct ok; [|by apply Hcall].
    apply wp_bind. eapply wp_mono; [by apply wp_OnRequest|]. intros [] w' Hh'.
    eapply wp_mono; [by apply wp_RequestStreamingReadIfNeeded|]. intros [] w'' Hh''.
    by apply Hkeep.
  - by apply Hcall.
  - by apply wp_RemoveIfNotPending.
Qed.

(** ** Steps *)

Lemma wp_pop_event q bq (Q : option UniqueEventPtr → World → Prop) w :
  event_queues w !! q = Some bq →
  match deque_ bq with
  | [] => Q None w
  | p :: d => Q (Some p)
      (upd_event_queues (insert q (mkBlockingQueue (queue_size_ bq) d)) w)
  end → wp (pop_event q) Q w.
Proof.
  intros Hq HQ. unfold wp, pop_event, PopWithTimeout, QueueEmptyCondition, pop_front. rewrite Hq.
  destruct bq as [sz [|p d]]; simpl in *; [|done].
  destruct w; unfold upd_event_queues; simpl in *. by rewrite list_insert_id.
Qed.

(** When an event other than [NEW_CONNECTION] of an object reaches the head
    of its queue, the object is connected. *)
Lemma queued_connected ex w r e q bq p d n x :
  core N ex w → phase w r x → event_queues w !! q = Some bq → deque_ bq = p :: d → tag_in p = Some (r, e) →
  heap_ w !! r = Some (n, x) → e ≠ NEW_CONNECTION → connected x.
Proof.
  intros C Hph Hq Hd Hp Hx Hne. unfold phase in Hph.
  destruct (is_pending x NEW_CONNECTION) eqn:Hnc; [exfalso|by split].
  destruct Hph as (_ & Hr & Hw & Hf & _ & _).
  assert (tags bq = (r, e) :: omap tag_in d) as Htags
    by (unfold tags; rewrite Hd; simpl; by rewrite Hp).
  destruct (c_queues _ _ _ C _ _ Hq) as (_ & _ & Hncf & _). rewrite Htags in Hncf.
  destruct Hncf as [Hnin _].
  assert (queued w r e q) as Hqd by (exists bq; split; [done|]; rewrite Htags; left).
  destruct (c_queued _ _ _ C _ _ _ Hqd) as (n' & y & Hy & Hyq & Hpe & _ & Hst).
  rewrite Hx in Hy. injection Hy as <- <-.
  destruct (c_complete _ _ _ C _ _ _ _ Hx Hnc) as [Hin|(bq' & Hbq' & Hin)].
  - apply (c_listen _ _ _ C _ Hin), Hst. by destruct e; try congruence.
  - rewrite Hyq in Hbq'. rewrite Hq in Hbq'. injection Hbq' as <-. rewrite Htags in Hin.
    apply elem_of_cons in Hin as [[= ?]|Hin]; [by subst|done].
Qed.

(** Establishing the invariant during handling after a pop. *)
Lemma handling_popped w q bq p d r e n x (P : Rpc → Prop) :
  inv N w → event_queues w !! q = Some bq → deque_ bq = p :: d → tag_in p = Some (r, e) →
  heap_ w !! r = Some (n, x) → P (update_event_member e (set_pending false) x) →
  handling N (λ _, 0) r P (upd_heap (insert r (n, update_event_member e (set_pending false) x))
    (upd_event_queues (insert q (mkBlockingQueue (queue_size_ bq) d)) w)).
Proof.
  intros Hinv Hq Hd Hp Hx HP. pose proof Hinv as (C & Hph & Hthr). split.
  - by eapply core_pop_completion.
  - simpl. intros r' m y Hne _. rewrite lookup_insert_ne by done. intros Hy.
    apply (phase_mentioned w); [done| |by eapply Hph]. intros Hm. by eapply mentioned_pop.
  - done.
  - simpl. by eapply inv_active.
  - exists n, (update_event_member e (set_pending false) x). split; [apply heap_upd_eq|done].
Qed.

(** The condition on connections: while the service is serving they succeed,
    and after [StopServing] those still in the queues have failed. *)
Definition conn_ok (w : World) (l : Label) : Prop :=
  match l with
  | LEvent q => ∀ bq p d r n x, event_queues w !! q = Some bq → deque_ bq = p :: d →
      event_ptr p = CompletionEvent r NEW_CONNECTION → heap_ w !! r = Some (n, x) →
      ok (new_connection_event_ x) = negb (shutting_down_ w)
  | _ => True
  end.

Lemma wp_Handle_completion w q bq p d r e :
  inv N w → conn_ok w (LEvent q) → event_queues w !! q = Some bq → deque_ bq = p :: d →
  event_ptr p = CompletionEvent r e →
  wp (CompletionQueueRpcEvent_Handle r e) (λ _ w', settled (λ _, 0) w')
    (upd_event_queues (insert q (mkBlockingQueue (queue_size_ bq) d)) w).
Proof.
  intros Hinv Hok Hq Hd Hp. pose proof Hinv as (C & Hph & Hthr).
  assert (tag_in p = Some (r, e)) as Htag by (unfold tag_in; by rewrite Hp).
  assert (queued w r e q) as Hqd.
  { exists bq. split; [done|]. unfold tags. rewrite Hd. simpl. rewrite Htag. left. }
  destruct (c_queued _ _ _ C _ _ _ Hqd) as (n & x & Hx & Hxq & Hpe & Hni & Hst).
  destruct (c_wired _ _ _ C _ _ _ Hx) as [(_ & _ & Hmem) _].
  destruct (event_member x e) as [ev|] eqn:Hev; [|by unfold is_pending in Hpe; rewrite Hev in Hpe].
  destruct (Hmem _ _ Hev) as [He Hr].
  apply wp_bind. eapply wp_GetRpcEvent; [done|done|].
  apply wp_bind. eapply wp_SetRpcEventState; [done|by destruct e|]. rewrite He, Hr.
  pose proof (λ P, handling_popped w q bq p d r e n x P Hinv Hq Hd Htag Hx) as Hh.
  destruct (decide (e = NEW_CONNECTION)) as [->|Hne].
  - simpl in Hev. injection Hev as <-.
    specialize (Hok _ _ _ _ _ _ Hq Hd Hp Hx). specialize (Hph _ _ _ Hx) as Hphx.
    unfold phase in Hphx. rewrite Hpe in Hphx.
    destruct Hphx as (Hhd & Hrd & Hwr & Hfi & Hdo & Hme & Hnst).
    simpl. rewrite Hok. destruct (shutting_down_ w) eqn:Hsd; simpl.
    + eapply wp_HandleNewConnection_refused.
      * by apply (h_core _ _ _ _ _ (Hh (λ _, True) I)).
      * rewrite (c_count _ _ _ C _ _ _ Hx) in *. simpl in *.
        rewrite decide_True in * by (by eapply inv_active).
        assert (holders w r = 0) as ->; [|apply heap_upd_eq].
        apply holders_zero. intros t Ht <-. apply Hme. left. by apply Hthr.
      * simpl; by eapply inv_active.
      * intros r' m y Hne. by apply (h_others _ _ _ _ _ (Hh (λ _, True) I)).
      * done.
      * simpl. intros e. unfold is_pending in *. destruct e; simpl in *; try congruence.
        intros _. split; [done|]. intros Hin. apply Hnst in Hin. by rewrite Hok in Hin.
    + apply wp_HandleNewConnection_ok; [|done]. by apply Hh.
  - eapply wp_mono; [eapply wp_HandleEvent_connected; [|done]|by intros [] w' [? _]].
    destruct (queued_connected (λ _, 0) w r e q bq p d n x) as [Hnc Hhd]; try done; [by eapply Hph|].
    apply Hh. split; [split|]; [|by destruct e|by apply is_pending_update_eq; destruct e].
    by rewrite is_pending_update_ne.
Qed.

Lemma wp_lock r n x (Q : bool → World → Prop) w :
  heap_ w !! r = Some (n, x) → Q true (upd_heap (insert r (S n, x)) w) → wp (lock r) Q w.
Proof. unfold wp, lock. by intros ->. Qed.

Lemma wp_Handle_internal w q bq p d r e :
  inv N w → event_queues w !! q = Some bq → deque_ bq = p :: d →
  event_ptr p = InternalRpcEvent e r →
  wp (InternalRpcEvent_Handle e r) (λ _ w', settled (λ _, 0) w')
    (upd_event_queues (insert q (mkBlockingQueue (queue_size_ bq) d)) w).
Proof.
  intros Hinv Hq Hd Hp. pose proof Hinv as (C & Hph & Hthr).
  assert (tag_in p = None) as Htag by (unfold tag_in; by rewrite Hp).
  assert (e = WRITE_NEEDED) as ->.
  { destruct (c_queues _ _ _ C _ _ Hq) as (_ & _ & _ & Hf). rewrite Hd in Hf.
    apply Forall_cons in Hf as [Hi _]. unfold internal_ok in Hi. rewrite Hp in Hi. by destruct Hi. }
  pose proof (core_pop_internal N (λ _, 0) w q bq p d C Hq Hd Htag) as C1.
  set (w1 := upd_event_queues _ w) in *.
  assert (∀ r' m y, heap_ w1 !! r' = Some (m, y) → phase w1 r' y) as Hph1.
  { intros r' m y Hy. apply (phase_mentioned w); [done| |by eapply Hph].
    intros Hm. by eapply mentioned_pop. }
  apply wp_bind. destruct (heap_ w1 !! r) as [[n x]|] eqn:Hx; [|unfold wp, lock; by rewrite Hx].
  eapply wp_lock; [done|].
  assert (r ∈ rpcs_ w) as Hact by (by eapply (inv_active w)).
  assert (mentioned w r) as Hm.
  { right. exists q, bq. split; [done|]. unfold weaks. rewrite Hd. simpl.
    unfold weak_in at 1. rewrite Hp. left. }
  assert (connected x) as [Hnc Hhd].
  { specialize (Hph _ _ _ Hx). unfold phase in Hph.
    destruct (is_pending x NEW_CONNECTION) eqn:E; [|by split]. exfalso. tauto. }
  assert (handling N (bump r (λ _, 0)) r (connected_not WRITE_NEEDED)
    (upd_heap (insert r (S n, x)) w1)) as Hh.
  { split; try done.
    - apply (core_recount N (λ _, 0) _ w1 (rpcs_ w1) r n (S n) x C1 Hx); [| |lia|done].
      + intros r' Hne. split; [done|]. by rewrite bump_ne.
      + rewrite (c_count _ _ _ C1 _ _ _ Hx), bump_eq. lia.
    - simpl. intros r' m y Hne _. rewrite lookup_insert_ne by done. apply Hph1.
    - exists (S n), x. by rewrite heap_upd_eq. }
  apply wp_bind. eapply wp_mono; [by eapply wp_HandleEvent_connected|].
  intros [] w2 [[C2 Hph2] Hsome]. rewrite bump_eq in Hsome.
  destruct Hsome as [[n2 x2] Hx2]; [lia|]. eapply wp_release; [done|].
  eapply settled_view; [|apply (settled_drop (bump r (λ _, 0)) _ w2 (rpcs_ w2) r n2 x2);
    [done|done| | |]]; [done|..].
  - intros r' Hne. split; [done|]. by rewrite bump_ne.
  - rewrite (c_count _ _ _ C2 _ _ _ Hx2), bump_eq. lia.
  - intros Hnact e He. by apply (c_alive _ _ _ C2 _ _ _ _ Hx2) in He.
Qed.

Lemma wp_LEvent w q :
  inv N w → env_ok w (LEvent q) → conn_ok w (LEvent q) →
  wp (exec (LEvent q)) (λ _ w', settled (λ _, 0) w') w.
Proof.
  intros Hinv Henv Hok. apply lookup_lt_is_Some in Henv as [bq Hq].
  apply wp_bind, wp_bind. eapply wp_pop_event; [done|].
  destruct (deque_ bq) as [|p d] eqn:Hd; [by apply wp_ret, wp_ret, inv_settled|].
  apply wp_bind. destruct (event_ptr p) as [r e|e r] eqn:Hp.
  - by eapply wp_mono; [eapply wp_Handle_completion|].
  - by eapply wp_mono; [eapply wp_Handle_internal|].
Qed.

End safety.
