(* ===== verification/ServiceSteps.v ===== *)
(** * Every step of a service, and its runs

    Completes [ServiceSafety] with the steps of the completion queue threads
    and of writer threads, and defines the runs for which the invariant
    holds. *)

From Stdlib Require Import ZArith Lia.
From stdpp Require Import base option list strings gmap.
From S2P Require Import Prelude Interfaces BlockingQueue Rpc Service ServiceInv ServiceLemmas.
From S2P Require Import ServiceHandlers ServiceSafety.
Import Event EventDeleter.

Set Default Proof Using "Type".

(** ** What handling an event does not touch *)

Section frame.
Context `{GrpcStatus, Application, EventQueueSelector}.

(** Only writer threads change the list of writer threads, and weak pointers
    given out stay given out; the set of event queues is fixed, and nothing
    here stops the service. *)
Definition keeps_threads (w w' : World) : Prop :=
  threads w' = threads w ∧ weak_refs w ⊆ weak_refs w' ∧
  length (event_queues w') = length (event_queues w) ∧
  shutting_down_ w' = shutting_down_ w.

#[global] Instance keeps_threads_preorder : PreOrder keeps_threads.
Proof.
  split; [done|]. intros w1 w2 w3 (E1 & S1 & L1 & D1) (E2 & S2 & L2 & D2).
  split_and!; [congruence|set_solver|congruence|congruence].
Qed.

Ltac kt_prim :=
  repeat case_match; simplify_eq; try done;
  split_and!; simpl; rewrite ?length_insert; done.

Lemma kt_deref p : preserves keeps_threads (deref p).
Proof. intros w. unfold wlp, deref. kt_prim. Qed.
Lemma kt_store p f : preserves keeps_threads (store p f).
Proof. intros w. unfold wlp, store. kt_prim. Qed.
Lemma kt_lock p : preserves keeps_threads (lock p).
Proof. intros w. unfold wlp, lock. kt_prim. Qed.
Lemma kt_release p : preserves keeps_threads (release p).
Proof. intros w. unfold wlp, release. kt_prim. Qed.
Lemma kt_push_event q p : preserves keeps_threads (push_event q p).
Proof.
  intros w. unfold wlp, push_event. kt_prim.
Qed.
Lemma kt_pop_event q : preserves keeps_threads (pop_event q).
Proof.
  intros w. unfold wlp, pop_event. kt_prim.
Qed.
Lemma kt_selector : preserves keeps_threads event_queue_selector_.
Proof. intros w. unfold wlp, event_queue_selector_. kt_prim. Qed.
Lemma kt_modify (f : World → World) : (∀ w, keeps_threads w (f w)) → preserves keeps_threads (modify f).
Proof. apply preserves_modify. Qed.

#[local] Hint Resolve kt_deref kt_store kt_lock kt_release kt_push_event kt_pop_event
  kt_selector : preserves.
#[local] Hint Extern 1 (preserves keeps_threads (modify _)) =>
  apply kt_modify; intros ?; split_and!; simpl; (done || set_solver) : preserves.

Lemma kt_GetRpcEvent p e : preserves keeps_threads (GetRpcEvent p e).
Proof. unfold GetRpcEvent. preserves_tac. Qed.
#[local] Hint Resolve kt_GetRpcEvent : preserves.
Lemma kt_SetRpcEventState p e b : preserves keeps_threads (SetRpcEventState p e b).
Proof. unfold SetRpcEventState. preserves_tac. Qed.
Lemma kt_IsRpcEventPending p e : preserves keeps_threads (IsRpcEventPending p e).
Proof. unfold IsRpcEventPending, GetRpcEventState. preserves_tac. Qed.
Lemma kt_grpc_call c : preserves keeps_threads (grpc_call c).
Proof. unfold grpc_call. preserves_tac. Qed.
Lemma kt_use_stream b o : preserves keeps_threads (use_stream b o).
Proof. unfold use_stream. preserves_tac. Qed.
Lemma kt_GetWeakPtr p : preserves keeps_threads (ActiveRpcs_GetWeakPtr p).
Proof. unfold ActiveRpcs_GetWeakPtr. preserves_tac. Qed.
#[local] Hint Resolve kt_SetRpcEventState kt_IsRpcEventPending kt_grpc_call kt_use_stream
  kt_GetWeakPtr : preserves.

Lemma kt_run_action p a : preserves keeps_threads (run_action p a).
Proof.
  unfold run_action, RpcHandler_Send, RpcHandler_Finish, RpcHandler_GetWriter, log_span, Rpc_Write,
    Rpc_Finish, EnqueueMessage, push_write_needed. preserves_tac.
Qed.
#[local] Hint Resolve kt_run_action : preserves.

Lemma kt_call_handler p cb body : preserves keeps_threads (call_handler p cb body).
Proof. unfold call_handler, log_callback. preserves_tac. Qed.
#[local] Hint Resolve kt_call_handler : preserves.

Lemma kt_OnRequest p : preserves keeps_threads (OnRequest p).
Proof. unfold OnRequest. preserves_tac. Qed.
Lemma kt_OnReadsDone p : preserves keeps_threads (OnReadsDone p).
Proof. unfold OnReadsDone. preserves_tac. Qed.
#[local] Hint Resolve kt_OnRequest kt_OnReadsDone : preserves.

Lemma kt_RequestStreamingReadIfNeeded p : preserves keeps_threads (RequestStreamingReadIfNeeded p).
Proof. unfold RequestStreamingReadIfNeeded, async_reader_interface. preserves_tac. Qed.
#[local] Hint Resolve kt_RequestStreamingReadIfNeeded : preserves.

Lemma kt_OnConnection p : preserves keeps_threads (OnConnection p).
Proof. unfold OnConnection, rpc_handler_factory, log_callback, log_span. preserves_tac. Qed.

Lemma kt_HandleSendQueue p : preserves keeps_threads (HandleSendQueue p).
Proof.
  unfold HandleSendQueue, PerformFinish, PerformWrite, SendUnaryFinish, async_writer_interface.
  preserves_tac.
Qed.

Lemma kt_Remove p : preserves keeps_threads (ActiveRpcs_Remove p).
Proof. unfold ActiveRpcs_Remove. preserves_tac. Qed.
#[local] Hint Resolve kt_OnConnection kt_HandleSendQueue kt_Remove : preserves.

Lemma kt_RemoveIfNotPending p : preserves keeps_threads (RemoveIfNotPending p).
Proof. unfold RemoveIfNotPending, IsAnyEventPending. preserves_tac. Qed.
#[local] Hint Resolve kt_RemoveIfNotPending : preserves.

Lemma kt_register p : preserves keeps_threads (ActiveRpcs_Add p ;; RequestNextMethodInvocation p ;; release p).
Proof.
  unfold ActiveRpcs_Add, RequestNextMethodInvocation, streaming_interface. preserves_tac.
Qed.
#[local] Hint Resolve kt_register : preserves.

Lemma kt_HandleNewConnection p b : preserves keeps_threads (HandleNewConnection p b).
Proof. unfold HandleNewConnection, Clone, make_unique_Rpc, SetEventQueue. preserves_tac. Qed.
#[local] Hint Resolve kt_HandleNewConnection : preserves.

Lemma kt_HandleEvent e p b : preserves keeps_threads (HandleEvent e p b).
Proof.
  unfold HandleEvent, HandleRead, HandleWrite, HandleFinish, HandleDone, OnFinish. preserves_tac.
Qed.
#[local] Hint Resolve kt_HandleEvent : preserves.

Lemma kt_RunEventQueue_body q : preserves keeps_threads (RunEventQueue_body q).
Proof.
  unfold RunEventQueue_body, Handle, CompletionQueueRpcEvent_Handle, InternalRpcEvent_Handle.
  preserves_tac.
Qed.

Lemma kt_EnqueueMessage p item : preserves keeps_threads (EnqueueMessage p item).
Proof. unfold EnqueueMessage. preserves_tac. Qed.
Lemma kt_push_write_needed p q : preserves keeps_threads (push_write_needed p q).
Proof. unfold push_write_needed. preserves_tac. Qed.

Lemma kt_exec_completion p e b payload :
  preserves keeps_threads (exec (LCompletion p e b payload)).
Proof.
  unfold exec, grpc_completes, RunCompletionQueue_body, PushToEventQueue. preserves_tac.
Qed.

#[local] Hint Resolve kt_RunEventQueue_body : preserves.
Lemma kt_exec_event q : preserves keeps_threads (exec (LEvent q)).
Proof. unfold exec. preserves_tac. Qed.

End frame.

Section steps.
Context `{GrpcStatus, Application, EventQueueSelector} (N : nat) `{!SelectorOk N}.

(** ** Completion queue threads *)

(** The object after gRPC wrote the request and the thread wrote [ok]. *)
Definition completed (e : Event.t) (b : bool) (payload : option Message) (x : Rpc) : Rpc :=
  update_event_member e (set_ok b)
    (match payload with Some m => set_request (λ _, Some m) x | None => x end).

Lemma completed_keeps r e b payload x :
  event_queue_ (completed e b payload x) = event_queue_ x ∧
  (wired r x → wired r (completed e b payload x)) ∧
  (∀ e', is_pending (completed e b payload x) e' = is_pending x e') ∧
  handler_ (completed e b payload x) = handler_ x.
Proof.
  unfold completed. split_and!.
  - rewrite event_queue_update_event. by destruct payload.
  - intros Hw. apply wired_set_ok. destruct Hw as (Hi & Hr & Hm).
    destruct payload; split_and!; try done; by eexists.
  - intros e'. rewrite is_pending_set_ok. by destruct payload, e'.
  - by destruct e, payload.
Qed.

(** The world after a completion, with [b'] telling whether it started the
    call. *)
Definition after_completion (w : World) (r : RpcPtr) (e : Event.t) (n : nat) (q : QueuePtr)
    (x' : Rpc) (bq : BlockingQueue UniqueEventPtr) (b' : bool) : World :=
  upd_event_queues
    (insert q (push_back (mkUniqueEventPtr (CompletionEvent r e) DO_NOT_DELETE) bq))
    (upd_heap (insert r (n, x')) (upd_inflight (λ l, filter (λ t, t ≠ (r, e)) l)
      (if b' then upd_started (λ s, {[r]} ∪ s) w else w))).

Lemma phase_completion ex w r e b payload n x bq r' m y :
  core N ex w → (∀ m y, heap_ w !! r' = Some (m, y) → phase w r' y) →
  (r, e) ∈ inflight w → heap_ w !! r = Some (n, x) → e ≠ WRITE_NEEDED →
  event_queues w !! event_queue_ x = Some bq →
  let w' := after_completion w r e n (event_queue_ x) (completed e b payload x) bq
    (bool_decide (e = NEW_CONNECTION) && b) in
  heap_ w' !! r' = Some (m, y) → phase w' r' y.
Proof.
  intros C Hph Hin Hx Hwn Hbq w' Hy.
  destruct (completed_keeps r e b payload x) as (Hq & Hw & Hp & Hhd).
  set (b' := bool_decide (e = NEW_CONNECTION) && b) in *.
  assert (heap_ w' = <[r := (n, completed e b payload x)]> (heap_ w)) as Eh
    by (by unfold w', after_completion; destruct b'). rewrite Eh in Hy.
  assert (∀ r'', mentioned w' r'' → mentioned w r'') as Hm.
  { intros r'' Hm. unfold w', after_completion in Hm.
    apply mentioned_push in Hm as [Hm|?]; [|done|by destruct b']. by destruct b'. }
  assert (∀ r'', r'' ∈ started w' ↔ (b' = true ∧ r'' = r) ∨ r'' ∈ started w) as Hst.
  { intros r''. unfold w', after_completion. destruct b'; simpl; set_solver. }
  clearbody w'. unfold phase.
  apply lookup_insert_Some in Hy as [[<- [= <- <-]]|[Hne Hy]].
  - specialize (Hph _ _ Hx). unfold phase in Hph. rewrite !Hp, Hhd.
    destruct (is_pending x NEW_CONNECTION); [|done]. destruct_and! Hph.
    split_and!; auto. rewrite Hst. unfold b', completed.
    intros [[[->%bool_decide_eq_true ->]%andb_true_iff _]|Hin']; [done|].
    destruct (decide (e = NEW_CONNECTION)) as [->|Hne].
    + by apply (c_listen _ _ _ C) in Hin.
    + destruct e, payload; simpl in *; auto; done.
  - specialize (Hph _ _ Hy). unfold phase in Hph.
    destruct (is_pending y NEW_CONNECTION); [|done]. destruct_and! Hph.
    split_and!; auto. rewrite Hst. intros [[_ ->]|?]; [done|auto].
Qed.

Lemma wp_RunCompletionQueue_body w0 r e b n x bq (Q : unit → World → Prop) :
  heap_ w0 !! r = Some (n, x) → e ≠ WRITE_NEEDED →
  event_queues w0 !! event_queue_ x = Some bq → queue_size_ bq = kInfiniteQueueSize →
  Q tt (upd_event_queues
    (insert (event_queue_ x) (push_back (mkUniqueEventPtr (CompletionEvent r e) DO_NOT_DELETE) bq))
    (upd_heap (insert r (n, update_event_member e (set_ok b) x)) w0)) →
  wp (RunCompletionQueue_body r e b) Q w0.
Proof.
  intros Hx Hwn Hbq Hsz HQ. apply wp_bind.
  destruct (event_member x e) as [ev|] eqn:Hev; [|by destruct e].
  eapply wp_GetRpcEvent; [done|done|]. apply wp_bind. eapply wp_store; [done|].
  apply wp_bind. eapply wp_deref; [apply heap_upd_eq|]. rewrite event_queue_update_event.
  by eapply wp_push_event.
Qed.

Lemma wp_completion_exact w r e b payload n x bq (Q : unit → World → Prop) :
  heap_ w !! r = Some (n, x) → e ≠ WRITE_NEEDED →
  event_queues w !! event_queue_ x = Some bq → queue_size_ bq = kInfiniteQueueSize →
  Q tt (after_completion w r e n (event_queue_ x) (completed e b payload x) bq
    (bool_decide (e = NEW_CONNECTION) && b)) →
  wp (exec (LCompletion r e b payload)) Q w.
Proof.
  intros Hx Hwn Hbq Hsz HQ. set (b' := bool_decide (e = NEW_CONNECTION) && b) in *.
  apply wp_bind, wp_bind, wp_modify. destruct payload as [m|].
  - apply (wp_store _ _ n x); [by unfold b'; destruct (_ && b)|].
    apply (wp_RunCompletionQueue_body _ _ _ _ n (set_request (λ _, Some m) x) bq);
      [apply heap_upd_eq|done|by unfold b'; destruct (_ && b)|done|].
    rewrite upd_heap_insert_twice. exact HQ.
  - apply wp_ret. apply (wp_RunCompletionQueue_body _ _ _ _ n x bq); [by unfold b'; destruct (_ && b)|done|by unfold b'; destruct (_ && b)|done|].
    exact HQ.
Qed.

(** The object a tag that gRPC returns belongs to, and its event queue. *)
Lemma completion_object ex w r e b payload :
  core N ex w → env_ok w (LCompletion r e b payload) →
  ∃ n x bq, heap_ w !! r = Some (n, x) ∧ is_pending x e = true ∧ e ≠ WRITE_NEEDED ∧
    event_queues w !! event_queue_ x = Some bq ∧ queue_size_ bq = kInfiniteQueueSize.
Proof.
  intros C (Hin & Hdone & _).
  destruct (c_flying _ _ _ C _ _ Hin) as [(n & x & Hx & Hpe)|(_ & -> & ?)];
    [|by exfalso; auto].
  destruct (c_wired _ _ _ C _ _ _ Hx) as [_ HqN].
  rewrite <- (c_len _ _ _ C) in HqN. apply lookup_lt_is_Some in HqN as [bq Hbq].
  exists n, x, bq. split_and!; try done; [by intros ->|]. by apply (c_queues _ _ _ C _ _ Hbq).
Qed.

Lemma wp_LCompletion w r e b payload :
  inv N w → env_ok w (LCompletion r e b payload) →
  wp (exec (LCompletion r e b payload)) (λ _ w', settled N (λ _, 0) w') w.
Proof.
  intros Hinv Henv. destruct (completion_object _ _ _ _ _ _ (proj1 Hinv) Henv) as
    (n & x & bq & Hx & Hpe & Hwn & Hbq & Hsz).
  pose proof Hinv as (C & Hph & Hthr). destruct Henv as (Hin & Hdone & _).
  destruct (completed_keeps r e b payload x) as (Hq & Hw & Hp & Hhd).
  destruct (c_wired _ _ _ C _ _ _ Hx) as [Hwx HqN].
  eapply wp_completion_exact; [done..|]. split; [|intros; eapply phase_completion; try done; by apply Hph].
  apply core_completion; auto.
  - intros [He _]%andb_true_iff. by apply bool_decide_eq_true in He.
  - intros -> e' He'. specialize (Hph _ _ _ Hx). unfold phase in Hph. rewrite Hpe in Hph.
    destruct Hph as (_ & ? & ? & ? & _). destruct e'; auto; try congruence. done.
Qed.

(** ** Writer threads *)

Lemma settled_threads ex ex' w l :
  settled N ex w →
  (∀ r, holders w r + ex r = length (filter (λ t, wt_rpc t = r) l) + ex' r) →
  settled N ex' (upd_threads (λ _, l) w).
Proof. intros [C Hph] Hl. split; [by eapply core_threads|done]. Qed.

Lemma wp_LWriterBegin w r op :
  inv N w → env_ok w (LWriterBegin r op) →
  wp (exec (LWriterBegin r op)) (λ _ w', inv N w') w.
Proof.
  intros Hinv Henv. pose proof Hinv as (C & Hph & Hthr). apply wp_bind, wp_bind.
  destruct (heap_ w !! r) as [[n x]|] eqn:Hx; [|unfold wp, lock; by rewrite Hx].
  eapply wp_lock; [done|]. apply wp_bind, wp_modify. apply wp_ret, wp_ret.
  pose proof (inv_active _ _ _ _ _ Hinv Hx) as Hact.
  assert (settled N (bump r (λ _, 0)) (upd_heap (insert r (S n, x)) w)) as Hs.
  { split.
    - apply (core_recount N (λ _, 0) _ w (rpcs_ w) r n (S n) x C Hx); [| |lia|done].
      + intros r' Hne. split; [done|]. by rewrite bump_ne.
      + rewrite (c_count _ _ _ C _ _ _ Hx), bump_eq. lia.
    - simpl. intros r' m y [[<- [= <- <-]]|[Hne Hy]]%lookup_insert_Some; by eapply Hph. }
  destruct (settled_threads _ (λ _, 0) _ (threads w ++ [mkWriterThread r op AtEnqueue]) Hs)
    as [C' Hph'].
  { intros r'. apply (holders_snoc (upd_heap (insert r (S n, x)) w)
      (mkWriterThread r op AtEnqueue) r' (λ _, 0)). }
  split_and!; [exact C'|exact Hph'|]. simpl.
  intros t [Ht| ->%list_elem_of_singleton]%elem_of_app; [by apply Hthr|done].
Qed.

Lemma handling_from_inv w r :
  inv N w → r ∈ rpcs_ w → r ∈ weak_refs w → handling N (λ _, 0) r connected w.
Proof.
  intros Hinv Hact Hweak. pose proof Hinv as (C & Hph & Hthr).
  destruct (c_active _ _ _ C _ Hact) as [[n x] Hx]. split; try done; [by eauto|].
  exists n, x. split; [done|]. specialize (Hph _ _ _ Hx). unfold phase in Hph.
  destruct (is_pending x NEW_CONNECTION) eqn:E; [|by split].
  exfalso. destruct Hph as (_ & _ & _ & _ & _ & Hm & _). apply Hm. by left.
Qed.

(** Advancing the program counter of a thread. *)
Lemma inv_set_pc w i t pc :
  inv N w → threads w !! i = Some t →
  inv N (upd_threads (insert i (mkWriterThread (wt_rpc t) (wt_op t) pc)) w).
Proof.
  intros Hinv Hi. pose proof Hinv as (C & Hph & Hthr).
  destruct (settled_threads (λ _, 0) (λ _, 0) w
    (<[i := mkWriterThread (wt_rpc t) (wt_op t) pc]> (threads w))) as [C' Hph'].
  - by apply inv_settled.
  - intros r. f_equal. by apply (holders_insert w i t).
  - split_and!; [exact C'|exact Hph'|]. simpl. intros t' Ht'.
    apply list_elem_of_lookup in Ht' as [j Hj].
    apply list_lookup_insert_Some in Hj as [(_ & <- & _)|[_ Hj]]; simpl; apply Hthr;
      by eapply list_elem_of_lookup_2.
Qed.

(** The last step of a writer call. *)
Lemma inv_thread_return w i t n x :
  inv N w → threads w !! i = Some t → heap_ w !! wt_rpc t = Some (n, x) →
  inv N (upd_threads (delete i) (upd_heap (dropped (wt_rpc t) n x)
    (upd_spans (dropped_spans (wt_rpc t) n x) w))).
Proof.
  intros Hinv Hi Hx. pose proof Hinv as (C & Hph & Hthr).
  assert (settled N (bump (wt_rpc t) (λ _, 0)) (upd_threads (delete i) w)) as [C1 Hph1].
  { eapply (settled_threads (λ _, 0)); [by apply inv_settled|]. intros r.
    by apply (holders_delete w i t r (λ _, 0)). }
  destruct (settled_drop N _ (λ _, 0) _ (rpcs_ w) (wt_rpc t) n x (conj C1 Hph1)) as [C2 Hph2].
  - done.
  - intros r' Hne. split; [done|]. by rewrite bump_ne.
  - pose proof (c_count _ _ _ C1 _ _ _ Hx) as Hc. rewrite bump_eq in Hc. simpl in *. lia.
  - intros Hn. exfalso. apply Hn, Hthr. by eapply list_elem_of_lookup_2.
  - split_and!; [by eapply core_view; [|exact C2]|exact Hph2|]. simpl. intros t' Ht'. apply Hthr.
    by eapply list_elem_of_delete_inv.
Qed.

Lemma wp_LWriterStep w i :
  inv N w → env_ok w (LWriterStep i) → wp (exec (LWriterStep i)) (λ _ w', inv N w') w.
Proof.
  intros Hinv Henv. pose proof Hinv as (C & Hph & Hthr).
  apply lookup_lt_is_Some in Henv as [t Hi].
  destruct (Hthr t) as [Hact Hweak]; [by eapply list_elem_of_lookup_2|].
  pose proof (handling_from_inv _ _ Hinv Hact Hweak) as Hh.
  assert (∀ w' pc, handling N (λ _, 0) (wt_rpc t) connected w' → keeps_threads w w' →
    wp (set_pc i t pc) (λ _, inv N) w') as Hpc.
  { intros w' pc Hh' (Et & _). apply wp_modify, inv_set_pc; [by eapply handling_inv|by rewrite Et]. }
  apply wp_bind. unfold wp at 1, get. rewrite Hi. destruct (wt_pc t).
  - apply wp_bind. eapply wp_mono; [apply (wp_preserves keeps_threads)|].
    + apply kt_EnqueueMessage.
    + apply (wp_EnqueueMessage N (busy := ∅) (λ _, 0) _ connected); [exact Hh|by intros y g [? ?]].
    + intros [] w' [Hh' Hk]. apply wp_bind, wp_modify, Hpc; [|done].
      by eapply handling_view; [|exact Hh'].
  - apply wp_bind, wp_GetWeakPtr; [done|]. by apply Hpc.
  - apply wp_bind. eapply wp_mono; [apply (wp_preserves keeps_threads)|].
    + apply kt_push_write_needed.
    + by apply (wp_push_write_needed N (busy := ∅) (λ _, 0) _ connected).
    + intros [] w' [Hh' Hk]. by apply Hpc.
  - pose proof (h_obj _ _ _ _ _ Hh) as (n & x & Hx & _ & h & Hhd).
    apply wp_bind. eapply wp_deref; [done|]. rewrite Hhd. apply wp_bind.
    destruct (wt_op t); [by apply wp_ret, Hpc..|]. apply wp_modify, Hpc; [|done].
    by eapply handling_view; [|exact Hh].
  - pose proof (h_obj _ _ _ _ _ Hh) as (n & x & Hx & _).
    apply wp_bind. eapply wp_release; [done|]. apply wp_modify.
    apply inv_thread_return; done.
Qed.

(** ** All steps *)

Lemma wp_exec w l :
  inv N w → env_ok w l → conn_ok w l → wp (exec l) (λ _ w', settled N (λ _, 0) w') w.
Proof.
  intros Hinv Henv Hok. destruct l.
  - by apply wp_LCompletion.
  - by apply wp_LEvent.
  - eapply wp_mono; [by apply wp_LWriterBegin|]. intros. by apply inv_settled.
  - eapply wp_mono; [by apply wp_LWriterStep|]. intros. by apply inv_settled.
  - apply wp_modify. destruct Hinv as (C & Hph & _). split; [|done].
    by eapply core_view; [|exact C].
  - destruct Hinv as (C & Hph & _). pose proof (c_sel _ _ _ C) as Hs.
    apply wp_bind, (wp_event_queue_selector N); [done|]. intros q s' _ Hs'. apply wp_ret. split; [|done].
    destruct C. by split.
  - apply wp_modify. destruct Hinv as (C & Hph & _). split; [|done].
    by eapply core_view; [|exact C].
Qed.

(** The interleaving that the framework does not survive: an object is taken
    out of the active set while a writer call holds it. *)
Definition no_race (w w' : World) : Prop :=
  ∀ t, t ∈ threads w → wt_rpc t ∈ rpcs_ w → wt_rpc t ∈ rpcs_ w'.

Lemma step_inv w l w' :
  inv N w → step w l w' → conn_ok w l → no_race w w' → inv N w'.
Proof.
  intros Hinv [Henv Hexec] Hok Hrace. pose proof (wp_exec w l Hinv Henv Hok) as Hs.
  unfold wp in Hs. rewrite Hexec in Hs. destruct Hs as [C Hph].
  pose proof Hinv as (_ & _ & Hthr).
  assert (keeps_threads w w' → inv N w') as Hkeep.
  { intros (Et & Hweak & _). split_and!; [done|done|]. rewrite Et. intros t Ht.
    destruct (Hthr t Ht) as [Ha Hb]. split; [by apply Hrace|set_solver]. }
  destruct l.
  - apply Hkeep. eapply preserves_Ok; [apply kt_exec_completion|exact Hexec].
  - apply Hkeep. eapply preserves_Ok; [apply kt_exec_event|exact Hexec].
  - pose proof (wp_LWriterBegin w _ _ Hinv Henv) as Hw. unfold wp in Hw. by rewrite Hexec in Hw.
  - pose proof (wp_LWriterStep w _ Hinv Henv) as Hw. unfold wp in Hw. by rewrite Hexec in Hw.
  - injection Hexec as <-. split_and!; [done|done|exact Hthr].
  - apply Hkeep. eapply preserves_Ok; [|exact Hexec].
    apply preserves_bind; [apply _|apply kt_selector|]. intros q. preserves_tac.
  - injection Hexec as <-. by apply Hkeep.
Qed.

(** Runs in which connections succeed until [StopServing] and in which no
    object is removed under a writer. *)
Inductive calm_run (infos : list RpcHandlerInfo) (cqs : list nat) (s : sel_state)
    (c : Context_) : World → Prop :=
  | calm_start w :
      StartServing infos cqs (world_init N s c) = Ok tt w → calm_run infos cqs s c w
  | calm_step w l w' :
      calm_run infos cqs s c w → step w l w' → conn_ok w l → no_race w w' →
      calm_run infos cqs s c w'.

Lemma calm_run_inv infos cqs s c w : sel_inv s → calm_run infos cqs s c w → inv N w.
Proof.
  intros Hs. induction 1 as [w Hstart|w l w' Hrun IH Hstep Hok Hrace]; [|by eapply step_inv].
  pose proof (wp_StartServing N infos cqs _ (inv_init N s c Hs) eq_refl) as Hw.
  unfold wp in Hw. rewrite Hstart in Hw. by destruct Hw.
Qed.

Lemma calm_run_run infos cqs s c w : calm_run infos cqs s c w → run infos cqs N s c w.
Proof. induction 1; [by apply run_start|by eapply run_step]. Qed.

End steps.
