(* ===== verification/ServiceFlow.v ===== *)
(** * The send queue of an RPC

    What happens to the items put into [Rpc::send_queue_] by handlers and by
    writers on other threads: they reach gRPC in order, one operation at a
    time, and none is forgotten.  The invariant [flow] is about every run,
    whatever its interleaving.  Its form [flow_among] is for the moments at
    which other threads are in the middle of something: they may have taken
    items off send queues, and be about to look at some. *)

From Stdlib Require Import ZArith Lia.
From stdpp Require Import base functions option list strings gmap.
From S2P Require Import Prelude Resumption Interfaces BlockingQueue Rpc Service ServiceThreads.
From S2P Require Import ServiceInv.
Import Event EventDeleter.

Set Default Proof Using "Type".

Section flow.
Context `{GrpcStatus, Application, EventQueueSelector}.

(** The item a call into gRPC sends. *)
Definition item_of (c : GrpcCall) : option (RpcPtr * SendItem) :=
  match c with
  | WriteMsg r m => Some (r, mkSendItem (Some m) Status_OK)
  | FinishStream r s | FinishWithError r s => Some (r, mkSendItem None s)
  | FinishMsg r m s => Some (r, mkSendItem (Some m) s)
  | AsyncNotifyWhenDone _ | RequestAsync _ _ _ _ | Read _ => None
  end.

Definition only {A} (r : RpcPtr) (t : RpcPtr * A) : option A :=
  if decide (t.1 = r) then Some t.2 else None.

(** The items handed to gRPC for an RPC, and the items enqueued for it. *)
Definition sent (r : RpcPtr) (calls : list GrpcCall) : list SendItem :=
  omap (only r) (omap item_of calls).

Definition items (r : RpcPtr) (l : list (RpcPtr * SendItem)) : list SendItem :=
  omap (only r) l.

(** A call of [Finish] was made for the RPC. *)
Definition finished (w : World) (r : RpcPtr) : Prop :=
  ∃ c, c ∈ grpc_calls w ∧ tag_of c = (r, FINISH).

(** A [WRITE_NEEDED] event for the RPC is in an event queue, or a writer call
    is about to push one. *)
Definition announced (w : World) (r : RpcPtr) : Prop :=
  (∃ q bq, event_queues w !! q = Some bq ∧ r ∈ weaks bq) ∨
  (∃ t, t ∈ threads w ∧ wt_rpc t = r ∧ (wt_pc t = AtGetWeakPtr ∨ wt_pc t = AtPush)).

(** Something will look at the send queue again, or the RPC is finished. *)
Definition served (w : World) (r : RpcPtr) (x : Rpc) : Prop :=
  send_queue_ x = [] ∨ is_pending x WRITE = true ∨ is_pending x FINISH = true ∨
  finished w r ∨ announced w r.

Definition labelled (r : RpcPtr) (x : Rpc) : Prop :=
  ∀ e ev, event_member x e = Some ev → event ev = e ∧ rpc_ptr ev = r.

(** Only RPCs with streamed requests read. *)
Definition reads (x : Rpc) : Prop :=
  is_pending x READ = true → unary_request (rpc_type (rpc_handler_info_ x)) = false.

(** [ex] is an object that is not [served] at the moment; [hand] has the items
    that were taken off send queues and not sent yet, [others] the objects
    other threads are going to look at. *)
Record flow_among {hand : RpcPtr → list SendItem} {others : RpcPtr → Prop}
    (ex : option RpcPtr) (w : World) : Prop := {
  f_fresh : ∀ r, next_ptr w ≤ r →
    heap_ w !! r = None ∧ items r (enqueued w) = [] ∧ sent r (grpc_calls w) = [] ∧ hand r = [];
  f_live : ∀ r n x, heap_ w !! r = Some (n, x) →
    items r (enqueued w) = sent r (grpc_calls w) ++ hand r ++ send_queue_ x;
  f_hand : ∀ r n x, heap_ w !! r = Some (n, x) → hand r ≠ [] →
    is_pending x WRITE = false ∧ is_pending x FINISH = false;
  f_prefix : ∀ r, sent r (grpc_calls w) `prefix_of` items r (enqueued w);
  f_ok : ∀ r it, (r, it) ∈ enqueued w → is_Some (msg it) → status it = Status_OK;
  f_excl : ∀ r n x, heap_ w !! r = Some (n, x) →
    is_pending x WRITE = true → is_pending x FINISH = false;
  f_finish : ∀ r n x, heap_ w !! r = Some (n, x) → is_pending x FINISH = true → finished w r;
  f_served : ∀ r n x, heap_ w !! r = Some (n, x) → ex ≠ Some r → ¬ others r → served w r x;
  f_internal : ∀ q bq, event_queues w !! q = Some bq → Forall internal_ok (deque_ bq);
  f_labelled : ∀ r n x, heap_ w !! r = Some (n, x) → labelled r x;
  f_read : ∀ r n x, heap_ w !! r = Some (n, x) → reads x
}.

Section among.
Context {hand : RpcPtr → list SendItem} {others : RpcPtr → Prop}.
#[local] Abbreviation flow := (flow_among (hand := hand) (others := others)).

Definition keeps_flow (ex : option RpcPtr) (w w' : World) : Prop := flow ex w → flow ex w'.

#[global] Instance keeps_flow_preorder ex : PreOrder (keeps_flow ex).
Proof. split; [intros w Hw; exact Hw|]. intros w1 w2 w3 H12 H23 Hw. auto. Qed.

Lemma kf_wlp {A} ex (m : M World A) :
  (∀ w, flow ex w → wlp m (λ _, flow ex) w) → preserves (keeps_flow ex) m.
Proof.
  intros Hm w. apply wlp_intro. intros a w' Hx F.
  exact (wlp_ok _ (λ _, flow ex) _ _ _ (Hm w F) Hx).
Qed.

(** ** Lists of items *)

Lemma items_snoc r l r' it :
  items r (l ++ [(r', it)]) = items r l ++ (if decide (r' = r) then [it] else []).
Proof. unfold items. rewrite omap_app. simpl. unfold only. simpl. by destruct (decide (r' = r)). Qed.

Lemma sent_snoc r l c :
  sent r (l ++ [c]) = sent r l ++
    match item_of c with Some (r', it) => if decide (r' = r) then [it] else [] | None => [] end.
Proof.
  unfold sent. rewrite !omap_app. simpl. destruct (item_of c) as [[r' it]|]; simpl; [|done].
  unfold only. simpl. by destruct (decide (r' = r)).
Qed.

Lemma items_elem r l it : it ∈ items r l ↔ (r, it) ∈ l.
Proof.
  unfold items. rewrite list_elem_of_omap. split.
  - intros ([r' it'] & Hin & Ho). unfold only in Ho. simpl in Ho.
    destruct (decide (r' = r)); by simplify_eq.
  - intros Hin. exists (r, it). split; [done|]. unfold only. simpl. by rewrite decide_True.
Qed.

(** A list without duplicates that does not have both of two elements. *)
Lemma filter_pair_le_1 {A} `{EqDecision A} (a b : A) (l : list A) :
  NoDup l → ¬ (a ∈ l ∧ b ∈ l) → length (filter (λ t, t = a ∨ t = b) l) ≤ 1.
Proof.
  intros Hnd Hab. assert (NoDup (filter (λ t, t = a ∨ t = b) l)) as Hf by by apply NoDup_filter.
  assert (∀ t u, t ∈ filter (λ t, t = a ∨ t = b) l → u ∈ filter (λ t, t = a ∨ t = b) l → t = u) as Hu.
  { intros t u. rewrite !list_elem_of_filter. intros [[-> | ->] ?] [[-> | ->] ?]; tauto. }
  destruct (filter _ l) as [|t [|u l']]; simpl; [lia..|].
  inversion Hf as [|? ? Hnin _]. destruct Hnin. rewrite (Hu t u); set_solver.
Qed.

(** ** Changes that concern no send queue *)

(** The parts of the state [flow] looks at. *)
Definition flow_view (w : World) :=
  (heap_ w, next_ptr w, event_queues w, threads w, grpc_calls w, enqueued w).

Lemma flow_same ex w w' : flow_view w' = flow_view w → flow ex w → flow ex w'.
Proof.
  intros [= Eh En Eq Et Eg Ee] F. destruct F; split; rewrite ?Eh, ?En, ?Eq, ?Eg, ?Ee; try done.
  - intros r n x Hx Hp. destruct (f_finish0 r n x Hx Hp) as (c & ? & ?). exists c. by rewrite Eg.
  - intros r n x Hx Hr Ho. destruct (f_served0 r n x Hx Hr Ho) as [?|[?|[?|[Hf|Ha]]]];
      unfold served; [tauto..| |].
    + do 3 right. left. destruct Hf as (c & ? & ?). exists c. by rewrite Eg.
    + do 4 right. unfold announced. by rewrite Eq, Et.
Qed.

Lemma kf_modify ex (f : World → World) :
  (∀ w, flow_view (f w) = flow_view w) → preserves (keeps_flow ex) (modify f).
Proof. intros Hf. apply preserves_modify. intros w F. by eapply flow_same; [apply Hf|]. Qed.

(** An object is replaced by one with the same send queue and flags. *)
Definition keeps_sending (f : Rpc → Rpc) : Prop :=
  ∀ x, send_queue_ (f x) = send_queue_ x ∧ is_pending (f x) WRITE = is_pending x WRITE ∧
    is_pending (f x) FINISH = is_pending x FINISH ∧ (∀ r, labelled r x → labelled r (f x)) ∧
    (reads x → reads (f x)).

Lemma flow_replace ex w p n n' x x' :
  flow ex w → heap_ w !! p = Some (n, x) → send_queue_ x' = send_queue_ x →
  (is_pending x' WRITE = true → is_pending x WRITE = true) →
  (is_pending x' FINISH = true → is_pending x FINISH = true) →
  (ex ≠ Some p → served w p x → served w p x') → labelled p x' → reads x' →
  flow ex (upd_heap (insert p (n', x')) w).
Proof.
  intros F Hx Hsq Hpw Hpf Hs Hl Hrd.
  assert (∀ r m y, <[p := (n', x')]> (heap_ w) !! r = Some (m, y) →
    (r = p ∧ y = x') ∨ heap_ w !! r = Some (m, y)) as Hins.
  { intros r m y [[-> [= _ ->]]|[_ ?]]%lookup_insert_Some; auto. }
  split; simpl; try apply F.
  - intros r Hr. destruct (f_fresh _ _ F r Hr) as (Hn & ?). split; [|done].
    rewrite lookup_insert_ne; [done|]. intros ->. congruence.
  - intros r m y [[-> ->]|Hy]%Hins; [rewrite Hsq; by eapply (f_live _ _ F)|by eapply (f_live _ _ F)].
  - intros r m y [[-> ->]|Hy]%Hins Hh; [|by eapply (f_hand _ _ F)].
    destruct (f_hand _ _ F _ _ _ Hx Hh). split; apply not_true_iff_false; intros E;
      [apply Hpw in E|apply Hpf in E]; congruence.
  - intros r m y [[-> ->]|Hy]%Hins; [|by eapply (f_excl _ _ F)].
    intros Hw%Hpw. destruct (is_pending x' FINISH) eqn:E; [|done].
    pose proof (f_excl _ _ F _ _ _ Hx Hw). pose proof (Hpf eq_refl). congruence.
  - intros r m y [[-> ->]|Hy]%Hins; [|by eapply (f_finish _ _ F)]. intros Hf%Hpf. by eapply (f_finish _ _ F).
  - intros r m y [[-> ->]|Hy]%Hins Hr Ho; [|by eapply (f_served _ _ F)].
    apply Hs; [done|]. by eapply (f_served _ _ F).
  - intros r m y [[-> ->]|Hy]%Hins; [done|by eapply (f_labelled _ _ F)].
  - intros r m y [[-> ->]|Hy]%Hins; [done|by eapply (f_read _ _ F)].
Qed.

Lemma kf_store ex p f : keeps_sending f → preserves (keeps_flow ex) (store p f).
Proof.
  intros Hf w. unfold wlp, store. destruct (heap_ w !! p) as [[n x]|] eqn:Hx; [|done].
  intros F. destruct (Hf x) as (Hs & Hw & Hfi & Hl & Hrd).
  eapply flow_replace; [done|exact Hx|done|congruence|congruence| | |].
  - intros _. unfold served. by rewrite Hs, Hw, Hfi.
  - by apply Hl, (f_labelled _ _ F p n).
  - by apply Hrd, (f_read _ _ F p n).
Qed.

Lemma flow_recount ex w p n n' x :
  heap_ w !! p = Some (n, x) → flow ex w → flow ex (upd_heap (insert p (n', x)) w).
Proof. intros Hx F. eapply flow_replace; eauto; [by eapply (f_labelled _ _ F)|by eapply (f_read _ _ F)]. Qed.

Lemma flow_delete ex w p : flow ex w → flow ex (upd_heap (delete p) w).
Proof.
  intros F. split; simpl; try apply F.
  - intros r Hr. destruct (f_fresh _ _ F r Hr) as (Hn & ?). split; [|done].
    by rewrite lookup_delete_None; right.
  - intros r n x [_ Hx]%lookup_delete_Some. by eapply (f_live _ _ F).
  - intros r n x [_ Hx]%lookup_delete_Some. by eapply (f_hand _ _ F).
  - intros r n x [_ Hx]%lookup_delete_Some. by eapply (f_excl _ _ F).
  - intros r n x [_ Hx]%lookup_delete_Some. by eapply (f_finish _ _ F).
  - intros r n x [_ Hx]%lookup_delete_Some. by eapply (f_served _ _ F).
  - intros r n x [_ Hx]%lookup_delete_Some. by eapply (f_labelled _ _ F).
  - intros r n x [_ Hx]%lookup_delete_Some. by eapply (f_read _ _ F).
Qed.

Lemma kf_deref ex p : preserves (keeps_flow ex) (deref p).
Proof. intros w. unfold wlp, deref. repeat case_match; simplify_eq; try done; by intros F. Qed.
Lemma kf_lock ex p : preserves (keeps_flow ex) (lock p).
Proof.
  intros w. unfold wlp, lock. destruct (heap_ w !! p) as [[n x]|] eqn:Hx; [|by intros F].
  intros F. by eapply flow_recount.
Qed.
Lemma kf_release ex p : preserves (keeps_flow ex) (release p).
Proof.
  intros w. unfold wlp, release.
  destruct (heap_ w !! p) as [[[|[|n]] x]|] eqn:Hx; [intros F..|done];
    [by eapply flow_delete, (flow_same ex w)..|by eapply flow_recount].
Qed.
Lemma kf_selector ex : preserves (keeps_flow ex) event_queue_selector_.
Proof.
  intros w. unfold wlp, event_queue_selector_. destruct (sel_next _); [|done].
  intros F. by eapply (flow_same ex w).
Qed.

(** A new object: nothing was ever enqueued for it. *)
Lemma kf_make_unique ex i cq q info : preserves (keeps_flow ex) (make_unique_Rpc i cq q info).
Proof.
  intros w F. set (p := next_ptr w). set (x := Rpc_new p i cq q info).
  assert (send_queue_ x = [] ∧ (∀ e, is_pending x e = false) ∧ labelled p x) as (Hs & Hp & Hl).
  { unfold x, Rpc_new. destruct (InitializeReadersAndWriters _) as [[[a b] c] d].
    split_and!; [done|by intros []|intros [] ev Hev; by simplify_eq/=]. }
  destruct (f_fresh _ _ F p) as (Hn & Hi & Hst & Hha); [done|].
  assert (∀ r m y, <[p := (0, x)]> (heap_ w) !! r = Some (m, y) →
    (r = p ∧ y = x) ∨ heap_ w !! r = Some (m, y)) as Hins.
  { intros r m y [[-> [= _ ->]]|[_ ?]]%lookup_insert_Some; auto. }
  split; simpl; try apply F.
  - intros r Hr. rewrite lookup_insert_ne by (unfold p; lia).
    apply (f_fresh _ _ F). lia.
  - intros r m y [[-> ->]|Hy]%Hins; [by rewrite Hs, Hi, Hst, Hha|by eapply (f_live _ _ F)].
  - intros r m y [[-> ->]|Hy]%Hins; [by rewrite Hha|by eapply (f_hand _ _ F)].
  - intros r m y [[-> ->]|Hy]%Hins; [by rewrite !Hp|by eapply (f_excl _ _ F)].
  - intros r m y [[-> ->]|Hy]%Hins; [by rewrite !Hp|by eapply (f_finish _ _ F)].
  - intros r m y [[-> ->]|Hy]%Hins Hr Ho; [by left|by eapply (f_served _ _ F)].
  - intros r m y [[-> ->]|Hy]%Hins; [done|by eapply (f_labelled _ _ F)].
  - intros r m y [[-> ->]|Hy]%Hins; [unfold reads; by rewrite Hp|by eapply (f_read _ _ F)].
Qed.

(** Calls into gRPC that send nothing. *)
Lemma kf_grpc_call ex c :
  item_of c = None → (tag_of c).2 ≠ FINISH → preserves (keeps_flow ex) (grpc_call c).
Proof.
  intros Hc Ht. apply preserves_modify. intros w F.
  assert (∀ r, finished (upd_grpc_calls (λ l, l ++ [c]) w) r ↔ finished w r) as Hfin.
  { intros r. unfold finished; simpl. setoid_rewrite elem_of_app.
    setoid_rewrite list_elem_of_singleton. split; [|naive_solver].
    intros (c' & [Hin| ->] & Hr); [eauto|]. by rewrite Hr in Ht. }
  assert (∀ r, sent r (grpc_calls w ++ [c]) = sent r (grpc_calls w)) as Hs.
  { intros r. by rewrite sent_snoc, Hc, app_nil_r. }
  split; simpl; try (setoid_rewrite Hs); try apply F.
  - intros r n x Hx Hp. apply Hfin. by eapply (f_finish _ _ F).
  - intros r n x Hx Hr Ho. destruct (f_served _ _ F r n x Hx Hr Ho) as [?|[?|[?|[?|Ha]]]];
      unfold served; [tauto..| |tauto]. do 3 right. left. by apply Hfin.
Qed.

(** Tags pushed to an event queue. *)
Lemma flow_push ex w q bq p :
  event_queues w !! q = Some bq → internal_ok p → flow ex w →
  flow (if decide (ex = weak_in p) then None else ex)
    (upd_event_queues (insert q (push_back p bq)) w).
Proof.
  intros Hq Hp F. set (w' := upd_event_queues _ w).
  assert (∀ r, announced w r ∨ weak_in p = Some r → announced w' r) as Ha.
  { intros r [[(q' & b & Hb & Hin)|?]|Hr]; [left|by right|left].
    - destruct (decide (q = q')) as [<-|Hne].
      + exists q, (push_back p bq). simpl. simplify_eq.
        rewrite list_lookup_insert_eq by (by eapply lookup_lt_Some). split; [done|].
        rewrite weaks_push_back. set_solver.
      + exists q', b. simpl. by rewrite list_lookup_insert_ne.
    - exists q, (push_back p bq). simpl.
      rewrite list_lookup_insert_eq by (by eapply lookup_lt_Some). split; [done|].
      rewrite weaks_push_back, Hr. set_solver. }
  split; try apply F.
  - intros r n x Hx Hr Ho. unfold served.
    destruct (decide (ex = Some r)) as [->|Hne].
    { do 4 right. apply Ha. right. destruct (decide _); [done|congruence]. }
    destruct (f_served _ _ F r n x Hx Hne Ho) as [?|[?|[?|[?|?]]]]; auto 10.
  - simpl. intros q' b [(-> & <- & _)|[_ Hb]]%list_lookup_insert_Some;
      [|by eapply (f_internal _ _ F)].
    apply Forall_app. split; [by eapply (f_internal _ _ F)|by constructor].
Qed.

(** ** Walking through the code *)

#[local] Hint Resolve kf_deref kf_lock kf_release kf_selector kf_make_unique : preserves.
#[local] Hint Extern 1 (preserves (keeps_flow _) (modify _)) =>
  apply kf_modify; intros ?; reflexivity : preserves.
#[local] Hint Extern 1 (preserves (keeps_flow _) (grpc_call _)) =>
  apply kf_grpc_call; done : preserves.

Lemma ks_pending e b :
  e ≠ WRITE → e ≠ FINISH → e ≠ READ → keeps_sending (update_event_member e (set_pending b)).
Proof.
  intros Hw Hf Hr x. destruct e; try done; (split_and!; [done..| |done]); intros r Hl [] ev Hev;
    simplify_eq/=; by apply Hl.
Qed.
Lemma ks_ok e b : keeps_sending (update_event_member e (set_ok b)).
Proof.
  intros x. destruct e; (split_and!; [done..| |done]); intros r Hl [] ev Hev; simplify_eq/=;
    by apply Hl.
Qed.
Lemma ks_handler g : keeps_sending (set_handler g).
Proof. intros x. by split_and!. Qed.
Lemma ks_request g : keeps_sending (set_request g).
Proof. intros x. by split_and!. Qed.
Lemma ks_event_queue g : keeps_sending (set_event_queue g).
Proof. intros x. by split_and!. Qed.
#[local] Hint Resolve ks_handler ks_request ks_event_queue ks_ok : preserves.
#[local] Hint Extern 1 (preserves (keeps_flow _) (store _ _)) =>
  apply kf_store; auto with preserves; apply ks_pending; done : preserves.

Lemma kf_GetRpcEvent ex p e : preserves (keeps_flow ex) (GetRpcEvent p e).
Proof. unfold GetRpcEvent. preserves_tac. Qed.
#[local] Hint Resolve kf_GetRpcEvent : preserves.

Lemma kf_use_stream ex b o : preserves (keeps_flow ex) (use_stream b o).
Proof. unfold use_stream. preserves_tac. Qed.
Lemma kf_GetWeakPtr ex p : preserves (keeps_flow ex) (ActiveRpcs_GetWeakPtr p).
Proof. unfold ActiveRpcs_GetWeakPtr. preserves_tac. Qed.
#[local] Hint Resolve kf_use_stream kf_GetWeakPtr : preserves.

Lemma wlp_deref p n x (Q : Rpc → World → Prop) w :
  heap_ w !! p = Some (n, x) → Q x w → wlp (deref p) Q w.
Proof. unfold wlp, deref. by intros ->. Qed.

Lemma wlp_store p f n x (Q : unit → World → Prop) w :
  heap_ w !! p = Some (n, x) → Q tt (upd_heap (insert p (n, f x)) w) → wlp (store p f) Q w.
Proof. unfold wlp, store. by intros ->. Qed.

Lemma wlp_SetRpcEventState p e b n x (Q : unit → World → Prop) w :
  heap_ w !! p = Some (n, x) →
  Q tt (upd_heap (insert p (n, update_event_member e (set_pending b) x)) w) →
  wlp (SetRpcEventState p e b) Q w.
Proof.
  intros Hx HQ. apply wlp_bind, wlp_bind. eapply wlp_deref; [done|].
  destruct (event_member x e); [|done]. apply wlp_ret. by eapply wlp_store.
Qed.

Lemma wlp_IsRpcEventPending p e n x (Q : bool → World → Prop) w :
  heap_ w !! p = Some (n, x) → Q (is_pending x e) w → wlp (IsRpcEventPending p e) Q w.
Proof.
  intros Hx HQ. apply wlp_bind, wlp_bind. eapply wlp_deref; [done|]. unfold is_pending in HQ.
  by destruct (event_member x e).
Qed.

Lemma wlp_use_stream b o (Q : StreamObject → World → Prop) w :
  Q o w → wlp (use_stream b o) Q w.
Proof. by destruct b. Qed.

Lemma insert_heap_twice p y z w :
  upd_heap (insert p z) (upd_heap (insert p y) w) = upd_heap (insert p z) w.
Proof. unfold upd_heap; simpl. by rewrite insert_insert_eq. Qed.

Lemma flow_read_flag ex w p n x :
  flow ex w → heap_ w !! p = Some (n, x) →
  unary_request (rpc_type (rpc_handler_info_ x)) = false →
  flow ex (upd_heap (insert p (n, update_event_member READ (set_pending true) x)) w).
Proof.
  intros F Hx Hu.
  eapply flow_replace; [done|exact Hx|done|done|done|by intros _ Hs| |by intros _].
  pose proof (f_labelled _ _ F _ _ _ Hx) as Hl. intros [] ev Hev; simplify_eq/=; by apply Hl.
Qed.

(** *** Enqueueing *)

Lemma flow_enqueue ex w p n x it :
  flow ex w → heap_ w !! p = Some (n, x) → (is_Some (msg it) → status it = Status_OK) →
  (∀ r, ex = Some r → r = p) →
  flow (Some p) (upd_enqueued (λ l, l ++ [(p, it)])
    (upd_heap (insert p (n, set_send_queue (λ q, q ++ [it]) x)) w)).
Proof.
  intros F Hx Hit Hex.
  assert (∀ r, (r = p ∧ items r (enqueued w ++ [(p, it)]) = items r (enqueued w) ++ [it]) ∨
    r ≠ p ∧ items r (enqueued w ++ [(p, it)]) = items r (enqueued w)) as Hi.
  { intros r. rewrite items_snoc. destruct (decide (p = r)) as [->|]; [by left|right].
    split; [done|apply app_nil_r]. }
  split; simpl; try apply F.
  - intros r Hr. destruct (f_fresh _ _ F r Hr) as (Hn & ? & ? & ?).
    assert (r ≠ p) as Hne by (intros ->; congruence). rewrite lookup_insert_ne by done.
    destruct (Hi r) as [[? _]|[_ ->]]; done.
  - intros r m y [[<- [= <- <-]]|[Hne Hy]]%lookup_insert_Some.
    + destruct (Hi p) as [[_ ->]|[? _]]; [|done].
      by rewrite (f_live _ _ F _ _ _ Hx), <- !app_assoc.
    + destruct (Hi r) as [[? _]|[_ ->]]; [done|]. by eapply (f_live _ _ F).
  - intros r m y [[<- [= <- <-]]|[Hne Hy]]%lookup_insert_Some; [by apply (f_hand _ _ F p n x)|].
    by eapply (f_hand _ _ F).
  - intros r. pose proof (f_prefix _ _ F r). destruct (Hi r) as [[_ ->]|[_ ->]]; [|done].
    by apply prefix_app_r.
  - intros r it'. rewrite elem_of_app, list_elem_of_singleton.
    intros [?|[= -> ->]]; [by eapply (f_ok _ _ F)|done].
  - intros r m y [[<- [= <- <-]]|[Hne Hy]]%lookup_insert_Some; [by apply (f_excl _ _ F p n x)|].
    by eapply (f_excl _ _ F).
  - intros r m y [[<- [= <- <-]]|[Hne Hy]]%lookup_insert_Some; [by apply (f_finish _ _ F p n x)|].
    by eapply (f_finish _ _ F).
  - intros r m y [[<- [= <- <-]]|[Hne Hy]]%lookup_insert_Some Hr Ho; [done|].
    eapply (f_served _ _ F); [done| |done]. intros ->. by destruct (Hex r eq_refl).
  - intros r m y [[<- [= <- <-]]|[Hne Hy]]%lookup_insert_Some; [by apply (f_labelled _ _ F p n x)|].
    by eapply (f_labelled _ _ F).
  - intros r m y [[<- [= <- <-]]|[Hne Hy]]%lookup_insert_Some; [by apply (f_read _ _ F p n x)|].
    by eapply (f_read _ _ F).
Qed.

Lemma wlp_EnqueueMessage p it w :
  flow None w → (is_Some (msg it) → status it = Status_OK) →
  wlp (EnqueueMessage p it) (λ _, flow (Some p)) w.
Proof.
  intros F Hit. apply wlp_bind. unfold wlp at 1, store.
  destruct (heap_ w !! p) as [[n x]|] eqn:Hx; [|done]. apply wlp_modify.
  by eapply (flow_enqueue None).
Qed.

Lemma wlp_push_write_needed p w :
  flow (Some p) w → wlp (push_write_needed p p) (λ _, flow None) w.
Proof.
  intros F. apply wlp_bind. unfold wlp at 1, deref.
  destruct (heap_ w !! p) as [[n x]|]; [|done]. unfold wlp, push_event.
  destruct (event_queues w !! event_queue_ x) as [bq|] eqn:Hq; [|done].
  unfold Push. destruct (QueueNotFullCondition bq); [|done].
  apply (flow_push (Some p) w _ _ (mkUniqueEventPtr (InternalRpcEvent WRITE_NEEDED p) DELETE) Hq)
    in F; [|done]. simpl in F. by rewrite decide_True in F.
Qed.

Lemma wlp_enqueue_and_push p it w :
  flow None w → (is_Some (msg it) → status it = Status_OK) →
  wlp (EnqueueMessage p it ;; weak ← ActiveRpcs_GetWeakPtr p; push_write_needed p weak)
    (λ _, flow None) w.
Proof.
  intros F Hit. apply wlp_bind. eapply wlp_mono; [by apply wlp_EnqueueMessage|].
  intros [] w' F'. apply wlp_bind, wlp_bind. unfold wlp at 1, get.
  apply wlp_bind, wlp_check. intros _. apply wlp_ret. by apply wlp_push_write_needed.
Qed.

Lemma kf_enqueue_and_push p it :
  (is_Some (msg it) → status it = Status_OK) →
  preserves (keeps_flow None)
    (EnqueueMessage p it ;; weak ← ActiveRpcs_GetWeakPtr p; push_write_needed p weak).
Proof.
  intros Hit. apply kf_wlp. intros w F. by apply wlp_enqueue_and_push.
Qed.

Lemma kf_run_action p a : preserves (keeps_flow None) (run_action p a).
Proof.
  destruct a; simpl.
  - by apply kf_enqueue_and_push.
  - unfold RpcHandler_Finish, log_span. apply preserves_bind; [apply _| |intros _; preserves_tac].
    apply kf_enqueue_and_push. by intros [].
  - unfold RpcHandler_GetWriter. preserves_tac.
Qed.
#[local] Hint Resolve kf_run_action : preserves.

Lemma kf_call_handler p cb body : preserves (keeps_flow None) (call_handler p cb body).
Proof. unfold call_handler, log_callback. preserves_tac. Qed.
#[local] Hint Resolve kf_call_handler : preserves.
Lemma kf_OnRequest p : preserves (keeps_flow None) (OnRequest p).
Proof. unfold OnRequest. preserves_tac. Qed.
Lemma kf_OnReadsDone p : preserves (keeps_flow None) (OnReadsDone p).
Proof. unfold OnReadsDone. preserves_tac. Qed.
#[local] Hint Resolve kf_OnRequest kf_OnReadsDone : preserves.
Lemma kf_set_flag ex p e b :
  e ≠ WRITE → e ≠ FINISH → e ≠ READ → preserves (keeps_flow ex) (SetRpcEventState p e b).
Proof. intros. unfold SetRpcEventState. preserves_tac. Qed.
#[local] Hint Resolve kf_set_flag : preserves.
Lemma kf_RequestStreamingReadIfNeeded p :
  preserves (keeps_flow None) (RequestStreamingReadIfNeeded p).
Proof.
  apply kf_wlp. intros w F. apply wlp_bind. unfold wlp at 1, deref.
  destruct (heap_ w !! p) as [[n x]|] eqn:Hx; [|done].
  assert (unary_request (rpc_type (rpc_handler_info_ x)) = false →
    wlp (SetRpcEventState p READ true ;; async_reader_interface p ;; GetRpcEvent p READ ;;
      grpc_call (Read p)) (λ _, flow None) w) as Hs.
  { intros Hu. apply wlp_bind. eapply wlp_SetRpcEventState; [done|].
    assert (preserves (keeps_flow None) (async_reader_interface p ;; GetRpcEvent p READ ;;
      grpc_call (Read p))) as Hk by (unfold async_reader_interface; preserves_tac).
    eapply wlp_mono; [apply Hk|]. intros [] w' Hk'. apply Hk'. by apply flow_read_flag. }
  assert (wlp (OnRequest p ;; OnReadsDone p) (λ _, flow None) w) as Hu.
  { assert (preserves (keeps_flow None) (OnRequest p ;; OnReadsDone p)) as Hk by preserves_tac.
    eapply wlp_mono; [apply Hk|]. intros [] w' Hk'. by apply Hk'. }
  destruct (rpc_type _); auto.
Qed.
#[local] Hint Resolve kf_RequestStreamingReadIfNeeded : preserves.
Lemma kf_OnConnection p : preserves (keeps_flow None) (OnConnection p).
Proof. unfold OnConnection, rpc_handler_factory, log_callback, log_span. preserves_tac. Qed.
Lemma kf_Remove p : preserves (keeps_flow None) (ActiveRpcs_Remove p).
Proof. unfold ActiveRpcs_Remove. preserves_tac. Qed.
#[local] Hint Resolve kf_OnConnection kf_Remove : preserves.
Lemma kf_RemoveIfNotPending p : preserves (keeps_flow None) (RemoveIfNotPending p).
Proof.
  unfold RemoveIfNotPending, IsAnyEventPending, IsRpcEventPending, GetRpcEventState. preserves_tac.
Qed.
#[local] Hint Resolve kf_RemoveIfNotPending : preserves.
Lemma kf_register p :
  preserves (keeps_flow None) (ActiveRpcs_Add p ;; RequestNextMethodInvocation p ;; release p).
Proof. unfold ActiveRpcs_Add, RequestNextMethodInvocation, streaming_interface. preserves_tac. Qed.
#[local] Hint Resolve kf_register : preserves.
Lemma kf_HandleNewConnection p b : preserves (keeps_flow None) (HandleNewConnection p b).
Proof. unfold HandleNewConnection, Clone, SetEventQueue. preserves_tac. Qed.
#[local] Hint Resolve kf_HandleNewConnection : preserves.
Lemma kf_HandleEvent e p b :
  e ≠ WRITE → e ≠ WRITE_NEEDED → preserves (keeps_flow None) (HandleEvent e p b).
Proof.
  intros Hw Hn. unfold HandleEvent, HandleRead, HandleFinish, HandleDone, OnFinish.
  destruct e; try done; preserves_tac.
Qed.

(** *** Sending *)

(** What one call of [PerformFinish] or [PerformWrite] does: it sends the item
    and sets the flag of the call's tag. *)
Definition performs (p : RpcPtr) (n : nat) (x : Rpc) (it : SendItem) (w w' : World) : Prop :=
  ∃ c e x', tag_of c = (p, e) ∧ (e = WRITE ∨ e = FINISH) ∧
    ((is_Some (msg it) → status it = Status_OK) → item_of c = Some (p, it)) ∧
    send_queue_ x' = send_queue_ x ∧ labelled p x' ∧ (reads x → reads x') ∧
    (∀ e', e' = WRITE ∨ e' = FINISH → is_pending x' e' = (bool_decide (e' = e) || is_pending x e')) ∧
    w' = upd_inflight (λ l, l ++ [tag_of c]) (upd_grpc_calls (λ l, l ++ [c])
      (upd_heap (insert p (n, x')) w)).

Lemma performs_intro p n x it w c e g :
  labelled p x → tag_of c = (p, e) → e = WRITE ∨ e = FINISH →
  ((is_Some (msg it) → status it = Status_OK) → item_of c = Some (p, it)) →
  performs p n x it w (upd_inflight (λ l, l ++ [tag_of c]) (upd_grpc_calls (λ l, l ++ [c])
    (upd_heap (insert p (n, set_response g (update_event_member e (set_pending true) x))) w))).
Proof.
  intros Hl Ht He Hit.
  exists c, e, (set_response g (update_event_member e (set_pending true) x)).
  split_and!; try done.
  - by destruct He as [-> | ->].
  - destruct He as [-> | ->]; intros [] ev Hev; simplify_eq/=; by apply Hl.
  - by destruct He as [-> | ->].
  - intros e' [-> | ->]; destruct He as [-> | ->]; simpl; unfold is_pending; simpl; done.
Qed.

Lemma set_response_same x : set_response (λ m, m) x = x.
Proof. by destruct x. Qed.

Lemma wlp_PerformFinish p n x it w :
  heap_ w !! p = Some (n, x) → labelled p x →
  wlp (PerformFinish p (msg it) (status it)) (λ _, performs p n x it w) w.
Proof.
  intros Hx Hl. apply wlp_bind. eapply wlp_SetRpcEventState; [done|].
  apply wlp_bind. eapply wlp_deref; [apply lookup_insert_eq|]. simpl.
  set (x1 := set_finish_event _ x).
  assert (∀ b o, wlp (check (bool_decide (msg it = None)) "PerformFinish" ;; use_stream b o ;;
    grpc_call (FinishStream p (status it))) (λ _, performs p n x it w)
    (upd_heap (insert p (n, x1)) w)) as Hs.
  { intros b o. apply wlp_bind, wlp_check. intros Hm%bool_decide_eq_true.
    apply wlp_bind, wlp_use_stream, wlp_modify. rewrite <- (set_response_same x1).
    apply (performs_intro p n x it w (FinishStream p (status it)) FINISH); auto.
    intros _. destruct it. simpl in *. by rewrite Hm. }
  assert (∀ b o, wlp (store p (set_response (λ _, msg it)) ;; use_stream b o ;;
    SendUnaryFinish p (status it) (msg it)) (λ _, performs p n x it w)
    (upd_heap (insert p (n, x1)) w)) as Hu.
  { intros b o. apply wlp_bind. eapply wlp_store; [apply lookup_insert_eq|].
    apply wlp_bind, wlp_use_stream. rewrite insert_heap_twice.
    destruct it as [[m|] s]; apply wlp_modify;
      [apply (performs_intro p n x _ w (FinishMsg p m s) FINISH)
      |apply (performs_intro p n x _ w (FinishWithError p s) FINISH)]; auto. }
  destruct (rpc_type _); auto.
Qed.

Lemma wlp_PerformWrite p n x it w :
  heap_ w !! p = Some (n, x) → labelled p x →
  wlp (PerformWrite p (msg it) (status it)) (λ _, performs p n x it w) w.
Proof.
  intros Hx Hl. apply wlp_bind. eapply wlp_deref; [done|].
  destruct it as [[m|] s]; simpl; [|done].
  apply wlp_bind, wlp_check. intros _. apply wlp_bind, wlp_check. intros _.
  apply wlp_bind. eapply wlp_SetRpcEventState; [done|].
  apply wlp_bind. eapply wlp_store; [apply lookup_insert_eq|]. rewrite insert_heap_twice.
  apply wlp_bind, wlp_bind. eapply wlp_deref; [apply lookup_insert_eq|].
  assert (∀ w1 : World, w1 = upd_heap (insert p (n, set_response (λ _, Some m)
      (update_event_member WRITE (set_pending true) x))) w →
    wlp (grpc_call (WriteMsg p m)) (λ _, performs p n x (mkSendItem (Some m) s) w) w1) as Hc.
  { intros w1 ->. apply wlp_modify.
    apply (performs_intro p n x _ w (WriteMsg p m) WRITE); auto. simpl.
    intros Hs. rewrite Hs by eauto. done. }
  destruct (rpc_type _); try done; apply wlp_use_stream; by apply Hc.
Qed.

(** An item is taken off the queue of [p]. *)
Lemma flow_take_item p n x it rest w :
  flow (Some p) w → heap_ w !! p = Some (n, x) → send_queue_ x = it :: rest → hand p = [] →
  is_pending x WRITE = false → is_pending x FINISH = false →
  flow_among (hand := <[p := [it]]> hand) (others := others) (Some p)
    (upd_heap (insert p (n, set_send_queue (λ _, rest) x)) w).
Proof.
  intros F Hx Hsq Hha Hpw Hpf.
  pose proof (f_live _ _ F _ _ _ Hx) as Hlive. rewrite Hha, Hsq in Hlive.
  split; simpl; try apply F.
  - intros r Hr. destruct (f_fresh _ _ F r Hr) as (Hn & ?).
    assert (p ≠ r) as Hne by (intros ->; congruence). by rewrite lookup_insert_ne, fn_lookup_insert_ne.
  - intros r m y [[<- [= <- <-]]|[Hne Hy]]%lookup_insert_Some; [by rewrite fn_lookup_insert|].
    rewrite fn_lookup_insert_ne by done. by eapply (f_live _ _ F).
  - intros r m y [[<- [= <- <-]]|[Hne Hy]]%lookup_insert_Some; [done|].
    rewrite fn_lookup_insert_ne by done. by eapply (f_hand _ _ F).
  - intros r m y [[<- [= <- <-]]|[Hne Hy]]%lookup_insert_Some; [by apply (f_excl _ _ F p n x)|].
    by eapply (f_excl _ _ F).
  - intros r m y [[<- [= <- <-]]|[Hne Hy]]%lookup_insert_Some; [by apply (f_finish _ _ F p n x)|].
    by eapply (f_finish _ _ F).
  - intros r m y [[<- [= <- <-]]|[Hne Hy]]%lookup_insert_Some Hr Ho; [done|].
    by eapply (f_served _ _ F).
  - intros r m y [[<- [= <- <-]]|[Hne Hy]]%lookup_insert_Some; [by apply (f_labelled _ _ F p n x)|].
    by eapply (f_labelled _ _ F).
  - intros r m y [[<- [= <- <-]]|[Hne Hy]]%lookup_insert_Some; [by apply (f_read _ _ F p n x)|].
    by eapply (f_read _ _ F).
Qed.

(** The item taken off the queue of [p] is sent. *)
Lemma flow_performs hand' p n x it w w' :
  flow_among (hand := hand') (others := others) (Some p) w →
  heap_ w !! p = Some (n, x) → hand' p = [it] → performs p n x it w w' →
  flow_among (hand := <[p := []]> hand') (others := others) None w'.
Proof.
  clear hand. intros F Hx Hha (c & e & x' & Ht & He & Hit & Hs' & Hl' & Hrd' & Hp' & ->).
  pose proof (f_live _ _ F _ _ _ Hx) as Hlive. rewrite Hha in Hlive.
  destruct (f_hand _ _ F _ _ _ Hx) as [Hpw Hpf]; [by rewrite Hha|].
  assert (item_of c = Some (p, it)) as Hc.
  { apply Hit, (f_ok _ _ F p). apply items_elem. rewrite Hlive. set_solver. }
  assert (∀ r, (r = p ∧ sent r (grpc_calls w ++ [c]) = sent r (grpc_calls w) ++ [it]) ∨
    r ≠ p ∧ sent r (grpc_calls w ++ [c]) = sent r (grpc_calls w)) as Hst.
  { intros r. rewrite sent_snoc, Hc. destruct (decide (p = r)) as [->|]; [by left|right].
    split; [done|apply app_nil_r]. }
  assert (∀ r, finished w r → finished (upd_grpc_calls (λ l, l ++ [c]) w) r) as Hfin.
  { intros r (c' & ? & ?). exists c'. simpl. split; [set_solver|done]. }
  assert (∀ e', e' = WRITE ∨ e' = FINISH → is_pending x' e' = bool_decide (e' = e)) as Hp1.
  { intros e' He'. rewrite Hp' by done.
    destruct He' as [-> | ->]; by rewrite ?Hpw, ?Hpf, orb_false_r. }
  pose proof (Hp1 WRITE (or_introl eq_refl)) as Hw1.
  pose proof (Hp1 FINISH (or_intror eq_refl)) as Hf1.
  split; simpl; try apply F.
  - intros r Hr. destruct (f_fresh _ _ F r Hr) as (Hn & Hi & Hse & Hh).
    assert (r ≠ p) as Hne by (intros ->; congruence). rewrite lookup_insert_ne by done.
    rewrite fn_lookup_insert_ne by done. destruct (Hst r) as [[? _]|[_ ->]]; done.
  - intros r m y [[<- [= <- <-]]|[Hne Hy]]%lookup_insert_Some.
    + destruct (Hst p) as [[_ ->]|[? _]]; [|done]. rewrite fn_lookup_insert, Hs', Hlive. simpl.
      by rewrite <- app_assoc.
    + rewrite fn_lookup_insert_ne by done. destruct (Hst r) as [[? _]|[_ ->]]; [done|].
      by eapply (f_live _ _ F).
  - intros r m y [[<- [= <- <-]]|[Hne Hy]]%lookup_insert_Some; [by rewrite fn_lookup_insert|].
    rewrite fn_lookup_insert_ne by done. by eapply (f_hand _ _ F).
  - intros r. destruct (Hst r) as [[-> ->]|[_ ->]]; [|apply F].
    exists (send_queue_ x). by rewrite Hlive, <- app_assoc.
  - intros r m y [[<- [= <- <-]]|[Hne Hy]]%lookup_insert_Some; [|by eapply (f_excl _ _ F)].
    rewrite Hw1, Hf1. by destruct He as [-> | ->].
  - intros r m y [[<- [= <- <-]]|[Hne Hy]]%lookup_insert_Some Hf.
    + rewrite Hf1 in Hf. apply bool_decide_eq_true in Hf as <-. exists c. simpl. set_solver.
    + apply Hfin. by eapply (f_finish _ _ F).
  - intros r m y [[<- [= <- <-]]|[Hne Hy]]%lookup_insert_Some _ Ho; unfold served.
    + rewrite Hw1, Hf1. destruct He as [-> | ->]; auto.
    + destruct (f_served _ _ F r m y Hy) as [?|[?|[?|[Hf|?]]]];
        [congruence|done|auto..]. do 3 right. left. by apply Hfin.
  - intros r m y [[<- [= <- <-]]|[Hne Hy]]%lookup_insert_Some; [done|by eapply (f_labelled _ _ F)].
  - intros r m y [[<- [= <- <-]]|[Hne Hy]]%lookup_insert_Some; [|by eapply (f_read _ _ F)].
    by apply Hrd', (f_read _ _ F p n x).
Qed.

(** The exemption ends once the object is known to be served. *)
Lemma flow_close p w :
  flow (Some p) w → (∀ n x, heap_ w !! p = Some (n, x) → served w p x) → flow None w.
Proof.
  intros F Hp. destruct F; split; try done. intros r n x Hx _ Ho.
  destruct (decide (r = p)) as [->|Hne]; [by eapply Hp|]. eapply f_served0; [done|congruence|done].
Qed.

(** What is exempt and in hand, up to extensionality. *)
Lemma flow_weaken hand1 hand2 (others1 others2 : RpcPtr → Prop) ex ex' w :
  (∀ r, hand2 r = hand1 r) →
  (∀ r, ex = Some r ∨ others1 r → ex' = Some r ∨ others2 r) →
  flow_among (hand := hand1) (others := others1) ex w →
  flow_among (hand := hand2) (others := others2) ex' w.
Proof.
  intros Hh Ho F. destruct F; split; try done.
  - intros r Hr. rewrite Hh. by apply f_fresh0.
  - intros r n x Hx. rewrite Hh. by eapply f_live0.
  - intros r n x Hx. rewrite Hh. by eapply f_hand0.
  - intros r n x Hx He Hr. apply (f_served0 r n x Hx); intros ?; destruct (Ho r); auto.
Qed.

(** The critical section of [HandleSendQueue]: it has nothing to do, or takes
    the first item. *)
Lemma wlp_pop_send_item p n x w :
  flow (Some p) w → hand p = [] → heap_ w !! p = Some (n, x) →
  wlp (pop_send_item p) (λ popped w',
    match popped with
    | None => flow None w'
    | Some it => flow_among (hand := <[p := [it]]> hand) (others := others) (Some p) w'
    end) w.
Proof.
  intros F Hha Hx. apply wlp_bind. eapply wlp_deref; [done|].
  apply wlp_bind. eapply wlp_IsRpcEventPending; [done|].
  apply wlp_bind. eapply wlp_IsRpcEventPending; [done|].
  assert (served w p x → flow None w) as Hs
    by (intros Hs; apply (flow_close p); [done|]; intros; by simplify_eq).
  destruct (send_queue_ x) as [|it rest] eqn:Hsq; [apply wlp_ret, Hs; by left|].
  destruct (is_pending x WRITE) eqn:Hpw; [apply wlp_ret, Hs; by right; left|].
  destruct (is_pending x FINISH) eqn:Hpf; [apply wlp_ret, Hs; by do 2 right; left|]. simpl.
  apply wlp_bind. eapply wlp_store; [done|]. apply wlp_ret. by apply flow_take_item.
Qed.

Lemma wlp_performs hand' p n x it (b : bool) w :
  flow_among (hand := hand') (others := others) (Some p) w → hand' p = [it] →
  heap_ w !! p = Some (n, x) →
  wlp (if b then PerformFinish p (msg it) (status it) else PerformWrite p (msg it) (status it))
    (λ _, flow_among (hand := <[p := []]> hand') (others := others) None) w.
Proof.
  intros F Hha Hx. pose proof (f_labelled _ _ F _ _ _ Hx).
  destruct b; (eapply wlp_mono; [by apply wlp_PerformFinish || by apply wlp_PerformWrite|]);
    intros [] w' Hp; by eapply flow_performs.
Qed.

Lemma flow_open p w : flow None w → flow (Some p) w.
Proof. intros F. destruct F; split; try done. intros r n x Hx _. by eapply f_served0. Qed.

Lemma wlp_same {A} (m m' : M World A) Q w : same m m' → wlp m' Q w → wlp m Q w.
Proof. unfold wlp. by intros ->. Qed.

Lemma wlp_HandleSendQueue p w :
  flow (Some p) w → hand p = [] → wlp (HandleSendQueue p) (λ _, flow None) w.
Proof.
  intros F Hha. eapply wlp_same; [apply pop_send_item_steps|].
  apply wlp_bind. destruct (heap_ w !! p) as [[n x]|] eqn:Hx;
    [|unfold wlp, pop_send_item, deref, mbind, M_bind; by rewrite Hx].
  eapply wlp_mono; [by eapply wlp_pop_send_item|]. intros [it|] w1 F1; [|by apply wlp_ret].
  apply wlp_bind. unfold wlp at 1, deref.
  destruct (heap_ w1 !! p) as [[n1 x1]|] eqn:Hx1; [|done].
  eapply wlp_mono; [eapply wlp_performs; [exact F1|apply fn_lookup_insert|done]|].
  intros [] w2. apply flow_weaken; [|done]. intros r. destruct (decide (p = r)) as [<-|Hne].
  - by rewrite fn_lookup_insert.
  - by rewrite !fn_lookup_insert_ne.
Qed.

Lemma wlp_HandleWrite p b w :
  flow (Some p) w → hand p = [] → wlp (HandleWrite p b) (λ _, flow None) w.
Proof.
  intros F Hha. apply wlp_bind. eapply wlp_mono; [by apply wlp_HandleSendQueue|].
  intros [] w' F'. eapply wlp_mono; [apply kf_RemoveIfNotPending|]. intros [] w'' Hk. by apply Hk.
Qed.

(** ** Steps *)

Lemma flow_pop w q bq p d :
  flow None w → event_queues w !! q = Some bq → deque_ bq = p :: d →
  flow (weak_in p) (upd_event_queues (insert q (mkBlockingQueue (queue_size_ bq) d)) w).
Proof.
  intros F Hq Hd. split; try apply F.
  - intros r n x Hx Hr Ho. unfold served.
    destruct (f_served _ _ F r n x Hx) as [?|[?|[?|[?|[Ha|?]]]]]; [done|done|auto..| |].
    + do 4 right. left. destruct Ha as (q' & b & Hb & Hin). destruct (decide (q = q')) as [<-|Hne].
      * exists q, (mkBlockingQueue (queue_size_ bq) d). simpl.
        rewrite list_lookup_insert_eq by (by eapply lookup_lt_Some). split; [done|].
        simplify_eq. unfold weaks in *. simpl. rewrite Hd in Hin. simpl in Hin.
        destruct (weak_in p) as [r'|]; [|done]. apply elem_of_cons in Hin as [->|?]; [|done].
        congruence.
      * exists q', b. simpl. by rewrite list_lookup_insert_ne.
    + do 4 right. by right.
  - simpl. intros q' b [(-> & <- & _)|[_ Hb]]%list_lookup_insert_Some;
      [|by eapply (f_internal _ _ F)].
    pose proof (f_internal _ _ F _ _ Hq) as Hall. rewrite Hd in Hall. by inversion Hall.
Qed.

(** Clearing the flag of an event before it is handled. *)
Lemma flow_clear w p n x e :
  flow None w → heap_ w !! p = Some (n, x) →
  flow (if decide (e = WRITE) then Some p else None)
    (upd_heap (insert p (n, update_event_member e (set_pending false) x)) w).
Proof.
  intros F Hx. assert (labelled p (update_event_member e (set_pending false) x)) as Hl.
  { pose proof (f_labelled _ _ F _ _ _ Hx) as Hl. destruct e; intros [] ev Hev;
      simplify_eq/=; by apply Hl. }
  assert (∀ e', is_pending (update_event_member e (set_pending false) x) e' = true →
    is_pending x e' = true) as Hp by (by destruct e, e').
  eapply flow_replace; [|exact Hx|by destruct e|auto|auto| |done|].
  - destruct (decide _); [by apply flow_open|done].
  - destruct (decide (e = WRITE)) as [->|Hne]; [done|]. intros _ Hs.
    destruct Hs as [Hs|[Hs|[Hs|[Hs|Hs]]]]; unfold served.
    + left. by destruct e.
    + right. left. by destruct e.
    + do 3 right. left. by eapply (f_finish _ _ F).
    + auto.
    + do 4 right. done.
  - pose proof (f_read _ _ F _ _ _ Hx) as Hr. unfold reads in *. intros He%Hp. by destruct e; apply Hr.
Qed.

Lemma wlp_completion_Handle p e w :
  flow None w → hand p = [] → wlp (CompletionQueueRpcEvent_Handle p e) (λ _, flow None) w.
Proof.
  intros F Hha. apply wlp_bind, wlp_bind. unfold wlp at 1, deref.
  destruct (heap_ w !! p) as [[n x]|] eqn:Hx; [|done].
  destruct (event_member x e) as [ev|] eqn:Hev; [|done]. apply wlp_ret.
  destruct (f_labelled _ _ F _ _ _ Hx _ _ Hev) as [-> ->].
  apply wlp_bind. eapply wlp_SetRpcEventState; [done|].
  pose proof (flow_clear w p n x e F Hx) as Fc. destruct (decide (e = WRITE)) as [->|Hne].
  - by apply wlp_HandleWrite.
  - eapply wlp_mono; [apply (kf_HandleEvent e p (ok ev)); [done|by intros ->]|].
    intros [] w' Hk. by apply Hk.
Qed.

Lemma wlp_internal_Handle p w :
  flow (Some p) w → hand p = [] →
  wlp (InternalRpcEvent_Handle WRITE_NEEDED p) (λ _, flow None) w.
Proof.
  intros F Hha. apply wlp_bind. unfold wlp at 1, lock.
  destruct (heap_ w !! p) as [[n x]|] eqn:Hx.
  - apply wlp_bind. eapply wlp_mono; [apply wlp_HandleWrite; [by eapply flow_recount|done]|].
    intros [] w' F'. eapply wlp_mono; [apply (kf_release None)|]. intros [] w'' Hk. by apply Hk.
  - apply wlp_ret. apply (flow_close p); [done|]. intros. congruence.
Qed.

Lemma kf_exec_event q :
  (∀ r, hand r = []) → preserves (keeps_flow None) (exec (LEvent q)).
Proof.
  intros Hha. apply kf_wlp. intros w F. apply wlp_bind, wlp_bind. unfold wlp at 1, pop_event, PopWithTimeout, pop_front,
    QueueEmptyCondition. destruct (event_queues w !! q) as [bq|] eqn:Hq; [|done].
  destruct (deque_ bq) as [|p d] eqn:Hd; simpl.
  - apply wlp_ret, wlp_ret. unfold upd_event_queues. rewrite list_insert_id by done. by destruct w.
  - apply wlp_bind. pose proof (flow_pop w q bq p d F Hq Hd) as Fp.
    pose proof (f_internal _ _ F _ _ Hq) as Hall. rewrite Hd in Hall.
    apply Forall_cons_1 in Hall as [Hok _]. unfold internal_ok, weak_in in *.
    destruct (event_ptr p) as [r e|e r]; simpl.
    + eapply wlp_mono; [by apply wlp_completion_Handle|]. by intros [] w'' F'.
    + destruct Hok as [-> _]. eapply wlp_mono; [by apply wlp_internal_Handle|]. by intros [] w'' F'.
Qed.

Lemma kf_exec_completion p e b payload :
  preserves (keeps_flow None) (exec (LCompletion p e b payload)).
Proof.
  assert (∀ q, preserves (keeps_flow None)
    (push_event q (mkUniqueEventPtr (CompletionEvent p e) DO_NOT_DELETE))) as Hpush.
  { intros q w. unfold wlp, push_event. destruct (event_queues w !! q) as [bq|] eqn:Hq; [|done].
    unfold Push. destruct (QueueNotFullCondition bq); [|done]. intros F.
    apply (flow_push None w _ _ (mkUniqueEventPtr (CompletionEvent p e) DO_NOT_DELETE) Hq) in F;
      [|done]. simpl in F. done. }
  unfold exec, grpc_completes, RunCompletionQueue_body, PushToEventQueue.
  apply preserves_bind; [apply _| |intros _; preserves_tac].
  apply preserves_bind; [apply _| |intros _; preserves_tac].
  apply kf_modify. intros w. by destruct (_ && _).
Qed.

(** A writer call moves to its next step. *)
Lemma flow_written ex f w : flow ex w → flow ex (upd_written f w).
Proof. intros []. by split. Qed.

Lemma flow_set_pc ex ex' w i t pc :
  flow ex w → threads w !! i = Some t →
  (∀ r, ex = Some r → ex' = Some r ∨ r = wt_rpc t ∧ pc = AtGetWeakPtr) →
  (wt_pc t = AtGetWeakPtr ∨ wt_pc t = AtPush →
     (pc = AtGetWeakPtr ∨ pc = AtPush) ∨
     ∃ q bq, event_queues w !! q = Some bq ∧ wt_rpc t ∈ weaks bq) →
  flow ex' (upd_threads (insert i (mkWriterThread (wt_rpc t) (wt_op t) pc)) w).
Proof.
  intros F Hi Hex Hpc. set (t' := mkWriterThread _ _ pc). set (w' := upd_threads _ w).
  assert (t' ∈ threads w') as Ht'.
  { apply list_elem_of_lookup. exists i. simpl.
    by rewrite list_lookup_insert_eq by (by eapply lookup_lt_Some). }
  assert (∀ r, announced w r → announced w' r) as Ha.
  { intros r [?|(u & Hu & Hr & Hupc)]; [by left|].
    apply list_elem_of_lookup in Hu as [j Hj]. destruct (decide (i = j)) as [<-|Hne].
    - simplify_eq. destruct (Hpc Hupc) as [?|?]; [right|by left]. by exists t'.
    - right. exists u. split_and!; try done. apply list_elem_of_lookup. exists j. simpl.
      by rewrite list_lookup_insert_ne. }
  split; try apply F. intros r n x Hx Hr Ho. unfold served.
  destruct (decide (ex = Some r)) as [->|Hne].
  - do 4 right. right. exists t'. destruct (Hex r eq_refl) as [?|[-> ->]]; [done|by auto].
  - destruct (f_served _ _ F r n x Hx Hne Ho) as [?|[?|[?|[?|?]]]]; auto 10.
Qed.

Lemma writer_item_ok op : is_Some (msg (writer_item op)) → status (writer_item op) = Status_OK.
Proof. destruct op; simpl; [done|by intros []..]. Qed.

Lemma EnqueueMessage_threads p it w w' :
  EnqueueMessage p it w = Ok tt w' → threads w' = threads w.
Proof.
  unfold EnqueueMessage, store, modify, mbind, M_bind. by repeat case_match; intros; simplify_eq.
Qed.

Lemma push_write_needed_threads p w w' :
  push_write_needed p p w = Ok tt w' → threads w' = threads w ∧
    ∃ q bq, event_queues w' !! q = Some bq ∧ p ∈ weaks bq.
Proof.
  clear hand others. unfold push_write_needed, deref, push_event, mbind, M_bind.
  destruct (heap_ w !! p) as [[n x]|]; [|done].
  destruct (event_queues w !! event_queue_ x) as [bq|] eqn:Hq; [|done].
  unfold Push. destruct (QueueNotFullCondition bq); [|done]. intros [= <-]. split; [done|].
  eexists (event_queue_ x), _. simpl.
  rewrite list_lookup_insert_eq by (by eapply lookup_lt_Some). split; [done|].
  rewrite weaks_push_back. set_solver.
Qed.

Lemma release_threads p w w' : release p w = Ok tt w' → threads w' = threads w.
Proof. unfold release. by repeat case_match; intros; simplify_eq. Qed.

Lemma flow_thread_return w i t :
  flow None w → threads w !! i = Some t → wt_pc t = AtReturn →
  flow None (upd_threads (delete i) w).
Proof.
  intros F Hi Hpc. split; try apply F. intros r n x Hx Hr Ho.
  destruct (f_served _ _ F r n x Hx Hr Ho) as [?|[?|[?|[?|[?|Ha]]]]]; unfold served; auto;
    [do 4 right; by left|].
  do 4 right. right. destruct Ha as (u & Hu & Hur & Hupc). exists u. split; [|done]. simpl.
  apply list_elem_of_lookup in Hu as [j Hj]. apply list_elem_of_lookup.
  destruct (decide (j < i)).
  - exists j. by rewrite list_lookup_delete_lt.
  - exists (pred j). rewrite list_lookup_delete_ge.
    + assert (j ≠ i) by (intros ->; simplify_eq; naive_solver congruence).
      by replace (S (pred j)) with j by lia.
    + assert (j ≠ i) by (intros ->; simplify_eq; naive_solver congruence). lia.
Qed.

Lemma wlp_Writer_step i w : flow None w → wlp (Writer_step i) (λ _, flow None) w.
Proof.
  intros F. apply wlp_bind. unfold wlp at 1, get.
  destruct (threads w !! i) as [t|] eqn:Hi; [|done]. destruct (wt_pc t) eqn:Hpc.
  - apply wlp_bind, wlp_intro. intros [] w' Hx. apply wlp_bind, wlp_modify, wlp_modify.
    pose proof (wlp_ok _ (λ _, flow (Some (wt_rpc t))) _ _ _
      (wlp_EnqueueMessage _ _ _ F (writer_item_ok (wt_op t))) Hx) as F'.
    apply EnqueueMessage_threads in Hx. eapply (flow_set_pc (Some (wt_rpc t))).
    + by apply flow_written.
    + simpl. congruence.
    + intros r [= ->]. auto.
    + rewrite Hpc. by intros [].
  - apply wlp_bind, wlp_bind. unfold wlp at 1, get. apply wlp_bind, wlp_check. intros _.
    apply wlp_ret, wlp_modify. eapply (flow_set_pc None); auto.
  - apply wlp_bind, wlp_intro. intros [] w' Hx. apply wlp_modify.
    pose proof (wlp_ok _ (λ _, flow None) _ _ _
      (wlp_push_write_needed _ _ (flow_open (wt_rpc t) _ F)) Hx) as F'.
    apply push_write_needed_threads in Hx as [Et Hq].
    eapply (flow_set_pc None); [done|congruence|done|auto].
  - apply wlp_bind. unfold wlp at 1, deref.
    destruct (heap_ w !! wt_rpc t) as [[n x]|]; [|done]. apply wlp_bind.
    destruct (handler_ x); [|done].
    assert (∀ w', flow None w' → threads w' = threads w →
      wlp (set_pc i t AtReturn) (λ _, flow None) w') as Hset.
    { intros w' F' Et. apply wlp_modify. eapply (flow_set_pc None); [done|by rewrite Et|done|].
      rewrite Hpc. by intros []. }
    destruct (wt_op t); [by apply wlp_ret, Hset..|]. apply wlp_modify, Hset; [|done].
    by eapply (flow_same None w).
  - apply wlp_bind, wlp_intro. intros [] w' Hx. apply wlp_modify.
    pose proof (preserves_Ok _ _ _ _ _ (kf_release None _) Hx F) as F'.
    apply release_threads in Hx. eapply (flow_thread_return _ i t); [done|by rewrite Hx|done].
Qed.

Lemma kf_exec l :
  (∀ q, l = LEvent q → ∀ r, hand r = []) → preserves (keeps_flow None) (exec l).
Proof.
  intros Hl. destruct l as [p e b payload|q|p op|i| | |c].
  - apply kf_exec_completion.
  - by apply kf_exec_event, (Hl q).
  - apply kf_wlp. intros w F. apply wlp_bind, wlp_bind. unfold wlp at 1, lock.
    destruct (heap_ w !! p) as [[n x]|] eqn:Hx; [|by apply wlp_ret, wlp_ret].
    apply wlp_bind, wlp_modify, wlp_ret, wlp_ret.
    apply (flow_recount _ w p n (S n) x) in F; [|done]. split; try apply F.
    intros r m y Hy Hr Ho. destruct (f_served _ _ F r m y Hy Hr Ho) as [?|[?|[?|[?|[?|Ha]]]]];
      unfold served; auto; [do 4 right; by left|].
    do 4 right. right. destruct Ha as (t & Ht & ?). exists t. simpl. split; [set_solver|done].
  - apply kf_wlp. intros w F. by apply wlp_Writer_step.
  - simpl. unfold StopServing. preserves_tac.
  - simpl. preserves_tac.
  - simpl. preserves_tac.
Qed.

Lemma kf_StartServing infos cqs : preserves (keeps_flow None) (StartServing infos cqs).
Proof.
  unfold StartServing. generalize 0 as i.
  induction infos as [|info infos IH]; intros i; simpl; preserves_tac.
Qed.

Lemma flow_init n s c : (∀ r, hand r = []) → flow None (world_init n s c).
Proof.
  intros Hha. split; simpl; try done; try set_solver.
  intros q bq [-> _]%lookup_replicate. constructor.
Qed.

End among.

(** Between two events nothing is in anybody's hand. *)
Lemma flow_live ex w r n x :
  flow_among (hand := λ _, []) (others := λ _, False) ex w → heap_ w !! r = Some (n, x) →
  items r (enqueued w) = sent r (grpc_calls w) ++ send_queue_ x.
Proof. intros F. apply (f_live _ _ F). Qed.

Lemma run_flow infos cqs n s c w :
  run infos cqs n s c w → flow_among (hand := λ _, []) (others := λ _, False) None w.
Proof.
  induction 1 as [w Hs|w l w' Hr IH [_ Hx]].
  - by eapply (preserves_Ok _ _ _ _ _ (kf_StartServing infos cqs) Hs), flow_init.
  - by eapply (preserves_Ok _ _ _ _ _ (kf_exec l ltac:(done)) Hx).
Qed.

End flow.

Abbreviation flow := (flow_among (hand := λ _, []) (others := λ _, False)).
