(* ===== verification/ServiceProtocol.v ===== *)
(** * Handlers and listeners

    Two promises of the service to the application: a handler's callbacks
    come in a fixed order, and for every method and completion queue there is
    always one RPC object that waits for the next connection.  Both rest on
    the frame property that handling an event changes no other RPC object. *)

From Stdlib Require Import ZArith Lia.
From stdpp Require Import base option list strings gmap.
From S2P Require Import Prelude Interfaces BlockingQueue Rpc Service ServiceInv ServiceLemmas.
From S2P Require Import ServiceHandlers ServiceSafety ServiceSteps ServiceFlow.
Import Event EventDeleter.

Set Default Proof Using "Type".

Section frame.
Context `{GrpcStatus, Application, EventQueueSelector}.

(** ** What handling an event for [this] can change *)

(** The part of an object that handlers of connected RPCs leave alone. *)
Definition fixed (x : Rpc) : nat * nat * RpcHandlerInfo * bool :=
  (method_index_ x, server_completion_queue_ x, rpc_handler_info_ x, is_pending x NEW_CONNECTION).

Record touches (this : RpcPtr) (w w' : World) : Prop := {
  t_others : delete this (heap_ w') = delete this (heap_ w);
  t_next : next_ptr w' = next_ptr w;
  t_down : shutting_down_ w' = shutting_down_ w;
  t_fixed : ∀ n' x', heap_ w' !! this = Some (n', x') →
    ∃ n x, heap_ w !! this = Some (n, x) ∧ fixed x' = fixed x;
  t_rpcs : ∀ r, r ≠ this → r ∈ rpcs_ w' ↔ r ∈ rpcs_ w
}.

#[global] Instance touches_preorder this : PreOrder (touches this).
Proof.
  split; [split; by eauto|]. intros w1 w2 w3 [O1 N1 D1 F1 R1] [O2 N2 D2 F2 R2].
  split; [congruence..| |by intros r Hr; rewrite R2, R1]. intros n3 x3 H3. destruct (F2 _ _ H3) as (n2 & x2 & H2 & E2).
  destruct (F1 _ _ H2) as (n1 & x1 & ? & ?). exists n1, x1. split; [done|congruence].
Qed.

Lemma touches_insert this n n' x x' w :
  heap_ w !! this = Some (n, x) → fixed x' = fixed x →
  touches this w (upd_heap (insert this (n', x')) w).
Proof.
  intros Hx Hf. split; simpl; try done; [by rewrite delete_insert_eq|].
  intros m y. rewrite lookup_insert_eq. intros [= <- <-]. eauto.
Qed.

Lemma touches_same this w w' :
  heap_ w' = heap_ w → next_ptr w' = next_ptr w → shutting_down_ w' = shutting_down_ w →
  (∀ r, r ≠ this → r ∈ rpcs_ w' ↔ r ∈ rpcs_ w) → touches this w w'.
Proof. intros E1 E2 E3 E4. split; rewrite ?E1; eauto. Qed.

Lemma tc_deref this p : preserves (touches this) (deref p).
Proof. intros w. unfold wlp, deref. repeat case_match; simplify_eq; try done; reflexivity. Qed.
Lemma tc_store this f : (∀ x, fixed (f x) = fixed x) → preserves (touches this) (store this f).
Proof.
  intros Hf w. unfold wlp, store. destruct (heap_ w !! this) as [[n x]|] eqn:Hx; [|done].
  by eapply touches_insert.
Qed.
Lemma tc_lock this : preserves (touches this) (lock this).
Proof.
  intros w. unfold wlp, lock. destruct (heap_ w !! this) as [[n x]|] eqn:Hx; [|reflexivity].
  by eapply touches_insert.
Qed.
Lemma tc_release this : preserves (touches this) (release this).
Proof.
  intros w. unfold wlp, release.
  assert (∀ f, touches this w (upd_heap (delete this) (upd_spans f w))) as Hd.
  { intros f. split; simpl; try done; [by rewrite delete_delete_eq|]. intros n x. by rewrite lookup_delete_eq. }
  destruct (heap_ w !! this) as [[[|[|n]] x]|] eqn:Hx; try done. by eapply touches_insert.
Qed.
Lemma tc_push_event this q p : preserves (touches this) (push_event q p).
Proof. intros w. unfold wlp, push_event. repeat case_match; simplify_eq; try done; by apply touches_same. Qed.
Lemma tc_modify this (f : World → World) :
  (∀ w, heap_ (f w) = heap_ w ∧ next_ptr (f w) = next_ptr w ∧
     shutting_down_ (f w) = shutting_down_ w ∧
     (∀ r, r ≠ this → r ∈ rpcs_ (f w) ↔ r ∈ rpcs_ w)) → preserves (touches this) (modify f).
Proof.
  intros Hf. apply preserves_modify. intros w. destruct (Hf w) as (? & ? & ? & ?).
  by apply touches_same.
Qed.

#[local] Hint Resolve tc_deref tc_lock tc_release tc_push_event : preserves.
#[local] Hint Extern 1 (preserves (touches _) (modify _)) =>
  apply tc_modify; intros ?; split_and!; [reflexivity..|simpl; set_solver] : preserves.
#[local] Hint Extern 1 (preserves (touches _) (store _ _)) =>
  apply tc_store; intros ?; first [reflexivity | match goal with e : Event.t |- _ => by destruct e end]
  : preserves.

Lemma tc_GetRpcEvent this e : preserves (touches this) (GetRpcEvent this e).
Proof. unfold GetRpcEvent. preserves_tac. Qed.
#[local] Hint Resolve tc_GetRpcEvent : preserves.
Lemma tc_SetRpcEventState this e b :
  e ≠ NEW_CONNECTION → preserves (touches this) (SetRpcEventState this e b).
Proof. intros He. unfold SetRpcEventState. preserves_tac. Qed.
Lemma tc_IsRpcEventPending this e : preserves (touches this) (IsRpcEventPending this e).
Proof. unfold IsRpcEventPending, GetRpcEventState. preserves_tac. Qed.
Lemma tc_grpc_call this c : preserves (touches this) (grpc_call c).
Proof. unfold grpc_call. preserves_tac. Qed.
Lemma tc_use_stream this b o : preserves (touches this) (use_stream b o).
Proof. unfold use_stream. preserves_tac. Qed.
Lemma tc_GetWeakPtr this p : preserves (touches this) (ActiveRpcs_GetWeakPtr p).
Proof. unfold ActiveRpcs_GetWeakPtr. preserves_tac. Qed.
#[local] Hint Resolve tc_IsRpcEventPending tc_grpc_call tc_use_stream tc_GetWeakPtr : preserves.
#[local] Hint Extern 1 (preserves (touches _) (SetRpcEventState _ _ _)) =>
  apply tc_SetRpcEventState; discriminate : preserves.
Lemma tc_push_write_needed this p : preserves (touches this) (push_write_needed p p).
Proof. unfold push_write_needed. preserves_tac. Qed.
Lemma tc_EnqueueMessage this it : preserves (touches this) (EnqueueMessage this it).
Proof. unfold EnqueueMessage. preserves_tac. Qed.
#[local] Hint Resolve tc_push_write_needed tc_EnqueueMessage : preserves.

Lemma tc_run_action this a : preserves (touches this) (run_action this a).
Proof.
  unfold run_action, RpcHandler_Send, RpcHandler_Finish, RpcHandler_GetWriter, log_span, Rpc_Write,
    Rpc_Finish, push_write_needed. preserves_tac.
Qed.
#[local] Hint Resolve tc_run_action : preserves.
Lemma tc_call_handler this cb body : preserves (touches this) (call_handler this cb body).
Proof. unfold call_handler, log_callback. preserves_tac. Qed.
#[local] Hint Resolve tc_call_handler : preserves.
Lemma tc_OnRequest this : preserves (touches this) (OnRequest this).
Proof. unfold OnRequest. preserves_tac. Qed.
#[local] Hint Resolve tc_OnRequest : preserves.
Lemma tc_RequestStreamingReadIfNeeded this :
  preserves (touches this) (RequestStreamingReadIfNeeded this).
Proof. unfold RequestStreamingReadIfNeeded, async_reader_interface, OnReadsDone. preserves_tac. Qed.
#[local] Hint Resolve tc_RequestStreamingReadIfNeeded : preserves.
Lemma tc_OnConnection this : preserves (touches this) (OnConnection this).
Proof. unfold OnConnection, rpc_handler_factory, log_callback, log_span. preserves_tac. Qed.
Lemma tc_HandleSendQueue this : preserves (touches this) (HandleSendQueue this).
Proof.
  unfold HandleSendQueue, PerformFinish, PerformWrite, SendUnaryFinish, async_writer_interface.
  preserves_tac.
Qed.
Lemma tc_Remove this : preserves (touches this) (ActiveRpcs_Remove this).
Proof. unfold ActiveRpcs_Remove. preserves_tac. Qed.
#[local] Hint Resolve tc_OnConnection tc_HandleSendQueue tc_Remove : preserves.
Lemma tc_RemoveIfNotPending this : preserves (touches this) (RemoveIfNotPending this).
Proof. unfold RemoveIfNotPending, IsAnyEventPending. preserves_tac. Qed.
#[local] Hint Resolve tc_RemoveIfNotPending : preserves.
Lemma tc_HandleEvent this e b :
  e ≠ NEW_CONNECTION → preserves (touches this) (HandleEvent e this b).
Proof.
  intros He. unfold HandleEvent, HandleRead, HandleWrite, HandleFinish, HandleDone, OnFinish,
    OnReadsDone. destruct e; try done; preserves_tac.
Qed.

(** ** Operations that make no callback *)

(** The flags the order of callbacks depends on. *)
Definition flags (x : Rpc) : bool * bool := (is_pending x READ, is_pending x DONE).

(** No callback is made and the flags of [this] stay as they are. *)
Definition silent (this : RpcPtr) (w w' : World) : Prop :=
  callbacks w' = callbacks w ∧
  ∀ n' x', heap_ w' !! this = Some (n', x') →
    ∃ n x, heap_ w !! this = Some (n, x) ∧ flags x' = flags x.

#[global] Instance silent_preorder this : PreOrder (silent this).
Proof.
  split; [split; by eauto|]. intros w1 w2 w3 [O1 F1] [O2 F2].
  split; [congruence..|]. intros n3 x3 H3. destruct (F2 _ _ H3) as (n2 & x2 & H2 & E2).
  destruct (F1 _ _ H2) as (n1 & x1 & ? & ?). exists n1, x1. split; [done|congruence].
Qed.

Lemma silent_insert this n n' x x' w :
  heap_ w !! this = Some (n, x) → flags x' = flags x →
  silent this w (upd_heap (insert this (n', x')) w).
Proof.
  intros Hx Hf. split; simpl; [done|].
  intros m y. rewrite lookup_insert_eq. intros [= <- <-]. eauto.
Qed.

Lemma silent_same this w w' :
  heap_ w' = heap_ w → callbacks w' = callbacks w → silent this w w'.
Proof. intros E1 E2. split; rewrite ?E1; eauto. Qed.

Lemma sl_deref this p : preserves (silent this) (deref p).
Proof. intros w. unfold wlp, deref. repeat case_match; simplify_eq; try done; reflexivity. Qed.
Lemma sl_store this f :
  (∀ x, flags (f x) = flags x) → preserves (silent this) (store this f).
Proof.
  intros Hf w. unfold wlp, store. destruct (heap_ w !! this) as [[n x]|] eqn:Hx; [|done].
  by eapply silent_insert.
Qed.
Lemma sl_lock this : preserves (silent this) (lock this).
Proof.
  intros w. unfold wlp, lock. destruct (heap_ w !! this) as [[n x]|] eqn:Hx; [|reflexivity].
  by eapply silent_insert.
Qed.
Lemma sl_release this : preserves (silent this) (release this).
Proof.
  intros w. unfold wlp, release.
  assert (∀ f, silent this w (upd_heap (delete this) (upd_spans f w))) as Hd.
  { intros f. split; simpl; [done|]. intros n x. by rewrite lookup_delete_eq. }
  destruct (heap_ w !! this) as [[[|[|n]] x]|] eqn:Hx; try done. by eapply silent_insert.
Qed.
Lemma sl_push_event this q p : preserves (silent this) (push_event q p).
Proof. intros w. unfold wlp, push_event. repeat case_match; simplify_eq; try done; by apply silent_same. Qed.
Lemma sl_modify this (f : World → World) :
  (∀ w, heap_ (f w) = heap_ w ∧ callbacks (f w) = callbacks w) →
  preserves (silent this) (modify f).
Proof. intros Hf. apply preserves_modify. intros w. destruct (Hf w). by apply silent_same. Qed.

#[local] Hint Resolve sl_deref sl_lock sl_release sl_push_event : preserves.
#[local] Hint Extern 1 (preserves (silent _) (modify _)) =>
  apply sl_modify; intros ?; split; reflexivity : preserves.
#[local] Hint Extern 1 (preserves (silent _) (store _ _)) =>
  apply sl_store; intros ?; first [reflexivity | match goal with e : Event.t |- _ => by destruct e end]
  : preserves.

Lemma sl_GetRpcEvent this e : preserves (silent this) (GetRpcEvent this e).
Proof. unfold GetRpcEvent. preserves_tac. Qed.
#[local] Hint Resolve sl_GetRpcEvent : preserves.
Lemma sl_SetRpcEventState this e b :
  e ≠ READ → e ≠ DONE → preserves (silent this) (SetRpcEventState this e b).
Proof. intros He Hd. unfold SetRpcEventState. preserves_tac. Qed.
Lemma sl_IsRpcEventPending this e : preserves (silent this) (IsRpcEventPending this e).
Proof. unfold IsRpcEventPending, GetRpcEventState. preserves_tac. Qed.
Lemma sl_grpc_call this c : preserves (silent this) (grpc_call c).
Proof. unfold grpc_call. preserves_tac. Qed.
Lemma sl_use_stream this b o : preserves (silent this) (use_stream b o).
Proof. unfold use_stream. preserves_tac. Qed.
Lemma sl_GetWeakPtr this p : preserves (silent this) (ActiveRpcs_GetWeakPtr p).
Proof. unfold ActiveRpcs_GetWeakPtr. preserves_tac. Qed.
#[local] Hint Resolve sl_IsRpcEventPending sl_grpc_call sl_use_stream sl_GetWeakPtr : preserves.
#[local] Hint Extern 1 (preserves (silent _) (SetRpcEventState _ _ _)) =>
  apply sl_SetRpcEventState; discriminate : preserves.
Lemma sl_run_action this a : preserves (silent this) (run_action this a).
Proof.
  unfold run_action, RpcHandler_Send, RpcHandler_Finish, RpcHandler_GetWriter, log_span, Rpc_Write,
    Rpc_Finish, push_write_needed, EnqueueMessage. preserves_tac.
Qed.
Lemma sl_HandleSendQueue this : preserves (silent this) (HandleSendQueue this).
Proof.
  unfold HandleSendQueue, PerformFinish, PerformWrite, SendUnaryFinish, async_writer_interface.
  preserves_tac.
Qed.
Lemma sl_Remove this : preserves (silent this) (ActiveRpcs_Remove this).
Proof. unfold ActiveRpcs_Remove. preserves_tac. Qed.
#[local] Hint Resolve sl_run_action sl_HandleSendQueue sl_Remove : preserves.
Lemma sl_RemoveIfNotPending this : preserves (silent this) (RemoveIfNotPending this).
Proof. unfold RemoveIfNotPending, IsAnyEventPending. preserves_tac. Qed.
#[local] Hint Resolve sl_RemoveIfNotPending : preserves.

(** ** Operations that make callbacks *)

(** The callbacks [cbs] are made to the handler of [this]; [rd] is the value
    its read flag was set to, if it was. *)
Definition says (this : RpcPtr) (cbs : list Callback) (rd : option bool) (w w' : World) : Prop :=
  callbacks w' = callbacks w ++ (pair this <$> cbs) ∧
  ∀ n' x', heap_ w' !! this = Some (n', x') →
    ∃ n x, heap_ w !! this = Some (n, x) ∧
      flags x' = (default (is_pending x READ) rd, is_pending x DONE).

Lemma says_trans this c1 c2 r1 r2 w1 w2 w3 :
  says this c1 r1 w1 w2 → says this c2 r2 w2 w3 →
  says this (c1 ++ c2) (match r2 with Some b => Some b | None => r1 end) w1 w3.
Proof.
  intros [E1 F1] [E2 F2]. split; [by rewrite E2, E1, fmap_app, app_assoc|].
  intros n3 x3 H3. destruct (F2 _ _ H3) as (n2 & x2 & H2 & P2).
  destruct (F1 _ _ H2) as (n & x & Hx & P1). exists n, x. split; [done|].
  unfold flags in *. injection P1 as P1 P1'. injection P2 as P2 P2'.
  destruct r2; simpl in *; congruence.
Qed.

Lemma says_silent this w w' : says this [] None w w' ↔ silent this w w'.
Proof. unfold says, silent. simpl. by rewrite app_nil_r. Qed.

(** Sequencing: [m] says one thing, the rest another. *)
Lemma wlp_says_bind {A B} this c1 r1 c2 r2 (m : M World A) (k : A → M World B) w :
  wlp m (λ _, says this c1 r1 w) w →
  (∀ a w1, wlp (k a) (λ _, says this c2 r2 w1) w1) →
  wlp (m ≫= k) (λ _, says this (c1 ++ c2) (match r2 with Some b => Some b | None => r1 end) w) w.
Proof.
  intros Hm Hk. apply wlp_bind. eapply wlp_mono; [exact Hm|]. intros a w1 H1'.
  eapply wlp_mono; [apply Hk|]. intros b w2. by apply says_trans.
Qed.

Lemma wlp_says_silent {A} this (m : M World A) w :
  preserves (silent this) m → wlp m (λ _, says this [] None w) w.
Proof. intros Hm. eapply wlp_mono; [apply Hm|]. intros a w'. apply says_silent. Qed.

Lemma wlp_says_silent_then {A B} this cbs rd (m : M World A) (k : A → M World B) w :
  preserves (silent this) m → (∀ a w1, wlp (k a) (λ _, says this cbs rd w1) w1) →
  wlp (m ≫= k) (λ _, says this cbs rd w) w.
Proof.
  intros Hm Hk. eapply wlp_mono.
  - apply (wlp_says_bind this [] None cbs rd); [by apply wlp_says_silent|exact Hk].
  - intros b w'. by destruct rd.
Qed.

Lemma wlp_says_log this cb w : wlp (log_callback this cb) (λ _, says this [cb] None w) w.
Proof. apply wlp_modify. split; simpl; [done|]. eauto. Qed.

Lemma wlp_says_then_silent {A B} this cbs rd (m : M World A) (k : A → M World B) w :
  wlp m (λ _, says this cbs rd w) w → (∀ a, preserves (silent this) (k a)) →
  wlp (m ≫= k) (λ _, says this cbs rd w) w.
Proof.
  intros Hm Hk. eapply wlp_mono.
  - apply (wlp_says_bind this cbs rd [] None); [exact Hm|]. intros a w1. by apply wlp_says_silent.
  - intros b w'. by rewrite app_nil_r.
Qed.

Lemma says_call_handler this cb body w :
  wlp (call_handler this cb body) (λ _, says this [cb] None w) w.
Proof.
  apply wlp_says_silent_then; [auto with preserves|]. intros x w1.
  destruct (handler_ x); [|done].
  apply wlp_says_then_silent; [apply wlp_says_log|]. intros _. preserves_tac.
Qed.

Lemma says_OnRequest this w :
  wlp (OnRequest this) (λ _ w', ∃ m, says this [CbOnRequest m] None w w') w.
Proof.
  apply wlp_bind, wlp_intro. intros x w1 Hx. unfold deref in Hx.
  destruct (heap_ w !! this) as [[n y]|]; [|done]. injection Hx as -> ->.
  destruct (request_ x) as [m|]; [|done].
  eapply wlp_mono; [apply says_call_handler|]. intros [] w2 Hs. by exists m.
Qed.

Lemma says_set_read this b w :
  wlp (SetRpcEventState this READ b) (λ _, says this [] (Some b) w) w.
Proof.
  destruct (heap_ w !! this) as [[n x]|] eqn:Hx.
  - eapply wlp_SetRpcEventState; [done|]. split; simpl; [by rewrite app_nil_r|].
    intros n' x'. rewrite lookup_insert_eq. intros [= <- <-]. eauto.
  - unfold wlp, SetRpcEventState, GetRpcEvent, deref, mbind, M_bind. by rewrite Hx.
Qed.

Lemma says_read this w :
  wlp (SetRpcEventState this READ true ;; async_reader_interface this ;;
    GetRpcEvent this READ ;; grpc_call (Read this)) (λ _, says this [] (Some true) w) w.
Proof.
  apply wlp_says_then_silent; [apply says_set_read|]. intros _.
  unfold async_reader_interface. preserves_tac.
Qed.

(** Asking for the next request: a read is registered, or (for the types
    whose request arrives with the connection) the two callbacks are made. *)
Lemma says_RequestStreamingReadIfNeeded this w :
  wlp (RequestStreamingReadIfNeeded this) (λ _ w',
    says this [] (Some true) w w' ∨ ∃ m, says this [CbOnRequest m; CbOnReadsDone] None w w') w.
Proof.
  apply wlp_bind, wlp_intro. intros x w1 Hx. unfold deref in Hx.
  destruct (heap_ w !! this) as [[n y]|]; [|done]. injection Hx as -> ->.
  assert (wlp (OnRequest this ;; OnReadsDone this)
    (λ _ w', ∃ m, says this [CbOnRequest m; CbOnReadsDone] None w1 w') w1) as Hu.
  { apply wlp_bind. eapply wlp_mono; [apply says_OnRequest|]. intros [] w2 [m Hm].
    eapply wlp_mono; [apply says_call_handler|]. intros [] w3 Hd. exists m.
    exact (says_trans _ _ _ _ _ _ _ _ Hm Hd). }
  destruct (rpc_type _); (eapply wlp_mono; [apply says_read || exact Hu|]); auto.
Qed.

Lemma says_OnConnection this n x w :
  heap_ w !! this = Some (n, x) → handler_ x = None →
  wlp (OnConnection this) (λ _ w',
    says this [CbInitialize] (Some true) w w' ∨
    ∃ m, says this [CbInitialize; CbOnRequest m; CbOnReadsDone] None w w') w.
Proof.
  intros Hx Hh. apply wlp_bind. eapply wlp_deref; [done|]. rewrite Hh.
  apply wlp_bind. eapply wlp_mono.
  - apply wlp_says_then_silent.
    + unfold rpc_handler_factory. apply wlp_says_silent_then; [auto with preserves|].
      intros x1 w1. apply wlp_says_silent_then; [unfold log_span; auto with preserves|].
      intros _ w2. apply wlp_says_then_silent; [apply wlp_says_log|]. intros _. preserves_tac.
    + preserves_tac.
  - intros [] w1 H1'. eapply wlp_mono; [apply says_RequestStreamingReadIfNeeded|].
    intros [] w2 [H2'|[m H2']]; [left|right; exists m]; exact (says_trans _ _ _ _ _ _ _ _ H1' H2').
Qed.

(** ** What handling each event says *)

Lemma says_HandleRead this b w :
  wlp (HandleRead this b) (λ _ w',
    (b = true ∧ ∃ m, says this [CbOnRequest m] (Some true) w w') ∨
    (b = true ∧ ∃ m m', says this [CbOnRequest m; CbOnRequest m'; CbOnReadsDone] None w w') ∨
    (b = false ∧ says this [CbOnReadsDone] None w w')) w.
Proof.
  destruct b; simpl.
  - apply wlp_bind. eapply wlp_mono; [apply says_OnRequest|]. intros [] w1 [m H1'].
    eapply wlp_mono; [apply says_RequestStreamingReadIfNeeded|].
    intros [] w2 [H2'|[m' H2']]; [left|right; left]; (split; [done|]).
    + exists m. exact (says_trans _ _ _ _ _ _ _ _ H1' H2').
    + exists m, m'. exact (says_trans _ _ _ _ _ _ _ _ H1' H2').
  - eapply wlp_mono; [apply wlp_says_then_silent|].
    + apply says_call_handler.
    + auto with preserves.
    + auto.
Qed.

Lemma says_HandleFinish this b w :
  wlp (HandleFinish this b) (λ _, says this [CbOnFinish] None w) w.
Proof. apply wlp_says_then_silent; [apply says_call_handler|]. auto with preserves. Qed.

Lemma says_HandleWrite this b w : wlp (HandleWrite this b) (λ _, says this [] None w) w.
Proof. apply wlp_says_silent. unfold HandleWrite. preserves_tac. Qed.

Lemma says_HandleDone this b w : wlp (HandleDone this b) (λ _, says this [] None w) w.
Proof. apply wlp_says_silent. unfold HandleDone. auto with preserves. Qed.

(** ** Steps of the other threads *)

Lemma tc_exec_completion this e b payload :
  preserves (touches this) (exec (LCompletion this e b payload)).
Proof.
  unfold exec, grpc_completes, RunCompletionQueue_body, PushToEventQueue.
  apply preserves_bind; [apply _| |intros _; preserves_tac].
  apply preserves_bind; [apply _| |intros _; preserves_tac].
  apply tc_modify. intros w. by destruct (_ && _).
Qed.

Lemma sl_exec_completion this e b payload :
  preserves (silent this) (exec (LCompletion this e b payload)).
Proof.
  unfold exec, grpc_completes, RunCompletionQueue_body, PushToEventQueue.
  apply preserves_bind; [apply _| |intros _; preserves_tac].
  apply preserves_bind; [apply _| |intros _; preserves_tac].
  apply sl_modify. intros w. by destruct (_ && _).
Qed.

Lemma tc_exec_begin this op : preserves (touches this) (exec (LWriterBegin this op)).
Proof. unfold exec, Writer_begin. preserves_tac. Qed.
Lemma sl_exec_begin this op : preserves (silent this) (exec (LWriterBegin this op)).
Proof. unfold exec, Writer_begin. preserves_tac. Qed.

(** What the steps of a writer call touch. *)
Lemma writer_step_frame R `{!PreOrder R} i t w w' :
  threads w !! i = Some t →
  (∀ it, preserves R (EnqueueMessage (wt_rpc t) it)) →
  preserves R (ActiveRpcs_GetWeakPtr (wt_rpc t)) →
  preserves R (push_write_needed (wt_rpc t) (wt_rpc t)) →
  preserves R (deref (wt_rpc t)) → preserves R (release (wt_rpc t)) →
  (∀ f, preserves R (modify (upd_threads f))) → (∀ f, preserves R (modify (upd_spans f))) →
  (∀ f, preserves R (modify (upd_written f))) → exec (LWriterStep i) w = Ok tt w' → R w w'.
Proof.
  intros Hi He Hg Hp Hd Hr Hm Hsp Hwr Hx. simpl in Hx. unfold Writer_step in Hx.
  assert (preserves R (match wt_pc t with
    | AtEnqueue => EnqueueMessage (wt_rpc t) (writer_item (wt_op t)) ;;
        log_written (wt_rpc t) (writer_item (wt_op t)) ;; set_pc i t AtGetWeakPtr
    | AtGetWeakPtr => ActiveRpcs_GetWeakPtr (wt_rpc t) ;; set_pc i t AtPush
    | AtPush => push_write_needed (wt_rpc t) (wt_rpc t) ;;
        set_pc i t (match wt_op t with WFinish _ => AtSpan | _ => AtReturn end)
    | AtSpan => x ← deref (wt_rpc t);
        (match handler_ x with
         | Some _ =>
             match wt_op t with WFinish s => log_span (wt_rpc t) (SpanSetStatus s) | _ => mret tt end
         | None => fail NullPointer
         end) ;;
        set_pc i t AtReturn
    | AtReturn => release (wt_rpc t) ;; modify (upd_threads (delete i))
    end)) as Hpres.
  { unfold set_pc, log_span, log_written. destruct (wt_pc t); preserves_tac; auto. }
  eapply preserves_Ok; [exact Hpres|]. unfold mbind, M_bind, get in *. by rewrite Hi in Hx.
Qed.

Lemma tc_exec_step i t w w' :
  threads w !! i = Some t → exec (LWriterStep i) w = Ok tt w' → touches (wt_rpc t) w w'.
Proof. intros Hi. eapply writer_step_frame; eauto with preserves. apply _. Qed.

Lemma sl_exec_step i t w w' :
  threads w !! i = Some t → exec (LWriterStep i) w = Ok tt w' → silent (wt_rpc t) w w'.
Proof.
  intros Hi. eapply writer_step_frame; eauto with preserves; [apply _| |].
  - intros it. unfold EnqueueMessage. preserves_tac.
  - unfold push_write_needed. preserves_tac.
Qed.

(** A completion queue thread destroys nothing. *)
Definition keeps_alive (this : RpcPtr) (w w' : World) : Prop :=
  is_Some (heap_ w !! this) → is_Some (heap_ w' !! this).

#[global] Instance keeps_alive_preorder this : PreOrder (keeps_alive this).
Proof. split; unfold keeps_alive; [by intros w|]. intros w1 w2 w3. auto. Qed.

Lemma ka_exec_completion this e b payload :
  preserves (keeps_alive this) (exec (LCompletion this e b payload)).
Proof.
  assert (∀ f, preserves (keeps_alive this) (store this f)) as Hst.
  { intros f w. unfold wlp, store. destruct (heap_ w !! this) as [[n x]|]; [|done].
    intros _. simpl. rewrite lookup_insert_eq. by eexists. }
  assert (preserves (keeps_alive this) (deref this)) as Hde.
  { intros w. unfold wlp, deref. destruct (heap_ w !! this) as [[n x]|]; [by intros Ha|done]. }
  assert (∀ q p, preserves (keeps_alive this) (push_event q p)) as Hpu.
  { intros q p w. unfold wlp, push_event. repeat case_match; simplify_eq; try done; by intros Ha. }
  unfold exec, grpc_completes, RunCompletionQueue_body, PushToEventQueue, GetRpcEvent.
  apply preserves_bind; [apply _| |intros _; preserves_tac].
  apply preserves_bind; [apply _| |intros _; preserves_tac].
  apply preserves_modify. intros w. unfold keeps_alive. by destruct (_ && _).
Qed.

End frame.

Section protocol.
Context `{GrpcStatus, Application, EventQueueSelector} (N : nat) `{!SelectorOk N}.

(** ** What an event queue step does *)

Definition quiet (w w' : World) : Prop :=
  callbacks w' = callbacks w ∧ next_ptr w' = next_ptr w ∧ shutting_down_ w' = shutting_down_ w.

Definition cleared (e : Event.t) (x : Rpc) : Rpc := update_event_member e (set_pending false) x.

(** An iteration of an event queue thread finds nothing to do, handles the
    event [e] of the object [r], or handles a [WRITE_NEEDED] for it. *)
Inductive event_step (w w' : World) : Prop :=
  | event_idle : quiet w w' → heap_ w' = heap_ w → event_step w w'
  | event_connection r n x w2 :
      heap_ w !! r = Some (n, x) → is_pending x NEW_CONNECTION = true →
      ok (new_connection_event_ x) = negb (shutting_down_ w) →
      quiet w w2 → heap_ w2 = <[r := (n, cleared NEW_CONNECTION x)]> (heap_ w) →
      handling N (λ _, 0) r connecting w2 →
      HandleNewConnection r (negb (shutting_down_ w)) w2 = Ok tt w' → event_step w w'
  | event_completion r e b n x w2 :
      heap_ w !! r = Some (n, x) → is_pending x e = true → e ≠ NEW_CONNECTION → connected x →
      quiet w w2 → heap_ w2 = <[r := (n, cleared e x)]> (heap_ w) →
      HandleEvent e r b w2 = Ok tt w' → event_step w w'
  | event_write_needed r n x w1 w2 :
      heap_ w !! r = Some (n, x) → connected x →
      quiet w w1 → heap_ w1 = <[r := (S n, x)]> (heap_ w) →
      HandleWrite r true w1 = Ok tt w2 → release r w2 = Ok tt w' → event_step w w'.

Lemma bind_Ok {A B} (m : M World A) (k : A → M World B) w b w' :
  (m ≫= k) w = Ok b w' → ∃ a w1, m w = Ok a w1 ∧ k a w1 = Ok b w'.
Proof. unfold mbind, M_bind. destruct (m w); naive_solver. Qed.

Lemma bind_assoc_Ok {A B C} (m : M World A) (k : A → M World B) (g : B → M World C) w r :
  (m ≫= λ a, k a ≫= g) w = r → ((m ≫= k) ≫= g) w = r.
Proof. unfold mbind, M_bind. by destruct (m w). Qed.

Lemma completion_Handle_eq r e w n x ev :
  heap_ w !! r = Some (n, x) → event_member x e = Some ev →
  CompletionQueueRpcEvent_Handle r e w =
  HandleEvent (event ev) (rpc_ptr ev) (ok ev) (upd_heap (insert r (n, cleared e x)) w).
Proof.
  intros Hx Hev. unfold CompletionQueueRpcEvent_Handle, SetRpcEventState, GetRpcEvent, deref, store,
    mbind, M_bind, mret, M_ret. rewrite Hx, Hev, Hx, Hev, Hx. done.
Qed.

Lemma completion_step w q bq p d r e w' :
  inv N w → conn_ok w (LEvent q) → event_queues w !! q = Some bq → deque_ bq = p :: d →
  event_ptr p = CompletionEvent r e →
  CompletionQueueRpcEvent_Handle r e
    (upd_event_queues (insert q (mkBlockingQueue (queue_size_ bq) d)) w) = Ok tt w' →
  event_step w w'.
Proof.
  intros Hinv Hok Hq Hd Hp Hx'. pose proof Hinv as (C & Hph & Hthr).
  assert (tag_in p = Some (r, e)) as Htag by (unfold tag_in; by rewrite Hp).
  assert (queued w r e q) as Hqd.
  { exists bq. split; [done|]. unfold tags. rewrite Hd. simpl. rewrite Htag. left. }
  destruct (c_queued _ _ _ C _ _ _ Hqd) as (n & x & Hx & _ & Hpe & _).
  destruct (c_wired _ _ _ C _ _ _ Hx) as [(_ & _ & Hmem) _].
  destruct (event_member x e) as [ev|] eqn:Hev; [|by unfold is_pending in Hpe; rewrite Hev in Hpe].
  destruct (Hmem _ _ Hev) as [He Hr].
  set (w1 := upd_event_queues _ w) in Hx'.
  rewrite (completion_Handle_eq r e w1 n x ev Hx Hev), He, Hr in Hx'.
  destruct (decide (e = NEW_CONNECTION)) as [->|Hne].
  - pose proof (Hph _ _ _ Hx) as Hphx. unfold phase in Hphx. rewrite Hpe in Hphx.
    destruct Hphx as (Hhd & Hrd & _). simpl in Hev. injection Hev as <-.
    pose proof (Hok _ _ _ _ _ _ Hq Hd Hp Hx) as Hb. simpl in Hx'. rewrite Hb in Hx'.
    eapply event_connection; [done|done|exact Hb| | | |exact Hx']; try done.
    by apply (handling_popped N w q bq p d r NEW_CONNECTION n x connecting).
  - eapply event_completion; [done|done|done|by eapply queued_connected; [done|eapply Hph|..]| | |exact Hx']; done.
Qed.

Lemma exec_event_step w q w' :
  inv N w → conn_ok w (LEvent q) → exec (LEvent q) w = Ok tt w' → event_step w w'.
Proof.
  intros Hinv Hok (found & w2 & Hrun & [= <-])%bind_Ok. apply bind_Ok in Hrun as (r & w1 & Hpop & Hrun).
  unfold pop_event in Hpop. destruct (event_queues w !! q) as [bq|] eqn:Hq; [|done].
  unfold PopWithTimeout, QueueEmptyCondition, pop_front in Hpop.
  destruct (deque_ bq) as [|p d] eqn:Hd; simpl in Hpop; injection Hpop as <- <-.
  { injection Hrun as _ <-. by apply event_idle. }
  apply bind_Ok in Hrun as ([] & w3 & Hh & [= _ <-]).
  destruct (event_ptr p) as [r e|e r] eqn:Hp; simpl in Hh; [by eapply completion_step|].
  pose proof Hinv as (C & Hph & Hthr).
  assert (e = WRITE_NEEDED) as ->.
  { destruct (c_queues _ _ _ C _ _ Hq) as (_ & _ & _ & Hf). rewrite Hd in Hf.
    apply Forall_cons in Hf as [Hi _]. unfold internal_ok in Hi. rewrite Hp in Hi. by destruct Hi. }
  apply bind_Ok in Hh as (locked & w4 & Hl & Hh). unfold lock in Hl. simpl in Hl.
  destruct (heap_ w !! r) as [[n x]|] eqn:Hx; injection Hl as <- <-;
    [|injection Hh as <-; by apply event_idle].
  apply bind_Ok in Hh as ([] & w5 & Hw & Hr).
  eapply event_write_needed; [done| | | |exact Hw|exact Hr]; try done.
  pose proof (Hph _ _ _ Hx) as Hphx. unfold phase in Hphx.
  destruct (is_pending x NEW_CONNECTION) eqn:E; [|by split]. exfalso.
  destruct Hphx as (_ & _ & _ & _ & _ & Hm & _). apply Hm. right. exists q, bq. split; [done|].
  unfold weaks. rewrite Hd. simpl. unfold weak_in at 1. rewrite Hp. left.
Qed.

(** ** Registering the next listener *)

Definition hushed (w w' : World) : Prop := callbacks w' = callbacks w.

#[global] Instance hushed_preorder : PreOrder hushed.
Proof. split; [done|]. unfold hushed. intros w1 w2 w3. congruence. Qed.

Ltac hushed_prim := repeat case_match; simplify_eq; done.

Lemma hu_deref p : preserves hushed (deref p).
Proof. intros w. unfold wlp, deref. hushed_prim. Qed.
Lemma hu_store p f : preserves hushed (store p f).
Proof. intros w. unfold wlp, store. hushed_prim. Qed.
Lemma hu_lock p : preserves hushed (lock p).
Proof. intros w. unfold wlp, lock. hushed_prim. Qed.
Lemma hu_release p : preserves hushed (release p).
Proof. intros w. unfold wlp, release. hushed_prim. Qed.
Lemma hu_selector : preserves hushed event_queue_selector_.
Proof. intros w. unfold wlp, event_queue_selector_. by destruct (sel_next _). Qed.
#[local] Hint Resolve hu_deref hu_store hu_lock hu_release hu_selector : preserves.
#[local] Hint Extern 1 (preserves hushed (modify _)) =>
  apply preserves_modify; intros ?; reflexivity : preserves.
Lemma hu_register p :
  preserves hushed (ActiveRpcs_Add p ;; RequestNextMethodInvocation p ;; release p).
Proof.
  unfold ActiveRpcs_Add, RequestNextMethodInvocation, streaming_interface, SetRpcEventState,
    GetRpcEvent, grpc_call, use_stream. preserves_tac.
Qed.
#[local] Hint Resolve hu_register : preserves.
Lemma hu_replace_listener this :
  preserves hushed (new_rpc ← Clone this; q ← event_queue_selector_; SetEventQueue new_rpc q ;;
    ActiveRpcs_Add new_rpc ;; RequestNextMethodInvocation new_rpc ;; release new_rpc).
Proof. unfold Clone, make_unique_Rpc, SetEventQueue. preserves_tac. Qed.

(** A successful connection: the handler of [this] is started and a fresh
    object of the same method and completion queue listens. *)
Lemma connection_accepted this n x w w' :
  handling N (λ _, 0) this connecting w → heap_ w !! this = Some (n, x) →
  shutting_down_ w = false → HandleNewConnection this true w = Ok tt w' →
  ∃ w1 y, OnConnection this w = Ok tt w1 ∧ touches this w w1 ∧ callbacks w' = callbacks w1 ∧
    next_ptr w' = S (next_ptr w1) ∧ shutting_down_ w' = false ∧
    heap_ w' = <[next_ptr w1 := (1, y)]> (heap_ w1) ∧
    is_pending y NEW_CONNECTION = true ∧ method_index_ y = method_index_ x ∧
    server_completion_queue_ y = server_completion_queue_ x ∧
    ok (new_connection_event_ y) = false.
Proof.
  intros Hh Hx Hsd Hrun. unfold HandleNewConnection in Hrun.
  apply bind_Ok in Hrun as (w0 & w1 & [= <- <-] & Hrun). rewrite Hsd in Hrun. simpl in Hrun.
  apply bind_Ok in Hrun as ([] & w1 & [= <-] & Hrun).
  apply bind_Ok in Hrun as ([] & w1 & Hcon & Hrun).
  pose proof (wp_OnConnection N _ _ _ Hh) as Hwp. unfold wp in Hwp. rewrite Hcon in Hwp.
  pose proof (preserves_Ok _ _ _ _ _ (tc_OnConnection this) Hcon) as Ht.
  pose proof (h_obj _ _ _ _ _ Hwp) as (n1 & x1 & Hx1 & _).
  pose proof (preserves_Ok _ _ _ _ _ (hu_replace_listener this) Hrun) as Hcb.
  destruct (t_fixed _ _ _ Ht _ _ Hx1) as (n0 & x0 & Hx0 & Hfix). rewrite Hx in Hx0.
  injection Hx0 as <- <-. unfold fixed in Hfix. injection Hfix as Hmi Hcq _ _.
  pose proof (wp_replace_listener N this n1 x1
    (λ _ w', ∃ y, next_ptr w' = S (next_ptr w1) ∧ shutting_down_ w' = shutting_down_ w1 ∧
      heap_ w' = <[next_ptr w1 := (1, y)]> (heap_ w1) ∧
      is_pending y NEW_CONNECTION = true ∧ method_index_ y = method_index_ x1 ∧
      server_completion_queue_ y = server_completion_queue_ x1 ∧
      ok (new_connection_event_ y) = false) w1) as Hrep.
  destruct (wlp_ok _ _ _ _ _ (wp_wlp _ _ _ (Hrep (handling_inv _ _ _ Hwp) Hx1
    ltac:(intros w2 q _ _ E1 E2 E3; eexists; split_and!; [exact E2|exact E1|exact E3| | | |];
      unfold Rpc_new; by destruct (InitializeReadersAndWriters _) as [[[? ?] ?] ?]))) Hrun)
    as (y & En & Es & Eh & Hy & Em & Ec & Ho).
  exists w1, y. split_and!; try done; [|congruence..]. by rewrite Es, (t_down _ _ _ Ht).
Qed.

(** Steps that leave the objects alone. *)
Definition shared_label (l : Label) : bool :=
  match l with LStopServing | LOtherSelects | LOtherContext _ => true | _ => false end.

Lemma shared_step w l w' :
  exec l w = Ok tt w' → shared_label l = true →
  heap_ w' = heap_ w ∧ rpcs_ w' = rpcs_ w ∧ next_ptr w' = next_ptr w ∧
  callbacks w' = callbacks w ∧ (shutting_down_ w' = false → shutting_down_ w = false).
Proof.
  destruct l; simpl; try done; intros Hx _; try by injection Hx as <-.
  revert Hx. unfold event_queue_selector_, mbind, M_bind, mret, M_ret.
  destruct (sel_next (selector_ w)); [|done]. by intros [= <-].
Qed.

(** Steps other than these and those of the event queue threads change one
    object. *)
Lemma other_step w l w' :
  inv N w → step w l w' → (∀ q, l ≠ LEvent q) → shared_label l = false →
  ∃ r, touches r w w' ∧ silent r w w' ∧ r < next_ptr w ∧
    ∀ n x, heap_ w !! r = Some (n, x) → is_pending x NEW_CONNECTION = true →
      is_Some (heap_ w' !! r).
Proof.
  intros Hinv [Henv Hx] Hne Hns. pose proof Hinv as (C & Hph & Hthr).
  assert (∀ r, r ∈ weak_refs w → r < next_ptr w ∧ ∀ n x, heap_ w !! r = Some (n, x) →
    is_pending x NEW_CONNECTION = true → False) as Hweak.
  { intros r Hr. split.
    - destruct (decide (r < next_ptr w)) as [?|Hge]; [done|exfalso].
      destruct (c_fresh _ _ _ C r ltac:(lia)) as (_ & _ & Hm & _). apply Hm. by left.
    - intros n x Hy Hp. pose proof (Hph _ _ _ Hy) as Hphx. unfold phase in Hphx.
      rewrite Hp in Hphx. destruct Hphx as (_ & _ & _ & _ & _ & Hm & _). apply Hm. by left. }
  destruct l as [r e b payload|q|r op|i| | |c]; try done.
  - exists r. split_and!.
    + by eapply preserves_Ok; [apply tc_exec_completion|].
    + by eapply preserves_Ok; [apply sl_exec_completion|].
    + destruct Henv as [Hin _]. destruct (decide (r < next_ptr w)) as [?|Hge]; [done|exfalso].
      destruct (c_fresh _ _ _ C r ltac:(lia)) as (_ & _ & _ & Hf & _). by eapply Hf.
    + intros n x Hy _. eapply (preserves_Ok (keeps_alive r)); [apply ka_exec_completion|exact Hx|].
      by rewrite Hy.
  - by destruct (Hne q).
  - simpl in Henv. destruct (Hweak r Henv) as [Hlt Hnc]. exists r. split_and!; [| |done|].
    + by eapply preserves_Ok; [apply tc_exec_begin|].
    + by eapply preserves_Ok; [apply sl_exec_begin|].
    + intros n x Hy Hp. by destruct (Hnc n x).
  - simpl in Henv. apply lookup_lt_is_Some in Henv as [t Ht].
    destruct (Hthr t) as [_ Hw]; [by eapply list_elem_of_lookup_2|].
    destruct (Hweak _ Hw) as [Hlt Hnc]. exists (wt_rpc t). split_and!; [| |done|].
    + by eapply tc_exec_step.
    + by eapply sl_exec_step.
    + intros n x Hy Hp. by destruct (Hnc n x).
Qed.

(** Only [StopServing] stops the service. *)
Lemma exec_keeps_down w l w' :
  inv N w → step w l w' → l ≠ LStopServing → shutting_down_ w' = shutting_down_ w.
Proof.
  intros Hinv Hstep Hne. pose proof Hstep as [_ Hx].
  destruct l as [r e b payload|q|r op|i| | |c]; try done.
  - by destruct (preserves_Ok _ _ _ _ _ (kt_exec_completion r e b payload) Hx) as (_ & _ & _ & ?).
  - by destruct (preserves_Ok _ _ _ _ _ (kt_exec_event q) Hx) as (_ & _ & _ & ?).
  - destruct (other_step w _ w' Hinv Hstep ltac:(done) eq_refl) as (? & Ht & _). apply Ht.
  - destruct (other_step w _ w' Hinv Hstep ltac:(done) eq_refl) as (? & Ht & _). apply Ht.
  - revert Hx. simpl. unfold event_queue_selector_, mbind, M_bind, mret, M_ret.
    destruct (sel_next (selector_ w)); [|done]. by intros [= <-].
  - by injection Hx as <-.
Qed.

End protocol.
