(* ===== verification/ServiceOrder.v ===== *)
(** * The order of callbacks, and the listeners

    The invariants of calm runs that follow from the step analysis in
    [ServiceProtocol]. *)

From Stdlib Require Import ZArith Lia.
From stdpp Require Import base option list strings gmap.
From S2P Require Import Prelude Interfaces BlockingQueue Rpc Service ServiceInv ServiceLemmas.
From S2P Require Import ServiceHandlers ServiceSafety ServiceSteps ServiceFlow ServiceProtocol.
Import Event EventDeleter.

Set Default Proof Using "Type".

(** ** The order in which a handler is called *)

(** A handler is initialised, then gets requests, then the end of the
    requests; [OnFinish] may come at any time after the first. *)
Inductive Stage := Created | Reading | ReadsOver.

#[global] Instance Stage_eq_dec : EqDecision Stage.
Proof. solve_decision. Defined.

Section order.
Context `{GrpcStatus, Application, EventQueueSelector} (N : nat) `{!SelectorOk N}.

Definition next_stage (st : Stage) (cb : Callback) : option Stage :=
  match st, cb with
  | Created, CbInitialize => Some Reading
  | Reading, CbOnRequest _ => Some Reading
  | Reading, CbOnReadsDone => Some ReadsOver
  | Reading, CbOnFinish => Some Reading
  | ReadsOver, CbOnFinish => Some ReadsOver
  | _, _ => None
  end.

Fixpoint stage_from (st : Stage) (cbs : list Callback) : option Stage :=
  match cbs with
  | [] => Some st
  | cb :: cbs' => st' ← next_stage st cb; stage_from st' cbs'
  end.

Lemma stage_from_app st l1 l2 :
  stage_from st (l1 ++ l2) = (st' ← stage_from st l1; stage_from st' l2).
Proof.
  revert st. induction l1 as [|cb l1 IH]; intros st; simpl; [done|].
  destruct (next_stage st cb); simpl; auto.
Qed.

Definition callbacks_of (w : World) (r : RpcPtr) : list Callback := omap (only r) (callbacks w).

Lemma callbacks_of_app w w' this cbs r :
  callbacks w' = callbacks w ++ (pair this <$> cbs) →
  callbacks_of w' r = callbacks_of w r ++ (if decide (this = r) then cbs else []).
Proof.
  intros E. unfold callbacks_of. rewrite E, omap_app. f_equal. clear E.
  induction cbs as [|cb cbs IH]; [by destruct (decide _)|].
  rewrite fmap_cons. change ((this, cb) :: (pair this <$> cbs)) with ([(this, cb)] ++ (pair this <$> cbs)).
  rewrite omap_app, IH. simpl. unfold only. simpl. by destruct (decide (this = r)).
Qed.

(** The stage as the object's flags tell it. *)
Definition stage_of (x : Rpc) : Stage :=
  if is_pending x NEW_CONNECTION then Created
  else if is_pending x READ then Reading else ReadsOver.

Record ordered (w : World) : Prop := {
  o_fresh : ∀ r, next_ptr w ≤ r → callbacks_of w r = [];
  o_stage : ∀ r, ∃ st, stage_from Created (callbacks_of w r) = Some st ∧
    ∀ n x, heap_ w !! r = Some (n, x) → st = stage_of x
}.

(** How the invariant is re-established after a step for [this]. *)
Lemma ordered_step this cbs st st' w w' :
  ordered w → stage_from Created (callbacks_of w this) = Some st →
  stage_from st cbs = Some st' → this < next_ptr w →
  callbacks w' = callbacks w ++ (pair this <$> cbs) → next_ptr w ≤ next_ptr w' →
  (∀ r n x, r ≠ this → heap_ w' !! r = Some (n, x) →
     (∃ n0 x0, heap_ w !! r = Some (n0, x0) ∧ stage_of x = stage_of x0) ∨
     next_ptr w ≤ r ∧ stage_of x = Created) →
  (∀ n x, heap_ w' !! this = Some (n, x) → stage_of x = st') →
  ordered w'.
Proof.
  intros O Hst Hst' Hlt Hcb Hn Hoth Hthis.
  assert (∀ r, r ≠ this → callbacks_of w' r = callbacks_of w r) as Hsame.
  { intros r Hr. rewrite (callbacks_of_app w w' this cbs r Hcb), decide_False by done.
    apply app_nil_r. }
  split.
  - intros r Hr. rewrite Hsame by lia. apply O. lia.
  - intros r. destruct (decide (r = this)) as [->|Hne].
    + exists st'. split; [|intros n x Hx; symmetry; by eapply Hthis].
      rewrite (callbacks_of_app w w' this cbs this Hcb), decide_True by done.
      by rewrite stage_from_app, Hst.
    + rewrite Hsame by done. destruct (o_stage _ O r) as (s & Hs & Hx). exists s. split; [done|].
      intros n x Hr. destruct (Hoth r n x Hne Hr) as [(n0 & x0 & H0' & ->)|[Hge ->]].
      * by eapply Hx.
      * rewrite (o_fresh _ O r Hge) in Hs. simpl in Hs. congruence.
Qed.

(** Objects other than [this] after a step that touched only [this]. *)
Lemma touches_other this w w' r :
  touches this w w' → r ≠ this → heap_ w' !! r = heap_ w !! r.
Proof.
  intros Ht Hne. pose proof (t_others _ _ _ Ht) as E.
  rewrite <- (lookup_delete_ne (heap_ w') this r) by done. rewrite E.
  by rewrite lookup_delete_ne.
Qed.

Lemma ordered_live w r n x :
  ordered w → heap_ w !! r = Some (n, x) → stage_from Created (callbacks_of w r) = Some (stage_of x).
Proof. intros O Hx. destruct (o_stage _ O r) as (st & Hst & Hs). by rewrite Hst, (Hs n x). Qed.

Lemma heap_lt w r n x : inv N w → heap_ w !! r = Some (n, x) → r < next_ptr w.
Proof.
  intros (C & _) Hx. destruct (decide (r < next_ptr w)) as [?|Hge]; [done|exfalso].
  destruct (c_fresh _ _ _ C r ltac:(lia)) as [? _]. congruence.
Qed.

(** The object after its callbacks, for an RPC that is connected. *)
Lemma stage_after this cbs rd w w' n' x' n x :
  says this cbs rd w w' → touches this w w' → heap_ w !! this = Some (n, x) →
  is_pending x NEW_CONNECTION = false → heap_ w' !! this = Some (n', x') →
  stage_of x' = if default (is_pending x READ) rd then Reading else ReadsOver.
Proof.
  intros [_ Hs] Ht Hx Hnc Hx'. destruct (Hs _ _ Hx') as (n1 & x1 & E1 & Hr).
  destruct (t_fixed _ _ _ Ht _ _ Hx') as (n2 & x2 & E2 & Hf).
  rewrite Hx in E1, E2. injection E1 as <- <-. injection E2 as <- <-.
  apply (f_equal snd) in Hf. simpl in Hf. apply (f_equal fst) in Hr. simpl in Hr.
  unfold stage_of. by rewrite Hf, Hnc, Hr.
Qed.

Lemma stage_connected x :
  is_pending x NEW_CONNECTION = false → stage_of x = if is_pending x READ then Reading else ReadsOver.
Proof. unfold stage_of. by intros ->. Qed.

(** A step in which the connected object [this] went from the world [w] to
    [w2] (its flag [e] cleared or its use count changed) and then said [cbs]. *)
Lemma ordered_says this cbs rd st' n m x x2 w w2 w' :
  inv N w → ordered w → heap_ w !! this = Some (n, x) → connected x → quiet w w2 →
  heap_ w2 = <[this := (m, x2)]> (heap_ w) → is_pending x2 NEW_CONNECTION = false →
  says this cbs rd w2 w' → touches this w2 w' →
  stage_from (stage_of x) cbs = Some st' →
  st' = (if default (is_pending x2 READ) rd then Reading else ReadsOver) → ordered w'.
Proof.
  intros Hinv O Hx [Hnc _] (Ec & En & _) Eh Hnc2 Hs Ht Hst Hst'.
  eapply (ordered_step this cbs (stage_of x) st'); [done|by eapply ordered_live|done|
    by eapply heap_lt| | | |].
  - by rewrite (proj1 Hs), Ec.
  - by rewrite (t_next _ _ _ Ht), En.
  - intros r k y Hne Hy. left. exists k, y. split; [|done].
    rewrite (touches_other _ _ _ _ Ht Hne), Eh in Hy. by rewrite lookup_insert_ne in Hy.
  - intros k y Hy. rewrite Hst'. eapply stage_after; [done|done| |done|done].
    rewrite Eh. apply lookup_insert_eq.
Qed.

(** Handling an event of a connected RPC. *)
Lemma ordered_completion r e b n x w w2 w' :
  inv N w → ordered w → heap_ w !! r = Some (n, x) → is_pending x e = true →
  e ≠ NEW_CONNECTION → connected x → quiet w w2 →
  heap_ w2 = <[r := (n, cleared e x)]> (heap_ w) → HandleEvent e r b w2 = Ok tt w' → ordered w'.
Proof.
  intros Hinv O Hx Hpe Hne Hc Hq Eh Hrun.
  pose proof (preserves_Ok _ _ _ _ _ (tc_HandleEvent r e b Hne) Hrun) as Ht.
  pose proof (proj1 Hc) as Hnc. pose proof (stage_connected x Hnc) as Hst.
  assert (is_pending (cleared e x) NEW_CONNECTION = false) as Hnc2 by (by destruct e).
  assert (e ≠ READ → is_pending (cleared e x) READ = is_pending x READ) as Hrd by (by destruct e).
  assert (∀ cbs rd st', says r cbs rd w2 w' → stage_from (stage_of x) cbs = Some st' →
    st' = (if default (is_pending (cleared e x) READ) rd then Reading else ReadsOver) →
    ordered w') as Hgo.
  { intros. eapply ordered_says; eauto. }
  destruct e; simpl in Hrun; try done.
  - rewrite Hpe in Hst. rewrite Hst in Hgo.
    pose proof (wlp_ok _ _ _ _ _ (says_HandleRead r b w2) Hrun)
      as [(_ & m & Hs)|[(_ & m & m' & Hs)|(_ & Hs)]]; by eapply Hgo.
  - pose proof (wlp_ok _ _ _ _ _ (says_HandleWrite r b w2) Hrun) as Hs.
    eapply Hgo; [exact Hs|done|]. simpl. by rewrite Hst.
  - pose proof (wlp_ok _ _ _ _ _ (says_HandleFinish r b w2) Hrun) as Hs.
    eapply (Hgo _ _ (stage_of x) Hs); rewrite Hst; [by destruct (is_pending x READ)|].
    by rewrite <- Hrd.
  - pose proof (wlp_ok _ _ _ _ _ (says_HandleDone r b w2) Hrun) as Hs.
    eapply Hgo; [exact Hs|done|]. simpl. by rewrite Hst.
Qed.

Lemma Remove_object r w b w' n' x' :
  ActiveRpcs_Remove r w = Ok b w' → heap_ w' !! r = Some (n', x') →
  ∃ n, heap_ w !! r = Some (n, x').
Proof.
  unfold ActiveRpcs_Remove, mbind, M_bind, get. destruct (decide _); [|by intros [= _ <-]; eauto].
  unfold modify, release. simpl. destruct (heap_ w !! r) as [[[|[|n]] x]|]; simpl; try done;
    intros [= _ <-]; simpl; rewrite ?lookup_delete_eq, ?lookup_insert_eq; intros [= <- <-]; eauto.
Qed.

Lemma ordered_connection r n x w w2 w' :
  inv N w → inv N w' → ordered w → heap_ w !! r = Some (n, x) →
  is_pending x NEW_CONNECTION = true → quiet w w2 →
  heap_ w2 = <[r := (n, cleared NEW_CONNECTION x)]> (heap_ w) →
  handling N (λ _, 0) r connecting w2 →
  HandleNewConnection r (negb (shutting_down_ w)) w2 = Ok tt w' → ordered w'.
Proof.
  intros Hinv Hinv' O Hx Hpe (Ec & En & Ed) Eh Hh Hrun.
  set (x2 := cleared NEW_CONNECTION x) in *.
  assert (heap_ w2 !! r = Some (n, x2)) as Hx2 by (rewrite Eh; apply lookup_insert_eq).
  pose proof (h_obj _ _ _ _ _ Hh) as (n3 & x3 & Hx3 & Hnc & Hhd & Hrd).
  rewrite Hx2 in Hx3. injection Hx3 as <- <-.
  pose proof (ordered_live _ _ _ _ O Hx) as Hlive. unfold stage_of in Hlive. rewrite Hpe in Hlive.
  destruct (shutting_down_ w) eqn:Hsd.
  - unfold HandleNewConnection in Hrun. apply bind_Ok in Hrun as (w0 & w1 & [= <- <-] & Hrun).
    rewrite Ed in Hrun. apply bind_Ok in Hrun as (b & w1 & Hrun & [= <-]).
    pose proof (preserves_Ok _ _ _ _ _ (tc_Remove r) Hrun) as Ht.
    pose proof (preserves_Ok _ _ _ _ _ (sl_Remove r) Hrun) as [Hcb _].
    eapply (ordered_step r [] Created Created); [done|done|done|by eapply heap_lt| | | |].
    + simpl. by rewrite app_nil_r, Hcb, Ec.
    + by rewrite (t_next _ _ _ Ht), En.
    + intros r' k y Hne Hy. left. exists k, y. split; [|done].
      rewrite (touches_other _ _ _ _ Ht Hne), Eh in Hy. by rewrite lookup_insert_ne in Hy.
    + intros k y Hy. exfalso. pose proof Hinv' as (_ & Hph' & _). specialize (Hph' _ _ _ Hy).
      destruct (Remove_object _ _ _ _ _ _ Hrun Hy) as [k' Hy2]. simplify_eq.
      unfold phase in Hph'. rewrite Hnc, Hhd in Hph'. by destruct Hph'.
  - destruct (connection_accepted N r n x2 w2 w' Hh Hx2 Ed Hrun)
      as (w1 & y & Hcon & Ht & Ecb & En' & _ & Eh' & Hy & _).
    pose proof (h_core _ _ _ _ _ Hh) as C2.
    assert (r < next_ptr w) as Hlt by (by eapply heap_lt).
    assert (∀ cbs rd st', says r cbs rd w2 w1 → stage_from Created cbs = Some st' →
      st' = (if default (is_pending x2 READ) rd then Reading else ReadsOver) → ordered w') as Hgo.
    { intros cbs rd st' Hs Hst Hst'.
      eapply (ordered_step r cbs Created st'); [done|done|done|done| | | |].
      - by rewrite Ecb, (proj1 Hs), Ec.
      - rewrite En', (t_next _ _ _ Ht), En. lia.
      - intros r' k z Hne. rewrite Eh', (t_next _ _ _ Ht), En.
        intros [[<- [= <- <-]]|[Hne' Hz]]%lookup_insert_Some.
        + right. split; [done|]. unfold stage_of. by rewrite Hy.
        + left. exists k, z. split; [|done].
          rewrite (touches_other _ _ _ _ Ht Hne), Eh in Hz. by rewrite lookup_insert_ne in Hz.
      - intros k z. rewrite Eh', (t_next _ _ _ Ht), En, lookup_insert_ne by lia. intros Hz.
        rewrite Hst'. by eapply stage_after. }
    pose proof (wlp_ok _ _ _ _ _ (says_OnConnection r n x2 w2 Hx2 Hhd) Hcon) as [Hs|[m Hs]].
    + by eapply Hgo.
    + eapply Hgo; [exact Hs|done|]. simpl. by rewrite Hrd.
Qed.

Lemma ordered_quiet r w w' :
  inv N w → ordered w → touches r w w' → silent r w w' → r < next_ptr w → ordered w'.
Proof.
  intros Hinv O Ht [Hcb Hrd] Hlt. destruct (o_stage _ O r) as (st & Hst & Hx).
  eapply (ordered_step r [] st st); [done|done|done|done| | | |].
  - simpl. by rewrite app_nil_r, Hcb.
  - by rewrite (t_next _ _ _ Ht).
  - intros r' k y Hne Hy. left. exists k, y. by rewrite (touches_other _ _ _ _ Ht Hne) in Hy.
  - intros k y Hy. destruct (Hrd _ _ Hy) as (n1 & x1 & E1 & Hr).
    destruct (t_fixed _ _ _ Ht _ _ Hy) as (n2 & x2 & E2 & Hf).
    rewrite E1 in E2. injection E2 as <- <-. rewrite (Hx _ _ E1).
    apply (f_equal snd) in Hf. simpl in Hf. apply (f_equal fst) in Hr. simpl in Hr.
    unfold stage_of. by rewrite Hf, Hr.
Qed.

Lemma ordered_same w w' :
  ordered w → callbacks w' = callbacks w → next_ptr w' = next_ptr w → heap_ w' = heap_ w →
  ordered w'.
Proof.
  intros [F S] Ec En Eh. split; unfold callbacks_of in *; rewrite Ec; [by rewrite En|by rewrite Eh].
Qed.

Lemma ordered_exec w l w' :
  inv N w → inv N w' → ordered w → step w l w' → conn_ok w l → ordered w'.
Proof.
  intros Hinv Hinv' O Hstep Hok. pose proof Hstep as [Henv Hx].
  destruct (shared_label l) eqn:Hsh.
  { destruct (shared_step w l w' Hx Hsh) as (? & _ & ? & ? & _). by apply (ordered_same w). }
  assert ((∀ q, l ≠ LEvent q) → ordered w') as Hother.
  { intros Hne. destruct (other_step N w _ w' Hinv Hstep Hne Hsh) as (r0 & Ht & Hs & Hlt & _).
    by apply (ordered_quiet r0 w). }
  destruct l as [r e b payload|q|r op|i| | |c]; try done; try (by apply Hother).
  - destruct (exec_event_step N w q w' Hinv Hok Hx)
      as [[Ec [En _]] Eh|r n x w2 Hr Hp _ Hq Eh Hh Hrun|r e b n x w2 Hr Hp Hne Hc Hq Eh Hrun
         |r n x w1 w2 Hr Hc Hq Eh Hrun Hrel].
    + by apply (ordered_same w).
    + by eapply (ordered_connection r n x w w2).
    + by eapply (ordered_completion r e b n x w w2).
    + assert (says r [] None w1 w') as Hs.
      { apply says_silent. transitivity w2.
        - apply says_silent. exact (wlp_ok _ _ _ _ _ (says_HandleWrite r true w1) Hrun).
        - exact (preserves_Ok _ _ _ _ _ (sl_release r) Hrel). }
      assert (touches r w1 w') as Ht.
      { transitivity w2.
        - by eapply (preserves_Ok _ _ _ _ _ (tc_HandleEvent r WRITE true ltac:(done))).
        - exact (preserves_Ok _ _ _ _ _ (tc_release r) Hrel). }
      destruct Hc as [Hnc Hhd].
      apply (ordered_says r [] None (stage_of x) n (S n) x x w w1); try done.
      by apply stage_connected.
Qed.

(** ** Listeners *)

(** The method and completion queue an object waits for a connection on. *)
Definition listens (x : Rpc) : list (nat * nat) :=
  if is_pending x NEW_CONNECTION then [(method_index_ x, server_completion_queue_ x)] else [].

Definition listeners (h : gmap RpcPtr (nat * Rpc)) : list (nat * nat) :=
  map_to_list h ≫= λ p, listens p.2.2.

(** One slot per method (numbered from [i]) and completion queue. *)
Fixpoint slots_from (i : nat) (infos : list RpcHandlerInfo) (cqs : list nat) : list (nat * nat) :=
  match infos with
  | [] => []
  | _ :: infos' => (pair i <$> cqs) ++ slots_from (S i) infos' cqs
  end.

Definition slots (infos : list RpcHandlerInfo) (cqs : list nat) : list (nat * nat) :=
  slots_from 0 infos cqs.

Lemma listeners_insert h r n x :
  h !! r = None → listeners (<[r := (n, x)]> h) ≡ₚ listens x ++ listeners h.
Proof.
  intros Hr. unfold listeners. rewrite (bind_Permutation _ _ _ (map_to_list_insert h r (n, x) Hr)).
  done.
Qed.

Lemma listeners_split h r n x :
  h !! r = Some (n, x) → listeners h ≡ₚ listens x ++ listeners (delete r h).
Proof.
  intros Hr. rewrite <- (insert_delete_id h r (n, x)) at 1 by done.
  apply listeners_insert, lookup_delete_eq.
Qed.

Lemma listeners_absent h r : h !! r = None → listeners (delete r h) = listeners h.
Proof. intros Hr. by rewrite delete_id. Qed.

(** The listeners other than [this] are the same when only [this] changed. *)
Lemma listeners_touched this l w w' :
  touches this w w' →
  listeners (heap_ w) ≡ₚ l ++ listeners (delete this (heap_ w)) →
  (∀ n x, heap_ w' !! this = Some (n, x) → listens x = l) →
  (heap_ w' !! this = None → l = []) →
  listeners (heap_ w') ≡ₚ listeners (heap_ w).
Proof.
  intros Ht Hl Hs Hn. rewrite Hl, <- (t_others _ _ _ Ht).
  destruct (heap_ w' !! this) as [[n x]|] eqn:Hx.
  - rewrite (listeners_split _ _ _ _ Hx). by rewrite (Hs n x).
  - rewrite Hn by done. by rewrite listeners_absent.
Qed.

Lemma listens_fixed x x' : fixed x' = fixed x → listens x' = listens x.
Proof. unfold fixed, listens. intros [= -> -> _ ->]. done. Qed.

(** A step that touches [this] and keeps it alive if it listens. *)
Lemma listeners_kept this w w' :
  touches this w w' →
  (∀ n x, heap_ w !! this = Some (n, x) → is_pending x NEW_CONNECTION = true →
     is_Some (heap_ w' !! this)) →
  listeners (heap_ w') ≡ₚ listeners (heap_ w).
Proof.
  intros Ht Ha. destruct (heap_ w !! this) as [[n x]|] eqn:Hx.
  - apply (listeners_touched this (listens x)); [done|by eapply listeners_split| |].
    + intros n' x' Hx'. destruct (t_fixed _ _ _ Ht _ _ Hx') as (n0 & x0 & E & Hf).
      rewrite Hx in E. injection E as <- <-. by apply listens_fixed.
    + intros Hn. unfold listens. destruct (is_pending x NEW_CONNECTION) eqn:Hp; [|done].
      destruct (Ha n x eq_refl Hp). congruence.
  - apply (listeners_touched this []); [done|by rewrite listeners_absent| |done].
    intros n' x' Hx'. destruct (t_fixed _ _ _ Ht _ _ Hx') as (n0 & x0 & E & _). congruence.
Qed.

(** Changing the object of a connected RPC before it is handled. *)
Lemma listeners_replace h r n m x y :
  h !! r = Some (n, x) → listens x = [] → listens y = [] →
  listeners (<[r := (m, y)]> h) ≡ₚ listeners h.
Proof.
  intros Hr Hx Hy. rewrite (listeners_split _ _ _ _ Hr), Hx.
  rewrite <- insert_delete_eq, listeners_insert by apply lookup_delete_eq. by rewrite Hy.
Qed.

(** The same for an event of a connected RPC: first a change to its flags or
    count, then its handler. *)
Lemma listeners_handled r n m x y w w2 w' :
  heap_ w !! r = Some (n, x) → is_pending x NEW_CONNECTION = false →
  is_pending y NEW_CONNECTION = false →
  heap_ w2 = <[r := (m, y)]> (heap_ w) → touches r w2 w' →
  listeners (heap_ w') ≡ₚ listeners (heap_ w).
Proof.
  intros Hx Hnx Hny Eh Ht. transitivity (listeners (heap_ w2)).
  - apply (listeners_kept r); [done|]. rewrite Eh. intros k z. rewrite lookup_insert_eq.
    intros [= <- <-]. by rewrite Hny.
  - rewrite Eh. eapply listeners_replace; [done|unfold listens; by rewrite Hnx
      |unfold listens; by rewrite Hny].
Qed.

Lemma listeners_connection r n x w w2 w' :
  inv N w → heap_ w !! r = Some (n, x) → is_pending x NEW_CONNECTION = true → quiet w w2 →
  heap_ w2 = <[r := (n, cleared NEW_CONNECTION x)]> (heap_ w) →
  handling N (λ _, 0) r connecting w2 → shutting_down_ w = false →
  HandleNewConnection r true w2 = Ok tt w' →
  listeners (heap_ w') ≡ₚ listeners (heap_ w).
Proof.
  intros Hinv Hx Hp (Ec & En & Ed) Eh Hh Hsd Hrun.
  assert (heap_ w2 !! r = Some (n, cleared NEW_CONNECTION x)) as Hx2
    by (rewrite Eh; apply lookup_insert_eq).
  destruct (connection_accepted N r n _ w2 w' Hh Hx2 ltac:(congruence) Hrun)
    as (w1 & y & _ & Ht & _ & _ & _ & Eh' & Hy & Em & Eq & _).
  rewrite Eh', listeners_insert.
  - rewrite (listeners_split _ _ _ _ Hx).
    assert (listens y = listens x) as -> by (unfold listens; by rewrite Hy, Hp, Em, Eq).
    f_equiv. rewrite (listeners_kept r w2 w1 Ht).
    + rewrite Eh, <- insert_delete_eq, listeners_insert by apply lookup_delete_eq. done.
    + intros k z Hz. rewrite Hx2 in Hz. injection Hz as <- <-. done.
  - rewrite (t_next _ _ _ Ht), En. assert (r < next_ptr w) as Hlt by (by eapply heap_lt).
    rewrite (touches_other _ _ _ _ Ht) by lia. rewrite Eh, lookup_insert_ne by lia.
    pose proof Hinv as (C & _). by apply (c_fresh _ _ _ C).
Qed.

Lemma listeners_exec w l w' :
  inv N w → step w l w' → conn_ok w l → shutting_down_ w' = false →
  listeners (heap_ w') ≡ₚ listeners (heap_ w) ∧ shutting_down_ w = false.
Proof.
  intros Hinv Hstep Hok Hsd. pose proof Hstep as [Henv Hx].
  destruct (shared_label l) eqn:Hsh.
  { destruct (shared_step w l w' Hx Hsh) as (-> & _ & _ & _ & Hd). auto. }
  assert ((∀ q, l ≠ LEvent q) →
    listeners (heap_ w') ≡ₚ listeners (heap_ w) ∧ shutting_down_ w = false) as Hother.
  { intros Hne. destruct (other_step N w _ w' Hinv Hstep Hne Hsh) as (r0 & Ht & Hs & Hlt & Ha).
    split; [by apply (listeners_kept r0)|]. by rewrite <- (t_down _ _ _ Ht). }
  destruct l as [r e b payload|q|r op|i| | |c]; try done; try (by apply Hother).
  - destruct (exec_event_step N w q w' Hinv Hok Hx)
      as [[_ [_ Ed]] Eh|r n x w2 Hr Hp _ Hq Eh Hh Hrun|r e b n x w2 Hr Hp Hne Hc Hq Eh Hrun
         |r n x w1 w2 Hr Hc Hq Eh Hrun Hrel].
    + by rewrite Eh, <- Ed.
    + destruct (shutting_down_ w) eqn:Hw; [exfalso|].
      * unfold HandleNewConnection in Hrun.
        apply bind_Ok in Hrun as (w0 & w1 & [= <- <-] & Hrun). destruct Hq as (_ & _ & Ed).
        rewrite Ed, Hw in Hrun. apply bind_Ok in Hrun as (b & w1 & Hrun & [= <-]).
        pose proof (t_down _ _ _ (preserves_Ok _ _ _ _ _ (tc_Remove r) Hrun)). congruence.
      * split; [|done]. by eapply (listeners_connection r n x w w2).
    + pose proof (preserves_Ok _ _ _ _ _ (tc_HandleEvent r e b Hne) Hrun) as Ht.
      split; [|destruct Hq as (_ & _ & <-); by rewrite <- (t_down _ _ _ Ht)].
      eapply (listeners_handled r n n x (cleared e x)); [done|apply Hc| |done|done].
      destruct Hc as [Hnc _]. by destruct e.
    + assert (touches r w1 w') as Ht.
      { transitivity w2.
        - by eapply (preserves_Ok _ _ _ _ _ (tc_HandleEvent r WRITE true ltac:(done))).
        - exact (preserves_Ok _ _ _ _ _ (tc_release r) Hrel). }
      split; [|destruct Hq as (_ & _ & <-); by rewrite <- (t_down _ _ _ Ht)].
      by eapply (listeners_handled r n (S n) x x); [done|apply Hc|apply Hc|done|].
Qed.

(** ** The start *)

(** Every live object is waiting for its connection. *)
Definition all_waiting (w : World) : Prop :=
  ∀ r n x, heap_ w !! r = Some (n, x) → is_pending x NEW_CONNECTION = true.

Lemma Rpc_new_listens p i cq q info :
  listens (listening (Rpc_new p i cq q info)) = [(i, cq)] ∧
  is_pending (listening (Rpc_new p i cq q info)) NEW_CONNECTION = true.
Proof. unfold Rpc_new. by destruct (InitializeReadersAndWriters _) as [[[? ?] ?] ?]. Qed.

Lemma wp_start_queues i info cqs l w :
  inv N w → shutting_down_ w = false → all_waiting w → listeners (heap_ w) ≡ₚ l →
  wp (for_each cqs (λ cq,
        q ← event_queue_selector_;
        rpc ← make_unique_Rpc i cq q info;
        ActiveRpcs_Add rpc ;; RequestNextMethodInvocation rpc ;; release rpc))
    (λ _ w', inv N w' ∧ shutting_down_ w' = false ∧ all_waiting w' ∧
       listeners (heap_ w') ≡ₚ l ++ (pair i <$> cqs)) w.
Proof.
  revert l w. induction cqs as [|cq cqs IH]; intros l w Hinv Hsd Hw Hl.
  { apply wp_ret. split_and!; try done. by rewrite app_nil_r. }
  apply wp_bind. apply (wp_start_one N i cq info); [done|].
  intros w' q Hinv' _ Hsd' _ Eh. destruct (Rpc_new_listens (next_ptr w) i cq q info) as [Hn Hp].
  eapply wp_mono; [apply (IH (l ++ [(i, cq)])); [done|congruence| |]|].
  - intros r n x. rewrite Eh. intros [[_ [= _ <-]]|[_ Hx]]%lookup_insert_Some; [done|by eapply Hw].
  - rewrite Eh, listeners_insert, Hn, Hl, Permutation_app_comm; [done|].
    pose proof Hinv as (C & _). by apply (c_fresh _ _ _ C).
  - intros [] w2 (? & ? & ? & Hl2). split_and!; try done. rewrite Hl2, <- app_assoc. done.
Qed.

Lemma wp_StartServing_listeners infos cqs w :
  inv N w → shutting_down_ w = false → all_waiting w → listeners (heap_ w) = [] →
  wp (StartServing infos cqs) (λ _ w', all_waiting w' ∧
    listeners (heap_ w') ≡ₚ slots infos cqs) w.
Proof.
  intros Hinv Hsd Hw Hl. unfold StartServing, slots.
  assert (∀ i l w, inv N w → shutting_down_ w = false → all_waiting w → listeners (heap_ w) ≡ₚ l →
    wp (StartServing_from i infos cqs) (λ _ w', all_waiting w' ∧
      listeners (heap_ w') ≡ₚ l ++ slots_from i infos cqs) w) as Hgo;
    [|by apply (Hgo 0 []); rewrite ?Hl].
  clear w Hinv Hsd Hw Hl. induction infos as [|info infos IH]; intros i l w Hinv Hsd Hw Hl; simpl.
  { apply wp_ret. split; [done|]. by rewrite app_nil_r. }
  apply wp_bind. eapply wp_mono; [by apply wp_start_queues|].
  intros [] w' (Hinv' & Hsd' & Hw' & Hl'). eapply wp_mono; [by apply IH|].
  intros [] w2 [Hw2 Hl2]. split; [done|]. by rewrite Hl2, <- app_assoc.
Qed.

Lemma hu_StartServing infos cqs : preserves hushed (StartServing infos cqs).
Proof.
  unfold StartServing. generalize 0 as i. induction infos as [|info infos IH]; intros i; simpl;
    [apply preserves_ret; apply _|].
  apply preserves_bind; [apply _| |intros _; apply IH].
  apply preserves_for_each; [apply _|]. intros cq.
  apply preserves_bind; [apply _|apply hu_selector|]. intros q.
  apply preserves_bind; [apply _| |intros p; apply hu_register].
  intros w. unfold wlp, make_unique_Rpc. simpl. done.
Qed.

(** The start of a calm run. *)
Lemma calm_start_waiting infos cqs s c w :
  sel_inv s → StartServing infos cqs (world_init N s c) = Ok tt w →
  all_waiting w ∧ listeners (heap_ w) ≡ₚ slots infos cqs ∧ callbacks w = [].
Proof.
  intros Hs Hstart.
  assert (wp (StartServing infos cqs) (λ _ w', all_waiting w' ∧
    listeners (heap_ w') ≡ₚ slots infos cqs) (world_init N s c)) as Hwp.
  { apply wp_StartServing_listeners; [by apply inv_init|done|by intros r n x|done]. }
  unfold wp in Hwp. rewrite Hstart in Hwp. destruct Hwp as [Hw Hl]. split_and!; [done|done|].
  exact (preserves_Ok _ _ _ _ _ (hu_StartServing infos cqs) Hstart).
Qed.

Lemma ordered_start w : all_waiting w → callbacks w = [] → ordered w.
Proof.
  intros Hw Hc. split; unfold callbacks_of; rewrite Hc; [done|]. intros r. exists Created.
  split; [done|]. intros n x Hx. unfold stage_of. by rewrite (Hw _ _ _ Hx).
Qed.

Lemma calm_ordered infos cqs s c w :
  sel_inv s → calm_run N infos cqs s c w → ordered w.
Proof.
  intros Hs. induction 1 as [w Hstart|w l w' Hrun IH Hstep Hok Hrace].
  - destruct (calm_start_waiting _ _ _ _ _ Hs Hstart) as (? & _ & ?). by apply ordered_start.
  - eapply (ordered_exec w l); [by eapply calm_run_inv| |done|done|done].
    by eapply calm_run_inv; [|eapply calm_step].
Qed.

Lemma calm_listeners infos cqs s c w :
  sel_inv s → calm_run N infos cqs s c w → shutting_down_ w = false →
  listeners (heap_ w) ≡ₚ slots infos cqs.
Proof.
  intros Hs. induction 1 as [w Hstart|w l w' Hrun IH Hstep Hok Hrace]; intros Hsd.
  - by destruct (calm_start_waiting _ _ _ _ _ Hs Hstart) as (_ & ? & _).
  - destruct (listeners_exec w l w') as [Hl Hsd']; [by eapply calm_run_inv|done|done|done|].
    rewrite Hl. by apply IH.
Qed.

End order.
