(* ===== verification/HandlerReplay.v ===== *)
(** * What a handler computes is what is sent

    The framework calls the handler of an RPC and collects what it answers.
    A handler class by itself is a machine: from the callbacks it gets, and
    whatever the shared context holds when it gets them, follow its states and
    the items it asks to send.  [replay] is that machine, without the
    framework.  The invariant [faithful] says that on every run of a service
    each [Rpc] object is accounted for by a replay of the callbacks made to
    its handler and by the calls of its [Writer]s. *)

From Stdlib Require Import ZArith Lia.
From stdpp Require Import base option list strings gmap.
From S2P Require Import Prelude Interfaces BlockingQueue Rpc Service ServiceFrame ServiceInv.
From S2P Require Import ServiceLemmas ServiceHandlers ServiceSafety ServiceSteps.
From S2P Require Import ServiceFlow ServiceProtocol ServiceOrder.
Import Event EventDeleter.

Set Default Proof Using "Type".

Section replay.
Context `{GrpcStatus, Application, EventQueueSelector}.

(** ** Handlers on their own *)

(** The item a call of the handler puts into the send queue. *)
Definition action_item (a : HandlerAction) : option SendItem :=
  match a with
  | ASend m => Some (mkSendItem (Some m) Status_OK)
  | AFinish s => Some (mkSendItem None s)
  | AGetWriter => None
  end.

(** Whether it gives out a writer. *)
Definition gives_writer (a : HandlerAction) : bool :=
  match a with AGetWriter => true | _ => false end.

(** [replay cls cbs h acts]: after the callbacks [cbs] a handler of class
    [cls] can be in state [h], having made the calls [acts]. *)
Inductive replay (cls : RpcHandlerClass) :
    list Callback → HandlerState → list HandlerAction → Prop :=
  | replay_Initialize c h c' acts :
      handler_Initialize cls c = (h, c', acts) → replay cls [CbInitialize] h acts
  | replay_call cbs h before cb body c h' c' acts :
      replay cls cbs h before → virtual_call cb body → body cls h c = (h', c', acts) →
      replay cls (cbs ++ [cb]) h' (before ++ acts).

(** ** The account of an object *)

Section accounts.
Context (infos : list RpcHandlerInfo).

(** No handler was created yet. *)
Definition untouched (w : World) (p : RpcPtr) : Prop :=
  callbacks_of w p = [] ∧ items p (enqueued w) = [] ∧ p ∉ weak_refs w ∧
  items p (written w) = [].

(** The handler is in state [h]; what it asked to send and what its writers
    wrote was enqueued, each in this order, and nothing else was. *)
Definition replayed (w : World) (p : RpcPtr) (info : RpcHandlerInfo) (h : HandlerState) : Prop :=
  ∃ acts, replay (rpc_handler_class info) (callbacks_of w p) h acts ∧
    shuffle (omap action_item acts) (items p (written w)) (items p (enqueued w)) ∧
    (p ∈ weak_refs w → existsb gives_writer acts = true) ∧
    (p ∉ weak_refs w → items p (written w) = []).

Definition account (w : World) (p : RpcPtr) : Prop :=
  match heap_ w !! p with
  | Some (_, x) =>
      rpc_handler_info_ x ∈ infos ∧
      match handler_ x with
      | Some h => replayed w p (rpc_handler_info_ x) h
      | None => untouched w p
      end
  | None => untouched w p ∨ ∃ info h, info ∈ infos ∧ replayed w p info h
  end.

Record faithful (w : World) : Prop := {
  fa_account : ∀ p, account w p;
  fa_fresh : ∀ p, next_ptr w ≤ p → heap_ w !! p = None ∧ untouched w p
}.

Definition keeps_faithful (w w' : World) : Prop := faithful w → faithful w'.

#[global] Instance keeps_faithful_preorder : PreOrder keeps_faithful.
Proof. split; [by intros w Hw|]. unfold keeps_faithful. intros w1 w2 w3. auto. Qed.

(** ** Changes that no account notices *)

(** What the account of [p] looks at, but for the object itself. *)
Definition same_record (w w' : World) (p : RpcPtr) : Prop :=
  callbacks_of w' p = callbacks_of w p ∧ items p (enqueued w') = items p (enqueued w) ∧
  (p ∈ weak_refs w' ↔ p ∈ weak_refs w) ∧ items p (written w') = items p (written w).

Lemma untouched_same w w' p : same_record w w' p → untouched w p → untouched w' p.
Proof.
  intros (Hc & Hi & Hr & Hl) (? & ? & ? & ?). split_and!; [congruence..|by rewrite Hr|congruence].
Qed.

Lemma replayed_same w w' p info h :
  same_record w w' p → replayed w p info h → replayed w' p info h.
Proof.
  intros (Hc & Hi & Hr & Hl) (acts & Hits & Hs & He). exists acts. by rewrite Hc, Hi, Hr, Hl.
Qed.

Lemma account_same w w' p :
  heap_ w' !! p = heap_ w !! p → same_record w w' p → account w p → account w' p.
Proof.
  unfold account. intros -> Hs. destruct (heap_ w !! p) as [[n x]|].
  - intros [Hi Hx]. split; [done|]. destruct (handler_ x); [by eapply replayed_same|].
    by eapply untouched_same.
  - intros [Hu|(info & h & Hi & Hx)]; [left; by eapply untouched_same|right].
    exists info, h. split; [done|]. by eapply replayed_same.
Qed.

(** The parts of the state [faithful] looks at, but for the objects. *)
Definition record_of (w : World) :=
  (next_ptr w, callbacks w, enqueued w, weak_refs w, written w).

Lemma record_same w w' p : record_of w' = record_of w → same_record w w' p.
Proof. intros [= _ Hc He Hr Hl]. unfold same_record, callbacks_of. by rewrite Hc, He, Hr, Hl. Qed.

Lemma faithful_same w w' :
  heap_ w' = heap_ w → record_of w' = record_of w → keeps_faithful w w'.
Proof.
  intros Hh Hr [Ha Hf]. split; intros p.
  - eapply account_same; [by rewrite Hh|by apply record_same|done].
  - intros Hp. pose proof Hr as [= Hn _ _ _ _]. rewrite Hn in Hp.
    destruct (Hf p Hp) as [? ?]. rewrite Hh. split; [done|].
    by eapply untouched_same; [apply record_same|].
Qed.

(** An object is replaced, its method and handler as before. *)
Lemma faithful_update w p n n' x x' :
  heap_ w !! p = Some (n, x) → rpc_handler_info_ x' = rpc_handler_info_ x →
  handler_ x' = handler_ x → keeps_faithful w (upd_heap (insert p (n', x')) w).
Proof.
  intros Hp Hi Hh [Ha Hf]. split; simpl; intros q.
  - destruct (decide (q = p)) as [->|Hne].
    + specialize (Ha p). unfold account in *. simpl. rewrite Hp in Ha. rewrite lookup_insert_eq.
      by rewrite Hi, Hh.
    + eapply account_same; [by simpl; rewrite lookup_insert_ne|done|done].
  - intros Hq. destruct (Hf q Hq) as [Hn Hu]. split; [|done].
    rewrite lookup_insert_ne; [done|]. intros ->. congruence.
Qed.

Lemma faithful_delete w w' p n x :
  heap_ w !! p = Some (n, x) → heap_ w' = delete p (heap_ w) → record_of w' = record_of w →
  keeps_faithful w w'.
Proof.
  intros Hp Hh Hr [Ha Hf]. split; intros q.
  - destruct (decide (q = p)) as [->|Hne].
    + specialize (Ha p). unfold account in *. rewrite Hp in Ha. rewrite Hh, lookup_delete_eq.
      destruct Ha as [Hi Hx]. pose proof (record_same w w' p Hr) as Hs.
      destruct (handler_ x) as [h|]; [right|left; by eapply untouched_same].
      exists (rpc_handler_info_ x), h. split; [done|]. by eapply replayed_same.
    + eapply account_same; [by rewrite Hh, lookup_delete_ne|by apply record_same|done].
  - intros Hq. pose proof Hr as [= Hn _ _ _ _]. rewrite Hn in Hq.
    destruct (Hf q Hq) as [Hx Hu]. split; [by rewrite Hh, lookup_delete_None; right|].
    by eapply untouched_same; [apply record_same|].
Qed.

Lemma faithful_new w i cq q info :
  info ∈ infos →
  keeps_faithful w (upd_next_ptr S
    (upd_heap (insert (next_ptr w) (0, Rpc_new (next_ptr w) i cq q info)) w)).
Proof.
  intros Hinfo [Ha Hf]. split; simpl; intros p.
  - destruct (decide (p = next_ptr w)) as [->|Hne].
    + unfold account. simpl. rewrite lookup_insert_eq. unfold Rpc_new.
      destruct (InitializeReadersAndWriters _) as [[[? ?] ?] ?]. split; [done|]. by apply Hf.
    + eapply account_same; [by simpl; rewrite lookup_insert_ne|done|done].
  - intros Hp. destruct (Hf p) as [Hn Hu]; [lia|]. by rewrite lookup_insert_ne by lia.
Qed.

(** ** Calls of a handler *)

(** What the calls a handler makes change: the items [its] are enqueued for
    its RPC, and it may give out a writer if [g] says so. *)
Record acted (p : RpcPtr) (its : list SendItem) (g : bool) (w w' : World) : Prop := {
  ac_other : ∀ q, q ≠ p → heap_ w' !! q = heap_ w !! q;
  ac_object : ∀ n x, heap_ w !! p = Some (n, x) →
    ∃ x', heap_ w' !! p = Some (n, x') ∧ rpc_handler_info_ x' = rpc_handler_info_ x ∧
      handler_ x' = handler_ x;
  ac_next : next_ptr w' = next_ptr w;
  ac_callbacks : callbacks w' = callbacks w;
  ac_enqueued : enqueued w' = enqueued w ++ (pair p <$> its);
  ac_written : written w' = written w;
  ac_kept : weak_refs w ⊆ weak_refs w';
  ac_given : weak_refs w' ⊆ (if g then {[p]} else ∅) ∪ weak_refs w
}.

Lemma acted_refl p w : acted p [] false w w.
Proof. split; try done; [eauto|by rewrite app_nil_r|set_solver]. Qed.

Lemma acted_trans p its1 its2 g1 g2 w1 w2 w3 :
  acted p its1 g1 w1 w2 → acted p its2 g2 w2 w3 → acted p (its1 ++ its2) (g1 || g2) w1 w3.
Proof.
  intros A B. split.
  - intros q Hq. by rewrite (ac_other _ _ _ _ _ B), (ac_other _ _ _ _ _ A).
  - intros n x Hx. destruct (ac_object _ _ _ _ _ A n x Hx) as (y & Hy & Hi & Hh).
    destruct (ac_object _ _ _ _ _ B n y Hy) as (z & Hz & Hi' & Hh').
    exists z. split_and!; [done|congruence..].
  - by rewrite (ac_next _ _ _ _ _ B), (ac_next _ _ _ _ _ A).
  - by rewrite (ac_callbacks _ _ _ _ _ B), (ac_callbacks _ _ _ _ _ A).
  - by rewrite (ac_enqueued _ _ _ _ _ B), (ac_enqueued _ _ _ _ _ A), fmap_app, app_assoc.
  - by rewrite (ac_written _ _ _ _ _ B), (ac_written _ _ _ _ _ A).
  - etransitivity; [apply (ac_kept _ _ _ _ _ A)|apply (ac_kept _ _ _ _ _ B)].
  - pose proof (ac_given _ _ _ _ _ A). pose proof (ac_given _ _ _ _ _ B). destruct g1, g2; set_solver.
Qed.

Lemma enqueue_acted p it w w' : EnqueueMessage p it w = Ok tt w' → acted p [it] false w w'.
Proof.
  unfold EnqueueMessage, store, modify, mbind, M_bind.
  destruct (heap_ w !! p) as [[n x]|] eqn:Hp; [|done]. intros [= <-]. split; try done; simpl.
  - intros q Hq. by rewrite lookup_insert_ne.
  - intros m y Hy. rewrite Hp in Hy. injection Hy as <- <-. rewrite lookup_insert_eq. by eexists.
  - set_solver.
Qed.

(** Changes of the state a handler's account does not see. *)
Lemma acted_same p w w' :
  heap_ w' = heap_ w → record_of w' = record_of w → acted p [] false w w'.
Proof.
  intros Hh [= Hn Hc He Hr Hl]. split; rewrite ?Hh, ?Hn, ?Hc, ?He, ?Hr; try done; [eauto| |set_solver].
  by rewrite app_nil_r.
Qed.

Lemma push_event_acted p q e w w' : push_event q e w = Ok tt w' → acted p [] false w w'.
Proof. unfold push_event. repeat case_match; intros; simplify_eq. by apply acted_same. Qed.

Lemma enqueue_and_push_acted p it w w' :
  (EnqueueMessage p it ;; weak ← ActiveRpcs_GetWeakPtr p; push_write_needed p weak) w = Ok tt w' →
  acted p [it] false w w'.
Proof.
  intros ([] & w1 & Ha1%enqueue_acted & Hrun)%bind_Ok.
  unfold ActiveRpcs_GetWeakPtr, get, check, push_write_needed, deref, mbind, M_bind in Hrun.
  rewrite <- (app_nil_r [it]), <- (orb_false_r false). eapply acted_trans; [exact Ha1|].
  case_bool_decide; [|done]. simpl in Hrun. destruct (heap_ w1 !! p) as [[n x]|]; [|done].
  by eapply push_event_acted.
Qed.

Lemma run_action_acted p a w w' :
  run_action p a w = Ok tt w' → acted p (option_list (action_item a)) (gives_writer a) w w'.
Proof.
  destruct a as [m|s|]; simpl.
  - apply enqueue_and_push_acted.
  - intros ([] & w1 & Ha1%enqueue_and_push_acted & [= <-])%bind_Ok.
    rewrite <- (app_nil_r [_]), <- (orb_false_r false). eapply acted_trans; [exact Ha1|by apply acted_same].
  - unfold RpcHandler_GetWriter, ActiveRpcs_GetWeakPtr, get, check, modify, mbind, M_bind.
    case_bool_decide; [|done]. simpl. intros [= <-]. split; simpl; try done; [eauto| |set_solver].
    by rewrite app_nil_r.
Qed.

Lemma run_actions_acted p acts w w' :
  for_each acts (run_action p) w = Ok tt w' →
  acted p (omap action_item acts) (existsb gives_writer acts) w w'.
Proof.
  revert w. induction acts as [|a acts IH]; intros w; [intros [= <-]; apply acted_refl|].
  intros ([] & w1 & Ha1%run_action_acted & Ha2%IH)%bind_Ok.
  pose proof (acted_trans _ _ _ _ _ _ _ _ Ha1 Ha2) as Ha. simpl. by destruct (action_item a).
Qed.

(** The account of an object after one call of its handler; the accounts of
    the others are as before. *)
Lemma faithful_called w w' p n n' x x' cb its h :
  faithful w → heap_ w !! p = Some (n, x) → heap_ w' !! p = Some (n', x') →
  rpc_handler_info_ x' = rpc_handler_info_ x → handler_ x' = Some h →
  (∀ q, q ≠ p → heap_ w' !! q = heap_ w !! q) → next_ptr w' = next_ptr w →
  callbacks w' = callbacks w ++ [(p, cb)] → enqueued w' = enqueued w ++ (pair p <$> its) →
  written w' = written w →
  weak_refs w ⊆ weak_refs w' → weak_refs w' ⊆ {[p]} ∪ weak_refs w →
  replayed w' p (rpc_handler_info_ x) h → faithful w'.
Proof.
  intros [Ha Hf] Hp Hp' Hi Hh Ho Hn Hc He Hl Hr1 Hr2 Hx.
  assert (∀ q, q ≠ p → same_record w w' q) as Hs.
  { intros q Hq. split_and!; [| |set_solver|by rewrite Hl].
    - rewrite (callbacks_of_app w w' p [cb] q Hc), decide_False by done. by rewrite app_nil_r.
    - rewrite He. unfold items. rewrite omap_app. clear -Hq.
      induction its as [|it its IH]; simpl; [by rewrite app_nil_r|]. unfold only at 2. simpl.
      by rewrite decide_False by done. }
  split; intros q.
  - destruct (decide (q = p)) as [->|Hq]; [|eapply account_same; [by apply Ho|by apply Hs|done]].
    specialize (Ha p). unfold account in *. rewrite Hp in Ha. rewrite Hp', Hi, Hh.
    split; [apply Ha|done].
  - intros Hq. rewrite Hn in Hq. destruct (Hf q Hq) as [Hx' Hu].
    assert (q ≠ p) as Hne by congruence. rewrite Ho by done. split; [done|].
    by eapply untouched_same; [apply Hs|].
Qed.

Lemma items_own p (l : list (RpcPtr * SendItem)) its :
  items p (l ++ (pair p <$> its)) = items p l ++ its.
Proof.
  unfold items. rewrite omap_app. f_equal. induction its as [|it its IH]; [done|]. simpl.
  assert (only p (p, it) = Some it) as -> by (unfold only; by rewrite decide_True). by f_equal.
Qed.

Lemma kfa_call p cb body :
  virtual_call cb body → preserves keeps_faithful (call_handler p cb body).
Proof.
  intros Hv w. apply wlp_intro. intros [] w' Hrun Hw.
  unfold call_handler, deref, log_callback, modify, get, store, mbind, M_bind in Hrun.
  destruct (heap_ w !! p) as [[n x]|] eqn:Hp; [|done].
  destruct (handler_ x) as [h|] eqn:Hh; [|done]. simpl in Hrun.
  destruct (body _ h (context_ w)) as [[h' c'] acts] eqn:Hbody.
  simpl in Hrun. rewrite Hp in Hrun. simpl in Hrun. apply run_actions_acted in Hrun as A.
  destruct (ac_object _ _ _ _ _ A n (set_handler (λ _, Some h') x)) as (x' & Hx' & Hi & Hh');
    [apply lookup_insert_eq|].
  pose proof (ac_callbacks _ _ _ _ _ A) as Hc. pose proof (ac_enqueued _ _ _ _ _ A) as He.
  pose proof (ac_kept _ _ _ _ _ A) as Hk. pose proof (ac_written _ _ _ _ _ A) as Hl.
  simpl in Hc, He, Hk, Hl.
  refine (faithful_called w w' p n n x x' cb _ h' Hw Hp Hx' Hi Hh' _ _ Hc He Hl Hk _ _).
  - intros q Hq. rewrite (ac_other _ _ _ _ _ A q Hq). simpl. by rewrite lookup_insert_ne.
  - apply (ac_next _ _ _ _ _ A).
  - pose proof (ac_given _ _ _ _ _ A). destruct (existsb gives_writer acts); set_solver.
  - pose proof (fa_account _ Hw p) as Ha. unfold account in Ha. rewrite Hp, Hh in Ha.
    destruct Ha as (_ & before & Hits & Hs & Hg & Heq). exists (before ++ acts).
    rewrite (callbacks_of_app w w' p [cb] p), decide_True by done.
    rewrite He, Hl, items_own, omap_app, existsb_app.
    split_and!; [by eapply replay_call|by apply shuffle_app_left| |].
    + intros Hr%(ac_given _ _ _ _ _ A). simpl in Hr. apply orb_true_iff.
      destruct (existsb gives_writer acts); [by right|left]. apply Hg. set_solver.
    + intros Hr. apply Heq. set_solver.
Qed.

Lemma kfa_connect p :
  preserves keeps_faithful (x ← deref p;
    match handler_ x with
    | Some _ => mret tt
    | None => h ← rpc_handler_factory p; store p (set_handler (λ _, Some h))
    end).
Proof.
  intros w. apply wlp_intro. intros [] w' Hrun Hw. unfold deref, mbind at 1, M_bind at 1 in Hrun.
  destruct (heap_ w !! p) as [[n x]|] eqn:Hp; [|done].
  destruct (handler_ x) as [h|] eqn:Hh; [by injection Hrun as <-|].
  unfold rpc_handler_factory, deref, log_callback, log_span, modify, get, mbind, M_bind in Hrun.
  rewrite Hp in Hrun. simpl in Hrun.
  destruct (handler_Initialize _ (context_ w)) as [[h c'] acts] eqn:Hbody. simpl in Hrun.
  destruct (for_each acts (run_action p) _) as [[] w2|] eqn:A; [|done].
  apply run_actions_acted in A. destruct (ac_object _ _ _ _ _ A n x Hp) as (x2 & Hp2 & Hi & _).
  unfold mret, M_ret, store in Hrun. rewrite Hp2 in Hrun. injection Hrun as <-.
  pose proof (ac_callbacks _ _ _ _ _ A) as Hc. pose proof (ac_enqueued _ _ _ _ _ A) as He.
  pose proof (ac_kept _ _ _ _ _ A) as Hk. pose proof (ac_written _ _ _ _ _ A) as Hl.
  simpl in Hc, He, Hk, Hl.
  refine (faithful_called w (upd_heap _ w2) p n n x (set_handler (λ _, Some h) x2) CbInitialize
    _ h Hw Hp _ Hi eq_refl _ _ Hc He Hl Hk _ _); simpl.
  - apply lookup_insert_eq.
  - intros q Hq. rewrite lookup_insert_ne, (ac_other _ _ _ _ _ A q) by done. done.
  - apply (ac_next _ _ _ _ _ A).
  - pose proof (ac_given _ _ _ _ _ A). destruct (existsb gives_writer acts); set_solver.
  - pose proof (fa_account _ Hw p) as Ha. unfold account in Ha. rewrite Hp, Hh in Ha.
    destruct Ha as (_ & Hcb & Hits & Hnw & Hlog). exists acts.
    change (callbacks_of (upd_heap _ w2) p) with (callbacks_of w2 p).
    rewrite (callbacks_of_app w w2 p [CbInitialize] p), decide_True, Hcb by done.
    simpl. rewrite He, Hl, items_own, Hits, Hlog. split_and!; [by eapply replay_Initialize| | |done].
    + by apply (shuffle_app_left []), shuffle_nil.
    + intros Hr%(ac_given _ _ _ _ _ A). simpl in Hr. destruct (existsb gives_writer acts); [done|].
      set_solver.
Qed.

#[global] Instance keeps_faithful_frame : ServiceFrame keeps_faithful (λ info, info ∈ infos).
Proof.
  assert (∀ p, preserves keeps_faithful (deref p)) as Hderef.
  { intros p w. unfold wlp, deref. repeat case_match; simplify_eq; [reflexivity|done]. }
  split; [apply _|done| | | | | | | | | |apply kfa_call|apply kfa_connect|].
  - intros p f Hf w. unfold wlp, store. destruct (heap_ w !! p) as [[n x]|] eqn:Hp; [|done].
    destruct (Hf x). by eapply faithful_update.
  - intros p w. unfold wlp, lock. destruct (heap_ w !! p) as [[n x]|] eqn:Hp; [|reflexivity].
    by eapply faithful_update.
  - intros p w. unfold wlp, release. destruct (heap_ w !! p) as [[[|[|n]] x]|] eqn:Hp; [..|done];
      [by eapply faithful_delete..|by eapply faithful_update].
  - intros q e w. unfold wlp, push_event. repeat case_match; simplify_eq; try done.
    by apply faithful_same.
  - intros q w. unfold wlp, pop_event. repeat case_match; simplify_eq; try done;
      by apply faithful_same.
  - intros w. unfold wlp, event_queue_selector_. destruct (sel_next _); [|done].
    by apply faithful_same.
  - intros f Hf. apply preserves_modify. intros w. destruct (Hf w) as (? & En & _ & Er & Ee & Ec & _ & El & _).
    apply faithful_same; [done|]. unfold record_of. by rewrite En, Er, Ee, Ec, El.
  - intros p w. apply wlp_intro. intros q w' Hrun Hw. unfold Clone, deref, mbind, M_bind in Hrun.
    destruct (heap_ w !! p) as [[n x]|] eqn:Hp; [|done].
    injection Hrun as <- <-. apply faithful_new; [|done].
    pose proof (fa_account _ Hw p) as Ha. unfold account in Ha. rewrite Hp in Ha. apply Ha.
  - intros i cq q info Hi w Hw. by apply faithful_new.
  - intros p s w. unfold wlp, deref, log_span, modify, mbind, M_bind.
    repeat case_match; simplify_eq; try done. by apply faithful_same.
Qed.

(** A writer of an RPC enqueues an item from another thread. *)
Lemma faithful_writes p it w :
  p ∈ weak_refs w → wlp (EnqueueMessage p it ;; log_written p it) (λ _, keeps_faithful w) w.
Proof.
  intros Hr. apply wlp_intro. intros [] w2 ([] & w1 & Hrun & [= <-])%bind_Ok.
  assert (is_Some (heap_ w !! p)) as [[n x] Hp].
  { unfold EnqueueMessage, store, mbind, M_bind in Hrun. by destruct (heap_ w !! p). }
  apply enqueue_acted in Hrun. intros [Ha Hf].
  pose proof (ac_callbacks _ _ _ _ _ Hrun) as Hc. pose proof (ac_enqueued _ _ _ _ _ Hrun) as He.
  pose proof (ac_written _ _ _ _ _ Hrun) as Hl.
  assert (weak_refs w1 = weak_refs w) as Hw.
  { apply set_eq. pose proof (ac_kept _ _ _ _ _ Hrun). pose proof (ac_given _ _ _ _ _ Hrun). set_solver. }
  set (w' := upd_written _ w1).
  assert (∀ q, q ≠ p → same_record w w' q) as Hs.
  { intros q Hq. unfold same_record, callbacks_of. simpl. rewrite Hc, He, Hw, Hl. simpl.
    rewrite !items_snoc, decide_False by done. by rewrite !app_nil_r. }
  assert (∀ info h, replayed w p info h → replayed w' p info h) as Hrep.
  { intros info h (acts & Hits & Hsub & Hg & _). exists acts. unfold callbacks_of in *. simpl.
    rewrite Hc, He, Hw, Hl. simpl. rewrite !items_snoc, decide_True by done.
    split_and!; [done|by apply shuffle_right|done..]. }
  assert (¬ untouched w p) as Hu by (by intros (_ & _ & ? & _)).
  split; intros q.
  - destruct (decide (q = p)) as [->|Hq];
      [|eapply account_same; [by apply (ac_other _ _ _ _ _ Hrun)|by apply Hs|done]].
    specialize (Ha p). unfold account in *. rewrite Hp in Ha. simpl.
    destruct (ac_object _ _ _ _ _ Hrun n x Hp) as (x' & -> & -> & ->).
    destruct Ha as [Hi Hx]. split; [done|]. destruct (handler_ x); [by apply Hrep|done].
  - simpl. intros Hq. rewrite (ac_next _ _ _ _ _ Hrun) in Hq. destruct (Hf q Hq) as [Hx Huq].
    assert (q ≠ p) as Hne by (by intros ->). rewrite (ac_other _ _ _ _ _ Hrun) by done.
    split; [done|]. by eapply untouched_same; [apply Hs|].
Qed.

(** ** On every run *)

(** Writer calls in progress are on RPCs whose handler gave out a writer. *)
Definition writers_known (w : World) : Prop := ∀ t, t ∈ threads w → wt_rpc t ∈ weak_refs w.

Lemma writers_known_kept w w' : keeps_threads w w' → writers_known w → writers_known w'.
Proof. intros (Et & Hr & _) Hk t. rewrite Et. intros Ht%Hk. set_solver. Qed.

Lemma kt_StartServing ms cqs : preserves keeps_threads (StartServing ms cqs).
Proof.
  unfold StartServing. generalize 0 as i. induction ms as [|info ms IH]; intros i; simpl.
  { apply preserves_ret. apply _. }
  apply preserves_bind; [apply _| |intros _; by apply IH].
  apply preserves_for_each; [apply _|]. intros cq.
  apply preserves_bind; [apply _|apply kt_selector|]. intros q.
  apply preserves_bind; [apply _|by intros w|]. intros p. apply kt_register.
Qed.

Lemma Writer_step_threads i w w' :
  Writer_step i w = Ok tt w' →
  weak_refs w ⊆ weak_refs w' ∧ ∀ t, t ∈ threads w' → ∃ t0, t0 ∈ threads w ∧ wt_rpc t = wt_rpc t0.
Proof.
  unfold Writer_step. intros (w0 & w1 & [= <- <-] & Hrun)%bind_Ok.
  destruct (threads w !! i) as [t|] eqn:Ht; [|injection Hrun as <-; eauto].
  assert (∀ {A} (m : M World A) pc, preserves keeps_threads m → (m ;; set_pc i t pc) w = Ok tt w' →
    weak_refs w ⊆ weak_refs w' ∧ ∀ u, u ∈ threads w' → ∃ t0, t0 ∈ threads w ∧ wt_rpc u = wt_rpc t0) as Hpc.
  { intros A m pc Hm (a & w2 & Hw2 & [= <-])%bind_Ok.
    destruct (preserves_Ok _ _ _ _ _ Hm Hw2) as (Et & Hr & _). simpl. rewrite Et. split; [done|].
    intros u [j [(<- & <- & _)|[_ Hu]]%list_lookup_insert_Some]%list_elem_of_lookup;
      eauto using list_elem_of_lookup_2. }
  destruct (wt_pc t).
  - apply bind_assoc_Ok in Hrun. eapply Hpc; [|exact Hrun].
    apply preserves_bind; [apply _|apply kt_EnqueueMessage|by intros _ ?].
  - by eapply Hpc; [apply kt_GetWeakPtr|].
  - by eapply Hpc; [apply kt_push_write_needed|].
  - apply bind_Ok in Hrun as (x & w1 & Hd & Hrun).
    assert (w1 = w) as -> by (unfold deref in Hd; repeat case_match; by simplify_eq).
    eapply Hpc; [|exact Hrun]. destruct (handler_ x); [|apply preserves_fail].
    destruct (wt_op t); [by apply preserves_ret; apply _..|by intros ?].
  - apply bind_Ok in Hrun as ([] & w1 & Hr & [= <-]).
    destruct (preserves_Ok _ _ _ _ _ (kt_release _) Hr) as (Et & Hk & _). simpl. rewrite Et.
    split; [done|]. intros u Hu%list_elem_of_delete_inv. eauto.
Qed.

Lemma writers_known_exec w l w' :
  env_ok w l → exec l w = Ok tt w' → writers_known w → writers_known w'.
Proof.
  destruct l as [r e b payload|q|r op|i| | |c].
  - intros _ Hx. apply writers_known_kept. exact (preserves_Ok _ _ _ _ _ (kt_exec_completion _ _ _ _) Hx).
  - intros _ Hx. apply writers_known_kept. exact (preserves_Ok _ _ _ _ _ (kt_exec_event _) Hx).
  - simpl. unfold Writer_begin, lock, mbind, M_bind, modify, mret, M_ret. intros Hr Hx Hk.
    destruct (heap_ w !! r) as [[n x]|]; [|by injection Hx as <-]. injection Hx as <-.
    intros t [Ht| ->%list_elem_of_singleton]%elem_of_app; [by apply Hk|done].
  - simpl. intros _ [Hr Ht]%Writer_step_threads Hk u (t0 & Ht0%Hk & ->)%Ht. set_solver.
  - intros _ [= <-]. done.
  - intros _ (q & w1 & Hs & [= <-])%bind_Ok. apply writers_known_kept.
    exact (preserves_Ok _ _ _ _ _ kt_selector Hs).
  - intros _ [= <-]. done.
Qed.

Lemma faithful_init n s c : faithful (world_init n s c).
Proof.
  assert (∀ p, untouched (world_init n s c) p) as Hu
    by (intros p; split_and!; [done..|set_solver|done]).
  split; intros p; [|done]. unfold account. simpl. rewrite lookup_empty. by left.
Qed.

Lemma run_faithful cqs n s c w : run infos cqs n s c w → faithful w ∧ writers_known w.
Proof.
  induction 1 as [w Hstart|w l w' _ [Hf Hk] [He Hx]].
  - split.
    + refine (preserves_Ok keeps_faithful _ _ _ _ _ Hstart (faithful_init n s c)).
      apply frame_StartServing. by apply Forall_forall.
    + eapply writers_known_kept; [exact (preserves_Ok _ _ _ _ _ (kt_StartServing _ _) Hstart)|].
      by intros t Ht%elem_of_nil.
  - split; [|by eapply writers_known_exec]. revert Hf. change (keeps_faithful w w').
    assert ((∃ c', l = LOtherContext c') ∨ ∀ c', l ≠ LOtherContext c') as [[c' ->]|Hl]
      by (destruct l; eauto; by right).
    { injection Hx as <-. by apply faithful_same. }
    refine (wlp_ok (exec l) (λ _, keeps_faithful w) w tt w' _ Hx). apply frame_step.
    + done.
    + intros i t it -> Ht. apply faithful_writes, Hk. by eapply list_elem_of_lookup_2.
Qed.

End accounts.

(** C10: handlers are run faithfully.  On every run of a service, whatever its
    interleaving: the state of the handler of a live RPC is the one a handler
    of the class registered for its method reaches on the callbacks made to
    it; and the items handed to gRPC followed by those in the send queue are
    an interleaving of the items the handler asked to send and those its
    [Writer]s wrote from other threads, each in its order, with nothing lost
    or added.  Nothing is written for an RPC whose handler gave out no writer.
    An RPC without a handler was neither called nor answered, and what was
    sent for an RPC that is gone is a prefix of such an interleaving. *)
Theorem handlers_faithful infos cqs n s c w p :
  run infos cqs n s c w →
  (p ∉ weak_refs w → items p (written w) = []) ∧
  match heap_ w !! p with
  | Some (_, x) =>
      rpc_handler_info_ x ∈ infos ∧
      match handler_ x with
      | Some h => ∃ acts,
          replay (rpc_handler_class (rpc_handler_info_ x)) (callbacks_of w p) h acts ∧
          shuffle (omap action_item acts) (items p (written w))
            (sent p (grpc_calls w) ++ send_queue_ x) ∧
          (p ∈ weak_refs w → existsb gives_writer acts = true)
      | None => callbacks_of w p = [] ∧ sent p (grpc_calls w) = [] ∧ send_queue_ x = []
      end
  | None =>
      callbacks_of w p = [] ∧ sent p (grpc_calls w) = [] ∨
      ∃ info h acts all, info ∈ infos ∧
        replay (rpc_handler_class info) (callbacks_of w p) h acts ∧
        shuffle (omap action_item acts) (items p (written w)) all ∧ sent p (grpc_calls w) `prefix_of` all
  end.
Proof.
  intros Hrun. pose proof (run_flow _ _ _ _ _ _ Hrun) as F.
  destruct (run_faithful _ _ _ _ _ _ Hrun) as [[Ha _] _].
  specialize (Ha p). unfold account in Ha. pose proof (f_prefix _ _ F p) as Hpre.
  destruct (heap_ w !! p) as [[k x]|] eqn:Hp.
  - destruct Ha as [Hi Hx]. pose proof (flow_live _ _ _ _ _ F Hp) as Hl.
    destruct (handler_ x) as [h|].
    + destruct Hx as (acts & Hr & Hs & Hg & He). split_and!; [done..|]. exists acts. by rewrite <- Hl.
    + destruct Hx as (Hc & Hits & _ & He). rewrite Hits in Hl. symmetry in Hl.
      by apply app_nil in Hl as [? ?].
  - destruct Ha as [(Hc & Hits & _ & He)|(info & h & Hi & acts & Hr & Hs & _ & He)].
    + split; [done|left]. split; [done|]. rewrite Hits in Hpre. by apply prefix_nil_inv.
    + split; [done|right]. exists info, h, acts, (items p (enqueued w)). done.
Qed.

End replay.
