(* ===== verification/ServiceLeak.v ===== *)
(** * Finished RPCs are removed

    [Service::RemoveIfNotPending] is the only way an RPC that was connected
    leaves [ActiveRpcs].  The invariant of this file says that it is called
    often enough: an RPC stays registered only while an event of it is
    outstanding. *)

From Stdlib Require Import ZArith Lia.
From stdpp Require Import base option list strings gmap.
From S2P Require Import Prelude Interfaces BlockingQueue Rpc Service ServiceInv ServiceLemmas.
From S2P Require Import ServiceHandlers ServiceSafety ServiceSteps ServiceFlow ServiceProtocol.
From S2P Require Import ServiceOrder.
Import Event EventDeleter.

Set Default Proof Using "Type".

Section leak.
Context `{GrpcStatus, Application, EventQueueSelector} (N : nat) `{!SelectorOk N}.

Definition any_pending (x : Rpc) : bool :=
  is_pending x DONE || is_pending x READ || is_pending x WRITE || is_pending x FINISH.

Definition awaits (w : World) (r : RpcPtr) : Prop :=
  ∃ n x, heap_ w !! r = Some (n, x) ∧ any_pending x = true.

Definition lively (w : World) : Prop := ∀ r, r ∈ rpcs_ w → awaits w r.

(** ** Steps that change no flag *)

Definition still (this : RpcPtr) (w w' : World) : Prop :=
  rpcs_ w' = rpcs_ w ∧ ∀ n' x', heap_ w' !! this = Some (n', x') →
    ∃ n x, heap_ w !! this = Some (n, x) ∧ any_pending x' = any_pending x.

#[global] Instance still_preorder this : PreOrder (still this).
Proof.
  split; [split; by eauto|]. intros w1 w2 w3 [R1 F1] [R2 F2].
  split; [congruence|]. intros n3 x3 H3. destruct (F2 _ _ H3) as (n2 & x2 & H2 & E2).
  destruct (F1 _ _ H2) as (n1 & x1 & ? & ?). exists n1, x1. split; [done|congruence].
Qed.

Lemma still_insert this n n' x x' w :
  heap_ w !! this = Some (n, x) → any_pending x' = any_pending x →
  still this w (upd_heap (insert this (n', x')) w).
Proof.
  intros Hx Hf. split; simpl; [done|].
  intros m y. rewrite lookup_insert_eq. intros [= <- <-]. eauto.
Qed.

Lemma still_same this w w' : heap_ w' = heap_ w → rpcs_ w' = rpcs_ w → still this w w'.
Proof. intros E1 E2. split; rewrite ?E1; eauto. Qed.

Lemma st_deref this p : preserves (still this) (deref p).
Proof. intros w. unfold wlp, deref. repeat case_match; simplify_eq; try done; reflexivity. Qed.
Lemma st_store this f :
  (∀ x, any_pending (f x) = any_pending x) → preserves (still this) (store this f).
Proof.
  intros Hf w. unfold wlp, store. destruct (heap_ w !! this) as [[n x]|] eqn:Hx; [|done].
  by eapply still_insert.
Qed.
Lemma st_lock this : preserves (still this) (lock this).
Proof.
  intros w. unfold wlp, lock. destruct (heap_ w !! this) as [[n x]|] eqn:Hx; [|reflexivity].
  by eapply still_insert.
Qed.
Lemma st_release this : preserves (still this) (release this).
Proof.
  intros w. unfold wlp, release.
  assert (∀ f, still this w (upd_heap (delete this) (upd_spans f w))) as Hd.
  { intros f. split; simpl; [done|]. intros n x. by rewrite lookup_delete_eq. }
  destruct (heap_ w !! this) as [[[|[|n]] x]|] eqn:Hx; try done. by eapply still_insert.
Qed.
Lemma st_push_event this q p : preserves (still this) (push_event q p).
Proof. intros w. unfold wlp, push_event. repeat case_match; simplify_eq; try done; by apply still_same. Qed.

#[local] Hint Resolve st_deref st_lock st_release st_push_event : preserves.
#[local] Hint Extern 1 (preserves (still _) (modify _)) =>
  apply preserves_modify; intros ?; apply still_same; reflexivity : preserves.
#[local] Hint Extern 1 (preserves (still _) (store _ _)) =>
  apply st_store; intros ?; first [reflexivity | match goal with e : Event.t |- _ => by destruct e end]
  : preserves.

Lemma st_exec_completion this e b payload :
  preserves (still this) (exec (LCompletion this e b payload)).
Proof.
  unfold exec, grpc_completes, RunCompletionQueue_body, PushToEventQueue, GetRpcEvent.
  apply preserves_bind; [apply _| |intros _; preserves_tac].
  apply preserves_bind; [apply _| |intros _; preserves_tac].
  apply preserves_modify. intros w. apply still_same; by destruct (_ && _).
Qed.

Lemma st_exec_begin this op : preserves (still this) (exec (LWriterBegin this op)).
Proof. unfold exec, Writer_begin. preserves_tac. Qed.

Lemma st_exec_step i t w w' :
  threads w !! i = Some t → exec (LWriterStep i) w = Ok tt w' → still (wt_rpc t) w w'.
Proof.
  intros Hi. eapply writer_step_frame; eauto with preserves; [apply _| | |].
  - intros it. unfold EnqueueMessage. preserves_tac.
  - unfold ActiveRpcs_GetWeakPtr. preserves_tac.
  - unfold push_write_needed. preserves_tac.
Qed.

(** ** Re-establishing the invariant *)

Lemma lively_step this w w' :
  inv N w → inv N w' → lively w → (∀ r, r ≠ this → heap_ w' !! r = heap_ w !! r) →
  (∀ n x, this ∈ rpcs_ w' → heap_ w' !! this = Some (n, x) → any_pending x = true) → lively w'.
Proof.
  intros Hinv (C & _) L Hoth Hthis r Hr. destruct (c_active _ _ _ C _ Hr) as [[n x] Hx].
  destruct (decide (r = this)) as [->|Hne].
  - exists n, x. split; [done|by eapply Hthis].
  - rewrite Hoth in Hx by done. unfold awaits. rewrite Hoth by done. apply L. by eapply inv_active.
Qed.

Lemma lively_still this w w' :
  inv N w → inv N w' → lively w → touches this w w' → still this w w' → lively w'.
Proof.
  intros Hinv Hinv' L Ht [Hr Hs]. apply (lively_step this w w' Hinv Hinv' L).
  - intros r Hne. by apply (touches_other this).
  - intros n x Hin Hx. destruct (Hs _ _ Hx) as (n0 & x0 & Hx0 & ->). rewrite Hr in Hin.
    destruct (L _ Hin) as (n1 & x1 & Hx1 & ?). by simplify_eq.
Qed.

(** The object of [this] went from [w] to [w2], then was handled. *)
Lemma lively_handled this m y w w2 w' :
  inv N w → inv N w' → lively w → heap_ w2 = <[this := (m, y)]> (heap_ w) →
  touches this w2 w' →
  (∀ n x, this ∈ rpcs_ w' → heap_ w' !! this = Some (n, x) → any_pending x = true) → lively w'.
Proof.
  intros Hinv Hinv' L Eh Ht Hp. apply (lively_step this w w' Hinv Hinv' L); [|done].
  intros r Hne. by rewrite (touches_other this w2 w' r Ht Hne), Eh, lookup_insert_ne.
Qed.

Definition removed_or_pending (this : RpcPtr) (w' : World) : Prop :=
  ∀ n x, this ∈ rpcs_ w' → heap_ w' !! this = Some (n, x) → any_pending x = true.

Lemma wlp_RemoveIfNotPending this w :
  wlp (RemoveIfNotPending this) (λ _, removed_or_pending this) w.
Proof.
  destruct (heap_ w !! this) as [[n x]|] eqn:Hx.
  - apply wlp_bind. unfold IsAnyEventPending.
    repeat (apply wlp_bind; eapply wlp_IsRpcEventPending; [done|]). apply wlp_ret.
    fold (any_pending x). destruct (any_pending x) eqn:Ha; simpl.
    + apply wlp_ret. intros m y _ Hy. congruence.
    + apply wlp_bind, wlp_bind. unfold wlp at 1, get. destruct (decide _) as [Hin|Hnin].
      * apply wlp_bind, wlp_modify, wlp_bind, wlp_intro. intros [] w1 Hr. apply wlp_ret, wlp_ret.
        intros m y Hin'. apply (preserves_Ok (still this)) in Hr as [E _]; [|auto with preserves].
        rewrite E in Hin'. simpl in Hin'. set_solver.
      * apply wlp_ret, wlp_ret. by intros m y Hin'.
  - unfold wlp, RemoveIfNotPending, IsAnyEventPending, IsRpcEventPending, GetRpcEventState,
      GetRpcEvent, deref, mbind, M_bind. by rewrite Hx.
Qed.

Lemma says_next_read this n x w :
  heap_ w !! this = Some (n, x) → unary_request (rpc_type (rpc_handler_info_ x)) = false →
  wlp (RequestStreamingReadIfNeeded this) (λ _, says this [] (Some true) w) w.
Proof.
  intros Hx Hu. apply wlp_bind. eapply wlp_deref; [done|].
  destruct (rpc_type _); try done; apply says_read.
Qed.

Lemma wlp_HandleRead_pending this b n x w :
  heap_ w !! this = Some (n, x) → unary_request (rpc_type (rpc_handler_info_ x)) = false →
  wlp (HandleRead this b) (λ _, removed_or_pending this) w.
Proof.
  intros Hx Hu. destruct b; simpl.
  - apply wlp_bind, wlp_intro. intros [] w1 Hreq.
    pose proof (preserves_Ok _ _ _ _ _ (tc_OnRequest this) Hreq) as Ht.
    destruct (heap_ w1 !! this) as [[n1 x1]|] eqn:Hx1.
    + destruct (t_fixed _ _ _ Ht _ _ Hx1) as (n0 & x0 & E & Hf). rewrite Hx in E.
      injection E as <- <-. unfold fixed in Hf. injection Hf as _ _ Hi _.
      eapply wlp_mono; [eapply (says_next_read this n1 x1 w1); [done|by rewrite Hi]|].
      intros [] w2 [_ Hs] m y _ Hy. destruct (Hs _ _ Hy) as (? & ? & _ & Hfl).
      apply (f_equal fst) in Hfl. simpl in Hfl. unfold any_pending. rewrite Hfl.
      by rewrite orb_true_r.
    + unfold wlp, RequestStreamingReadIfNeeded, deref, mbind, M_bind. by rewrite Hx1.
  - apply wlp_bind, wlp_intro. intros [] w1 _. apply wlp_RemoveIfNotPending.
Qed.

Lemma wlp_HandleEvent_pending this e b n x w :
  heap_ w !! this = Some (n, x) → e ≠ NEW_CONNECTION →
  (e = READ → unary_request (rpc_type (rpc_handler_info_ x)) = false) →
  wlp (HandleEvent e this b) (λ _, removed_or_pending this) w.
Proof.
  intros Hx Hne Hu. destruct e; simpl; [done|by eapply wlp_HandleRead_pending; eauto|..|];
    [apply wlp_bind, wlp_intro; intros [] w1 _..|]; apply wlp_RemoveIfNotPending.
Qed.

(** ** Steps *)

(** A connection that comes back after [StopServing]: the object is dropped. *)
Lemma connection_refused r w w' :
  shutting_down_ w = true → HandleNewConnection r false w = Ok tt w' →
  touches r w w' ∧ r ∉ rpcs_ w'.
Proof.
  intros Hsd Hrun. unfold HandleNewConnection in Hrun.
  apply bind_Ok in Hrun as (w0 & w1 & [= <- <-] & Hrun).
  rewrite Hsd in Hrun. apply bind_Ok in Hrun as (b & w1 & Hrun & [= <-]).
  split; [exact (preserves_Ok _ _ _ _ _ (tc_Remove r) Hrun)|]. intros Hin.
  unfold ActiveRpcs_Remove in Hrun. apply bind_Ok in Hrun as (w0 & w3 & [= <- <-] & Hrun).
  destruct (decide _) as [?|Hn]; [|by injection Hrun as _ <-].
  apply bind_Ok in Hrun as ([] & w3 & [= <-] & Hrun).
  apply bind_Ok in Hrun as ([] & w4 & Hrel & [= _ <-]).
  apply (preserves_Ok (still r)) in Hrel as [E _]; [|auto with preserves].
  rewrite E in Hin. simpl in Hin. set_solver.
Qed.

Lemma lively_connection r n x w w2 w' :
  inv N w → inv N w' → lively w → heap_ w !! r = Some (n, x) →
  is_pending x NEW_CONNECTION = true → quiet w w2 →
  heap_ w2 = <[r := (n, cleared NEW_CONNECTION x)]> (heap_ w) →
  handling N (λ _, 0) r connecting w2 →
  HandleNewConnection r (negb (shutting_down_ w)) w2 = Ok tt w' → lively w'.
Proof.
  intros Hinv Hinv' L Hx Hp (_ & En & Ed) Eh Hh Hrun.
  assert (heap_ w2 !! r = Some (n, cleared NEW_CONNECTION x)) as Hx2
    by (rewrite Eh; apply lookup_insert_eq).
  destruct (shutting_down_ w) eqn:Hsd.
  - destruct (connection_refused r w2 w' ltac:(congruence) Hrun) as [Ht Hnin].
    by apply (lively_handled r n (cleared NEW_CONNECTION x) w w2 w').
  - destruct (connection_accepted N r n _ w2 w' Hh Hx2 Ed Hrun)
      as (w1 & y & Hcon & Ht & _ & En' & _ & Eh' & Hy & _).
    pose proof (h_obj _ _ _ _ _ Hh) as (n3 & x3 & Hx3 & _ & Hhd & _).
    rewrite Hx2 in Hx3. injection Hx3 as <- <-.
    assert (r < next_ptr w) as Hlt by (by eapply heap_lt).
    intros r' Hr'. destruct Hinv' as (C' & Hph' & _).
    destruct (c_active _ _ _ C' _ Hr') as [[m z] Hz]. exists m, z. split; [done|].
    specialize (Hph' _ _ _ Hz). unfold phase in Hph'.
    destruct (is_pending z NEW_CONNECTION) eqn:Hnz.
    { destruct Hph' as (_ & _ & _ & _ & Hd & _). unfold any_pending. by rewrite Hd. }
    rewrite Eh' in Hz. apply lookup_insert_Some in Hz as [[_ [= _ <-]]|[_ Hz]]; [congruence|].
    destruct (decide (r' = r)) as [->|Hne].
    + assert (is_pending x DONE = true) as Hd.
      { destruct Hinv as (_ & Hph & _). specialize (Hph _ _ _ Hx). unfold phase in Hph.
        rewrite Hp in Hph. tauto. }
      pose proof (wlp_ok _ _ _ _ _ (says_OnConnection r n _ w2 Hx2 Hhd) Hcon) as Hs.
      assert (flags z = (is_pending z READ, true)) as Hfl.
      { destruct Hs as [[_ Hs]|[? [_ Hs]]]; destruct (Hs _ _ Hz) as (n4 & x4 & Hx4 & Hfl);
          rewrite Hx2 in Hx4; injection Hx4 as <- <-; injection Hfl as _ Hfl;
          unfold flags; rewrite Hfl; f_equal; exact Hd. }
      injection Hfl as Hfl. unfold any_pending. by rewrite Hfl.
    + rewrite (touches_other r w2 w1 r' Ht Hne), Eh, lookup_insert_ne in Hz by done.
      destruct (L r') as (m' & z' & Hz' & ?); [|congruence].
      by eapply (inv_active N w).
Qed.

Lemma lively_exec w l w' :
  inv N w → inv N w' → flow None w → lively w → step w l w' → conn_ok w l → lively w'.
Proof.
  intros Hinv Hinv' F L Hstep Hok. pose proof Hstep as [Henv Hx].
  pose proof Hinv as (_ & _ & Hthr).
  destruct (shared_label l) eqn:Hsh.
  { destruct (shared_step w l w' Hx Hsh) as (Eh & Er & _). unfold lively, awaits.
    rewrite Eh, Er. exact L. }
  destruct l as [r e b payload|q|r op|i| | |c]; try done.
  - eapply (lively_still r w); try done; [by eapply preserves_Ok; [apply tc_exec_completion|]|].
    by eapply preserves_Ok; [apply st_exec_completion|].
  - destruct (exec_event_step N w q w' Hinv Hok Hx)
      as [_ Eh|r n x w2 Hr Hp _ Hq Eh Hh Hrun|r e b n x w2 Hr Hp Hne Hc Hq Eh Hrun
         |r n x w1 w2 Hr Hc Hq Eh Hrun Hrel].
    + intros r Hr. destruct Hinv' as (C' & _). destruct (c_active _ _ _ C' _ Hr) as [[n x] Hx'].
      unfold awaits. rewrite Eh in *. apply L. by eapply (inv_active N w).
    + by eapply (lively_connection r n x w w2).
    + pose proof (preserves_Ok _ _ _ _ _ (tc_HandleEvent r e b Hne) Hrun) as Ht.
      apply (lively_handled r n (cleared e x) w w2 w'); try done.
      refine (wlp_ok _ _ _ _ _ (wlp_HandleEvent_pending r e b n (cleared e x) w2 _ Hne _) Hrun).
      * rewrite Eh. apply lookup_insert_eq.
      * intros ->. by apply (f_read _ _ F _ _ _ Hr).
    + pose proof (preserves_Ok _ _ _ _ _ (tc_HandleEvent r WRITE true ltac:(done)) Hrun) as Ht.
      pose proof (preserves_Ok _ _ _ _ _ (tc_release r) Hrel) as Ht'.
      apply (lively_handled r (S n) x w w1 w'); try done; [by transitivity w2|].
      assert (removed_or_pending r w2) as Hrp.
      { apply bind_Ok in Hrun as ([] & w3 & _ & Hrun).
        exact (wlp_ok _ _ _ _ _ (wlp_RemoveIfNotPending r w3) Hrun). }
      destruct (preserves_Ok _ _ _ _ _ (st_release r) Hrel) as [Er Hs].
      intros m y Hin Hy. destruct (Hs _ _ Hy) as (m' & y' & Hy' & ->).
      rewrite Er in Hin. by eapply Hrp.
  - eapply (lively_still r w); try done; [by eapply preserves_Ok; [apply tc_exec_begin|]|].
    by eapply preserves_Ok; [apply st_exec_begin|].
  - simpl in Henv. apply lookup_lt_is_Some in Henv as [t Ht].
    eapply (lively_still (wt_rpc t) w); try done; [by eapply tc_exec_step|by eapply st_exec_step].
Qed.

Lemma calm_lively infos cqs s c w :
  sel_inv s → calm_run N infos cqs s c w → lively w.
Proof.
  intros Hs. induction 1 as [w Hstart|w l w' Hrun IH Hstep Hok Hrace].
  - destruct (calm_start_waiting N _ _ _ _ _ Hs Hstart) as (Hw & _ & _).
    pose proof (calm_run_inv N _ _ _ _ _ Hs (calm_start N _ _ _ _ _ Hstart)) as (C & Hph & _).
    intros r Hr. destruct (c_active _ _ _ C _ Hr) as [[n x] Hx]. exists n, x. split; [done|].
    specialize (Hph _ _ _ Hx). unfold phase in Hph. rewrite (Hw _ _ _ Hx) in Hph.
    destruct Hph as (_ & _ & _ & _ & Hd & _). unfold any_pending. by rewrite Hd.
  - eapply (lively_exec w l); try done; [by eapply calm_run_inv| |].
    + by eapply calm_run_inv; [|eapply calm_step].
    + by eapply run_flow, calm_run_run.
Qed.

End leak.
