(* ===== verification/ThreadInv.v ===== *)
(** * The invariant of a service between the steps of its threads

    While event queue threads are in the middle of their turns, the
    invariant of [ServiceInv] holds of the objects nobody is handling, and
    each thread knows something about the object it is handling.  What it
    knows is its [Loc]; the steps of other threads leave it true. *)

From Stdlib Require Import ZArith Lia.
From stdpp Require Import base option list strings gmap.
From S2P Require Import Prelude Resumption Interfaces BlockingQueue Rpc Service ServiceThreads.
From S2P Require Import ServiceInv ServiceLemmas ServiceHandlers ServiceSafety ServiceSteps.
From S2P Require Import ServiceFlow ServiceProtocol ServiceLeak.
Import Event EventDeleter.

Set Default Proof Using "Type".

Section thread_inv.
Context `{GrpcStatus, Application, EventQueueSelector} (N : nat) `{!SelectorOk N}.

(** ** What a thread knows *)

(** The part of an object that only the thread handling it changes. *)
Definition outline (x : Rpc) : list bool * option HandlerState * RpcHandlerInfo * QueuePtr :=
  (is_pending x <$> [NEW_CONNECTION; READ; WRITE; FINISH; DONE], handler_ x,
   rpc_handler_info_ x, event_queue_ x).

Definition respects (P : Rpc → Prop) : Prop := ∀ x y, outline x = outline y → P x → P y.

(** How an object changes while its event is handled. *)
Record grows (x x' : Rpc) : Prop := {
  gr_queue : event_queue_ x' = event_queue_ x;
  gr_info : rpc_handler_info_ x' = rpc_handler_info_ x;
  gr_flags : ∀ e, is_pending x e = true → is_pending x' e = true;
  gr_reads : reads x → reads x'
}.

Definition lasting (F : Rpc → Prop) : Prop := ∀ x x', grows x x' → F x → F x'.

(** - [Free]: nothing.
    - [Busy r held F P]: the thread handles an event of the active object
      [r], of which [F] holds until the end and [P] at the moment; [held]
      says that it has a shared pointer to it.
    - [Accepting r ok]: it took the event of a connection to [r].
    - [WeakRef r]: it has a weak pointer from an internal event.
    - [Setup r notified]: it has added the new object [r] and is about to ask
      gRPC for a connection.
    - [Hold r]: it has a shared pointer it is about to drop. *)
Inductive Loc :=
  | Free
  | Busy (r : RpcPtr) (held : bool) (F P : Rpc → Prop)
  | Accepting (r : RpcPtr) (ok : bool)
  | WeakRef (r : RpcPtr)
  | Setup (r : RpcPtr) (notified : bool)
  | Hold (r : RpcPtr).

Definition owner (l : Loc) : option RpcPtr :=
  match l with
  | Busy r _ _ _ | Accepting r _ | Setup r _ => Some r
  | Free | WeakRef _ | Hold _ => None
  end.

Definition held_by (l : Loc) : option RpcPtr :=
  match l with
  | Busy r true _ _ | Setup r _ | Hold r => Some r
  | _ => None
  end.

Definition concerns (l : Loc) : option RpcPtr :=
  match l with
  | Free => None
  | Busy r _ _ _ | Accepting r _ | WeakRef r | Setup r _ | Hold r => Some r
  end.

Definition loc_ok (q : QueuePtr) (l : Loc) (w : World) : Prop :=
  match l with
  | Free => True
  | Busy r _ F P =>
      lasting F ∧ respects P ∧ r ∈ rpcs_ w ∧ ∃ n x, heap_ w !! r = Some (n, x) ∧
        event_queue_ x = q ∧ is_pending x NEW_CONNECTION = false ∧ F x ∧ P x
  | Accepting r ok =>
      r ∈ rpcs_ w ∧ ¬ mentioned w r ∧ (r ∈ started w → ok = true) ∧
      ∃ n x, heap_ w !! r = Some (n, x) ∧ event_queue_ x = q ∧ connecting x ∧
        is_pending x WRITE = false ∧ is_pending x FINISH = false ∧ is_pending x DONE = true
  | WeakRef r =>
      r < next_ptr w ∧
      ∀ n x, heap_ w !! r = Some (n, x) → event_queue_ x = q ∧ connected x
  | Setup r notified =>
      r ∈ rpcs_ w ∧ ¬ mentioned w r ∧ r ∉ started w ∧
      ∃ n x, heap_ w !! r = Some (n, x) ∧ handler_ x = None ∧
        ∀ e, is_pending x e = notified && bool_decide (e = DONE)
  | Hold r => r ∈ rpcs_ w
  end.

Definition owned (locs : list Loc) : gset RpcPtr := list_to_set (omap owner locs).

Definition holds (l : Loc) (r : RpcPtr) : nat := if decide (held_by l = Some r) then 1 else 0.

(** The shared pointers of the event queue threads to an object. *)
Definition held (locs : list Loc) (r : RpcPtr) : nat := sum_list_with (λ l, holds l r) locs.

(** An internal event is in the queue of its object. *)
Definition weak_home (w : World) : Prop :=
  ∀ q bq r n x, event_queues w !! q = Some bq → r ∈ weaks bq → heap_ w !! r = Some (n, x) →
    event_queue_ x = q.

Record ginv (locs : list Loc) (w : World) : Prop := {
  g_core : core N (held locs) w;
  g_quiet : ∀ r n x, heap_ w !! r = Some (n, x) → r ∉ owned locs →
    phase w r x ∧ any_pending x = true;
  g_reads : ∀ r n x, heap_ w !! r = Some (n, x) → reads x;
  g_threads : ∀ t, t ∈ threads w → wt_rpc t ∈ rpcs_ w ∧ wt_rpc t ∈ weak_refs w;
  g_home : weak_home w;
  g_locs : ∀ q l, locs !! q = Some l → loc_ok q l w;
  g_excl : ∀ q q' l l' r, locs !! q = Some l → locs !! q' = Some l' → owner l = Some r →
    owner l' = Some r → q = q'
}.

(** ** Outlines *)

Lemma outline_eq x y :
  outline x = outline y →
  (∀ e, is_pending x e = is_pending y e) ∧ handler_ x = handler_ y ∧
  rpc_handler_info_ x = rpc_handler_info_ y ∧ event_queue_ x = event_queue_ y.
Proof. intros [= ? ? ? ? ? ? ? ?]. split_and!; try done. by intros []. Qed.

#[global] Instance grows_preorder : PreOrder grows.
Proof.
  split; [by intros x; split|]. intros x y z [Q1 I1 F1 R1] [Q2 I2 F2 R2].
  split; [congruence..|auto|auto].
Qed.

Lemma outline_grows x y : outline x = outline y → grows x y.
Proof.
  intros (Hp & Hh & Hi & Hq)%outline_eq. split; [congruence..| |].
  - intros e He. by rewrite <- Hp.
  - unfold reads. by rewrite <- Hp, <- Hi.
Qed.

Lemma lasting_respects F : lasting F → respects F.
Proof. intros HF x y E. by apply HF, outline_grows. Qed.

Lemma lasting_true : lasting (λ _, True).
Proof. done. Qed.

Lemma lasting_pending e : lasting (λ x, is_pending x e = true).
Proof. intros x x' G. apply (gr_flags _ _ G). Qed.

Lemma lasting_any_pending : lasting (λ x, any_pending x = true).
Proof.
  intros x x' G. unfold any_pending. rewrite !orb_true_iff.
  intros [[[?|?]|?]|?]; [left; left; left|left; left; right|left; right|right];
    by apply (gr_flags _ _ G).
Qed.

Lemma lasting_streaming :
  lasting (λ x, unary_request (rpc_type (rpc_handler_info_ x)) = false).
Proof. intros x x' G. by rewrite (gr_info _ _ G). Qed.

Lemma respects_connected : respects connected.
Proof. intros x y (Hp & Hh & _)%outline_eq. unfold connected. by rewrite Hp, Hh. Qed.
Lemma respects_connected_not e : respects (connected_not e).
Proof. intros x y (Hp & Hh & _)%outline_eq. unfold connected_not, connected. by rewrite !Hp, Hh. Qed.
Lemma respects_connecting : respects connecting.
Proof. intros x y (Hp & Hh & _)%outline_eq. unfold connecting. by rewrite !Hp, Hh. Qed.
Lemma respects_info (Q : RpcHandlerInfo → Prop) : respects (λ x, Q (rpc_handler_info_ x)).
Proof. intros x y (_ & _ & Hi & _)%outline_eq. by rewrite Hi. Qed.
Lemma respects_flags (Q : (Event.t → bool) → Prop) :
  (∀ f g, (∀ e, f e = g e) → Q f → Q g) → respects (λ x, Q (is_pending x)).
Proof. intros HQ x y (Hp & _)%outline_eq. by apply HQ. Qed.
Lemma respects_and (P Q : Rpc → Prop) : respects P → respects Q → respects (λ x, P x ∧ Q x).
Proof. intros HP HQ x y E [? ?]. split; [by apply (HP x)|by apply (HQ x)]. Qed.

(** ** Lists of locations *)

Lemma elem_of_owned locs r : r ∈ owned locs ↔ ∃ q l, locs !! q = Some l ∧ owner l = Some r.
Proof.
  unfold owned. rewrite elem_of_list_to_set, list_elem_of_omap. split.
  - intros (l & [q Hq]%list_elem_of_lookup & Ho). eauto.
  - intros (q & l & Hq & Ho). exists l. split; [by eapply list_elem_of_lookup_2|done].
Qed.

Lemma owned_insert locs q l l' r :
  locs !! q = Some l → r ∈ owned (<[q := l']> locs) ↔
  owner l' = Some r ∨ ∃ q' l0, q' ≠ q ∧ locs !! q' = Some l0 ∧ owner l0 = Some r.
Proof.
  intros Hq. rewrite elem_of_owned. split.
  - intros (q' & l0 & [(-> & <- & _)|[Hne Hl]]%list_lookup_insert_Some & Ho); [by left|].
    right. exists q', l0. done.
  - intros [Ho|(q' & l0 & Hne & Hl & Ho)].
    + exists q, l'. split; [|done]. apply list_lookup_insert_eq. by eapply lookup_lt_Some.
    + exists q', l0. split; [|done]. by rewrite list_lookup_insert_ne.
Qed.

Lemma held_insert locs q l l' r :
  locs !! q = Some l → held (<[q := l']> locs) r + holds l r = held locs r + holds l' r.
Proof.
  intros Hq. unfold held. rewrite insert_take_drop by (by eapply lookup_lt_Some).
  rewrite <- (take_drop_middle _ _ _ Hq) at 3. rewrite !sum_list_with_app. simpl. lia.
Qed.

Lemma held_pos locs q l r : locs !! q = Some l → held_by l = Some r → 0 < held locs r.
Proof.
  intros Hq Hl. unfold held. rewrite <- (take_drop_middle _ _ _ Hq), sum_list_with_app. simpl.
  unfold holds at 2. rewrite decide_True by done. lia.
Qed.

Lemma held_pos_inv locs r : 0 < held locs r → ∃ q l, locs !! q = Some l ∧ held_by l = Some r.
Proof.
  unfold held. induction locs as [|l locs IH]; simpl; [lia|]. unfold holds at 1.
  destruct (decide (held_by l = Some r)) as [Hl|Hn]; [by exists 0, l|].
  intros Hp. destruct IH as (q & l' & ? & ?); [lia|]. by exists (S q), l'.
Qed.

Lemma core_ext ex ex' w : (∀ r, ex r = ex' r) → core N ex w → core N ex' w.
Proof.
  intros He C. destruct C; split; try done.
  - intros r Hr. rewrite <- He. by apply c_fresh.
  - intros r n x Hx. rewrite <- He. by eapply c_count.
Qed.

Lemma core_held locs q l l' w :
  locs !! q = Some l → held_by l' = held_by l → core N (held locs) w →
  core N (held (<[q := l']> locs)) w.
Proof.
  intros Hq Hl. apply core_ext. intros r. pose proof (held_insert locs q l l' r Hq) as Hh.
  unfold holds in Hh. rewrite Hl in Hh. lia.
Qed.

Lemma owner_exists q l r w : loc_ok q l w → owner l = Some r → is_Some (heap_ w !! r).
Proof.
  destruct l; simpl; intros Hok Ho; simplify_eq.
  - destruct Hok as (_ & _ & _ & n & x & -> & _). by eexists.
  - destruct Hok as (_ & _ & _ & n & x & -> & _). by eexists.
  - destruct Hok as (_ & _ & _ & n & x & -> & _). by eexists.
Qed.

(** ** What stays true of an object other threads do not handle *)

Record kept (r : RpcPtr) (w w' : World) : Prop := {
  k_next : next_ptr w ≤ next_ptr w';
  k_active : r ∈ rpcs_ w → r ∈ rpcs_ w';
  k_back : ∀ n' x', heap_ w' !! r = Some (n', x') →
    ∃ n x, heap_ w !! r = Some (n, x) ∧ outline x = outline x';
  k_started : r ∈ started w' → r ∈ started w ∨
    ∃ n x, heap_ w !! r = Some (n, x) ∧ is_pending x NEW_CONNECTION = true;
  k_mentioned : mentioned w' r → mentioned w r
}.

Lemma kept_object ex r n x w w' :
  core N ex w' → kept r w w' → r ∈ rpcs_ w → heap_ w !! r = Some (n, x) →
  ∃ n' x', heap_ w' !! r = Some (n', x') ∧ outline x = outline x'.
Proof.
  intros C K Hr Hx. destruct (c_active _ _ _ C r) as [[n' x'] Hx']; [by apply K|].
  destruct (k_back _ _ _ K _ _ Hx') as (m & y & Hy & E). rewrite Hx in Hy. injection Hy as <- <-.
  eauto.
Qed.

Lemma kept_not_started r n x w w' :
  kept r w w' → heap_ w !! r = Some (n, x) → is_pending x NEW_CONNECTION = false →
  r ∈ started w' → r ∈ started w.
Proof.
  intros K Hx Hp Hs. destruct (k_started _ _ _ K Hs) as [?|(m & y & Hy & Hp')]; [done|congruence].
Qed.

Lemma loc_ok_kept ex q l w w' :
  core N ex w' → (∀ r, concerns l = Some r → kept r w w') → loc_ok q l w → loc_ok q l w'.
Proof.
  intros C K. destruct l as [|r h F P|r b|r|r b|r]; simpl in *; [done|..];
    specialize (K r eq_refl).
  - intros (HF & HP & Hr & n & x & Hx & Hq & Hnc & HFx & HPx). split_and!; [done|done|by apply K|].
    destruct (kept_object _ _ _ _ _ _ C K Hr Hx) as (n' & x' & Hx' & E). exists n', x'.
    pose proof (outline_eq _ _ E) as (Hp & Hh & Hi & Hqq).
    split_and!; [done|congruence|by rewrite <- Hp|by apply (lasting_respects F HF x)|by apply (HP x)].
  - intros (Hr & Hm & Hs & n & x & Hx & Hq & Hc & Hw & Hf & Hd). split_and!; [by apply K| | |].
    + by intros Hm'%(k_mentioned _ _ _ K).
    + intros Hs'. apply Hs. eapply kept_not_started; [done..|by apply Hc|done].
    + destruct (kept_object _ _ _ _ _ _ C K Hr Hx) as (n' & x' & Hx' & E). exists n', x'.
      pose proof (outline_eq _ _ E) as (Hp & Hh & Hi & Hqq). rewrite <- !Hp.
      split_and!; [done|congruence|by apply (respects_connecting x)|done..].
  - intros [Hlt Hx]. split; [pose proof (k_next _ _ _ K); lia|]. intros n' x' Hx'.
    destruct (k_back _ _ _ K _ _ Hx') as (n & x & Hx0 & E). destruct (Hx _ _ Hx0) as [Hq Hc].
    pose proof (outline_eq _ _ E) as (Hp & Hh & Hi & Hqq).
    split; [congruence|by apply (respects_connected x)].
  - intros (Hr & Hm & Hs & n & x & Hx & Hh & Hp). split_and!; [by apply K| | |].
    + by intros Hm'%(k_mentioned _ _ _ K).
    + intros Hs'. apply Hs. eapply kept_not_started; [done..| |done]. rewrite Hp. by destruct b.
    + destruct (kept_object _ _ _ _ _ _ C K Hr Hx) as (n' & x' & Hx' & E). exists n', x'.
      pose proof (outline_eq _ _ E) as (Hp' & Hh' & Hi & Hqq).
      split_and!; [done|congruence|]. intros e. by rewrite <- Hp'.
  - apply K.
Qed.

End thread_inv.
