(* ===== verification/ThreadFrame.v ===== *)
(** * What a step of an event queue thread leaves alone

    A step on behalf of one object changes no other object and nothing other
    threads know about theirs ([apart]); while an event is handled its object
    only grows ([works_on]).  With the facts about the object itself this is
    enough for the invariant of all threads ([ginv_apart]). *)

From Stdlib Require Import ZArith Lia.
From stdpp Require Import base option list strings gmap.
From S2P Require Import Prelude Resumption Interfaces BlockingQueue Rpc Service ServiceThreads.
From S2P Require Import ServiceInv ServiceLemmas ServiceHandlers ServiceSafety ServiceSteps.
From S2P Require Import ServiceFlow ServiceProtocol ServiceLeak ThreadInv.
Import Event EventDeleter.

Set Default Proof Using "Type".

Section frame.
Context `{GrpcStatus, Application, EventQueueSelector} (N : nat) `{!SelectorOk N}.

Record apart (this : RpcPtr) (w w' : World) : Prop := {
  a_others : delete this (heap_ w') = delete this (heap_ w);
  a_next : next_ptr w ≤ next_ptr w';
  a_rpcs : ∀ r, r ≠ this → r ∈ rpcs_ w' ↔ r ∈ rpcs_ w;
  a_started : started w' = started w;
  a_threads : threads w' = threads w;
  a_weak : weak_refs w ⊆ weak_refs w';
  a_mentioned : ∀ r, r ≠ this → mentioned w' r → mentioned w r
}.

Record works_on (this : RpcPtr) (w w' : World) : Prop := {
  wo_apart : apart this w w';
  wo_object : ∀ n' x', heap_ w' !! this = Some (n', x') →
    ∃ n x, heap_ w !! this = Some (n, x) ∧ grows x x';
  wo_home : weak_home w → weak_home w'
}.

#[global] Instance apart_preorder this : PreOrder (apart this).
Proof.
  split; [by split|]. intros w1 w2 w3 [O1 N1 R1 S1 T1 W1 M1] [O2 N2 R2 S2 T2 W2 M2].
  split; [congruence|lia| |congruence|congruence|set_solver|auto].
  intros r Hr. by rewrite R2, R1.
Qed.

#[global] Instance works_on_preorder this : PreOrder (works_on this).
Proof.
  split.
  - intros w. split; [reflexivity| |done]. intros n x Hx. exists n, x. by split.
  - intros w1 w2 w3 [A1 O1 H1'] [A2 O2 H2']. split; [by etransitivity| |auto].
    intros n3 x3 H3. destruct (O2 _ _ H3) as (n2 & x2 & Hx2 & G2).
    destruct (O1 _ _ Hx2) as (n1 & x1 & Hx1 & G1). exists n1, x1. split; [done|by etransitivity].
Qed.

Lemma apart_other this w w' r : apart this w w' → r ≠ this → heap_ w' !! r = heap_ w !! r.
Proof.
  intros A Hne. rewrite <- (lookup_delete_ne (heap_ w') this r), (a_others _ _ _ A) by done.
  by rewrite lookup_delete_ne.
Qed.

Lemma apart_kept this w w' r : apart this w w' → r ≠ this → kept r w w'.
Proof.
  intros A Hne. split.
  - apply A.
  - by rewrite (a_rpcs _ _ _ A).
  - intros n x. rewrite (apart_other _ _ _ _ A Hne). eauto.
  - rewrite (a_started _ _ _ A). by left.
  - by apply A.
Qed.

(** ** Primitive operations *)

(** The world with one object replaced. *)
Lemma works_on_insert this n n' x x' w :
  heap_ w !! this = Some (n, x) → grows x x' →
  works_on this w (upd_heap (insert this (n', x')) w).
Proof.
  intros Hx G. split.
  - split; simpl; try done. by rewrite delete_insert_eq.
  - simpl. intros m y. rewrite lookup_insert_eq. intros [= <- <-]. eauto.
  - intros Hw q bq r m y Hq Hr. simpl.
    intros [[<- [= <- <-]]|[_ Hy]]%lookup_insert_Some; [|by eapply Hw]. rewrite (gr_queue _ _ G). by eapply Hw.
Qed.

(** Changes of nothing the threads rely on. *)
Lemma works_on_same this w w' :
  heap_ w' = heap_ w → next_ptr w' = next_ptr w → event_queues w' = event_queues w →
  started w' = started w → threads w' = threads w →
  (∀ r, r ≠ this → r ∈ rpcs_ w' ↔ r ∈ rpcs_ w) →
  weak_refs w ⊆ weak_refs w' → weak_refs w' ⊆ {[this]} ∪ weak_refs w → works_on this w w'.
Proof.
  intros Eh En Eq Es Et Hr Hw1 Hw2. split.
  - split; rewrite ?Eh, ?En, ?Es, ?Et; try done. unfold mentioned. rewrite Eq. set_solver.
  - rewrite Eh. intros n x Hx. exists n, x. by split.
  - unfold weak_home. by rewrite Eq, Eh.
Qed.

Lemma wk_deref this p : preserves (works_on this) (deref p).
Proof. intros w. unfold wlp, deref. repeat case_match; simplify_eq; try done; reflexivity. Qed.
Lemma wk_store this f : (∀ x, grows x (f x)) → preserves (works_on this) (store this f).
Proof.
  intros Hf w. unfold wlp, store. destruct (heap_ w !! this) as [[n x]|] eqn:Hx; [|done].
  by eapply works_on_insert.
Qed.
Lemma wk_lock this : preserves (works_on this) (lock this).
Proof.
  intros w. unfold wlp, lock. destruct (heap_ w !! this) as [[n x]|] eqn:Hx; [|reflexivity].
  by eapply works_on_insert.
Qed.
Lemma wk_release this : preserves (works_on this) (release this).
Proof.
  intros w. unfold wlp, release.
  assert (∀ f, works_on this w (upd_heap (delete this) (upd_spans f w))) as Hd.
  { intros f. split.
    - split; simpl; try done. by rewrite delete_delete_eq.
    - simpl. intros n x. by rewrite lookup_delete_eq.
    - intros Hw q bq r m y Hq Hr. simpl. intros [_ Hy]%lookup_delete_Some. by eapply Hw. }
  destruct (heap_ w !! this) as [[[|[|n]] x]|] eqn:Hx; try done. by eapply works_on_insert.
Qed.
Lemma wk_push_write_needed this : preserves (works_on this) (push_write_needed this this).
Proof.
  intros w. unfold wlp, push_write_needed, push_event, deref, mbind, M_bind.
  destruct (heap_ w !! this) as [[n x]|] eqn:Hx; [|done].
  destruct (event_queues w !! event_queue_ x) as [bq|] eqn:Hq; [|done].
  destruct (Push _ bq) as [bq'|] eqn:Hp; [|done].
  assert (weaks bq' = weaks bq ++ [this]) as Hwk.
  { unfold Push in Hp. destruct (QueueNotFullCondition _); [|done]. injection Hp as <-.
    by rewrite weaks_push_back. }
  split.
  - split; try done. intros r Hne [?|(q' & b & Hb & Hin)]; [by left|right]. simpl in Hb.
    apply list_lookup_insert_Some in Hb as [(<- & <- & _)|[_ Hb]]; [|by eauto].
    rewrite Hwk in Hin. set_solver.
  - simpl. intros m y Hy. exists m, y. by split.
  - intros Hw q' b r m y Hb Hin Hy. simpl in *.
    apply list_lookup_insert_Some in Hb as [(<- & <- & _)|[_ Hb]]; [|by eapply Hw].
    rewrite Hwk in Hin. apply elem_of_app in Hin as [Hin| ->%list_elem_of_singleton];
      [by eapply Hw|congruence].
Qed.

Lemma grows_id x x' : outline x' = outline x → grows x x'.
Proof. intros E. by apply outline_grows. Qed.

Lemma grows_set_handler f x : grows x (set_handler f x).
Proof. by split; [..|intros []|]. Qed.

Lemma grows_set_pending e x :
  e ≠ READ → grows x (update_event_member e (set_pending true) x).
Proof.
  intros He. split; [by destruct e..| |by destruct e].
  intros e' He'. destruct (decide (e = e')) as [<-|Hne];
    [by destruct e|by rewrite is_pending_update_ne].
Qed.

#[local] Hint Resolve wk_deref wk_lock wk_release wk_push_write_needed : preserves.
#[local] Hint Extern 1 (preserves (works_on _) (modify _)) =>
  apply preserves_modify; intros ?; apply works_on_same; simpl; first [done|set_solver] : preserves.
#[local] Hint Extern 1 (preserves (works_on _) (store _ _)) =>
  apply wk_store; intros ?;
  first [apply grows_set_handler|apply grows_id; reflexivity] : preserves.

Lemma wk_GetRpcEvent this e : preserves (works_on this) (GetRpcEvent this e).
Proof. unfold GetRpcEvent. preserves_tac. Qed.
#[local] Hint Resolve wk_GetRpcEvent : preserves.
Lemma wk_SetRpcEventState this e :
  e ≠ READ → preserves (works_on this) (SetRpcEventState this e true).
Proof.
  intros He. unfold SetRpcEventState. apply preserves_bind; [apply _|auto with preserves|].
  intros _. apply wk_store. intros x. by apply grows_set_pending.
Qed.
Lemma wk_IsRpcEventPending this e : preserves (works_on this) (IsRpcEventPending this e).
Proof. unfold IsRpcEventPending, GetRpcEventState. preserves_tac. Qed.
Lemma wk_grpc_call this c : preserves (works_on this) (grpc_call c).
Proof. unfold grpc_call. preserves_tac. Qed.
Lemma wk_use_stream this b o : preserves (works_on this) (use_stream b o).
Proof. unfold use_stream. preserves_tac. Qed.
Lemma wk_GetWeakPtr this : preserves (works_on this) (ActiveRpcs_GetWeakPtr this).
Proof. unfold ActiveRpcs_GetWeakPtr. preserves_tac. Qed.
#[local] Hint Resolve wk_IsRpcEventPending wk_grpc_call wk_use_stream wk_GetWeakPtr : preserves.
#[local] Hint Extern 1 (preserves (works_on _) (SetRpcEventState _ _ _)) =>
  apply wk_SetRpcEventState; discriminate : preserves.

(** ** The steps of event queue threads *)

Lemma wk_EnqueueMessage this it : preserves (works_on this) (EnqueueMessage this it).
Proof. unfold EnqueueMessage. preserves_tac. Qed.
Lemma wk_GetWriter this : preserves (works_on this) (RpcHandler_GetWriter this).
Proof.
  unfold RpcHandler_GetWriter, ActiveRpcs_GetWeakPtr. intros w.
  apply wlp_bind, wlp_bind, wlp_intro. intros a w0 [= <- <-]. apply wlp_bind, wlp_check. intros _.
  apply wlp_ret, wlp_modify. apply works_on_same; simpl; first [done|set_solver].
Qed.
Lemma wk_log_span this s : preserves (works_on this) (log_span this s).
Proof. unfold log_span. preserves_tac. Qed.
Lemma wk_call_body this c body : preserves (works_on this) (call_body this c body).
Proof. unfold call_body, log_callback. preserves_tac. Qed.
Lemma wk_factory_body this : preserves (works_on this) (factory_body this).
Proof. unfold factory_body, log_callback, log_span. preserves_tac. Qed.
Lemma wk_set_handler this h : preserves (works_on this) (store this (set_handler (λ _, h))).
Proof. preserves_tac. Qed.
Lemma wk_pop_send_item this : preserves (works_on this) (pop_send_item this).
Proof. unfold pop_send_item. preserves_tac. Qed.
Lemma wk_PerformFinish this m s : preserves (works_on this) (PerformFinish this m s).
Proof. unfold PerformFinish, SendUnaryFinish. preserves_tac. Qed.
Lemma wk_PerformWrite this m s : preserves (works_on this) (PerformWrite this m s).
Proof. unfold PerformWrite, async_writer_interface. preserves_tac. Qed.
Lemma wk_Remove this : preserves (works_on this) (ActiveRpcs_Remove this).
Proof. unfold ActiveRpcs_Remove. preserves_tac. Qed.
Lemma wk_IsAnyEventPending this : preserves (works_on this) (IsAnyEventPending this).
Proof. unfold IsAnyEventPending. preserves_tac. Qed.
Lemma wk_notify this : preserves (works_on this) (notify_when_done this).
Proof. unfold notify_when_done. preserves_tac. Qed.
Lemma wk_request_call this : preserves (works_on this) (request_call this).
Proof. unfold request_call, streaming_interface. preserves_tac. Qed.

(** The flag of a read is only set for requests that are streams. *)
Lemma wk_request_read this n x w :
  heap_ w !! this = Some (n, x) → unary_request (rpc_type (rpc_handler_info_ x)) = false →
  wlp (request_read this) (λ _, works_on this w) w.
Proof.
  intros Hx Hu. apply wlp_bind. eapply wlp_SetRpcEventState; [done|].
  eapply wlp_mono.
  - refine ((_ : preserves (works_on this) _) _). unfold async_reader_interface. preserves_tac.
  - intros [] w' Hw. etransitivity; [|exact Hw]. eapply works_on_insert; [done|].
    split; [done..| |by intros _ _]. intros e He.
    destruct (decide (READ = e)) as [<-|Hne]; [done|by rewrite is_pending_update_ne].
Qed.

(** ** The invariant of all threads after a step of one of them *)

(** No other thread than that of [q] handles [r] or is about to. *)
Definition unclaimed (locs : list Loc) (q : QueuePtr) (r : RpcPtr) : Prop :=
  ∀ q' l, q' ≠ q → locs !! q' = Some l → owner l ≠ Some r ∧ l ≠ WeakRef r.

Lemma unclaimed_owner locs q l r w :
  ginv N locs w → locs !! q = Some l → owner l = Some r → unclaimed locs q r.
Proof.
  intros G Hl Ho q' l' Hne Hl'. split; [intros Ho'; by eapply Hne, (g_excl _ _ _ G)|].
  intros ->. pose proof (g_locs _ _ _ G _ _ Hl) as Hok.
  destruct (g_locs _ _ _ G _ _ Hl') as [_ Hw].
  destruct l; simplify_eq/=.
  - destruct Hok as (_ & _ & _ & n & x & Hx & <- & _). by destruct (Hw _ _ Hx).
  - destruct Hok as (_ & _ & _ & n & x & Hx & <- & _). by destruct (Hw _ _ Hx).
  - destruct Hok as (_ & _ & _ & n & x & Hx & Hh & _). destruct (Hw _ _ Hx) as [_ [_ [? ?]]].
    congruence.
Qed.

Lemma unclaimed_home locs q r n x w :
  ginv N locs w → heap_ w !! r = Some (n, x) → event_queue_ x = q →
  is_Some (handler_ x) ∨ (∃ e q0, queued w r e q0) → unclaimed locs q r.
Proof.
  intros G Hx Hq Hn q' l' Hne Hl'. pose proof (g_locs _ _ _ G _ _ Hl') as Hok.
  split; [intros Ho|intros ->; destruct Hok as [_ Hw]; destruct (Hw _ _ Hx); congruence].
  destruct l'; simplify_eq/=.
  - destruct Hok as (_ & _ & _ & m & y & Hy & ? & _). congruence.
  - destruct Hok as (_ & _ & _ & m & y & Hy & ? & _). congruence.
  - destruct Hok as (_ & _ & Hs & m & y & Hy & Hh & Hp). rewrite Hx in Hy. injection Hy as <- <-.
    destruct Hn as [[? ?]|(e & q0 & Hqd)]; [congruence|].
    destruct (c_queued _ _ _ (g_core _ _ _ G) _ _ _ Hqd) as (m & y & Hy & _ & Hpe & _ & Hd).
    rewrite Hx in Hy. injection Hy as <- <-. rewrite Hp in Hpe.
    apply andb_true_iff in Hpe as [_ ->%bool_decide_eq_true]. auto.
Qed.

(** The objects that exist are active. *)
Lemma ginv_active locs w r n x : ginv N locs w → heap_ w !! r = Some (n, x) → r ∈ rpcs_ w.
Proof.
  intros G Hx. destruct (decide (r ∈ rpcs_ w)) as [?|Hn]; [done|].
  pose proof (c_count _ _ _ (g_core _ _ _ G) _ _ _ Hx) as Hc.
  pose proof (c_pos _ _ _ (g_core _ _ _ G) _ _ _ Hx) as Hp. rewrite decide_False in Hc by done.
  rewrite (holders_zero w r) in Hc by (intros t Ht <-; by destruct (g_threads _ _ _ G t Ht)).
  destruct (held_pos_inv locs r) as (q & l & Hl & Hh); [lia|].
  pose proof (g_locs _ _ _ G _ _ Hl) as Hok.
  destruct l as [|? [] ? ?| | | |]; simplify_eq/=; by destruct_and?.
Qed.

Lemma ginv_apart locs q l l' this w w' :
  ginv N locs w → locs !! q = Some l → apart this w w' → unclaimed locs q this →
  core N (held (<[q := l']> locs)) w' → weak_home w' →
  (∀ n x, heap_ w' !! this = Some (n, x) → reads x ∧
     (owner l' = None → phase w' this x ∧ any_pending x = true)) →
  this ∈ rpcs_ w' ∨
    (holders w this = 0 ∧ ∀ q' l0, q' ≠ q → locs !! q' = Some l0 → held_by l0 ≠ Some this) →
  owner l = None ∨ owner l = Some this → owner l' = None ∨ owner l' = Some this →
  loc_ok q l' w' → ginv N (<[q := l']> locs) w'.
Proof.
  intros G Hl A Hun C' Hhome Hthis Hact Ho Ho' Hok'.
  assert (∀ r n x, r ≠ this → heap_ w' !! r = Some (n, x) → heap_ w !! r = Some (n, x)) as Hoth.
  { intros r n x Hne. by rewrite (apart_other this w w' r A Hne). }
  split; try done.
  - intros r n x Hx Hr. rewrite (owned_insert _ _ l) in Hr by done.
    destruct (decide (r = this)) as [->|Hne].
    + apply (Hthis n x); [done|]. destruct Ho' as [?|?]; [done|]. by destruct Hr; left.
    + destruct (g_quiet _ _ _ G r n x) as [Hph Hany]; [by apply Hoth| |].
      * rewrite elem_of_owned. intros (q' & l0 & Hl0 & Hr0). apply Hr. right.
        exists q', l0. split; [|done]. intros ->. destruct Ho; congruence.
      * split; [|done]. apply (phase_mentioned w); [apply A| |done]. by apply A.
  - intros r n x Hx. destruct (decide (r = this)) as [->|Hne]; [by apply (Hthis n x)|].
    by eapply (g_reads _ _ _ G), Hoth.
  - intros t. rewrite (a_threads _ _ _ A). intros Ht. destruct (g_threads _ _ _ G t Ht) as [Ha Hw].
    split; [|by apply (a_weak _ _ _ A)]. destruct (decide (wt_rpc t = this)) as [E|Hne].
    + destruct Hact as [?|[Hh _]]; [by rewrite E|]. pose proof (holders_pos w t Ht).
      rewrite E in *. lia.
    + by apply (a_rpcs _ _ _ A).
  - intros q' l0 [(-> & <- & _)|[Hne Hl0]]%list_lookup_insert_Some; [done|].
    pose proof (g_locs _ _ _ G _ _ Hl0) as Hok0. destruct (Hun q' l0) as [Hno Hnw]; [done..|].
    destruct (decide (concerns l0 = Some this)) as [Hc|Hc].
    + destruct l0; simplify_eq/=. destruct Hact as [?|[_ Hh]]; [done|]. by destruct (Hh q' (Hold this)).
    + eapply loc_ok_kept; [done| |done]. intros r Hr. apply (apart_kept this); [done|]. congruence.
  - intros q1 q2 l1 l2 r [(-> & <- & _)|[Hne1 Hl1]]%list_lookup_insert_Some
      [(-> & <- & _)|[Hne2 Hl2]]%list_lookup_insert_Some Ho1 Ho2; [done|..].
    + exfalso. destruct (Hun q2 l2) as [? _]; [done..|]. destruct Ho'; congruence.
    + exfalso. destruct (Hun q1 l1) as [? _]; [done..|]. destruct Ho'; congruence.
    + by eapply (g_excl _ _ _ G).
Qed.

End frame.
