(* ===== verification/ThreadSafety.v ===== *)
(** * The steps of event queue threads are safe

    Triples for programs: from what a thread knows ([Loc]) it runs a program
    step by step, other threads running in between, and no step fails.  The
    triples compose like those of [ServiceHandlers], whose specifications of
    the operations are used for the steps. *)

From Stdlib Require Import ZArith Lia.
From stdpp Require Import base option list strings gmap.
From S2P Require Import Prelude Resumption Interfaces BlockingQueue Rpc Service ServiceThreads.
From S2P Require Import ServiceInv ServiceLemmas ServiceHandlers ServiceSafety ServiceSteps.
From S2P Require Import ServiceFlow ServiceProtocol ServiceLeak ThreadInv ThreadFrame.
Import Event EventDeleter.

Set Default Proof Using "Type".

Section conditions.
Context `{GrpcStatus, Application, EventQueueSelector}.

(** An object leaves the active set with its last shared pointer. *)
Definition sole_removal (w w' : World) : Prop :=
  ∀ r n x, heap_ w !! r = Some (n, x) → 1 < n → r ∈ rpcs_ w → r ∈ rpcs_ w'.

(** Connections succeed exactly while the service is not shutting down. *)
Definition access_ok (a : Access) (w : World) : Prop :=
  match a with AShuttingDown ok => ok = negb (shutting_down_ w) | _ => True end.

End conditions.

(** [safe N q l p Q]: a thread that knows [l] runs [p], and no step fails. *)
Abbreviation safe N := (triple (ginv N) access_ok sole_removal False).
Abbreviation shift N := (shifts (ginv N)).

Section thread_safety.
Context `{GrpcStatus, Application, EventQueueSelector} (N : nat) `{!SelectorOk N}.

Lemma safe_atom {A} q l a (m : M World A) (Q : A → Loc → Prop) :
  (∀ locs w, ginv N locs w → locs !! q = Some l → access_ok a w →
     wp m (λ b w', sole_removal w w' → ∃ l', ginv N (<[q := l']> locs) w' ∧ Q b l') w) →
  safe N q l (atom a m) Q.
Proof. apply triple_atom. Qed.

(** ** Changes without a step *)

Lemma ginv_relabel locs q l l' r w :
  ginv N locs w → locs !! q = Some l → owner l = Some r → owner l' = Some r →
  held_by l' = held_by l → loc_ok q l' w → ginv N (<[q := l']> locs) w.
Proof.
  intros G Hl Ho Ho' Hh Hok. eapply (ginv_apart N locs q l l' r w w); try done.
  - by eapply unclaimed_owner.
  - by eapply core_held; [| |apply G].
  - apply G.
  - intros n x Hx. split; [by eapply (g_reads _ _ _ G)|congruence].
  - left. destruct l'; simplify_eq/=; by destruct_and?.
  - by right.
  - by right.
Qed.

Lemma shift_weaken q r h (F F' P P' : Rpc → Prop) :
  lasting F' → respects P' → (∀ x, F x → P x → F' x ∧ P' x) →
  shift N q (Busy r h F P) (Busy r h F' P').
Proof.
  intros HF' HP' Himp locs w G Hl. eapply ginv_relabel; [done..|].
  destruct (g_locs _ _ _ G _ _ Hl) as (_ & _ & Hr & n & x & Hx & Hq & Hnc & HF & HP).
  split_and!; try done. exists n, x. destruct (Himp x HF HP). done.
Qed.

(** The event was handled. *)
Lemma shift_leave q r h (F P : Rpc → Prop) :
  (∀ x, F x → P x → connected x ∧ any_pending x = true) →
  shift N q (Busy r h F P) (if h then Hold r else Free).
Proof.
  intros Himp locs w G Hl.
  destruct (g_locs _ _ _ G _ _ Hl) as (_ & _ & Hr & n & x & Hx & Hq & Hnc & HF & HP).
  eapply (ginv_apart N locs q (Busy r h F P) _ r w w); try done.
  - by eapply unclaimed_owner.
  - eapply core_held; [done| |apply G]. by destruct h.
  - apply G.
  - intros m y Hy. split; [by eapply (g_reads _ _ _ G)|]. intros _.
    rewrite Hx in Hy. injection Hy as <- <-. destruct (Himp x HF HP) as [[Hc Hh] ?].
    split; [|done]. unfold phase. by rewrite Hc.
  - by left.
  - by right.
  - left. by destruct h.
  - by destruct h.
Qed.

(** ** Steps on the object that is being handled *)

Lemma ginv_handling locs q r h F P w :
  ginv N locs w → locs !! q = Some (Busy r h F P) →
  handling_among N (busy := owned (<[q := Free]> locs)) (held locs) r P w.
Proof.
  intros G Hl. destruct (g_locs _ _ _ G _ _ Hl) as (_ & _ & Hr & n & x & Hx & _ & _ & _ & HP).
  split; try apply G; [|done|by eauto].
  intros r' m y Hne Hb Hy. apply (g_quiet _ _ _ G r' m y); [done|].
  rewrite elem_of_owned. intros (q' & l' & Hl' & Ho). apply Hb.
  rewrite (owned_insert _ _ (Busy r h F P)) by done. right. exists q', l'.
  split; [|done]. intros ->. by simplify_eq/=.
Qed.

Lemma ginv_busy locs q r h F P P' w w' :
  ginv N locs w → locs !! q = Some (Busy r h F P) → works_on r w w' →
  handling_among N (busy := owned (<[q := Free]> locs)) (held locs) r P' w' →
  respects P' → (∀ x, P' x → is_pending x NEW_CONNECTION = false) →
  ginv N (<[q := Busy r h F P']> locs) w'.
Proof.
  intros G Hl W Hh HP' Hnc. pose proof (g_locs _ _ _ G _ _ Hl) as (HF & HP & Hr & n & x & Hx & Hq & _ & HFx & _).
  pose proof (h_obj _ _ _ _ _ Hh) as (n' & x' & Hx' & HPx').
  destruct (wo_object _ _ _ W _ _ Hx') as (m & y & Hy & Hg). rewrite Hx in Hy. injection Hy as <- <-.
  eapply (ginv_apart N locs q (Busy r h F P) _ r w w'); try done; try apply W.
  - by eapply unclaimed_owner.
  - eapply core_held; [done| |apply Hh]. done.
  - apply G.
  - intros m y Hy. rewrite Hx' in Hy. injection Hy as <- <-. split; [|done].
    apply (gr_reads _ _ Hg). by eapply (g_reads _ _ _ G).
  - left. apply Hh.
  - by right.
  - by right.
  - split_and!; [done|done|apply Hh|]. exists n', x'.
    split_and!; [done| |by apply Hnc|by apply (HF x)|done]. rewrite (gr_queue _ _ Hg). done.
Qed.

Definition steady (P : Rpc → Prop) : Prop :=
  respects P ∧ ∀ x, P x → is_pending x NEW_CONNECTION = false.

Lemma safe_busy {A} q r h F P a (m : M World A) (φ : A → Prop) (P' : A → Rpc → Prop) :
  (∀ w n x, heap_ w !! r = Some (n, x) → P x → wlp m (λ _, works_on r w) w) →
  (∀ busy ex w, handling_among N (busy := busy) ex r P w →
     wp m (λ b w', φ b ∧ handling_among N (busy := busy) ex r (P' b) w') w) →
  (∀ b, φ b → steady (P' b)) →
  safe N q (Busy r h F P) (atom a m) (λ b l', φ b ∧ l' = Busy r h F (P' b)).
Proof.
  intros Hw Hm HP'. apply safe_atom. intros locs w G Hl _.
  pose proof (g_locs _ _ _ G _ _ Hl) as (_ & _ & _ & n & x & Hx & _ & _ & _ & HPx).
  specialize (Hw w n x Hx HPx). specialize (Hm _ _ _ (ginv_handling _ _ _ _ _ _ _ G Hl)).
  unfold wp, wlp in *. destruct (m w) as [b w'|]; [|done]. destruct Hm as [Hφ Hh].
  intros _. exists (Busy r h F (P' b)). split; [|done].
  destruct (HP' b Hφ). by eapply ginv_busy.
Qed.

(** The common case: an operation that is a frame for the object. *)
Lemma safe_busy_preserves {A} q r h F P a (m : M World A) (P' : Rpc → Prop) :
  preserves (works_on r) m →
  (∀ busy ex w, handling_among N (busy := busy) ex r P w →
     wp m (λ _, handling_among N (busy := busy) ex r P') w) →
  steady P' → safe N q (Busy r h F P) (atom a m) (λ _ l', l' = Busy r h F P').
Proof.
  intros Hw Hm HP'. eapply triple_mono.
  - apply (safe_busy _ _ _ _ _ _ _ (λ _, True) (λ _, P')); [by intros w n x _ _| |done].
    intros busy ex w Hh. eapply wp_mono; [by apply Hm|done].
  - by intros b l' [_ ->].
Qed.

Lemma safe_deref q r h F P a (P' : Rpc → Rpc → Prop) :
  (∀ x, P x → P' x x) → (∀ x, steady (P' x)) →
  safe N q (Busy r h F P) (atom a (deref r)) (λ x l', l' = Busy r h F (P' x)).
Proof.
  intros HP HP'. eapply triple_mono.
  - apply (safe_busy _ _ _ _ _ _ _ (λ _, True) P'); [|intros busy ex w Hh|by intros x _].
    + intros w n x _ _. apply wk_deref.
    + pose proof (h_obj _ _ _ _ _ Hh) as (n & x & Hx & HPx). eapply wp_deref; [done|].
      split; [done|]. destruct Hh. split; eauto.
  - by intros x l' [_ ->].
Qed.

Lemma steady_connected : steady connected.
Proof. split; [apply respects_connected|by intros x [? _]]. Qed.
Lemma steady_connected_not e : steady (connected_not e).
Proof. split; [apply respects_connected_not|by intros x [[? _] _]]. Qed.
Lemma steady_connecting : steady connecting.
Proof. split; [apply respects_connecting|by intros x [? _]]. Qed.
Lemma steady_and P Q : steady P → respects Q → steady (λ x, P x ∧ Q x).
Proof. intros [HP Hn] HQ. split; [by apply respects_and|by intros x [? _]; apply Hn]. Qed.
Lemma steady_stable_send P : steady P → stable_send P.
Proof. intros [HP _] x g. by apply HP. Qed.

End thread_safety.
