(* ===== verification/ThreadHandlers.v ===== *)
(** * Triples for the operations of event queue threads

    One triple per function of [ServiceThreads], up to the whole turn of a
    thread ([safe_turn]). *)

From Stdlib Require Import ZArith Lia.
From stdpp Require Import base option list strings gmap.
From S2P Require Import Prelude Resumption Interfaces BlockingQueue Rpc Service ServiceThreads.
From S2P Require Import ServiceInv ServiceLemmas ServiceHandlers ServiceSafety ServiceSteps.
From S2P Require Import ServiceFlow ServiceProtocol ServiceLeak ThreadInv ThreadFrame.
From S2P Require Import ThreadSafety.
Import Event EventDeleter.

Set Default Proof Using "Type".

Section thread_handlers.
Context `{GrpcStatus, Application, EventQueueSelector} (N : nat) `{!SelectorOk N}.

Implicit Types (q : QueuePtr) (r : RpcPtr) (h : bool) (F P : Rpc → Prop).

(** ** Handlers and their calls back into the [Rpc] *)

Lemma safe_enqueue_and_push q r h F P it :
  steady P →
  safe N q (Busy r h F P)
    (atom ASendQueue (EnqueueMessage r it) ;;
     weak ← atom AActiveRpcs (ActiveRpcs_GetWeakPtr r);
     atom AEventQueue (push_write_needed r weak))
    (λ _ l', l' = Busy r h F P).
Proof.
  intros HP. apply triple_bind. eapply triple_mono.
  { apply safe_busy_preserves; [apply wk_EnqueueMessage| |exact HP]. intros busy ex w Hh.
    by apply wp_EnqueueMessage, steady_stable_send. }
  intros [] l' ->. apply triple_bind. eapply triple_mono.
  { apply (safe_busy _ _ _ _ _ _ _ _ (λ weak, weak = r) (λ _, P)).
    - intros w n x _ _. apply wk_GetWeakPtr.
    - intros busy ex w Hh. by apply wp_GetWeakPtr; [apply Hh|].
    - done. }
  intros weak l' [-> ->]. apply safe_busy_preserves; [apply wk_push_write_needed| |exact HP].
  intros busy ex w Hh. by apply wp_push_write_needed.
Qed.

Lemma safe_run_action q r h F P a :
  steady P → safe N q (Busy r h F P) (run_action_steps r a) (λ _ l', l' = Busy r h F P).
Proof.
  intros HP. destruct a; [by apply safe_enqueue_and_push|..].
  - apply triple_bind. eapply triple_mono; [by apply safe_enqueue_and_push|]. intros [] l' ->.
    apply safe_busy_preserves; [apply wk_log_span| |exact HP]. intros busy ex w Hh.
    apply wp_modify. by eapply handling_view; [|exact Hh].
  - apply safe_busy_preserves; [apply wk_GetWriter| |exact HP]. intros busy ex w Hh.
    by apply wp_GetWriter.
Qed.

Lemma wp_call_body {busy} ex this e cb body w :
  handling_among N (busy := busy) ex this (connected_not e) w →
  wp (call_body this cb body) (λ _, handling_among N (busy := busy) ex this (connected_not e)) w.
Proof.
  intros Hh. pose proof (h_obj _ _ _ _ _ Hh) as (n & x & Hx & [Hnc [hd Hhd]] & Hpe).
  apply wp_bind. eapply wp_deref; [done|]. rewrite Hhd. apply wp_bind, wp_modify, wp_bind.
  simpl. unfold wp at 1, get. destruct (body _ _ _) as [[h' c'] acts].
  apply wp_bind. eapply wp_store; [done|]. apply wp_bind, wp_modify, wp_ret.
  eapply handling_view; [|eapply (handling_store _ _ _ _ (connected_not e)); [exact Hh|done|
    apply (keeps_handler (λ _, Some h'))|]].
  - done.
  - destruct e; repeat split; try done; by eexists.
Qed.

Lemma wp_factory_body {busy} ex this w :
  handling_among N (busy := busy) ex this connecting w →
  wp (factory_body this) (λ _, handling_among N (busy := busy) ex this connecting) w.
Proof.
  intros Hh. pose proof (h_obj _ _ _ _ _ Hh) as (n & x & Hx & _).
  apply wp_bind. eapply wp_deref; [done|]. apply wp_bind, wp_modify, wp_bind, wp_modify, wp_bind.
  simpl. unfold wp at 1, get. destruct (handler_Initialize _ _) as [[hd c'] acts].
  apply wp_bind, wp_modify, wp_ret. by eapply handling_view; [|exact Hh].
Qed.

Lemma safe_call_handler q r h F e cb body :
  safe N q (Busy r h F (connected_not e)) (call_handler_steps r cb body)
    (λ _ l', l' = Busy r h F (connected_not e)).
Proof.
  pose proof (steady_connected_not e) as HP. apply triple_bind. eapply triple_mono.
  { apply safe_busy_preserves; [apply wk_call_body| |exact HP]. intros busy ex w Hh.
    by apply wp_call_body. }
  intros acts l' ->. apply triple_for_all. intros a. by apply safe_run_action.
Qed.

Lemma safe_factory q r h F :
  safe N q (Busy r h F connecting) (rpc_handler_factory_steps r)
    (λ _ l', l' = Busy r h F connecting).
Proof.
  apply triple_bind. eapply triple_mono.
  { apply safe_busy_preserves; [apply wk_factory_body| |apply steady_connecting].
    intros busy ex w Hh. by apply wp_factory_body. }
  intros [hd acts] l' ->. apply triple_bind. eapply triple_mono.
  { apply triple_for_all. intros a. by apply safe_run_action, steady_connecting. }
  intros [] l' ->. by apply triple_ret.
Qed.

(** The request buffer is set for as long as the object lives. *)
Lemma safe_OnRequest q r h F e :
  safe N q (Busy r h F (connected_not e)) (OnRequest_steps r)
    (λ _ l', l' = Busy r h F (connected_not e)).
Proof.
  apply triple_bind. eapply triple_mono.
  { apply (safe_busy _ _ _ _ _ _ _ _ (λ x : Rpc, is_Some (request_ x)) (λ _, connected_not e)).
    - intros w n x _ _. apply wk_deref.
    - intros busy ex w Hh. pose proof (h_obj _ _ _ _ _ Hh) as (n & x & Hx & _).
      eapply wp_deref; [done|]. split; [|done].
      by destruct (c_wired _ _ _ (h_core _ _ _ _ _ Hh) _ _ _ Hx) as [(_ & ? & _) _].
    - intros x _. apply steady_connected_not. }
  intros x l' [[m ->] ->]. apply safe_call_handler.
Qed.

(** ** Reads and connections *)

Lemma wp_request_read {busy} ex this w :
  handling_among N (busy := busy) ex this
    (λ x, connected_not READ x ∧ unary_request (rpc_type (rpc_handler_info_ x)) = false) w →
  wp (request_read this) (λ _, handling_among N (busy := busy) ex this
    (λ x, connected x ∧ is_pending x READ = true)) w.
Proof.
  intros Hh. pose proof (h_obj _ _ _ _ _ Hh) as (n & x & Hx & Hconn & Hu).
  apply wp_bind. eapply wp_SetRpcEventState; [done|done|].
  apply wp_bind. eapply wp_async_reader_interface;
    [apply heap_upd_eq|by eapply wired_set_pending, handling_wired|done|intros o].
  apply wp_bind. eapply wp_GetRpcEvent; [apply heap_upd_eq|done|].
  apply wp_modify. eapply (handling_arm_pending _ _ _ _ READ (Read this)); eauto.
Qed.

(** A read is asked for, which leaves an event outstanding, or the request
    is there already. *)
Definition asked (x : Rpc) : Prop :=
  connected x ∧
  (unary_request (rpc_type (rpc_handler_info_ x)) = false → is_pending x READ = true).

Lemma respects_asked : respects asked.
Proof.
  intros x y E [Hc Ha]. pose proof (outline_eq _ _ E) as (Hp & _ & Hi & _).
  split; [by apply (respects_connected x)|]. by rewrite <- Hp, <- Hi.
Qed.

Lemma safe_RequestStreamingReadIfNeeded q r h F :
  lasting F →
  safe N q (Busy r h F (connected_not READ)) (RequestStreamingReadIfNeeded_steps r)
    (λ _ l', l' = Busy r h F asked).
Proof.
  intros HF. set (Pi (x : Rpc) := λ y, connected_not READ y ∧ rpc_handler_info_ y = rpc_handler_info_ x).
  assert (∀ x, steady (Pi x)) as HPi.
  { intros x. apply steady_and; [apply steady_connected_not|].
    apply (respects_info (λ i, i = rpc_handler_info_ x)). }
  apply triple_bind. eapply triple_mono; [by apply (safe_deref _ _ _ _ _ _ _ Pi)|]. intros x l' ->.
  assert (unary_request (rpc_type (rpc_handler_info_ x)) = true →
    safe N q (Busy r h F (Pi x)) (OnRequest_steps r ;; OnReadsDone_steps r)
      (λ _ l', l' = Busy r h F asked)) as Hunary.
  { intros Hu. set (F' y := F y ∧ unary_request (rpc_type (rpc_handler_info_ y)) = true).
    assert (lasting F') as HF'.
    { intros y y' G [? ?]. split; [by apply (HF y)|by rewrite (gr_info _ _ G)]. }
    eapply triple_shift; [apply (shift_weaken _ _ _ _ F F' _ (connected_not READ) HF');
      [apply respects_connected_not|intros y ? [? Hi]; split; [split; [done|by rewrite Hi]|done]]|].
    apply triple_bind. eapply triple_mono; [apply safe_OnRequest|]. intros [] l' ->.
    eapply triple_post; [apply safe_call_handler|]. intros [] l' ->. eexists. split; [|done].
    apply shift_weaken; [done|apply respects_asked|]. intros y [? ?] [? _].
    split; [done|]. split; [done|]. congruence. }
  assert (unary_request (rpc_type (rpc_handler_info_ x)) = false →
    safe N q (Busy r h F (Pi x)) (atom AGrpc (request_read r))
      (λ _ l', l' = Busy r h F asked)) as Hstream.
  { intros Hu. eapply triple_mono.
    - apply (safe_busy _ _ _ _ _ _ _ _ (λ _, True) (λ _, asked)).
      + intros w n y Hy [_ Hi]. eapply wk_request_read; [done|by rewrite Hi].
      + intros busy ex w Hh. eapply wp_mono.
        * apply (wp_request_read (busy := busy)). eapply handling_mono; [|exact Hh].
          intros y [? Hi]. split; [done|by rewrite Hi].
        * intros [] w' Hh'. split; [done|]. eapply handling_mono; [|exact Hh']. by intros y [? ?].
      + intros _ _. split; [apply respects_asked|by intros y [[? _] _]].
    - by intros [] l' [_ ->]. }
  destruct (rpc_type _); auto.
Qed.

Lemma safe_OnConnection q r h F :
  lasting F →
  safe N q (Busy r h F connecting) (OnConnection_steps r) (λ _ l', l' = Busy r h F asked).
Proof.
  intros HF. apply triple_bind. eapply triple_mono.
  { apply (safe_busy _ _ _ _ _ _ _ _ (λ x : Rpc, handler_ x = None) (λ _, connecting)).
    - intros w n x _ _. apply wk_deref.
    - intros busy ex w Hh. pose proof (h_obj _ _ _ _ _ Hh) as (n & x & Hx & Hc).
      eapply wp_deref; [done|]. split; [by apply Hc|done].
    - intros x _. apply steady_connecting. }
  intros x l' [-> ->]. apply triple_bind, triple_bind. eapply triple_mono; [apply safe_factory|].
  intros hd l' ->. eapply triple_mono.
  { apply safe_busy_preserves; [apply wk_set_handler| |apply (steady_connected_not READ)].
    intros busy ex w Hh. pose proof (h_obj _ _ _ _ _ Hh) as (n' & x' & Hx' & Hnc' & _ & Hr').
    eapply wp_store; [done|]. eapply handling_store; [exact Hh|done|apply keeps_handler|].
    split; [split; [exact Hnc'|by eexists]|exact Hr']. }
  intros [] l' ->. by apply safe_RequestStreamingReadIfNeeded.
Qed.

(** ** Writes *)

(** The item popped may be sent: nothing else is being sent. *)
Definition may_send (it : option SendItem) (x : Rpc) : Prop :=
  connected x ∧ (is_Some it → is_pending x WRITE = false ∧ is_pending x FINISH = false).

Lemma steady_may_send it : steady (may_send it).
Proof.
  split; [|by intros x [[? _] _]]. intros x y E [Hc Hs].
  pose proof (outline_eq _ _ E) as (Hp & _). split; [by apply (respects_connected x)|].
  by rewrite <- !Hp.
Qed.

Lemma wp_pop_send_item {busy} ex this w :
  handling_among N (busy := busy) ex this connected w →
  wp (pop_send_item this) (λ it, handling_among N (busy := busy) ex this (may_send it)) w.
Proof.
  intros Hh. pose proof (h_obj _ _ _ _ _ Hh) as (n & x & Hx & Hc).
  assert (handling_among N (busy := busy) ex this (may_send None) w) as Hn.
  { eapply handling_mono; [|exact Hh]. intros y ?. split; [done|]. by intros []. }
  apply wp_bind. eapply wp_deref; [done|].
  apply wp_bind. eapply wp_IsRpcEventPending; [done|done|].
  apply wp_bind. eapply wp_IsRpcEventPending; [done|done|].
  destruct (send_queue_ x) as [|item rest]; [done|].
  destruct (is_pending x WRITE) eqn:Hpw, (is_pending x FINISH) eqn:Hpf; try done. simpl.
  apply wp_bind. eapply wp_store; [done|]. apply wp_ret.
  eapply handling_store; eauto using keeps_send_queue. by split.
Qed.

Lemma safe_HandleSendQueue q r h F :
  lasting F →
  safe N q (Busy r h F connected) (HandleSendQueue_steps r) (λ _ l', l' = Busy r h F connected).
Proof.
  intros HF. apply triple_bind. eapply triple_mono.
  { apply (safe_busy _ _ _ _ _ _ _ _ (λ _, True) may_send).
    - intros w n x _ _. apply wk_pop_send_item.
    - intros busy ex w Hh. eapply wp_mono; [by apply (wp_pop_send_item (busy := busy))|done].
    - intros it _. apply steady_may_send. }
  intros [item|] l' [_ ->]; [|exists (Busy r h F connected); split; [|done]; apply shift_weaken;
    [done|apply respects_connected|by intros y ? [? _]]].
  set (Pi (x : Rpc) := λ y, may_send (Some item) y ∧ rpc_handler_info_ y = rpc_handler_info_ x).
  assert (∀ x, steady (Pi x)) as HPi.
  { intros x. apply steady_and; [apply steady_may_send|].
    apply (respects_info (λ i, i = rpc_handler_info_ x)). }
  apply triple_bind. eapply triple_mono; [by apply (safe_deref _ _ _ _ _ _ _ Pi)|]. intros x l' ->.
  assert (∀ y, Pi x y → connected_not FINISH y ∧ connected_not WRITE y) as Hnot.
  { intros y [[? Hs] _]. destruct (Hs ltac:(done)). done. }
  destruct (_ || _) eqn:Hb; (apply safe_busy_preserves;
    [auto using wk_PerformFinish, wk_PerformWrite| |apply steady_connected]).
  - intros busy ex w Hh. pose proof (h_obj _ _ _ _ _ Hh) as (n & y & Hy & HPy).
    eapply wp_PerformFinish; [|exact Hy|].
    + eapply handling_mono; [|exact Hh]. intros z Hz. by apply Hnot.
    + destruct HPy as [_ ->]. rewrite !orb_true_iff, !bool_decide_eq_true in Hb. tauto.
  - intros busy ex w Hh. pose proof (h_obj _ _ _ _ _ Hh) as (n & y & Hy & HPy).
    rewrite !orb_false_iff, !bool_decide_eq_false in Hb. destruct Hb as [[Hm Hn] Hc].
    destruct (msg item) as [m|]; [|done]. destruct HPy as [_ Hi].
    eapply wp_PerformWrite; [|exact Hy|by rewrite Hi..].
    eapply handling_mono; [|exact Hh]. intros z Hz. by apply Hnot.
Qed.

End thread_handlers.
