(* ===== verification/ThreadTurn.v ===== *)
(** * A whole turn of an event queue thread

    The steps at which a thread starts or stops handling an object: taking an
    event from its queue, locking a weak pointer, removing an RPC, creating
    the one that waits for the next connection; and the triple of a turn. *)

From Stdlib Require Import ZArith Lia.
From stdpp Require Import base option list strings gmap.
From S2P Require Import Prelude Resumption Interfaces BlockingQueue Rpc Service ServiceThreads.
From S2P Require Import ServiceInv ServiceLemmas ServiceHandlers ServiceSafety ServiceSteps.
From S2P Require Import ServiceFlow ServiceProtocol ServiceLeak ThreadInv ThreadFrame.
From S2P Require Import ThreadSafety ThreadHandlers.
Import Event EventDeleter.

Set Default Proof Using "Type".

Section thread_turn.
Context `{GrpcStatus, Application, EventQueueSelector} (N : nat) `{!SelectorOk N}.

Implicit Types (q : QueuePtr) (r : RpcPtr) (h : bool) (F P : Rpc → Prop).

(** ** Shared pointers of the threads *)

Lemma holds_1 l r : held_by l = Some r → holds l r = 1.
Proof. intros E. unfold holds. by rewrite decide_True. Qed.
Lemma holds_0 l r : held_by l ≠ Some r → holds l r = 0.
Proof. intros E. unfold holds. by rewrite decide_False. Qed.

(** ** Removal *)

Lemma held_unheld locs q l l' r :
  locs !! q = Some l → held_by l = None → held_by l' = None →
  held (<[q := l']> locs) r = held locs r.
Proof.
  intros Hl Hh Hh'. pose proof (held_insert locs q l l' r Hl) as E.
  rewrite !holds_0 in E by congruence. lia.
Qed.

Lemma wp_Remove r n x (Q : unit → World → Prop) w :
  heap_ w !! r = Some (n, x) → r ∈ rpcs_ w →
  Q tt (upd_heap (dropped r n x) (upd_spans (dropped_spans r n x)
    (upd_rpcs (λ s, s ∖ {[r]}) w))) →
  wp (ActiveRpcs_Remove r ;; mret tt) Q w.
Proof.
  intros Hx Hr HQ. apply wp_bind, wp_bind. unfold wp at 1, get. rewrite decide_True by done.
  apply wp_bind, wp_modify, wp_bind. by eapply wp_release.
Qed.

Lemma wp_remove_owned locs q l r n x w :
  ginv N locs w → locs !! q = Some l → owner l = Some r → held_by l = None →
  heap_ w !! r = Some (n, x) → (∀ e, is_pending x e = true → e = DONE ∧ r ∉ started w) →
  wp (ActiveRpcs_Remove r ;; mret tt)
    (λ _ w', sole_removal w w' → ginv N (<[q := Free]> locs) w') w.
Proof.
  intros G Hl Ho Hh Hx Hp. pose proof (ginv_active _ _ _ _ _ _ G Hx) as Hr.
  eapply wp_mono; [apply (wp_preserves (works_on r))|].
  - apply preserves_bind; [apply _|apply wk_Remove|]. intros b. preserves_tac.
  - by apply (wp_Remove r n x (λ _ w', w' = upd_heap (dropped r n x)
      (upd_spans (dropped_spans r n x) (upd_rpcs (λ s, s ∖ {[r]}) w)))).
  - intros [] w' [-> W] Hsole. pose proof (g_core _ _ _ G) as C.
    pose proof (c_count _ _ _ C _ _ _ Hx) as Hn. rewrite decide_True in Hn by done.
    assert (n = 1) as E1.
    { destruct (decide (1 < n)) as [Hlt|?]; [|lia]. specialize (Hsole _ _ _ Hx Hlt Hr).
      simpl in Hsole. set_solver. }
    rewrite E1 in *. eapply (ginv_apart N locs q l Free r); try done; try apply W.
    + by eapply unclaimed_owner.
    + eapply core_view; [|eapply (core_drop N (held locs) _ w (rpcs_ w ∖ {[r]}) r 1 x)]; try done.
      * intros r' Hne. split; [set_solver|by apply (held_unheld _ _ l)].
      * rewrite decide_False by set_solver. rewrite (held_unheld _ _ l) by done. lia.
      * intros _ e He. by destruct (Hp e He).
    + apply G.
    + simpl. intros m y. by rewrite lookup_delete_eq.
    + right. split; [lia|]. intros q' l0 _ Hl0 Hh0. pose proof (held_pos _ _ _ _ Hl0 Hh0). lia.
    + by right.
    + by left.
Qed.

Lemma respects_any_pending b : respects (λ x, any_pending x = b).
Proof. intros x y (Hp & _)%outline_eq. unfold any_pending. by rewrite !Hp. Qed.

Lemma safe_Remove q r F :
  safe N q (Busy r false F (λ x, connected x ∧ any_pending x = false)) (Remove_step r)
    (λ _ l', l' = Free).
Proof.
  apply safe_atom. intros locs w G Hl _.
  destruct (g_locs _ _ _ G _ _ Hl) as (_ & _ & Hr & n & x & Hx & _ & Hnc & _ & Hc & Ha).
  eapply wp_mono; [eapply wp_remove_owned; [done..|]|by eauto].
  unfold any_pending in Ha. rewrite !orb_false_iff in Ha. destruct Ha as (((Hd & Hrd) & Hw) & Hf).
  intros [] ?; try congruence; done.
Qed.

Lemma safe_IsAnyEventPending q r h F :
  safe N q (Busy r h F connected) (atom AOwn (IsAnyEventPending r))
    (λ b l', l' = Busy r h F (λ x, connected x ∧ any_pending x = b)).
Proof.
  eapply triple_mono.
  - apply (safe_busy _ _ _ _ _ _ _ _ (λ _, True) (λ b x, connected x ∧ any_pending x = b)).
    + intros w n x _ _. apply wk_IsAnyEventPending.
    + intros busy ex w Hh. pose proof (h_obj _ _ _ _ _ Hh) as (n & x & Hx & Hc).
      eapply wp_IsAnyEventPending; [done|]. split; [done|]. destruct Hh. split; eauto.
    + intros b _. apply steady_and; [apply steady_connected|apply respects_any_pending].
  - by intros b l' [_ ->].
Qed.

Lemma safe_RemoveIfNotPending q r F :
  safe N q (Busy r false F connected) (RemoveIfNotPending_steps r) (λ _ l', l' = Free).
Proof.
  apply triple_bind. eapply triple_mono; [apply safe_IsAnyEventPending|].
  intros [] l' ->; [|apply safe_Remove]. exists Free. split; [|done].
  apply (shift_leave _ _ _ false). by intros x _ [? ?].
Qed.

Abbreviation pending_event := (λ x, any_pending x = true).

(** With an event outstanding nothing is removed. *)
Lemma safe_RemoveIfNotPending_held q r :
  safe N q (Busy r true pending_event connected) (RemoveIfNotPending_steps r)
    (λ _ l', l' = Hold r).
Proof.
  eapply (triple_shift _ _ _ _ _ _ (Busy r true pending_event (λ x, connected x ∧ any_pending x = true))).
  { apply shift_weaken; [apply lasting_any_pending| |done].
    apply respects_and; [apply respects_connected|apply respects_any_pending]. }
  apply triple_bind. eapply triple_mono.
  { apply (safe_busy _ _ _ _ _ _ _ _ (λ b, b = true) (λ _ x, connected x ∧ any_pending x = true)).
    - intros w n x _ _. apply wk_IsAnyEventPending.
    - intros busy ex w Hh. pose proof (h_obj _ _ _ _ _ Hh) as (n & x & Hx & Hc & Ha).
      eapply wp_IsAnyEventPending; [done|]. done.
    - intros b _. apply steady_and; [apply steady_connected|apply respects_any_pending]. }
  intros b l' [-> ->]. exists (Hold r). split; [|done]. apply (shift_leave _ _ _ true).
  by intros x _ [? ?].
Qed.

(** ** Handling of the events of connected RPCs *)

Lemma safe_HandleEvent q r e b :
  e ≠ NEW_CONNECTION →
  safe N q
    (Busy r false (λ x, e = READ → unary_request (rpc_type (rpc_handler_info_ x)) = false)
       (connected_not e))
    (HandleEvent_steps e r b) (λ _ l', l' = Free).
Proof.
  intros Hne. set (F x := e = READ → unary_request (rpc_type (rpc_handler_info_ x)) = false).
  assert (lasting F) as HF.
  { intros x x' Hg Hx ->. rewrite (gr_info _ _ Hg). by apply Hx. }
  assert (shift N q (Busy r false F (connected_not e)) (Busy r false F connected)) as Hweak.
  { apply shift_weaken; [done|apply respects_connected|by intros x ? [? _]]. }
  assert (∀ cb body, safe N q (Busy r false F (connected_not e))
    (call_handler_steps r cb body ;; RemoveIfNotPending_steps r) (λ _ l', l' = Free)) as Hcall.
  { intros cb body. apply triple_bind. eapply triple_mono; [apply safe_call_handler|]. intros [] l' ->.
    eapply triple_shift; [exact Hweak|]. apply safe_RemoveIfNotPending. }
  assert (safe N q (Busy r false F (connected_not e)) (HandleWrite_steps r b) (λ _ l', l' = Free))
    as Hwrite.
  { eapply triple_shift; [exact Hweak|]. apply triple_bind.
    eapply triple_mono; [by apply safe_HandleSendQueue|]. intros [] l' ->.
    apply safe_RemoveIfNotPending. }
  destruct e; [done| |done|done|by apply Hcall|].
  - destruct b; [|by apply Hcall].
    apply triple_bind. eapply triple_mono; [apply safe_OnRequest|]. intros [] l' ->.
    eapply triple_post; [by apply safe_RequestStreamingReadIfNeeded|]. intros [] l' ->.
    exists Free. split; [|done]. apply (shift_leave _ _ _ false). intros x HFx [? Hread].
    split; [done|]. unfold any_pending. rewrite Hread by (by apply HFx). by rewrite orb_true_r.
  - eapply triple_shift; [exact Hweak|]. apply safe_RemoveIfNotPending.
Qed.

(** ** Dropping a shared pointer *)

Lemma ginv_shared locs locs' w w' :
  ginv N locs w → core N (held locs') w' →
  (∀ q l, locs' !! q = Some l → l = Free ∨ locs !! q = Some l) →
  (∀ r, r ∉ owned locs' → r ∉ owned locs) → (∀ r, kept r w w') →
  (∀ r n x, heap_ w' !! r = Some (n, x) → r ∉ owned locs → phase w' r x) → weak_home w' →
  (∀ t, t ∈ threads w' → wt_rpc t ∈ rpcs_ w' ∧ wt_rpc t ∈ weak_refs w') →
  ginv N locs' w'.
Proof.
  intros G C' Hlocs Howned K Hph Hhome Hthr. split; try done.
  - intros r n x Hx Hr. split; [by eapply Hph; auto|].
    destruct (k_back _ _ _ (K r) _ _ Hx) as (m & y & Hy & E).
    apply (respects_any_pending true y); [done|]. apply (g_quiet _ _ _ G r m y Hy); auto.
  - intros r n x Hx. destruct (k_back _ _ _ (K r) _ _ Hx) as (m & y & Hy & E).
    apply (gr_reads y), (g_reads _ _ _ G _ _ _ Hy). by apply outline_grows.
  - intros q l Hl. destruct (Hlocs q l Hl) as [->|Hl']; [done|].
    eapply loc_ok_kept; [done|by intros|by apply (g_locs _ _ _ G)].
  - intros q q' l l' r Hl Hl' Ho Ho'. destruct (Hlocs _ _ Hl) as [->|?]; [done|].
    destruct (Hlocs _ _ Hl') as [->|?]; [done|]. by eapply (g_excl _ _ _ G).
Qed.

Lemma free_insert (locs : list Loc) q l q' l' :
  locs !! q = Some l → <[q := Free]> locs !! q' = Some l' → l' = Free ∨ locs !! q' = Some l'.
Proof. intros Hl [(-> & <- & _)|[_ ?]]%list_lookup_insert_Some; auto. Qed.

Lemma free_owned locs q (l : Loc) r :
  locs !! q = Some l → owner l = None → r ∉ owned (<[q := Free]> locs) → r ∉ owned locs.
Proof.
  intros Hl Ho Hr. rewrite elem_of_owned. intros (q' & l' & Hl' & Ho'). apply Hr.
  rewrite (owned_insert _ _ l) by done. right. exists q', l'. split; [|done]. congruence.
Qed.

Lemma kept_recount r n n' x w r' :
  heap_ w !! r = Some (n, x) → kept r' w (upd_heap (insert r (n', x)) w).
Proof.
  intros Hx. split; simpl; try done; [|by left].
  intros m y [[<- [= <- <-]]|[_ Hy]]%lookup_insert_Some; eauto.
Qed.

Lemma safe_release q r :
  safe N q (Hold r) (atom AUseCount (release r)) (λ _ l', l' = Free).
Proof.
  apply safe_atom. intros locs w G Hl _. pose proof (g_core _ _ _ G) as C.
  pose proof (g_locs _ _ _ G _ _ Hl) as Hr. simpl in Hr.
  destruct (c_active _ _ _ C r Hr) as [[n x] Hx].
  pose proof (c_count _ _ _ C _ _ _ Hx) as Hn. rewrite decide_True in Hn by done.
  pose proof (held_pos locs q (Hold r) r Hl eq_refl) as Hpos.
  destruct n as [|[|n]]; [lia..|]. eapply wp_release; [done|]. intros _. exists Free.
  split; [|done]. pose proof (held_insert locs q (Hold r) Free r Hl) as Hh.
  rewrite (holds_1 (Hold r)), (holds_0 Free) in Hh by done.
  eapply (ginv_shared locs); [done| | | | | | |].
  - eapply core_view; [|eapply (core_recount N (held locs) _ w (rpcs_ w) r _ (S n) x C Hx)];
      try done; [|rewrite decide_True by done; lia|lia].
    intros r' Hne. split; [done|]. pose proof (held_insert locs q (Hold r) Free r' Hl) as Hh'.
    rewrite !holds_0 in Hh' by (simpl; congruence). lia.
  - intros q' l'. by apply (free_insert _ _ (Hold r)).
  - intros r'. by apply (free_owned _ _ (Hold r)).
  - intros r'. destruct (kept_recount r (S (S n)) (S n) x w r' Hx). by split.
  - simpl. intros r' m y [[<- [= <- <-]]|[_ Hy]]%lookup_insert_Some Ho;
      by eapply (g_quiet _ _ _ G).
  - intros q' bq r' m y Hq Hin. simpl.
    intros [[<- [= <- <-]]|[_ Hy]]%lookup_insert_Some; by eapply (g_home _ _ _ G).
  - apply G.
Qed.

End thread_turn.
