(* ===== verification/ThreadEvents.v ===== *)
(** * Taking events and accepting connections

    The steps of a turn before and after the handling of an object: taking
    the event, locking a weak pointer, and creating the object that waits for
    the next connection; with them the triple of a whole turn,
    [safe_turn]. *)

From Stdlib Require Import ZArith Lia.
From stdpp Require Import base option list strings gmap.
From S2P Require Import Prelude Resumption Interfaces BlockingQueue Rpc Service ServiceThreads.
From S2P Require Import ServiceInv ServiceLemmas ServiceHandlers ServiceSafety ServiceSteps.
From S2P Require Import ServiceFlow ServiceProtocol ServiceLeak ThreadInv ThreadFrame.
From S2P Require Import ThreadSafety ThreadHandlers ThreadTurn.
Import Event EventDeleter.

Set Default Proof Using "Type".

Section thread_events.
Context `{GrpcStatus, Application, EventQueueSelector} (N : nat) `{!SelectorOk N}.

Implicit Types (q : QueuePtr) (r : RpcPtr).

Abbreviation pending_event := (λ x, any_pending x = true).

(** ** Steps that concern no object *)

Lemma ginv_elsewhere locs q l l' w w' :
  ginv N locs w → locs !! q = Some l → apart (next_ptr w) w w' →
  core N (held (<[q := l']> locs)) w' → weak_home w' → heap_ w' = heap_ w →
  owner l = None → owner l' = None → loc_ok q l' w' → ginv N (<[q := l']> locs) w'.
Proof.
  intros G Hl A C' Hhome Eh Ho Ho' Hok. pose proof (g_core _ _ _ G) as C.
  destruct (c_fresh _ _ _ C (next_ptr w)) as (Hn & _ & _ & _ & Hh & He); [done|].
  eapply (ginv_apart N locs q l l' (next_ptr w) w w'); try done; [|..|by left|by left].
  - intros q' l0 _ Hl0. pose proof (g_locs _ _ _ G _ _ Hl0) as Hok0. split.
    + intros Ho0. destruct (owner_exists _ _ _ _ Hok0 Ho0). congruence.
    + intros ->. destruct Hok0 as [? _]. lia.
  - intros n x. rewrite Eh, Hn. done.
  - right. split; [done|]. intros q' l0 _ Hl0 Hh0. pose proof (held_pos _ _ _ _ Hl0 Hh0). lia.
Qed.

Lemma safe_selector q :
  safe N q Free (atom ASelector event_queue_selector_) (λ q' l', q' < N ∧ l' = Free).
Proof.
  apply safe_atom. intros locs w G Hl _. pose proof (g_core _ _ _ G) as C.
  apply (wp_event_queue_selector N); [apply C|]. intros q' s' Hq' Hs' _. exists Free.
  split; [|done]. apply (ginv_elsewhere locs q Free Free w); try done; [|apply G].
  eapply core_held; [done|done|]. destruct C. by split.
Qed.

(** ** Internal events *)

Lemma safe_lock q r :
  safe N q (WeakRef r) (atom AUseCount (lock r))
    (λ b l', l' = if b then Busy r true pending_event connected else Free).
Proof.
  apply safe_atom. intros locs w G Hl _. pose proof (g_core _ _ _ G) as C.
  destruct (g_locs _ _ _ G _ _ Hl) as [_ Hw].
  destruct (heap_ w !! r) as [[n x]|] eqn:Hx.
  - destruct (Hw n x eq_refl) as [Hq Hc]. pose proof (ginv_active _ _ _ _ _ _ G Hx) as Hr.
    assert (unclaimed locs q r) as Hun.
    { eapply unclaimed_home; [done..|]. left. apply Hc. }
    destruct (g_quiet _ _ _ G r n x Hx) as [_ Hany].
    { rewrite elem_of_owned. intros (q' & l0 & Hl0 & Ho0).
      destruct (decide (q' = q)) as [->|Hne]; [by simplify_eq/=|]. by destruct (Hun q' l0). }
    eapply wp_lock; [done|]. intros _. exists (Busy r true pending_event connected).
    split; [|done]. eapply (ginv_apart N locs q (WeakRef r) _ r w); try done.
    + apply wo_apart. by eapply works_on_insert.
    + apply (core_recount N (held locs) _ w (rpcs_ w) r n (S n) x C Hx); [| |lia|done].
      * intros r' Hne. split; [done|].
        pose proof (held_insert locs q _ (Busy r true pending_event connected) r' Hl) as E.
        rewrite !holds_0 in E by (simpl; congruence). lia.
      * rewrite (c_count _ _ _ C _ _ _ Hx).
        pose proof (held_insert locs q _ (Busy r true pending_event connected) r Hl) as E.
        rewrite (holds_0 (WeakRef r)), holds_1 in E by done. lia.
    + apply (wo_home r w); [by eapply works_on_insert|apply G].
    + simpl. intros m y. rewrite lookup_insert_eq. intros [= <- <-].
      split; [by eapply (g_reads _ _ _ G)|done].
    + by left.
    + by left.
    + by right.
    + split_and!; [apply lasting_any_pending|apply respects_connected|done|].
      exists (S n), x. simpl. rewrite lookup_insert_eq. split_and!; try done. apply Hc.
  - unfold wp, lock. rewrite Hx. intros _. exists Free. split; [|done].
    apply (ginv_elsewhere locs q (WeakRef r) Free w); try done; [|apply G].
    by eapply core_held; [| |apply G].
Qed.

Lemma safe_internal q r :
  safe N q (WeakRef r) (InternalRpcEvent_Handle_steps WRITE_NEEDED r) (λ _ l', l' = Free).
Proof.
  apply triple_bind. eapply triple_mono; [apply safe_lock|]. intros [] l' ->; [|by apply triple_ret].
  apply triple_bind, triple_bind.
  eapply triple_mono; [apply safe_HandleSendQueue, lasting_any_pending|]. intros [] l' ->.
  eapply triple_mono; [apply safe_RemoveIfNotPending_held|]. intros [] l' ->. apply safe_release.
Qed.

(** ** Connections *)

Lemma safe_shutting_down q r ok :
  safe N q (Accepting r ok) (atom (AShuttingDown ok) (gets shutting_down_))
    (λ b l', ok = negb b ∧ l' = if b then Accepting r false
       else Busy r false (λ x, is_pending x DONE = true) connecting).
Proof.
  apply safe_atom. intros locs w G Hl Hok. simpl in Hok. apply wp_gets. intros _.
  pose proof (g_locs _ _ _ G _ _ Hl) as (Hr & Hm & Hs & n & x & Hx & Hq & Hc & Hw & Hf & Hd).
  destruct (shutting_down_ w); simpl in *; subst ok; (eexists; split; [|split; reflexivity]).
  - by rewrite list_insert_id.
  - eapply ginv_relabel; [done..|].
    split_and!; [apply lasting_pending|apply respects_connecting|done|].
    exists n, x. split_and!; try done. apply Hc.
Qed.

Lemma safe_refuse q r :
  safe N q (Accepting r false) (Remove_step r) (λ _ l', l' = Free).
Proof.
  apply safe_atom. intros locs w G Hl _.
  pose proof (g_locs _ _ _ G _ _ Hl) as (Hr & Hm & Hs & n & x & Hx & Hq & Hc & Hw & Hf & Hd).
  eapply wp_mono; [eapply wp_remove_owned; [done..|]|by eauto].
  destruct Hc as (Hnc & _ & Hrd). intros [] He; try congruence; try done. split; [done|].
  by intros Hst%Hs.
Qed.

(** ** The object for the next connection *)

(** The world after a new object was added; one shared pointer to it is in
    the map, the other with the thread. *)
Definition added (x : Rpc) (w : World) : World :=
  upd_rpcs (λ s, {[next_ptr w]} ∪ s) (upd_next_ptr S (upd_heap (insert (next_ptr w) (2, x)) w)).

Lemma core_add ex ex' w x :
  core N ex w → wired (next_ptr w) x → event_queue_ x < N → (∀ e, is_pending x e = false) →
  ex' (next_ptr w) = 1 → (∀ r, r ≠ next_ptr w → ex' r = ex r) → core N ex' (added x w).
Proof.
  intros C Hw Hq Hp He1 He. set (p := next_ptr w) in *.
  destruct (c_fresh _ _ _ C p) as (Hn & Hs & Hm & Hi & Hh & Hex); [done|].
  split; simpl; try (apply C); fold p.
  - intros r Hr. destruct (c_fresh _ _ _ C r) as (? & ? & ? & ? & ? & ?); [lia|].
    rewrite lookup_insert_ne by lia. rewrite He by lia. done.
  - intros r [->%elem_of_singleton|Hr]%elem_of_union; [rewrite lookup_insert_eq; by eexists|].
    destruct (decide (p = r)) as [<-|]; [rewrite lookup_insert_eq; by eexists|].
    rewrite lookup_insert_ne by done. by apply C.
  - intros r m y [[<- [= <- <-]]|[Hne Hy]]%lookup_insert_Some; [done|by eapply C].
  - intros r m y [[<- [= <- <-]]|[Hne Hy]]%lookup_insert_Some.
    + rewrite decide_True by set_solver. unfold holders in *. simpl. lia.
    + rewrite (c_count _ _ _ C _ _ _ Hy), He by done. unfold holders. simpl.
      rewrite (decide_ext (r ∈ {[p]} ∪ rpcs_ w) (r ∈ rpcs_ w)); [done|set_solver].
  - intros r m y [[<- [= <- <-]]|[Hne Hy]]%lookup_insert_Some; [lia|by eapply (c_pos _ _ _ C)].
  - intros r m y e [[<- [= <- <-]]|[Hne Hy]]%lookup_insert_Some Hpe; [set_solver|].
    apply elem_of_union_r. by eapply (c_alive _ _ _ C).
  - intros r m y e [[<- [= <- <-]]|[Hne Hy]]%lookup_insert_Some Hpe; [congruence|].
    by eapply (c_complete _ _ _ C).
  - intros r e q Hqd. destruct (c_queued _ _ _ C _ _ _ Hqd) as (m & y & Hy & ?).
    exists m, y. rewrite lookup_insert_ne by congruence. done.
  - intros r e Hin. rewrite lookup_insert_ne; [by apply C|]. intros <-. by eapply Hi.
Qed.

Lemma Add_exact p n x w :
  heap_ w !! p = Some (n, x) → p ∉ rpcs_ w →
  ActiveRpcs_Add p w =
    Ok tt (upd_heap (insert p (S (S n), x)) (upd_rpcs (λ s, {[p]} ∪ s) w)).
Proof.
  intros Hx Hp. unfold ActiveRpcs_Add, check, get, modify, mbind, M_bind, mret, M_ret.
  rewrite bool_decide_eq_true_2 by done. set (w1 := upd_rpcs _ w).
  assert (heap_ w1 !! p = Some (n, x)) as Hx1 by done. clearbody w1. unfold lock at 1. rewrite Hx1.
  unfold lock. rewrite heap_upd_eq. by rewrite upd_heap_insert_twice.
Qed.

Lemma add_clone_exact ex (x : Rpc) q' w :
  core N ex w →
  add_clone x q' w = Ok (next_ptr w) (added (set_event_queue (λ _, q') (Rpc_new (next_ptr w)
    (method_index_ x) (server_completion_queue_ x) (event_queue_ x) (rpc_handler_info_ x))) w).
Proof.
  intros C. set (p := next_ptr w). set (y := Rpc_new p _ _ _ _).
  assert (p ∉ rpcs_ w) as Hp.
  { intros [? Hy]%(c_active _ _ _ C). destruct (c_fresh _ _ _ C p) as [? _]; [done|]. congruence. }
  transitivity ((SetEventQueue p q' ;; ActiveRpcs_Add p ;; mret p)
    (upd_next_ptr S (upd_heap (insert p (0, y)) w))); [done|].
  clearbody y. unfold mbind, M_bind, SetEventQueue, store.
  change (heap_ (upd_next_ptr S (upd_heap (insert p (0, y)) w))) with (<[p := (0, y)]> (heap_ w)).
  rewrite lookup_insert_eq. rewrite (Add_exact p 0 (set_event_queue (λ _, q') y));
    [|apply heap_upd_eq|done].
  unfold added. fold p. unfold upd_heap, upd_rpcs, upd_next_ptr. simpl.
  by rewrite !insert_insert_eq.
Qed.

Lemma safe_add_clone q x q' :
  q' < N →
  safe N q Free (atom AActiveRpcs (add_clone x q')) (λ p l', l' = Setup p false).
Proof.
  intros Hq'. apply safe_atom. intros locs w G Hl _. pose proof (g_core _ _ _ G) as C.
  unfold wp. rewrite (add_clone_exact _ x q' w C). intros _.
  destruct (Rpc_new_wired (next_ptr w) (method_index_ x) (server_completion_queue_ x)
    (event_queue_ x) (rpc_handler_info_ x)) as (Hw & Hh & _ & Hp).
  set (y0 := Rpc_new _ _ _ _ _) in *. clearbody y0. set (y := set_event_queue (λ _, q') y0).
  assert (∀ e, is_pending y e = false) as Hpy by (intros e; rewrite <- (Hp e); by destruct e).
  exists (Setup (next_ptr w) false). split; [|done]. set (p := next_ptr w) in *.
  destruct (c_fresh _ _ _ C p) as (Hn & Hs & Hm & _ & Hhold & He); [done|].
  assert (heap_ (added y w) !! p = Some (2, y)) as Hy by apply lookup_insert_eq.
  eapply (ginv_apart N locs q Free _ p w (added y w)); try done.
  - split; simpl; [by rewrite delete_insert_eq|lia|set_solver|done|done|done|].
    intros r _ Hmen. exact Hmen.
  - intros q0 l0 _ Hl0. pose proof (g_locs _ _ _ G _ _ Hl0) as Hok0. split.
    + intros Ho0. destruct (owner_exists _ _ _ _ Hok0 Ho0). congruence.
    + intros ->. destruct Hok0 as [? _]. lia.
  - apply (core_add (held locs)); try done.
    + fold p. pose proof (held_insert locs q Free (Setup p false) p Hl) as E.
      rewrite (holds_0 Free), holds_1 in E by done. lia.
    + fold p. intros r Hne. pose proof (held_insert locs q Free (Setup p false) r Hl) as E.
      rewrite !holds_0 in E by (simpl; congruence). lia.
  - intros q0 bq r n z Hq0 Hin. simpl. intros [[<- _]|[_ Hz]]%lookup_insert_Some.
    + destruct Hm. right. eauto.
    + by eapply (g_home _ _ _ G).
  - intros n z Hz. rewrite Hy in Hz. injection Hz as <- <-. split; [|done].
    unfold reads. by rewrite Hpy.
  - left. simpl. set_solver.
  - by left.
  - by right.
  - split_and!; [simpl; set_solver|done|done|]. exists 2, y. done.
Qed.

(** The flag of [e] is set and the call with its tag made. *)
Lemma ginv_arm locs q p b l' n x e w w' :
  ginv N locs w → locs !! q = Some (Setup p b) → heap_ w !! p = Some (n, x) →
  is_pending x e = false → e ≠ WRITE_NEEDED → e ≠ READ → held_by l' = Some p →
  owner l' = None ∨ owner l' = Some p →
  view w' = view (upd_inflight (λ l, l ++ [(p, e)])
    (upd_heap (insert p (n, update_event_member e (set_pending true) x)) w)) →
  (owner l' = None → phase w' p (update_event_member e (set_pending true) x) ∧
     any_pending (update_event_member e (set_pending true) x) = true) →
  loc_ok q l' w' → ginv N (<[q := l']> locs) w'.
Proof.
  intros G Hl Hx Hp Hwn Hr Hh Ho' Hv Hq Hok. set (x' := update_event_member e _ x) in *.
  pose proof (g_core _ _ _ G) as C.
  destruct (g_locs _ _ _ G _ _ Hl) as (Hact & _ & Hst & _).
  unfold view in Hv. injection Hv as E1 E2 E3 E4 E5 E6 E7 E8 E9.
  assert (heap_ w' !! p = Some (n, x')) as Hx' by (rewrite E1; apply lookup_insert_eq).
  pose proof (grows_set_pending e x Hr) as Hg.
  eapply (ginv_apart N locs q (Setup p b) l' p w w'); try done.
  - split; rewrite ?E1, ?E2, ?E3, ?E6, ?E7, ?E8; try done; [by rewrite delete_insert_eq|].
    unfold mentioned. by rewrite E4, E7.
  - by eapply unclaimed_owner.
  - eapply core_held; [done|done|]. eapply core_view; [|eapply (core_arm N _ w p n x x' e)]; try done.
    + unfold view. by rewrite E1, E2, E3, E4, E5, E6, E7, E8, E9.
    + apply event_queue_update_event.
    + apply wired_set_pending. by eapply (c_wired _ _ _ C).
    + by apply is_pending_update_eq.
    + intros e' He'. by apply is_pending_update_ne.
  - assert (weak_home (upd_heap (insert p (n, x')) w)) as Hhome
      by (apply (wo_home p w); [by eapply works_on_insert|apply G]).
    unfold weak_home in *. by rewrite E1, E4.
  - intros m y Hy. rewrite Hx' in Hy. injection Hy as <- <-. split; [|done].
    apply (gr_reads _ _ Hg). by eapply (g_reads _ _ _ G).
  - left. by rewrite E3.
  - by right.
Qed.

Lemma safe_notify q p :
  safe N q (Setup p false) (atom AGrpc (notify_when_done p)) (λ _ l', l' = Setup p true).
Proof.
  apply safe_atom. intros locs w G Hl _.
  pose proof (g_locs _ _ _ G _ _ Hl) as (Hact & Hm & Hst & n & x & Hx & Hh & Hp).
  apply wp_bind. eapply wp_SetRpcEventState; [done|done|].
  apply wp_bind. eapply wp_GetRpcEvent; [apply heap_upd_eq|done|].
  apply wp_modify. intros _. exists (Setup p true). split; [|done].
  eapply (ginv_arm locs q p false _ n x DONE w);
    [done|done|done|exact (Hp DONE)|done|done|done|by right|done|done|].
  split_and!; [done|done|done|].
  exists n, (update_event_member DONE (set_pending true) x). split_and!; [apply lookup_insert_eq|done|].
  intros e. specialize (Hp e). by destruct e.
Qed.

Lemma safe_request q p :
  safe N q (Setup p true) (atom AGrpc (request_call p)) (λ _ l', l' = Hold p).
Proof.
  apply safe_atom. intros locs w G Hl _. pose proof (g_core _ _ _ G) as C.
  pose proof (g_locs _ _ _ G _ _ Hl) as (Hact & Hm & Hst & n & x & Hx & Hh & Hp).
  set (x' := update_event_member NEW_CONNECTION (set_pending true) x).
  assert (wp (streaming_interface p) (λ _ w', w' = upd_heap (insert p (n, x')) w)
    (upd_heap (insert p (n, x')) w)) as Hs.
  { apply wp_bind. eapply wp_deref; [apply heap_upd_eq|].
    destruct (c_wired _ _ _ C _ _ _ Hx) as [Hw%wired_reader _]. simpl.
    destruct (rpc_type _); by apply wp_use_stream. }
  apply wp_bind. eapply wp_SetRpcEventState; [done|done|]. fold x'.
  apply wp_bind. eapply wp_deref; [apply heap_upd_eq|].
  apply wp_bind. eapply wp_mono; [exact Hs|]. intros o w1 ->.
  apply wp_bind. eapply wp_GetRpcEvent; [apply heap_upd_eq|done|].
  apply wp_modify. intros _. exists (Hold p). split; [|done].
  eapply (ginv_arm locs q p true _ n x NEW_CONNECTION w);
    [done|done|done|exact (Hp NEW_CONNECTION)|done|done|done|by left|done| |done].
  intros _. split.
  - unfold phase. simpl. pose proof (Hp READ). pose proof (Hp WRITE). pose proof (Hp FINISH).
    pose proof (Hp DONE). split_and!; done.
  - unfold any_pending. specialize (Hp DONE). unfold is_pending in *. simpl in *. by rewrite Hp.
Qed.

Lemma safe_HandleNewConnection q r ok :
  safe N q (Accepting r ok) (HandleNewConnection_steps r ok) (λ _ l', l' = Free).
Proof.
  apply triple_bind. eapply triple_mono; [apply safe_shutting_down|].
  intros [] l' [-> ->]; [apply safe_refuse|]. cbn [negb].
  apply triple_bind, triple_ret, triple_bind.
  eapply triple_mono; [apply safe_OnConnection, lasting_pending|]. intros [] l' ->.
  apply triple_bind. eapply triple_post.
  { apply (safe_deref _ _ _ _ _ _ _ (λ _, asked)); [done|]. intros x.
    split; [apply respects_asked|by intros y [[? _] _]]. }
  intros x l' ->. exists Free. split.
  { apply (shift_leave _ _ _ false). intros y Hd [? _]. split; [done|].
    unfold any_pending. by rewrite Hd. }
  apply triple_bind. eapply triple_mono; [apply safe_selector|]. intros q' l' [Hq' ->].
  apply triple_bind. eapply triple_mono; [by apply safe_add_clone|]. intros p l' ->.
  apply triple_bind, triple_bind. eapply triple_mono; [apply safe_notify|]. intros [] l' ->.
  eapply triple_mono; [apply safe_request|]. intros [] l' ->. apply safe_release.
Qed.

(** ** Taking an event *)

(** What a thread knows of what it took. *)
Definition taken_loc (t : option Taken) : Loc :=
  match t with
  | None => Free
  | Some (TakenCompletion NEW_CONNECTION r ok) => Accepting r ok
  | Some (TakenCompletion e r _) =>
      Busy r false (λ x, e = READ → unary_request (rpc_type (rpc_handler_info_ x)) = false)
        (connected_not e)
  | Some (TakenInternal _ r) => WeakRef r
  end.

Lemma weak_home_pop w q bq p d :
  weak_home w → event_queues w !! q = Some bq → deque_ bq = p :: d →
  weak_home (upd_event_queues (insert q (mkBlockingQueue (queue_size_ bq) d)) w).
Proof.
  intros Hw Hq Hd q' b r n x Hb Hin Hx. simpl in *.
  apply list_lookup_insert_Some in Hb as [(<- & <- & _)|[_ Hb]]; [|by eapply Hw].
  eapply Hw; [done| |done]. unfold weaks in *. rewrite Hd. simpl in *.
  destruct (weak_in p); [by right|done].
Qed.

Lemma reads_cleared e x : reads x → reads (update_event_member e (set_pending false) x).
Proof. unfold reads. destruct e; simpl; try done. Qed.

(** The object of an event at the head of the queue of a thread that is
    between two turns. *)
Lemma head_unowned locs q r n x w :
  ginv N locs w → locs !! q = Some Free → unclaimed locs q r → heap_ w !! r = Some (n, x) →
  phase w r x ∧ any_pending x = true.
Proof.
  intros G Hl Hun Hx. eapply (g_quiet _ _ _ G); [done|]. rewrite elem_of_owned.
  intros (q' & l0 & Hl0 & Ho0). destruct (decide (q' = q)) as [->|Hne]; [by simplify_eq/=|].
  by destruct (Hun q' l0).
Qed.

Section take.
Context (locs : list Loc) (q : QueuePtr) (w : World) (bq : BlockingQueue UniqueEventPtr)
  (p : UniqueEventPtr) (d : list UniqueEventPtr).
Hypotheses (G : ginv N locs w) (Hl : locs !! q = Some Free)
  (Hq : event_queues w !! q = Some bq) (Hd : deque_ bq = p :: d).

Let popped : World := upd_event_queues (insert q (mkBlockingQueue (queue_size_ bq) d)) w.

Lemma mentioned_popped r : mentioned popped r → mentioned w r.
Proof using Hq Hd. apply mentioned_pop with p; done. Qed.

Lemma ginv_take_internal e r :
  event_ptr p = InternalRpcEvent e r →
  e = WRITE_NEEDED ∧ ginv N (<[q := WeakRef r]> locs) popped.
Proof using G Hl Hq Hd.
  intros Hp. pose proof (g_core _ _ _ G) as C.
  assert (tag_in p = None) as Htag by (unfold tag_in; by rewrite Hp).
  assert (r ∈ weaks bq) as Hin.
  { unfold weaks. rewrite Hd. simpl. unfold weak_in at 1. rewrite Hp. left. }
  assert (mentioned w r) as Hm by (right; eauto).
  assert (r < next_ptr w) as Hlt.
  { destruct (decide (next_ptr w ≤ r)) as [Hle|]; [|lia]. by apply (c_fresh _ _ _ C) in Hle as (_ & _ & ? & _). }
  assert (∀ n x, heap_ w !! r = Some (n, x) → event_queue_ x = q ∧ connected x) as Hobj.
  { intros n x Hx. pose proof (g_home _ _ _ G _ _ _ _ _ Hq Hin Hx) as Hqx. split; [done|].
    destruct (g_quiet _ _ _ G r n x Hx) as [Hph _].
    - rewrite elem_of_owned. intros (q' & l0 & Hl0 & Ho0). pose proof (g_locs _ _ _ G _ _ Hl0) as Hok0.
      destruct l0; simplify_eq/=.
      + destruct Hok0 as (_ & _ & _ & m & y & Hy & Hyq & _).
        assert (event_queue_ y = event_queue_ x) as E by congruence. rewrite E in Hyq.
        subst. by simplify_eq.
      + by destruct Hok0 as (_ & ? & _).
      + by destruct Hok0 as (_ & ? & _).
    - unfold phase in Hph. destruct (is_pending x NEW_CONNECTION) eqn:E; [|by split].
      exfalso. tauto. }
  split.
  - destruct (c_queues _ _ _ C _ _ Hq) as (_ & _ & _ & Hf). rewrite Hd in Hf.
    apply Forall_cons in Hf as [Hi _]. unfold internal_ok in Hi. rewrite Hp in Hi. by destruct Hi.
  - apply (ginv_elsewhere locs q Free _ w); try done.
    + split; try done. intros r' _. apply mentioned_popped.
    + eapply core_held; [done|done|]. by eapply core_pop_internal.
    + eapply weak_home_pop; [apply G|done..].
Qed.

Lemma ginv_take_completion e r n x ev :
  event_ptr p = CompletionEvent r e → heap_ w !! r = Some (n, x) → event_member x e = Some ev →
  ginv N (<[q := taken_loc (Some (TakenCompletion e r (ok ev)))]> locs)
    (upd_heap (insert r (n, update_event_member e (set_pending false) x)) popped).
Proof using G Hl Hq Hd.
  intros Hp Hx Hev. pose proof (g_core _ _ _ G) as C.
  assert (tag_in p = Some (r, e)) as Htag by (unfold tag_in; by rewrite Hp).
  assert (queued w r e q) as Hqd.
  { exists bq. split; [done|]. unfold tags. rewrite Hd. simpl. rewrite Htag. left. }
  destruct (c_queued _ _ _ C _ _ _ Hqd) as (n' & x' & Hx' & Hxq & Hpe & _ & Hst).
  rewrite Hx in Hx'. injection Hx' as <- <-.
  pose proof (ginv_active _ _ _ _ _ _ G Hx) as Hact.
  assert (unclaimed locs q r) as Hun by (eapply unclaimed_home; eauto).
  destruct (head_unowned _ _ _ _ _ _ G Hl Hun Hx) as [Hph Hany].
  set (y := update_event_member e (set_pending false) x).
  set (l' := taken_loc _). set (w' := upd_heap _ popped).
  assert (heap_ w' !! r = Some (n, y)) as Hy by apply lookup_insert_eq.
  assert (owner l' = Some r ∧ held_by l' = None) as [Ho Hh] by (by destruct e).
  eapply (ginv_apart N locs q Free l' r w w'); try done.
  - split; simpl; try done; [by rewrite delete_insert_eq|]. intros r' _. apply mentioned_popped.
  - eapply core_held; [done|by rewrite Hh|]. by eapply core_pop_completion.
  - intros q' b r' m z Hb Hin. simpl. intros [[<- [= <- <-]]|[_ Hz]]%lookup_insert_Some.
    + unfold y. rewrite event_queue_update_event.
      by eapply (weak_home_pop w q bq p d); [apply G|done..].
    + by eapply (weak_home_pop w q bq p d); [apply G|done..].
  - intros m z Hz. rewrite Hy in Hz. injection Hz as <- <-. split; [|congruence].
    apply reads_cleared. by eapply (g_reads _ _ _ G).
  - by left.
  - by left.
  - by right.
  - destruct (decide (e = NEW_CONNECTION)) as [->|Hne].
    + unfold phase in Hph. rewrite Hpe in Hph.
      destruct Hph as (Hhd & Hrd & Hwr & Hfi & Hdo & Hme & Hok).
      injection Hev as <-. split_and!; [done|by intros ?%mentioned_popped|done|].
      exists n, y. split_and!; done.
    + destruct (queued_connected N _ w r e q bq p d n x C Hph Hq Hd Htag Hx Hne) as [Hnc Hhd].
      assert (loc_ok q (Busy r false
        (λ x, e = READ → unary_request (rpc_type (rpc_handler_info_ x)) = false)
        (connected_not e)) w') as Hok; [|by destruct e].
      assert (e ≠ WRITE_NEEDED) as Hwn by (by intros ->).
      assert (is_pending y NEW_CONNECTION = false) as Hncy
        by (unfold y; by rewrite is_pending_update_ne).
      split_and!; [| apply respects_connected_not|done|].
      { intros z z' Hg Hz ->. rewrite (gr_info _ _ Hg). by apply Hz. }
      exists n, y. split_and!; [done|unfold y; by rewrite event_queue_update_event|done| |].
      * intros ->. apply (g_reads _ _ _ G _ _ _ Hx). exact Hpe.
      * split; [split; [done|by destruct e]|by apply is_pending_update_eq].
Qed.

End take.

Lemma safe_take_event q :
  q < N →
  safe N q Free (atom AEventQueue (take_event q))
    (λ t l', l' = taken_loc t ∧
       match t with Some (TakenInternal e _) => e = WRITE_NEEDED | _ => True end).
Proof.
  intros HqN. apply safe_atom. intros locs w G Hl _. pose proof (g_core _ _ _ G) as C.
  rewrite <- (c_len _ _ _ C) in HqN. apply lookup_lt_is_Some in HqN as [bq Hq].
  apply wp_bind. eapply wp_pop_event; [done|]. destruct (deque_ bq) as [|p d] eqn:Hd.
  { apply wp_ret. intros _. exists Free. split; [by rewrite list_insert_id|done]. }
  destruct (event_ptr p) as [r e|e r] eqn:Hp.
  - assert (queued w r e q) as Hqd.
    { exists bq. split; [done|]. unfold tags. rewrite Hd. simpl. unfold tag_in at 1. rewrite Hp. left. }
    destruct (c_queued _ _ _ C _ _ _ Hqd) as (n & x & Hx & _ & Hpe & _).
    destruct (c_wired _ _ _ C _ _ _ Hx) as [(_ & _ & Hmem) _].
    destruct (event_member x e) as [ev|] eqn:Hev; [|by unfold is_pending in Hpe; rewrite Hev in Hpe].
    destruct (Hmem _ _ Hev) as [He Hr].
    apply wp_bind. eapply wp_GetRpcEvent; [done|done|].
    apply wp_bind. eapply wp_SetRpcEventState; [done|by destruct e|]. apply wp_ret. intros _.
    rewrite He, Hr. eexists. split; [|by split]. by eapply ginv_take_completion.
  - apply wp_ret. intros _. destruct (ginv_take_internal locs q w bq p d G Hl Hq Hd e r Hp) as [-> G'].
    eexists. split; [exact G'|done].
Qed.

(** ** The turn *)

Lemma safe_turn q : q < N → safe N q Free (RunEventQueue_turn q) (λ _ l', l' = Free).
Proof.
  intros Hq. apply triple_bind. eapply triple_mono; [by apply safe_take_event|].
  intros [[e r b|e r]|] l' [-> He]; [|subst e; apply safe_internal|by apply triple_ret].
  destruct (decide (e = NEW_CONNECTION)) as [->|Hne]; [apply safe_HandleNewConnection|].
  destruct e; try done; by apply safe_HandleEvent.
Qed.

End thread_events.
