(* ===== verification/ThreadRuns.v ===== *)
(** * Runs of a service with interleaving event queue threads

    The steps of the other threads (completion queue threads, writers,
    [StopServing], other services) keep the invariant whatever the event
    queue threads are doing; with the triple of a turn this gives the safety
    of every interleaving. *)

From Stdlib Require Import ZArith Lia.
From stdpp Require Import base option list strings gmap.
From S2P Require Import Prelude Resumption Interfaces BlockingQueue Rpc Service ServiceThreads.
From S2P Require Import ServiceInv ServiceLemmas ServiceHandlers ServiceSafety ServiceSteps.
From S2P Require Import ServiceFlow ServiceProtocol ServiceOrder ServiceLeak ThreadInv ThreadFrame.
From S2P Require Import ThreadSafety ThreadHandlers ThreadTurn ThreadEvents.
Import Event EventDeleter.

Set Default Proof Using "Type".

Section thread_runs.
Context `{GrpcStatus, Application, EventQueueSelector} (N : nat) `{!SelectorOk N}.

(** [Writer::Finish] looks at the handler once it was stored in the object. *)
Definition span_ok (w : World) (l : Label) : Prop :=
  match l with
  | LWriterStep i => ∀ t n x, threads w !! i = Some t → wt_pc t = AtSpan →
      heap_ w !! wt_rpc t = Some (n, x) → is_Some (handler_ x)
  | _ => True
  end.

(** ** Changes of the shared state by other threads *)

Lemma kept_same w w' r :
  heap_ w' = heap_ w → next_ptr w' = next_ptr w → rpcs_ w' = rpcs_ w → started w' = started w →
  (mentioned w' r → mentioned w r) → kept r w w'.
Proof.
  intros Eh En Er Es Hm. split; rewrite ?Eh, ?En, ?Er, ?Es; try done; eauto.
Qed.

Lemma ginv_view locs w w' : view w = view w' → ginv N locs w → ginv N locs w'.
Proof.
  intros E G. pose proof E as E'. unfold view in E'. injection E' as E1 E2 E3 E4 E5 E6 E7 E8 E9.
  assert (∀ r, mentioned w' r → mentioned w r) as Hm
    by (intros r; unfold mentioned; by rewrite E4, E7).
  eapply (ginv_shared N locs); try done.
  - by eapply core_view; [|apply G].
  - auto.
  - intros r. by apply kept_same; auto.
  - intros r n x Hx Ho. eapply phase_view; [done|]. rewrite <- E1 in Hx. by eapply (g_quiet _ _ _ G).
  - unfold weak_home. rewrite <- E1, <- E4. apply G.
  - rewrite <- E3, <- E7, <- E8. apply G.
Qed.

(** A change that matters to nobody, seen from the core. *)
Lemma ginv_core locs w w' :
  ginv N locs w → core N (held locs) w' → heap_ w' = heap_ w → next_ptr w' = next_ptr w →
  rpcs_ w' = rpcs_ w → started w' = started w → event_queues w' = event_queues w →
  weak_refs w' = weak_refs w →
  (∀ t, t ∈ threads w' → wt_rpc t ∈ rpcs_ w ∧ wt_rpc t ∈ weak_refs w) → ginv N locs w'.
Proof.
  intros G C' Eh En Er Es Eq Ew Hthr.
  assert (∀ r, mentioned w' r ↔ mentioned w r) as Hm by (intros r; unfold mentioned; by rewrite Eq, Ew).
  eapply (ginv_shared N locs); try done; auto.
  - intros r. apply kept_same; try done. apply Hm.
  - intros r n x Hx Ho. rewrite Eh in Hx. apply (phase_mentioned w); [done|apply Hm|].
    by eapply (g_quiet _ _ _ G).
  - unfold weak_home. rewrite Eh, Eq. apply G.
  - by rewrite Er, Ew.
Qed.

(** An object that is being handled does not wait for a connection. *)
Lemma owned_not_listening q l r n x w :
  loc_ok q l w → owner l = Some r → heap_ w !! r = Some (n, x) →
  is_pending x NEW_CONNECTION = false.
Proof.
  destruct l; simpl; intros Hok Ho Hx; simplify_eq.
  - destruct Hok as (_ & _ & _ & m & y & Hy & _ & ? & _). congruence.
  - destruct Hok as (_ & _ & _ & m & y & Hy & _ & [? _] & _). congruence.
  - destruct Hok as (_ & _ & _ & m & y & Hy & _ & Hp). rewrite Hx in Hy. injection Hy as <- <-.
    rewrite Hp. by destruct notified.
Qed.

(** ** Completions *)

Lemma outline_completed e b payload x : outline (completed e b payload x) = outline x.
Proof. unfold completed. by destruct payload, e. Qed.

Lemma wp_completion_threads locs w r e b payload :
  ginv N locs w → env_ok w (LCompletion r e b payload) →
  wp (exec (LCompletion r e b payload)) (λ _ w', ginv N locs w') w.
Proof.
  intros G Henv. pose proof (g_core _ _ _ G) as C.
  destruct (completion_object N _ _ _ _ _ _ C Henv) as (n & x & bq & Hx & Hpe & Hwn & Hbq & Hsz).
  destruct Henv as (Hin & Hdone & _).
  destruct (completed_keeps r e b payload x) as (Hq & Hw & Hp & Hhd).
  destruct (c_wired _ _ _ C _ _ _ Hx) as [Hwx HqN].
  eapply wp_completion_exact; [done..|]. set (w' := after_completion _ _ _ _ _ _ _ _).
  set (b' := bool_decide (e = NEW_CONNECTION) && b) in *.
  assert (b' = true → e = NEW_CONNECTION) as Hb'.
  { intros [He _]%andb_true_iff. by apply bool_decide_eq_true in He. }
  assert (heap_ w' = <[r := (n, completed e b payload x)]> (heap_ w) ∧ next_ptr w' = next_ptr w ∧
    rpcs_ w' = rpcs_ w ∧ weak_refs w' = weak_refs w ∧ threads w' = threads w ∧
    started w' = if b' then {[r]} ∪ started w else started w) as (E1 & E2 & E3 & E4 & E5 & E6).
  { unfold w', after_completion. by destruct b'. }
  assert (∀ q0 bq0 r0, event_queues w' !! q0 = Some bq0 → r0 ∈ weaks bq0 →
    ∃ bq1, event_queues w !! q0 = Some bq1 ∧ r0 ∈ weaks bq1) as Hwk.
  { intros q0 bq0 r0 Hq0 Hr0. assert (event_queues w' = <[event_queue_ x := push_back
      (mkUniqueEventPtr (CompletionEvent r e) DO_NOT_DELETE) bq]> (event_queues w)) as Eq
      by (unfold w', after_completion; by destruct b').
    rewrite Eq in Hq0. apply list_lookup_insert_Some in Hq0 as [(<- & <- & _)|[_ Hq0]]; [|by eauto].
    rewrite weaks_push_back in Hr0. simpl in Hr0. rewrite app_nil_r in Hr0. eauto. }
  eapply (ginv_shared N locs); try done; auto.
  - apply core_completion; auto.
    intros -> e' He'. destruct (g_quiet _ _ _ G r n x Hx) as [Hph _].
    + rewrite elem_of_owned. intros (q' & l0 & Hl0 & Ho0).
      pose proof (owned_not_listening _ _ _ _ _ _ (g_locs _ _ _ G _ _ Hl0) Ho0 Hx). congruence.
    + unfold phase in Hph. rewrite Hpe in Hph.
      destruct Hph as (_ & ? & ? & ? & _). destruct e'; auto; try congruence. done.
  - intros r'. split; [by rewrite E2|by rewrite E3| | |].
    + rewrite E1. intros m y [[<- [= <- <-]]|[_ Hy]]%lookup_insert_Some; [|by eauto].
      exists n, x. split; [done|]. by rewrite outline_completed.
    + rewrite E6. destruct b' eqn:Eb; [|by left]. rewrite elem_of_union, elem_of_singleton.
      intros [->|?]; [right|by left]. exists n, x. by rewrite <- (Hb' eq_refl).
    + unfold mentioned. rewrite E4. intros [?|(q0 & bq0 & Hq0 & Hr0)]; [by left|right].
      destruct (Hwk _ _ _ Hq0 Hr0) as (bq1 & ? & ?). eauto.
  - intros r' m y Hy Ho. eapply phase_completion; try done.
    intros m' y' Hy'. by eapply (g_quiet _ _ _ G).
  - intros q0 bq0 r0 m y Hq0 Hr0. destruct (Hwk _ _ _ Hq0 Hr0) as (bq1 & Hq1 & Hr1).
    rewrite E1. intros [[<- [= <- <-]]|[_ Hy]]%lookup_insert_Some; [|by eapply (g_home _ _ _ G)].
    rewrite Hq. by eapply (g_home _ _ _ G).
  - rewrite E3, E4, E5. apply G.
Qed.

(** ** Writers *)

(** The use count of an object changes and the list of writer calls. *)
Lemma ginv_recount locs w r n n' x l :
  ginv N locs w → heap_ w !! r = Some (n, x) →
  core N (held locs) (upd_threads (λ _, l) (upd_heap (insert r (n', x)) w)) →
  (∀ t, t ∈ l → wt_rpc t ∈ rpcs_ w ∧ wt_rpc t ∈ weak_refs w) →
  ginv N locs (upd_threads (λ _, l) (upd_heap (insert r (n', x)) w)).
Proof.
  intros G Hx C' Hl. eapply (ginv_shared N locs); try done; auto.
  - intros r'. destruct (kept_recount r n n' x w r' Hx). by split.
  - simpl. intros r' m y [[<- [= <- <-]]|[_ Hy]]%lookup_insert_Some Ho;
      by eapply (g_quiet _ _ _ G).
  - intros q bq r' m y Hq Hin. simpl.
    intros [[<- [= <- <-]]|[_ Hy]]%lookup_insert_Some; by eapply (g_home _ _ _ G).
Qed.

Lemma wp_begin_threads locs w r op :
  ginv N locs w → env_ok w (LWriterBegin r op) →
  wp (exec (LWriterBegin r op)) (λ _ w', ginv N locs w') w.
Proof.
  intros G Henv. pose proof (g_core _ _ _ G) as C. apply wp_bind, wp_bind.
  destruct (heap_ w !! r) as [[n x]|] eqn:Hx; [|unfold wp, lock; by rewrite Hx].
  eapply wp_lock; [done|]. apply wp_bind, wp_modify. apply wp_ret, wp_ret.
  pose proof (ginv_active _ _ _ _ _ _ G Hx) as Hact.
  set (t := mkWriterThread r op AtEnqueue).
  apply (ginv_recount locs w r n (S n) x (threads w ++ [t]) G Hx).
  - apply (core_threads N (bump r (held locs))).
    + apply (core_recount N (held locs) _ w (rpcs_ w) r n (S n) x C Hx); [| |lia|done].
      * intros r' Hne. split; [done|]. by rewrite bump_ne.
      * rewrite (c_count _ _ _ C _ _ _ Hx), bump_eq. lia.
    + intros r'. apply (holders_snoc (upd_heap (insert r (S n, x)) w) t r' (held locs)).
  - intros t' [Ht| ->%list_elem_of_singleton]%elem_of_app; [by apply G|done].
Qed.

Lemma ginv_set_pc locs w i t pc :
  ginv N locs w → threads w !! i = Some t →
  ginv N locs (upd_threads (insert i (mkWriterThread (wt_rpc t) (wt_op t) pc)) w).
Proof.
  intros G Hi. pose proof (g_core _ _ _ G) as C. apply (ginv_core locs w); try done.
  - apply (core_threads N (held locs) (held locs) w
      (<[i := mkWriterThread (wt_rpc t) (wt_op t) pc]> (threads w)) C).
    intros r. f_equal. by apply (holders_insert w i t).
  - simpl. intros t' [j Hj]%list_elem_of_lookup.
    apply list_lookup_insert_Some in Hj as [(_ & <- & _)|[_ Hj]]; simpl; apply (g_threads _ _ _ G);
      by eapply list_elem_of_lookup_2.
Qed.

Lemma ginv_return locs w i t n x :
  ginv N locs w → threads w !! i = Some t → heap_ w !! wt_rpc t = Some (n, x) →
  ginv N locs (upd_threads (delete i) (upd_heap (dropped (wt_rpc t) n x)
    (upd_spans (dropped_spans (wt_rpc t) n x) w))).
Proof.
  intros G Hi Hx. pose proof (g_core _ _ _ G) as C.
  assert (t ∈ threads w) as Ht by (by eapply list_elem_of_lookup_2).
  destruct (g_threads _ _ _ G t Ht) as [Hact _].
  pose proof (c_count _ _ _ C _ _ _ Hx) as Hn. rewrite decide_True in Hn by done.
  pose proof (holders_pos w t Ht). destruct n as [|[|n]]; [lia..|].
  eapply ginv_view; [|eapply (ginv_recount locs w (wt_rpc t) _ (S n) x (delete i (threads w)) G Hx)].
  - done.
  - pose proof (core_threads N (held locs) (bump (wt_rpc t) (held locs)) w (delete i (threads w)) C
      (λ r, holders_delete w i t r (held locs) Hi)) as C1.
    eapply core_view; [|eapply (core_recount N _ (held locs) _ (rpcs_ w) (wt_rpc t) _ (S n) x C1 Hx)];
      try done; [| |lia].
    + intros r' Hne. split; [done|]. by rewrite bump_ne.
    + pose proof (c_count _ _ _ C1 _ _ _ Hx) as Hn1. rewrite bump_eq in Hn1. simpl in *. lia.
  - intros t' Ht'. apply (g_threads _ _ _ G). by eapply list_elem_of_delete_inv.
Qed.

Lemma ginv_enqueue locs w r n x it :
  ginv N locs w → heap_ w !! r = Some (n, x) →
  ginv N locs (upd_heap (insert r (n, set_send_queue (λ l, l ++ [it]) x)) w).
Proof.
  intros G Hx. pose proof (g_core _ _ _ G) as C. destruct (keeps_send_queue (λ l, l ++ [it]) r x)
    as (Hq & Hw & Hp). eapply (ginv_shared N locs); try done; auto.
  - eapply core_store; try done; [by eapply ginv_active|].
    apply Hw. by eapply (c_wired _ _ _ C).
  - intros r'. split; simpl; try done; [|by left].
    intros m y [[<- [= <- <-]]|[_ Hy]]%lookup_insert_Some; eauto.
  - simpl. intros r' m y [[<- [= <- <-]]|[_ Hy]]%lookup_insert_Some Ho;
      [|by eapply (g_quiet _ _ _ G)]. by apply (g_quiet _ _ _ G _ _ _ Hx).
  - intros q bq r' m y Hqq Hin. simpl.
    intros [[<- [= <- <-]]|[_ Hy]]%lookup_insert_Some; [|by eapply (g_home _ _ _ G)].
    by apply (g_home _ _ _ G _ _ _ _ _ Hqq Hin Hx).
  - apply G.
Qed.

Lemma ginv_push locs w r :
  ginv N locs w → r ∈ rpcs_ w → r ∈ weak_refs w →
  wp (push_write_needed r r) (λ _ w', ginv N locs w' ∧ threads w' = threads w) w.
Proof.
  intros G Hact Hweak. pose proof (g_core _ _ _ G) as C.
  destruct (c_active _ _ _ C _ Hact) as [[n x] Hx].
  destruct (c_wired _ _ _ C _ _ _ Hx) as [_ Hq]. rewrite <- (c_len _ _ _ C) in Hq.
  apply lookup_lt_is_Some in Hq as [bq Hbq].
  eapply wp_mono; [apply (wp_preserves (works_on r) _ (λ _ w', w' = upd_event_queues
    (insert (event_queue_ x) (push_back (mkUniqueEventPtr (InternalRpcEvent WRITE_NEEDED r) DELETE) bq))
    w)); [apply wk_push_write_needed|]|].
  - apply wp_bind. eapply wp_deref; [done|]. eapply wp_push_event; [done| |done].
    by apply (c_queues _ _ _ C _ _ Hbq).
  - intros [] w' [-> W]. split; [|done]. set (w' := upd_event_queues _ w) in *.
    assert (∀ r', mentioned w' r' → mentioned w r') as Hm.
    { intros r' Hm. destruct (decide (r' = r)) as [->|Hne]; [by left|].
      by apply (a_mentioned _ _ _ (wo_apart _ _ _ W)). }
    eapply (ginv_shared N locs); try done; auto.
    + apply core_push_internal; [done|done|by eapply core_heap_lt].
    + intros r'. apply kept_same; auto.
    + intros r' m y Hy Ho. apply (phase_mentioned w); [done|auto|]. by eapply (g_quiet _ _ _ G).
    + apply W, G.
    + apply G.
Qed.

Lemma wp_step_threads locs w i :
  ginv N locs w → env_ok w (LWriterStep i) → span_ok w (LWriterStep i) →
  wp (exec (LWriterStep i)) (λ _ w', ginv N locs w') w.
Proof.
  intros G Henv Hspan. pose proof (g_core _ _ _ G) as C. apply lookup_lt_is_Some in Henv as [t Hi].
  destruct (g_threads _ _ _ G t) as [Hact Hweak]; [by eapply list_elem_of_lookup_2|].
  destruct (c_active _ _ _ C _ Hact) as [[n x] Hx].
  assert (∀ w' pc, ginv N locs w' → threads w' = threads w →
    wp (set_pc i t pc) (λ _, ginv N locs) w') as Hpc.
  { intros w' pc G' Et. apply wp_modify, ginv_set_pc; [done|by rewrite Et]. }
  apply wp_bind. unfold wp at 1, get. rewrite Hi. destruct (wt_pc t) eqn:Ept.
  - apply wp_bind, wp_bind. eapply wp_store; [done|]. apply wp_modify, wp_bind, wp_modify, Hpc; [|done].
    by eapply ginv_view; [|eapply (ginv_enqueue locs w _ n x)].
  - apply wp_bind, wp_GetWeakPtr; [done|]. by apply Hpc.
  - apply wp_bind. eapply wp_mono; [by apply (ginv_push locs)|]. intros [] w' [G' Et]. by apply Hpc.
  - destruct (Hspan t n x Hi Ept Hx) as [h Hh].
    apply wp_bind. eapply wp_deref; [done|]. rewrite Hh. apply wp_bind.
    destruct (wt_op t); [by apply wp_ret, Hpc..|]. apply wp_modify, Hpc; [|done].
    by eapply ginv_view; [|exact G].
  - apply wp_bind. eapply wp_release; [done|]. apply wp_modify. by apply ginv_return.
Qed.

(** ** All steps *)

Lemma wp_shared_step locs w l :
  ginv N locs w → (∀ q, l ≠ LEvent q) → env_ok w l → span_ok w l →
  wp (exec l) (λ _ w', ginv N locs w') w.
Proof.
  intros G Hl Henv Hspan. destruct l as [r e b payload|q|r op|i| | |c].
  - by apply wp_completion_threads.
  - by destruct (Hl q).
  - by apply wp_begin_threads.
  - by apply wp_step_threads.
  - apply wp_modify. by eapply ginv_view; [|exact G].
  - pose proof (g_core _ _ _ G) as C. apply wp_bind, (wp_event_queue_selector N); [apply C|].
    intros q s' _ Hs'. apply wp_ret. apply (ginv_core locs w); try done; [|apply G].
    destruct C. by split.
  - apply wp_modify. by eapply ginv_view; [|exact G].
Qed.

(** The conditions on a step: an event queue thread finds [shutting_down_] as
    its connection says, and a writer the handler in its place. *)
Definition calm_pre (t : Threaded) (l : TLabel) : Prop :=
  match l with
  | TShared l => span_ok (shared t) l
  | TTurn q => ∀ p a m, turns t !! q = Some p → current q p = Atom a m → access_ok a (shared t)
  end.

(** The state of a service at a moment of a calm run: every thread can go on
    safely. *)
Definition tinv (t : Threaded) : Prop :=
  ∃ locs, ginv N locs (shared t) ∧ length (turns t) = N ∧
    triples (ginv N) access_ok sole_removal False Free locs (turns t).

Lemma tinv_current t locs q p :
  ginv N locs (shared t) → length (turns t) = N → turns t !! q = Some p →
  (∃ l, locs !! q = Some l ∧ safe N q l p (λ _ l', l' = Free)) →
  ∃ l, locs !! q = Some l ∧ safe N q l (current q p) (λ _ l', l' = Free).
Proof.
  intros G Hlen Hp (l & Hl & Hs). exists l. split; [done|]. destruct p as [[]|a m]; [|done].
  destruct Hs as (l' & Hsh & ->). eapply triple_shift; [exact Hsh|]. apply safe_turn.
  rewrite <- Hlen. by eapply lookup_lt_Some.
Qed.

Lemma wp_tstep t l :
  tinv t → tenv_ok t l → calm_pre t l →
  wp (texec l) (λ _ t', sole_removal (shared t) (shared t') → tinv t') t.
Proof.
  intros (locs & G & Hlen & Hturns) Henv Hcalm. unfold wp, texec. destruct l as [l|q].
  - assert (wp (exec l) (λ _ w', ginv N locs w') (shared t)) as Hw.
    { apply wp_shared_step; try done; [|by destruct l]. intros q ->. done. }
    unfold wp in Hw. destruct (exec l (shared t)) as [[] w'|]; [|done]. intros _.
    exists locs. done.
  - simpl in Henv. apply lookup_lt_is_Some in Henv as [p Hp]. rewrite Hp.
    destruct (tinv_current t locs q p G Hlen Hp (Hturns q p Hp)) as (l & Hl & Hs).
    destruct (current q p) as [[]|a m] eqn:Hc; [intros _; by exists locs|].
    specialize (Hs locs (shared t) G Hl (Hcalm p a m Hp Hc)).
    destruct (m (shared t)) as [p' w'|]; [|done]. simpl. intros Hsole.
    destruct (Hs Hsole) as (l' & G' & Hs'). exists (<[q := l']> locs).
    cbn [shared turns]. split_and!; [done|by rewrite length_insert|].
    by eapply triples_insert.
Qed.

End thread_runs.
