(* ===== verification/ThreadFlow.v ===== *)
(** * Send queues under interleaving event queue threads

    The invariant of [ServiceFlow] on every run of the threads, calm or not:
    an event queue thread is between two turns, about to look at a send
    queue, about to announce what its handler enqueued, or has an item in its
    hand that it took off a queue and has not sent yet.  Two threads never
    have items of the same RPC in their hands, because all events of an RPC
    go through one event queue. *)

From Stdlib Require Import ZArith Lia.
From stdpp Require Import base functions option list strings gmap.
From S2P Require Import Prelude Resumption Interfaces BlockingQueue Rpc Service ServiceThreads.
From S2P Require Import ServiceInv ServiceFlow.
Import Event EventDeleter.

Set Default Proof Using "Type".

Section thread_flow.
Context `{GrpcStatus, Application, EventQueueSelector}.

(** ** What a thread has to do *)

(** - [Owes r]: the thread enqueued an item for [r] and is about to push the
      [WRITE_NEEDED] event.
    - [Looks r]: it is about to look at the send queue of [r].
    - [InHand r it]: it took [it] off the send queue of [r].
    - [Reads r]: it is about to ask for the next message of the stream of
      [r]. *)
Inductive Duty :=
  | Idle
  | Owes (r : RpcPtr)
  | Looks (r : RpcPtr)
  | InHand (r : RpcPtr) (it : SendItem)
  | Reads (r : RpcPtr).

Definition attends (d : Duty) : option RpcPtr :=
  match d with
  | Owes r | Looks r | InHand r _ => Some r
  | Idle | Reads _ => None
  end.

Definition in_hand (d : Duty) : option (RpcPtr * SendItem) :=
  match d with InHand r it => Some (r, it) | _ => None end.

Definition hands (ds : list Duty) (r : RpcPtr) : list SendItem := items r (omap in_hand ds).

Definition attended (ds : list Duty) (r : RpcPtr) : Prop :=
  ∃ q d, ds !! q = Some d ∧ attends d = Some r.

(** The object, if it exists, belongs to the event queue [q]. *)
Definition home (q : QueuePtr) (r : RpcPtr) (w : World) : Prop :=
  r < next_ptr w ∧ ∀ n x, heap_ w !! r = Some (n, x) → event_queue_ x = q.

Definition streams (r : RpcPtr) (w : World) : Prop :=
  r < next_ptr w ∧
  ∀ n x, heap_ w !! r = Some (n, x) → unary_request (rpc_type (rpc_handler_info_ x)) = false.

Definition duty_ok (q : QueuePtr) (d : Duty) (w : World) : Prop :=
  match d with
  | Idle | Owes _ => True
  | Looks r | InHand r _ => home q r w
  | Reads r => streams r w
  end.

(** The object an event is about. *)
Definition target (p : UniqueEventPtr) : RpcPtr :=
  match event_ptr p with CompletionEvent r _ | InternalRpcEvent _ r => r end.

(** Every event is in the queue of its object. *)
Record homes (w : World) : Prop := {
  hm_fresh : ∀ r n x, heap_ w !! r = Some (n, x) → r < next_ptr w;
  hm_queues : ∀ q bq p, event_queues w !! q = Some bq → p ∈ deque_ bq → home q (target p) w
}.

Record tflow (ds : list Duty) (w : World) : Prop := {
  tf_flow : flow_among (hand := hands ds) (others := attended ds) None w;
  tf_homes : homes w;
  tf_duties : ∀ q d, ds !! q = Some d → duty_ok q d w
}.

(** ** Hands *)

Lemma items_nil r l : (∀ it, (r, it) ∉ l) → items r l = [].
Proof. intros Hl. apply elem_of_nil_inv. intros it Hit%items_elem. by apply (Hl it). Qed.

Lemma items_app r l l' : items r (l ++ l') = items r l ++ items r l'.
Proof. apply omap_app. Qed.

Definition holds_item (d : Duty) (r : RpcPtr) : Prop := ∃ it, in_hand d = Some (r, it).

Lemma hands_nil ds r : (∀ q d, ds !! q = Some d → ¬ holds_item d r) → hands ds r = [].
Proof.
  intros Hd. apply items_nil. intros it (d & [q Hq]%list_elem_of_lookup & Hi)%list_elem_of_omap.
  apply (Hd q d Hq). by exists it.
Qed.

Lemma hands_insert ds q d d' r :
  ds !! q = Some d →
  hands (<[q := d']> ds) r =
    hands (take q ds) r ++ items r (option_list (in_hand d')) ++ hands (drop (S q) ds) r.
Proof.
  intros Hq. unfold hands. rewrite insert_take_drop by (by eapply lookup_lt_Some).
  rewrite omap_app, items_app. f_equal. simpl. destruct (in_hand d') as [t|]; [|done].
  unfold items. simpl. by destruct (only r t).
Qed.

Lemma hands_same ds q d d' r :
  ds !! q = Some d → ¬ holds_item d r → ¬ holds_item d' r →
  hands (<[q := d']> ds) r = hands ds r.
Proof.
  intros Hq Hd Hd'. rewrite <- (list_insert_id ds q d Hq) at 2.
  rewrite !(hands_insert ds q d) by done. f_equal. f_equal.
  assert (∀ d, ¬ holds_item d r → items r (option_list (in_hand d)) = []) as E.
  { intros d0 Hd0. apply items_nil. intros it Hit. apply Hd0. exists it.
    destruct (in_hand d0); set_solver. }
  by rewrite !E.
Qed.

(** At most the thread [q] has an item of [r]. *)
Definition unheld (ds : list Duty) (q : QueuePtr) (r : RpcPtr) : Prop :=
  ∀ q' d, q' ≠ q → ds !! q' = Some d → ¬ holds_item d r.

Lemma hands_only ds q d d' r :
  ds !! q = Some d → unheld ds q r →
  hands (<[q := d']> ds) r = items r (option_list (in_hand d')).
Proof.
  intros Hq Hun. rewrite (hands_insert ds q d) by done.
  rewrite (hands_nil (take q ds)), (hands_nil (drop (S q) ds)); [by rewrite app_nil_r|..].
  - intros q' d0. rewrite lookup_drop. apply Hun. lia.
  - intros q' d0 [? ?]%lookup_take_Some. eapply Hun; [|done]. lia.
Qed.

Lemma items_one r it : items r [(r, it)] = [it].
Proof. unfold items, only. simpl. by rewrite decide_True. Qed.

(** What [r] has in hands is what its thread has. *)
Lemma hands_of ds q d r :
  ds !! q = Some d → unheld ds q r →
  hands ds r = match d with InHand r' it => if decide (r' = r) then [it] else [] | _ => [] end.
Proof.
  intros Hd Hun. rewrite <- (list_insert_id ds q d Hd), (hands_only ds q d) by done.
  destruct d as [| | |r' it|]; try done. simpl. case_decide; [subst; apply items_one|].
  unfold items, only. simpl. by rewrite decide_False.
Qed.

Lemma home_unheld ds q r n x w :
  tflow ds w → home q r w → heap_ w !! r = Some (n, x) → unheld ds q r.
Proof.
  intros T [_ Hq] Hx q' d Hne Hd [it Hi]. pose proof (tf_duties _ _ T _ _ Hd) as Hok.
  destruct d; simplify_eq/=. destruct Hok as [_ Hq']. specialize (Hq _ _ Hx).
  specialize (Hq' _ _ Hx). congruence.
Qed.

(** ** Attention *)

Lemma attended_insert ds q d d' r :
  ds !! q = Some d →
  attended (<[q := d']> ds) r ↔ attends d' = Some r ∨ attended (<[q := Idle]> ds) r.
Proof.
  intros Hq. assert (q < length ds) by (by eapply lookup_lt_Some). split.
  - intros (q' & d0 & [(-> & <- & _)|[Hne Hd0]]%list_lookup_insert_Some & Ha); [by left|right].
    exists q', d0. by rewrite list_lookup_insert_ne.
  - intros [Ha|(q' & d0 & [(-> & <- & _)|[Hne Hd0]]%list_lookup_insert_Some & Ha)]; [|done|].
    + exists q, d'. by rewrite list_lookup_insert_eq.
    + exists q', d0. by rewrite list_lookup_insert_ne.
Qed.

(** The state seen by the thread [q], and back. *)
Lemma tflow_own ds q d w :
  tflow ds w → ds !! q = Some d →
  flow_among (hand := hands ds) (others := attended (<[q := Idle]> ds)) (attends d) w.
Proof.
  intros T Hq. eapply flow_weaken; [done| |apply T]. intros r [?|Ha]; [done|].
  rewrite <- (list_insert_id ds q d Hq) in Ha. by apply (attended_insert ds q d d) in Ha.
Qed.

Lemma tflow_update ds q d d' (hand : RpcPtr → list SendItem) w w' :
  tflow ds w → ds !! q = Some d → (∀ q r, home q r w → home q r w') →
  (∀ r, streams r w → streams r w') → homes w' → duty_ok q d' w' →
  (∀ r, hands (<[q := d']> ds) r = hand r) →
  flow_among (hand := hand) (others := attended (<[q := Idle]> ds)) (attends d') w' →
  tflow (<[q := d']> ds) w'.
Proof.
  intros T Hq Hh Hs Hw' Hd' Hha F. split; [|done|].
  - eapply flow_weaken; [done| |exact F]. intros r Ha. right. by apply (attended_insert ds q d d').
  - intros q0 d0 [(-> & <- & _)|[Hne Hd0]]%list_lookup_insert_Some; [done|].
    pose proof (tf_duties _ _ T _ _ Hd0) as Hok. destruct d0; simpl in *; auto.
Qed.

(** ** Steps leave objects in their queues *)

Record homely (w w' : World) : Prop := {
  ho_home : ∀ q r, home q r w → home q r w';
  ho_streams : ∀ r, streams r w → streams r w';
  ho_homes : homes w → homes w'
}.

#[global] Instance homely_preorder : PreOrder homely.
Proof. split; [by split|]. intros w1 w2 w3 [? ? ?] [? ? ?]. split; auto. Qed.

(** The objects of [w'] that are not new are objects of [w]. *)
Lemma homely_intro w w' :
  next_ptr w ≤ next_ptr w' →
  (∀ r n' x', r < next_ptr w → heap_ w' !! r = Some (n', x') → ∃ n x,
     heap_ w !! r = Some (n, x) ∧ event_queue_ x' = event_queue_ x ∧
     rpc_handler_info_ x' = rpc_handler_info_ x) →
  (∀ r n' x', heap_ w' !! r = Some (n', x') → r < next_ptr w' ∨ ∃ v, heap_ w !! r = Some v) →
  (homes w → ∀ q bq p, event_queues w' !! q = Some bq → p ∈ deque_ bq → home q (target p) w) →
  homely w w'.
Proof.
  intros Hn Hobj Hnew Hq.
  assert (∀ q r, home q r w → home q r w') as Hhome.
  { intros q r [Hr Hx]. split; [lia|]. intros n' x' Hx'.
    destruct (Hobj r n' x' Hr Hx') as (n & x & Hx0 & -> & _). by eapply Hx. }
  split; [done| |].
  - intros r [Hr Hx]. split; [lia|]. intros n' x' Hx'.
    destruct (Hobj r n' x' Hr Hx') as (n & x & Hx0 & _ & ->). by eapply Hx.
  - intros Hw. split; [|eauto]. intros r n x Hx. destruct (Hnew r n x Hx) as [?|[[m y] Hy]]; [done|].
    pose proof (hm_fresh _ Hw _ _ _ Hy). lia.
Qed.

Lemma homely_same w w' :
  heap_ w' = heap_ w → next_ptr w' = next_ptr w → event_queues w' = event_queues w → homely w w'.
Proof.
  intros Eh En Eq. apply homely_intro; rewrite ?Eh, ?En, ?Eq; try done; eauto.
  intros Hw q bq p. by apply (hm_queues _ Hw).
Qed.

Lemma homely_insert r n n' x x' w :
  heap_ w !! r = Some (n, x) → event_queue_ x' = event_queue_ x →
  rpc_handler_info_ x' = rpc_handler_info_ x → homely w (upd_heap (insert r (n', x')) w).
Proof.
  intros Hx Hq Hi. apply homely_intro; simpl; [done|..].
  - intros r0 m y _ [[<- [= <- <-]]|[_ Hy]]%lookup_insert_Some; eauto 10.
  - intros r0 m y [[<- [= <- <-]]|[_ Hy]]%lookup_insert_Some; eauto.
  - intros Hw q bq p. by apply (hm_queues _ Hw).
Qed.

Lemma ho_store p f :
  (∀ x, event_queue_ (f x) = event_queue_ x ∧ rpc_handler_info_ (f x) = rpc_handler_info_ x) →
  preserves homely (store p f).
Proof.
  intros Hf w. unfold wlp, store. destruct (heap_ w !! p) as [[n x]|] eqn:Hx; [|done].
  destruct (Hf x). by eapply homely_insert.
Qed.
Lemma ho_deref p : preserves homely (deref p).
Proof. intros w. unfold wlp, deref. repeat case_match; simplify_eq; try done; reflexivity. Qed.
Lemma ho_lock p : preserves homely (lock p).
Proof.
  intros w. unfold wlp, lock. destruct (heap_ w !! p) as [[n x]|] eqn:Hx; [|reflexivity].
  by eapply homely_insert.
Qed.
Lemma ho_release p : preserves homely (release p).
Proof.
  intros w. unfold wlp, release.
  assert (∀ f, homely w (upd_heap (delete p) (upd_spans f w))) as Hd.
  { intros f. apply homely_intro; simpl; [done|..].
    - intros r m y _ [_ Hy]%lookup_delete_Some. eauto.
    - intros r m y [_ Hy]%lookup_delete_Some. eauto.
    - intros Hw q bq e. by apply (hm_queues _ Hw). }
  destruct (heap_ w !! p) as [[[|[|n]] x]|] eqn:Hx; try done. by eapply homely_insert.
Qed.
Lemma ho_selector : preserves homely event_queue_selector_.
Proof.
  intros w. unfold wlp, event_queue_selector_. destruct (sel_next _); [|done].
  by apply homely_same.
Qed.

(** Events are pushed to the queue of their object. *)
Lemma ho_push r e :
  target e = r → preserves homely (x ← deref r; push_event (event_queue_ x) e).
Proof.
  intros He w. unfold wlp, push_event, deref, mbind, M_bind.
  destruct (heap_ w !! r) as [[n x]|] eqn:Hx; [|done].
  destruct (event_queues w !! event_queue_ x) as [bq|] eqn:Hq; [|done].
  unfold Push. destruct (QueueNotFullCondition bq); [|done].
  apply homely_intro; simpl; [done|by eauto 10|by eauto|].
  intros Hw q b p [(<- & <- & _)|[_ Hb]]%list_lookup_insert_Some; [|by apply (hm_queues _ Hw)].
  simpl. intros [Hin| ->%list_elem_of_singleton]%elem_of_app; [by eapply (hm_queues _ Hw)|].
  rewrite He. split; [by eapply (hm_fresh _ Hw)|]. intros m y Hy. congruence.
Qed.
Lemma ho_push_write_needed r : preserves homely (push_write_needed r r).
Proof. by apply ho_push. Qed.
Lemma ho_PushToEventQueue r e : preserves homely (PushToEventQueue r e).
Proof. by apply ho_push. Qed.

#[local] Hint Resolve ho_deref ho_lock ho_release ho_selector ho_push_write_needed
  ho_PushToEventQueue : preserves.
#[local] Hint Extern 1 (preserves homely (modify _)) =>
  apply preserves_modify; intros ?; apply homely_same; reflexivity : preserves.
#[local] Hint Extern 1 (preserves homely (store _ (update_event_member ?e _))) =>
  apply ho_store; intros ?; destruct e; done : preserves.
#[local] Hint Extern 2 (preserves homely (store _ _)) => apply ho_store; intros ?; done : preserves.

Lemma ho_GetRpcEvent this e : preserves homely (GetRpcEvent this e).
Proof. unfold GetRpcEvent. preserves_tac. Qed.
#[local] Hint Resolve ho_GetRpcEvent : preserves.
Lemma ho_SetRpcEventState this e b : preserves homely (SetRpcEventState this e b).
Proof. unfold SetRpcEventState. preserves_tac. Qed.
Lemma ho_IsRpcEventPending this e : preserves homely (IsRpcEventPending this e).
Proof. unfold IsRpcEventPending, GetRpcEventState. preserves_tac. Qed.
Lemma ho_grpc_call c : preserves homely (grpc_call c).
Proof. unfold grpc_call. preserves_tac. Qed.
Lemma ho_use_stream b o : preserves homely (use_stream b o).
Proof. unfold use_stream. preserves_tac. Qed.
Lemma ho_GetWeakPtr this : preserves homely (ActiveRpcs_GetWeakPtr this).
Proof. unfold ActiveRpcs_GetWeakPtr. preserves_tac. Qed.
#[local] Hint Resolve ho_SetRpcEventState ho_IsRpcEventPending ho_grpc_call ho_use_stream
  ho_GetWeakPtr : preserves.
Lemma ho_EnqueueMessage this it : preserves homely (EnqueueMessage this it).
Proof. unfold EnqueueMessage. preserves_tac. Qed.
Lemma ho_pop_send_item this : preserves homely (pop_send_item this).
Proof. unfold pop_send_item. preserves_tac. Qed.
Lemma ho_PerformFinish this m s : preserves homely (PerformFinish this m s).
Proof. unfold PerformFinish, SendUnaryFinish. preserves_tac. Qed.
Lemma ho_PerformWrite this m s : preserves homely (PerformWrite this m s).
Proof. unfold PerformWrite, async_writer_interface. preserves_tac. Qed.
#[local] Hint Resolve ho_EnqueueMessage ho_pop_send_item ho_PerformFinish ho_PerformWrite
  : preserves.

(** The object [add_clone] makes is new. *)
Lemma ho_add_clone x q : preserves homely (add_clone x q).
Proof.
  intros w. set (p := next_ptr w).
  assert (wlp (add_clone x q) (λ _ w', ∃ v, heap_ w' = <[p := v]> (heap_ w) ∧
    next_ptr w' = S p ∧ event_queues w' = event_queues w) w) as Hw.
  { unfold wlp, add_clone, make_unique_Rpc, SetEventQueue, store, ActiveRpcs_Add, lock, check,
      modify, get, mret, M_ret, mbind, M_bind. simpl. fold p.
    rewrite lookup_insert_eq. simpl. destruct (bool_decide _); [|done]. simpl.
    do 2 (rewrite lookup_insert_eq; simpl). rewrite !insert_insert_eq. eauto. }
  eapply wlp_mono; [exact Hw|]. intros p' w' (v & Eh & En & Eq).
  apply homely_intro; rewrite ?Eh, ?En, ?Eq; [unfold p; lia|..].
  - intros r m y Hr Hy. rewrite lookup_insert_ne in Hy by (unfold p; lia). eauto.
  - intros r m y [[<- _]|[_ Hy]]%lookup_insert_Some; [left; lia|eauto].
  - intros Hh q' bq e. by apply (hm_queues _ Hh).
Qed.

Lemma ho_exec l : (∀ q, l ≠ LEvent q) → preserves homely (exec l).
Proof.
  intros Hl. destruct l as [r e b payload|q|r op|i| | |c]; [|by destruct (Hl q)|..].
  - unfold exec, grpc_completes, RunCompletionQueue_body.
    apply preserves_bind; [apply _| |intros _; preserves_tac].
    apply preserves_bind; [apply _| |intros _; preserves_tac].
    apply preserves_modify. intros w. apply homely_same; by destruct (_ && _).
  - unfold exec, Writer_begin. preserves_tac.
  - unfold exec, Writer_step, set_pc, log_written, log_span. preserves_tac.
  - unfold exec, StopServing. preserves_tac.
  - unfold exec. preserves_tac.
  - unfold exec. preserves_tac.
Qed.

(** ** Triples *)

#[local] Abbreviation tidy :=
  (triple (L := Access) tflow (λ _ _, True) (λ _ _, True) True).

Lemma tidy_atom {A} q d a (m : M World A) (Q : A → Duty → Prop) :
  (∀ ds w, tflow ds w → ds !! q = Some d →
     wlp m (λ b w', ∃ d', tflow (<[q := d']> ds) w' ∧ Q b d') w) →
  tidy q d (atom a m) Q.
Proof.
  intros Hm. apply triple_atom. intros ds w T Hd _. specialize (Hm ds w T Hd). unfold wlp in Hm.
  by destruct (m w).
Qed.

(** A step that takes nothing into its hand. *)
Lemma tidy_step {A} q d a (m : M World A) (Q : A → Duty → Prop) :
  preserves homely m → in_hand d = None →
  (∀ hand others w, homes w → duty_ok q d w →
     flow_among (hand := hand) (others := others) (attends d) w →
     wlp m (λ b w', ∃ d', in_hand d' = None ∧ duty_ok q d' w' ∧
       flow_among (hand := hand) (others := others) (attends d') w' ∧ Q b d') w) →
  tidy q d (atom a m) Q.
Proof.
  intros Hho Hi Hm. apply tidy_atom. intros ds w T Hd.
  eapply wlp_mono; [apply (wlp_preserves homely); [done|];
    exact (Hm _ _ w (tf_homes _ _ T) (tf_duties _ _ T _ _ Hd) (tflow_own _ _ _ _ T Hd))|].
  intros b w' [(d' & Hi' & Hok & F & HQ) [H1' H2' H3']].
  exists d'. split; [|done]. eapply tflow_update; [exact T|exact Hd|done..|apply H3', T|done| |exact F].
  intros r. apply (hands_same ds q d); [done|..]; intros [it ?]; congruence.
Qed.

(** A step that changes nothing about sending. *)
Lemma tidy_same {A} q d a (m : M World A) :
  preserves homely m →
  (∀ hand others, preserves (keeps_flow (hand := hand) (others := others) (attends d)) m) →
  tidy q d (atom a m) (λ _ d', d' = d).
Proof.
  intros Hho Hk. apply tidy_atom. intros ds w T Hd.
  pose proof (tf_duties _ _ T _ _ Hd) as Hok. pose proof (tflow_own _ _ _ _ T Hd) as F.
  eapply wlp_mono; [apply (wlp_preserves homely); [done|apply Hk]|].
  intros b w' [HF [H1' H2' H3']]. exists d. split; [|done].
  eapply tflow_update; [exact T|exact Hd|done..|apply H3', T| | |apply HF, F].
  - destruct d; simpl in *; auto.
  - intros r. by rewrite list_insert_id.
Qed.

(** *** What keeps the flow *)

#[local] Hint Resolve kf_deref kf_lock kf_release kf_selector kf_make_unique kf_GetRpcEvent
  kf_use_stream kf_GetWeakPtr kf_set_flag kf_RemoveIfNotPending kf_Remove ks_handler ks_request
  ks_event_queue ks_ok : preserves.
#[local] Hint Extern 1 (preserves (keeps_flow _) (modify _)) =>
  apply kf_modify; intros ?; reflexivity : preserves.
#[local] Hint Extern 1 (preserves (keeps_flow _) (grpc_call _)) =>
  apply kf_grpc_call; done : preserves.
#[local] Hint Extern 1 (preserves (keeps_flow _) (store _ _)) =>
  apply kf_store; auto with preserves : preserves.
#[local] Hint Extern 1 (preserves (keeps_flow _) (SetRpcEventState _ _ _)) =>
  apply kf_set_flag; done : preserves.

Lemma tidy_deref q d a r : tidy q d (atom a (deref r)) (λ _ d', d' = d).
Proof. apply tidy_same; [preserves_tac|intros hand others; preserves_tac]. Qed.

Lemma tidy_enqueue_and_push q r it :
  (is_Some (msg it) → status it = Status_OK) →
  tidy q Idle
    (atom ASendQueue (EnqueueMessage r it) ;;
     weak ← atom AActiveRpcs (ActiveRpcs_GetWeakPtr r);
     atom AEventQueue (push_write_needed r weak))
    (λ _ d', d' = Idle).
Proof.
  intros Hit. apply triple_bind. eapply (triple_mono _ _ _ _ _ _ _ (λ _ d', d' = Owes r)).
  { apply tidy_step; [preserves_tac|done|]. intros hand others w _ _ F.
    eapply wlp_mono; [eapply (wlp_EnqueueMessage (hand := hand) (others := others)); done|].
    intros [] w' F'. by exists (Owes r). }
  intros [] d' ->. apply triple_bind.
  eapply (triple_mono _ _ _ _ _ _ _ (λ weak d', weak = r ∧ d' = Owes r)).
  { apply tidy_step; [preserves_tac|done|]. intros hand others w _ _ F.
    unfold ActiveRpcs_GetWeakPtr. apply wlp_bind, wlp_intro. intros w1 w2 [= <- <-].
    apply wlp_bind, wlp_check. intros _. apply wlp_ret. by exists (Owes r). }
  intros weak d' [-> ->]. apply tidy_step; [preserves_tac|done|]. intros hand others w _ _ F.
  eapply wlp_mono; [eapply (wlp_push_write_needed (hand := hand) (others := others)); done|].
  intros [] w' F'. by exists Idle.
Qed.

Lemma tidy_run_action q r a : tidy q Idle (run_action_steps r a) (λ _ d', d' = Idle).
Proof.
  destruct a; [by apply tidy_enqueue_and_push|..].
  - apply triple_bind. eapply triple_mono; [apply tidy_enqueue_and_push; by intros []|].
    intros [] d' ->. apply tidy_same; unfold log_span; [preserves_tac|intros; preserves_tac].
  - apply tidy_same; unfold RpcHandler_GetWriter; [preserves_tac|intros; preserves_tac].
Qed.

Lemma tidy_call_handler q r cb body :
  tidy q Idle (call_handler_steps r cb body) (λ _ d', d' = Idle).
Proof.
  apply triple_bind. eapply triple_mono.
  { apply tidy_same; unfold call_body, log_callback; [preserves_tac|intros; preserves_tac]. }
  intros acts d' ->. apply triple_for_all. intros a. apply tidy_run_action.
Qed.

Lemma tidy_OnRequest q r : tidy q Idle (OnRequest_steps r) (λ _ d', d' = Idle).
Proof.
  apply triple_bind. eapply triple_mono; [apply tidy_deref|]. intros x d' ->.
  destruct (request_ x); [apply tidy_call_handler|]. by apply tidy_atom.
Qed.

(** The type of an RPC is fixed, so that it can be read before the flag of the
    read is set. *)
Lemma tidy_RequestStreamingReadIfNeeded q r :
  tidy q Idle (RequestStreamingReadIfNeeded_steps r) (λ _ d', d' = Idle).
Proof.
  apply triple_bind. eapply (triple_mono _ _ _ _ _ _ _ (λ x d',
    d' = if unary_request (rpc_type (rpc_handler_info_ x)) then Idle else Reads r)).
  { apply tidy_step; [preserves_tac|done|]. intros hand others w Hw _ F.
    unfold wlp, deref. destruct (heap_ w !! r) as [[n x]|] eqn:Hx; [|done].
    eexists. split_and!; [..|done]; destruct (unary_request _) eqn:Hu; try done.
    split; [by eapply (hm_fresh _ Hw)|]. intros m y Hy. congruence. }
  intros x d' ->.
  assert (tidy q Idle (OnRequest_steps r ;; OnReadsDone_steps r) (λ _ d', d' = Idle)) as Hu.
  { apply triple_bind. eapply triple_mono; [apply tidy_OnRequest|]. intros [] d' ->.
    apply tidy_call_handler. }
  assert (tidy q (Reads r) (atom AGrpc (request_read r)) (λ _ d', d' = Idle)) as Hs.
  { apply tidy_step; [unfold request_read, async_reader_interface; preserves_tac|done|].
    intros hand others w _ [_ Hst] F. apply wlp_bind.
    destruct (heap_ w !! r) as [[n y]|] eqn:Hy;
      [|unfold wlp, SetRpcEventState, GetRpcEvent, deref, mbind, M_bind; by rewrite Hy].
    eapply wlp_SetRpcEventState; [done|].
    assert (preserves (keeps_flow (hand := hand) (others := others) None)
      (async_reader_interface r ;; GetRpcEvent r READ ;; grpc_call (Read r))) as Hk
      by (unfold async_reader_interface; preserves_tac).
    eapply wlp_mono; [apply Hk|]. intros [] w' Hk'. exists Idle. split_and!; [done..| |done].
    apply Hk', flow_read_flag; [done|done|by eapply Hst]. }
  destruct (rpc_type _); done.
Qed.

Lemma tidy_OnConnection q r : tidy q Idle (OnConnection_steps r) (λ _ d', d' = Idle).
Proof.
  apply triple_bind. eapply triple_mono; [apply tidy_deref|]. intros x d' ->. apply triple_bind.
  eapply (triple_mono _ _ _ _ _ _ _ (λ _ d', d' = Idle));
    [|intros [] d' ->; apply tidy_RequestStreamingReadIfNeeded].
  destruct (handler_ x); [by apply triple_ret|]. apply triple_bind, triple_bind. eapply triple_mono.
  { apply tidy_same; unfold factory_body, log_callback, log_span; [preserves_tac|intros; preserves_tac]. }
  intros [hd acts] d' ->. apply triple_bind. eapply triple_mono.
  { apply triple_for_all. intros a. apply tidy_run_action. }
  intros [] d' ->. apply triple_ret. apply tidy_same; [preserves_tac|intros; preserves_tac].
Qed.

(** *** Sending *)

Lemma tidy_pop_send_item q r :
  tidy q (Looks r) (atom ASendQueue (pop_send_item r))
    (λ popped d', d' = match popped with Some it => InHand r it | None => Idle end).
Proof.
  apply tidy_atom. intros ds w T Hd. pose proof (tf_duties _ _ T _ _ Hd) as Hhome.
  pose proof (tflow_own _ _ _ _ T Hd) as F.
  destruct (heap_ w !! r) as [[n x]|] eqn:Hx;
    [|unfold wlp, pop_send_item, deref, mbind, M_bind; by rewrite Hx].
  pose proof (home_unheld _ _ _ _ _ _ T Hhome Hx) as Hun.
  pose proof (hands_of _ _ _ _ Hd Hun) as Hha.
  eapply wlp_mono; [apply (wlp_preserves homely);
    [preserves_tac|by eapply (wlp_pop_send_item (hand := hands ds))]|].
  intros popped w' [F' [H1' H2' H3']]. eexists. split; [|done].
  destruct popped as [it|]; (eapply tflow_update; [exact T|exact Hd|done..|apply H3', T| | |exact F']).
  - by apply H1'.
  - intros r'. destruct (decide (r = r')) as [<-|Hne].
    + rewrite fn_lookup_insert, (hands_only ds q (Looks r)) by done. apply items_one.
    + rewrite fn_lookup_insert_ne by done. apply (hands_same ds q (Looks r)); [done|..];
        intros [? ?]; simplify_eq/=.
  - done.
  - intros r'. apply (hands_same ds q (Looks r)); [done|..]; intros [? ?]; simplify_eq/=.
Qed.

Lemma tidy_performs q r it (b : bool) :
  tidy q (InHand r it) (atom AGrpc (if b then PerformFinish r (msg it) (status it)
    else PerformWrite r (msg it) (status it))) (λ _ d', d' = Idle).
Proof.
  apply tidy_atom. intros ds w T Hd. pose proof (tf_duties _ _ T _ _ Hd) as Hhome.
  pose proof (tflow_own _ _ _ _ T Hd) as F.
  destruct (heap_ w !! r) as [[n x]|] eqn:Hx;
    [|destruct b; unfold wlp, PerformFinish, PerformWrite, SetRpcEventState, GetRpcEvent, deref,
        mbind, M_bind; by rewrite Hx].
  pose proof (home_unheld _ _ _ _ _ _ T Hhome Hx) as Hun.
  pose proof (hands_of _ _ _ _ Hd Hun) as Hha. cbn in Hha. rewrite decide_True in Hha by done.
  eapply wlp_mono; [apply (wlp_preserves homely);
    [destruct b; preserves_tac|by eapply wlp_performs]|].
  intros [] w' [F' [H1' H2' H3']]. exists Idle. split; [|done].
  eapply tflow_update; [exact T|exact Hd|done..|apply H3', T|done| |exact F'].
  intros r'. destruct (decide (r = r')) as [<-|Hne].
  - by rewrite fn_lookup_insert, (hands_only ds q (InHand r it)).
  - rewrite fn_lookup_insert_ne by done. apply (hands_same ds q (InHand r it)); [done|..];
      intros [? ?]; simplify_eq/=.
Qed.

Lemma tidy_HandleSendQueue q r :
  tidy q (Looks r) (HandleSendQueue_steps r) (λ _ d', d' = Idle).
Proof.
  apply triple_bind. eapply triple_mono; [apply tidy_pop_send_item|].
  intros [it|] d' ->; [|by apply triple_ret].
  apply triple_bind. eapply triple_mono; [apply tidy_deref|]. intros x d' ->.
  pose proof (tidy_performs q r it (bool_decide (msg it = None) ||
    bool_decide (rpc_type (rpc_handler_info_ x) = NORMAL_RPC) ||
    bool_decide (rpc_type (rpc_handler_info_ x) = CLIENT_STREAMING))) as Hp.
  by destruct (_ || _).
Qed.

(** *** Events *)

Lemma tidy_Remove q r : tidy q Idle (Remove_step r) (λ _ d', d' = Idle).
Proof. apply tidy_same; unfold ActiveRpcs_Remove; [preserves_tac|intros; preserves_tac]. Qed.

Lemma tidy_RemoveIfNotPending q r :
  tidy q Idle (RemoveIfNotPending_steps r) (λ _ d', d' = Idle).
Proof.
  apply triple_bind. eapply triple_mono.
  { apply tidy_same; unfold IsAnyEventPending; [preserves_tac|].
    intros. unfold IsRpcEventPending, GetRpcEventState. preserves_tac. }
  intros any d' ->. destruct any; [by apply triple_ret|apply tidy_Remove].
Qed.

Lemma tidy_HandleNewConnection q r ok :
  tidy q Idle (HandleNewConnection_steps r ok) (λ _ d', d' = Idle).
Proof.
  assert (∀ (A : Type) a (m : M World A), preserves homely m →
    (∀ hand others, preserves (keeps_flow (hand := hand) (others := others) None) m) →
    tidy q Idle (atom a m) (λ _ d', d' = Idle)) as Hsame by (intros; by apply tidy_same).
  apply triple_bind. eapply triple_mono; [apply Hsame; [preserves_tac|intros; preserves_tac]|].
  intros [] d' ->; [apply tidy_Remove|]. apply triple_bind.
  eapply (triple_mono _ _ _ _ _ _ _ (λ _ d', d' = Idle));
    [destruct ok; [by apply triple_ret|apply tidy_Remove]|]. intros [] d' ->.
  apply triple_bind. eapply (triple_mono _ _ _ _ _ _ _ (λ _ d', d' = Idle));
    [destruct ok; [apply tidy_OnConnection|by apply triple_ret]|]. intros [] d' ->.
  apply triple_bind. eapply triple_mono; [apply tidy_deref|]. intros x d' ->.
  apply triple_bind. eapply triple_mono; [apply Hsame; [preserves_tac|intros; preserves_tac]|].
  intros q' d' ->. apply triple_bind. eapply triple_mono.
  { apply Hsame; [apply ho_add_clone|intros; unfold add_clone, SetEventQueue, ActiveRpcs_Add].
    preserves_tac. }
  intros p d' ->. apply triple_bind, triple_bind. eapply triple_mono.
  { apply Hsame; unfold notify_when_done; [preserves_tac|intros; preserves_tac]. }
  intros [] d' ->. eapply triple_mono.
  { apply Hsame; unfold request_call, streaming_interface; [preserves_tac|intros; preserves_tac]. }
  intros [] d' ->. apply Hsame; [preserves_tac|intros; preserves_tac].
Qed.

(** Events of a [WRITE] or [WRITE_NEEDED] make the thread look at the send
    queue. *)
Definition event_duty (e : Event.t) (r : RpcPtr) : Duty :=
  match e with WRITE | WRITE_NEEDED => Looks r | _ => Idle end.

Lemma tidy_HandleEvent q e r ok :
  tidy q (event_duty e r) (HandleEvent_steps e r ok) (λ _ d', d' = Idle).
Proof.
  assert (tidy q (Looks r) (HandleWrite_steps r ok) (λ _ d', d' = Idle)) as Hw.
  { apply triple_bind. eapply triple_mono; [apply tidy_HandleSendQueue|]. intros [] d' ->.
    apply tidy_RemoveIfNotPending. }
  destruct e; cbn [HandleEvent_steps event_duty];
    [apply tidy_HandleNewConnection| |done|done| |apply tidy_RemoveIfNotPending].
  - unfold HandleRead_steps. destruct ok; apply triple_bind.
    + eapply triple_mono; [apply tidy_OnRequest|]. intros [] d' ->.
      apply tidy_RequestStreamingReadIfNeeded.
    + eapply triple_mono; [apply tidy_call_handler|]. intros [] d' ->. apply tidy_RemoveIfNotPending.
  - apply triple_bind. eapply triple_mono; [apply tidy_call_handler|]. intros [] d' ->.
    apply tidy_RemoveIfNotPending.
Qed.

Lemma tidy_internal q r :
  tidy q (Looks r) (InternalRpcEvent_Handle_steps WRITE_NEEDED r) (λ _ d', d' = Idle).
Proof.
  apply triple_bind. eapply (triple_mono _ _ _ _ _ _ _ (λ (locked : bool) d',
    d' = if locked then Looks r else Idle)).
  { apply tidy_step; [preserves_tac|done|]. intros hand others w _ [Hlt Hq] F. unfold wlp, lock.
    destruct (heap_ w !! r) as [[n x]|] eqn:Hx.
    - eexists. split_and!; [..|done]; [done| |by eapply flow_recount]. split; [done|]. simpl.
      intros m y. rewrite lookup_insert_eq. intros [= <- <-]. by eapply Hq.
    - exists Idle. split_and!; [done..| |done]. apply (flow_close r); [done|]. congruence. }
  intros [] d' ->; [|by apply triple_ret].
  apply triple_bind. eapply triple_mono; [apply (tidy_HandleEvent q WRITE_NEEDED r true)|].
  intros [] d' ->. apply tidy_same; [preserves_tac|intros; preserves_tac].
Qed.

(** *** Taking an event *)

Definition taken_duty (t : option Taken) : Duty :=
  match t with
  | None => Idle
  | Some (TakenCompletion e r _) => event_duty e r
  | Some (TakenInternal e r) => Looks r
  end.

Lemma ho_pop_event q : preserves homely (pop_event q).
Proof.
  intros w. unfold wlp, pop_event, PopWithTimeout, pop_front, QueueEmptyCondition.
  destruct (event_queues w !! q) as [bq|] eqn:Hq; [|done].
  assert (∀ bq', deque_ bq' ⊆ deque_ bq → homely w (upd_event_queues (insert q bq') w)) as Hs.
  { intros bq' Hsub. apply homely_intro; simpl; [done|by eauto 10|by eauto|].
    intros Hw q' b p [(<- & <- & _)|[_ Hb]]%list_lookup_insert_Some Hp;
      [eapply (hm_queues _ Hw); [done|by apply Hsub]|by eapply (hm_queues _ Hw)]. }
  destruct (deque_ bq) as [|p d] eqn:Hd; simpl; apply Hs; simpl; [by rewrite Hd|set_solver].
Qed.

Lemma ho_take_event q : preserves homely (take_event q).
Proof. unfold take_event. pose proof ho_pop_event. preserves_tac. Qed.

Lemma tidy_take_event q :
  tidy q Idle (atom AEventQueue (take_event q))
    (λ t d', d' = taken_duty t ∧
       match t with Some (TakenInternal e _) => e = WRITE_NEEDED | _ => True end).
Proof.
  apply tidy_step; [apply ho_take_event|done|]. intros hand others w Hw _ F.
  apply wlp_bind. unfold wlp at 1, pop_event, PopWithTimeout, pop_front, QueueEmptyCondition.
  destruct (event_queues w !! q) as [bq|] eqn:Hq; [|done].
  destruct (deque_ bq) as [|p d] eqn:Hd; simpl.
  { apply wlp_ret. exists Idle. split_and!; try done. simpl.
    unfold upd_event_queues. rewrite list_insert_id by done. by destruct w. }
  pose proof (flow_pop w q bq p d F Hq Hd) as Fp. set (w1 := upd_event_queues _ w) in *.
  assert (home q (target p) w1) as Hhome.
  { apply (hm_queues _ Hw q bq p Hq). rewrite Hd. left. }
  pose proof (f_internal _ _ F _ _ Hq) as Hall. rewrite Hd in Hall.
  apply Forall_cons_1 in Hall as [Hok _]. unfold internal_ok, weak_in, target in *.
  destruct (event_ptr p) as [r e|e r].
  - apply wlp_bind, wlp_bind. unfold wlp at 1, deref.
    destruct (heap_ w1 !! r) as [[n x]|] eqn:Hx; [|done].
    destruct (event_member x e) as [ev|] eqn:Hev; [|done]. apply wlp_ret.
    destruct (f_labelled _ _ Fp _ _ _ Hx _ _ Hev) as [-> ->].
    apply wlp_bind. eapply wlp_SetRpcEventState; [done|]. apply wlp_ret.
    pose proof (flow_clear w1 r n x e Fp Hx) as Fc. eexists. split_and!; [..|done|done].
    + by destruct e.
    + assert (homely w1 (upd_heap (insert r (n, update_event_member e (set_pending false) x)) w1))
        as Hho by (eapply homely_insert; [done|by destruct e..]).
      apply (ho_home _ _ Hho) in Hhome. by destruct e.
    + by destruct e.
  - apply wlp_ret. destruct Hok as [-> _]. exists (Looks r). split_and!; done.
Qed.

Lemma tidy_turn q : tidy q Idle (RunEventQueue_turn q) (λ _ d', d' = Idle).
Proof.
  apply triple_bind. eapply triple_mono; [apply tidy_take_event|].
  intros [[e r b|e r]|] d' [-> He]; [apply tidy_HandleEvent|subst e; apply tidy_internal|].
  by apply triple_ret.
Qed.

(** ** Runs *)

Definition tidied (t : Threaded) : Prop :=
  ∃ ds, tflow ds (shared t) ∧ length ds = length (turns t) ∧
    triples tflow (λ (_ : Access) _, True) (λ _ _, True) True Idle ds (turns t).

Lemma tidied_step t l t' : tidied t → tstep t l t' → tidied t'.
Proof.
  intros (ds & T & Hlen & Hts) [Henv Hx]. unfold texec in Hx. destruct l as [l|q].
  - assert (∀ q, l ≠ LEvent q) as Hl by (by intros q ->).
    destruct (exec l (shared t)) as [[] w'|] eqn:Hex; [|done]. injection Hx as <-.
    exists ds. split; [|done]. cbn [shared].
    destruct (preserves_Ok _ _ _ _ _ (ho_exec l Hl) Hex) as [H1' H2' H3']. split.
    + eapply (preserves_Ok _ _ _ _ _ (kf_exec l ltac:(intros q ->; by destruct (Hl q))) Hex), T.
    + apply H3', T.
    + intros q d Hd. pose proof (tf_duties _ _ T _ _ Hd). destruct d; simpl in *; auto.
  - destruct (turns t !! q) as [p|] eqn:Hp; [|done]. destruct (Hts q p Hp) as (d & Hd & Ht).
    assert (triple tflow (λ (_ : Access) _, True) (λ _ _, True) True q d (current q p)
      (λ _ d', d' = Idle)) as Hc.
    { destruct p as [[]|a m]; [|done]. destruct Ht as (d' & Hs & ->).
      eapply triple_shift; [exact Hs|apply tidy_turn]. }
    destruct (current q p) as [[]|a m]; [by injection Hx as <-; exists ds|].
    specialize (Hc ds (shared t) T Hd I). destruct (m (shared t)) as [p' w'|]; [|done].
    injection Hx as <-. destruct (Hc I) as (d' & T' & Ht'). exists (<[q := d']> ds).
    split_and!; [done|by cbn [turns]; rewrite !length_insert|]. by eapply triples_insert.
Qed.

Lemma tidied_steps t t' : tidied t → tsteps t t' → tidied t'.
Proof. induction 2; eauto using tidied_step. Qed.

(** The start: nothing is queued. *)
Definition same_events (w w' : World) : Prop := event_queues w' = event_queues w.

#[local] Instance same_events_preorder : PreOrder same_events.
Proof. split; [by intros w|]. intros w1 w2 w3 E1 E2. unfold same_events in *. congruence. Qed.

Lemma se_heap p : preserves same_events (deref p) ∧ preserves same_events (lock p) ∧
  preserves same_events (release p) ∧ ∀ f, preserves same_events (store p f).
Proof.
  split_and!; [| | |intros f]; intros w; unfold wlp, deref, lock, release, store;
    repeat case_match; simplify_eq; done.
Qed.
Lemma se_selector : preserves same_events event_queue_selector_.
Proof. intros w. unfold wlp, event_queue_selector_. by destruct (sel_next _). Qed.

#[local] Hint Extern 1 (preserves same_events (modify _)) =>
  apply preserves_modify; intros ?; reflexivity : preserves.
#[local] Hint Extern 1 (preserves same_events (_ _)) => apply se_heap : preserves.
#[local] Hint Resolve se_selector : preserves.

Lemma se_StartServing infos cqs : preserves same_events (StartServing infos cqs).
Proof.
  unfold StartServing. generalize 0 as i.
  induction infos as [|info infos IH]; intros i; simpl; [preserves_tac|].
  unfold ActiveRpcs_Add, make_unique_Rpc, RequestNextMethodInvocation, streaming_interface,
    SetRpcEventState, GetRpcEvent, use_stream, grpc_call. preserves_tac.
Qed.

Lemma tidied_start infos cqs n s c w :
  StartServing infos cqs (world_init n s c) = Ok tt w → tidied (tinit n w).
Proof.
  intros Hs. exists (replicate n Idle). unfold tinit. cbn [shared turns].
  assert (∀ q d, replicate n Idle !! q = Some d → d = Idle) as Hidle
    by (by intros q d [-> _]%lookup_replicate).
  assert (flow_among (hand := hands (replicate n Idle)) (others := attended (replicate n Idle))
    None w) as F.
  { eapply (preserves_Ok _ _ _ _ _ (kf_StartServing infos cqs) Hs), flow_init. intros r.
    apply hands_nil. intros q d ->%Hidle. by intros [it ?]. }
  split_and!; [split; [done| |by intros q d ->%Hidle]|by rewrite !length_replicate|apply triples_idle].
  split.
  - intros r k x Hx. destruct (decide (r < next_ptr w)) as [?|Hge]; [done|].
    destruct (f_fresh _ _ F r) as [? _]; [lia|congruence].
  - pose proof (preserves_Ok _ _ _ _ _ (se_StartServing infos cqs) Hs) as E. rewrite E. simpl.
    intros q bq p [-> _]%lookup_replicate Hp. by apply not_elem_of_nil in Hp.
Qed.

(** ** What holds on every run of the threads *)

Lemma tidied_order t r n x :
  tidied t → heap_ (shared t) !! r = Some (n, x) →
  ∃ in_hand : option SendItem,
    items r (enqueued (shared t)) =
      sent r (grpc_calls (shared t)) ++ option_list in_hand ++ send_queue_ x ∧
    (is_Some in_hand → is_pending x WRITE = false ∧ is_pending x FINISH = false) ∧
    (turns t !! event_queue_ x = Some (Ret tt) → in_hand = None).
Proof.
  intros (ds & T & Hlen & Hts) Hx. set (q := event_queue_ x).
  assert (home q r (shared t)) as Hhome.
  { split; [by eapply (hm_fresh _ (tf_homes _ _ T))|]. intros m y Hy. unfold q. congruence. }
  assert (∀ ds, tflow ds (shared t) → unheld ds q r) as Hun
    by (intros ds' T'; by eapply home_unheld).
  assert (∃ o, hands ds r = option_list o ∧ (turns t !! q = Some (Ret tt) → o = None))
    as (o & Ho & Hidle).
  { destruct (ds !! q) as [d|] eqn:Hd.
    - pose proof (hands_of _ _ _ _ Hd (Hun ds T)) as Hha. exists (head (hands ds r)). split.
      + rewrite Hha. destruct d; try done. by case_decide.
      + intros Hret. destruct (Hts q _ Hret) as (d0 & Hd0 & d' & Hs & ->). simplify_eq.
        specialize (Hs ds (shared t) T Hd).
        pose proof (f_live _ _ (tf_flow _ _ Hs) _ _ _ Hx) as E.
        rewrite (hands_only ds q d), (f_live _ _ (tf_flow _ _ T) _ _ _ Hx) in E by auto.
        apply app_inv_head, (f_equal length) in E. rewrite length_app in E.
        destruct (hands ds r); [done|]. simpl in E. lia.
    - exists None. split; [|done]. apply hands_nil. intros q' d Hd'. eapply Hun; [done| |done].
      intros ->. congruence. }
  exists o. rewrite <- Ho. split_and!; [apply (f_live _ _ (tf_flow _ _ T) _ _ _ Hx)| |done].
  intros Hsome. apply (f_hand _ _ (tf_flow _ _ T) _ _ _ Hx). rewrite Ho. by destruct Hsome as [? ->].
Qed.

Lemma tidied_served t r n x :
  tidied t → heap_ (shared t) !! r = Some (n, x) →
  (∀ q p, turns t !! q = Some p → p = Ret tt) → served (shared t) r x.
Proof.
  intros (ds & T & Hlen & Hts) Hx Hidle.
  pose proof (triples_rest _ _ _ _ _ _ _ _ T Hts Hlen Hidle) as T'.
  eapply (f_served _ _ (tf_flow _ _ T')); [done..|].
  intros (q & d & [-> _]%lookup_replicate & Ha). done.
Qed.

End thread_flow.
