(* ===== verification/ThreadEquiv.v ===== *)
(** * Threads that are not interrupted

    The steps of [ServiceThreads], run in a row, are the functions of [Rpc] and
    [Service] they were cut from, failures included; so that every step of the
    service is a sequence of steps of its threads. *)

From Stdlib Require Import ZArith Lia.
From stdpp Require Import base option list strings gmap.
From S2P Require Import Prelude Resumption Interfaces BlockingQueue Rpc Service ServiceThreads.
Import Event EventDeleter.

Set Default Proof Using "Type".

Section equiv.
Context `{GrpcStatus, Application, EventQueueSelector}.

#[local] Abbreviation P := (Prog Access World).

(** ** Uninterrupted, the steps are the functions *)

#[local] Notation "p ≈ m" := (same (uninterrupted p) m) (at level 70).

Lemma call_body_steps this c body :
  same (call_handler this c body) (actions ← call_body this c body; for_each actions (run_action this)).
Proof.
  intros w. unfold call_handler, call_body, deref, log_callback, get, modify, store, mbind, M_bind.
  destruct (heap_ w !! this) as [[n x]|] eqn:Hx; [|done].
  destruct (handler_ x); [|done]. simpl.
  destruct (body _ _ _) as [[h' c'] actions]. simpl. by rewrite Hx.
Qed.

Lemma factory_body_steps this :
  same (rpc_handler_factory this)
    (made ← factory_body this; for_each made.2 (run_action this) ;; mret made.1).
Proof.
  intros w. unfold rpc_handler_factory, factory_body, deref, log_callback, log_span, get, modify,
    mbind, M_bind.
  destruct (heap_ w !! this) as [[n x]|] eqn:Hx; [|done]. simpl.
  by destruct (handler_Initialize _ _) as [[h c'] actions].
Qed.

Lemma run_action_uninterrupted this a : run_action_steps this a ≈ run_action this a.
Proof.
  unfold run_action_steps, run_action, Rpc_Write_steps, Rpc_Finish_steps, RpcHandler_Send, RpcHandler_Finish,
    Rpc_Write, Rpc_Finish. destruct a; uninterrupted_tac.
Qed.
#[local] Hint Resolve run_action_uninterrupted : uninterrupted.

Lemma call_handler_uninterrupted this c body :
  call_handler_steps this c body ≈ call_handler this c body.
Proof.
  etransitivity; [|symmetry; apply call_body_steps]. unfold call_handler_steps. uninterrupted_tac.
Qed.

Lemma rpc_handler_factory_uninterrupted this :
  rpc_handler_factory_steps this ≈ rpc_handler_factory this.
Proof.
  etransitivity; [|symmetry; apply factory_body_steps]. unfold rpc_handler_factory_steps.
  uninterrupted_tac.
Qed.
#[local] Hint Resolve call_handler_uninterrupted rpc_handler_factory_uninterrupted : uninterrupted.

Lemma OnRequest_uninterrupted this : OnRequest_steps this ≈ OnRequest this.
Proof. unfold OnRequest_steps, OnRequest. uninterrupted_tac. Qed.
Lemma OnReadsDone_uninterrupted this : OnReadsDone_steps this ≈ OnReadsDone this.
Proof. unfold OnReadsDone_steps, OnReadsDone. uninterrupted_tac. Qed.
Lemma OnFinish_uninterrupted this : OnFinish_steps this ≈ OnFinish this.
Proof. unfold OnFinish_steps, OnFinish. uninterrupted_tac. Qed.
#[local] Hint Resolve OnRequest_uninterrupted OnReadsDone_uninterrupted OnFinish_uninterrupted
  : uninterrupted.

Lemma RequestStreamingReadIfNeeded_uninterrupted this :
  RequestStreamingReadIfNeeded_steps this ≈ RequestStreamingReadIfNeeded this.
Proof.
  unfold RequestStreamingReadIfNeeded_steps, RequestStreamingReadIfNeeded. uninterrupted_tac.
Qed.
#[local] Hint Resolve RequestStreamingReadIfNeeded_uninterrupted : uninterrupted.

Lemma OnConnection_uninterrupted this : OnConnection_steps this ≈ OnConnection this.
Proof. unfold OnConnection_steps, OnConnection. uninterrupted_tac. Qed.
#[local] Hint Resolve OnConnection_uninterrupted : uninterrupted.

Lemma HandleSendQueue_uninterrupted this : HandleSendQueue_steps this ≈ HandleSendQueue this.
Proof.
  etransitivity; [|symmetry; apply pop_send_item_steps]. unfold HandleSendQueue_steps.
  uninterrupted_tac.
Qed.

Lemma RemoveIfNotPending_uninterrupted this :
  RemoveIfNotPending_steps this ≈ RemoveIfNotPending this.
Proof. unfold RemoveIfNotPending_steps, RemoveIfNotPending, Remove_step. uninterrupted_tac. Qed.
#[local] Hint Resolve HandleSendQueue_uninterrupted RemoveIfNotPending_uninterrupted
  : uninterrupted.

Lemma request_steps this :
  same (RequestNextMethodInvocation this) (notify_when_done this ;; request_call this).
Proof.
  unfold RequestNextMethodInvocation, notify_when_done.
  do 2 (etransitivity; [|symmetry; apply same_assoc]; apply same_bind; [done|intros _]).
  apply same_bind; [done|by intros _].
Qed.

Lemma replace_listener_steps rpc :
  same
    (new_rpc ← Clone rpc;
     q ← event_queue_selector_;
     SetEventQueue new_rpc q ;;
     ActiveRpcs_Add new_rpc ;;
     RequestNextMethodInvocation new_rpc ;;
     release new_rpc)
    (x ← deref rpc;
     q ← event_queue_selector_;
     new_rpc ← add_clone x q;
     (notify_when_done new_rpc ;; request_call new_rpc) ;;
     release new_rpc).
Proof.
  intros w. unfold Clone, make_unique_Rpc, add_clone, event_queue_selector_, deref, get, modify,
    mret, M_ret, mbind, M_bind. destruct (heap_ w !! rpc) as [[n x]|]; [|done]. simpl.
  destruct (sel_next (selector_ w)) as [q s|f]; [|done].
  change (next_ptr (upd_selector (λ _, s) w)) with (next_ptr w). unfold upd_next_ptr. simpl.
  destruct (SetEventQueue _ _ _) as [[] w1|]; [|done].
  destruct (ActiveRpcs_Add _ w1) as [[] w2|]; [|done]. by rewrite (request_steps _ w2).
Qed.

Lemma HandleNewConnection_uninterrupted rpc ok :
  HandleNewConnection_steps rpc ok ≈ HandleNewConnection rpc ok.
Proof.
  transitivity (shutting_down ← gets (S := World) shutting_down_;
    if (shutting_down : bool) then ActiveRpcs_Remove rpc ;; mret tt
    else
      (if negb ok then ActiveRpcs_Remove rpc ;; mret tt else mret tt) ;;
      (if ok then OnConnection rpc else mret tt) ;;
      new_rpc ← Clone rpc;
      q ← event_queue_selector_;
      SetEventQueue new_rpc q ;;
      ActiveRpcs_Add new_rpc ;;
      RequestNextMethodInvocation new_rpc ;;
      release new_rpc); [|by intros w; unfold HandleNewConnection, mbind, M_bind, gets, get].
  unfold HandleNewConnection_steps, Remove_step.
  etransitivity; [apply uninterrupted_bind|apply same_bind; [apply uninterrupted_atom|]].
  intros []; [apply uninterrupted_atom|].
  etransitivity; [apply uninterrupted_bind|apply same_bind; [destruct ok; uninterrupted_tac|]].
  intros _.
  etransitivity; [apply uninterrupted_bind|apply same_bind; [destruct ok; uninterrupted_tac|]].
  intros _. etransitivity; [|symmetry; apply replace_listener_steps].
  unfold RequestNextMethodInvocation_steps. uninterrupted_tac.
Qed.
#[local] Hint Resolve HandleNewConnection_uninterrupted : uninterrupted.

Lemma HandleEvent_uninterrupted e rpc ok : HandleEvent_steps e rpc ok ≈ HandleEvent e rpc ok.
Proof.
  unfold HandleEvent_steps, HandleRead_steps, HandleWrite_steps, HandleFinish_steps,
    HandleDone_steps, HandleEvent, HandleRead, HandleWrite, HandleFinish, HandleDone.
  destruct e, ok; uninterrupted_tac.
Qed.
#[local] Hint Resolve HandleEvent_uninterrupted : uninterrupted.

Lemma take_event_steps q :
  same (RunEventQueue_body q ;; mret tt)
    (taken ← take_event q;
     match taken with
     | None => mret tt
     | Some (TakenCompletion e rpc ok) => HandleEvent e rpc ok
     | Some (TakenInternal e rpc) => InternalRpcEvent_Handle e rpc
     end).
Proof.
  intros w. unfold RunEventQueue_body, take_event. unfold mbind, M_bind.
  destruct (pop_event q w) as [[p|] w1|]; [|done..]. unfold Handle.
  destruct (event_ptr p) as [rpc e|e rpc].
  - unfold CompletionQueueRpcEvent_Handle, mbind, M_bind.
    destruct (GetRpcEvent rpc e w1) as [ev w2|]; [|done].
    destruct (SetRpcEventState rpc e false w2) as [[] w3|]; [|done]. simpl.
    by destruct (HandleEvent _ _ _ _) as [[] w4|].
  - simpl. by destruct (InternalRpcEvent_Handle _ _ _) as [[] w4|].
Qed.

Lemma turn_uninterrupted q : RunEventQueue_turn q ≈ exec (LEvent q).
Proof.
  etransitivity; [|symmetry; apply take_event_steps]. unfold RunEventQueue_turn, Handle_steps,
    InternalRpcEvent_Handle_steps, InternalRpcEvent_Handle. uninterrupted_tac.
Qed.

(** ** Steps of [Service] as steps of the threads *)

Lemma tsteps_trans t1 t2 t3 : tsteps t1 t2 → tsteps t2 t3 → tsteps t1 t3.
Proof. induction 1 as [|t l t' t'' Hs _ IH]; [done|]. intros H3. by eapply tsteps_step, IH. Qed.

(** A thread that is not interrupted gets to the end of its turn. *)
Lemma tsteps_turn q (p : P unit) ts w w' :
  ts !! q = Some p → uninterrupted p w = Ok tt w' →
  tsteps (mkThreaded w ts) (mkThreaded w' (<[q := Ret tt]> ts)).
Proof.
  revert ts w. induction p as [[]|l m IH] using Prog_elim; intros ts w Hq Hp.
  - injection Hp as <-. rewrite list_insert_id by done. constructor.
  - unfold uninterrupted in Hp. fold (uninterrupted (L := Access) (S := World) (A := unit)) in Hp.
    destruct (m w) as [p' w1|] eqn:Hm; [|done]. pose proof (lookup_lt_Some _ _ _ Hq) as Hlt.
    apply (tsteps_step _ (TTurn q) (mkThreaded w1 (<[q := p']> ts))).
    + split; [done|]. unfold texec. cbn [turns shared]. rewrite Hq. cbn [current]. by rewrite Hm.
    + rewrite <- (list_insert_insert_eq ts q (Ret tt) p').
      apply (IH _ _ _ Hm); [by apply list_lookup_insert_eq|done].
Qed.

Lemma tsteps_event q w w' n :
  q < n → exec (LEvent q) w = Ok tt w' → tsteps (tinit n w) (tinit n w').
Proof.
  intros Hq Hx. pose proof (turn_uninterrupted q w) as Hu. rewrite Hx in Hu.
  assert (replicate n (Ret tt : P unit) !! q = Some (Ret tt)) as Hl
    by (by apply lookup_replicate).
  destruct (RunEventQueue_turn q) as [|l m] eqn:Ht; [done|].
  unfold uninterrupted in Hu. fold (uninterrupted (L := Access) (S := World) (A := unit)) in Hu.
  destruct (m w) as [p' w1|] eqn:Hm; [|done].
  apply (tsteps_step _ (TTurn q) (mkThreaded w1 (<[q := p']> (replicate n (Ret tt))))).
  - split; [simpl; by rewrite length_replicate|]. unfold texec, tinit. cbn [turns shared].
    rewrite Hl. cbn [current]. by rewrite Ht, Hm.
  - assert (replicate n (Ret tt : P unit) =
      <[q := Ret tt]> (<[q := p']> (replicate n (Ret tt)))) as E
      by (by rewrite list_insert_insert_eq, list_insert_id).
    unfold tinit. rewrite E at 2. apply (tsteps_turn q p'); [|done].
    apply list_lookup_insert_eq. by rewrite length_replicate.
Qed.

Lemma step_tsteps w l w' :
  step w l w' → tsteps (tinit (length (event_queues w)) w) (tinit (length (event_queues w)) w').
Proof.
  intros [Henv Hx]. destruct l as [r e b pl|q|r op|i| | |c]; [|by apply (tsteps_event q)|..].
  all: match type of Hx with exec ?l _ = _ => eapply (tsteps_step _ (TShared l)) end;
    [|apply tsteps_refl]; split; [exact Henv|];
    unfold texec, tinit; cbn [shared turns]; by rewrite Hx.
Qed.

End equiv.
