(* ===== verification/EventLoop.v ===== *)
(** * The loop of an event queue thread

    [Server::RunEventQueue] after shutdown: "finish processing the rest of
    the items".  Handling an item may append further items to the queue; the
    file shows that the loop comes to an end nevertheless. *)

From Stdlib Require Import ZArith Lia.
From stdpp Require Import base option list strings gmap.
From S2P Require Import Prelude Interfaces BlockingQueue Rpc Service ServiceInv ServiceFlow.
Import Event EventDeleter.

Set Default Proof Using "Type".

Section loop.
Context `{GrpcStatus, Application, EventQueueSelector}.

(** The second loop of [RunEventQueue]; [None] when the fuel does not
    suffice. *)
Fixpoint RunEventQueue_drain (fuel : nat) (q : QueuePtr) (w : World) : option (outcome World unit) :=
  match fuel with
  | 0 => None
  | S fuel' =>
      match RunEventQueue_body q w with
      | Fail f => Some (Fail f)
      | Ok true w' => RunEventQueue_drain fuel' q w'
      | Ok false w' => Some (Ok tt w')
      end
  end.

(** ** Handling appends internal events only *)

Definition is_write_needed (p : UniqueEventPtr) : Prop :=
  ∃ r, event_ptr p = InternalRpcEvent WRITE_NEEDED r ∧ action_ p = DELETE.

Definition appends (w w' : World) : Prop :=
  ∀ q bq, event_queues w !! q = Some bq →
    ∃ l, event_queues w' !! q = Some (mkBlockingQueue (queue_size_ bq) (deque_ bq ++ l)) ∧
      Forall is_write_needed l.

#[global] Instance appends_preorder : PreOrder appends.
Proof.
  split.
  - intros w q bq Hq. exists []. split; [|constructor]. rewrite app_nil_r. by destruct bq.
  - intros w1 w2 w3 H12 H23 q bq Hq. destruct (H12 _ _ Hq) as (l1 & Hq1 & Hl1).
    destruct (H23 _ _ Hq1) as (l2 & Hq2 & Hl2). exists (l1 ++ l2). simpl in *.
    rewrite app_assoc. split; [done|by apply Forall_app].
Qed.

Lemma appends_same w w' : event_queues w' = event_queues w → appends w w'.
Proof.
  intros E q bq Hq. exists []. split; [|constructor]. rewrite E, app_nil_r. by destruct bq.
Qed.

Ltac ap_prim := repeat case_match; simplify_eq; try done; by apply appends_same.

Lemma ap_deref p : preserves appends (deref p).
Proof. intros w. unfold wlp, deref. ap_prim. Qed.
Lemma ap_store p f : preserves appends (store p f).
Proof. intros w. unfold wlp, store. ap_prim. Qed.
Lemma ap_lock p : preserves appends (lock p).
Proof. intros w. unfold wlp, lock. ap_prim. Qed.
Lemma ap_release p : preserves appends (release p).
Proof. intros w. unfold wlp, release. ap_prim. Qed.
Lemma ap_selector : preserves appends event_queue_selector_.
Proof. intros w. unfold wlp, event_queue_selector_. destruct (sel_next _); [by apply appends_same|done]. Qed.
Lemma ap_push p q : preserves appends (push_write_needed p q).
Proof.
  unfold push_write_needed. apply preserves_bind; [apply _|apply ap_deref|]. intros x w.
  unfold wlp, push_event. destruct (event_queues w !! event_queue_ x) as [bq|] eqn:Hq; [|done].
  unfold Push. destruct (QueueNotFullCondition bq); [|done]. intros q' bq' Hq'. simpl.
  destruct (decide (event_queue_ x = q')) as [<-|Hne].
  - simplify_eq. rewrite list_lookup_insert_eq by (by eapply lookup_lt_Some).
    eexists [_]. split; [done|]. repeat constructor. by eexists.
  - rewrite list_lookup_insert_ne by done. exists []. rewrite app_nil_r, Hq'.
    split; [by destruct bq'|constructor].
Qed.

#[local] Hint Resolve ap_deref ap_store ap_lock ap_release ap_selector ap_push : preserves.
#[local] Hint Extern 1 (preserves appends (modify _)) =>
  apply preserves_modify; intros ?; apply appends_same; reflexivity : preserves.

Lemma ap_GetRpcEvent p e : preserves appends (GetRpcEvent p e).
Proof. unfold GetRpcEvent. preserves_tac. Qed.
#[local] Hint Resolve ap_GetRpcEvent : preserves.
Lemma ap_SetRpcEventState p e b : preserves appends (SetRpcEventState p e b).
Proof. unfold SetRpcEventState. preserves_tac. Qed.
Lemma ap_IsRpcEventPending p e : preserves appends (IsRpcEventPending p e).
Proof. unfold IsRpcEventPending, GetRpcEventState. preserves_tac. Qed.
Lemma ap_use_stream b o : preserves appends (use_stream b o).
Proof. unfold use_stream. preserves_tac. Qed.
#[local] Hint Resolve ap_SetRpcEventState ap_IsRpcEventPending ap_use_stream : preserves.
Lemma ap_run_action p a : preserves appends (run_action p a).
Proof.
  unfold run_action, RpcHandler_Send, RpcHandler_Finish, RpcHandler_GetWriter, log_span, Rpc_Write,
    Rpc_Finish, EnqueueMessage, ActiveRpcs_GetWeakPtr. preserves_tac.
Qed.
#[local] Hint Resolve ap_run_action : preserves.
Lemma ap_call_handler p cb body : preserves appends (call_handler p cb body).
Proof. unfold call_handler, log_callback. preserves_tac. Qed.
#[local] Hint Resolve ap_call_handler : preserves.
Lemma ap_RequestStreamingReadIfNeeded p : preserves appends (RequestStreamingReadIfNeeded p).
Proof.
  unfold RequestStreamingReadIfNeeded, async_reader_interface, OnRequest, OnReadsDone, grpc_call.
  preserves_tac.
Qed.
#[local] Hint Resolve ap_RequestStreamingReadIfNeeded : preserves.
Lemma ap_OnConnection p : preserves appends (OnConnection p).
Proof. unfold OnConnection, rpc_handler_factory, log_callback, log_span. preserves_tac. Qed.
Lemma ap_Remove p : preserves appends (ActiveRpcs_Remove p).
Proof. unfold ActiveRpcs_Remove. preserves_tac. Qed.
#[local] Hint Resolve ap_OnConnection ap_Remove : preserves.
Lemma ap_RemoveIfNotPending p : preserves appends (RemoveIfNotPending p).
Proof. unfold RemoveIfNotPending, IsAnyEventPending. preserves_tac. Qed.
#[local] Hint Resolve ap_RemoveIfNotPending : preserves.
Lemma ap_HandleNewConnection p b : preserves appends (HandleNewConnection p b).
Proof.
  unfold HandleNewConnection, Clone, make_unique_Rpc, SetEventQueue, ActiveRpcs_Add,
    RequestNextMethodInvocation, streaming_interface, grpc_call. preserves_tac.
Qed.
Lemma ap_HandleSendQueue p : preserves appends (HandleSendQueue p).
Proof.
  unfold HandleSendQueue, PerformFinish, PerformWrite, SendUnaryFinish, async_writer_interface,
    grpc_call. preserves_tac.
Qed.
#[local] Hint Resolve ap_HandleNewConnection ap_HandleSendQueue : preserves.
Lemma ap_HandleEvent e p b : preserves appends (HandleEvent e p b).
Proof.
  unfold HandleEvent, HandleRead, HandleWrite, HandleFinish, HandleDone, OnRequest, OnReadsDone,
    OnFinish. preserves_tac.
Qed.

#[local] Hint Resolve ap_HandleEvent : preserves.
Lemma ap_Handle ev : preserves appends (Handle ev).
Proof.
  unfold Handle, CompletionQueueRpcEvent_Handle, InternalRpcEvent_Handle. preserves_tac.
Qed.
Lemma ap_Writer_begin p op : preserves appends (Writer_begin p op).
Proof. unfold Writer_begin. preserves_tac. Qed.
Lemma ap_EnqueueMessage p it : preserves appends (EnqueueMessage p it).
Proof. unfold EnqueueMessage. preserves_tac. Qed.
Lemma ap_GetWeakPtr p : preserves appends (ActiveRpcs_GetWeakPtr p).
Proof. unfold ActiveRpcs_GetWeakPtr. preserves_tac. Qed.

(** ** A [WRITE_NEEDED] event appends nothing *)

Definition same_queues (w w' : World) : Prop := event_queues w' = event_queues w.

#[global] Instance same_queues_preorder : PreOrder same_queues.
Proof. split; [done|]. unfold same_queues. intros w1 w2 w3. congruence. Qed.

Ltac sq_prim := repeat case_match; simplify_eq; done.

Lemma sq_deref p : preserves same_queues (deref p).
Proof. intros w. unfold wlp, deref. sq_prim. Qed.
Lemma sq_store p f : preserves same_queues (store p f).
Proof. intros w. unfold wlp, store. sq_prim. Qed.
Lemma sq_lock p : preserves same_queues (lock p).
Proof. intros w. unfold wlp, lock. sq_prim. Qed.
Lemma sq_release p : preserves same_queues (release p).
Proof. intros w. unfold wlp, release. sq_prim. Qed.
#[local] Hint Resolve sq_deref sq_store sq_lock sq_release : preserves.
#[local] Hint Extern 1 (preserves same_queues (modify _)) =>
  apply preserves_modify; intros ?; reflexivity : preserves.

Lemma sq_HandleWrite p b : preserves same_queues (HandleWrite p b).
Proof.
  unfold HandleWrite, HandleSendQueue, PerformFinish, PerformWrite, SendUnaryFinish,
    async_writer_interface, grpc_call, RemoveIfNotPending, IsAnyEventPending, ActiveRpcs_Remove,
    IsRpcEventPending, GetRpcEventState, SetRpcEventState, GetRpcEvent, use_stream. preserves_tac.
Qed.

Lemma sq_internal_Handle p : preserves same_queues (InternalRpcEvent_Handle WRITE_NEEDED p).
Proof.
  unfold InternalRpcEvent_Handle, HandleEvent. pose proof sq_HandleWrite. preserves_tac.
Qed.

(** ** Termination *)

Definition completions (l : list UniqueEventPtr) : nat := length (omap tag_in l).

Lemma completions_app l1 l2 : completions (l1 ++ l2) = completions l1 + completions l2.
Proof. unfold completions. by rewrite omap_app, length_app. Qed.

Lemma completions_internal l : Forall is_write_needed l → completions l = 0.
Proof.
  induction 1 as [|p l (r & Hp & _) _ IH]; [done|]. unfold completions in *. simpl.
  unfold tag_in at 1. by rewrite Hp.
Qed.

Lemma internal_ok_write_needed p : is_write_needed p → internal_ok p.
Proof. intros (r & Hp & Ha). unfold internal_ok. by rewrite Hp. Qed.

(** One iteration: nothing was there, it failed, or an item was taken off and
    either no completion event is left behind or none was added. *)
Lemma body_step q w bq :
  event_queues w !! q = Some bq → Forall internal_ok (deque_ bq) →
  match RunEventQueue_body q w with
  | Fail _ => True
  | Ok false w' => w' = w ∧ deque_ bq = []
  | Ok true w' => ∃ p d l, deque_ bq = p :: d ∧
      event_queues w' !! q = Some (mkBlockingQueue (queue_size_ bq) (d ++ l)) ∧
      Forall is_write_needed l ∧ (completions [p] = 0 → l = [])
  end.
Proof.
  intros Hq Hok. unfold RunEventQueue_body, pop_event, PopWithTimeout, QueueEmptyCondition, pop_front,
    mbind, M_bind, mret, M_ret. rewrite Hq. destruct (deque_ bq) as [|p d] eqn:Hd; simpl.
  { split; [|done]. unfold upd_event_queues. rewrite list_insert_id by done. by destruct w. }
  set (w1 := upd_event_queues _ w).
  assert (event_queues w1 !! q = Some (mkBlockingQueue (queue_size_ bq) d)) as Hq1.
  { simpl. by rewrite list_lookup_insert_eq by (by eapply lookup_lt_Some). }
  apply Forall_cons in Hok as [Hp _]. unfold internal_ok in Hp.
  destruct (event_ptr p) as [r e|e r] eqn:Hev; simpl.
  - destruct (CompletionQueueRpcEvent_Handle r e w1) as [[] w2|f] eqn:Hx; [|done].
    apply (preserves_Ok appends) in Hx.
    + destruct (Hx _ _ Hq1) as (l & Hl & Hf). exists p, d, l. split_and!; try done.
      unfold completions. simpl. unfold tag_in. by rewrite Hev.
    + unfold CompletionQueueRpcEvent_Handle. pose proof ap_HandleEvent. preserves_tac.
  - destruct Hp as [-> _].
    destruct (InternalRpcEvent_Handle WRITE_NEEDED r w1) as [[] w2|f] eqn:Hx; [|done].
    apply (preserves_Ok _ _ _ _ _ (sq_internal_Handle r)) in Hx. unfold same_queues in Hx.
    exists p, d, []. rewrite Hx, app_nil_r. split_and!; try done.
Qed.

Lemma drain_steps c n q w bq :
  event_queues w !! q = Some bq → Forall internal_ok (deque_ bq) →
  completions (deque_ bq) ≤ c → length (deque_ bq) ≤ n →
  ∃ fuel r, RunEventQueue_drain fuel q w = Some r ∧
    ∀ w', r = Ok tt w' → ∃ bq', event_queues w' !! q = Some bq' ∧ deque_ bq' = [].
Proof.
  revert n w bq. induction c as [c IHc] using lt_wf_ind. intros n.
  induction n as [n IHn] using lt_wf_ind. intros w bq Hq Hok Hc Hn.
  pose proof (body_step q w bq Hq Hok) as Hb.
  destruct (RunEventQueue_body q w) as [[] w'|f] eqn:E.
  - destruct Hb as (p & d & l & Hd & Hq' & Hl & Hnone). rewrite Hd in Hok, Hc, Hn.
    apply Forall_cons in Hok as [Hp Hok].
    assert (Forall internal_ok (d ++ l)) as Hok'.
    { apply Forall_app. split; [done|]. eapply Forall_impl; [done|]. apply internal_ok_write_needed. }
    assert (completions (d ++ l) = completions d) as Ec.
    { rewrite completions_app, (completions_internal l) by done. lia. }
    change (p :: d) with ([p] ++ d) in Hc. rewrite completions_app in Hc. simpl in Hn.
    assert (∃ fuel r, RunEventQueue_drain fuel q w' = Some r ∧
      ∀ w2, r = Ok tt w2 → ∃ bq', event_queues w2 !! q = Some bq' ∧ deque_ bq' = [])
      as (fuel & r & Hr & Hw).
    { destruct (decide (completions [p] = 0)) as [Hz|Hz].
      - rewrite (Hnone Hz), app_nil_r in *.
        apply (IHn (length d) ltac:(lia) w' _ Hq'); simpl; [done|lia|lia].
      - apply (IHc (completions d) ltac:(lia) (length (d ++ l)) w' _ Hq'); simpl; [done|lia|lia]. }
    exists (S fuel), r. simpl. by rewrite E.
  - destruct Hb as [-> Hd]. exists 1. eexists. simpl. rewrite E. split; [done|].
    intros w2 [= <-]. eauto.
  - exists 1. eexists. simpl. rewrite E. by split.
Qed.

(** C20: draining ends.  From every state a run of the service reaches, the
    loop that finishes the rest of an event queue terminates, whatever the
    handlers do: it returns with the queue empty unless handling an item
    crashes. *)
Theorem drain_terminates infos cqs n s c w q bq :
  run infos cqs n s c w → event_queues w !! q = Some bq →
  ∃ fuel r, RunEventQueue_drain fuel q w = Some r ∧
    ∀ w', r = Ok tt w' → ∃ bq', event_queues w' !! q = Some bq' ∧ deque_ bq' = [].
Proof.
  intros Hrun Hq. apply run_flow in Hrun. eapply drain_steps; [done| |done|done].
  by eapply (f_internal _ _ Hrun).
Qed.

End loop.
