(* ===== verification/ServiceDrain.v ===== *)
(** * When a service has nothing left to do

    Which calls gRPC has started, and on which completion queue an RPC lives:
    the facts that decide whether the last tags of a service have come back.
    With them, a service whose completion queues are drained and whose event
    queues hold no completion has no RPC left. *)

From Stdlib Require Import ZArith Lia.
From stdpp Require Import base option list strings gmap.
From S2P Require Import Prelude Interfaces BlockingQueue Rpc Service ServiceFrame ServiceInv.
From S2P Require Import ServiceLemmas ServiceHandlers ServiceSafety ServiceSteps.
From S2P Require Import ServiceFlow ServiceProtocol ServiceOrder ServiceLeak EventLoop.
Import Event EventDeleter.

Set Default Proof Using "Type".

Section started.
Context `{GrpcStatus, Application, EventQueueSelector}.

(** ** Calls that started stay started *)

Definition grows (w w' : World) : Prop := started w ⊆ started w'.

#[global] Instance grows_preorder : PreOrder grows.
Proof. unfold grows. split; [by intros w|]. intros w1 w2 w3. set_solver. Qed.

Lemma grows_same w w' : started w' = started w → grows w w'.
Proof. unfold grows. by intros ->. Qed.

Ltac gr_prim := repeat case_match; simplify_eq; try done; by apply grows_same.

Lemma gr_deref p : preserves grows (deref p).
Proof. intros w. unfold wlp, deref. gr_prim. Qed.
Lemma gr_store p f : preserves grows (store p f).
Proof. intros w. unfold wlp, store. gr_prim. Qed.
Lemma gr_modify f : (∀ w, started (f w) = started w) → preserves grows (modify f).
Proof. intros Hf. apply preserves_modify. intros w. by apply grows_same. Qed.
Lemma gr_push_event q e : preserves grows (push_event q e).
Proof. intros w. unfold wlp, push_event. gr_prim. Qed.
#[local] Hint Resolve gr_deref gr_store gr_push_event : preserves.
#[local] Hint Extern 1 (preserves grows (modify _)) => apply gr_modify; done : preserves.

Lemma gr_enqueue p it : preserves grows (EnqueueMessage p it).
Proof. unfold EnqueueMessage. preserves_tac. Qed.
Lemma gr_written p it : preserves grows (log_written p it).
Proof. by apply gr_modify. Qed.
#[local] Hint Resolve gr_enqueue : preserves.

#[global] Instance grows_actions p : ActionFrame p grows.
Proof.
  split; try apply _; auto with preserves.
  - unfold RpcHandler_GetWriter, ActiveRpcs_GetWeakPtr. preserves_tac.
  - intros f Hf. apply preserves_modify. intros w.
    by destruct (Hf w) as (_ & _ & _ & _ & _ & _ & _ & _ & ?).
  - intros s. unfold log_span. preserves_tac.
Qed.

Lemma gr_run_action p a : preserves grows (run_action p a).
Proof. apply frame_run_action. apply _. Qed.
#[local] Hint Resolve gr_run_action : preserves.

#[global] Instance grows_frame : ServiceFrame grows (λ _, True).
Proof.
  split; try apply _; auto with preserves.
  - intros p w. unfold wlp, lock. gr_prim.
  - intros p w. unfold wlp, release. gr_prim.
  - intros q w. unfold wlp, pop_event. gr_prim.
  - intros w. unfold wlp, event_queue_selector_. gr_prim.
  - intros f Hf. apply preserves_modify. intros w.
    by destruct (Hf w) as (_ & _ & _ & _ & _ & _ & _ & _ & ?).
  - intros p. unfold Clone, make_unique_Rpc. preserves_tac.
  - intros i cq q info _. unfold make_unique_Rpc. preserves_tac.
  - intros p cb body _. unfold call_handler, log_callback. preserves_tac.
  - intros p. unfold rpc_handler_factory, log_callback, log_span. preserves_tac.
  - intros p s. unfold log_span. preserves_tac.
Qed.

Lemma exec_started w l w' : exec l w = Ok tt w' → started w ⊆ started w'.
Proof.
  intros Hx. destruct l as [r e b payload|q|r op|i| | |c]; [..|injection Hx as <-; set_solver];
    refine (preserves_Ok grows _ _ _ _ (frame_exec _ _ gr_enqueue gr_written) Hx); done.
Qed.

End started.

Section drain.
Context `{GrpcStatus, Application, EventQueueSelector} (N : nat) `{!SelectorOk N}.

(** ** What a step does to the connection of each object *)

(** Steps that leave the connection event and the completion queue alone. *)
Definition same_line (x z : Rpc) : Prop :=
  server_completion_queue_ z = server_completion_queue_ x ∧
  new_connection_event_ z = new_connection_event_ x.

Definition keeps_lines (w w' : World) : Prop :=
  ∀ r m z, heap_ w' !! r = Some (m, z) → ∃ n x, heap_ w !! r = Some (n, x) ∧ same_line x z.

#[global] Instance keeps_lines_preorder : PreOrder keeps_lines.
Proof.
  split; [by intros w r m z Hz; exists m, z|]. intros w1 w2 w3 R1 R2 r m z Hz.
  destruct (R2 _ _ _ Hz) as (n & y & Hy & E1 & E2). destruct (R1 _ _ _ Hy) as (k & x & Hx & E3 & E4).
  exists k, x. split; [done|]. split; congruence.
Qed.

Lemma kl_same w w' : heap_ w' = heap_ w → keeps_lines w w'.
Proof. intros E r m z. rewrite E. intros Hz. by exists m, z. Qed.

Lemma kl_insert r n x m z w :
  heap_ w !! r = Some (n, x) → same_line x z → keeps_lines w (upd_heap (insert r (m, z)) w).
Proof.
  intros Hx Hs r' k y. simpl. intros [[<- [= <- <-]]|[_ Hy]]%lookup_insert_Some; [by exists n, x|].
  by exists k, y.
Qed.

Lemma kl_release p : preserves keeps_lines (release p).
Proof.
  intros w. unfold wlp, release.
  assert (∀ f, keeps_lines w (upd_heap (delete p) (upd_spans f w))) as Hd.
  { intros f r m z. simpl. intros [_ Hz]%lookup_delete_Some. by exists m, z. }
  destruct (heap_ w !! p) as [[[|[|n]] x]|] eqn:Hx; try done. by eapply kl_insert.
Qed.

Lemma kl_writer_step i w w' : exec (LWriterStep i) w = Ok tt w' → keeps_lines w w'.
Proof.
  intros Hx. destruct (threads w !! i) as [t|] eqn:Ht.
  - assert (∀ p, preserves keeps_lines (deref p)) as Hd.
    { intros p w0. unfold wlp, deref. repeat case_match; simplify_eq; done. }
    assert (∀ q p, preserves keeps_lines (push_event q p)) as Hpu.
    { intros q p w0. unfold wlp, push_event. repeat case_match; simplify_eq; try done; by apply kl_same. }
    eapply (writer_step_frame keeps_lines i t); [done|..|exact Hx]; auto using kl_release.
    + intros it. unfold EnqueueMessage. apply preserves_bind; [apply _| |intros _];
        [intros w0; unfold wlp, store; destruct (heap_ w0 !! _) as [[n x]|] eqn:E; [by eapply kl_insert|done]|].
      apply preserves_modify. intros w0. by apply kl_same.
    + unfold ActiveRpcs_GetWeakPtr. preserves_tac.
    + unfold push_write_needed. by apply preserves_bind; [apply _|apply Hd|].
    + intros f. apply preserves_modify. intros w0. by apply kl_same.
    + intros f. apply preserves_modify. intros w0. by apply kl_same.
    + intros f. apply preserves_modify. intros w0. by apply kl_same.
  - simpl in Hx. unfold Writer_step, mbind, M_bind, get in Hx. rewrite Ht in Hx. by injection Hx as <-.
Qed.

Lemma kl_writer_begin r op w w' : exec (LWriterBegin r op) w = Ok tt w' → keeps_lines w w'.
Proof.
  simpl. intros (b & w1 & Hx & [= <-])%bind_Ok. unfold Writer_begin in Hx.
  apply bind_Ok in Hx as (l & w2 & Hl & Hx).
  assert (keeps_lines w w2) as Hk.
  { unfold lock in Hl. destruct (heap_ w !! r) as [[n x]|] eqn:E; injection Hl as _ <-; [|done].
    by eapply kl_insert. }
  etransitivity; [exact Hk|]. destruct l; [|by injection Hx as _ <-].
  apply bind_Ok in Hx as ([] & w3 & [= <-] & [= _ <-]). by apply kl_same.
Qed.

(** Where the connection of an object of [w'] comes from. *)
Inductive line (w : World) (l : Label) (r : RpcPtr) (z : Rpc) : Prop :=
  | line_same n x :
      heap_ w !! r = Some (n, x) →
      server_completion_queue_ z = server_completion_queue_ x →
      is_pending z NEW_CONNECTION = is_pending x NEW_CONNECTION →
      (is_pending x NEW_CONNECTION = true → new_connection_event_ z = new_connection_event_ x) →
      line w l r z
  | line_accepted n x :
      heap_ w !! r = Some (n, x) →
      server_completion_queue_ z = server_completion_queue_ x →
      is_pending x NEW_CONNECTION = true → ok (new_connection_event_ x) = true → line w l r z
  | line_reported n x b payload :
      heap_ w !! r = Some (n, x) → l = LCompletion r NEW_CONNECTION b payload →
      server_completion_queue_ z = server_completion_queue_ x →
      is_pending z NEW_CONNECTION = true → ok (new_connection_event_ z) = b → line w l r z
  | line_new r0 n0 x0 :
      next_ptr w ≤ r → heap_ w !! r0 = Some (n0, x0) →
      server_completion_queue_ z = server_completion_queue_ x0 →
      is_pending z NEW_CONNECTION = true → ok (new_connection_event_ z) = false → line w l r z.

Lemma line_untouched w l r n x : heap_ w !! r = Some (n, x) → line w l r x.
Proof. intros Hx. by apply (line_same w l r x n x). Qed.

Lemma line_keeps w l w' r m z : keeps_lines w w' → heap_ w' !! r = Some (m, z) → line w l r z.
Proof.
  intros Hk Hz. destruct (Hk _ _ _ Hz) as (n & x & Hx & Ec & Ee).
  eapply line_same; [done|done| |done]. unfold is_pending. simpl. by rewrite Ee.
Qed.

(** Handling something for a connected object. *)
Lemma line_handled l r n m x y w w2 w' r' k z :
  heap_ w !! r = Some (n, x) → is_pending x NEW_CONNECTION = false →
  fixed y = fixed x → heap_ w2 = <[r := (m, y)]> (heap_ w) → touches r w2 w' →
  heap_ w' !! r' = Some (k, z) → line w l r' z.
Proof.
  intros Hx Hp Hf Eh Ht Hz. destruct (decide (r' = r)) as [->|Hne].
  - destruct (t_fixed _ _ _ Ht _ _ Hz) as (n0 & x0 & E0 & Hf0).
    rewrite Eh, lookup_insert_eq in E0. injection E0 as <- <-. rewrite Hf in Hf0.
    injection Hf0 as _ Ec _ Ep. eapply line_same; [done..|]. congruence.
  - rewrite (touches_other r w2 w' r' Ht Hne), Eh, lookup_insert_ne in Hz by done.
    by eapply line_untouched.
Qed.

Lemma line_connection l r n x w w2 w' r' k z :
  inv N w → inv N w' → heap_ w !! r = Some (n, x) → is_pending x NEW_CONNECTION = true →
  ok (new_connection_event_ x) = negb (shutting_down_ w) → quiet w w2 →
  heap_ w2 = <[r := (n, cleared NEW_CONNECTION x)]> (heap_ w) →
  handling N (λ _, 0) r connecting w2 →
  HandleNewConnection r (negb (shutting_down_ w)) w2 = Ok tt w' →
  heap_ w' !! r' = Some (k, z) → line w l r' z.
Proof.
  intros Hinv Hinv' Hx Hp Hok (_ & En & Ed) Eh Hh Hrun Hz.
  assert (heap_ w2 !! r = Some (n, cleared NEW_CONNECTION x)) as Hx2
    by (rewrite Eh; apply lookup_insert_eq).
  assert (∀ w1, touches r w2 w1 → r' ≠ r → heap_ w1 !! r' = heap_ w !! r') as Hoth.
  { intros w1 Ht Hne. by rewrite (touches_other r w2 w1 r' Ht Hne), Eh, lookup_insert_ne. }
  destruct (shutting_down_ w) eqn:Hsd.
  - destruct (connection_refused r w2 w' ltac:(congruence) Hrun) as [Ht Hnin].
    destruct (decide (r' = r)) as [->|Hne]; [by destruct Hnin; eapply (inv_active N w')|].
    rewrite (Hoth w') in Hz by done. by eapply line_untouched.
  - destruct (connection_accepted N r n _ w2 w' Hh Hx2 ltac:(congruence) Hrun)
      as (w1 & y & _ & Ht & _ & _ & _ & Eh' & Hy & _ & Ec & Ho).
    rewrite Eh' in Hz. apply lookup_insert_Some in Hz as [[<- [= _ <-]]|[_ Hz]].
    + rewrite (t_next _ _ _ Ht), En. by eapply (line_new w l (next_ptr w) y r n x).
    + destruct (decide (r' = r)) as [->|Hne].
      * destruct (t_fixed _ _ _ Ht _ _ Hz) as (n0 & x0 & E0 & Hf0). rewrite Hx2 in E0.
        injection E0 as <- <-. injection Hf0 as _ Ecz _ _. by eapply line_accepted.
      * rewrite (Hoth w1) in Hz by done. by eapply line_untouched.
Qed.

Lemma step_line w l w' r m z :
  inv N w → inv N w' → step w l w' → conn_ok w l → heap_ w' !! r = Some (m, z) → line w l r z.
Proof.
  intros Hinv Hinv' [Henv Hx] Hok Hz. destruct (shared_label l) eqn:Hsh.
  { destruct (shared_step w l w' Hx Hsh) as (E & _). rewrite E in Hz. by eapply line_untouched. }
  destruct l as [r0 e b payload|q|r0 op|i| | |c]; try done.
  - destruct (completion_object N _ _ _ _ _ _ (proj1 Hinv) Henv) as (n & x & bq & Hx0 & Hp & Hwn & Hbq & Hsz).
    pose proof (wp_completion_exact w r0 e b payload n x bq
      (λ _ w', heap_ w' = <[r0 := (n, completed e b payload x)]> (heap_ w)) Hx0 Hwn Hbq Hsz) as Hw.
    unfold wp in Hw. rewrite Hx in Hw. rewrite Hw in Hz by (by destruct (_ && _)).
    apply lookup_insert_Some in Hz as [[<- [= _ <-]]|[_ Hz]]; [|by eapply line_untouched].
    destruct (decide (e = NEW_CONNECTION)) as [->|Hne].
    + eapply (line_reported _ _ _ _ n x b payload); try done; by destruct payload.
    + by eapply (line_same _ _ _ _ n x); try done; destruct e, payload.
  - destruct (exec_event_step N w q w' Hinv Hok Hx)
      as [_ Eh|r0 n x w2 Hr Hp Hb Hq Eh Hh Hrun|r0 e b n x w2 Hr Hp Hne Hc Hq Eh Hrun
         |r0 n x w1 w2 Hr Hc Hq Eh Hrun Hrel].
    + rewrite Eh in Hz. by eapply line_untouched.
    + by eapply (line_connection _ r0 n x w w2 w').
    + eapply (line_handled _ r0 n n x (cleared e x) w w2 w'); try done; [apply Hc|by destruct e|].
      exact (preserves_Ok _ _ _ _ _ (tc_HandleEvent r0 e b Hne) Hrun).
    + eapply (line_handled _ r0 n (S n) x x w w1 w'); try done; [apply Hc|]. transitivity w2.
      * by eapply (preserves_Ok _ _ _ _ _ (tc_HandleEvent r0 WRITE true ltac:(done))).
      * exact (preserves_Ok _ _ _ _ _ (tc_release r0) Hrel).
  - eapply line_keeps; [by eapply kl_writer_begin|done].
  - eapply line_keeps; [by eapply kl_writer_step|done].
Qed.

(** ** Calls that have not started *)

(** An object of a call that has not started waits for a connection, and gRPC
    has not reported one; every object lives on one of the queues [cqs]. *)
Definition tracked (cqs : list nat) (w : World) : Prop :=
  ∀ r n x, heap_ w !! r = Some (n, x) →
    server_completion_queue_ x ∈ cqs ∧
    (r ∉ started w → is_pending x NEW_CONNECTION = true ∧ ok (new_connection_event_ x) = false).

Lemma tracked_step cqs w l w' :
  inv N w → inv N w' → step w l w' → conn_ok w l → tracked cqs w → tracked cqs w'.
Proof.
  intros Hinv Hinv' Hstep Hok T r m z Hz. pose proof Hstep as [Henv Hx].
  pose proof (exec_started w l w' Hx) as Hg.
  destruct (step_line w l w' r m z Hinv Hinv' Hstep Hok Hz)
    as [n x Hx0 Ec Ep Ee|n x Hx0 Ec Hp Ho|n x b payload Hx0 -> Ec Hp Ho|r0 n0 x0 _ Hx0 Ec Hp Ho].
  - destruct (T _ _ _ Hx0) as [Hc Hs]. rewrite Ec. split; [done|]. intros Hr.
    destruct Hs as [Hp Ho]; [by intros ?; apply Hr, Hg|]. by rewrite Ep, Ee.
  - destruct (T _ _ _ Hx0) as [Hc Hs]. rewrite Ec. split; [done|]. intros Hr.
    destruct Hs as [_ Ho']; [by intros ?; apply Hr, Hg|]. congruence.
  - destruct (T _ _ _ Hx0) as [Hc _]. rewrite Ec. split; [done|]. intros Hr. split; [done|].
    destruct b; [exfalso|done].
    destruct (completion_object N _ _ _ _ _ _ (proj1 Hinv) Henv) as (n' & x' & bq & Hx' & _ & Hwn & Hbq & Hsz).
    pose proof (wp_completion_exact w r NEW_CONNECTION true payload n' x' bq
      (λ _ w', started w' = {[r]} ∪ started w) Hx' Hwn Hbq Hsz eq_refl) as Hw.
    unfold wp in Hw. rewrite Hx in Hw.
    apply Hr. rewrite Hw. by apply elem_of_union_l, elem_of_singleton.
  - rewrite Ec. by split; [apply (T _ _ _ Hx0)|].
Qed.

Definition fresh_on (cqs : list nat) (w : World) : Prop :=
  ∀ r n x, heap_ w !! r = Some (n, x) →
    server_completion_queue_ x ∈ cqs ∧ ok (new_connection_event_ x) = false.

Lemma wp_start_fresh i info all cqs w :
  inv N w → fresh_on all w → cqs ⊆ all →
  wp (for_each cqs (λ cq,
        q ← event_queue_selector_;
        rpc ← make_unique_Rpc i cq q info;
        ActiveRpcs_Add rpc ;; RequestNextMethodInvocation rpc ;; release rpc))
    (λ _ w', inv N w' ∧ fresh_on all w') w.
Proof.
  revert w. induction cqs as [|cq cqs IH]; intros w Hinv Hf Hsub; [by apply wp_ret|].
  apply wp_bind. apply (wp_start_one N i cq info); [done|]. intros w' q Hinv' _ _ _ Eh.
  apply IH; [done| |set_solver].
  intros r n x. rewrite Eh. intros [[_ [= _ <-]]|[_ Hx]]%lookup_insert_Some; [|by eapply Hf].
  unfold Rpc_new. destruct (InitializeReadersAndWriters _) as [[[? ?] ?] ?]. simpl.
  split; [set_solver|done].
Qed.

Lemma wp_StartServing_fresh infos cqs w :
  inv N w → fresh_on cqs w → wp (StartServing infos cqs) (λ _ w', fresh_on cqs w') w.
Proof.
  unfold StartServing. generalize 0 as i. revert w.
  induction infos as [|info infos IH]; intros w i Hinv Hf; simpl; [by apply wp_ret|].
  apply wp_bind. eapply wp_mono; [by apply (wp_start_fresh i info cqs)|].
  intros [] w' [? ?]. by apply IH.
Qed.

Lemma calm_tracked infos cqs s c w : sel_inv s → calm_run N infos cqs s c w → tracked cqs w.
Proof.
  intros Hs. induction 1 as [w Hstart|w l w' Hrun IH Hstep Hok Hrace].
  - destruct (calm_start_waiting N _ _ _ _ _ Hs Hstart) as (Hw & _ & _).
    assert (fresh_on cqs w) as Hf.
    { pose proof (wp_StartServing_fresh infos cqs _ (inv_init N s c Hs)) as Hwp. unfold wp in Hwp.
      rewrite Hstart in Hwp. apply Hwp. by intros r n x. }
    intros r n x Hx. destruct (Hf _ _ _ Hx). split; [done|]. intros _. by split; [eapply Hw|].
  - eapply (tracked_step cqs w l); try done; [by eapply calm_run_inv|].
    by eapply calm_run_inv; [|eapply calm_step].
Qed.

(** ** Completion queues that are drained *)

(** What is left of a completion queue whose thread has returned: the [DONE]
    tags of calls that never started and will not. *)
Definition drained (i : nat) (w : World) : Prop :=
  ∀ r n x e, heap_ w !! r = Some (n, x) → server_completion_queue_ x = i → (r, e) ∈ inflight w →
    e = DONE ∧ is_pending x NEW_CONNECTION = true ∧ ok (new_connection_event_ x) = false.

(** No operation was started on the completion queue [i]. *)
Definition spares (i : nat) (w w' : World) : Prop :=
  ∀ r n x e, heap_ w' !! r = Some (n, x) → (r, e) ∈ inflight w' → (r, e) ∉ inflight w →
    server_completion_queue_ x ≠ i.

Lemma drained_step i w l w' :
  inv N w → inv N w' → step w l w' → conn_ok w l → drained i w → spares i w w' →
  (∀ r e b payload n x, l = LCompletion r e b payload → heap_ w !! r = Some (n, x) →
     server_completion_queue_ x ≠ i) →
  drained i w'.
Proof.
  intros Hinv Hinv' Hstep Hok D Hsp Hl r m z e Hz Hc Hin.
  destruct (decide ((r, e) ∈ inflight w)) as [Hin0|Hn]; [|by destruct (Hsp r m z e)].
  destruct (step_line w l w' r m z Hinv Hinv' Hstep Hok Hz)
    as [n x Hx0 Ec Ep Ee|n x Hx0 Ec Hp Ho|n x b payload Hx0 -> Ec Hp Ho|r0 n0 x0 Hge Hx0 Ec Hp Ho].
  - destruct (D _ _ _ _ Hx0 ltac:(congruence) Hin0) as (-> & Hp & Ho). by rewrite Ep, Ee.
  - destruct (D _ _ _ _ Hx0 ltac:(congruence) Hin0) as (_ & _ & Ho'). congruence.
  - by destruct (Hl r NEW_CONNECTION b payload n x eq_refl Hx0); rewrite <- Ec.
  - destruct Hinv as (C & _). destruct (c_fresh _ _ _ C r Hge) as (_ & _ & _ & Hf & _).
    by destruct (Hf e).
Qed.

(** ** Event queues that hold no completion *)

Definition no_tags (q : QueuePtr) (w : World) : Prop :=
  ∀ bq, event_queues w !! q = Some bq → tags bq = [].

Definition fewer_tags (w w' : World) : Prop := ∀ q, no_tags q w → no_tags q w'.

#[global] Instance fewer_tags_preorder : PreOrder fewer_tags.
Proof. split; [by intros w q|]. intros w1 w2 w3 F1 F2 q Hq. by apply F2, F1. Qed.

Lemma tags_write_needed l : Forall is_write_needed l → omap tag_in l = [].
Proof. induction 1 as [|p l (r & E & _) _ IH]; simpl; [done|]. unfold tag_in at 1. by rewrite E. Qed.

Lemma appends_fewer w w' :
  length (event_queues w') = length (event_queues w) → appends w w' → fewer_tags w w'.
Proof.
  intros El Ha q Hq bq' Hbq'.
  destruct (lookup_lt_is_Some_2 (event_queues w) q) as [bq Hbq].
  { rewrite <- El. by eapply lookup_lt_Some. }
  destruct (Ha _ _ Hbq) as (l & Hl & Hf). rewrite Hbq' in Hl. injection Hl as ->.
  unfold tags. simpl. rewrite omap_app, (tags_write_needed l), app_nil_r by done. by apply Hq.
Qed.

Lemma fewer_same w w' : event_queues w' = event_queues w → fewer_tags w w'.
Proof. intros E q Hq bq. rewrite E. by apply Hq. Qed.

Lemma event_fewer q w w' : inv N w → inv N w' → exec (LEvent q) w = Ok tt w' → fewer_tags w w'.
Proof.
  intros (C & _) (C' & _) (found & w2 & Hrun & [= <-])%bind_Ok.
  apply bind_Ok in Hrun as (r & w1 & Hpop & Hrun).
  unfold pop_event in Hpop. destruct (event_queues w !! q) as [bq|] eqn:Hq; [|done].
  unfold PopWithTimeout, QueueEmptyCondition, pop_front in Hpop.
  destruct (deque_ bq) as [|p d] eqn:Hd; simpl in Hpop; injection Hpop as <- <-.
  { injection Hrun as _ <-. apply fewer_same. simpl. by apply list_insert_id. }
  apply bind_Ok in Hrun as ([] & w3 & Hh & [= _ <-]).
  etransitivity; [|eapply appends_fewer; [|exact (preserves_Ok _ _ _ _ _ (ap_Handle _) Hh)]].
  - intros q' Hn bq'. simpl. intros [(-> & <- & _)|[_ Hb]]%list_lookup_insert_Some; [|by apply Hn].
    specialize (Hn _ Hq). unfold tags in *. rewrite Hd in Hn. simpl in *. by destruct (tag_in p).
  - simpl. rewrite length_insert. by rewrite (c_len _ _ _ C), (c_len _ _ _ C').
Qed.

Lemma exec_fewer w l w' :
  inv N w → inv N w' → exec l w = Ok tt w' → (∀ r e b payload, l ≠ LCompletion r e b payload) →
  fewer_tags w w'.
Proof.
  intros Hinv Hinv' Hx Hl. assert (appends w w' → fewer_tags w w') as Ha.
  { destruct Hinv as (C & _), Hinv' as (C' & _). apply appends_fewer.
    by rewrite (c_len _ _ _ C), (c_len _ _ _ C'). }
  destruct l as [r e b payload|q|r op|i| | |c]; [by destruct (Hl r e b payload)|..].
  - by eapply event_fewer.
  - apply Ha. apply bind_Ok in Hx as (b & w1 & Hx & [= <-]).
    exact (preserves_Ok _ _ _ _ _ (ap_Writer_begin r op) Hx).
  - apply Ha. destruct (threads w !! i) as [t|] eqn:Ht.
    + eapply (writer_step_frame appends i t); [done|..|exact Hx]; intros;
        auto using ap_EnqueueMessage, ap_GetWeakPtr, ap_push, ap_deref, ap_release;
        apply preserves_modify; intros w0; by apply appends_same.
    + simpl in Hx. unfold Writer_step, mbind, M_bind, get in Hx. rewrite Ht in Hx.
      by injection Hx as <-.
  - injection Hx as <-. by apply fewer_same.
  - apply bind_Ok in Hx as (b & w1 & Hx & [= <-]). apply Ha.
    exact (preserves_Ok _ _ _ _ _ ap_selector Hx).
  - injection Hx as <-. by apply fewer_same.
Qed.

(** ** Nothing left *)

(** A service all of whose completion queues are drained and whose event
    queues hold no completion has no RPC left. *)
Lemma idle_service infos cqs s c w :
  sel_inv s → calm_run N infos cqs s c w → (∀ i, i ∈ cqs → drained i w) →
  (∀ q, q < N → no_tags q w) → rpcs_ w = ∅.
Proof.
  intros Hs Hrun Hd Hq. pose proof (calm_lively N _ _ _ _ _ Hs Hrun) as L.
  pose proof (calm_tracked _ _ _ _ _ Hs Hrun) as T.
  destruct (calm_run_inv N _ _ _ _ _ Hs Hrun) as (C & _).
  apply set_eq. intros r. split; [|set_solver]. intros Hr. exfalso.
  destruct (L r Hr) as (n & x & Hx & Ha). destruct (T _ _ _ Hx) as [Hc _].
  assert (∀ e, is_pending x e = true → (r, e) ∈ inflight w) as Hfly.
  { intros e Hp. destruct (c_complete _ _ _ C _ _ _ _ Hx Hp) as [Hin|(bq & Hb & Hin)]; [done|].
    rewrite (Hq (event_queue_ x)) in Hin; [by apply elem_of_nil in Hin| |done].
    rewrite <- (c_len _ _ _ C). by eapply lookup_lt_Some. }
  assert (is_pending x NEW_CONNECTION = true) as Hnc.
  { unfold any_pending in Ha. rewrite !orb_true_iff in Ha.
    assert (∃ e, is_pending x e = true) as [e He] by naive_solver.
    by destruct (Hd _ Hc _ _ _ _ Hx eq_refl (Hfly _ He)) as (_ & ? & _). }
  by destruct (Hd _ Hc _ _ _ _ Hx eq_refl (Hfly _ Hnc)) as [? _].
Qed.

End drain.
