(* ===== verification/ServiceExamples.v ===== *)
(** * Executable runs

    A checker for the side conditions of steps, so that concrete runs of the
    model are established by evaluation, and a small service to run. *)

From Stdlib Require Import ZArith Lia.
From stdpp Require Import base option list strings gmap.
From S2P Require Import Prelude Interfaces BlockingQueue Rpc Service ServiceInv ServiceLemmas.
From S2P Require Import ServiceHandlers ServiceSafety ServiceSteps.
Import Event EventDeleter.

Set Default Proof Using "Type".

Section checker.
Context `{GrpcStatus, Application, EventQueueSelector}.

Definition env_okb (w : World) (l : Label) : bool :=
  match l with
  | LCompletion r e b payload =>
      bool_decide ((r, e) ∈ inflight w) &&
      (negb (bool_decide (e = DONE)) || bool_decide (r ∈ started w)) &&
      match payload with
      | None => true
      | Some _ => b && (bool_decide (e = READ) ||
          bool_decide (e = NEW_CONNECTION) &&
          match heap_ w !! r with
          | Some (_, x) => unary_request (rpc_type (rpc_handler_info_ x))
          | None => false
          end)
      end
  | LEvent q => bool_decide (q < length (event_queues w))
  | LWriterBegin r _ => bool_decide (r ∈ weak_refs w)
  | LWriterStep i => bool_decide (i < length (threads w))
  | LStopServing | LOtherSelects | LOtherContext _ => true
  end.

Definition conn_okb (w : World) (l : Label) : bool :=
  match l with
  | LEvent q =>
      match event_queues w !! q with
      | Some bq =>
          match deque_ bq with
          | p :: _ =>
              match event_ptr p with
              | CompletionEvent r NEW_CONNECTION =>
                  match heap_ w !! r with
                  | Some (_, x) =>
                      Bool.eqb (ok (new_connection_event_ x)) (negb (shutting_down_ w))
                  | None => true
                  end
              | _ => true
              end
          | [] => true
          end
      | None => true
      end
  | _ => true
  end.

Definition no_raceb (w w' : World) : bool :=
  forallb (λ t, negb (bool_decide (wt_rpc t ∈ rpcs_ w)) || bool_decide (wt_rpc t ∈ rpcs_ w'))
    (threads w).

Lemma env_okb_sound w l : env_okb w l = true → env_ok w l.
Proof.
  destruct l as [r e b payload|q|r op|i| | |c]; simpl; intros Hb;
    try (by apply bool_decide_eq_true in Hb); [|done..].
  apply andb_true_iff in Hb as [[Hin%bool_decide_eq_true Hd]%andb_true_iff Hp].
  split_and!; [done| |].
  - intros ->. apply orb_true_iff in Hd as [Hd|Hd%bool_decide_eq_true]; [|done].
    by rewrite bool_decide_eq_true_2 in Hd.
  - intros [m ->]. apply andb_true_iff in Hp as [-> Hp]. split; [done|].
    apply orb_true_iff in Hp as [Hp%bool_decide_eq_true|Hp]; [by left|right].
    apply andb_true_iff in Hp as [Hp%bool_decide_eq_true Hu]. split; [done|].
    destruct (heap_ w !! r) as [[n x]|]; [|done]. eauto.
Qed.

Lemma conn_okb_sound w l : conn_okb w l = true → conn_ok w l.
Proof.
  destruct l as [r e b payload|q|r op|i| | |c]; simpl; try done.
  intros Hb bq p d r n x Hq Hd Hp Hx. rewrite Hq, Hd, Hp, Hx in Hb. by apply Bool.eqb_prop.
Qed.

Lemma no_raceb_sound w w' : no_raceb w w' = true → no_race w w'.
Proof.
  unfold no_raceb. rewrite forallb_forall. intros Hb t Ht Hact.
  specialize (Hb t). rewrite <- list_elem_of_In in Hb. apply Hb in Ht.
  apply orb_true_iff in Ht as [Ht|Ht%bool_decide_eq_true]; [|done].
  by rewrite bool_decide_eq_true_2 in Ht.
Qed.

(** Executes a list of labels; with [calm], only steps of calm runs. *)
Fixpoint exec_labels (calm : bool) (ls : list Label) (w : World) : option World :=
  match ls with
  | [] => Some w
  | l :: ls' =>
      if env_okb w l then
        match exec l w with
        | Ok _ w' =>
            if negb calm || (conn_okb w l && no_raceb w w') then exec_labels calm ls' w' else None
        | Fail _ => None
        end
      else None
  end.

Definition run_service (calm : bool) (infos : list RpcHandlerInfo) (cqs : list nat) (n : nat)
    (s : sel_state) (c : Context_) (ls : list Label) : option World :=
  match StartServing infos cqs (world_init n s c) with
  | Ok _ w => exec_labels calm ls w
  | Fail _ => None
  end.

Lemma run_service_sound infos cqs n s c ls w :
  run_service false infos cqs n s c ls = Some w → run infos cqs n s c w.
Proof.
  unfold run_service. destruct (StartServing _ _ _) as [[] w0|] eqn:Hs; [|done].
  pose proof (run_start infos cqs n s c _ Hs) as Hr. clear Hs. revert w0 Hr.
  induction ls as [|l ls IH]; simpl; intros w0 Hr Hls; [by simplify_eq|].
  destruct (env_okb w0 l) eqn:He; [|done]. destruct (exec l w0) as [[] w1|] eqn:Hx; [|done].
  eapply IH; [|done]. eapply run_step; [done|]. split; [by apply env_okb_sound|done].
Qed.

Lemma run_service_calm infos cqs n s c ls w :
  run_service true infos cqs n s c ls = Some w → calm_run n infos cqs s c w.
Proof.
  unfold run_service. destruct (StartServing _ _ _) as [[] w0|] eqn:Hs; [|done].
  pose proof (calm_start n infos cqs s c _ Hs) as Hr. clear Hs. revert w0 Hr.
  induction ls as [|l ls IH]; simpl; intros w0 Hr Hls; [by simplify_eq|].
  destruct (env_okb w0 l) eqn:He; [|done]. destruct (exec l w0) as [[] w1|] eqn:Hx; [|done].
  destruct (conn_okb w0 l && no_raceb w0 w1) eqn:Hc; [|done].
  apply andb_true_iff in Hc as [Hc Hn]. eapply IH; [|done].
  eapply calm_step; [done|split; [by apply env_okb_sound|done]|by apply conn_okb_sound
    |by apply no_raceb_sound].
Qed.

Lemma run_service_default infos cqs n s c ls w0 :
  match run_service true infos cqs n s c ls with Some _ => true | None => false end = true →
  calm_run n infos cqs s c (default w0 (run_service true infos cqs n s c ls)).
Proof.
  destruct (run_service true infos cqs n s c ls) as [w|] eqn:E; [|done]. intros _.
  by apply run_service_calm in E.
Qed.

(** Evaluating a condition on the object at an address. *)
Lemma object_check (w : World) r (f : nat → Rpc → bool) :
  match heap_ w !! r with Some (n, x) => f n x | None => false end = true →
  ∃ n x, heap_ w !! r = Some (n, x) ∧ f n x = true.
Proof. destruct (heap_ w !! r) as [[n x]|]; [eauto|done]. Qed.

End checker.

(** ** A service with one unary method

    The handler of src/async_grpc/server_test.cc for [GetSquare], which also
    hands out a writer. *)
Module Square.
#[export] Existing Instance example_status.
#[export] Existing Instance example_application.

#[export] Instance selector : EventQueueSelector :=
  {| sel_state := unit; sel_next := λ s, Ok 0 s |}.

#[export] Program Instance selector_ok : SelectorOk 1 := {| sel_inv := λ _, True |}.
Next Obligation. intros s _. split; [lia|done]. Qed.

Definition handler : RpcHandlerClass :=
  mkHandlerClass (λ c, (0%Z, c, []))
    (λ m h c, (h, c, [ASend (m * m)%Z; AGetWriter]))
    (λ h c, (h, c, [])) (λ h c, (h, c, [])).

Definition info : RpcHandlerInfo :=
  mkRpcHandlerInfo tt tt handler NORMAL_RPC "/async_grpc.proto.Math/GetSquare".

(** The world after a list of steps (or the initial one when a step is not
    possible, which the witnesses rule out). *)
Definition after (calm : bool) (ls : list Label) : World :=
  default (world_init 1 tt 0%Z) (run_service calm [info] [0] 1 tt 0%Z ls).

Lemma after_run ls :
  run_service false [info] [0] 1 tt 0%Z ls <> None →
  run [info] [0] 1 tt 0%Z (after false ls).
Proof.
  unfold after. destruct (run_service _ _ _ _ _ _ ls) eqn:E; [|done].
  intros _. by apply run_service_sound in E.
Qed.

Lemma after_calm ls :
  run_service true [info] [0] 1 tt 0%Z ls <> None →
  calm_run 1 [info] [0] tt 0%Z (after true ls).
Proof.
  unfold after. destruct (run_service _ _ _ _ _ _ ls) eqn:E; [|done].
  intros _. by apply run_service_calm in E.
Qed.

(** A connection, the handler's answer and the finish of the call. *)
Definition answered : list Label :=
  [LCompletion 0 NEW_CONNECTION true (Some 11%Z); LEvent 0; LEvent 0;
   LCompletion 0 FINISH true None; LEvent 0].

End Square.
