(* ===== verification/ThreadProps.v ===== *)
(** * Properties of interleaving event queue threads

    The theorems about the service whose event queue threads interleave at
    every access to shared state, and the concrete runs they are tried on. *)

From Stdlib Require Import ZArith Lia.
From stdpp Require Import base option list strings gmap.
From S2P Require Import Prelude Resumption Interfaces BlockingQueue Rpc Service ServiceThreads.
From S2P Require Import ServiceInv ServiceLemmas ServiceHandlers ServiceSafety ServiceSteps.
From S2P Require Import ServiceFlow ServiceProtocol ServiceOrder HandlerReplay ServiceLeak ThreadInv.
From S2P Require Import ThreadFrame ThreadSafety ThreadHandlers ThreadTurn ThreadEvents ThreadRuns.
From S2P Require Import ThreadFlow ServiceExamples.
Import Event EventDeleter.

Set Default Proof Using "Type".

Section properties.
Context `{GrpcStatus, Application, EventQueueSelector} (N : nat) `{!SelectorOk N}.

(** Runs in which connections succeed exactly until [StopServing], no RPC is
    removed while another shared pointer to it exists, and writers find the
    handler in place. *)
Inductive calm_trun (infos : list RpcHandlerInfo) (cqs : list nat) (s : sel_state)
    (c : Context_) : Threaded → Prop :=
  | calm_tstart w :
      StartServing infos cqs (world_init N s c) = Ok tt w → calm_trun infos cqs s c (tinit N w)
  | calm_tstep t l t' :
      calm_trun infos cqs s c t → tstep t l t' → calm_pre t l →
      sole_removal (shared t) (shared t') → calm_trun infos cqs s c t'.

Lemma held_free n r : held (replicate n Free) r = 0.
Proof. unfold held. induction n as [|n IH]; [done|]. exact IH. Qed.

Lemma tinv_start infos cqs s c w :
  sel_inv s → StartServing infos cqs (world_init N s c) = Ok tt w → tinv N (tinit N w).
Proof.
  intros Hs Hstart. pose proof (calm_start N _ _ _ _ _ Hstart) as Hrun.
  pose proof (calm_run_inv N _ _ _ _ _ Hs Hrun) as Hinv. pose proof Hinv as (C & Hph & Hthr).
  destruct (calm_start_waiting N _ _ _ _ _ Hs Hstart) as (Hwait & _ & _).
  exists (replicate N Free). unfold tinit. cbn [shared turns].
  assert (∀ q l, replicate N Free !! q = Some l → l = Free) as Hfree
    by (by intros q l [-> _]%lookup_replicate).
  split_and!; [|apply length_replicate|].
  - split.
    + eapply core_ext; [|exact C]. intros r. by rewrite held_free.
    + intros r n x Hx _. split; [by eapply Hph|].
      destruct (calm_lively N _ _ _ _ _ Hs Hrun r) as (m & y & Hy & Ha);
        [by eapply inv_active|congruence].
    + intros r n x Hx. by eapply (f_read _ _ (run_flow _ _ _ _ _ _ (calm_run_run N _ _ _ _ _ Hrun))).
    + done.
    + intros q bq r n x Hq Hin Hx. exfalso. specialize (Hph _ _ _ Hx). unfold phase in Hph.
      rewrite (Hwait _ _ _ Hx) in Hph. destruct Hph as (_ & _ & _ & _ & _ & Hm & _).
      apply Hm. right. eauto.
    + by intros q l ->%Hfree.
    + by intros q q' l l' r ->%Hfree.
  - apply triples_idle.
Qed.

Lemma calm_trun_inv infos cqs s c t : sel_inv s → calm_trun infos cqs s c t → tinv N t.
Proof.
  intros Hs. induction 1 as [w Hstart|t l t' Hrun IH [Henv Hx] Hpre Hsole].
  - by eapply tinv_start.
  - pose proof (wp_tstep N t l IH Henv Hpre) as Hw. unfold wp in Hw. rewrite Hx in Hw. auto.
Qed.

(** C1: no step crashes, in whatever way the event queue threads, the
    completion queue threads and the writers interleave.  In every state a
    calm run of the threads can reach, each of them can make its next access
    to shared state: no CHECK or LOG(FATAL) fires, no null pointer and no
    destroyed [Rpc] is used, no push blocks, and no event queue thread gets
    hold of an object that another one is handling. *)
Theorem threaded_step_safe infos cqs s c t l :
  sel_inv s → calm_trun infos cqs s c t → tenv_ok t l → calm_pre t l →
  ∃ t', texec l t = Ok tt t'.
Proof.
  intros Hs Hrun Henv Hpre.
  pose proof (wp_tstep N t l (calm_trun_inv _ _ _ _ _ Hs Hrun) Henv Hpre) as Hwp.
  unfold wp in Hwp. destruct (texec l t) as [[] t'|]; [by exists t'|done].
Qed.

(** C5: on a calm run of the threads, between any two of their accesses, tags
    are never dangling and the bookkeeping is exact: a tag gRPC can still
    return, or an event in an event queue, points into an object that exists,
    is active and has the flag of the event set; and every event whose flag is
    set is with gRPC or in the event queue of its object.  (A run is calm if
    connections succeed exactly until [StopServing], an RPC is removed only
    with its last shared pointer, and writers find the handler in place;
    [refused_connection_dangles] is a run that is not.) *)
Theorem threaded_tags_alive infos cqs s c t r e :
  sel_inv s → calm_trun infos cqs s c t →
  let w := shared t in
  ((r, e) ∈ inflight w → (e = DONE → r ∈ started w) →
     ∃ n x, heap_ w !! r = Some (n, x) ∧ r ∈ rpcs_ w ∧ is_pending x e = true) ∧
  (∀ q, queued w r e q → ∃ n x, heap_ w !! r = Some (n, x) ∧ r ∈ rpcs_ w ∧
     event_queue_ x = q ∧ is_pending x e = true) ∧
  (∀ n x, heap_ w !! r = Some (n, x) → is_pending x e = true →
     (r, e) ∈ inflight w ∨ queued w r e (event_queue_ x)).
Proof.
  intros Hs Hrun. destruct (calm_trun_inv _ _ _ _ _ Hs Hrun) as (locs & G & _).
  pose proof (g_core _ _ _ G) as C. simpl. split_and!.
  - intros Hin Hd. destruct (c_flying _ _ _ C _ _ Hin) as [(n & x & Hx & Hp)|(_ & -> & Hn)].
    + exists n, x. split_and!; try done. by eapply (c_alive _ _ _ C).
    + by destruct (Hn (Hd eq_refl)).
  - intros q Hq. destruct (c_queued _ _ _ C _ _ _ Hq) as (n & x & Hx & ? & Hp & _).
    exists n, x. split_and!; try done. by eapply (c_alive _ _ _ C).
  - intros n x Hx Hp. by eapply (c_complete _ _ _ C).
Qed.

Lemma calm_trun_tidied infos cqs s c t : calm_trun infos cqs s c t → tidied t.
Proof. induction 1; eauto using tidied_start, tidied_step. Qed.

(** C8: one write at a time, on a calm run of the threads, between any two of
    their accesses: at most one of the [WRITE] and [FINISH] tags of an RPC is
    with gRPC, although the thread that took an item off the send queue sends
    it later. *)
Theorem threaded_one_write infos cqs s c t r :
  sel_inv s → calm_trun infos cqs s c t →
  length (filter (λ u, u = (r, WRITE) ∨ u = (r, FINISH)) (inflight (shared t))) ≤ 1.
Proof.
  intros Hs Hrun. destruct (calm_trun_inv _ _ _ _ _ Hs Hrun) as (locs & G & _).
  pose proof (g_core _ _ _ G) as C. destruct (calm_trun_tidied _ _ _ _ _ Hrun) as (ds & T & _).
  apply filter_pair_le_1; [apply (c_nodup _ _ _ C)|]. intros [Hw Hf].
  destruct (c_flying _ _ _ C _ _ Hw) as [(n & x & Hx & Hpw)|(_ & ? & _)]; [|done].
  destruct (c_flying _ _ _ C _ _ Hf) as [(m & y & Hy & Hpf)|(_ & ? & _)]; [|done].
  simplify_eq. pose proof (f_excl _ _ (tf_flow _ _ T) _ _ _ Hx Hpw). congruence.
Qed.

(** C6: order of messages under interleaving.  However the accesses of the
    threads interleave, calm or not, the items handed to gRPC for an RPC are a
    prefix of the items that its handler and its writers enqueued; as long as
    the RPC lives, what is missing is its send queue and, while its event
    queue thread is in the middle of a turn, at most one item that the thread
    took off the queue and is about to send, with no other write pending. *)
Theorem threaded_send_order infos cqs n s c w t r :
  StartServing infos cqs (world_init n s c) = Ok tt w → tsteps (tinit n w) t →
  sent r (grpc_calls (shared t)) `prefix_of` items r (enqueued (shared t)) ∧
  ∀ k x, heap_ (shared t) !! r = Some (k, x) → ∃ in_hand : option SendItem,
    items r (enqueued (shared t)) =
      sent r (grpc_calls (shared t)) ++ option_list in_hand ++ send_queue_ x ∧
    (is_Some in_hand → is_pending x WRITE = false ∧ is_pending x FINISH = false) ∧
    (turns t !! event_queue_ x = Some (Ret tt) → in_hand = None).
Proof.
  intros Hs Hts. pose proof (tidied_steps _ _ (tidied_start _ _ _ _ _ _ Hs) Hts) as Ht. split.
  - destruct Ht as (ds & T & _). apply (f_prefix _ _ (tf_flow _ _ T)).
  - intros k x. by apply tidied_order.
Qed.

(** C7: no forgotten messages under interleaving.  However the accesses of the
    threads interleaved, once the event queue threads have come to the end of
    their turns a send queue of a live RPC that is not empty will be looked at
    again: a write or the finish is pending, a [WRITE_NEEDED] event for it is
    queued, or a writer call is about to queue one; unless the RPC was already
    finished. *)
Theorem threaded_queue_served infos cqs n s c w t r k x :
  StartServing infos cqs (world_init n s c) = Ok tt w → tsteps (tinit n w) t →
  (∀ q p, turns t !! q = Some p → p = Ret tt) →
  heap_ (shared t) !! r = Some (k, x) → send_queue_ x ≠ [] →
  is_pending x WRITE = true ∨ is_pending x FINISH = true ∨ announced (shared t) r ∨
    finished (shared t) r.
Proof.
  intros Hs Hts Hidle Hx Hne.
  pose proof (tidied_served _ _ _ _ (tidied_steps _ _ (tidied_start _ _ _ _ _ _ Hs) Hts) Hx Hidle).
  unfold served in *. tauto.
Qed.

End properties.

(** ** Concrete runs *)

Section checker.
Context `{GrpcStatus, Application, EventQueueSelector}.

Definition tenv_okb (t : Threaded) (l : TLabel) : bool :=
  match l with
  | TShared (LEvent _) => false
  | TShared l => env_okb (shared t) l
  | TTurn q => bool_decide (q < length (turns t))
  end.

Definition access_okb (a : Access) (w : World) : bool :=
  match a with AShuttingDown ok => Bool.eqb ok (negb (shutting_down_ w)) | _ => true end.

Definition calm_preb (t : Threaded) (l : TLabel) : bool :=
  match l with
  | TShared (LWriterStep i) =>
      match threads (shared t) !! i with
      | Some th =>
          match wt_pc th, heap_ (shared t) !! wt_rpc th with
          | AtSpan, Some (_, x) => match handler_ x with Some _ => true | None => false end
          | _, _ => true
          end
      | None => true
      end
  | TShared _ => true
  | TTurn q =>
      match turns t !! q with
      | Some p => match current q p with Ret _ => true | Atom a _ => access_okb a (shared t) end
      | None => true
      end
  end.

Definition sole_removalb (w w' : World) : bool :=
  forallb (λ '(r, (n, _)), negb (1 <? n) || negb (bool_decide (r ∈ rpcs_ w)) ||
    bool_decide (r ∈ rpcs_ w')) (map_to_list (heap_ w)).

Lemma tenv_okb_sound t l : tenv_okb t l = true → tenv_ok t l.
Proof.
  destruct l as [l|q]; [|apply bool_decide_eq_true]. destruct l; try done; apply env_okb_sound.
Qed.

Lemma calm_preb_sound t l : calm_preb t l = true → calm_pre t l.
Proof.
  destruct l as [[]|q]; simpl; try done.
  - intros Hb th n x Hth Hpc Hx. rewrite Hth, Hpc, Hx in Hb. by destruct (handler_ x).
  - intros Hb p a m Hp Hc. rewrite Hp, Hc in Hb. destruct a; try done. by apply Bool.eqb_prop.
Qed.

Lemma sole_removalb_sound w w' : sole_removalb w w' = true → sole_removal w w'.
Proof.
  unfold sole_removalb. rewrite forallb_forall. intros Hb r n x Hx Hn Hr.
  specialize (Hb (r, (n, x))). rewrite <- list_elem_of_In, elem_of_map_to_list in Hb.
  specialize (Hb Hx). rewrite !orb_true_iff, !negb_true_iff in Hb.
  destruct Hb as [[Hb|Hb]|Hb%bool_decide_eq_true]; [|by apply bool_decide_eq_false in Hb|done].
  apply Nat.ltb_ge in Hb. lia.
Qed.

Fixpoint texec_labels (calm : bool) (ls : list TLabel) (t : Threaded) : option Threaded :=
  match ls with
  | [] => Some t
  | l :: ls' =>
      if tenv_okb t l then
        match texec l t with
        | Ok _ t' =>
            if negb calm || (calm_preb t l && sole_removalb (shared t) (shared t'))
            then texec_labels calm ls' t' else None
        | Fail _ => None
        end
      else None
  end.

Definition run_threads (calm : bool) (infos : list RpcHandlerInfo) (cqs : list nat) (n : nat)
    (s : sel_state) (c : Context_) (ls : list TLabel) : option Threaded :=
  match StartServing infos cqs (world_init n s c) with
  | Ok _ w => texec_labels calm ls (tinit n w)
  | Fail _ => None
  end.

(** The state after a list of steps (or an initial one when a step is not
    possible, which the witnesses rule out). *)
Definition tafter (calm : bool) (infos : list RpcHandlerInfo) (cqs : list nat) (n : nat)
    (s : sel_state) (c : Context_) (ls : list TLabel) : Threaded :=
  default (tinit n (world_init n s c)) (run_threads calm infos cqs n s c ls).

Lemma tafter_calm `{!SelectorOk n} infos cqs s c ls :
  match run_threads true infos cqs n s c ls with Some _ => true | None => false end = true →
  calm_trun n infos cqs s c (tafter true infos cqs n s c ls).
Proof.
  unfold tafter, run_threads. destruct (StartServing _ _ _) as [[] w|] eqn:Hs; [|done].
  pose proof (calm_tstart n _ _ _ _ _ Hs) as Hr. revert Hr. generalize (tinit n w) at 1 2 3 as t.
  clear Hs. induction ls as [|l ls IH]; simpl; intros t Hr Hls; [done|].
  destruct (tenv_okb t l) eqn:He; [|done]. destruct (texec l t) as [[] t'|] eqn:Hx; [|done].
  destruct (calm_preb t l && _) eqn:Hc; [|done]. apply andb_true_iff in Hc as [Hc Hn].
  apply IH; [|done]. eapply calm_tstep; [done|split; [by apply tenv_okb_sound|done]
    |by apply calm_preb_sound|by apply sole_removalb_sound].
Qed.

Definition and_then (ls : list TLabel) (t : Threaded) : Threaded :=
  default t (texec_labels false ls t).

Lemma and_then_steps ls t :
  match texec_labels false ls t with Some _ => true | None => false end = true →
  tsteps t (and_then ls t).
Proof.
  unfold and_then. generalize t at 3 as d. revert t.
  induction ls as [|l ls IH]; simpl; intros t d Hls; [constructor|].
  destruct (tenv_okb t l) eqn:He; [|done]. destruct (texec l t) as [[] t'|] eqn:Hx; [|done].
  eapply tsteps_step; [split; [by apply tenv_okb_sound|exact Hx]|]. by apply IH.
Qed.

Lemma tafter_steps infos cqs n s c ls :
  match run_threads false infos cqs n s c ls with Some _ => true | None => false end = true →
  ∃ w, StartServing infos cqs (world_init n s c) = Ok tt w ∧
    tsteps (tinit n w) (tafter false infos cqs n s c ls).
Proof.
  unfold tafter, run_threads. destruct (StartServing _ _ _) as [[] w|] eqn:Hs; [|done].
  intros Hls. exists w. split; [done|]. pose proof (and_then_steps _ _ Hls) as Ht.
  unfold and_then in Ht. by destruct (texec_labels false ls (tinit n w)).
Qed.

End checker.

(** *** A service with two event queues

    The method of [Square] on two event queues that take turns, and a handler
    that hands out a writer before it has seen a request. *)
Module Duo.
#[export] Existing Instance example_status.
#[export] Existing Instance example_application.

#[export] Instance selector : EventQueueSelector :=
  {| sel_state := nat; sel_next := λ s, Ok (s mod 2) (S s) |}.

#[export] Program Instance selector_ok : SelectorOk 2 := {| sel_inv := λ _, True |}.
Next Obligation. intros s _. split; [|done]. apply Nat.mod_upper_bound. lia. Qed.

Definition eager : RpcHandlerClass :=
  mkHandlerClass (λ c, (0%Z, c, [AGetWriter]))
    (λ m h c, (h, c, [ASend (m * m)%Z])) (λ h c, (h, c, [])) (λ h c, (h, c, [])).

Definition eager_info : RpcHandlerInfo :=
  mkRpcHandlerInfo tt tt eager NORMAL_RPC "/async_grpc.proto.Math/GetSquare".

(** Two connections are handled at the same time, access by access. *)
Definition interleaved : list TLabel :=
  TShared (LCompletion 0 NEW_CONNECTION true (Some 3%Z)) ::
  TShared (LCompletion 1 NEW_CONNECTION true (Some 4%Z)) ::
  concat (replicate 10 [TTurn 0; TTurn 1]).

Definition handling_two : Threaded := tafter true [Square.info] [0; 1] 2 0 0%Z interleaved.

(** The handler of an RPC is being created and has handed out a writer, with
    which another thread calls [Finish]. *)
Definition finishing_early_labels : list TLabel :=
  TShared (LCompletion 0 NEW_CONNECTION true (Some 3%Z)) :: replicate 5 (TTurn 0) ++
  [TShared (LWriterBegin 0 (WFinish Status_OK)); TShared (LWriterStep 0);
   TShared (LWriterStep 0); TShared (LWriterStep 0)].

Definition finishing_early : Threaded :=
  tafter false [eager_info] [0] 2 0 0%Z finishing_early_labels.

(** Thread 0 has created the RPC 1 and not yet dropped the pointer it got from
    [Add], while thread 1 handles all events of RPC 1 up to its removal. *)
Definition outlived_labels : list TLabel :=
  TShared (LCompletion 0 NEW_CONNECTION true (Some 3%Z)) :: replicate 18 (TTurn 0) ++
  TShared (LCompletion 1 NEW_CONNECTION true (Some 4%Z)) :: replicate 40 (TTurn 1) ++
  TShared (LCompletion 1 FINISH true None) :: replicate 10 (TTurn 1) ++
  TShared (LCompletion 1 DONE true None) :: replicate 10 (TTurn 1).

Definition outlived : Threaded := tafter false [Square.info] [0] 2 0 0%Z outlived_labels.

Definition late_writer : list TLabel :=
  [TShared (LWriterBegin 1 (WWrite 5%Z)); TShared (LWriterStep 0)].

(** One connection, whose thread has made [k] steps: at 19 its turn is over
    and the answer queued, at 22 the answer is taken off the send queue, at 24
    it is sent. *)
Definition serving_labels (k : nat) : list TLabel :=
  TShared (LCompletion 0 NEW_CONNECTION true (Some 3%Z)) :: replicate k (TTurn 0).

Definition serving (calm : bool) (k : nat) : Threaded :=
  tafter calm [Square.info] [0] 2 0 0%Z (serving_labels k).

End Duo.
Import Duo.

Ltac by_evaluation := vm_compute; first [discriminate | reflexivity].

Lemma threaded_step_safe_witness : ∃ t', texec (TTurn 0) handling_two = Ok tt t'.
Proof.
  apply (threaded_step_safe (H1:=selector) 2 [Square.info] [0; 1] 0 0%Z).
  - exact I.
  - apply (tafter_calm (H1:=selector)). by_evaluation.
  - apply tenv_okb_sound. by_evaluation.
  - apply calm_preb_sound. by_evaluation.
Defined.

Lemma threaded_tags_alive_witness :
  ∃ n x, heap_ (shared handling_two) !! 1 = Some (n, x) ∧ 1 ∈ rpcs_ (shared handling_two) ∧
    is_pending x DONE = true.
Proof.
  apply (threaded_tags_alive (H1:=selector) 2 [Square.info] [0; 1] 0 0%Z handling_two 1 DONE).
  - exact I.
  - apply (tafter_calm (H1:=selector)). by_evaluation.
  - apply (bool_decide_eq_true_1 _). by_evaluation.
  - intros _. apply (bool_decide_eq_true_1 _). by_evaluation.
Defined.

Lemma threaded_one_write_witness :
  (0, FINISH) ∈ inflight (shared (serving true 24)) ∧
  length (filter (λ u, u = (0, WRITE) ∨ u = (0, FINISH)) (inflight (shared (serving true 24)))) ≤ 1.
Proof.
  split; [apply (bool_decide_eq_true_1 _); by_evaluation|].
  apply (threaded_one_write (H1:=selector) 2 [Square.info] [0] 0 0%Z).
  - exact I.
  - apply (tafter_calm (H1:=selector)). by_evaluation.
Defined.

(** The answer is enqueued, not sent, and not in the send queue. *)
Lemma threaded_send_order_witness :
  ∃ k x it, heap_ (shared (serving false 22)) !! 0 = Some (k, x) ∧
    items 0 (enqueued (shared (serving false 22))) = [it] ++ send_queue_ x.
Proof.
  assert (sent 0 (grpc_calls (shared (serving false 22))) = [] ∧
    length (items 0 (enqueued (shared (serving false 22)))) = 1) as [E1 E2]
    by (split; vm_compute; reflexivity).
  destruct (object_check (shared (serving false 22)) 0 (λ _ x, length (send_queue_ x) =? 0))
    as (k & x & Hx & Hc); [vm_compute; reflexivity|]. apply Nat.eqb_eq in Hc.
  destruct (tafter_steps (H1:=selector) [Square.info] [0] 2 0 0%Z (serving_labels 22))
    as (w & Hs & Ht); [vm_compute; reflexivity|].
  destruct (proj2 (threaded_send_order (H1:=selector) [Square.info] [0] 2 0 0%Z w
    (serving false 22) 0 Hs Ht) k x Hx) as (o & E & _).
  rewrite E1 in E. rewrite E, app_nil_l, length_app, Hc in E2.
  destruct o as [it|]; [|discriminate E2]. exists k, x, it. split; [exact Hx|exact E].
Defined.

Lemma threaded_queue_served_witness :
  ∃ k x, heap_ (shared (serving false 19)) !! 0 = Some (k, x) ∧ send_queue_ x ≠ [] ∧
    (is_pending x WRITE = true ∨ is_pending x FINISH = true ∨
     announced (shared (serving false 19)) 0 ∨ finished (shared (serving false 19)) 0).
Proof.
  destruct (object_check (shared (serving false 19)) 0
    (λ _ x, match send_queue_ x with [] => false | _ => true end)) as (k & x & Hx & Hc);
    [vm_compute; reflexivity|].
  assert (turns (serving false 19) = [Ret tt; Ret tt]) as Hidle by (vm_compute; reflexivity).
  assert (send_queue_ x ≠ []) as Hne by (intros E; rewrite E in Hc; discriminate Hc).
  destruct (tafter_steps (H1:=selector) [Square.info] [0] 2 0 0%Z (serving_labels 19))
    as (w & Hs & Ht); [vm_compute; reflexivity|].
  exists k, x. split; [exact Hx|split; [exact Hne|]].
  apply (threaded_queue_served (H1:=selector) [Square.info] [0] 2 0 0%Z w (serving false 19) 0 k x).
  - exact Hs.
  - exact Ht.
  - rewrite Hidle. intros [|[|q]] p Hp; [by injection Hp|by injection Hp|discriminate Hp].
  - exact Hx.
  - exact Hne.
Defined.

(** C39: a writer that is faster than the creation of its handler.  A handler
    may hand out a [Writer] from [Initialize], which runs before the handler
    is stored in the [Rpc]; [Writer::Finish] on another thread looks at
    [handler()] after queueing the status and calls [trace_span] on a null
    pointer. *)
Theorem finish_before_handler_crashes :
  ∃ w, StartServing [eager_info] [0] (world_init (H1:=selector) 2 0 0%Z) = Ok tt w ∧
    tsteps (tinit 2 w) finishing_early ∧ tenv_ok finishing_early (TShared (LWriterStep 0)) ∧
    texec (TShared (LWriterStep 0)) finishing_early = Fail NullPointer.
Proof.
  destruct (tafter_steps (H1:=selector) [eager_info] [0] 2 0 0%Z finishing_early_labels)
    as (w & Hs & Ht); [by_evaluation|].
  exists w. split_and!; [exact Hs|exact Ht|apply tenv_okb_sound; by_evaluation|by_evaluation].
Qed.

(** C40: the pointer a creator keeps.  [HandleNewConnection] drops the shared
    pointer that [Add] returned after asking for the connection, and by then
    the RPC may have been connected, served and removed by its own thread.  A
    [Writer] call that begins after the removal should find the RPC gone; it
    locks it instead, and aborts the process in [ActiveRpcs::GetWeakPtr]. *)
Theorem creator_outlives_rpc :
  ∃ w, StartServing [Square.info] [0] (world_init (H1:=selector) 2 0 0%Z) = Ok tt w ∧
    tsteps (tinit 2 w) outlived ∧ 1 ∉ rpcs_ (shared outlived) ∧ threads (shared outlived) = [] ∧
    tsteps outlived (and_then late_writer outlived) ∧
    tenv_ok (and_then late_writer outlived) (TShared (LWriterStep 0)) ∧
    texec (TShared (LWriterStep 0)) (and_then late_writer outlived) =
      Fail (CheckFailed "ActiveRpcs::GetWeakPtr").
Proof.
  destruct (tafter_steps (H1:=selector) [Square.info] [0] 2 0 0%Z outlived_labels)
    as (w & Hs & Ht); [by_evaluation|].
  exists w. split_and!; [exact Hs|exact Ht| |by_evaluation| | |by_evaluation].
  - apply (bool_decide_eq_true_1 _). by_evaluation.
  - apply and_then_steps. by_evaluation.
  - apply tenv_okb_sound. by_evaluation.
Qed.
