(* ===== verification/Tracing.v ===== *)
(** * Trace spans

    src/async_grpc/span.h, opencensus_span.h, opencensus_span.cc and the
    BUILD_TRACING branches of rpc_handler.h.  A handler starts a span when it
    is constructed and ends it when it is destroyed; [RpcHandler::Finish] and
    [Writer::Finish] set its status.  The state of a service records the
    calls ([spans] of [World]).  The file shows that they follow the protocol
    of the interface [Span] on every run, and what they amount to when the
    span is an [OpencensusSpan]. *)

From Stdlib Require Import ZArith Lia.
From stdpp Require Import base option list strings gmap.
From S2P Require Import Prelude Interfaces BlockingQueue Rpc Service ServiceFrame.
From S2P Require Import ServiceExamples.
Import Event EventDeleter.

Set Default Proof Using "Type".

(** ** [OpencensusSpan] *)

(** The library's [opencensus::trace::Span]. *)
Class OpencensusTrace := {
  TraceSpan : Type;
  TraceSpan_StartSpan : string → option TraceSpan → TraceSpan;
  TraceSpan_SetStatus : Z → TraceSpan → TraceSpan;
  TraceSpan_End : TraceSpan → TraceSpan
}.

Section opencensus.
Context `{GrpcStatus, OpencensusTrace}.

Record OpencensusSpan := mkOpencensusSpan { span_ : TraceSpan }.

(** The private constructor; the address of the parent's member is passed. *)
Definition OpencensusSpan_new (name : string) (parent : option OpencensusSpan) : OpencensusSpan :=
  mkOpencensusSpan (TraceSpan_StartSpan name (span_ <$> parent)).

Definition OpencensusSpan_StartSpan (name : string) (parent : option OpencensusSpan) :
    OpencensusSpan :=
  OpencensusSpan_new name parent.

Definition CreateChildSpan (this : OpencensusSpan) (name : string) : OpencensusSpan :=
  OpencensusSpan_new name (Some this).

Definition SetStatus (status : Status) (this : OpencensusSpan) : OpencensusSpan :=
  mkOpencensusSpan (TraceSpan_SetStatus (error_code status) (span_ this)).

Definition End_ (this : OpencensusSpan) : OpencensusSpan :=
  mkOpencensusSpan (TraceSpan_End (span_ this)).

(** The calls of a handler on its member [span_], null before the
    constructor. *)
Definition span_call (o : option OpencensusSpan) (c : SpanCall) : option OpencensusSpan :=
  match c with
  | SpanStart name => Some (OpencensusSpan_StartSpan name None)
  | SpanSetStatus s => SetStatus s <$> o
  | SpanEnd => End_ <$> o
  end.

(** The library calls behind a span that is used as the protocol says. *)
Lemma span_call_replay name (l : list Status) :
  foldl span_call None (SpanStart name :: (SpanSetStatus <$> l) ++ [SpanEnd]) =
  Some (mkOpencensusSpan (TraceSpan_End
    (foldl (λ o s, TraceSpan_SetStatus (error_code s) o) (TraceSpan_StartSpan name None) l))).
Proof.
  simpl. rewrite foldl_app. unfold OpencensusSpan_StartSpan, OpencensusSpan_new. simpl.
  generalize (TraceSpan_StartSpan name None) as o. induction l as [|s l IH]; intros o; [done|].
  simpl. apply (IH (TraceSpan_SetStatus (error_code s) o)).
Qed.

End opencensus.

(** ** The protocol of a span *)

Section protocol.
Context `{GrpcStatus, Application, EventQueueSelector}.

(** A span that was started, with the statuses it was given, and ended. *)
Inductive SpanState :=
  | Unstarted
  | Open (name : string) (statuses : list Status)
  | Ended (name : string) (statuses : list Status)
  | Misused.

Definition span_next (st : SpanState) (c : SpanCall) : SpanState :=
  match st, c with
  | Unstarted, SpanStart name => Open name []
  | Open name l, SpanSetStatus s => Open name (l ++ [s])
  | Open name l, SpanEnd => Ended name l
  | _, _ => Misused
  end.

(** The calls on the span of one object. *)
Definition span_calls (l : list (RpcPtr * SpanCall)) (p : RpcPtr) : list SpanCall :=
  omap (λ c, if decide (c.1 = p) then Some c.2 else None) l.

Definition span_state (w : World) (p : RpcPtr) : SpanState :=
  foldl span_next Unstarted (span_calls (spans w) p).

Lemma span_calls_snoc l p q c :
  span_calls (l ++ [(p, c)]) q = span_calls l q ++ (if decide (p = q) then [c] else []).
Proof. unfold span_calls. rewrite omap_app. simpl. by destruct (decide (p = q)). Qed.

Lemma span_state_same w w' p : spans w' = spans w → span_state w' p = span_state w p.
Proof. unfold span_state. by intros ->. Qed.

(** A call on the span of [p]. *)
Lemma span_state_snoc w w' p c q :
  spans w' = spans w ++ [(p, c)] →
  span_state w' q = if decide (p = q) then span_next (span_state w q) c else span_state w q.
Proof.
  unfold span_state. intros ->. rewrite span_calls_snoc, foldl_app. by destruct (decide (p = q)).
Qed.

(** The calls a state stands for. *)
Definition calls_of_state (st : SpanState) : list SpanCall :=
  match st with
  | Unstarted | Misused => []
  | Open name l => SpanStart name :: (SpanSetStatus <$> l)
  | Ended name l => SpanStart name :: (SpanSetStatus <$> l) ++ [SpanEnd]
  end.

Lemma span_state_calls cs st :
  foldl span_next Unstarted cs = st → st ≠ Misused → cs = calls_of_state st.
Proof.
  revert st. induction cs as [|c cs IH] using rev_ind; intros st Hst Hne; [by subst st|].
  rewrite foldl_app in Hst. simpl in Hst.
  destruct (foldl span_next Unstarted cs) as [|name l|name l|] eqn:E; destruct c; simpl in Hst;
    subst st; try done; rewrite (IH _ eq_refl) by done; simpl; by rewrite ?fmap_app.
Qed.

(** The spans of the objects: open while a handler exists (for the object
    [ex], while it is being constructed), ended when the object is gone. *)
Definition has_span (ex : option RpcPtr) (p : RpcPtr) (x : Rpc) : Prop :=
  is_Some (handler_ x) ∨ ex = Some p.

#[global] Instance has_span_dec ex p x : Decision (has_span ex p x).
Proof. unfold has_span. apply _. Defined.

Definition live_span (ex : option RpcPtr) (w : World) (p : RpcPtr) (x : Rpc) : Prop :=
  if decide (has_span ex p x)
  then ∃ l, span_state w p = Open (fully_qualified_name (rpc_handler_info_ x)) l
  else span_state w p = Unstarted.

Definition dead_span (w : World) (p : RpcPtr) : Prop :=
  span_state w p = Unstarted ∨ ∃ name l, span_state w p = Ended name l.

Record spans_ok (ex : option RpcPtr) (w : World) : Prop := {
  so_live : ∀ p n x, heap_ w !! p = Some (n, x) → live_span ex w p x;
  so_dead : ∀ p, heap_ w !! p = None → dead_span w p;
  so_fresh : ∀ p, next_ptr w ≤ p → heap_ w !! p = None ∧ span_state w p = Unstarted
}.

(** ** Preservation *)

Definition keeps_spans (ex : option RpcPtr) (w w' : World) : Prop :=
  spans_ok ex w → spans_ok ex w'.

#[global] Instance keeps_spans_preorder ex : PreOrder (keeps_spans ex).
Proof. split; [by intros w Hw|]. unfold keeps_spans. intros w1 w2 w3. auto. Qed.

Lemma spans_ok_same ex w w' :
  heap_ w' = heap_ w → next_ptr w' = next_ptr w → spans w' = spans w →
  spans_ok ex w → spans_ok ex w'.
Proof.
  intros Eh En Es [Hl Hd Hf]. pose proof (λ p, span_state_same w w' p Es) as E.
  split; intros p; [intros n x|..]; unfold live_span, dead_span; rewrite E, ?Eh, ?En.
  - apply Hl.
  - apply Hd.
  - apply Hf.
Qed.

Lemma keeps_spans_same ex w w' :
  heap_ w' = heap_ w → next_ptr w' = next_ptr w → spans w' = spans w → keeps_spans ex w w'.
Proof. intros Eh En Es Hw. by eapply spans_ok_same. Qed.

(** An update of an object that keeps its method, and whether it has a handler. *)
Lemma spans_ok_update ex w p n n' x x' :
  heap_ w !! p = Some (n, x) → rpc_handler_info_ x' = rpc_handler_info_ x →
  (is_Some (handler_ x') ↔ is_Some (handler_ x)) →
  spans_ok ex w → spans_ok ex (upd_heap (insert p (n', x')) w).
Proof.
  intros Hp Hi Hh [Hl Hd Hf]. split; simpl; intros q.
  - intros m y [[<- [= <- <-]]|[Hne Hy]]%lookup_insert_Some; [|exact (Hl q m y Hy)].
    specialize (Hl p n x Hp). unfold live_span, has_span in *. rewrite Hi.
    repeat case_decide; tauto.
  - intros [Hq Hne]%lookup_insert_None. exact (Hd q Hq).
  - intros Hq. destruct (Hf q Hq) as [Hn Hs]. split; [|exact Hs].
    rewrite lookup_insert_ne; [done|]. intros ->. congruence.
Qed.

(** A call on an open span. *)
Lemma spans_ok_status ex w p s name l :
  span_state w p = Open name l → spans_ok ex w →
  spans_ok ex (upd_spans (λ k, k ++ [(p, SpanSetStatus s)]) w).
Proof.
  intros Hp [Hl Hd Hf].
  pose proof (λ q, span_state_snoc w (upd_spans (λ k, k ++ [(p, SpanSetStatus s)]) w) p
    (SpanSetStatus s) q eq_refl) as E.
  split; intros q; [intros n x Hq|intros Hq|intros Hq].
  - specialize (Hl q n x Hq). unfold live_span in *. rewrite E.
    destruct (decide (p = q)) as [<-|]; [|done]. rewrite Hp in *.
    destruct (decide (has_span ex p x)); [|done]. destruct Hl as [l' [= -> ->]]. by eexists.
  - specialize (Hd q Hq). unfold dead_span in *. rewrite E.
    destruct (decide (p = q)) as [<-|]; [|done]. rewrite Hp in Hd. by destruct Hd as [?|(? & ? & ?)].
  - destruct (Hf q Hq) as [Hn Hs]. split; [done|]. rewrite E.
    destruct (decide (p = q)) as [<-|]; [congruence|done].
Qed.

(** The end of an object. *)
Lemma spans_ok_delete w p n x :
  heap_ w !! p = Some (n, x) → spans_ok None w →
  spans_ok None (upd_heap (delete p) (upd_spans (end_span p x) w)).
Proof.
  intros Hp [Hl Hd Hf]. set (w' := upd_heap (delete p) (upd_spans (end_span p x) w)).
  assert (∀ q, span_state w' q = if decide (p = q ∧ is_Some (handler_ x))
    then span_next (span_state w q) SpanEnd else span_state w q) as E.
  { intros q. destruct (handler_ x) eqn:Hh.
    - rewrite (span_state_snoc w w' p SpanEnd); [|unfold w', end_span; simpl; by rewrite Hh].
      destruct (decide (p = q)) as [->|Hne].
      + by rewrite decide_True by eauto.
      + rewrite decide_False; [done|]. by intros [? _].
    - rewrite (span_state_same w w'); [|unfold w', end_span; simpl; by rewrite Hh].
      rewrite decide_False; [done|]. by intros [_ [? ?]]. }
  assert (∀ q, q ≠ p → span_state w' q = span_state w q) as Eo.
  { intros q Hne. rewrite E, decide_False; [done|]. by intros [-> _]. }
  split; simpl; intros q.
  - intros m y [Hne Hy]%lookup_delete_Some. unfold live_span. rewrite Eo by done. exact (Hl q m y Hy).
  - intros Hq. destruct (decide (q = p)) as [->|Hne].
    + specialize (Hl p n x Hp). unfold live_span in Hl. unfold dead_span. rewrite E.
      destruct (decide (has_span None p x)) as [[Hh|?]|Hn]; [|done|].
      * destruct Hl as [l Hl]. rewrite decide_True, Hl by done. eauto.
      * rewrite decide_False; [by left|]. intros [_ Hh]. apply Hn. by left.
    + rewrite lookup_delete_ne in Hq by done. unfold dead_span. rewrite Eo by done. exact (Hd q Hq).
  - intros Hq. destruct (Hf q Hq) as [Hn Hs]. assert (q ≠ p) as Hne by congruence.
    rewrite Eo, lookup_delete_ne by done. done.
Qed.

Lemma spans_ok_new w i cq q info :
  spans_ok None w →
  spans_ok None (upd_next_ptr S
    (upd_heap (insert (next_ptr w) (0, Rpc_new (next_ptr w) i cq q info)) w)).
Proof.
  intros [Hl Hd Hf]. split; simpl; intros p.
  - intros n x [[<- [= <- <-]]|[Hne Hx]]%lookup_insert_Some; [|exact (Hl p n x Hx)].
    unfold live_span. rewrite decide_False; [by apply Hf|]. intros [Hh|?]; [|done].
    unfold Rpc_new in Hh. destruct (InitializeReadersAndWriters _) as [[[? ?] ?] ?].
    by destruct Hh.
  - intros [Hp _]%lookup_insert_None. exact (Hd p Hp).
  - intros Hp. destruct (Hf p) as [Hn Hs]; [lia|]. rewrite lookup_insert_ne by lia. done.
Qed.

(** ** Calls of handlers *)

(** A handler that runs has an open span, and keeps it open. *)
Definition is_open (w : World) (p : RpcPtr) : Prop := ∃ name l, span_state w p = Open name l.

Definition keeps_open (ex : option RpcPtr) (p : RpcPtr) (w w' : World) : Prop :=
  spans_ok ex w ∧ is_open w p → spans_ok ex w' ∧ is_open w' p.

#[global] Instance keeps_open_preorder ex p : PreOrder (keeps_open ex p).
Proof. split; [by intros w Hw|]. unfold keeps_open. intros w1 w2 w3. auto. Qed.

Lemma keeps_open_same ex p w w' :
  heap_ w' = heap_ w → next_ptr w' = next_ptr w → spans w' = spans w → keeps_open ex p w w'.
Proof.
  intros Eh En Es [Hw Ho]. split; [by eapply spans_ok_same|].
  unfold is_open. by rewrite (span_state_same w w').
Qed.

#[global] Instance keeps_open_actions ex p : ActionFrame p (keeps_open ex p).
Proof.
  split; [apply _| | | | | |].
  - intros w. unfold wlp, deref. repeat case_match; simplify_eq; [reflexivity|done].
  - intros it w. unfold EnqueueMessage, store, modify, mbind, M_bind, wlp.
    destruct (heap_ w !! p) as [[n x]|] eqn:Hp; [|done]. intros [Hw Ho]. split; [|exact Ho].
    eapply (spans_ok_same _ (upd_heap (insert p (n, set_send_queue (λ q, q ++ [it]) x)) w)); [done..|].
    by eapply spans_ok_update.
  - apply preserves_bind; [apply _|unfold ActiveRpcs_GetWeakPtr; preserves_tac|].
    intros q. apply preserves_modify. intros w. by apply keeps_open_same.
  - intros q e w. unfold wlp, push_event. repeat case_match; simplify_eq; try done.
    by apply keeps_open_same.
  - intros f Hf. apply preserves_modify. intros w. destruct (Hf w) as (? & ? & _ & _ & _ & _ & ? & _).
    by apply keeps_open_same.
  - intros s. apply preserves_modify. intros w [Hw (name & l & Ho)].
    split; [by eapply spans_ok_status|]. unfold is_open.
    erewrite span_state_snoc by done. rewrite decide_True, Ho by done. simpl. eauto.
Qed.

Lemma keeps_open_run ex p acts w w' :
  for_each acts (run_action p) w = Ok tt w' → spans_ok ex w → is_open w p →
  spans_ok ex w' ∧ is_open w' p.
Proof.
  intros Hrun Hw Ho.
  refine (preserves_Ok (keeps_open ex p) _ _ _ _ _ Hrun (conj Hw Ho)).
  apply preserves_for_each; [apply _|]. intros a. apply frame_run_action. apply _.
Qed.

Lemma live_open ex w p n x :
  spans_ok ex w → heap_ w !! p = Some (n, x) → has_span ex p x → is_open w p.
Proof.
  intros Hw Hp Hs. pose proof (so_live _ _ Hw p n x Hp) as Hl. unfold live_span in Hl.
  rewrite decide_True in Hl by done. destruct Hl as [l Hl]. by eexists _, l.
Qed.

Lemma ks_call p cb body : preserves (keeps_spans None) (call_handler p cb body).
Proof.
  intros w. apply wlp_intro. intros [] w' Hrun Hw.
  unfold call_handler, deref, log_callback, modify, get, store, mbind, M_bind in Hrun.
  destruct (heap_ w !! p) as [[n x]|] eqn:Hp; [|done].
  destruct (handler_ x) as [h|] eqn:Hh; [|done]. simpl in Hrun.
  destruct (body _ h (context_ w)) as [[h' c'] acts]. simpl in Hrun. rewrite Hp in Hrun.
  simpl in Hrun.
  apply (keeps_open_run None) in Hrun; [by destruct Hrun| |].
  - eapply (spans_ok_same None (upd_heap (insert p (n, set_handler (λ _, Some h') x)) w)); [done..|].
    apply (spans_ok_update None w p n n x); [done|done| |done]. simpl. rewrite Hh. by split; eexists.
  - eapply (live_open None w p n x Hw Hp). left. by rewrite Hh.
Qed.

(** The construction of a handler. *)
Lemma spans_ok_start w p n x :
  heap_ w !! p = Some (n, x) → handler_ x = None → spans_ok None w →
  let w' := upd_spans (λ l, l ++ [(p, SpanStart (fully_qualified_name (rpc_handler_info_ x)))]) w in
  spans_ok (Some p) w' ∧ is_open w' p.
Proof.
  intros Hp Hh [Hl Hd Hf] w'.
  assert (span_state w p = Unstarted) as Hs.
  { specialize (Hl p n x Hp). unfold live_span in Hl. rewrite decide_False in Hl; [done|].
    intros [Hx|?]; [|done]. rewrite Hh in Hx. by destruct Hx. }
  assert (∀ q, span_state w' q = if decide (p = q)
    then Open (fully_qualified_name (rpc_handler_info_ x)) [] else span_state w q) as E.
  { intros q. rewrite (span_state_snoc w w' p _ q eq_refl).
    destruct (decide (p = q)) as [<-|]; [by rewrite Hs|done]. }
  split; [split|]; simpl.
  - intros q m y Hy. unfold live_span. rewrite E. destruct (decide (p = q)) as [<-|Hne].
    + rewrite decide_True by (by right). rewrite Hp in Hy. injection Hy as <- <-. eauto.
    + specialize (Hl q m y Hy). unfold live_span, has_span in *.
      repeat case_decide; naive_solver.
  - intros q Hq. unfold dead_span. rewrite E. destruct (decide (p = q)) as [<-|]; [congruence|].
    exact (Hd q Hq).
  - intros q Hq. destruct (Hf q Hq) as [Hn Hs']. split; [done|]. rewrite E.
    destruct (decide (p = q)) as [<-|]; [congruence|done].
  - unfold is_open. rewrite E, decide_True by done. eauto.
Qed.

Lemma spans_ok_constructed w p n x h :
  heap_ w !! p = Some (n, x) → spans_ok (Some p) w →
  spans_ok None (upd_heap (insert p (n, set_handler (λ _, Some h) x)) w).
Proof.
  intros Hp [Hl Hd Hf]. split; simpl; intros q.
  - intros m y [[<- [= <- <-]]|[Hne Hy]]%lookup_insert_Some.
    + specialize (Hl p n x Hp). unfold live_span in *. rewrite decide_True in Hl by (by right).
      rewrite decide_True by (left; by eexists). exact Hl.
    + specialize (Hl q m y Hy). unfold live_span, has_span in *. repeat case_decide; naive_solver.
  - intros [Hq _]%lookup_insert_None. exact (Hd q Hq).
  - intros Hq. destruct (Hf q Hq) as [Hn Hs]. split; [|exact Hs].
    rewrite lookup_insert_ne; [done|]. intros ->. congruence.
Qed.

Lemma ks_connect p :
  preserves (keeps_spans None) (x ← deref p;
    match handler_ x with
    | Some _ => mret tt
    | None => h ← rpc_handler_factory p; store p (set_handler (λ _, Some h))
    end).
Proof.
  intros w. apply wlp_intro. intros [] w' Hrun Hw. unfold deref, mbind at 1, M_bind at 1 in Hrun.
  destruct (heap_ w !! p) as [[n x]|] eqn:Hp; [|done].
  destruct (handler_ x) as [h|] eqn:Hh; [by injection Hrun as <-|].
  destruct (spans_ok_start w p n x Hp Hh Hw) as [Hw1 Ho].
  unfold rpc_handler_factory, deref, log_callback, log_span, modify, get, mbind, M_bind in Hrun.
  rewrite Hp in Hrun. simpl in Hrun.
  destruct (handler_Initialize _ (context_ w)) as [[h c'] acts]. simpl in Hrun.
  destruct (for_each acts (run_action p) _) as [[] w2|] eqn:Hacts; [|done].
  apply (keeps_open_run (Some p)) in Hacts as [Hw2 _]; [|by eapply spans_ok_same; [..|exact Hw1]|exact Ho].
  unfold mret, M_ret, store in Hrun. destruct (heap_ w2 !! p) as [[n2 x2]|] eqn:Hp2; [|done].
  injection Hrun as <-. by apply spans_ok_constructed.
Qed.

#[global] Instance keeps_spans_frame : ServiceFrame (keeps_spans None) (λ _, True).
Proof.
  assert (∀ i cq q info, preserves (keeps_spans None) (make_unique_Rpc i cq q info)) as Hnew.
  { intros i cq q info w Hw. by apply spans_ok_new. }
  assert (∀ p, preserves (keeps_spans None) (deref p)) as Hderef.
  { intros p w. unfold wlp, deref. repeat case_match; simplify_eq; [reflexivity|done]. }
  split; [apply _|done| | | | | | | | |intros; apply Hnew|intros; apply ks_call|apply ks_connect|].
  - intros p f Hf w. unfold wlp, store. destruct (heap_ w !! p) as [[n x]|] eqn:Hp; [|done].
    destruct (Hf x) as [Hi Hh]. intros Hw. eapply spans_ok_update; [done|done|by rewrite Hh|done].
  - intros p w. unfold wlp, lock. destruct (heap_ w !! p) as [[n x]|] eqn:Hp; [|reflexivity].
    intros Hw. by eapply spans_ok_update.
  - intros p w. unfold wlp, release. destruct (heap_ w !! p) as [[[|[|n]] x]|] eqn:Hp; [..|done];
      intros Hw; [by eapply spans_ok_delete..|by eapply spans_ok_update].
  - intros q e w. unfold wlp, push_event. repeat case_match; simplify_eq; try done.
    by apply keeps_spans_same.
  - intros q w. unfold wlp, pop_event. repeat case_match; simplify_eq; try done;
      by apply keeps_spans_same.
  - intros w. unfold wlp, event_queue_selector_. destruct (sel_next _); [|done].
    by apply keeps_spans_same.
  - intros f Hf. apply preserves_modify. intros w. destruct (Hf w) as (? & ? & _ & _ & _ & _ & ? & _).
    by apply keeps_spans_same.
  - intros p. unfold Clone. apply preserves_bind; [apply _|done|]. intros x. apply Hnew.
  - intros p s w. unfold wlp, deref, log_span, modify, mbind, M_bind.
    destruct (heap_ w !! p) as [[n x]|] eqn:Hp; [|done]. destruct (handler_ x) eqn:Hh; [|done].
    intros Hw. destruct (live_open None w p n x Hw Hp) as (name & l & Ho); [left; by rewrite Hh|].
    by eapply spans_ok_status.
Qed.

Lemma ks_enqueue p it : preserves (keeps_spans None) (EnqueueMessage p it).
Proof.
  apply preserves_bind; [apply _|by apply fr_store|]. intros _. apply preserves_modify.
  intros w. by apply keeps_spans_same.
Qed.

(** ** On every run *)

Lemma spans_ok_init n s c : spans_ok None (world_init n s c).
Proof.
  split; intros p; [intros ? ?| |intros _]; simpl; rewrite ?lookup_empty; [done|by left|done].
Qed.

Lemma ks_written p it : preserves (keeps_spans None) (log_written p it).
Proof. apply preserves_modify. intros w. by apply keeps_spans_same. Qed.

Lemma run_spans infos cqs n s c w : run infos cqs n s c w → spans_ok None w.
Proof.
  induction 1 as [w Hstart|w l w' _ IH [_ Hx]].
  - refine (preserves_Ok (keeps_spans None) _ _ _ _ _ Hstart (spans_ok_init n s c)).
    apply frame_StartServing. by apply Forall_true.
  - destruct l; try (by refine (preserves_Ok (keeps_spans None) _ _ _ _
      (frame_exec _ _ ks_enqueue ks_written) Hx IH)).
    injection Hx as <-. by eapply spans_ok_same; [..|exact IH].
Qed.

(** C16: the protocol of spans.  On every run of a service, the calls on the span
    of an [Rpc] are: none before a handler exists; one start, with the name of
    the method, and then only statuses while the handler exists; and when the
    object is gone, nothing, or a start, statuses and one end, in this order.
    So no span is used before its start or after its end, none is started or
    ended twice, and none is left open. *)
Theorem span_protocol infos cqs n s c w p :
  run infos cqs n s c w →
  match heap_ w !! p with
  | Some (_, x) =>
      match handler_ x with
      | Some _ => ∃ l, span_calls (spans w) p =
          SpanStart (fully_qualified_name (rpc_handler_info_ x)) :: (SpanSetStatus <$> l)
      | None => span_calls (spans w) p = []
      end
  | None =>
      span_calls (spans w) p = [] ∨
      ∃ name l, span_calls (spans w) p = SpanStart name :: (SpanSetStatus <$> l) ++ [SpanEnd]
  end.
Proof.
  intros Hw%run_spans. destruct (heap_ w !! p) as [[k x]|] eqn:Hp.
  - pose proof (so_live _ _ Hw p k x Hp) as Hl. unfold live_span in Hl.
    destruct (handler_ x) as [h|] eqn:Hh.
    + rewrite decide_True in Hl by (left; by rewrite Hh). destruct Hl as [l Hl]. exists l.
      by apply span_state_calls in Hl.
    + rewrite decide_False in Hl; [by apply span_state_calls in Hl|].
      intros [[? Hx]|?]; [by rewrite Hh in Hx|done].
  - destruct (so_dead _ _ Hw p Hp) as [Hd|(name & l & Hd)]; apply span_state_calls in Hd; eauto.
Qed.

End protocol.

(** ** A call that fails

    The handler refuses the request; when the call is over, the object is
    gone and its span was started, given the status and ended. *)
Module Refuse.
Import Square.

Definition handler : RpcHandlerClass :=
  mkHandlerClass (λ c, (0%Z, c, []))
    (λ m h c, (h, c, [AFinish (Status_make 3 "refused")]))
    (λ h c, (h, c, [])) (λ h c, (h, c, [])).

Definition info : RpcHandlerInfo :=
  mkRpcHandlerInfo tt tt handler NORMAL_RPC "/async_grpc.proto.Math/GetSquare".

Definition refused : list Label :=
  [LCompletion 0 NEW_CONNECTION true (Some 11%Z); LEvent 0; LEvent 0;
   LCompletion 0 FINISH true None; LEvent 0; LCompletion 0 DONE true None; LEvent 0].

Lemma span_protocol_witness :
  ∃ w, run [info] [0] 1 (tt : @sel_state selector) 0%Z w ∧ heap_ w !! 0 = None ∧
    ∃ name l, span_calls (spans w) 0 = SpanStart name :: (SpanSetStatus <$> l) ++ [SpanEnd].
Proof.
  destruct (run_service false [info] [0] 1 (tt : @sel_state selector) 0%Z refused) as [w|] eqn:E;
    [|exfalso; vm_compute in E; discriminate E].
  pose proof (run_service_sound _ _ _ _ _ _ _ E) as Hrun. exists w. split; [exact Hrun|].
  assert (heap_ w !! 0 = None ∧ length (span_calls (spans w) 0) = 3) as [Hh Hl].
  { vm_compute in E. injection E as <-. split; vm_compute; reflexivity. }
  split; [exact Hh|]. pose proof (span_protocol [info] [0] 1 (tt : @sel_state selector) 0%Z w 0 Hrun) as Hp.
  rewrite Hh in Hp. destruct Hp as [Hp|Hp]; [|exact Hp]. rewrite Hp in Hl. discriminate Hl.
Defined.

End Refuse.
