(* ===== verification/ServerLife.v ===== *)
(** * The server: construction, life cycle, and its services

    The rest of src/async_grpc/server.cc, with event_queue_thread.cc and
    completion_queue_thread.cc: [Build], [AddService], [Start],
    [WaitForShutdown], [Shutdown] and [SetExecutionContext], on a server that
    holds the state of each of its services.  What the services share, the
    selector's counter and the execution context, is held by the server and
    handed to a service for each of its steps. *)

From Stdlib Require Import ZArith Lia SpecFloat.
From stdpp Require Import base option list strings gmap sorting.
From S2P Require Import Prelude Threads Interfaces BlockingQueue Rpc TypeTraits Server.
From S2P Require Import RoundRobin Service ServiceInv ServiceLemmas ServiceSafety ServiceSteps.
From S2P Require Import ServiceProtocol ServiceOrder ServiceExamples.

Set Default Proof Using "Type".

(** The entries of a [std::map] with string keys, in iteration order. *)
Definition map_entries {A} (m : gmap string A) : list (string * A) :=
  merge_sort (λ a b, Is_true (String.leb a.1 b.1)) (map_to_list m).

Lemma map_entries_perm {A} (m : gmap string A) : map_entries m ≡ₚ map_to_list m.
Proof. apply merge_sort_Permutation. Qed.

Lemma map_entries_nodup {A} (m : gmap string A) : NoDup (map_entries m).*1.
Proof. rewrite map_entries_perm. apply NoDup_fst_map_to_list. Qed.

Lemma map_entries_names {A} (m : gmap string A) name :
  name ∈ (map_entries m).*1 ↔ is_Some (m !! name).
Proof.
  rewrite map_entries_perm, list_elem_of_fmap. split.
  - intros ([k v] & -> & Hkv%elem_of_map_to_list). by exists v.
  - intros [v Hv]. exists (name, v). split; [done|]. by apply elem_of_map_to_list.
Qed.

(** ** Tracing *)

(** The calls [Start] makes into OpenCensus. *)
Inductive TraceConfigCall :=
  | StackdriverExporter_Register (project_id : string)
  | SetCurrentTraceParams (max_attributes max_annotations max_message_events max_links : Z)
      (sampler_probability : spec_float).

Definition kDefaultTracingMaxAttributes : Z := 128.
Definition kDefaultTracingMaxAnnotations : Z := 128.
Definition kDefaultTracingMaxMessageEvents : Z := 128.
Definition kDefaultTracingMaxLinks : Z := 128.

(** The part of [Start] between [#if BUILD_TRACING] and [#endif]. *)
Definition Start_tracing `{BuildConfig} (o : Options) : list TraceConfigCall :=
  if BUILD_TRACING && enable_tracing o then
    [StackdriverExporter_Register (tracing_gcp_project_id o);
     SetCurrentTraceParams kDefaultTracingMaxAttributes kDefaultTracingMaxAnnotations
       kDefaultTracingMaxMessageEvents kDefaultTracingMaxLinks (tracing_sampler_probability o)]
  else [].

Section server.
Context `{GrpcStatus, Application, !BuildConfig}.

(** A [Service]: its methods by name, and the state its operations work on. *)
Record ServiceObject := mkServiceObject {
  rpc_handler_infos_ : gmap string RpcHandlerInfo;
  service_state_ : World
}.

(** The methods in the order in which the constructor adds them. *)
Definition methods_ (v : ServiceObject) : list RpcHandlerInfo :=
  snd <$> map_entries (rpc_handler_infos_ v).

(** The members of [Server]; [trace_calls] records the calls into OpenCensus. *)
Record Server := mkServer {
  server_options_ : Options;
  server_shutting_down_ : bool;
  server_ : bool;
  completion_queue_threads_ : list ThreadState;
  event_queue_threads_ : list ThreadState;
  current_event_queue_id_ : Z;
  services_ : gmap string ServiceObject;
  execution_context_ : Context_;
  trace_calls : list TraceConfigCall
}.

Definition set_threads (cqt eqt : list ThreadState) (s : Server) : Server :=
  mkServer (server_options_ s) (server_shutting_down_ s) (server_ s) cqt eqt
    (current_event_queue_id_ s) (services_ s) (execution_context_ s) (trace_calls s).

Definition set_services f (s : Server) : Server :=
  mkServer (server_options_ s) (server_shutting_down_ s) (server_ s) (completion_queue_threads_ s)
    (event_queue_threads_ s) (current_event_queue_id_ s) (f (services_ s)) (execution_context_ s)
    (trace_calls s).

(** The constructor: reading an indeterminate thread count is undefined. *)
Definition Server_new (o : Options) : failure + Server :=
  match num_event_threads o, num_grpc_threads o with
  | Some ne, Some ng =>
      inr (mkServer o false false (replicate (Z.to_nat ng) NotStarted)
             (replicate (Z.to_nat ne) NotStarted) 0 ∅ null_context [])
  | _, _ => inl UndefinedBehaviour
  end.

(** [num_event_threads] of the options of a server that was constructed. *)
Definition event_threads (s : Server) : Z := default 0%Z (num_event_threads (server_options_ s)).

(** The constructor of [Service], for a server with [n] event queues. *)
Definition Service_new (n : nat) (rpc_handler_infos : gmap string RpcHandlerInfo) : ServiceObject :=
  mkServiceObject rpc_handler_infos (world_init n (Z.of_nat n, 0%Z) null_context).

Definition AddService (service_name : string) (rpc_handler_infos : gmap string RpcHandlerInfo) :
    M Server unit :=
  s ← get;
  check (bool_decide (services_ s !! service_name = None)) "A service already exists." ;;
  modify (set_services (insert service_name
    (Service_new (length (event_queue_threads_ s)) rpc_handler_infos))).

Definition Build (b : Builder) : failure + Server :=
  match Server_new (options_ b) with
  | inl f => inl f
  | inr s =>
      match for_each (map_entries (rpc_handlers_ b)) (λ e, AddService e.1 e.2) s with
      | Ok _ s' => inr s'
      | Fail f => inl f
      end
  end.

Definition lift_threads {A} (r : failure + A) : M Server A :=
  match r with inl f => fail f | inr a => mret a end.

(** ** Operations of a service inside the server *)

(** The state of a service with the server's counter and context in place. *)
Definition service_view (s : Server) (v : ServiceObject) : World :=
  upd_selector (λ _, (event_threads s, current_event_queue_id_ s))
    (upd_context (λ _, execution_context_ s) (service_state_ v)).

Definition on_service (name : string) (op : ServiceObject → M World unit) : M Server unit := λ s,
  match services_ s !! name with
  | None => Fail UndefinedBehaviour
  | Some v =>
      match op v (service_view s v) with
      | Ok _ w =>
          Ok tt (mkServer (server_options_ s) (server_shutting_down_ s) (server_ s)
            (completion_queue_threads_ s) (event_queue_threads_ s) (selector_ w).2
            (<[name := mkServiceObject (rpc_handler_infos_ v) w]> (services_ s)) (context_ w)
            (trace_calls s))
      | Fail f => Fail f
      end
  end.

(** [for (auto& service : services_)]. *)
Definition for_services (op : ServiceObject → M World unit) : M Server unit :=
  s ← get;
  for_each (map_entries (services_ s)).*1 (λ name, on_service name op).

(** ** Operations of [Server] *)

(** The completion queues are numbered. *)
Definition completion_queues (s : Server) : list nat := seq 0 (length (completion_queue_threads_ s)).

(** [BuildAndStart] is taken to succeed. *)
Definition Start : M Server unit :=
  modify (λ s, mkServer (server_options_ s) (server_shutting_down_ s) true
    (completion_queue_threads_ s) (event_queue_threads_ s) (current_event_queue_id_ s)
    (services_ s) (execution_context_ s) (trace_calls s ++ Start_tracing (server_options_ s))) ;;
  s ← get;
  for_services (λ v, StartServing (methods_ v) (completion_queues s)) ;;
  s ← get;
  eqt ← lift_threads (for_threads EventQueueThread_Start (event_queue_threads_ s));
  cqt ← lift_threads (for_threads CompletionQueueThread_Start (completion_queue_threads_ s));
  modify (set_threads cqt eqt).

(** [server_->Wait()] returns once the server was shut down. *)
Definition WaitForShutdown : M Server unit :=
  s ← get;
  if negb (server_ s) then mret tt
  else if server_shutting_down_ s then mret tt else fail Blocked.

(** The runner of an event queue thread returns once [shutting_down_] is set;
    that of a completion queue thread once its queue is shut down, which
    [CompletionQueueThread::Shutdown] does before it joins. *)
Definition Shutdown : M Server unit :=
  modify (λ s, mkServer (server_options_ s) true (server_ s)
    (completion_queue_threads_ s) (event_queue_threads_ s) (current_event_queue_id_ s)
    (services_ s) (execution_context_ s) (trace_calls s)) ;;
  for_services (λ _, StopServing) ;;
  s ← get;
  (if server_ s then mret tt else fail NullPointer) ;;
  cqt ← lift_threads (for_threads CompletionQueueThread_Shutdown (completion_queue_threads_ s));
  eqt ← lift_threads (for_threads (EventQueueThread_Shutdown (server_shutting_down_ s)) (event_queue_threads_ s));
  modify (set_threads cqt eqt).

Definition SetExecutionContext (c : Context_) : M Server unit :=
  s ← get;
  check (negb (server_ s)) "SetExecutionContext" ;;
  modify (λ s, mkServer (server_options_ s) (server_shutting_down_ s) (server_ s)
    (completion_queue_threads_ s) (event_queue_threads_ s) (current_event_queue_id_ s)
    (services_ s) c (trace_calls s)).

Inductive ServerCall :=
  | KSetExecutionContext (c : Context_)
  | KStart
  | KWaitForShutdown
  | KShutdown.

Definition server_call (k : ServerCall) : M Server unit :=
  match k with
  | KSetExecutionContext c => SetExecutionContext c
  | KStart => Start
  | KWaitForShutdown => WaitForShutdown
  | KShutdown => Shutdown
  end.

(** ** The allowed sequences of calls *)

Inductive Phase := Fresh | Started | Stopped.

#[global] Instance Phase_eq_dec : EqDecision Phase.
Proof. solve_decision. Defined.

Definition next_phase (p : Phase) (k : ServerCall) : option Phase :=
  match p, k with
  | Fresh, KSetExecutionContext _ => Some Fresh
  | Fresh, KWaitForShutdown => Some Fresh
  | Fresh, KStart => Some Started
  | Started, KShutdown => Some Stopped
  | Stopped, KWaitForShutdown => Some Stopped
  | _, _ => None
  end.

Fixpoint phase_after (p : Phase) (ks : list ServerCall) : option Phase :=
  match ks with
  | [] => Some p
  | k :: ks' => p' ← next_phase p k; phase_after p' ks'
  end.

(** A service that has started is in a state of a calm run. *)
Definition serving (s : Server) (v : ServiceObject) : Prop :=
  ∃ st c, selector_in_range (length (event_queue_threads_ s)) st ∧
    calm_run (length (event_queue_threads_ s)) (methods_ v) (completion_queues s) st c
      (service_state_ v).

Definition service_in_phase (p : Phase) (s : Server) (v : ServiceObject) : Prop :=
  match p with
  | Fresh => v = Service_new (length (event_queue_threads_ s)) (rpc_handler_infos_ v)
  | Started => serving s v ∧ shutting_down_ (service_state_ v) = false
  | Stopped => serving s v ∧ shutting_down_ (service_state_ v) = true
  end.

Definition thread_in_phase (p : Phase) : ThreadState :=
  match p with Fresh => NotStarted | Started => Running | Stopped => Joined end.

(** The state of a server in each phase. *)
Record in_phase (p : Phase) (s : Server) : Prop := {
  ph_selector : selector_in_range (length (event_queue_threads_ s))
    (event_threads s, current_event_queue_id_ s);
  ph_server : server_ s = bool_decide (p ≠ Fresh);
  ph_down : server_shutting_down_ s = bool_decide (p = Stopped);
  ph_cq : Forall (eq (thread_in_phase p)) (completion_queue_threads_ s);
  ph_eq : Forall (eq (thread_in_phase p)) (event_queue_threads_ s);
  ph_services : ∀ name v, services_ s !! name = Some v → service_in_phase p s v
}.

(** ** Services among others *)

Lemma calm_inv k infos cqs (st : Z * Z) c w :
  selector_in_range k st → calm_run k infos cqs st c w → inv k w.
Proof. intros Hst Hrun. by eapply calm_run_inv. Qed.

Section among.
Context (N : nat) (infos : list RpcHandlerInfo) (cqs : list nat) (st : Z * Z) (c : Context_).
Abbreviation calm := (calm_run N infos cqs st c).

Lemma calm_select_once w n id :
  (0 < n ≤ int_max)%Z → (0 ≤ id < n)%Z → calm w → selector_ w = (n, id) →
  calm (upd_selector (λ _, (n, (id + 1) mod n)%Z) w).
Proof.
  intros Hn Hid Hw Es. eapply (calm_step _ _ _ _ _ w LOtherSelects); [done| |done|by intros t].
  split; [done|]. simpl. unfold mbind, M_bind, event_queue_selector_. simpl.
  by rewrite Es, select_next.
Qed.

Lemma calm_reselect w st' :
  selector_in_range N st → selector_in_range N st' → calm w → calm (upd_selector (λ _, st') w).
Proof.
  intros Hst Hst' Hw. pose proof (calm_run_inv N _ _ _ _ _ Hst Hw) as (C & _).
  pose proof (c_sel _ _ _ C) as Hsel. destruct (selector_ w) as [n id] eqn:Es.
  destruct st' as [n' id']. destruct Hsel as (Hk & Hn & Hid). destruct Hst' as (Hk' & Hn' & Hid').
  simpl in *. assert (n' = n) as -> by lia. clear Hk' Hn'.
  assert (∀ k : nat, calm (upd_selector (λ _, (n, (id + Z.of_nat k) mod n)%Z) w)) as Hgo.
  { induction k as [|k IH].
    - rewrite Z.add_0_r, Z.mod_small by done. rewrite <- Es. by destruct w.
    - pose proof (calm_select_once _ n _ Hn (Z.mod_pos_bound (id + Z.of_nat k) n ltac:(lia)) IH
        eq_refl) as Hc. rewrite Zplus_mod_idemp_l in Hc.
      replace (id + Z.of_nat (S k))%Z with (id + Z.of_nat k + 1)%Z by lia. exact Hc. }
  specialize (Hgo (Z.to_nat ((id' - id) mod n))).
  rewrite Z2Nat.id, Zplus_mod_idemp_r in Hgo by (apply Z.mod_pos_bound; lia).
  replace (id + (id' - id))%Z with id' in Hgo by lia. by rewrite Z.mod_small in Hgo.
Qed.

Lemma calm_recontext w c' : calm w → calm (upd_context (λ _, c') w).
Proof.
  intros Hw. eapply (calm_step _ _ _ _ _ w (LOtherContext c')); [done|by split|done|by intros t].
Qed.

End among.

(** The state a service sees inside the server is one of its own runs. *)
Lemma serving_view s v :
  selector_in_range (length (event_queue_threads_ s)) (event_threads s, current_event_queue_id_ s) →
  serving s v →
  ∃ st c, selector_in_range (length (event_queue_threads_ s)) st ∧
    calm_run (length (event_queue_threads_ s)) (methods_ v) (completion_queues s) st c
      (service_view s v).
Proof.
  intros Hs (st & c & Hst & Hrun). exists st, c. split; [done|].
  by apply calm_reselect, calm_recontext.
Qed.

(** ** Loops over the services *)

(** What an operation on a service leaves alone. *)
Definition same_server (s s' : Server) : Prop :=
  server_options_ s' = server_options_ s ∧ server_shutting_down_ s' = server_shutting_down_ s ∧
  server_ s' = server_ s ∧ completion_queue_threads_ s' = completion_queue_threads_ s ∧
  event_queue_threads_ s' = event_queue_threads_ s ∧
  rpc_handler_infos_ <$> services_ s' = rpc_handler_infos_ <$> services_ s ∧
  trace_calls s' = trace_calls s.

#[global] Instance same_server_preorder : PreOrder same_server.
Proof.
  split; [by intros s; split_and!|]. unfold same_server. intros s1 s2 s3 ? ?. destruct_and!.
  split_and!; congruence.
Qed.

Lemma infos_insert (m : gmap string ServiceObject) name v w :
  m !! name = Some v →
  rpc_handler_infos_ <$> <[name := mkServiceObject (rpc_handler_infos_ v) w]> m =
  rpc_handler_infos_ <$> m.
Proof. intros Hv. rewrite fmap_insert. apply insert_id. by rewrite lookup_fmap, Hv. Qed.

Lemma on_service_same name op : preserves same_server (on_service name op).
Proof.
  intros s. unfold wlp, on_service. destruct (services_ s !! name) as [v|] eqn:Hv; [|done].
  destruct (op v (service_view s v)); [|done]. split_and!; try done. by apply infos_insert.
Qed.

Lemma for_services_same op : preserves same_server (for_services op).
Proof.
  intros s. unfold for_services. apply wlp_bind. unfold wlp at 1, get.
  apply (preserves_for_each same_server). intros name. apply on_service_same.
Qed.

Definition selecting (s : Server) : Prop :=
  selector_in_range (length (event_queue_threads_ s)) (event_threads s, current_event_queue_id_ s).

(** An operation that takes one service from [Pre] to [Post]. *)
Definition service_spec (s0 : Server) (op : ServiceObject → M World unit)
    (Pre Post : ServiceObject → Prop) : Prop :=
  ∀ s v, same_server s0 s → selecting s → Pre v →
    wp (op v) (λ _ w, selector_in_range (length (event_queue_threads_ s)) (selector_ w) ∧
      Post (mkServiceObject (rpc_handler_infos_ v) w)) (service_view s v).

Lemma wp_on_service s0 op Pre Post name v s :
  service_spec s0 op Pre Post → same_server s0 s → selecting s →
  services_ s !! name = Some v → Pre v →
  wp (on_service name op) (λ _ s', same_server s s' ∧ selecting s' ∧
    ∃ v', services_ s' = <[name := v']> (services_ s) ∧ Post v') s.
Proof.
  intros Hop Hs Hsel Hv Hpre. specialize (Hop s v Hs Hsel Hpre). unfold wp, on_service in *.
  rewrite Hv. destruct (op v (service_view s v)) as [[] w|]; [|done]. destruct Hop as [Hw Hpost].
  split_and!; [split_and!; try done; by apply infos_insert| |eauto]. unfold selecting in *. unfold event_threads in *. simpl.
  destruct Hw as (H1' & H2' & H3'). destruct Hsel as (H4' & H5' & H6'). simpl in *.
  split_and!; simpl; try done; try lia.
Qed.

Lemma wp_each_service s0 op Pre Post names s :
  service_spec s0 op Pre Post → NoDup names → same_server s0 s → selecting s →
  (∀ name, name ∈ names → is_Some (services_ s !! name)) →
  (∀ name v, services_ s !! name = Some v → if decide (name ∈ names) then Pre v else Post v) →
  wp (for_each names (λ name, on_service name op)) (λ _ s', same_server s s' ∧ selecting s' ∧
    ∀ name v, services_ s' !! name = Some v → Post v) s.
Proof.
  intros Hop Hnd. revert s. induction Hnd as [|name names Hnin Hnd IH]; intros s Hs Hsel Hdom Hall.
  { apply wp_ret. by split_and!. }
  destruct (Hdom name) as [v Hv]; [left|]. apply wp_bind.
  eapply wp_mono; [apply (wp_on_service s0 op Pre Post name v); try done|].
  { specialize (Hall _ _ Hv). rewrite decide_True in Hall; [done|left]. }
  intros [] s1 (Hs1 & Hsel1 & v' & Es & Hpost). eapply wp_mono; [apply IH|].
  - by transitivity s.
  - done.
  - intros k Hk. rewrite Es. apply lookup_insert_is_Some'. right. apply Hdom. by right.
  - intros k u. rewrite Es. intros [[<- <-]|[Hne Hu]]%lookup_insert_Some.
    + by rewrite decide_False.
    + specialize (Hall _ _ Hu). destruct (decide (k ∈ names)) as [Hin|Hnot].
      * rewrite decide_True in Hall; [done|by right].
      * rewrite decide_False in Hall; [done|]. rewrite elem_of_cons. naive_solver.
  - intros [] s2 (Hs2 & ? & ?). split_and!; try done. by transitivity s1.
Qed.

Lemma wp_for_services s0 op Pre Post s :
  service_spec s0 op Pre Post → same_server s0 s → selecting s →
  (∀ name v, services_ s !! name = Some v → Pre v) →
  wp (for_services op) (λ _ s', same_server s s' ∧ selecting s' ∧
    ∀ name v, services_ s' !! name = Some v → Post v) s.
Proof.
  intros Hop Hs Hsel Hall. unfold for_services. apply wp_bind. unfold wp at 1, get.
  eapply wp_each_service; try done; [apply map_entries_nodup|by intros name Hn%map_entries_names|].
  intros name v Hv. rewrite decide_True; [by eapply Hall|]. apply map_entries_names. eauto.
Qed.

Lemma spec_StartServing s0 :
  service_spec s0 (λ v, StartServing (methods_ v) (completion_queues s0))
    (service_in_phase Fresh s0) (service_in_phase Started s0).
Proof.
  intros s v (_ & _ & _ & Ec & Ee & _) Hsel Hv. simpl in Hv.
  set (n := length (event_queue_threads_ s)). unfold selecting in Hsel. fold n in Hsel.
  assert (service_view s v =
    world_init n (event_threads s, current_event_queue_id_ s) (execution_context_ s)) as ->.
  { rewrite Hv. unfold n. by rewrite Ee. }
  pose proof (wp_StartServing n (methods_ v) (completion_queues s0) _
    (inv_init n _ (execution_context_ s) Hsel) eq_refl) as Hwp.
  unfold wp in *. destruct (StartServing _ _ _) as [[] w|] eqn:E; [|done].
  destruct Hwp as [(C & _) Hsd]. split; [by apply (c_sel _ _ _ C)|]. split; [|done].
  exists (event_threads s, current_event_queue_id_ s), (execution_context_ s). rewrite <- Ee.
  split; [done|]. by apply calm_start.
Qed.

Lemma spec_StopServing s0 :
  service_spec s0 (λ _, StopServing) (service_in_phase Started s0) (service_in_phase Stopped s0).
Proof.
  intros s v (_ & _ & _ & Ec & Ee & _) Hsel [Hv _].
  assert (serving s v) as Hv'.
  { unfold serving, completion_queues in *. by rewrite Ec, Ee. }
  destruct (serving_view s v Hsel Hv') as (st & c & Hst & Hrun).
  apply wp_modify. split; [exact Hsel|]. split; [|done]. exists st, c. rewrite <- Ee.
  split; [done|]. unfold completion_queues. rewrite <- Ec.
  by eapply (calm_step _ _ _ _ _ _ LStopServing); [exact Hrun|by split|done|by intros t].
Qed.

(** ** Loops over the threads *)

(** Two loops over threads, the first over at least one. *)
Lemma two_loops_fail (f g : ThreadState → failure + ThreadState) l1 l2 t e
    (k : list ThreadState → list ThreadState → M Server unit) s :
  Forall (eq t) l1 → Forall (eq t) l2 → l2 ++ l1 ≠ [] → f t = inl e → g t = inl e →
  (a ← lift_threads (for_threads f l1); b ← lift_threads (for_threads g l2); k a b) s = Fail e.
Proof.
  intros H1' H2' Hne Hf Hg. destruct (decide (l1 = [])) as [->|Hn1].
  - simpl. unfold mbind, M_bind, mret, M_ret.
    rewrite (for_threads_fail g l2 t e); [done|done| |done]. by rewrite app_nil_r in Hne.
  - by rewrite (for_threads_fail f l1 t e).
Qed.

Lemma two_loops_ok (f g : ThreadState → failure + ThreadState) l1 l2 t t1 t2
    (k : list ThreadState → list ThreadState → M Server unit) s :
  Forall (eq t) l1 → Forall (eq t) l2 → f t = inr t1 → g t = inr t2 →
  (a ← lift_threads (for_threads f l1); b ← lift_threads (for_threads g l2); k a b) s =
    k (replicate (length l1) t1) (replicate (length l2) t2) s.
Proof.
  intros H1' H2' Hf Hg. rewrite (for_threads_ok f l1 t t1), (for_threads_ok g l2 t t2) by done.
  done.
Qed.

(** Setting the states of the threads, the rest being in place. *)
Lemma in_phase_threads p s :
  selecting s → server_ s = bool_decide (p ≠ Fresh) →
  server_shutting_down_ s = bool_decide (p = Stopped) →
  (∀ name v, services_ s !! name = Some v → service_in_phase p s v) →
  in_phase p (set_threads
    (replicate (length (completion_queue_threads_ s)) (thread_in_phase p))
    (replicate (length (event_queue_threads_ s)) (thread_in_phase p)) s).
Proof.
  intros Hsel Hs Hd Hv. split; simpl; rewrite ?length_replicate; try done;
    try (by apply Forall_replicate).
  intros name v Hn. specialize (Hv name v Hn). destruct p; simpl in *;
    unfold serving, completion_queues in *; simpl; by rewrite ?length_replicate.
Qed.

Lemma service_in_phase_same p s s' v :
  same_server s s' → service_in_phase p s v ↔ service_in_phase p s' v.
Proof.
  intros (_ & _ & _ & Ec & Ee & _). destruct p; simpl; unfold serving, completion_queues;
    rewrite ?Ec, ?Ee; done.
Qed.

Lemma phase_has_thread p s : in_phase p s → event_queue_threads_ s ≠ [].
Proof. intros [(Hk & Hn & _) _ _ _ _ _] E. rewrite E in Hk. simpl in *. lia. Qed.

(** ** The calls *)

(** [server_] set and tracing configured, the rest unchanged. *)
Definition with_server (s : Server) : Server :=
  mkServer (server_options_ s) (server_shutting_down_ s) true (completion_queue_threads_ s)
    (event_queue_threads_ s) (current_event_queue_id_ s) (services_ s) (execution_context_ s)
    (trace_calls s ++ Start_tracing (server_options_ s)).

Lemma Start_unfold s :
  Start s =
  (for_services (λ v, StartServing (methods_ v) (completion_queues s)) ;;
   s ← get;
   a ← lift_threads (for_threads EventQueueThread_Start (event_queue_threads_ s));
   b ← lift_threads (for_threads CompletionQueueThread_Start (completion_queue_threads_ s));
   modify (set_threads b a)) (with_server s).
Proof. done. Qed.

Lemma Start_fresh s : in_phase Fresh s → wp Start (λ _ s', in_phase Started s' ∧
  length (completion_queue_threads_ s') = length (completion_queue_threads_ s) ∧
  rpc_handler_infos_ <$> services_ s' = rpc_handler_infos_ <$> services_ s ∧
  trace_calls s' = trace_calls s ++ Start_tracing (server_options_ s)) s.
Proof.
  intros [Hsel Hs Hd Hc He Hv]. unfold wp. rewrite Start_unfold.
  assert (wp (for_services (λ v, StartServing (methods_ v) (completion_queues s)))
    (λ _ s', same_server (with_server s) s' ∧ selecting s' ∧
       ∀ name v, services_ s' !! name = Some v → service_in_phase Started (with_server s) v)
    (with_server s)) as Hwp.
  { apply (wp_for_services (with_server s) _ (service_in_phase Fresh (with_server s)));
      [exact (spec_StartServing (with_server s))|done|done|done]. }
  unfold wp in Hwp. unfold mbind at 1, M_bind at 1.
  destruct (for_services _ _) as [[] s1|]; [|done]. destruct Hwp as (Hs1 & Hsel1 & Hv1).
  pose proof Hs1 as (E1 & E2 & E3 & E4 & E5 & E6 & E7). unfold mbind at 1, M_bind at 1, get.
  rewrite (two_loops_ok _ _ _ _ NotStarted Running Running); [|by rewrite E5|by rewrite E4|done|done].
  split_and!; [|simpl; by rewrite E4, length_replicate|exact E6|exact E7]. apply (in_phase_threads Started); [done|by rewrite E3| |].
  - by rewrite E2.
  - intros name v Hn. apply (service_in_phase_same Started _ _ _ Hs1). by apply (Hv1 name).
Qed.

Lemma Start_again p s : in_phase p s → p ≠ Fresh → ∃ f, Start s = Fail f.
Proof.
  intros Hp Hne. pose proof (phase_has_thread _ _ Hp) as Hth. destruct Hp as [_ _ _ Hc He _].
  rewrite Start_unfold. unfold mbind at 1, M_bind at 1.
  pose proof (for_services_same (λ v, StartServing (methods_ v) (completion_queues s))
    (with_server s)) as Hs. unfold wlp in Hs.
  destruct (for_services _ _) as [[] s1|f]; [|by exists f]. destruct Hs as (_ & _ & _ & E4 & E5 & _).
  unfold mbind at 1, M_bind at 1, get. exists (CheckFailed "Start").
  apply (two_loops_fail _ _ _ _ (thread_in_phase p)); [by rewrite E5|by rewrite E4| |by destruct p..].
  rewrite E4, E5. simpl. intros E%app_nil. by destruct E.
Qed.

Definition with_down (s : Server) : Server :=
  mkServer (server_options_ s) true (server_ s) (completion_queue_threads_ s)
    (event_queue_threads_ s) (current_event_queue_id_ s) (services_ s) (execution_context_ s)
    (trace_calls s).

Lemma Shutdown_unfold s :
  Shutdown s =
  (for_services (λ _, StopServing) ;;
   s ← get;
   (if server_ s then mret tt else fail NullPointer) ;;
   a ← lift_threads (for_threads CompletionQueueThread_Shutdown (completion_queue_threads_ s));
   b ← lift_threads (for_threads (EventQueueThread_Shutdown (server_shutting_down_ s)) (event_queue_threads_ s));
   modify (set_threads a b)) (with_down s).
Proof. done. Qed.

Lemma Shutdown_started s : in_phase Started s → wp Shutdown (λ _ s', in_phase Stopped s') s.
Proof.
  intros [Hsel Hs Hd Hc He Hv]. unfold wp. rewrite Shutdown_unfold.
  assert (wp (for_services (λ _, StopServing))
    (λ _ s', same_server (with_down s) s' ∧ selecting s' ∧
       ∀ name v, services_ s' !! name = Some v → service_in_phase Stopped (with_down s) v)
    (with_down s)) as Hwp.
  { apply (wp_for_services (with_down s) _ (service_in_phase Started (with_down s)));
      [exact (spec_StopServing (with_down s))|done|done|done]. }
  unfold wp in Hwp. unfold mbind at 1, M_bind at 1.
  destruct (for_services _ _) as [[] s1|]; [|done]. destruct Hwp as (Hs1 & Hsel1 & Hv1).
  pose proof Hs1 as (E1 & E2 & E3 & E4 & E5 & E6). unfold mbind at 1, M_bind at 1, get.
  simpl in E2, E3. rewrite E2, E3, Hs. simpl. unfold mbind at 1, M_bind at 1, mret, M_ret.
  rewrite (two_loops_ok _ _ _ _ Running Joined Joined); [|by rewrite E4|by rewrite E5|done|done].
  apply (in_phase_threads Stopped); [done|by rewrite E3|by rewrite E2|].
  intros name v Hn. apply (service_in_phase_same Stopped _ _ _ Hs1). by apply (Hv1 name).
Qed.

Lemma Shutdown_otherwise p s : in_phase p s → p ≠ Started → ∃ f, Shutdown s = Fail f.
Proof.
  intros Hp Hne. pose proof (phase_has_thread _ _ Hp) as Hth. destruct Hp as [_ Hs _ Hc He _].
  rewrite Shutdown_unfold. unfold mbind at 1, M_bind at 1.
  pose proof (for_services_same (λ _, StopServing) (with_down s)) as Hf. unfold wlp in Hf.
  destruct (for_services _ _) as [[] s1|f]; [|by exists f].
  destruct Hf as (_ & E2 & E3 & E4 & E5 & _). simpl in *.
  unfold mbind at 1, M_bind at 1, get. rewrite E2, E3, Hs. destruct p; [by exists NullPointer|done|].
  simpl. unfold mbind at 1, M_bind at 1, mret, M_ret. exists Exception.
  apply (two_loops_fail _ _ _ _ Joined); [by rewrite E4|by rewrite E5| |done|done].
  rewrite E4, E5. by destruct (event_queue_threads_ s).
Qed.

Lemma server_call_phase p k s :
  in_phase p s →
  match server_call k s with
  | Ok _ s' => ∃ p', next_phase p k = Some p' ∧ in_phase p' s'
  | Fail _ => next_phase p k = None
  end.
Proof.
  intros Hp. destruct k; simpl.
  - destruct Hp as [Hsel Hs Hd Hc He Hv]. unfold SetExecutionContext, mbind, M_bind, get, check.
    rewrite Hs. destruct p; simpl; [|done..]. exists Fresh. split; [done|]. by split.
  - destruct (decide (p = Fresh)) as [->|Hne].
    + pose proof (Start_fresh s Hp) as Hw. unfold wp in Hw. destruct (Start s) as [[] s'|]; [|done].
      exists Started. by destruct Hw.
    + destruct (Start_again p s Hp Hne) as [f ->]. by destruct p.
  - unfold WaitForShutdown, mbind, M_bind, get. rewrite (ph_server _ _ Hp), (ph_down _ _ Hp).
    destruct p; simpl; [by exists Fresh|done|by exists Stopped].
  - destruct (decide (p = Started)) as [->|Hne].
    + pose proof (Shutdown_started s Hp) as Hw. unfold wp in Hw.
      destruct (Shutdown s) as [[] s'|]; [|done]. by exists Stopped.
    + destruct (Shutdown_otherwise p s Hp Hne) as [f ->]. by destruct p.
Qed.

(** C17: the life cycle.  On a server that was built, a sequence of calls
    returns exactly when it sets the context and waits any number of times,
    then starts once, then shuts down once, then waits any number of times
    (or stops short of that); then the threads are all running after the
    start and all joined after the shutdown, and every service is serving or
    stopped.  Every other sequence aborts, throws or blocks. *)
Theorem server_life_cycle (ks : list ServerCall) s :
  in_phase Fresh s →
  match for_each ks server_call s with
  | Ok _ s' => ∃ p, phase_after Fresh ks = Some p ∧ in_phase p s'
  | Fail _ => phase_after Fresh ks = None
  end.
Proof.
  generalize Fresh as p. revert s. induction ks as [|k ks IH]; intros s p Hs; simpl; [by exists p|].
  pose proof (server_call_phase p k s Hs) as Hk. unfold mbind at 1, M_bind.
  destruct (server_call k s) as [[] s1|f].
  - destruct Hk as (p' & -> & Hs1). by apply IH.
  - by rewrite Hk.
Qed.

Lemma length_slots infos cqs : length (slots infos cqs) = length infos * length cqs.
Proof.
  unfold slots. generalize 0 as i. induction infos as [|info infos IH]; intros i; simpl; [done|].
  by rewrite length_app, length_fmap, IH.
Qed.

(** The start.  [Start] on a server that was built returns, keeps the
    services it has, configures tracing as the options say, and every service
    then has exactly one [Rpc] waiting for a connection per method and
    completion queue. *)
Theorem server_start_total s :
  in_phase Fresh s →
  ∃ s', Start s = Ok tt s' ∧ rpc_handler_infos_ <$> services_ s' = rpc_handler_infos_ <$> services_ s ∧
    trace_calls s' = trace_calls s ++ Start_tracing (server_options_ s) ∧
    ∀ name v, services_ s' !! name = Some v →
      listeners (heap_ (service_state_ v)) ≡ₚ slots (methods_ v) (completion_queues s) ∧
      length (listeners (heap_ (service_state_ v))) =
        length (methods_ v) * length (completion_queue_threads_ s).
Proof.
  intros Hp. pose proof (Start_fresh s Hp) as Hw. unfold wp in Hw.
  destruct (Start s) as [[] s'|]; [|done]. destruct Hw as (Hp' & Hlen & Hinfos & Htr).
  exists s'. split_and!; [done|done|done|]. intros name v Hv.
  destruct (ph_services _ _ Hp' _ _ Hv) as [(st & c & Hst & Hrun) Hsd].
  pose proof (calm_listeners _ _ _ _ _ _ Hst Hrun Hsd) as Hl. unfold completion_queues in *.
  rewrite Hlen in Hl. split; [done|]. by rewrite Hl, length_slots, length_seq.
Qed.

(** ** Servers with their services running *)

(** A call on the server, or a step of one of its services. *)
Inductive server_step (s s' : Server) : Prop :=
  | server_step_call k : server_call k s = Ok tt s' → server_step s s'
  | server_step_service name v v' l :
      server_ s = true → services_ s !! name = Some v → shared_label l = false →
      env_ok (service_view s v) l → conn_ok (service_view s v) l →
      on_service name (λ _, exec l) s = Ok tt s' → services_ s' !! name = Some v' →
      no_race (service_view s v) (service_state_ v') → server_step s s'.

(** A step of one service inside the server: what it does to the server, and
    that the service goes on with its run. *)
Lemma exec_serving s name v l s' v' :
  selecting s → serving s v → services_ s !! name = Some v → shared_label l = false →
  env_ok (service_view s v) l → conn_ok (service_view s v) l →
  on_service name (λ _, exec l) s = Ok tt s' → services_ s' !! name = Some v' →
  no_race (service_view s v) (service_state_ v') →
  same_server s s' ∧ selecting s' ∧ services_ s' = <[name := v']> (services_ s) ∧
  serving s' v' ∧ shutting_down_ (service_state_ v') = shutting_down_ (service_state_ v) ∧
  step (service_view s v) l (service_state_ v').
Proof.
  intros Hsel Hser Hv Hsh Henv Hok Hx Hv' Hrace.
  pose proof (preserves_Ok _ _ _ _ _ (on_service_same name _) Hx) as Hsame.
  unfold on_service in Hx. rewrite Hv in Hx.
  destruct (exec l (service_view s v)) as [[] w|] eqn:Hexec; [|done]. injection Hx as <-.
  simpl in Hv'. rewrite lookup_insert_eq in Hv'. injection Hv' as <-. simpl in Hrace.
  destruct (serving_view s v Hsel Hser) as (st & c & Hst & Hrun).
  assert (step (service_view s v) l w) as Hstep by (by split).
  pose proof (exec_keeps_down _ _ _ _ (calm_inv _ _ _ _ _ _ Hst Hrun) Hstep
    ltac:(by destruct l)) as Hd.
  pose proof (calm_step _ _ _ _ _ _ _ _ Hrun Hstep Hok Hrace) as Hrun'.
  destruct (calm_inv _ _ _ _ _ _ Hst Hrun') as (C & _).
  pose proof (c_sel _ _ _ C) as (S1 & S2 & S3). split_and!; try done.
  - unfold selecting in *. destruct Hsel as (P1 & P2 & P3). unfold event_threads in *. simpl in *.
    split_and!; simpl; lia.
  - by exists st, c.
Qed.

Lemma exec_phase p s name v l s' v' :
  in_phase p s → p ≠ Fresh → services_ s !! name = Some v → shared_label l = false →
  env_ok (service_view s v) l → conn_ok (service_view s v) l →
  on_service name (λ _, exec l) s = Ok tt s' → services_ s' !! name = Some v' →
  no_race (service_view s v) (service_state_ v') → in_phase p s'.
Proof.
  intros Hp Hne Hv Hsh Henv Hok Hx Hv' Hrace.
  pose proof (ph_services _ _ Hp _ _ Hv) as Hpv.
  assert (serving s v) as Hser by (destruct p; [done|naive_solver..]).
  destruct (exec_serving s name v l s' v' (ph_selector _ _ Hp) Hser Hv Hsh Henv Hok Hx Hv' Hrace)
    as (Hsame & Hsel & Es & Hser' & Hd & _).
  pose proof Hsame as (E1 & E2 & E3 & E4 & E5 & _). destruct Hp as [_ Hs Hdn Hc He Hall].
  split; rewrite ?E2, ?E3, ?E4; try done; [by rewrite E5|]. intros name' u. rewrite Es.
  intros [[<- <-]|[_ Hu]]%lookup_insert_Some.
  - destruct p; [done|..]; destruct Hpv as [_ Hdv]; split; congruence || done.
  - apply (service_in_phase_same p s s' u Hsame). by apply (Hall name').
Qed.

Lemma server_step_phase p s s' : in_phase p s → server_step s s' → ∃ p', in_phase p' s'.
Proof.
  intros Hp [k Hk|name v v' l Hs Hv Hsh Henv Hok Hx Hv' Hrace].
  - pose proof (server_call_phase p k s Hp) as Hc. rewrite Hk in Hc.
    destruct Hc as (p' & _ & ?). eauto.
  - exists p. eapply exec_phase; try done. intros ->. by rewrite (ph_server _ _ Hp) in Hs.
Qed.

Lemma server_steps_phase s s' : rtc server_step s s' → ∀ p, in_phase p s → ∃ p', in_phase p' s'.
Proof.
  induction 1 as [s|s1 s2 s3 Hstep _ IH]; intros p Hp; [eauto|].
  destruct (server_step_phase _ _ _ Hp Hstep) as [p' Hp']. eauto.
Qed.

(** The services of a server and their methods stay as they were built. *)
Definition keeps_infos (s s' : Server) : Prop :=
  rpc_handler_infos_ <$> services_ s' = rpc_handler_infos_ <$> services_ s.

#[global] Instance keeps_infos_preorder : PreOrder keeps_infos.
Proof. split; [done|]. unfold keeps_infos. intros s1 s2 s3 E1 E2. congruence. Qed.

Lemma for_services_infos op : preserves keeps_infos (for_services op).
Proof.
  intros s. apply wlp_intro. intros [] s' Hx.
  by destruct (preserves_Ok _ _ _ _ _ (for_services_same op) Hx) as (_ & _ & _ & _ & _ & ? & _).
Qed.

Lemma lift_threads_infos {A} (r : failure + A) : preserves keeps_infos (lift_threads r).
Proof. destruct r; [apply preserves_fail|apply preserves_ret; apply _]. Qed.

#[local] Hint Resolve for_services_infos lift_threads_infos : preserves.
#[local] Hint Extern 1 (preserves keeps_infos (modify _)) =>
  apply preserves_modify; done : preserves.

Lemma server_call_infos k : preserves keeps_infos (server_call k).
Proof.
  destruct k; simpl; unfold SetExecutionContext, Start, WaitForShutdown, Shutdown; preserves_tac.
Qed.

Lemma server_steps_infos s s' : rtc server_step s s' → keeps_infos s s'.
Proof.
  induction 1 as [s|s1 s2 s3 [k Hk|name v v' l _ _ _ _ _ Hx _ _] _ IH]; [done|..].
  - etransitivity; [exact (preserves_Ok _ _ _ _ _ (server_call_infos k) Hk)|exact IH].
  - etransitivity; [|exact IH].
    by destruct (preserves_Ok _ _ _ _ _ (on_service_same name _) Hx) as (_ & _ & _ & _ & _ & ? & _).
Qed.

(** A service of a server that was built and has started, with the run it is
    in. *)
Lemma server_service_run s0 s name v :
  in_phase Fresh s0 → rtc server_step s0 s → services_ s !! name = Some v →
  (∃ v0, services_ s0 !! name = Some v0 ∧ methods_ v = methods_ v0) ∧
  (heap_ (service_state_ v) = ∅ ∨ serving s v).
Proof.
  intros Hf Hrun Hv. split.
  - pose proof (server_steps_infos _ _ Hrun) as Hk. apply (f_equal (.!! name)) in Hk.
    rewrite !lookup_fmap, Hv in Hk. destruct (services_ s0 !! name) as [v0|]; [|done].
    exists v0. split; [done|]. injection Hk as Hk. unfold methods_. by rewrite Hk.
  - destruct (server_steps_phase _ _ Hrun Fresh Hf) as [p Hp].
    pose proof (ph_services _ _ Hp _ _ Hv) as Hs. destruct p; [left|right; by destruct Hs..].
    simpl in Hs. by rewrite Hs.
Qed.

(** ** Building *)

Lemma AddServices_ok (l : list (string * gmap string RpcHandlerInfo)) s :
  NoDup l.*1 → (∀ e, e ∈ l → services_ s !! e.1 = None) →
  for_each l (λ e, AddService e.1 e.2) s =
    Ok tt (set_services (λ m, list_to_map
      (prod_map id (Service_new (length (event_queue_threads_ s))) <$> l) ∪ m) s).
Proof.
  revert s. induction l as [|[name infos] l IH]; intros s Hnd Hfr; simpl.
  { unfold mret, M_ret, set_services. destruct s. simpl. by rewrite map_empty_union. }
  apply NoDup_cons in Hnd as [Hnin Hnd].
  unfold mbind at 1, M_bind, AddService at 1, mbind, M_bind, get. simpl.
  rewrite bool_decide_eq_true_2 by (apply (Hfr (name, infos)); left). simpl.
  rewrite IH; [|done|].
  - f_equal. unfold set_services. destruct s. simpl. f_equal.
    rewrite <- insert_union_l, insert_union_r; [done|].
    apply not_elem_of_list_to_map_1. intros (e & -> & He)%list_elem_of_fmap. apply Hnin.
    apply list_elem_of_fmap in He as ([n' i'] & -> & He). apply list_elem_of_fmap. by exists (n', i').
  - intros [n' i'] He. simpl. rewrite lookup_insert_ne; [by apply (Hfr (n', i')); right|].
    intros ->. apply Hnin. apply list_elem_of_fmap. by exists (n', i').
Qed.

Lemma Build_eq b :
  Build b =
  match num_event_threads (options_ b), num_grpc_threads (options_ b) with
  | Some ne, Some ng =>
      inr (mkServer (options_ b) false false (replicate (Z.to_nat ng) NotStarted)
        (replicate (Z.to_nat ne) NotStarted) 0 (Service_new (Z.to_nat ne) <$> rpc_handlers_ b)
        null_context [])
  | _, _ => inl UndefinedBehaviour
  end.
Proof.
  unfold Build, Server_new.
  destruct (num_event_threads (options_ b)), (num_grpc_threads (options_ b)); try done.
  pose proof (map_entries_nodup (rpc_handlers_ b)) as Hnd.
  rewrite AddServices_ok; [|done|by intros e _]. simpl. rewrite length_replicate.
  unfold set_services. simpl. do 2 f_equal. rewrite map_union_empty, list_to_map_fmap. f_equal.
  rewrite (list_to_map_proper _ _ Hnd (map_entries_perm _)). apply list_to_map_to_list.
Qed.

(** Building a server.  [Build] always gives a server with exactly the
    registered services, each with its registered methods, and as many
    threads as were asked for, none of them started; provided both numbers of
    threads were set, since otherwise it reads indeterminate values. *)
Theorem Build_exact b :
  Build b =
  match num_event_threads (options_ b), num_grpc_threads (options_ b) with
  | Some ne, Some ng =>
      inr (mkServer (options_ b) false false (replicate (Z.to_nat ng) NotStarted)
        (replicate (Z.to_nat ne) NotStarted) 0 (Service_new (Z.to_nat ne) <$> rpc_handlers_ b)
        null_context [])
  | _, _ => inl UndefinedBehaviour
  end.
Proof. apply Build_eq. Qed.

(** A server that was built with at least one event thread is fresh. *)
Lemma Build_fresh b s :
  Build b = inr s → (0 < event_threads s ≤ int_max)%Z → in_phase Fresh s.
Proof.
  rewrite Build_eq. destruct (num_event_threads (options_ b)) as [ne|] eqn:Ee; [|done].
  destruct (num_grpc_threads (options_ b)) as [ng|]; [|done]. intros [= <-].
  unfold event_threads. simpl. rewrite Ee. simpl. intros Hn.
  split; simpl; try done; try (by apply Forall_replicate).
  - rewrite length_replicate. unfold event_threads. simpl. rewrite Ee. split_and!; simpl; lia.
  - intros name v (infos & <- & _)%lookup_fmap_Some. simpl. by rewrite length_replicate.
Qed.

(** C3: services of a server.  From a builder to a server with any number of
    services: whatever calls are made on the server and however the steps of
    its services interleave, in calm runs every step a service can take
    returns normally.  The server's own selector meets what the services ask
    of it, and one service does not disturb another. *)
Theorem server_services_safe b s0 s name v l :
  Build b = inr s0 → (0 < event_threads s0 ≤ int_max)%Z → rtc server_step s0 s →
  server_ s = true → services_ s !! name = Some v →
  env_ok (service_view s v) l → conn_ok (service_view s v) l →
  ∃ s', on_service name (λ _, exec l) s = Ok tt s'.
Proof.
  intros Hb Hn Hsteps Hsv Hv Henv Hok.
  destruct (server_steps_phase _ _ Hsteps Fresh (Build_fresh b s0 Hb Hn)) as [p Hp].
  assert (serving s v) as Hser.
  { pose proof (ph_services _ _ Hp _ _ Hv). rewrite (ph_server _ _ Hp) in Hsv.
    destruct p; [done|naive_solver..]. }
  destruct (serving_view s v (ph_selector _ _ Hp) Hser) as (st & c & Hst & Hrun).
  pose proof (wp_exec (length (event_queue_threads_ s)) (service_view s v) l
    (calm_inv _ _ _ _ _ _ Hst Hrun) Henv Hok) as Hwp.
  unfold wp in Hwp. unfold on_service. rewrite Hv.
  destruct (exec l (service_view s v)) as [[] w|]; [by eexists|done].
Qed.

End server.

(** ** From the builder to the tracing library *)

Section tracing.
Context `{GrpcStatus, Application, !EqDecision Descriptor, !DescriptorPool, !BuildConfig}.

(** C30: tracing.  A server built by any sequence of calls on a builder and
    then started configures the tracing library exactly when tracing is
    compiled in and was switched on last, once, with the last project and
    sampling probability that were set; no other option plays a role. *)
Theorem tracing_configured cs b s s' :
  for_each cs builder_call Builder_new = Ok tt b → Build b = inr s → in_phase Fresh s →
  Start s = Ok tt s' →
  trace_calls s' =
    if BUILD_TRACING && tracing_after cs then
      [StackdriverExporter_Register (project_after cs);
       SetCurrentTraceParams 128 128 128 128 (probability_after cs)]
    else [].
Proof.
  intros Hb Hs Hf Hx. pose proof (Start_fresh s Hf) as Hw. unfold wp in Hw. rewrite Hx in Hw.
  destruct Hw as (_ & _ & _ & ->). rewrite Build_eq in Hs.
  destruct (num_event_threads _) as [ne|]; [|done]. destruct (num_grpc_threads _) as [ng|]; [|done].
  injection Hs as <-. apply builder_tracing in Hb. unfold tracing_options in Hb. simpl.
  unfold Start_tracing. injection Hb as -> -> ->. done.
Qed.

End tracing.

(** ** The server of the example builder

    One event queue, two completion queues, one service with two methods. *)

#[local] Existing Instance example_status.
#[local] Existing Instance example_application.

Definition math_server : Server :=
  match Build math_builder with
  | inr s => s
  | inl _ => mkServer Options_default false false [] [] 0 ∅ null_context []
  end.

Lemma math_server_eq : Build math_builder = inr math_server.
Proof.
  unfold math_server. destruct (Build math_builder) as [f|s] eqn:E; [|done].
  exfalso. rewrite Build_eq in E. vm_compute in E. discriminate E.
Qed.

Lemma math_server_threads : (0 < event_threads math_server ≤ int_max)%Z.
Proof. assert (event_threads math_server = 1%Z) as -> by (vm_compute; reflexivity). done. Qed.

Lemma math_server_fresh : in_phase Fresh math_server.
Proof. apply (Build_fresh math_builder); [exact math_server_eq|exact math_server_threads]. Qed.

Lemma server_life_cycle_witness :
  ∃ s', for_each [KSetExecutionContext 7%Z; KStart; KShutdown; KWaitForShutdown] server_call
      math_server = Ok tt s' ∧ in_phase Stopped s'.
Proof.
  pose proof (server_life_cycle [KSetExecutionContext 7%Z; KStart; KShutdown; KWaitForShutdown]
    math_server math_server_fresh) as Hl.
  destruct (for_each _ _ _) as [[] s'|]; [|discriminate Hl]. exists s'. split; [reflexivity|].
  destruct Hl as (p & [= <-] & Hs). exact Hs.
Defined.

Lemma server_start_total_witness :
  ∃ s', Start math_server = Ok tt s' ∧
    rpc_handler_infos_ <$> services_ s' = rpc_handler_infos_ <$> services_ math_server.
Proof.
  destruct (server_start_total math_server math_server_fresh) as (s' & Hs & Hi & _).
  exists s'. split; [exact Hs|exact Hi].
Defined.

(** The server after its start. *)
Definition math_started : Server :=
  match Start math_server with Ok _ s => s | Fail _ => math_server end.

Lemma math_started_eq : Start math_server = Ok tt math_started.
Proof.
  assert (is_ok (Start math_server) = true) as Hok by (vm_compute; reflexivity).
  unfold math_started. by destruct (Start math_server) as [[] s|].
Qed.

(** The state of its service, when a check of it evaluates to true. *)
Lemma math_service_check (f : World → bool) :
  match services_ math_started !! "async_grpc.proto.Math"%string with
  | Some v => f (service_view math_started v)
  | None => false
  end = true →
  ∃ v, services_ math_started !! "async_grpc.proto.Math"%string = Some v ∧
    f (service_view math_started v) = true.
Proof. destruct (services_ math_started !! _) as [v|]; [eauto|done]. Qed.

(** The first of its objects gets a connection. *)
Lemma server_services_safe_witness :
  ∃ s', on_service "async_grpc.proto.Math"
    (λ _, exec (LCompletion 0 Event.NEW_CONNECTION true None)) math_started = Ok tt s'.
Proof.
  destruct (math_service_check
    (λ w, env_okb w (LCompletion 0 Event.NEW_CONNECTION true None))) as (v & Hv & Henv);
    [vm_compute; reflexivity|].
  apply (server_services_safe math_builder math_server math_started "async_grpc.proto.Math" v).
  - exact math_server_eq.
  - exact math_server_threads.
  - apply rtc_once. apply (server_step_call _ _ KStart). exact math_started_eq.
  - vm_compute. reflexivity.
  - exact Hv.
  - apply env_okb_sound. exact Henv.
  - exact I.
Defined.

(** The library with tracing compiled in. *)
Definition tracing_build : BuildConfig := {| BUILD_TRACING := true |}.

Definition traced_calls : list BuilderCall :=
  [CSetNumGrpcThreads 1; CSetNumEventThreads 1; CSetTracingGcpProjectId "project"; CEnableTracing;
   CSetTracingTaskName "task"].

Definition traced_server : Server :=
  mkServer (mkOptions (Some 1%Z) (Some 1%Z) EmptyString kDefaultMaxMessageSize kDefaultMaxMessageSize
    true kDefaultTracingSamplerProbability "task" "project") false false [NotStarted] [NotStarted] 0 ∅
    null_context [].

Lemma tracing_configured_witness :
  trace_calls (set_threads [Running] [Running] (@with_server _ _ tracing_build traced_server)) =
    [StackdriverExporter_Register "project";
     SetCurrentTraceParams 128 128 128 128 kDefaultTracingSamplerProbability].
Proof.
  apply (@tracing_configured _ _ _ math_pool tracing_build traced_calls
    (mkBuilder (server_options_ traced_server) ∅) traced_server).
  - reflexivity.
  - reflexivity.
  - apply (Build_fresh (mkBuilder (server_options_ traced_server) ∅)); [reflexivity|].
    split; [reflexivity|]. vm_compute. intros E. discriminate E.
  - vm_compute. reflexivity.
Defined.
