(* ===== verification/ServerThreads.v ===== *)
(** * The threads of a server and its shutdown

    [ServerLife] takes [Server::Shutdown] as one operation.  Here its main
    thread, the event queue threads and the completion queue threads take
    their steps one by one, as src/async_grpc/server.cc has them: the two
    loops of [RunEventQueue], the loop of [RunCompletionQueue], and
    [Shutdown], which sets the flag, stops the services, shuts down the gRPC
    server, then shuts down and joins each completion queue, then joins each
    event queue thread.  After that the server is destroyed.

    The file shows when the destructor finds no RPC in flight, and that the
    code does not ensure it. *)

From Stdlib Require Import ZArith Lia.
From stdpp Require Import base option list strings gmap.
From S2P Require Import Prelude Threads Interfaces BlockingQueue Rpc TypeTraits Server RoundRobin.
From S2P Require Import Service ServiceInv ServiceLemmas ServiceSafety ServiceSteps ServiceProtocol.
From S2P Require Import ServiceOrder ServiceLeak EventLoop ServiceDrain ServiceExamples ServerLife.
Import Event.

Set Default Proof Using "Type".

Section threads.
Context `{GrpcStatus, Application, !BuildConfig}.

(** ** The state *)

(** Where an event queue thread is: in the loop that runs until
    [shutting_down_] is set, in the loop that handles the rest, or done. *)
Inductive EventPc := EvServing | EvDraining | EvReturned.

#[global] Instance EventPc_eq_dec : EqDecision EventPc.
Proof. solve_decision. Defined.

(** Where [Server::Shutdown] is: before its first statement, in the loop over
    the services (with the names to come), before [server_->Shutdown()], at
    the two statements of [CompletionQueueThread::Shutdown] for the [i]-th
    completion queue, at the join of the [i]-th event queue thread, or done. *)
Inductive MainPc :=
  | MStart
  | MStop (names : list string)
  | MServerShutdown
  | MCqShutdown (i : nat)
  | MCqJoin (i : nat)
  | MEvJoin (i : nat)
  | MReturned.

#[global] Instance MainPc_eq_dec : EqDecision MainPc.
Proof. solve_decision. Defined.

(** [cq_shut] says which completion queues were shut down, [cq_returned] in
    which threads the runner has returned. *)
Record Threaded := mkThreaded {
  the_server : Server;
  cq_shut : list bool;
  cq_returned : list bool;
  ev_pc : list EventPc;
  main_pc : MainPc
}.

Definition set_the_server (s : Server) (t : Threaded) : Threaded :=
  mkThreaded s (cq_shut t) (cq_returned t) (ev_pc t) (main_pc t).
Definition upd_cq_shut f (t : Threaded) : Threaded :=
  mkThreaded (the_server t) (f (cq_shut t)) (cq_returned t) (ev_pc t) (main_pc t).
Definition upd_cq_returned f (t : Threaded) : Threaded :=
  mkThreaded (the_server t) (cq_shut t) (f (cq_returned t)) (ev_pc t) (main_pc t).
Definition upd_ev_pc f (t : Threaded) : Threaded :=
  mkThreaded (the_server t) (cq_shut t) (cq_returned t) (f (ev_pc t)) (main_pc t).
Definition set_main (pc : MainPc) (t : Threaded) : Threaded :=
  mkThreaded (the_server t) (cq_shut t) (cq_returned t) (ev_pc t) pc.

(** After [Start]: every thread is at the top of its loop. *)
Definition threads_started (s : Server) : Threaded :=
  mkThreaded s (replicate (length (completion_queue_threads_ s)) false)
    (replicate (length (completion_queue_threads_ s)) false)
    (replicate (length (event_queue_threads_ s)) EvServing) MStart.

Definition on_server (m : M Server unit) : M Threaded unit := λ t,
  match m (the_server t) with
  | Ok _ s => Ok tt (set_the_server s t)
  | Fail f => Fail f
  end.

(** ** The steps of [Shutdown] *)

Definition lookup_or_throw {A} (l : list A) (i : nat) : M Threaded A :=
  match l !! i with Some a => mret a | None => fail OutOfRange end.

(** [worker_thread_->join()] and [thread_->join()] of the [i]-th thread. *)
Definition join_completion_queue_thread (i : nat) : M Threaded unit :=
  t ← get;
  let s := the_server t in
  returned ← lookup_or_throw (cq_returned t) i;
  th ← lookup_or_throw (completion_queue_threads_ s) i;
  on_server (th' ← lift_threads (Thread_join returned th);
    modify (set_threads (<[i := th']> (completion_queue_threads_ s)) (event_queue_threads_ s))).

Definition join_event_queue_thread (i : nat) : M Threaded unit :=
  t ← get;
  let s := the_server t in
  pc ← lookup_or_throw (ev_pc t) i;
  th ← lookup_or_throw (event_queue_threads_ s) i;
  on_server (th' ← lift_threads (Thread_join (bool_decide (pc = EvReturned)) th);
    modify (set_threads (completion_queue_threads_ s) (<[i := th']> (event_queue_threads_ s)))).

(** One step of [Shutdown].  When [server_->Shutdown()] returns is up to
    gRPC. *)
Definition Shutdown_step : M Threaded unit :=
  t ← get;
  let s := the_server t in
  match main_pc t with
  | MStart => modify (set_the_server (with_down s)) ;; modify (set_main (MStop (map_entries (services_ s)).*1))
  | MStop (name :: names) =>
      on_server (on_service name (λ _, StopServing)) ;; modify (set_main (MStop names))
  | MStop [] => modify (set_main MServerShutdown)
  | MServerShutdown =>
      (if server_ s then mret tt else fail NullPointer) ;; modify (set_main (MCqShutdown 0))
  | MCqShutdown i =>
      if decide (i < length (completion_queue_threads_ s)) then
        modify (upd_cq_shut (insert i true)) ;; modify (set_main (MCqJoin i))
      else modify (set_main (MEvJoin 0))
  | MCqJoin i => join_completion_queue_thread i ;; modify (set_main (MCqShutdown (S i)))
  | MEvJoin i =>
      if decide (i < length (event_queue_threads_ s)) then
        join_event_queue_thread i ;; modify (set_main (MEvJoin (S i)))
      else modify (set_main MReturned)
  | MReturned => mret tt
  end.

(** ** The steps of all threads *)

(** A step of a service by the thread that runs it; a completion queue
    thread sees [Next] return false; an event queue thread sees
    [shutting_down_] set; a pop of its second loop times out; [Shutdown]. *)
Inductive ThreadLabel :=
  | TService (name : string) (l : Label)
  | TCqReturn (i : nat)
  | TNotice (q : nat)
  | TEvReturn (q : nat)
  | TMain.

Definition thread_exec (l : ThreadLabel) : M Threaded unit :=
  match l with
  | TService name l => on_server (on_service name (λ _, exec l))
  | TCqReturn i => modify (upd_cq_returned (insert i true))
  | TNotice q => modify (upd_ev_pc (insert q EvDraining))
  | TEvReturn q => modify (upd_ev_pc (insert q EvReturned))
  | TMain => Shutdown_step
  end.

(** A tag that [Next] of the completion queue [i] still has to return.  The
    tag of [AsyncNotifyWhenDone] is not returned for a call that never
    started. *)
Definition deliverable (w : World) (i : nat) (tag : RpcPtr * Event.t) : bool :=
  match heap_ w !! tag.1 with
  | Some (_, x) =>
      Nat.eqb (server_completion_queue_ x) i &&
      negb (bool_decide (tag.2 = DONE) && negb (bool_decide (tag.1 ∈ started w)))
  | None => false
  end.

Definition every_service (s : Server) (f : World → bool) : bool :=
  forallb (λ e, f (service_state_ e.2)) (map_entries (services_ s)).

Definition completion_queue_drained (i : nat) (w : World) : bool :=
  forallb (λ tag, negb (deliverable w i tag)) (inflight w).

Definition event_queue_empty (q : nat) (w : World) : bool :=
  match event_queues w !! q with Some bq => QueueEmptyCondition bq | None => true end.

(** Whether the thread that takes the step [l] of a service still runs. *)
Definition runs (t : Threaded) (w : World) (l : Label) : bool :=
  match l with
  | LCompletion r _ _ _ =>
      match heap_ w !! r with
      | Some (_, x) => bool_decide (cq_returned t !! server_completion_queue_ x = Some false)
      | None => false
      end
  | LEvent q =>
      bool_decide (ev_pc t !! q = Some EvServing) || bool_decide (ev_pc t !! q = Some EvDraining)
  | LWriterBegin _ _ | LWriterStep _ => true
  | LStopServing | LOtherSelects | LOtherContext _ => false
  end.

Definition thread_ok (t : Threaded) (l : ThreadLabel) : Prop :=
  let s := the_server t in
  match l with
  | TService name l => ∃ v, services_ s !! name = Some v ∧
      runs t (service_state_ v) l = true ∧ env_ok (service_view s v) l
  | TCqReturn i => cq_shut t !! i = Some true ∧ cq_returned t !! i = Some false ∧
      every_service s (completion_queue_drained i) = true
  | TNotice q => ev_pc t !! q = Some EvServing ∧ server_shutting_down_ s = true
  | TEvReturn q => ev_pc t !! q = Some EvDraining ∧ every_service s (event_queue_empty q) = true
  | TMain => main_pc t ≠ MReturned
  end.

Inductive thread_step (t : Threaded) (l : ThreadLabel) (t' : Threaded) : Prop :=
  | thread_step_intro : thread_ok t l → thread_exec l t = Ok tt t' → thread_step t l t'.

(** Steps of calm runs of the services, which start no operation on a
    completion queue that was shut down. *)
Definition calm_thread (t : Threaded) (l : ThreadLabel) (t' : Threaded) : Prop :=
  match l with
  | TService name l => ∀ v v',
      services_ (the_server t) !! name = Some v → services_ (the_server t') !! name = Some v' →
      conn_ok (service_view (the_server t) v) l ∧
      no_race (service_view (the_server t) v) (service_state_ v') ∧
      ∀ i, cq_shut t !! i = Some true →
        spares i (service_view (the_server t) v) (service_state_ v')
  | _ => True
  end.

(** No event queue thread gives up while a completion queue thread runs. *)
Definition patient (t : Threaded) (l : ThreadLabel) : Prop :=
  match l with TEvReturn _ => Forall (eq true) (cq_returned t) | _ => True end.

Inductive threads_run (waits : bool) (s0 : Server) : Threaded → Prop :=
  | threads_start s : Start s0 = Ok tt s → threads_run waits s0 (threads_started s)
  | threads_more t l t' :
      threads_run waits s0 t → thread_step t l t' → calm_thread t l t' →
      (waits = true → patient t l) → threads_run waits s0 t'.

(** ** The destructor *)

(** Destroying a joinable [std::thread] calls [std::terminate]. *)
Definition Thread_destroy (t : ThreadState) : failure + ThreadState :=
  match t with Running => inl Terminate | NotStarted | Joined => inr t end.

(** [~Server]: the members in the reverse order of their declaration, first
    [services_], then the threads. *)
Definition Server_destroy : M Server unit :=
  s ← get;
  for_each (map_entries (services_ s)) (λ e,
    match ActiveRpcs_destroy (service_state_ e.2) with Ok _ _ => mret tt | Fail f => fail f end) ;;
  lift_threads (for_threads Thread_destroy (event_queue_threads_ s)) ;;
  lift_threads (for_threads Thread_destroy (completion_queue_threads_ s)) ;;
  mret tt.

(** ** The invariant *)

(** How many threads [Shutdown] has joined, and which services it has yet to
    stop. *)
Definition cq_joined (t : Threaded) : nat :=
  match main_pc t with
  | MCqShutdown i | MCqJoin i => i
  | MEvJoin _ | MReturned => length (completion_queue_threads_ (the_server t))
  | _ => 0
  end.

Definition ev_joined (t : Threaded) : nat :=
  match main_pc t with
  | MEvJoin i => i
  | MReturned => length (event_queue_threads_ (the_server t))
  | _ => 0
  end.

Definition to_stop (pc : MainPc) (name : string) : Prop :=
  match pc with MStart => True | MStop names => name ∈ names | _ => False end.

Definition joined_upto (i n : nat) : list ThreadState :=
  replicate i Joined ++ replicate (n - i) Running.

Record service_inv (waits : bool) (t : Threaded) (v : ServiceObject) : Prop := {
  sv_serving : serving (the_server t) v;
  sv_drained : ∀ i, cq_returned t !! i = Some true → drained i (service_state_ v);
  sv_no_tags : waits = true → ∀ q, ev_pc t !! q = Some EvReturned → no_tags q (service_state_ v)
}.

Record threads_inv (waits : bool) (t : Threaded) : Prop := {
  ti_sel : selecting (the_server t);
  ti_server : server_ (the_server t) = true;
  ti_flag : server_shutting_down_ (the_server t) = bool_decide (main_pc t ≠ MStart);
  ti_cq_len : length (cq_returned t) = length (completion_queue_threads_ (the_server t)) ∧
    length (cq_shut t) = length (completion_queue_threads_ (the_server t));
  ti_ev_len : length (ev_pc t) = length (event_queue_threads_ (the_server t));
  ti_cq_le : cq_joined t ≤ length (completion_queue_threads_ (the_server t));
  ti_ev_le : ev_joined t ≤ length (event_queue_threads_ (the_server t));
  ti_cqt : completion_queue_threads_ (the_server t) =
    joined_upto (cq_joined t) (length (completion_queue_threads_ (the_server t)));
  ti_eqt : event_queue_threads_ (the_server t) =
    joined_upto (ev_joined t) (length (event_queue_threads_ (the_server t)));
  ti_cq_joined : ∀ j, j < cq_joined t → cq_returned t !! j = Some true;
  ti_ev_joined : ∀ j, j < ev_joined t → ev_pc t !! j = Some EvReturned;
  ti_shut : ∀ i, cq_returned t !! i = Some true → cq_shut t !! i = Some true;
  ti_patient : waits = true → ∀ q, ev_pc t !! q = Some EvReturned → Forall (eq true) (cq_returned t);
  ti_services : ∀ name v, services_ (the_server t) !! name = Some v → service_inv waits t v;
  ti_stopped : ∀ name v, services_ (the_server t) !! name = Some v →
    ¬ to_stop (main_pc t) name → shutting_down_ (service_state_ v) = true
}.

Lemma joined_upto_0 n : joined_upto 0 n = replicate n Running.
Proof. unfold joined_upto. by rewrite Nat.sub_0_r. Qed.

Lemma joined_upto_all n : joined_upto n n = replicate n Joined.
Proof. unfold joined_upto. by rewrite Nat.sub_diag, app_nil_r. Qed.

Lemma joined_upto_next i n : i < n → joined_upto i n !! i = Some Running.
Proof.
  intros Hi. unfold joined_upto. rewrite lookup_app_r; rewrite length_replicate; [|lia].
  rewrite Nat.sub_diag. apply lookup_replicate_2. lia.
Qed.

Lemma joined_upto_insert i n : i < n → <[i := Joined]> (joined_upto i n) = joined_upto (S i) n.
Proof.
  intros Hi. unfold joined_upto.
  replace (n - i) with (S (n - S i)) by lia. simpl.
  rewrite (insert_app_r_alt (replicate i Joined)) by (rewrite length_replicate; lia).
  rewrite length_replicate, Nat.sub_diag. simpl.
  change (Joined :: replicate (n - S i) Running) with ([Joined] ++ replicate (n - S i) Running).
  rewrite app_assoc. f_equal. by rewrite <- replicate_S_end.
Qed.

Lemma length_joined_upto i n : i ≤ n → length (joined_upto i n) = n.
Proof. intros Hi. unfold joined_upto. rewrite length_app, !length_replicate. lia. Qed.

(** ** The start *)

Lemma threads_started_inv waits s : in_phase Started s → threads_inv waits (threads_started s).
Proof.
  intros [Hsel Hs Hd Hc He Hv].
  assert (∀ (l : list ThreadState), Forall (eq Running) l → l = joined_upto 0 (length l)) as Hr.
  { intros l Hl. rewrite joined_upto_0. symmetry. by apply replicate_as_Forall. }
  assert (∀ n i, replicate n false !! i = Some true → False) as Hf.
  { intros n i [? _]%lookup_replicate. done. }
  assert (∀ n i, replicate n EvServing !! i = Some EvReturned → False) as Hg.
  { intros n i [? _]%lookup_replicate. done. }
  split; simpl; rewrite ?length_replicate; unfold cq_joined, ev_joined; simpl;
    try done; try lia; try (by apply Hr); try (by intros i Hi%Hf); try (by intros _ q Hq%Hg).
  - intros name v Hn. destruct (Hv _ _ Hn) as [Hser _]. split; simpl; [done|..].
    + by intros i Hi%Hf.
    + by intros _ q Hq%Hg.
Qed.


(** ** Steps of a service *)

Lemma serving_same s s' v : same_server s s' → serving s v → serving s' v.
Proof. intros (_ & _ & _ & Ec & Ee & _). unfold serving, completion_queues. by rewrite Ec, Ee. Qed.

Lemma serving_inv s v : serving s v → inv (length (event_queue_threads_ s)) (service_state_ v).
Proof. intros (st & c & Hst & Hrun). by eapply calm_inv. Qed.

(** A server whose services changed, with [name] the only one. *)
Lemma threads_inv_service waits t s' name v' :
  threads_inv waits t → same_server (the_server t) s' → selecting s' →
  services_ s' = <[name := v']> (services_ (the_server t)) →
  service_inv waits (set_the_server s' t) v' →
  (¬ to_stop (main_pc t) name → shutting_down_ (service_state_ v') = true) →
  threads_inv waits (set_the_server s' t).
Proof.
  intros [] Hsame Hsel Es Hv' Hd. pose proof Hsame as (E1 & E2 & E3 & E4 & E5 & _).
  split; unfold cq_joined, ev_joined in *; simpl; rewrite ?E2, ?E3, ?E4, ?E5; try done.
  - intros name' u. rewrite Es. intros [[<- <-]|[_ Hu]]%lookup_insert_Some; [done|].
    destruct (ti_services0 _ _ Hu). split; simpl; try done. by eapply serving_same.
  - intros name' u. rewrite Es. intros [[<- <-]|[_ Hu]]%lookup_insert_Some; [done|].
    by apply (ti_stopped0 _ _ Hu).
Qed.

Lemma step_service_inv waits t name l t' :
  threads_inv waits t → thread_step t (TService name l) t' → calm_thread t (TService name l) t' →
  threads_inv waits t'.
Proof.
  intros Hi [(v & Hv & Hruns & Henv) Hx] Hcalm. simpl in Hx. unfold on_server in Hx.
  destruct (on_service name (λ _, exec l) (the_server t)) as [[] s'|] eqn:Hon; [|done].
  injection Hx as <-. destruct (ti_services _ _ Hi _ _ Hv) as [Hser Hdr Hnt].
  assert (∃ v', services_ s' !! name = Some v') as [v' Hv'].
  { unfold on_service in Hon. rewrite Hv in Hon. destruct (exec l _) as [[] w|]; [|done].
    injection Hon as <-. simpl. rewrite lookup_insert_eq. eauto. }
  destruct (Hcalm v v' Hv Hv') as (Hok & Hrace & Hsp).
  assert (shared_label l = false) as Hsh by (by destruct l).
  destruct (exec_serving _ _ _ _ _ _ (ti_sel _ _ Hi) Hser Hv Hsh Henv Hok Hon Hv' Hrace)
    as (Hsame & Hsel & Es & Hser' & Hd & Hstep).
  destruct (serving_view _ _ (ti_sel _ _ Hi) Hser) as (st & c & Hst & Hrun).
  pose proof (calm_inv _ _ _ _ _ _ Hst Hrun) as Hinv.
  assert (inv (length (event_queue_threads_ (the_server t))) (service_state_ v')) as Hinv'.
  { pose proof Hsame as (_ & _ & _ & _ & E5 & _). rewrite <- E5. by apply serving_inv. }
  eapply (threads_inv_service waits t s' name v' Hi Hsame Hsel Es).
  - split; simpl; [done|..].
    + intros i Hri. eapply (drained_step (length (event_queue_threads_ (the_server t)))
        i (service_view (the_server t) v) l); try done.
      * exact (Hdr i Hri).
      * apply Hsp. by apply (ti_shut _ _ Hi).
      * intros r e b payload n x -> Hxr Hc. simpl in Hruns. simpl in Hxr. rewrite Hxr in Hruns.
        apply bool_decide_eq_true in Hruns. congruence.
    + intros Hw q Hq. destruct Hstep as [_ Hexec].
      eapply (exec_fewer (length (event_queue_threads_ (the_server t)))
        (service_view (the_server t) v) l); try done; [|exact (Hnt Hw q Hq)].
      intros r e b payload ->. simpl in Hruns.
      destruct (heap_ (service_state_ v) !! r) as [[n x]|]; [|done].
      apply bool_decide_eq_true in Hruns. pose proof (ti_patient _ _ Hi Hw q Hq) as Hall.
      apply (Forall_lookup_1 _ _ _ _ Hall) in Hruns. done.
  - rewrite Hd. intros Hn. by apply (ti_stopped _ _ Hi name).
Qed.

(** ** Steps of the threads *)

(** What the guards of [TCqReturn] and [TEvReturn] say of each service. *)
Lemma every_service_lookup s f name v :
  every_service s f = true → services_ s !! name = Some v → f (service_state_ v) = true.
Proof.
  unfold every_service. rewrite forallb_forall. intros Hall Hv.
  apply (Hall (name, v)). apply list_elem_of_In. rewrite map_entries_perm.
  by apply elem_of_map_to_list.
Qed.

Lemma drained_sound n infos cqs st c i w :
  selector_in_range n st → calm_run n infos cqs st c w →
  completion_queue_drained i w = true → drained i w.
Proof.
  intros Hst Hrun Hd r k x e Hx Hc Hin. unfold completion_queue_drained in Hd.
  rewrite forallb_forall in Hd. specialize (Hd (r, e)). rewrite <- list_elem_of_In in Hd.
  specialize (Hd Hin). unfold deliverable in Hd. simpl in Hd. rewrite Hx in Hd.
  apply Nat.eqb_eq in Hc. rewrite Hc in Hd. simpl in Hd. rewrite negb_involutive in Hd.
  apply andb_true_iff in Hd as [He%bool_decide_eq_true Hs%negb_true_iff%bool_decide_eq_false].
  split; [done|]. assert (tracked cqs w) as T by (eapply calm_tracked; [exact Hst|exact Hrun]).
  by apply (T r k x Hx).
Qed.

Lemma event_queue_empty_sound q w : event_queue_empty q w = true → no_tags q w.
Proof.
  unfold event_queue_empty, QueueEmptyCondition. intros He bq Hq. rewrite Hq in He. unfold tags.
  by destruct (deque_ bq).
Qed.

(** Steps that change only where the threads are. *)
Lemma step_cq_return_inv waits t i t' :
  threads_inv waits t → thread_step t (TCqReturn i) t' → threads_inv waits t'.
Proof.
  intros Hi [(Hsh & Hret & Hall) [= <-]]. pose proof (lookup_lt_Some _ _ _ Hret) as Hlt.
  assert (∀ j, j ≠ i → <[i := true]> (cq_returned t) !! j = cq_returned t !! j) as Hne
    by (intros j ?; by apply list_lookup_insert_ne).
  pose proof Hi as []. split; unfold cq_joined, ev_joined in *; simpl; try done.
  - by rewrite length_insert.
  - intros j Hj. destruct (decide (j = i)) as [->|?]; [by apply list_lookup_insert_eq|].
    rewrite Hne by done. auto.
  - intros j. destruct (decide (j = i)) as [->|?]; [done|]. rewrite Hne by done. auto.
  - intros Hw q Hq. specialize (ti_patient0 Hw q Hq).
    by apply (Forall_lookup_1 _ _ _ _ ti_patient0) in Hret.
  - intros name v Hv. destruct (ti_services0 _ _ Hv) as [(st & c & Hst & Hrun) Hdr Hnt].
    split; simpl; [by exists st, c| |done]. intros j.
    destruct (decide (j = i)) as [->|?]; [intros _|rewrite Hne by done; auto].
    eapply drained_sound; [exact Hst|exact Hrun|]. by eapply every_service_lookup.
Qed.

Lemma step_notice_inv waits t q t' :
  threads_inv waits t → thread_step t (TNotice q) t' → threads_inv waits t'.
Proof.
  intros Hi [(Hpc & Hflag) [= <-]]. pose proof (lookup_lt_Some _ _ _ Hpc) as Hlt.
  assert (∀ j, <[q := EvDraining]> (ev_pc t) !! j = Some EvReturned ↔ ev_pc t !! j = Some EvReturned)
    as He.
  { intros j. destruct (decide (j = q)) as [->|?]; [|by rewrite list_lookup_insert_ne].
    rewrite list_lookup_insert_eq by done. rewrite Hpc. done. }
  pose proof Hi as []. split; unfold cq_joined, ev_joined in *; simpl; try done.
  - by rewrite length_insert.
  - intros j Hj. apply He. auto.
  - intros Hw j Hj%He. eauto.
  - intros name v Hv. destruct (ti_services0 _ _ Hv) as [Hser Hdr Hnt].
    split; simpl; [done|done|]. intros Hw j Hj%He. auto.
Qed.

Lemma step_ev_return_inv waits t q t' :
  threads_inv waits t → thread_step t (TEvReturn q) t' →
  (waits = true → patient t (TEvReturn q)) → threads_inv waits t'.
Proof.
  intros Hi [(Hpc & Hall) [= <-]] Hpat. pose proof (lookup_lt_Some _ _ _ Hpc) as Hlt.
  assert (∀ j, <[q := EvReturned]> (ev_pc t) !! j = Some EvReturned ↔
    j = q ∨ ev_pc t !! j = Some EvReturned) as He.
  { intros j. destruct (decide (j = q)) as [->|?]; [|rewrite list_lookup_insert_ne by done; tauto].
    rewrite list_lookup_insert_eq by done. tauto. }
  pose proof Hi as []. split; unfold cq_joined, ev_joined in *; simpl; try done.
  - by rewrite length_insert.
  - intros j Hj. apply He. auto.
  - intros Hw j Hj%He. by apply Hpat.
  - intros name v Hv. destruct (ti_services0 _ _ Hv) as [Hser Hdr Hnt].
    split; simpl; [done|done|]. intros Hw j [->|Hj]%He; [|auto].
    apply event_queue_empty_sound. by eapply every_service_lookup.
Qed.

(** ** Steps of [Shutdown] *)

Lemma step_stop_inv waits t name names t' :
  threads_inv waits t → main_pc t = MStop (name :: names) → thread_exec TMain t = Ok tt t' →
  threads_inv waits t'.
Proof.
  intros Hi Hpc Hx. simpl in Hx. unfold Shutdown_step, mbind, M_bind, get in Hx. rewrite Hpc in Hx.
  unfold on_server in Hx.
  destruct (on_service name (λ _, StopServing) (the_server t)) as [[] s'|] eqn:Hon; [|done].
  injection Hx as <-. pose proof (preserves_Ok _ _ _ _ _ (on_service_same name _) Hon) as Hsame.
  unfold on_service in Hon. destruct (services_ (the_server t) !! name) as [v|] eqn:Hv; [|done].
  destruct (ti_services _ _ Hi _ _ Hv) as [Hser Hdr Hnt].
  destruct (serving_view _ _ (ti_sel _ _ Hi) Hser) as (st & c & Hst & Hrun).
  injection Hon as <-. set (s' := mkServer _ _ _ _ _ _ _ _ _) in *.
  set (v' := mkServiceObject _ _) in s'.
  assert (serving s' v') as Hser'.
  { exists st, c. split; [done|].
    by eapply (calm_step _ _ _ _ _ _ LStopServing); [exact Hrun|by split|done|by intros u]. }
  assert (threads_inv waits (set_the_server s' t)) as Hi'.
  { by eapply (threads_inv_service waits t s' name v' Hi Hsame); [exact (ti_sel _ _ Hi)|..]. }
  pose proof Hi' as []. split; unfold cq_joined, ev_joined in *; simpl in *; rewrite ?Hpc in *; try done.
  - intros name' u Hu. destruct (ti_services0 _ _ Hu). by split.
  - intros name' u Hu Hn. destruct (decide (name' = name)) as [->|Hne].
    + rewrite lookup_insert_eq in Hu. by injection Hu as <-.
    + apply (ti_stopped0 _ _ Hu). simpl. rewrite elem_of_cons. naive_solver.
Qed.

(** A step of [Shutdown] that only moves on. *)
Lemma threads_inv_main waits t pc :
  threads_inv waits t → main_pc t ≠ MStart → pc ≠ MStart →
  cq_joined (set_main pc t) = cq_joined t → ev_joined (set_main pc t) = ev_joined t →
  (∀ name, ¬ to_stop pc name → ¬ to_stop (main_pc t) name) → threads_inv waits (set_main pc t).
Proof.
  intros Hi Hne Hne' Ec Ee Hs. pose proof Hi as []. split; rewrite ?Ec, ?Ee; simpl; try done.
  - rewrite ti_flag0. by rewrite !bool_decide_eq_true_2.
  - intros name v Hv. destruct (ti_services0 _ _ Hv). by split.
  - intros name v Hv Hn. apply (ti_stopped0 _ _ Hv). by apply Hs.
Qed.

Lemma step_flag_inv waits t t' :
  threads_inv waits t → main_pc t = MStart → thread_exec TMain t = Ok tt t' → threads_inv waits t'.
Proof.
  intros Hi Hpc Hx. simpl in Hx. unfold Shutdown_step, mbind, M_bind, get in Hx. rewrite Hpc in Hx.
  injection Hx as <-. pose proof Hi as [].
  split; unfold cq_joined, ev_joined in *; simpl; rewrite ?Hpc in *; try done.
  - intros name v Hv. destruct (ti_services0 _ _ Hv). by split.
  - intros name v Hv Hn. destruct Hn. apply map_entries_names. eauto.
Qed.

Lemma step_shut_inv waits t i :
  threads_inv waits t → main_pc t = MCqShutdown i →
  threads_inv waits (set_main (MCqJoin i) (upd_cq_shut (insert i true) t)).
Proof.
  intros Hi Hpc. pose proof Hi as [].
  split; unfold cq_joined, ev_joined in *; simpl; rewrite ?Hpc in *; try done.
  - by rewrite length_insert.
  - intros j Hj%ti_shut0. destruct (decide (j = i)) as [->|?].
    + apply list_lookup_insert_eq. by eapply lookup_lt_Some.
    + by rewrite list_lookup_insert_ne.
  - intros name v Hv. destruct (ti_services0 _ _ Hv). by split.
Qed.

(** The state after a join. *)
Definition with_threads (cqt eqt : list ThreadState) (t : Threaded) : Threaded :=
  set_the_server (set_threads cqt eqt (the_server t)) t.

Lemma service_inv_threads waits t cqt eqt pc v :
  length cqt = length (completion_queue_threads_ (the_server t)) →
  length eqt = length (event_queue_threads_ (the_server t)) →
  service_inv waits t v → service_inv waits (set_main pc (with_threads cqt eqt t)) v.
Proof.
  intros Hc He [Hser Hdr Hnt]. split; simpl; try done. unfold serving, completion_queues in *. simpl.
  by rewrite Hc, He.
Qed.

Lemma step_cq_join_inv waits t i t' :
  threads_inv waits t → main_pc t = MCqJoin i → thread_exec TMain t = Ok tt t' → threads_inv waits t'.
Proof.
  intros Hi Hpc Hx. simpl in Hx. unfold Shutdown_step, join_completion_queue_thread, lookup_or_throw,
    on_server, lift_threads, mbind, M_bind, get, mret, M_ret in Hx. rewrite Hpc in Hx.
  destruct (cq_returned t !! i) as [b|] eqn:Hb; [|done].
  set (cqt := completion_queue_threads_ (the_server t)) in *.
  assert (i < length cqt) as Hlt.
  { unfold cqt. rewrite <- (proj1 (ti_cq_len _ _ Hi)). by eapply lookup_lt_Some. }
  pose proof (ti_cqt _ _ Hi) as Ec. fold cqt in Ec. unfold cq_joined in Ec. rewrite Hpc in Ec.
  assert (cqt !! i = Some Running) as Hth by (rewrite Ec; by apply joined_upto_next).
  rewrite Hth in Hx. destruct b; [|done]. injection Hx as <-.
  assert (<[i := Joined]> cqt = joined_upto (S i) (length cqt)) as En
    by (rewrite Ec at 1; by apply joined_upto_insert).
  subst cqt. pose proof Hi as [].
  split; unfold cq_joined, ev_joined in *; simpl in *; rewrite ?Hpc, ?length_insert in *; try done.
  - intros j Hj. destruct (decide (j = i)) as [->|?]; [done|]. apply ti_cq_joined0. lia.
  - intros name v Hv. apply service_inv_threads; [by rewrite length_insert|done|].
    exact (ti_services0 _ _ Hv).
Qed.

Lemma step_ev_join_inv waits t i t' :
  threads_inv waits t → main_pc t = MEvJoin i → i < length (event_queue_threads_ (the_server t)) →
  (join_event_queue_thread i ;; modify (set_main (MEvJoin (S i)))) t = Ok tt t' →
  threads_inv waits t'.
Proof.
  intros Hi Hpc Hlt Hx. unfold join_event_queue_thread, lookup_or_throw,
    on_server, lift_threads, mbind, M_bind, get, mret, M_ret in Hx.
  destruct (ev_pc t !! i) as [pc|] eqn:Hb; [|done].
  set (eqt := event_queue_threads_ (the_server t)) in *.
  pose proof (ti_eqt _ _ Hi) as Ec. fold eqt in Ec. unfold ev_joined in Ec. rewrite Hpc in Ec.
  assert (eqt !! i = Some Running) as Hth by (rewrite Ec; by apply joined_upto_next).
  rewrite Hth in Hx. simpl in Hx. destruct (bool_decide (pc = EvReturned)) eqn:Hr; [|done].
  apply bool_decide_eq_true in Hr as ->. injection Hx as <-.
  assert (<[i := Joined]> eqt = joined_upto (S i) (length eqt)) as En
    by (rewrite Ec at 1; by apply joined_upto_insert).
  subst eqt. pose proof Hi as [].
  split; unfold cq_joined, ev_joined, selecting in *; simpl in *; rewrite ?Hpc, ?length_insert in *; try done.
  - intros j Hj. destruct (decide (j = i)) as [->|?]; [done|]. apply ti_ev_joined0. lia.
  - intros name v Hv. apply service_inv_threads; [done|by rewrite length_insert|].
    exact (ti_services0 _ _ Hv).
Qed.

Lemma step_main_inv waits t t' :
  threads_inv waits t → thread_exec TMain t = Ok tt t' → threads_inv waits t'.
Proof.
  intros Hi Hx. destruct (main_pc t) as [|[|name names]| |i|i|i|] eqn:Hpc;
    [by eapply step_flag_inv| |by eapply step_stop_inv| | |by eapply step_cq_join_inv| |];
    simpl in Hx; unfold Shutdown_step, mbind, M_bind, get in Hx; rewrite Hpc in Hx.
  - injection Hx as <-. apply threads_inv_main; unfold cq_joined, ev_joined; simpl;
      rewrite ?Hpc; try done. simpl. intros name _. apply not_elem_of_nil.
  - rewrite (ti_server _ _ Hi) in Hx. injection Hx as <-.
    apply threads_inv_main; unfold cq_joined, ev_joined; simpl; by rewrite ?Hpc.
  - destruct (decide _) as [Hlt|Hge]; injection Hx as <-; [by apply step_shut_inv|].
    pose proof (ti_cq_le _ _ Hi) as Hle. unfold cq_joined in Hle. rewrite Hpc in Hle.
    apply threads_inv_main; unfold cq_joined, ev_joined; simpl; rewrite ?Hpc; try done. lia.
  - destruct (decide _) as [Hlt|Hge]; [by eapply step_ev_join_inv|]. injection Hx as <-.
    pose proof (ti_ev_le _ _ Hi) as Hle. unfold ev_joined in Hle. rewrite Hpc in Hle.
    apply threads_inv_main; unfold cq_joined, ev_joined; simpl; rewrite ?Hpc; try done. lia.
  - by injection Hx as <-.
Qed.

Lemma threads_run_inv waits s0 t :
  in_phase Fresh s0 → threads_run waits s0 t → threads_inv waits t.
Proof.
  intros Hf. induction 1 as [s Hs|t l t' Hrun IH Hstep Hcalm Hpat].
  - pose proof (Start_fresh s0 Hf) as Hw. unfold wp in Hw. rewrite Hs in Hw.
    apply threads_started_inv. by destruct Hw.
  - destruct l as [name l|i|q|q|].
    + by eapply step_service_inv.
    + by eapply step_cq_return_inv.
    + by eapply step_notice_inv.
    + by eapply step_ev_return_inv.
    + destruct Hstep as [_ Hx]. by eapply step_main_inv.
Qed.

(** ** What a shutdown leaves behind *)

Lemma returned_stopped waits t :
  threads_inv waits t → main_pc t = MReturned → in_phase Stopped (the_server t).
Proof.
  intros [] Hpc. unfold cq_joined, ev_joined in *. rewrite Hpc in *.
  rewrite joined_upto_all in ti_cqt0, ti_eqt0. split; try done.
  - rewrite ti_cqt0. by apply Forall_replicate.
  - rewrite ti_eqt0. by apply Forall_replicate.
  - intros name v Hv. destruct (ti_services0 _ _ Hv) as [Hser _ _]. split; [done|].
    apply (ti_stopped0 _ _ Hv). auto.
Qed.

Lemma for_each_services_ok {B} (l : list B) (f : B → M Server unit) s :
  (∀ b, b ∈ l → f b s = Ok tt s) → for_each l f s = Ok tt s.
Proof.
  induction l as [|b l IH]; intros Hf; [done|]. simpl. unfold mbind, M_bind.
  rewrite Hf by left. apply IH. intros b' Hb. apply Hf. by right.
Qed.

Lemma destroy_threads_ok (l : list ThreadState) t :
  Forall (eq t) l → t ≠ Running → for_threads Thread_destroy l = inr (replicate (length l) t).
Proof. intros Hl Ht. apply (for_threads_ok _ _ t); [done|]. by destruct t. Qed.

(** The destructor, when every service is idle and no thread is joinable. *)
Lemma Server_destroy_ok p s :
  in_phase p s → p ≠ Started →
  (∀ name v, services_ s !! name = Some v → rpcs_ (service_state_ v) = ∅) →
  Server_destroy s = Ok tt s.
Proof.
  intros Hp Hne Hv. unfold Server_destroy. unfold mbind, M_bind, get.
  rewrite for_each_services_ok.
  - rewrite (destroy_threads_ok _ _ (ph_eq _ _ Hp)), (destroy_threads_ok _ _ (ph_cq _ _ Hp))
      by (by destruct p). done.
  - intros [name v] Hin. rewrite map_entries_perm in Hin. apply elem_of_map_to_list in Hin.
    unfold ActiveRpcs_destroy, mbind, M_bind, get. simpl.
    by rewrite decide_True by (by eapply Hv).
Qed.

(** After [Shutdown], a service without completions in its queues is idle. *)
Lemma returned_idle waits t name v :
  threads_inv waits t → main_pc t = MReturned → services_ (the_server t) !! name = Some v →
  (∀ q, q < length (event_queue_threads_ (the_server t)) → no_tags q (service_state_ v)) →
  rpcs_ (service_state_ v) = ∅.
Proof.
  intros Hi Hpc Hv Hq. destruct (ti_services _ _ Hi _ _ Hv) as [(st & c & Hst & Hrun) Hdr _].
  eapply (idle_service (length (event_queue_threads_ (the_server t)))); [exact Hst|exact Hrun| |done].
  intros i Hin. apply Hdr, (ti_cq_joined _ _ Hi). unfold completion_queues in Hin.
  apply elem_of_seq in Hin. unfold cq_joined. rewrite Hpc. lia.
Qed.

Lemma patient_no_tags t name v q :
  threads_inv true t → main_pc t = MReturned → services_ (the_server t) !! name = Some v →
  q < length (event_queue_threads_ (the_server t)) → no_tags q (service_state_ v).
Proof.
  intros Hi Hpc Hv Hq. apply (sv_no_tags _ _ _ (ti_services _ _ Hi _ _ Hv)); [done|].
  apply (ti_ev_joined _ _ Hi). unfold ev_joined. by rewrite Hpc.
Qed.

(** The completions left in the event queues of a server. *)
Definition left_over (s : Server) : Prop :=
  ∃ name v q bq, services_ s !! name = Some v ∧
    event_queues (service_state_ v) !! q = Some bq ∧ tags bq ≠ [].

Lemma idle_or_left waits t :
  threads_inv waits t → main_pc t = MReturned →
  (∀ name v, services_ (the_server t) !! name = Some v → rpcs_ (service_state_ v) = ∅) ∨
  (left_over (the_server t) ∧ waits = false).
Proof.
  intros Hi Hpc. set (s := the_server t).
  set (full := λ e : string * ServiceObject,
    Exists (λ bq, tags bq ≠ []) (event_queues (service_state_ e.2))).
  destruct (decide (Exists full (map_entries (services_ s)))) as [Hex|Hno].
  - right. apply Exists_exists in Hex as ([name v] & Hin & (bq & Hb & Ht)%Exists_exists).
    rewrite map_entries_perm in Hin. apply elem_of_map_to_list in Hin.
    apply list_elem_of_lookup in Hb as [q Hq]. split; [by exists name, v, q, bq|].
    destruct waits; [exfalso|done]. apply Ht.
    apply (patient_no_tags t name v q Hi Hpc Hin); [|done].
    destruct (serving_inv _ _ (sv_serving _ _ _ (ti_services _ _ Hi _ _ Hin))) as (C & _).
    rewrite <- (c_len _ _ _ C). by eapply lookup_lt_Some.
  - left. intros name v Hv. apply (returned_idle waits t name v Hi Hpc Hv). intros q _ bq Hq.
    destruct (tags bq) eqn:E; [done|]. destruct Hno. apply Exists_exists. exists (name, v).
    split; [rewrite map_entries_perm; by apply elem_of_map_to_list|].
    apply Exists_exists. exists bq. split; [by eapply list_elem_of_lookup_2|]. by rewrite E.
Qed.

Lemma left_over_active s :
  (∀ name v, services_ s !! name = Some v → serving s v) → left_over s →
  ∃ name v, services_ s !! name = Some v ∧ rpcs_ (service_state_ v) ≠ ∅.
Proof.
  intros Hser (name & v & q & bq & Hv & Hq & Ht). exists name, v. split; [done|].
  destruct (serving_inv s v (Hser _ _ Hv)) as (C & _).
  destruct (tags bq) as [|[r e] l] eqn:E; [done|].
  destruct (c_queued _ _ _ C r e q) as (n & x & Hx & _ & Hp & _).
  { exists bq. split; [done|]. rewrite E. left. }
  pose proof (c_alive _ _ _ C _ _ _ _ Hx Hp). set_solver.
Qed.

Lemma Server_destroy_fatal s name v :
  services_ s !! name = Some v → rpcs_ (service_state_ v) ≠ ∅ →
  Server_destroy s = Fail (LogFatal "RPCs still in flight!").
Proof.
  intros Hv Hr. unfold Server_destroy. unfold mbind at 1, M_bind at 1, get. unfold mbind at 1, M_bind at 1.
  assert ((name, v) ∈ map_entries (services_ s)) as Hin
    by (rewrite map_entries_perm; by apply elem_of_map_to_list).
  revert Hin. generalize (map_entries (services_ s)) as l.
  intros l Hin. enough (∀ s1, for_each l (λ e : string * ServiceObject,
    match ActiveRpcs_destroy (service_state_ e.2) with Ok _ _ => mret tt | Fail f => fail f end) s1
      = Fail (LogFatal "RPCs still in flight!")) as -> by done.
  induction l as [|[name' v'] l IH]; intros s1; [by apply elem_of_nil in Hin|].
  simpl. unfold mbind at 1, M_bind. unfold ActiveRpcs_destroy, mbind at 1, M_bind, get. simpl.
  destruct (decide _) as [E|]; [|done]. apply IH. apply elem_of_cons in Hin as [[= <- <-]|?]; done.
Qed.

(** C18: the end of a shutdown.  However the threads of a server interleave
    with each other and with [Shutdown], event by event, in a run in which
    connections succeed exactly while their service is serving, no RPC is
    removed in the middle of a writer call, and no operation is started on a
    completion queue that was shut down (the code does not ensure the last,
    see [read_after_queue_shutdown]): once [Shutdown] has returned, every
    thread was joined and every service was told to stop; and the destructor
    of the server then returns exactly when no completion is left in an event
    queue, otherwise it aborts with RPCs in flight.  If moreover no event
    queue thread gives up before the completion queue threads have returned,
    it returns. *)
Theorem shutdown_exact waits s0 t :
  in_phase Fresh s0 → threads_run waits s0 t → main_pc t = MReturned →
  in_phase Stopped (the_server t) ∧
  match Server_destroy (the_server t) with
  | Ok _ s => s = the_server t ∧ ¬ left_over s
  | Fail f => f = LogFatal "RPCs still in flight!" ∧ left_over (the_server t) ∧ waits = false
  end.
Proof.
  intros Hf Hrun Hpc. pose proof (threads_run_inv waits s0 t Hf Hrun) as Hi.
  pose proof (returned_stopped waits t Hi Hpc) as Hp. split; [done|].
  destruct (idle_or_left waits t Hi Hpc) as [Hidle|[Hleft Hw]].
  - rewrite (Server_destroy_ok Stopped _ Hp) by done. split; [done|]. intros Hl.
    destruct (left_over_active (the_server t)) as (name & v & Hv & Hn); [|done|by eapply Hn, Hidle].
    intros name v Hv. apply (ti_services _ _ Hi _ _ Hv).
  - destruct (left_over_active (the_server t)) as (name & v & Hv & Hn); [|done|].
    { intros name v Hv. apply (ti_services _ _ Hi _ _ Hv). }
    by rewrite (Server_destroy_fatal _ name v).
Qed.

(** The destructor in every phase.  A server that was never started is
    destroyed without trouble.  One that is serving is not: either an RPC is
    in flight, or a thread is joinable. *)
Theorem server_destroy_phases p s :
  in_phase p s → p ≠ Stopped →
  match Server_destroy s with
  | Ok _ _ => p = Fresh
  | Fail f => p = Started ∧ (f = LogFatal "RPCs still in flight!" ∨ f = Terminate)
  end.
Proof.
  intros Hp Hne. destruct p; [|clear Hne|done].
  - rewrite (Server_destroy_ok Fresh s Hp); [done|done|]. intros name v Hv.
    pose proof (ph_services _ _ Hp _ _ Hv) as Hs. simpl in Hs. by rewrite Hs.
  - unfold Server_destroy. unfold mbind at 1, M_bind at 1, get. unfold mbind at 1, M_bind at 1.
    destruct (for_each _ _ s) as [[] s1|f] eqn:E.
    + unfold mbind, M_bind, lift_threads.
      rewrite (for_threads_fail _ _ Running Terminate); [by split; [|right]|exact (ph_eq _ _ Hp)| |done].
      by eapply phase_has_thread.
    + split; [done|]. left. revert E. generalize (map_entries (services_ s)) as l.
      induction l as [|[name v] l IH]; simpl; [done|]. unfold mbind at 1, M_bind.
      unfold ActiveRpcs_destroy, mbind at 1, M_bind, get. simpl.
      destruct (decide _); [exact IH|]. by intros [= <-].
Qed.

(** ** After the event queue threads have returned *)

(** No operation is started and no handler is called. *)
Definition mute (w w' : World) : Prop :=
  grpc_calls w' = grpc_calls w ∧ callbacks w' = callbacks w.

#[global] Instance mute_preorder : PreOrder mute.
Proof. split; [done|]. unfold mute. intros w1 w2 w3 [? ?] [? ?]. split; congruence. Qed.

Ltac mute_prim := repeat case_match; simplify_eq; done.

Lemma mu_deref p : preserves mute (deref p).
Proof. intros w. unfold wlp, deref. mute_prim. Qed.
Lemma mu_store p f : preserves mute (store p f).
Proof. intros w. unfold wlp, store. mute_prim. Qed.
Lemma mu_release p : preserves mute (release p).
Proof. intros w. unfold wlp, release. mute_prim. Qed.
Lemma mu_lock p : preserves mute (lock p).
Proof. intros w. unfold wlp, lock. mute_prim. Qed.
Lemma mu_push q p : preserves mute (push_event q p).
Proof. intros w. unfold wlp, push_event. mute_prim. Qed.
#[local] Hint Resolve mu_deref mu_store mu_release mu_lock mu_push : preserves.
#[local] Hint Extern 1 (preserves mute (modify _)) =>
  apply preserves_modify; intros ?; repeat case_match; split; reflexivity : preserves.

(** Steps of threads other than the event queue threads. *)
Lemma mute_exec l w w' :
  (∀ q, l ≠ LEvent q) → shared_label l = false → exec l w = Ok tt w' → mute w w'.
Proof.
  intros Hl Hsh Hx. destruct l as [r e b payload|q|r op|i| | |c]; try done.
  - refine (preserves_Ok mute _ _ _ _ _ Hx). simpl.
    unfold grpc_completes, RunCompletionQueue_body, PushToEventQueue, GetRpcEvent. preserves_tac.
  - by destruct (Hl q).
  - refine (preserves_Ok mute _ _ _ _ _ Hx). simpl. unfold Writer_begin. preserves_tac.
  - refine (preserves_Ok mute _ _ _ _ _ Hx). simpl.
    unfold Writer_step, EnqueueMessage, ActiveRpcs_GetWeakPtr, push_write_needed, set_pc, log_span,
      log_written.
    preserves_tac.
Qed.

Definition mute_server (s s' : Server) : Prop :=
  ∀ name v', services_ s' !! name = Some v' →
    ∃ v, services_ s !! name = Some v ∧ mute (service_state_ v) (service_state_ v').

#[global] Instance mute_server_preorder : PreOrder mute_server.
Proof.
  split; [by intros s name v Hv; exists v|]. intros s1 s2 s3 M1 M2 name v3 Hv3.
  destruct (M2 _ _ Hv3) as (v2 & Hv2 & E2). destruct (M1 _ _ Hv2) as (v1 & Hv1 & E1).
  exists v1. split; [done|]. by transitivity (service_state_ v2).
Qed.

Lemma mute_same_services s s' : services_ s' = services_ s → mute_server s s'.
Proof. intros E name v. rewrite E. intros Hv. by exists v. Qed.

Lemma mute_on_service name op s s' :
  (∀ v w w', op v w = Ok tt w' → mute w w') → on_service name op s = Ok tt s' → mute_server s s'.
Proof.
  intros Hop Hx. unfold on_service in Hx. destruct (services_ s !! name) as [v|] eqn:Hv; [|done].
  destruct (op v (service_view s v)) as [[] w|] eqn:Ho; [|done]. injection Hx as <-.
  intros name' u. simpl. intros [[<- <-]|[_ Hu]]%lookup_insert_Some; [|by exists u].
  exists v. split; [done|]. exact (Hop _ _ _ Ho).
Qed.

Lemma mute_main t t' : Shutdown_step t = Ok tt t' →
  mute_server (the_server t) (the_server t') ∧ ev_pc t' = ev_pc t.
Proof.
  unfold Shutdown_step, join_completion_queue_thread, join_event_queue_thread, lookup_or_throw,
    lift_threads, on_server, modify, mbind, M_bind, get, mret, M_ret. intros Hx.
  destruct (main_pc t) as [|[|name names]| |i|i|i|].
  3: { destruct (on_service _ _ _) as [[] s'|] eqn:Hon; [|done]. injection Hx as <-. split; [|done].
       eapply mute_on_service; [|exact Hon]. by intros v w w' [= <-]. }
  all: repeat case_match; simplify_eq; split; try done; by apply mute_same_services.
Qed.

Lemma mute_step t l t' :
  Forall (eq EvReturned) (ev_pc t) → thread_step t l t' →
  mute_server (the_server t) (the_server t') ∧ ev_pc t' = ev_pc t.
Proof.
  intros Hall [Hok Hx]. rewrite Forall_lookup in Hall. destruct l as [name l|i|q|q|].
  - destruct Hok as (v & Hv & Hr & _). simpl in Hx. unfold on_server in Hx.
    destruct (on_service _ _ _) as [[] s'|] eqn:Hon; [|done]. injection Hx as <-. split; [|done].
    eapply mute_on_service; [|exact Hon]. intros u w w' Hw. apply (mute_exec l); [| |done].
    + intros q ->. apply orb_true_iff in Hr as [Hr%bool_decide_eq_true|Hr%bool_decide_eq_true];
        by apply Hall in Hr.
    + by destruct l.
  - by injection Hx as <-.
  - destruct Hok as [Hq _]. by apply Hall in Hq.
  - destruct Hok as [Hq _]. by apply Hall in Hq.
  - by apply mute_main.
Qed.

(** C19: abandoned queues.  Once the event queue threads have returned,
    nothing the other threads do (completions, calls of [Writer]s, the rest
    of [Shutdown]) ever makes a gRPC call or calls a handler again, in any
    service.  What a [Writer] accepts from then on is not sent, and a call
    that is in progress is not finished by the server. *)
Theorem abandoned_queues_mute t t' :
  Forall (eq EvReturned) (ev_pc t) → rtc (λ a b, ∃ l, thread_step a l b) t t' →
  mute_server (the_server t) (the_server t').
Proof.
  intros Hall. induction 1 as [t|t t1 t2 [l Hstep] _ IH]; [done|].
  destruct (mute_step t l t1 Hall Hstep) as [Hm He]. transitivity (the_server t1); [done|].
  apply IH. by rewrite He.
Qed.

(** ** Running threads *)

Definition thread_okb (t : Threaded) (l : ThreadLabel) : bool :=
  let s := the_server t in
  match l with
  | TService name l =>
      match services_ s !! name with
      | Some v => runs t (service_state_ v) l && env_okb (service_view s v) l
      | None => false
      end
  | TCqReturn i => bool_decide (cq_shut t !! i = Some true) &&
      bool_decide (cq_returned t !! i = Some false) && every_service s (completion_queue_drained i)
  | TNotice q => bool_decide (ev_pc t !! q = Some EvServing) && server_shutting_down_ s
  | TEvReturn q => bool_decide (ev_pc t !! q = Some EvDraining) && every_service s (event_queue_empty q)
  | TMain => bool_decide (main_pc t ≠ MReturned)
  end.

Definition sparesb (i : nat) (w w' : World) : bool :=
  forallb (λ tag, bool_decide (tag ∈ inflight w) ||
    match heap_ w' !! tag.1 with
    | Some (_, x) => negb (Nat.eqb (server_completion_queue_ x) i)
    | None => true
    end) (inflight w').

Definition calm_threadb (t : Threaded) (l : ThreadLabel) (t' : Threaded) : bool :=
  match l with
  | TService name l =>
      match services_ (the_server t) !! name, services_ (the_server t') !! name with
      | Some v, Some v' =>
          let w := service_view (the_server t) v in
          conn_okb w l && no_raceb w (service_state_ v') &&
          forallb (λ i, negb (bool_decide (cq_shut t !! i = Some true)) ||
            sparesb i w (service_state_ v')) (seq 0 (length (cq_shut t)))
      | _, _ => true
      end
  | _ => true
  end.

Definition patientb (t : Threaded) (l : ThreadLabel) : bool :=
  match l with TEvReturn _ => bool_decide (Forall (eq true) (cq_returned t)) | _ => true end.

(** Executes a list of labels; with [waits], only patient steps. *)
Fixpoint exec_threads (waits : bool) (ls : list ThreadLabel) (t : Threaded) : option Threaded :=
  match ls with
  | [] => Some t
  | l :: ls' =>
      if thread_okb t l && (negb waits || patientb t l) then
        match thread_exec l t with
        | Ok _ t' => if calm_threadb t l t' then exec_threads waits ls' t' else None
        | Fail _ => None
        end
      else None
  end.

Lemma thread_okb_sound t l : thread_okb t l = true → thread_ok t l.
Proof.
  destruct l as [name l|i|q|q|]; simpl; intros Hb.
  - destruct (services_ (the_server t) !! name) as [v|] eqn:Hv; [|done].
    apply andb_true_iff in Hb as [? ?]. exists v. split_and!; [done|done|by apply env_okb_sound].
  - apply andb_true_iff in Hb as [[?%bool_decide_eq_true ?%bool_decide_eq_true]%andb_true_iff ?].
    by split_and!.
  - by apply andb_true_iff in Hb as [?%bool_decide_eq_true ?].
  - by apply andb_true_iff in Hb as [?%bool_decide_eq_true ?].
  - by apply bool_decide_eq_true in Hb.
Qed.

Lemma sparesb_sound i w w' : sparesb i w w' = true → spares i w w'.
Proof.
  unfold sparesb. rewrite forallb_forall. intros Hb r n x e Hx Hin Hn.
  specialize (Hb (r, e)). rewrite <- list_elem_of_In in Hb. specialize (Hb Hin). simpl in Hb.
  rewrite bool_decide_eq_false_2, Hx in Hb by done. by apply negb_true_iff, Nat.eqb_neq in Hb.
Qed.

Lemma calm_threadb_sound t l t' : calm_threadb t l t' = true → calm_thread t l t'.
Proof.
  destruct l as [name l|i|q|q|]; try done. simpl. intros Hb v v' Hv Hv'. rewrite Hv, Hv' in Hb.
  apply andb_true_iff in Hb as [[Hc Hn]%andb_true_iff Hs].
  split_and!; [by apply conn_okb_sound|by apply no_raceb_sound|].
  intros i Hi. rewrite forallb_forall in Hs. specialize (Hs i). rewrite in_seq in Hs.
  pose proof (lookup_lt_Some _ _ _ Hi) as Hlt. specialize (Hs ltac:(lia)).
  rewrite bool_decide_eq_true_2 in Hs by done. by apply sparesb_sound.
Qed.

Lemma exec_threads_run waits s0 ls t t' :
  threads_run waits s0 t → exec_threads waits ls t = Some t' → threads_run waits s0 t'.
Proof.
  revert t. induction ls as [|l ls IH]; simpl; intros t Hrun Hx; [by injection Hx as <-|].
  destruct (thread_okb t l && _) eqn:Hok; [|done]. apply andb_true_iff in Hok as [Hok Hp].
  destruct (thread_exec l t) as [[] t1|] eqn:Hexec; [|done].
  destruct (calm_threadb t l t1) eqn:Hc; [|done]. eapply IH; [|done].
  eapply (threads_more waits s0 t l); [done|split; [by apply thread_okb_sound|done]
    |by apply calm_threadb_sound|].
  intros ->. simpl in Hp. destruct l; try done. by apply bool_decide_eq_true in Hp.
Qed.

End threads.

(** ** Two shutdowns of the example server

    One event queue, two completion queues, one service with two methods: the
    four objects wait for a connection when [Shutdown] is called.  In the
    first run the event queue thread waits until their tags have come back;
    in the second it times out before. *)

#[local] Existing Instance example_status.
#[local] Existing Instance example_application.

Definition math_name : string := "async_grpc.proto.Math".

(** The listeners are told that there will be no connection. *)
Definition listeners_return : list ThreadLabel :=
  (λ r, TService math_name (LCompletion r NEW_CONNECTION false None)) <$> [0; 1; 2; 3].

Definition events_handled : list ThreadLabel :=
  replicate 4 (TService math_name (LEvent 0)).

(** [Shutdown] up to the return of [server_->Shutdown()], and from there to
    the joins of the event queue threads. *)
Definition shutdown_begins : list ThreadLabel := [TMain; TMain; TMain; TNotice 0].
Definition queues_join : list ThreadLabel :=
  [TMain; TMain; TCqReturn 0; TMain; TMain; TCqReturn 1; TMain; TMain].

Definition patient_shutdown : list ThreadLabel :=
  shutdown_begins ++ listeners_return ++ queues_join ++ events_handled ++ [TEvReturn 0; TMain; TMain].

Definition hasty_shutdown : list ThreadLabel :=
  shutdown_begins ++ [TEvReturn 0] ++ listeners_return ++ queues_join ++ [TMain; TMain].

Definition after_threads (waits : bool) (ls : list ThreadLabel) : Threaded :=
  default (threads_started math_started) (exec_threads waits ls (threads_started math_started)).

Lemma after_threads_run waits ls :
  match exec_threads waits ls (threads_started math_started) with Some _ => true | None => false end
    = true →
  threads_run waits math_server (after_threads waits ls).
Proof.
  unfold after_threads. destruct (exec_threads _ _ _) as [t|] eqn:E; [|done]. intros _.
  eapply exec_threads_run; [|exact E]. apply threads_start. exact math_started_eq.
Qed.

(** Executing some labels and then some more. *)
Lemma exec_threads_steps waits ls t t' :
  exec_threads waits ls t = Some t' → rtc (λ a b, ∃ l, thread_step a l b) t t'.
Proof.
  revert t. induction ls as [|l ls IH]; simpl; intros t Hx; [by injection Hx as <-|].
  destruct (thread_okb t l && _) eqn:Hok; [|done]. apply andb_true_iff in Hok as [Hok _].
  destruct (thread_exec l t) as [[] t1|] eqn:Hexec; [|done].
  destruct (calm_threadb t l t1); [|done]. eapply rtc_l; [|by apply IH].
  exists l. split; [by apply thread_okb_sound|done].
Qed.

Lemma exec_threads_app waits ls1 ls2 t :
  exec_threads waits (ls1 ++ ls2) t = exec_threads waits ls1 t ≫= exec_threads waits ls2.
Proof.
  revert t. induction ls1 as [|l ls1 IH]; simpl; intros t; [done|].
  destruct (thread_okb t l && _); [|done]. destruct (thread_exec l t); [|done].
  destruct (calm_threadb t l _); [|done]. apply IH.
Qed.

Lemma after_threads_more waits ls1 ls2 :
  match exec_threads waits (ls1 ++ ls2) (threads_started math_started) with
  | Some _ => true | None => false end = true →
  rtc (λ a b, ∃ l, thread_step a l b) (after_threads waits ls1) (after_threads waits (ls1 ++ ls2)).
Proof.
  unfold after_threads. rewrite exec_threads_app.
  destruct (exec_threads waits ls1 _) as [t1|]; [simpl|done].
  destruct (exec_threads waits ls2 t1) as [t2|] eqn:E; [|done]. intros _.
  by eapply exec_threads_steps.
Qed.

Lemma shutdown_exact_witness :
  Server_destroy (the_server (after_threads true patient_shutdown)) =
    Ok tt (the_server (after_threads true patient_shutdown)).
Proof.
  pose proof (shutdown_exact true math_server (after_threads true patient_shutdown)
    math_server_fresh) as He.
  assert (threads_run true math_server (after_threads true patient_shutdown)) as Hrun
    by (apply after_threads_run; vm_compute; reflexivity).
  assert (main_pc (after_threads true patient_shutdown) = MReturned) as Hpc
    by (vm_compute; reflexivity).
  destruct (He Hrun Hpc) as [_ Hd]. destruct (Server_destroy _) as [[] s|f].
  - destruct Hd as [-> _]. reflexivity.
  - destruct Hd as (_ & _ & Hw). discriminate Hw.
Defined.

(** C37: a shutdown that does not wait.  In a run of the example server with
    no call in progress, [Shutdown] returns and the destructor aborts: the
    event queue thread found its queue empty for 100 ms and returned before
    the tags of the listeners came back, and nobody handles them. *)
Theorem hasty_shutdown_aborts :
  ∃ t, threads_run false math_server t ∧ main_pc t = MReturned ∧
    Server_destroy (the_server t) = Fail (LogFatal "RPCs still in flight!").
Proof.
  exists (after_threads false hasty_shutdown). split_and!.
  - apply after_threads_run. vm_compute. reflexivity.
  - vm_compute. reflexivity.
  - vm_compute. reflexivity.
Qed.

Lemma server_destroy_phases_witness :
  match Server_destroy math_started with
  | Ok _ _ => False
  | Fail f => f = LogFatal "RPCs still in flight!" ∨ f = Terminate
  end.
Proof.
  pose proof (Start_fresh math_server math_server_fresh) as Hw. unfold wp in Hw.
  rewrite math_started_eq in Hw. destruct Hw as [Hp _].
  pose proof (server_destroy_phases Started math_started Hp) as Hd.
  destruct (Server_destroy math_started) as [u s|f].
  - discriminate (Hd ltac:(discriminate)).
  - exact (proj2 (Hd ltac:(discriminate))).
Defined.

(** The example server after its event queue thread gave up: a tag returns. *)
Lemma abandoned_queues_mute_witness :
  mute_server (the_server (after_threads false (shutdown_begins ++ [TEvReturn 0])))
    (the_server (after_threads false ((shutdown_begins ++ [TEvReturn 0]) ++ listeners_return))).
Proof.
  apply (abandoned_queues_mute (after_threads false (shutdown_begins ++ [TEvReturn 0]))
    (after_threads false ((shutdown_begins ++ [TEvReturn 0]) ++ listeners_return))).
  - apply (bool_decide_eq_true_1 _). vm_compute. reflexivity.
  - apply (after_threads_more false (shutdown_begins ++ [TEvReturn 0]) listeners_return).
    vm_compute. reflexivity.
Defined.

(** A stream is open; a message has arrived and the client has gone when
    [Shutdown] is called and shuts down the first completion queue. *)
Definition stream_open : list ThreadLabel :=
  TService math_name <$>
    [LCompletion 0 NEW_CONNECTION true None; LEvent 0;
     LCompletion 0 READ true (Some 5%Z); LCompletion 0 DONE true None].

Definition late_read : list ThreadLabel := stream_open ++ replicate 5 TMain.

Definition late_read_step : outcome Threaded unit :=
  thread_exec (TService math_name (LEvent 0)) (after_threads true late_read).

(** The object with address [0] lives on the first completion queue, and the
    last gRPC call made for it is a read. *)
Definition reads_on_first_queue (t : Threaded) : bool :=
  match services_ (the_server t) !! math_name with
  | Some v =>
      match heap_ (service_state_ v) !! 0, last (grpc_calls (service_state_ v)) with
      | Some (_, x), Some c => Nat.eqb (server_completion_queue_ x) 0 && bool_decide (tag_of c = (0, READ))
      | _, _ => false
      end
  | None => false
  end.

(** C38: a read on a queue that was shut down.  The event queue threads run
    until after the completion queues were shut down, and handling a message
    that arrived before asks for the next one: the example server starts a
    read on a completion queue after its [Shutdown], which gRPC forbids. *)
Theorem read_after_queue_shutdown :
  ∃ t t', threads_run true math_server t ∧ cq_shut t !! 0 = Some true ∧
    thread_step t (TService math_name (LEvent 0)) t' ∧
    reads_on_first_queue t = false ∧ reads_on_first_queue t' = true.
Proof.
  exists (after_threads true late_read),
    (match late_read_step with Ok _ t' => t' | Fail _ => after_threads true late_read end).
  split_and!.
  - apply after_threads_run. vm_compute. reflexivity.
  - vm_compute. reflexivity.
  - split.
    + apply thread_okb_sound. vm_compute. reflexivity.
    + assert (is_ok late_read_step = true) as Hok by (vm_compute; reflexivity).
      unfold late_read_step in *. destruct (thread_exec _ _) as [[] t'|]; [reflexivity|discriminate Hok].
  - vm_compute. reflexivity.
  - vm_compute. reflexivity.
Qed.
