(* ===== verification/TestServer.v ===== *)
(** * The test server

    src/async_grpc/testing/rpc_handler_test_server.h: a server for one
    method, whose handler is wrapped ([HandlerWrapper]) so that the test can
    wait for callbacks.  Its constructor and destructor are those operations
    of [Server] the source calls; the service runs as any other.  The test's
    client is on the other side of gRPC: what a call of it returned is an
    argument of the operations here. *)

From Stdlib Require Import ZArith Lia.
From stdpp Require Import base option list strings gmap.
From S2P Require Import Prelude Threads Interfaces BlockingQueue Rpc TypeTraits Server.
From S2P Require Import RoundRobin Service ServiceFrame HandlerWrapper ServiceProtocol ServiceOrder.
From S2P Require Import ServiceExamples ServerLife.

Set Default Proof Using "Type".

Definition kServerAddress : string := "localhost:50051".

Section test_server.
Context `{GrpcStatus, !BuildConfig}.
Variable base : ExplicitApplication.
#[local] Hint Extern 0 Application => exact (wrapped base) : typeclass_instances.

Abbreviation TServer := (@Server _ (wrapped base)) (only parsing).

(** The member [rpc_handler_event_queue_]. *)
Definition rpc_handler_event_queue_ (s : TServer) : BlockingQueue RpcHandlerEvent :=
  (execution_context_ s).2.

(** [GetRpcHandlerInfo] for a method with the given traits. *)
Definition GetRpcHandlerInfo (method : RpcServiceMethodTraits) (handler : @RpcHandlerClass _ base)
    (method_full_name : string) : RpcHandlerInfo :=
  mkRpcHandlerInfo (RequestType method) (ResponseType method) (RpcHandlerWrapper base handler)
    (StreamType method) method_full_name.

(** The constructor. *)
Definition RpcHandlerTestServer_init (method : RpcServiceMethodTraits)
    (handler : @RpcHandlerClass _ base) (execution_context : @Context_ base) : M TServer unit :=
  names ← lift_threads (ParseMethodFullName (MethodName method));
  AddService names.1 {[names.2 := GetRpcHandlerInfo method handler (MethodName method)]} ;;
  s ← get;
  SetExecutionContext (execution_context, rpc_handler_event_queue_ s) ;;
  Start.

Definition RpcHandlerTestServer_new (method : RpcServiceMethodTraits)
    (handler : @RpcHandlerClass _ base) (execution_context : @Context_ base) : failure + TServer :=
  match Server_new (Options_new 1 1 kServerAddress) with
  | inl f => inl f
  | inr s =>
      match RpcHandlerTestServer_init method handler execution_context s with
      | Ok _ s' => inr s'
      | Fail f => inl f
      end
  end.

(** The destructor. *)
Definition RpcHandlerTestServer_destroy : M TServer unit := Shutdown.

(** [CHECK_EQ(rpc_handler_event_queue_.Pop(), event)]. *)
Definition WaitForHandlerCompletion (event : RpcHandlerEvent) : M TServer unit :=
  s ← get;
  match Pop (rpc_handler_event_queue_ s) with
  | None => fail Blocked
  | Some (e, q) =>
      modify (λ s, mkServer (server_options_ s) (server_shutting_down_ s) (server_ s)
        (completion_queue_threads_ s) (event_queue_threads_ s) (current_event_queue_id_ s)
        (services_ s) ((execution_context_ s).1, q) (trace_calls s)) ;;
      check (bool_decide (e = event)) "WaitForHandlerCompletion"
  end.

(** [success]: what [client_.Write] returned.  [EXPECT_TRUE] records a failed
    expectation and goes on, so the results of the other two calls are
    returned as well. *)
Definition SendWrite (success : bool) : M TServer bool :=
  WaitForHandlerCompletion ON_REQUEST ;; mret success.

Definition SendWritesDone (expected : bool) : M TServer bool :=
  WaitForHandlerCompletion ON_READS_DONE ;; mret expected.

Definition SendFinish (expected : bool) : M TServer bool :=
  WaitForHandlerCompletion ON_FINISH ;; mret expected.

(** ** Runs

    A step of the service (in which no other service takes part), or a wait
    of the test that returned; the second component collects the events the
    test has taken from the queue. *)
Inductive test_step : TServer * list RpcHandlerEvent → TServer * list RpcHandlerEvent → Prop :=
  | test_service s s' popped name v l :
      services_ s !! name = Some v → env_ok (service_view s v) l → (∀ c, l ≠ LOtherContext c) →
      on_service name (λ _, exec l) s = Ok tt s' → test_step (s, popped) (s', popped)
  | test_wait s s' popped e :
      WaitForHandlerCompletion e s = Ok tt s' → test_step (s, popped) (s', popped ++ [e]).

(** ** What operations of the server do to the queue *)

Record test_service_in (s : TServer) (name : string) (v : ServiceObject) : Prop := {
  ts_services : services_ s = {[name := v]};
  ts_methods : map_Forall (λ _, is_wrapped base) (rpc_handler_infos_ v);
  ts_reporting : reporting base (service_view s v)
}.

Definition test_mirrors (s s' : TServer) : Prop :=
  ∀ name v, test_service_in s name v →
    ∃ v' es, test_service_in s' name v' ∧
      events base (service_view s' v') = events base (service_view s v) ++ es ∧
      queued base (service_view s' v') = queued base (service_view s v) ++ es.

#[global] Instance test_mirrors_preorder : PreOrder test_mirrors.
Proof.
  split.
  - intros s name v Hs. exists v, []. by rewrite !app_nil_r.
  - intros s1 s2 s3 H12 H23 name v Hs. destruct (H12 _ _ Hs) as (v2 & es & Hs2 & He & Hq).
    destruct (H23 _ _ Hs2) as (v3 & es' & Hs3 & He' & Hq'). exists v3, (es ++ es').
    by rewrite He', He, Hq', Hq, !app_assoc.
Qed.

Lemma on_service_mirrors name op :
  (∀ v, map_Forall (λ _, is_wrapped base) (rpc_handler_infos_ v) → preserves (mirrors base) (op v)) →
  preserves test_mirrors (on_service name op).
Proof.
  intros Hop s. apply wlp_intro. intros [] s' Hrun name' v [Hv Hm Hr].
  unfold on_service in Hrun. rewrite Hv in Hrun.
  destruct (decide (name = name')) as [<-|Hne]; [|by rewrite lookup_singleton_ne in Hrun].
  rewrite lookup_singleton_eq in Hrun.
  destruct (op v (service_view s v)) as [[] w|] eqn:Hw; [|done]. injection Hrun as <-.
  destruct (preserves_Ok _ _ _ _ _ (Hop v Hm) Hw Hr) as ([Hi Hw'] & es & He & Hq).
  exists (mkServiceObject (rpc_handler_infos_ v) w), es. split; [|done].
  split; [|done|by split]. cbn [services_]. apply insert_singleton_eq.
Qed.

(** Changes that leave alone the services and what their handlers share. *)
Lemma modify_mirrors (f : TServer → TServer) :
  (∀ s, services_ (f s) = services_ s ∧ execution_context_ (f s) = execution_context_ s) →
  preserves test_mirrors (modify f).
Proof.
  intros Hf. apply preserves_modify. intros s name v [Hv Hm [Hi Hw]].
  destruct (Hf s) as [Es Ec]. exists v, []. rewrite !app_nil_r. unfold queued, events. simpl.
  rewrite Ec. split; [|done]. split; [by rewrite Es|done|]. split; simpl; [by rewrite Ec|done].
Qed.

Lemma methods_wrapped v :
  map_Forall (λ _, is_wrapped base) (rpc_handler_infos_ v) → Forall (is_wrapped base) (methods_ v).
Proof.
  intros Hm. unfold methods_. rewrite map_entries_perm. apply Forall_fmap, Forall_forall.
  intros [k info] Hk%elem_of_map_to_list. exact (Hm _ _ Hk).
Qed.

Lemma Start_mirrors : preserves test_mirrors Start.
Proof.
  unfold Start, for_services, lift_threads.
  apply preserves_bind; [apply _|by apply modify_mirrors|]. intros _.
  apply preserves_bind; [apply _|apply preserves_get; apply _|]. intros s.
  apply preserves_bind; [apply _| |].
  - apply preserves_bind; [apply _|apply preserves_get; apply _|]. intros s'.
    apply preserves_for_each; [apply _|]. intros name. apply on_service_mirrors.
    intros v Hv. apply frame_StartServing, methods_wrapped, Hv.
  - intros _. preserves_tac. by apply modify_mirrors.
Qed.

(** ** The constructor *)

Section started.
Context (method : RpcServiceMethodTraits) (handler : @RpcHandlerClass _ base) (c : @Context_ base).

(** The state in which the constructor calls [Start]. *)
Definition test_server_fresh (service_name method_name : string) : TServer :=
  mkServer (Options_new 1 1 kServerAddress) false false [NotStarted] [NotStarted] 0
    {[service_name := Service_new 1
        {[method_name := GetRpcHandlerInfo method handler (MethodName method)]}]}
    (c, BlockingQueue_default) [].

Lemma RpcHandlerTestServer_new_eq :
  RpcHandlerTestServer_new method handler c =
  match ParseMethodFullName (MethodName method) with
  | inl f => inl f
  | inr names =>
      match Start (test_server_fresh names.1 names.2) with
      | Ok _ s => inr s
      | Fail f => inl f
      end
  end.
Proof.
  unfold RpcHandlerTestServer_new, RpcHandlerTestServer_init, Server_new, lift_threads. simpl.
  destruct (ParseMethodFullName (MethodName method)) as [f|[name m]]; [done|].
  unfold mbind, M_bind, mret, M_ret, AddService, SetExecutionContext, get, mbind, M_bind. simpl.
  rewrite bool_decide_eq_true_2 by apply lookup_empty. simpl. by rewrite insert_empty.
Qed.

Lemma test_server_fresh_phase name m : in_phase Fresh (test_server_fresh name m).
Proof.
  split; try done.
  - by repeat constructor.
  - by repeat constructor.
  - intros name' v Hv. cbn [services_ test_server_fresh] in Hv.
    by apply lookup_singleton_Some in Hv as [<- <-].
Qed.

Lemma test_server_fresh_service name m :
  test_service_in (test_server_fresh name m) name
    (Service_new 1 {[m := GetRpcHandlerInfo method handler (MethodName method)]}).
Proof.
  split; [done| |split; [done|]].
  - apply map_Forall_singleton. by exists handler.
  - apply map_Forall_empty.
Qed.

End started.

(** ** The events the test sees *)

(** The service of the server, with what the test has popped so far. *)
Definition test_inv (name : string) (st : TServer * list RpcHandlerEvent) : Prop :=
  ∃ v, test_service_in st.1 name v ∧
    st.2 ++ queued base (service_view st.1 v) = events base (service_view st.1 v).

Lemma test_inv_new method handler c s :
  RpcHandlerTestServer_new method handler c = inr s → ∃ name, test_inv name (s, []).
Proof.
  rewrite RpcHandlerTestServer_new_eq.
  destruct (ParseMethodFullName (MethodName method)) as [f|[name m]]; [done|]. simpl.
  destruct (Start _) as [[] s'|] eqn:Hstart; [|done]. intros [= <-]. exists name.
  destruct (preserves_Ok _ _ _ _ _ Start_mirrors Hstart _ _
    (test_server_fresh_service method handler c name m)) as (v & es & Hv & He & Hq).
  exists v. split; [done|]. simpl. by rewrite He, Hq.
Qed.

Lemma test_inv_step name st st' : test_inv name st → test_step st st' → test_inv name st'.
Proof.
  intros (v & Hv & Heq) Hstep. destruct Hstep as [s s' popped name' v' l Hv' _ Hl Hx|s s' popped e Hw].
  - assert (preserves test_mirrors (on_service name' (λ _, exec l))) as Hp.
    { apply on_service_mirrors. intros u _. apply frame_exec; [done|apply mi_enqueue|].
      intros p it. by apply mi_modify. }
    destruct (preserves_Ok _ _ _ _ _ Hp Hx _ _ Hv) as (u & es & Hu & He & Hq).
    exists u. split; [done|]. simpl in *. by rewrite He, Hq, app_assoc, Heq.
  - unfold WaitForHandlerCompletion, mbind, M_bind, get, modify in Hw.
    destruct (Pop (rpc_handler_event_queue_ s)) as [[e' q]|] eqn:Hpop; [|done].
    unfold check in Hw. case_bool_decide as He; [subst e'|done]. injection Hw as <-.
    unfold Pop, pop_front in Hpop. destruct (QueueEmptyCondition _); [done|]. simpl in Hpop.
    destruct (deque_ (rpc_handler_event_queue_ s)) as [|e' d] eqn:Hd; [done|]. simplify_eq.
    destruct Hv as [Hs Hm [Hi Hr]]. exists v. split.
    + split; [exact Hs|exact Hm|]. by split.
    + simpl in *. unfold queued in *. simpl in *. unfold rpc_handler_event_queue_ in Hd.
      rewrite <- app_assoc. simpl. change (popped ++ e :: d = events base (service_view s v)).
      by rewrite <- Heq, Hd.
Qed.

Lemma test_inv_run name st st' : test_inv name st → rtc test_step st st' → test_inv name st'.
Proof. intros Hi Hr. induction Hr; [done|]. eauto using test_inv_step. Qed.

Lemma map_entries_singleton {A} name (a : A) : map_entries {[name := a]} = [(name, a)].
Proof. unfold map_entries. by rewrite map_to_list_singleton. Qed.

Lemma singleton_service (s0 s : TServer) name v0 :
  services_ s0 = {[name := v0]} →
  rpc_handler_infos_ <$> services_ s = rpc_handler_infos_ <$> services_ s0 →
  ∃ v, services_ s = {[name := v]} ∧ rpc_handler_infos_ v = rpc_handler_infos_ v0.
Proof.
  intros -> E. rewrite map_fmap_singleton in E.
  apply map_fmap_singleton_inv in E as (v & Ev & Hv). by exists v.
Qed.

(** The construction of a test server.  For every method whose name parses,
    the constructor returns with all threads running and one service with one
    method, for which one [Rpc] waits for a connection; for any other name it
    fails as the parser does.  The destructor of such a server returns, with
    the threads joined and the service stopped. *)
Theorem test_server_ready method handler c :
  match ParseMethodFullName (MethodName method) with
  | inl f => RpcHandlerTestServer_new method handler c = inl f
  | inr names =>
      ∃ s v s', RpcHandlerTestServer_new method handler c = inr s ∧ in_phase Started s ∧
        services_ s = {[names.1 := v]} ∧
        methods_ v = [GetRpcHandlerInfo method handler (MethodName method)] ∧
        listeners (heap_ (service_state_ v)) = [(0, 0)] ∧
        RpcHandlerTestServer_destroy s = Ok tt s' ∧ in_phase Stopped s'
  end.
Proof.
  rewrite RpcHandlerTestServer_new_eq.
  destruct (ParseMethodFullName (MethodName method)) as [f|[name m]]; [done|]. cbn [fst snd].
  set (s0 := test_server_fresh method handler c name m).
  pose proof (Start_fresh s0 (test_server_fresh_phase _ _ _ _ _)) as Hw. unfold wp in Hw.
  destruct (Start s0) as [[] s|]; [|done]. destruct Hw as (Hp & Hlen & Hinfos & _).
  destruct (singleton_service s0 s name _ eq_refl Hinfos) as (v & Hv & Ei).
  assert (methods_ v = [GetRpcHandlerInfo method handler (MethodName method)]) as Hm.
  { unfold methods_. rewrite Ei. unfold Service_new. cbn [rpc_handler_infos_].
    by rewrite map_entries_singleton. }
  pose proof (Shutdown_started s Hp) as Hdown. unfold wp in Hdown.
  destruct (Shutdown s) as [[] s'|] eqn:Hs'; [|done].
  exists s, v, s'. split_and!; try done.
  destruct (ph_services _ _ Hp name v) as [(st & c' & Hst & Hrun) Hsd];
    [rewrite Hv; apply lookup_singleton_eq|].
  pose proof (calm_listeners _ _ _ _ _ _ Hst Hrun Hsd) as Hl. unfold completion_queues in Hl.
  rewrite Hlen, Hm in Hl. by apply Permutation_singleton_r in Hl.
Qed.

(** What a wait of the test does.  At any time the next event the test will
    see is the report of the first callback it has not yet seen, callbacks
    being reported once each in the order in which they were made: a wait
    blocks exactly when every callback has been seen, returns exactly when
    that callback is the expected one, and otherwise aborts the test. *)
Theorem wait_for_handler_exact method handler c s0 s popped e :
  RpcHandlerTestServer_new method handler c = inr s0 → rtc test_step (s0, []) (s, popped) →
  ∃ name v, services_ s = {[name := v]} ∧
    match omap (event_of base) (callbacks (service_state_ v)).*2 !! length popped with
    | None => WaitForHandlerCompletion e s = Fail Blocked
    | Some e' =>
        if decide (e' = e)
        then ∃ s', WaitForHandlerCompletion e s = Ok tt s' ∧ services_ s' = services_ s
        else WaitForHandlerCompletion e s = Fail (CheckFailed "WaitForHandlerCompletion")
    end.
Proof.
  intros Hnew Hrun. destruct (test_inv_new _ _ _ _ Hnew) as [name Hinv].
  destruct (test_inv_run _ _ _ Hinv Hrun) as (v & [Hv _ _] & Heq). exists name, v.
  split; [done|]. simpl in Heq. change (omap (event_of base) (callbacks (service_state_ v)).*2)
    with (events base (service_view s v)).
  rewrite <- Heq, lookup_app_r, Nat.sub_diag by done. unfold queued. simpl.
  unfold WaitForHandlerCompletion, mbind, M_bind, get, modify, Pop, pop_front,
    QueueEmptyCondition, rpc_handler_event_queue_.
  destruct (deque_ (execution_context_ s).2) as [|e' d]; [done|]. simpl. unfold check.
  case_bool_decide; case_decide; try done. by eexists.
Qed.

(** ** Runs by evaluation *)

Inductive TestAction :=
  | TService (name : string) (l : Label)
  | TWait (e : RpcHandlerEvent).

Definition test_action (a : TestAction) (st : TServer * list RpcHandlerEvent) :
    option (TServer * list RpcHandlerEvent) :=
  match a with
  | TService name l =>
      match services_ st.1 !! name with
      | Some v =>
          if env_okb (service_view st.1 v) l && negb (shared_label l) then
            match on_service name (λ _, exec l) st.1 with Ok _ s' => Some (s', st.2) | Fail _ => None end
          else None
      | None => None
      end
  | TWait e =>
      match WaitForHandlerCompletion e st.1 with Ok _ s' => Some (s', st.2 ++ [e]) | Fail _ => None end
  end.

Fixpoint test_actions (acts : list TestAction) (st : TServer * list RpcHandlerEvent) :
    option (TServer * list RpcHandlerEvent) :=
  match acts with
  | [] => Some st
  | a :: acts' => st' ← test_action a st; test_actions acts' st'
  end.

Lemma test_action_sound a st st' : test_action a st = Some st' → test_step st st'.
Proof.
  destruct st as [s popped], a as [name l|e]; simpl.
  - destruct (services_ s !! name) as [v|] eqn:Hv; [|done].
    destruct (env_okb _ l) eqn:He; [|done]. destruct (shared_label l) eqn:Hl; [done|]. simpl.
    destruct (on_service _ _ s) as [[] s'|] eqn:Hs; [|done]. intros [= <-].
    eapply test_service; [done|by apply env_okb_sound| |done]. by intros c ->.
  - destruct (WaitForHandlerCompletion e s) as [[] s'|] eqn:Hs; [|done]. intros [= <-].
    by constructor.
Qed.

Lemma test_actions_sound acts st st' : test_actions acts st = Some st' → rtc test_step st st'.
Proof.
  revert st. induction acts as [|a acts IH]; intros st; simpl; [by intros [= <-]|].
  destruct (test_action a st) as [st1|] eqn:Ha; [|done]. intros Hr.
  eapply rtc_l; [by eapply test_action_sound|by apply IH].
Qed.

End test_server.

(** ** A test of a unary handler *)

#[local] Existing Instance example_status.

Definition square_method : @RpcServiceMethodTraits (wrapped example_application) :=
  @mkTraits (wrapped example_application) "/async_grpc.proto.Math/GetSquare" tt tt NORMAL_RPC.

Definition square_service : string := "async_grpc.proto.Math".

(** The test's call arrives at the object [r] and is handled. *)
Definition square_call (r : nat) (m : Z) : list (TestAction example_application) :=
  [TService _ square_service (LCompletion r Event.NEW_CONNECTION true
     (Some (m : @Message (wrapped example_application))));
   TService _ square_service (LEvent 0)].

Definition square_server : failure + @Server _ (wrapped example_application) :=
  RpcHandlerTestServer_new example_application square_method idle_handler 0%Z.

(** The state of the server, when a check of it evaluates to true. *)
Lemma square_run acts (f : @Server _ (wrapped example_application) * list RpcHandlerEvent → bool) :
  match square_server with
  | inr s0 => match test_actions _ acts (s0, []) with Some st => f st | None => false end
  | inl _ => false
  end = true →
  ∃ s0 s popped, square_server = inr s0 ∧ rtc (test_step example_application) (s0, []) (s, popped) ∧
    f (s, popped) = true.
Proof.
  destruct square_server as [|s0]; [done|]. intros Hf. exists s0.
  destruct (test_actions _ acts (s0, [])) as [[s popped]|] eqn:Hr; [|done].
  exists s, popped. split_and!; [done| |done]. by eapply test_actions_sound.
Qed.

Lemma wait_for_handler_exact_witness :
  ∃ s v, services_ s = {[square_service := v]} ∧
    ∃ s', WaitForHandlerCompletion example_application ON_REQUEST s = Ok tt s'.
Proof.
  destruct (square_run (square_call 0 5) (λ st, bool_decide (st.2 = []) &&
    match services_ st.1 !! square_service with
    | Some v => bool_decide (omap (event_of example_application) (callbacks (service_state_ v)).*2 =
                  [ON_REQUEST; ON_READS_DONE])
    | None => false
    end)) as (s0 & s & popped & Hnew & Hrun & Hf).
  { vm_compute. reflexivity. }
  apply andb_true_iff in Hf as [Hp Hf]. apply bool_decide_eq_true in Hp. simpl in Hp. subst popped.
  destruct (wait_for_handler_exact example_application square_method idle_handler 0%Z s0 s []
    ON_REQUEST Hnew Hrun) as (name & v & Hv & Hw).
  cbn [fst snd] in Hf. destruct (services_ s !! square_service) as [v'|] eqn:Ev; [|discriminate Hf].
  rewrite Hv in Ev. apply lookup_singleton_Some in Ev as [<- <-]. apply bool_decide_eq_true in Hf.
  exists s, v. split; [exact Hv|]. rewrite Hf in Hw. cbn in Hw.
  destruct Hw as (s' & Hw & _). exists s'. exact Hw.
Defined.

(** Two writes to a unary method abort the test.  The method's handler gets
    the end of the requests with each request, so the queue holds
    [ON_READS_DONE] when [SendWrite] waits for the second [ON_REQUEST]: the
    server has handled both requests, and the second [SendWrite] aborts. *)
Theorem second_send_write_aborts :
  ∃ s0 s, square_server = inr s0 ∧
    rtc (test_step example_application) (s0, []) (s, [ON_REQUEST]) ∧
    (∃ v, services_ s !! square_service = Some v ∧
       omap (event_of example_application) (callbacks (service_state_ v)).*2 =
         [ON_REQUEST; ON_READS_DONE; ON_REQUEST; ON_READS_DONE]) ∧
    SendWrite example_application true s = Fail (CheckFailed "WaitForHandlerCompletion").
Proof.
  destruct (square_run (square_call 0 5 ++ [TWait _ ON_REQUEST] ++ square_call 1 6)
    (λ st, bool_decide (st.2 = [ON_REQUEST]) &&
      (match services_ st.1 !! square_service with
       | Some v => bool_decide (omap (event_of example_application) (callbacks (service_state_ v)).*2 =
                     [ON_REQUEST; ON_READS_DONE; ON_REQUEST; ON_READS_DONE])
       | None => false
       end &&
       match SendWrite example_application true st.1 with
       | Fail f => bool_decide (f = CheckFailed "WaitForHandlerCompletion")
       | Ok _ _ => false
       end))) as (s0 & s & popped & Hnew & Hrun & Hf).
  { vm_compute. reflexivity. }
  apply andb_true_iff in Hf as [Hp [Hv Hw]%andb_true_iff]. apply bool_decide_eq_true in Hp.
  cbn [fst snd] in *. subst popped.
  exists s0, s. split; [exact Hnew|]. split; [exact Hrun|]. split.
  - destruct (services_ s !! square_service) as [v|]; [|discriminate Hv]. exists v.
    split; [reflexivity|]. apply bool_decide_eq_true in Hv. exact Hv.
  - destruct (SendWrite _ true s) as [|f]; [discriminate Hw|]. apply bool_decide_eq_true in Hw.
    rewrite Hw. reflexivity.
Qed.
