(* ===== verification/MathService.v ===== *)
(** * The Math service

    The application of src/async_grpc/server_test.cc, on the service of
    proto/math_service.proto: its five handlers, the server the fixture
    [ServerTest] sets up, and the tests' calls.  The theorem says what this
    server answers, whatever arrives in whatever order; it composes the
    builder, the server's life cycle, the service and the handlers. *)

From Stdlib Require Import ZArith Lia.
From stdpp Require Import base option list strings gmap.
From S2P Require Import Prelude Threads Interfaces BlockingQueue Rpc TypeTraits Server.
From S2P Require Import RoundRobin Service ServiceFrame ServiceInv ServiceLemmas ServiceSafety.
From S2P Require Import ServiceSteps ServiceFlow ServiceProtocol ServiceOrder HandlerReplay.
From S2P Require Import ServiceExamples ServerLife.
Import Event.

Set Default Proof Using "Type".

#[local] Existing Instance example_status.

(** ** The application *)

(** The message types of the service; each has one [int32] field, and a
    message is represented by it. *)
Inductive MathDescriptor :=
  | GetSumRequest | GetSumResponse
  | GetSquareRequest | GetSquareResponse
  | GetEchoRequest | GetEchoResponse
  | GetSequenceRequest | GetSequenceResponse.

#[global] Instance MathDescriptor_eq_dec : EqDecision MathDescriptor.
Proof. solve_decision. Defined.

(** [echo_responder] is a promise of a function that writes a value; it holds
    that value once it is set. *)
Record MathServerContext := mkMathServerContext {
  echo_responder : option Z
}.

Definition additional_increment (c : MathServerContext) : Z := 10.

(** The state of a handler is its member [sum_], if it has one.  [None] means
    that its code has done something undefined (an [int] overflow, an access
    through a null context) or has thrown. *)
#[local] Instance math_application : Application := {|
  Message := Z;
  Descriptor := MathDescriptor;
  GetPrototype_New := λ _, 0%Z;
  HandlerState := option Z;
  Context_ := option MathServerContext;
  null_context := None
|}.

#[local] Instance math_descriptor_eq_dec : EqDecision Descriptor := MathDescriptor_eq_dec.

(** ** Handlers *)

Definition OnFinish_default : HandlerBody := λ h c, (h, c, []).
Definition OnReadsDone_default : HandlerBody := λ h c, (h, c, []).
Definition Initialize_default (c : Context_) : HandlerState * Context_ * list HandlerAction :=
  (Some 0%Z, c, []).

Definition GetSumHandler : RpcHandlerClass :=
  mkHandlerClass Initialize_default
    (λ request h c,
      match h, c with
      | Some sum_, Some context =>
          match int_checked (sum_ + additional_increment context) with
          | Some sum_ =>
              match int_checked (sum_ + request) with
              | Some sum_ => (Some sum_, c, [])
              | None => (None, c, [])
              end
          | None => (None, c, [])
          end
      | _, _ => (None, c, [])
      end)
    (λ h c, match h with Some sum_ => (h, c, [ASend sum_]) | None => (None, c, []) end)
    OnFinish_default.

Definition GetRunningSumHandler : RpcHandlerClass :=
  mkHandlerClass Initialize_default
    (λ request h c,
      match h with
      | Some sum_ =>
          match int_checked (sum_ + request) with
          | Some sum_ => (Some sum_, c, [ASend sum_; ASend sum_])
          | None => (None, c, [])
          end
      | None => (None, c, [])
      end)
    (λ h c, match h with Some _ => (h, c, [AFinish Status_OK]) | None => (None, c, []) end)
    OnFinish_default.

Definition internal_error : Status := Status_make StatusCode_INTERNAL "internal error".

Definition GetSquareHandler : RpcHandlerClass :=
  mkHandlerClass Initialize_default
    (λ request h c,
      match h, int_checked (request * request) with
      | Some _, Some output =>
          (h, c, (if (request <? 0)%Z then [AFinish internal_error] else []) ++ [ASend output])
      | _, _ => (None, c, [])
      end)
    OnReadsDone_default OnFinish_default.

(** [set_value] on a promise that is set throws. *)
Definition GetEchoHandler : RpcHandlerClass :=
  mkHandlerClass Initialize_default
    (λ request h c,
      match h, c with
      | Some _, Some (mkMathServerContext None) =>
          (h, Some (mkMathServerContext (Some request)), [AGetWriter])
      | Some _, _ => (None, c, [AGetWriter])
      | None, _ => (None, c, [])
      end)
    OnReadsDone_default OnFinish_default.

Definition GetSequenceHandler : RpcHandlerClass :=
  mkHandlerClass Initialize_default
    (λ request h c,
      match h with
      | Some _ => (h, c, (ASend <$> seqZ 0 request) ++ [AFinish Status_OK])
      | None => (None, c, [])
      end)
    OnReadsDone_default OnFinish_default.

(** ** Methods *)

Definition GetSumMethod : CppClass :=
  handler_signature (Stream (MessageType GetSumRequest)) (MessageType GetSumResponse)
    "/async_grpc.proto.Math/GetSum".
Definition GetRunningSumMethod : CppClass :=
  handler_signature (Stream (MessageType GetSumRequest)) (Stream (MessageType GetSumResponse))
    "/async_grpc.proto.Math/GetRunningSum".
Definition GetSquareMethod : CppClass :=
  handler_signature (MessageType GetSquareRequest) (MessageType GetSquareResponse)
    "/async_grpc.proto.Math/GetSquare".
Definition GetEchoMethod : CppClass :=
  handler_signature (MessageType GetEchoRequest) (MessageType GetEchoResponse)
    "/async_grpc.proto.Math/GetEcho".
Definition GetSequenceMethod : CppClass :=
  handler_signature (MessageType GetSequenceRequest) (Stream (MessageType GetSequenceResponse))
    "/async_grpc.proto.Math/GetSequence".

(** The service as math_service.proto declares it. *)
Record MethodProto := mkMethodProto {
  proto_input : MathDescriptor;
  proto_client_stream : bool;
  proto_output : MathDescriptor;
  proto_server_stream : bool
}.

Definition Math_methods : gmap string MethodProto :=
  <["GetSum"%string := mkMethodProto GetSumRequest true GetSumResponse false]>
  (<["GetSquare"%string := mkMethodProto GetSquareRequest false GetSquareResponse false]>
  (<["GetRunningSum"%string := mkMethodProto GetSumRequest true GetSumResponse true]>
  (<["GetEcho"%string := mkMethodProto GetEchoRequest false GetEchoResponse false]>
  {["GetSequence"%string := mkMethodProto GetSequenceRequest false GetSequenceResponse true]}))).

Definition Math_name : string := "async_grpc.proto.Math".

#[local] Instance generated_pool : DescriptorPool := {|
  ServiceDescriptor := gmap string MethodProto;
  MethodDescriptor := MethodProto;
  FindServiceByName := λ s, if decide (s = Math_name) then Some Math_methods else None;
  FindMethodByName := λ s m, s !! m;
  input_type := proto_input;
  output_type := proto_output;
  client_streaming := proto_client_stream;
  server_streaming := proto_server_stream
|}.

(** ** The fixture *)

Definition kServerAddress : string := "localhost:50051".
Definition kNumThreads : Z := 1.

(** [RegisterHandler<H>] for a handler class [H] derived from
    [RpcHandler<Method>]; what the static assertions reject does not compile. *)
Definition register (method : CppClass) (handler : RpcHandlerClass) : list BuilderCall :=
  match traits_of method with
  | inr traits => [CRegisterHandler (mkRpcHandlerType traits handler)]
  | inl _ => []
  end.

Definition builder_calls : list BuilderCall :=
  [CSetServerAddress kServerAddress; CSetNumGrpcThreads kNumThreads;
   CSetNumEventThreads kNumThreads] ++
  register GetSumMethod GetSumHandler ++ register GetSquareMethod GetSquareHandler ++
  register GetRunningSumMethod GetRunningSumHandler ++ register GetEchoMethod GetEchoHandler ++
  register GetSequenceMethod GetSequenceHandler.

(** [SetUp] up to the start of the server. *)
Definition SetUp_build : failure + Server :=
  match for_each builder_calls builder_call Builder_new with
  | Ok _ server_builder => Build server_builder
  | Fail f => inl f
  end.

Definition SetUp : failure + Server :=
  match SetUp_build with
  | inl f => inl f
  | inr server =>
      match (SetExecutionContext (Some (mkMathServerContext None)) ;; Start) server with
      | Ok _ server => inr server
      | Fail f => inl f
      end
  end.

(** Of the server; the pool of client completion queues is not part of it. *)
Definition TearDown : M Server unit := Shutdown.

(** ** What the service promises *)

Definition reply (z : Z) : SendItem := mkSendItem (Some (z : Message)) Status_OK.
Definition finish (s : Status) : SendItem := mkSendItem None s.

(** The sums of the first requests, each twice. *)
Fixpoint running_sums (acc : Z) (requests : list Z) : list Z :=
  match requests with
  | [] => []
  | m :: requests' => (acc + m)%Z :: (acc + m)%Z :: running_sums (acc + m) requests'
  end.

Fixpoint sum_list_Z (l : list Z) : Z :=
  match l with
  | [] => 0
  | m :: l' => m + sum_list_Z l'
  end.

(** The answer of a method to the requests that have arrived; [over] says
    whether the client has said that there are no more. *)
Definition answer (method : string) (requests : list Z) (over : bool) : list SendItem :=
  if decide (method = "/async_grpc.proto.Math/GetSum"%string) then
    if over then [reply (sum_list_Z requests + 10 * Z.of_nat (length requests))] else []
  else if decide (method = "/async_grpc.proto.Math/GetRunningSum"%string) then
    (reply <$> running_sums 0 requests) ++ (if over then [finish Status_OK] else [])
  else if decide (method = "/async_grpc.proto.Math/GetSquare"%string) then
    m ← requests; (if (m <? 0)%Z then [finish internal_error] else []) ++ [reply (m * m)]
  else if decide (method = "/async_grpc.proto.Math/GetSequence"%string) then
    m ← requests; (reply <$> seqZ 0 m) ++ [finish Status_OK]
  else [].

(** The requests among the callbacks, and whether the last of them was
    announced. *)
Definition requests (cbs : list Callback) : list Z :=
  omap (λ cb, match cb with CbOnRequest m => Some (m : Z) | _ => None end) cbs.

Definition reads_over (cbs : list Callback) : bool :=
  existsb (λ cb, match cb with CbOnReadsDone => true | _ => false end) cbs.

(** ** Replays of the handlers *)

Lemma reads_over_stage cbs st :
  stage_from Created cbs = Some st → reads_over cbs = bool_decide (st = ReadsOver).
Proof.
  assert (∀ st0, stage_from st0 cbs = Some st →
    bool_decide (st0 = ReadsOver) || reads_over cbs = bool_decide (st = ReadsOver)) as Hgo.
  { induction cbs as [|cb cbs IH]; intros st0; simpl; [intros [= ->]; apply orb_false_r|].
    destruct st0, cb; simpl; try done; intros Hs%IH; exact Hs. }
  intros Hs%Hgo. exact Hs.
Qed.

Section handler.
Context (cls : RpcHandlerClass) (sum_of : list Z → Z) (out : list Z → bool → list SendItem).

(** A handler class that, unless it gets stuck, keeps [sum_of] the requests
    and asks for [out]. *)
Record computes : Prop := {
  co_init : ∀ c z c' acts, handler_Initialize cls c = (Some z, c', acts) →
    z = sum_of [] ∧ omap action_item acts = out [] false;
  co_request : ∀ ms m h c z c' acts, handler_OnRequest cls m h c = (Some z, c', acts) →
    ∃ z0, h = Some z0 ∧ (z0 = sum_of ms →
      z = sum_of (ms ++ [m]) ∧ out (ms ++ [m]) false = out ms false ++ omap action_item acts);
  co_done : ∀ ms h c z c' acts, handler_OnReadsDone cls h c = (Some z, c', acts) →
    ∃ z0, h = Some z0 ∧ (z0 = sum_of ms →
      z = sum_of ms ∧ out ms true = out ms false ++ omap action_item acts);
  co_finish : handler_OnFinish cls = OnFinish_default
}.

Lemma replay_computes cbs z acts st :
  computes → replay cls cbs (Some z) acts → stage_from Created cbs = Some st →
  z = sum_of (requests cbs) ∧ omap action_item acts = out (requests cbs) (reads_over cbs).
Proof.
  intros [Hinit Hreq Hdone Hfin] Hr. remember (Some z) as hz eqn:Ez. revert z st Ez.
  induction Hr as [c h c' acts Hi|cbs h before cb body c h' c' acts Hr IH Hv Hb]; intros z st -> Hst.
  { destruct (Hinit _ _ _ _ Hi) as [-> ->]. done. }
  rewrite stage_from_app in Hst. destruct (stage_from Created cbs) as [st0|] eqn:Hst0; [|done].
  simpl in Hst. pose proof (reads_over_stage _ _ Hst0) as Hover.
  unfold requests, reads_over. rewrite !omap_app, existsb_app.
  change (omap _ cbs) with (requests cbs). change (existsb _ cbs) with (reads_over cbs).
  destruct Hv as [m| |]; simpl; rewrite ?app_nil_r, ?orb_false_r, ?orb_true_r.
  - destruct (Hreq (requests cbs) _ _ _ _ _ _ Hb) as (z0 & -> & Hz).
    destruct (IH z0 _ eq_refl eq_refl) as [Hz0 Hbefore]. rewrite Hbefore. destruct (Hz Hz0) as [-> Ho].
    assert (reads_over cbs = false) as -> by (rewrite Hover; by destruct st0). exact (conj eq_refl (eq_sym Ho)).
  - destruct (Hdone (requests cbs) _ _ _ _ _ Hb) as (z0 & -> & Hz).
    destruct (IH z0 _ eq_refl eq_refl) as [Hz0 Hbefore]. rewrite Hbefore. destruct (Hz Hz0) as [-> Ho].
    assert (reads_over cbs = false) as -> by (rewrite Hover; by destruct st0). by rewrite Ho.
  - rewrite Hfin in Hb. injection Hb as -> -> <-. destruct (IH z _ eq_refl eq_refl) as [? Hbefore]. rewrite Hbefore.
    by rewrite app_nil_r.
Qed.

(** A handler class that gives out no writer. *)
Record keeps_writer : Prop := {
  kw_init : ∀ c, existsb gives_writer (handler_Initialize cls c).2 = false;
  kw_call : ∀ cb body h c, virtual_call cb body → existsb gives_writer (body cls h c).2 = false
}.

Lemma replay_keeps_writer cbs h acts :
  keeps_writer → replay cls cbs h acts → existsb gives_writer acts = false.
Proof.
  intros [Hi Hc]. induction 1 as [c h c' acts Hb|cbs h before cb body c h' c' acts Hr IH Hv Hb].
  - specialize (Hi c). by rewrite Hb in Hi.
  - rewrite existsb_app, IH. specialize (Hc cb body h c Hv). by rewrite Hb in Hc.
Qed.

End handler.

(** The classes of the test. *)
Lemma sum_list_Z_snoc l m : sum_list_Z (l ++ [m]) = (sum_list_Z l + m)%Z.
Proof. induction l as [|n l IH]; simpl; [lia|]. rewrite IH. lia. Qed.

Lemma GetSumHandler_computes :
  computes GetSumHandler (λ ms, sum_list_Z ms + 10 * Z.of_nat (length ms))%Z
    (answer "/async_grpc.proto.Math/GetSum").
Proof.
  split; [by intros c z c' acts [= <- <- <-]| | |done].
  - intros ms m h c z c' acts Hr. simpl in Hr. destruct h as [sum|]; [|done]. exists sum.
    split; [done|]. intros ->. destruct c as [context|]; [|done]. unfold additional_increment in Hr.
    destruct (int_checked (_ + 10)) as [s|] eqn:Hs; [|done].
    apply int_checked_Some in Hs as [-> _].
    destruct (int_checked (_ + m)) as [s|] eqn:Hs; [|done].
    apply int_checked_Some in Hs as [-> _]. injection Hr as <- <- <-.
    rewrite sum_list_Z_snoc, length_app. simpl. split; [lia|done].
  - intros ms h c z c' acts Hr. simpl in Hr. destruct h as [sum|]; [|done]. exists sum.
    split; [done|]. intros ->. by injection Hr as <- <- <-.
Qed.

Lemma running_sums_snoc acc ms m :
  running_sums acc (ms ++ [m]) =
    running_sums acc ms ++ [acc + sum_list_Z (ms ++ [m]); acc + sum_list_Z (ms ++ [m])]%Z.
Proof.
  revert acc. induction ms as [|m' ms IH]; intros acc; simpl; [repeat f_equal; lia|].
  rewrite IH. rewrite !Z.add_assoc. done.
Qed.

Lemma GetRunningSumHandler_computes :
  computes GetRunningSumHandler sum_list_Z (answer "/async_grpc.proto.Math/GetRunningSum").
Proof.
  split; [by intros c z c' acts [= <- <- <-]| | |done].
  - intros ms m h c z c' acts Hr. simpl in Hr. destruct h as [sum|]; [|done]. exists sum.
    split; [done|]. intros ->. destruct (int_checked (_ + m)) as [s|] eqn:Hs; [|done].
    apply int_checked_Some in Hs as [-> _]. injection Hr as <- <- <-. split; [by rewrite sum_list_Z_snoc|].
    unfold answer. simpl. rewrite !app_nil_r, running_sums_snoc, fmap_app, sum_list_Z_snoc. done.
  - intros ms h c z c' acts Hr. simpl in Hr. destruct h as [sum|]; [|done]. exists sum.
    split; [done|]. intros ->. injection Hr as <- <- <-. split; [done|].
    unfold answer. simpl. by rewrite app_nil_r.
Qed.

(** A handler whose answer is the answers to the single requests. *)
Lemma per_request_computes cls (one : Z → list SendItem) out :
  handler_Initialize cls = Initialize_default →
  handler_OnReadsDone cls = OnReadsDone_default → handler_OnFinish cls = OnFinish_default →
  (∀ m h c z c' acts, handler_OnRequest cls m h c = (Some z, c', acts) →
     h = Some z ∧ omap action_item acts = one m) →
  (∀ ms over, out ms over = m ← ms; one m) →
  computes cls (λ _, 0%Z) out.
Proof.
  intros Hi Hd Hf Hr Ho. split; [| | |done].
  - rewrite Hi. intros c z c' acts [= <- <- <-]. by rewrite Ho.
  - intros ms m h c z c' acts Hreq. destruct (Hr _ _ _ _ _ _ Hreq) as [-> ->]. exists z.
    split; [done|]. intros ->. split; [done|]. rewrite !Ho, bind_app. simpl. by rewrite app_nil_r.
  - rewrite Hd. intros ms h c z c' acts [= -> <- <-]. exists z. split; [done|]. intros ->.
    split; [done|]. by rewrite !Ho, app_nil_r.
Qed.

Lemma GetSquareHandler_computes :
  computes GetSquareHandler (λ _, 0%Z) (answer "/async_grpc.proto.Math/GetSquare").
Proof.
  eapply per_request_computes; try done.
  intros m h c z c' acts. simpl. destruct h as [z0|]; [|done].
  destruct (int_checked (m * m)) as [s|] eqn:Hs; [|done]. apply int_checked_Some in Hs as [-> _].
  intros [= -> <- <-]. split; [done|]. by destruct (m <? 0)%Z.
Qed.

Lemma GetSequenceHandler_computes :
  computes GetSequenceHandler (λ _, 0%Z) (answer "/async_grpc.proto.Math/GetSequence").
Proof.
  eapply per_request_computes; try done.
  intros m h c z c' acts. simpl. destruct h as [z0|]; [|done]. intros [= -> <- <-]. split; [done|].
  rewrite omap_app. simpl. f_equal. induction (seqZ 0 m) as [|i l IH]; [done|]. exact (f_equal (cons (reply i)) IH).
Qed.

Lemma GetEchoHandler_computes :
  computes GetEchoHandler (λ _, 0%Z) (answer "/async_grpc.proto.Math/GetEcho").
Proof.
  eapply (per_request_computes _ (λ _, [])); try done.
  - intros m h c z c' acts. simpl. destruct h as [z0|]; [|done].
    destruct c as [[[r|]]|]; [done| |done]. by intros [= -> <- <-].
  - intros ms over. by induction ms.
Qed.

(** Only the handler of [GetEcho] gives out a writer. *)
Ltac keeps_writer_tac :=
  split; [done|intros ? ? ? ? []]; simpl; unfold OnReadsDone_default, OnFinish_default;
  repeat case_match; simplify_eq; try done.

Lemma GetSumHandler_keeps_writer : keeps_writer GetSumHandler.
Proof. keeps_writer_tac. Qed.
Lemma GetRunningSumHandler_keeps_writer : keeps_writer GetRunningSumHandler.
Proof. keeps_writer_tac. Qed.
Lemma GetSquareHandler_keeps_writer : keeps_writer GetSquareHandler.
Proof. keeps_writer_tac. Qed.
Lemma GetSequenceHandler_keeps_writer : keeps_writer GetSequenceHandler.
Proof.
  keeps_writer_tac. simpl. rewrite existsb_app. simpl. rewrite orb_false_r.
  by induction (seqZ 0 _) as [|i l IH].
Qed.

(** ** The server of the fixture *)

Definition math_info (request response : MathDescriptor) (cls : RpcHandlerClass) (t : RpcType)
    (method : string) : string * RpcHandlerInfo :=
  (method, mkRpcHandlerInfo request response cls t ("/async_grpc.proto.Math/" +:+ method)).

Definition Math_infos : gmap string RpcHandlerInfo := list_to_map
  [math_info GetSumRequest GetSumResponse GetSumHandler CLIENT_STREAMING "GetSum";
   math_info GetSquareRequest GetSquareResponse GetSquareHandler NORMAL_RPC "GetSquare";
   math_info GetSumRequest GetSumResponse GetRunningSumHandler BIDI_STREAMING "GetRunningSum";
   math_info GetEchoRequest GetEchoResponse GetEchoHandler NORMAL_RPC "GetEcho";
   math_info GetSequenceRequest GetSequenceResponse GetSequenceHandler SERVER_STREAMING
     "GetSequence"].

(** The builder accepts the five handlers, and the server is built. *)
Lemma SetUp_build_eq :
  SetUp_build = inr (mkServer (Options_new kNumThreads kNumThreads kServerAddress) false false
    [NotStarted] [NotStarted] 0 {[Math_name := Service_new 1 Math_infos]} None []).
Proof.
  unfold SetUp_build.
  assert (for_each builder_calls builder_call Builder_new =
    Ok tt (mkBuilder (Options_new kNumThreads kNumThreads kServerAddress)
      {[Math_name := Math_infos]})) as ->.
  { unfold builder_calls, Math_infos, math_info.
    generalize GetSumHandler, GetSquareHandler, GetRunningSumHandler, GetEchoHandler,
      GetSequenceHandler. intros. vm_compute. reflexivity. }
  rewrite Build_eq. simpl. by rewrite map_fmap_singleton.
Qed.

Definition fixture_server : Server :=
  match SetUp_build with
  | inr s => s
  | inl _ => mkServer Options_default false false [] [] 0 ∅ None []
  end.

Lemma fixture_server_eq : SetUp_build = inr fixture_server.
Proof. unfold fixture_server. by rewrite SetUp_build_eq. Qed.

Lemma fixture_server_fresh : in_phase Fresh fixture_server.
Proof.
  unfold fixture_server. rewrite SetUp_build_eq. split; simpl; try done; [by repeat constructor..|].
  intros name v [<- <-]%lookup_singleton_Some. done.
Qed.

Definition GetEcho_name : string := "/async_grpc.proto.Math/GetEcho".

(** Every method of the service computes its answer. *)
Lemma Math_infos_compute :
  map_Forall (λ _ info, (∃ sum_of,
      computes (rpc_handler_class info) sum_of (answer (fully_qualified_name info))) ∧
    (fully_qualified_name info ≠ GetEcho_name → keeps_writer (rpc_handler_class info))) Math_infos.
Proof.
  unfold Math_infos. simpl. repeat apply map_Forall_insert_2; simpl; [..|apply map_Forall_empty];
    (split; [eexists|intros Hn]).
  - apply GetSumHandler_computes.
  - apply GetSumHandler_keeps_writer.
  - apply GetSquareHandler_computes.
  - apply GetSquareHandler_keeps_writer.
  - apply GetRunningSumHandler_computes.
  - apply GetRunningSumHandler_keeps_writer.
  - apply GetEchoHandler_computes.
  - by destruct Hn.
  - apply GetSequenceHandler_computes.
  - apply GetSequenceHandler_keeps_writer.
Qed.

(** What the server has handed to gRPC for an RPC, and what it still holds. *)
Lemma math_answers s v p n x z :
  rtc server_step fixture_server s → services_ s !! Math_name = Some v →
  heap_ (service_state_ v) !! p = Some (n, x) → handler_ x = Some (Some z) →
  sent p (grpc_calls (service_state_ v)) ++ send_queue_ x =
    if decide (fully_qualified_name (rpc_handler_info_ x) = GetEcho_name) then
      items p (written (service_state_ v))
    else
      answer (fully_qualified_name (rpc_handler_info_ x))
        (requests (callbacks_of (service_state_ v) p))
        (reads_over (callbacks_of (service_state_ v) p)).
Proof.
  intros Hrun Hv Hp Hh.
  destruct (server_service_run _ _ _ _ fixture_server_fresh Hrun Hv)
    as [(v0 & Hv0 & Hm) [He|(st & c & Hst & Hcalm)]]; [rewrite He, lookup_empty in Hp; discriminate Hp|].
  pose proof (calm_run_run _ _ _ _ _ _ Hcalm) as Hr. pose proof (run_flow _ _ _ _ _ _ Hr) as F.
  rewrite <- (flow_live _ _ _ _ _ F Hp).
  destruct (run_faithful _ _ _ _ _ _ Hr) as [[Ha _] _]. specialize (Ha p). unfold account in Ha.
  rewrite Hp, Hh in Ha. destruct Ha as (Hi & acts & Hits & Hshuffle & Hg & Hw).
  assert (ordered (service_state_ v)) as Ho by (eapply calm_ordered; [exact Hst|exact Hcalm]).
  destruct (o_stage _ Ho p) as (stage & Hstage & _).
  rewrite Hm in Hi. unfold fixture_server in Hv0. rewrite SetUp_build_eq in Hv0. simpl in Hv0.
  rewrite lookup_singleton_eq in Hv0. injection Hv0 as <-. unfold methods_ in Hi.
  apply list_elem_of_fmap in Hi as ([k info] & Hinfo & Hin). rewrite map_entries_perm in Hin.
  apply elem_of_map_to_list in Hin. destruct (Math_infos_compute _ _ Hin) as [[sum_of Hc] Hk].
  simpl in *. rewrite <- Hinfo in Hc, Hk.
  pose proof (proj2 (replay_computes _ _ _ _ _ _ _ Hc Hits Hstage)) as Hans.
  destruct (decide _) as [Hecho|Hecho].
  - rewrite Hecho in Hans. symmetry. eapply shuffle_only_right; [exact Hshuffle|]. by rewrite Hans.
  - rewrite <- Hans. symmetry. eapply shuffle_only_left; [exact Hshuffle|]. apply Hw. intros Hgiven%Hg.
    rewrite (replay_keeps_writer _ _ _ _ (Hk Hecho) Hits) in Hgiven. discriminate Hgiven.
Qed.

(** C11: the Math server answers correctly.  Whatever calls are made on the
    server of the fixture, and in whatever order completions, events and
    writers' steps follow each other, each event being handled in one step, as
    long as connections succeed exactly while the service is serving and no
    RPC is removed in the middle of a writer call: between two steps, for
    every RPC that lives and whose handler has not overflowed an [int], what
    was handed to gRPC for it together with what its send queue still holds is
    the answer of its method to the requests that have arrived; for [GetEcho],
    which gives out a writer to answer later, it is exactly what was written
    with it. *)
Theorem math_server_answers s v p n x z :
  rtc server_step fixture_server s → services_ s !! Math_name = Some v →
  heap_ (service_state_ v) !! p = Some (n, x) → handler_ x = Some (Some z) →
  sent p (grpc_calls (service_state_ v)) ++ send_queue_ x =
    if decide (fully_qualified_name (rpc_handler_info_ x) = GetEcho_name) then
      items p (written (service_state_ v))
    else
      answer (fully_qualified_name (rpc_handler_info_ x))
        (requests (callbacks_of (service_state_ v) p))
        (reads_over (callbacks_of (service_state_ v) p)).
Proof. apply math_answers. Qed.

#[global] Instance SendItem_eq_dec : EqDecision SendItem.
Proof. intros [m1 s1] [m2 s2]. unfold Decision. decide equality; solve_decision. Defined.

(** ** The tests

    Steps of the server, checked by evaluation. *)
Inductive ServerAction :=
  | ACall (k : ServerCall)
  | AMath (l : Label).

Definition server_action (a : ServerAction) (s : Server) : option Server :=
  match a with
  | ACall k => match server_call k s with Ok _ s' => Some s' | Fail _ => None end
  | AMath l =>
      match services_ s !! Math_name with
      | Some v =>
          if server_ s && negb (shared_label l) && env_okb (service_view s v) l &&
             conn_okb (service_view s v) l then
            match on_service Math_name (λ _, exec l) s with
            | Ok _ s' =>
                match services_ s' !! Math_name with
                | Some v' =>
                    if no_raceb (service_view s v) (service_state_ v') then Some s' else None
                | None => None
                end
            | Fail _ => None
            end
          else None
      | None => None
      end
  end.

Fixpoint server_actions (acts : list ServerAction) (s : Server) : option Server :=
  match acts with
  | [] => Some s
  | a :: acts' => s' ← server_action a s; server_actions acts' s'
  end.

Lemma server_action_sound a s s' : server_action a s = Some s' → server_step s s'.
Proof.
  destruct a as [k|l]; simpl.
  - destruct (server_call k s) as [[] s1|] eqn:Hk; [|done]. intros [= <-]. by eapply server_step_call.
  - destruct (services_ s !! Math_name) as [v|] eqn:Hv; [|done].
    destruct (server_ s) eqn:Hs; [|done]. destruct (shared_label l) eqn:Hl; [done|].
    destruct (env_okb _ l) eqn:He; [|done]. destruct (conn_okb _ l) eqn:Hc; [|done].
    destruct (on_service _ _ s) as [[] s1|] eqn:Hx; [|done].
    destruct (services_ s1 !! Math_name) as [v'|] eqn:Hv'; [|done].
    destruct (no_raceb _ _) eqn:Hn; [|done]. intros [= <-].
    eapply server_step_service; [done..|by apply env_okb_sound|by apply conn_okb_sound|done|done|].
    by apply no_raceb_sound.
Qed.

Lemma server_actions_sound acts s s' : server_actions acts s = Some s' → rtc server_step s s'.
Proof.
  revert s. induction acts as [|a acts IH]; intros s; simpl; [by intros [= <-]|].
  destruct (server_action a s) as [s1|] eqn:Ha; [|done]. intros Hr.
  eapply rtc_l; [by eapply server_action_sound|by apply IH].
Qed.

(** [SetUp] after the construction. *)
Definition start_actions : list ServerAction :=
  [ACall (KSetExecutionContext (Some (mkMathServerContext None))); ACall KStart].

(** What arrives at the server in each test: the object that waits for the
    method is 0 for [GetEcho], 1 for [GetRunningSum], 2 for [GetSequence], 3
    for [GetSquare] and 4 for [GetSum]. *)
Definition handled (l : Label) : list ServerAction := [AMath l; AMath (LEvent 0)].

Definition connect (p : nat) (request : option Z) : list ServerAction :=
  handled (LCompletion p NEW_CONNECTION true (request : option Message)).

Definition read (p : nat) (m : Z) : list ServerAction :=
  handled (LCompletion p READ true (Some (m : Message))).

Definition reads_done (p : nat) : list ServerAction := handled (LCompletion p READ false None).

(** The write that is outstanding completes, and the next one starts. *)
Definition write_completes (p : nat) : list ServerAction := handled (LCompletion p WRITE true None).

Definition next_events (n : nat) : list ServerAction := replicate n (AMath (LEvent 0)).

Definition ProcessRpcStreamTest : list ServerAction :=
  connect 4 None ++ read 4 0 ++ read 4 1 ++ read 4 2 ++ reads_done 4 ++ next_events 1.

Definition ProcessUnaryRpcTest : list ServerAction := connect 3 (Some 11%Z) ++ next_events 1.

Definition ProcessBidiStreamingRpcTest : list ServerAction :=
  connect 1 None ++ read 1 0 ++ next_events 2 ++ read 1 1 ++ next_events 2 ++ read 1 2 ++
  next_events 2 ++ reads_done 1 ++ next_events 1 ++
  mjoin (replicate 6 (write_completes 1)).

(** Another thread calls the responder it got from the promise. *)
Definition WriteFromOtherThread : list ServerAction :=
  connect 0 (Some 13%Z) ++
  [AMath (LWriterBegin 0 (WWrite (13%Z : Message))); AMath (LWriterStep 0); AMath (LWriterStep 0);
   AMath (LWriterStep 0); AMath (LWriterStep 0)] ++ next_events 1.

Definition ProcessServerStreamingRpcTest : list ServerAction :=
  connect 2 (Some 12%Z) ++ next_events 13 ++ mjoin (replicate 12 (write_completes 2)).

Definition RetryWithUnrecoverableError : list ServerAction :=
  connect 3 (Some (-11)%Z) ++ next_events 2.

(** What is handed to gRPC for an object in a test. *)
Definition responses (acts : list ServerAction) (p : nat) : option (list SendItem) :=
  s ← server_actions (start_actions ++ acts) fixture_server;
  v ← services_ s !! Math_name;
  Some (sent p (grpc_calls (service_state_ v))).

Example server_test_responses :
  responses ProcessRpcStreamTest 4 = Some [reply 33] ∧
  responses ProcessUnaryRpcTest 3 = Some [reply 121] ∧
  responses ProcessBidiStreamingRpcTest 1 =
    Some ((reply <$> [0; 0; 1; 1; 3; 3]%Z) ++ [finish Status_OK]) ∧
  responses WriteFromOtherThread 0 = Some [reply 13] ∧
  responses ProcessServerStreamingRpcTest 2 = Some ((reply <$> seqZ 0 12) ++ [finish Status_OK]) ∧
  responses RetryWithUnrecoverableError 3 = Some [finish internal_error].
Proof. vm_compute. repeat split. Qed.

(** The state of the server in a test, when a check of it evaluates to true. *)
Lemma test_check acts p (f : World → Rpc → bool) :
  match server_actions (start_actions ++ acts) fixture_server with
  | Some s =>
      match services_ s !! Math_name with
      | Some v =>
          match heap_ (service_state_ v) !! p with
          | Some (_, x) => f (service_state_ v) x
          | None => false
          end
      | None => false
      end
  | None => false
  end = true →
  ∃ s v n x, rtc server_step fixture_server s ∧ services_ s !! Math_name = Some v ∧
    heap_ (service_state_ v) !! p = Some (n, x) ∧ f (service_state_ v) x = true.
Proof.
  destruct (server_actions _ fixture_server) as [s|] eqn:Hs; [|discriminate].
  apply server_actions_sound in Hs. destruct (services_ s !! Math_name) as [v|] eqn:Hv; [|discriminate].
  destruct (heap_ (service_state_ v) !! p) as [[n x]|] eqn:Hp; [|discriminate].
  intros Hf. exists s, v, n, x. auto.
Qed.

(** For [ProcessRpcStreamTest] and [WriteFromOtherThread]. *)
Lemma math_server_answers_witness :
  (∃ s v n x, rtc server_step fixture_server s ∧ services_ s !! Math_name = Some v ∧
    heap_ (service_state_ v) !! 4 = Some (n, x) ∧
    sent 4 (grpc_calls (service_state_ v)) ++ send_queue_ x =
      answer "/async_grpc.proto.Math/GetSum" [0; 1; 2]%Z true) ∧
  (∃ s v n x, rtc server_step fixture_server s ∧ services_ s !! Math_name = Some v ∧
    heap_ (service_state_ v) !! 0 = Some (n, x) ∧
    sent 0 (grpc_calls (service_state_ v)) ++ send_queue_ x = [reply 13]).
Proof.
  split.
  - destruct (test_check ProcessRpcStreamTest 4 (λ w x,
      bool_decide (handler_ x = Some (Some 33%Z)) &&
      bool_decide (fully_qualified_name (rpc_handler_info_ x) = "/async_grpc.proto.Math/GetSum"%string) &&
      bool_decide (requests (callbacks_of w 4) = [0; 1; 2]%Z) && reads_over (callbacks_of w 4)))
      as (s & v & n & x & Hrun & Hv & Hp & Hf); [vm_compute; reflexivity|].
    apply andb_true_iff in Hf as [Hf Ho]. apply andb_true_iff in Hf as [Hf Hr].
    apply andb_true_iff in Hf as [Hh Hn]. apply bool_decide_eq_true in Hr, Hn, Hh.
    exists s, v, n, x. split; [exact Hrun|]. split; [exact Hv|]. split; [exact Hp|].
    rewrite (math_server_answers s v 4 n x 33%Z Hrun Hv Hp Hh), Hn, Hr, Ho. reflexivity.
  - destruct (test_check WriteFromOtherThread 0 (λ w x,
      bool_decide (handler_ x = Some (Some 0%Z)) &&
      bool_decide (fully_qualified_name (rpc_handler_info_ x) = GetEcho_name) &&
      bool_decide (items 0 (written w) = [reply 13])))
      as (s & v & n & x & Hrun & Hv & Hp & Hf); [vm_compute; reflexivity|].
    apply andb_true_iff in Hf as [Hf Hr]. apply andb_true_iff in Hf as [Hh Hn].
    apply bool_decide_eq_true in Hr, Hn, Hh.
    exists s, v, n, x. split; [exact Hrun|]. split; [exact Hv|]. split; [exact Hp|].
    rewrite (math_server_answers s v 0 n x 0%Z Hrun Hv Hp Hh), Hn. exact Hr.
Defined.

(** The run of the service inside the server. *)
Lemma math_service_run s v p n x :
  rtc server_step fixture_server s → services_ s !! Math_name = Some v →
  heap_ (service_state_ v) !! p = Some (n, x) →
  ∃ infos cqs k st c, run infos cqs k st c (service_state_ v).
Proof.
  intros Hrun Hv Hp. destruct (server_service_run _ _ _ _ fixture_server_fresh Hrun Hv)
    as [_ [He|(st & c & Hst & Hcalm)]]; [rewrite He, lookup_empty in Hp; discriminate Hp|].
  do 5 eexists. exact (calm_run_run _ _ _ _ _ _ Hcalm).
Qed.

(** The RPC of [WriteFromOtherThread]: its handler asked for nothing but a
    writer, and the answer is what was written with it. *)
Lemma handlers_faithful_witness :
  ∃ w n x acts, heap_ w !! 0 = Some (n, x) ∧ requests (callbacks_of w 0) = [13]%Z ∧
    replay (rpc_handler_class (rpc_handler_info_ x)) (callbacks_of w 0) (Some 0%Z) acts ∧
    shuffle (omap action_item acts) [reply 13] (sent 0 (grpc_calls w) ++ send_queue_ x).
Proof.
  destruct (test_check WriteFromOtherThread 0 (λ w x,
    bool_decide (handler_ x = Some (Some 0%Z)) && bool_decide (items 0 (written w) = [reply 13]) &&
    bool_decide (requests (callbacks_of w 0) = [13]%Z)))
    as (s & v & n & x & Hrun & Hv & Hp & Hf); [vm_compute; reflexivity|].
  apply andb_true_iff in Hf as [Hf Hr]. apply andb_true_iff in Hf as [Hh Hw].
  apply bool_decide_eq_true in Hr, Hh, Hw.
  destruct (math_service_run s v 0 n x Hrun Hv Hp) as (infos & cqs & k & st & c & Hs).
  destruct (handlers_faithful infos cqs k st c (service_state_ v) 0 Hs) as [_ Hx].
  rewrite Hp, Hh in Hx. destruct Hx as (_ & acts & Hits & Hsh & _).
  exists (service_state_ v), n, x, acts. split; [exact Hp|]. split; [exact Hr|].
  split; [exact Hits|]. rewrite Hw in Hsh. exact Hsh.
Defined.

Example StartAndStopServerTest :
  match SetUp with inr s => is_ok (TearDown s) | inl _ => false end = true.
Proof. vm_compute. reflexivity. Qed.
