(* ===== verification/ClientServer.v ===== *)
(** * Clients talking to the Math server

    The blocking clients of [Client] over a channel whose other end is the
    server of the fixture.  What gRPC promises about the way between the two
    is stated as hypotheses on the channel: what a client gets is what the
    server handed to gRPC in some call, in order.  The theorems then say what
    the calls of src/async_grpc/server_test.cc return for any input. *)

From Stdlib Require Import ZArith Lia.
From stdpp Require Import base option list strings gmap.
From S2P Require Import Prelude Interfaces Time Retry Rpc TypeTraits RoundRobin Service ServiceFlow.
From S2P Require Import ServiceOrder ServiceExamples ServerLife MathService AsyncClient AsyncPool.
From S2P Require Import Client StreamClients.
Import Event.

Set Default Proof Using "Type".

#[local] Existing Instance example_status.
#[local] Existing Instance math_application.

(** ** The classes behind [Client] and [AsyncClient]

    [Client<Concept>] is the specialisation for the streaming type of the
    traits of [Concept]; a new object holds a default response.  [AsyncClient]
    has two specialisations, and otherwise is an empty class. *)
Inductive BlockingClient :=
  | NormalClient (c : UnaryClient)
  | ClientStreamingObject (c : ClientStreamingClient)
  | ServerStreamingObject (c : ServerStreamingClient)
  | BidiObject (c : BidiClient).

Definition Client_of (concept : CppClass) : StaticAssert + BlockingClient :=
  match traits_of concept with
  | inl e => inl e
  | inr t =>
      let response := GetPrototype_New (ResponseType t) in
      inr (match StreamType t with
           | NORMAL_RPC => NormalClient (UnaryClient_new response)
           | CLIENT_STREAMING => ClientStreamingObject (ClientStreaming_new (MethodName t) response)
           | SERVER_STREAMING => ServerStreamingObject (ServerStreaming_new (MethodName t))
           | BIDI_STREAMING => BidiObject (Bidi_new (MethodName t))
           end)
  end.

Definition AsyncClient_of (concept : CppClass) : StaticAssert + option AsyncObject :=
  match traits_of concept with
  | inl e => inl e
  | inr t =>
      inr (match StreamType t with
           | NORMAL_RPC =>
               Some (UnaryClient_ (AsyncUnary_new Status_OK (GetPrototype_New (ResponseType t))))
           | SERVER_STREAMING => Some (StreamClient_ (AsyncStream_new Status_OK))
           | CLIENT_STREAMING | BIDI_STREAMING => None
           end)
  end.

Definition GetSum_name : string := "/async_grpc.proto.Math/GetSum".
Definition GetSquare_name : string := "/async_grpc.proto.Math/GetSquare".
Definition GetRunningSum_name : string := "/async_grpc.proto.Math/GetRunningSum".
Definition GetSequence_name : string := "/async_grpc.proto.Math/GetSequence".

(** In some run of the server there is a call of [method] in which the
    requests [reqs] have arrived ([over]: and the client has said that there
    are no more), and for which the server has handed [its] to gRPC. *)
Definition served (method : string) (reqs : list Z) (over : bool) (its : list SendItem) : Prop :=
  ∃ s v p n x z,
    rtc server_step fixture_server s ∧ services_ s !! Math_name = Some v ∧
    heap_ (service_state_ v) !! p = Some (n, x) ∧ handler_ x = Some (Some z) ∧
    fully_qualified_name (rpc_handler_info_ x) = method ∧
    requests (callbacks_of (service_state_ v) p) = reqs ∧
    reads_over (callbacks_of (service_state_ v) p) = over ∧
    sent p (grpc_calls (service_state_ v)) = its.

Lemma served_prefix method reqs over its :
  served method reqs over its → method ≠ GetEcho_name →
  ∃ rest, its ++ rest = answer method reqs over.
Proof.
  intros (s & v & p & n & x & z & Hrun & Hv & Hp & Hh & <- & <- & <- & <-) Hne.
  exists (send_queue_ x). rewrite (math_answers s v p n x z Hrun Hv Hp Hh). by rewrite decide_False.
Qed.

(** The same for a call of [GetEcho], for which the threads that got the
    responder from the promise have written the value of the request. *)
Definition echoed (request : Z) (its : list SendItem) : Prop :=
  ∃ s v p n x z,
    rtc server_step fixture_server s ∧ services_ s !! Math_name = Some v ∧
    heap_ (service_state_ v) !! p = Some (n, x) ∧ handler_ x = Some (Some z) ∧
    fully_qualified_name (rpc_handler_info_ x) = GetEcho_name ∧
    requests (callbacks_of (service_state_ v) p) = [request] ∧
    Forall (eq (reply request)) (items p (written (service_state_ v))) ∧
    sent p (grpc_calls (service_state_ v)) = its.

Lemma echoed_first request it its : echoed request (it :: its) → it = reply request.
Proof.
  intros (s & v & p & n & x & z & Hrun & Hv & Hp & Hh & Hm & _ & Hall & Hs).
  pose proof (math_answers s v p n x z Hrun Hv Hp Hh) as Ha.
  rewrite decide_True, Hs in Ha by done. rewrite <- Ha in Hall. by apply Forall_cons in Hall as [<- _].
Qed.

Section wire.
Context `{!Channel}.

(** ** What the channel promises *)

(** The result of a call with one response is the first thing the server
    handed over: a response with a status, or only a status.  (For a method
    with one request the framework announces the end of the requests right
    after it.) *)
Definition carried (it : SendItem) (st : Status) (m : Message) : Prop :=
  st = status it ∧ match msg it with Some m' => m = m' | None => True end.

Definition unary_wire (calls_for : list SendItem → Prop) (request : Z) : Prop :=
  ∀ i st m, BlockingUnaryCall i request = (st, m) →
    ∃ it its, calls_for (it :: its) ∧ carried it st m.

(** For a client that streams, of the status that [Finish] reports: unless
    it is an error, the server has seen all requests and their end. *)
Definition finish_wire (method : string) (reqs : list Z) (i : nat) : Prop :=
  ∀ st m, stream_Finish i = (st, m) → status_ok st = true →
    ∃ it its, served method reqs true (it :: its) ∧ carried it st m.

(** A server that streams: the reads from the [base]-th operation on return
    the messages in order and then fail, and [Finish] reports the status the
    server finished with. *)
Record stream_wire (method : string) (reqs : list Z) (over : bool) (base : nat)
    (its : list SendItem) : Prop := {
  sw_served : served method reqs over its;
  sw_read : ∀ j, stream_Read (base + j) = its !! j ≫= msg;
  sw_finish : ∀ i, last its = Some (finish (stream_Finish i).1)
}.

(** ** The calls of the tests *)

(** [ProcessRpcStreamTest]. *)
Definition sum_client (inputs : list Z) : M ClientStreamingClient Status :=
  for_each inputs (λ i, ClientStreaming_Write (i : Message) ;; mret tt) ;;
  ClientStreaming_StreamWritesDone ;;
  ClientStreaming_StreamFinish.

(** [while (client.StreamRead(&response))]; [None] if the fuel does not
    suffice. *)
Fixpoint read_all {C} (fuel : nat) (read : M C (option Message)) (c : C) :
    option (outcome C (list Message)) :=
  match fuel with
  | 0 => None
  | S fuel' =>
      match read c with
      | Fail f => Some (Fail f)
      | Ok None c' => Some (Ok [] c')
      | Ok (Some m) c' =>
          match read_all fuel' read c' with
          | Some (Ok ms c'') => Some (Ok (m :: ms) c'')
          | r => r
          end
      end
  end.

(** Reads everything, then finishes: the responses and the status. *)
Definition read_and_finish {C} (fuel : nat) (read : M C (option Message)) (finish : M C Status)
    (c : C) : option (outcome C (list Message * Status)) :=
  match read_all fuel read c with
  | None => None
  | Some (Fail f) => Some (Fail f)
  | Some (Ok ms c') =>
      match finish c' with
      | Ok st c'' => Some (Ok (ms, st) c'')
      | Fail f => Some (Fail f)
      end
  end.

(** [ProcessBidiStreamingRpcTest]. *)
Definition running_sum_client (fuel : nat) (inputs : list Z) (c : BidiClient) :
    option (outcome BidiClient (list Message * Status)) :=
  match (for_each inputs (λ i, Bidi_Write (i : Message) ;; mret tt) ;; Bidi_StreamWritesDone) c with
  | Fail f => Some (Fail f)
  | Ok _ c1 => read_and_finish fuel Bidi_StreamRead Bidi_StreamFinish c1
  end.

(** [ProcessServerStreamingRpcTest], reading until a read fails. *)
Definition sequence_client (fuel : nat) (input : Z) (c : ServerStreamingClient) :
    option (outcome ServerStreamingClient (list Message * Status)) :=
  match ServerStreaming_Write (input : Message) c with
  | Fail f => Some (Fail f)
  | Ok _ c1 => read_and_finish fuel ServerStreaming_StreamRead ServerStreaming_StreamFinish c1
  end.

(** ** Unary calls *)

Lemma square_answer request it its :
  served GetSquare_name [request] true (it :: its) →
  it = (if (request <? 0)%Z then finish internal_error else reply (request * request)).
Proof.
  intros Hs. destruct (served_prefix _ _ _ _ Hs) as (rest & Hr); [done|].
  unfold answer in Hr. simpl in Hr.
  by destruct (request <? 0)%Z; injection Hr as -> _.
Qed.

Lemma square_client_answer delay codes now (request : Z) c :
  unary_wire (served GetSquare_name [request] true) request →
  retry_strategy_ c = Some (CreateUnlimitedConstantDelayStrategy_codes delay codes) →
  StatusCode_INTERNAL ∈ codes → (∃ d, compute_deadline now (timeout_ c) = inr d) →
  ∃ c', UnaryClient_Write 1 now (request : Message) c =
      Some (Ok (0 <=? request, if 0 <=? request then Status_OK else internal_error)%Z c') ∧
    length (calls c') = S (length (calls c)) ∧
    ((0 ≤ request)%Z → response_ c' = (request * request)%Z).
Proof.
  intros Hw Hst Hin [deadline Hd]. unfold UnaryClient_Write. rewrite Hd. simpl.
  unfold RetryWithStrategy. simpl. unfold RetryWithStrategy_body, UnaryClient_WriteImpl at 1.
  unfold mbind, M_bind. simpl.
  destruct (BlockingUnaryCall _ _) as [st m] eqn:Hb.
  destruct (Hw _ _ _ Hb) as (it & its & Hs & -> & Hm). apply square_answer in Hs as ->.
  rewrite Hst. destruct (0 <=? request)%Z eqn:Hneg.
  - assert ((request <? 0)%Z = false) as E by lia. rewrite E in *. simpl in *. subst m.
    eexists. split_and!; [done|simpl; rewrite length_app; simpl; lia|done].
  - assert ((request <? 0)%Z = true) as E by lia. rewrite E in *. simpl in *.
    unfold CreateUnlimitedConstantDelayStrategy_codes, CreateRetryStrategy,
      CreateUnlimitedRetryIndicator_codes. simpl.
    rewrite bool_decide_eq_false_2 by (by intros Hn).
    eexists. split_and!; [done|simpl; rewrite length_app; simpl; lia|lia].
Qed.

Lemma echo_client_answer now (request : Z) r :
  unary_wire (echoed request) request →
  ∃ c', UnaryClient_Write 1 now (request : Message) (UnaryClient_new r) =
      Some (Ok (true, Status_OK) c') ∧
    length (calls c') = 1 ∧ response_ c' = (request : Message).
Proof.
  intros Hw. unfold UnaryClient_Write, RetryWithStrategy. simpl.
  unfold RetryWithStrategy_body, UnaryClient_WriteImpl at 1, mbind, M_bind. simpl.
  destruct (BlockingUnaryCall _ _) as [st m] eqn:Hb.
  destruct (Hw _ _ _ Hb) as (it & its & ->%echoed_first & -> & Hm). simpl in *. subst m.
  eexists. split_and!; done.
Qed.

(** ** Client streaming *)

(** A client of [GetSum] whose stream exists. *)
Definition summing (ops : list StreamOp) (r : Z) : ClientStreamingClient :=
  mkClientStreaming (streaming GetSum_name CLIENT_STREAMING ops) (r : Message).

Lemma cs_writes_instantiated (ms : list Z) r ops :
  for_each ms (λ i, ClientStreaming_Write (i : Message) ;; mret tt) (summing ops r) =
    Ok tt (summing (ops ++ (OpWrite <$> (ms : list Message))) r).
Proof.
  revert ops. induction ms as [|m ms IH]; intros ops; cbn [for_each]; [by rewrite app_nil_r|].
  etransitivity; [exact (IH (ops ++ [OpWrite (m : Message)]))|]. by rewrite <- app_assoc.
Qed.

Lemma sum_client_answer (inputs : list Z) (r : Z) :
  finish_wire GetSum_name inputs (S (S (length inputs))) →
  ∃ st c', sum_client inputs (ClientStreaming_new GetSum_name (r : Message)) = Ok st c' ∧
    (status_ok st = true →
     st = Status_OK ∧ stream_response_ c' = (sum_list_Z inputs + 10 * Z.of_nat (length inputs))%Z).
Proof.
  intros Hw.
  assert (∃ a, (for_each inputs (λ i, ClientStreaming_Write (i : Message) ;; mret tt) ;;
    ClientStreaming_StreamWritesDone) (ClientStreaming_new GetSum_name (r : Message)) =
    Ok a (summing (OpCreate GetSum_name CLIENT_STREAMING 0 None ::
      (OpWrite <$> (inputs : list Message)) ++ [OpWritesDone]) r)) as [a Ha].
  { destruct inputs as [|m ms]; [by eexists|]. eexists. unfold mbind at 1, M_bind at 1.
    match goal with |- match ?x with _ => _ end = _ => assert (x = Ok tt (summing
      (OpCreate GetSum_name CLIENT_STREAMING 0 None :: OpWrite m :: (OpWrite <$> ms)) r)) as -> end;
      [exact (cs_writes_instantiated ms r [OpCreate GetSum_name CLIENT_STREAMING 0 None; OpWrite m])|].
    reflexivity. }
  unfold sum_client. unfold mbind, M_bind in *. destruct (for_each _ _ _) as [[] c1|]; [|done].
  rewrite Ha. unfold ClientStreaming_StreamFinish, InstantiateClientWriterIfNeeded, create_if_needed,
    on_writer, stream_call, mbind, M_bind, get. simpl. rewrite length_app, length_fmap. simpl.
  rewrite Nat.add_1_r.
  destruct (stream_Finish (S (S (length inputs)))) as [st m] eqn:Hf. simpl.
  do 2 eexists. split; [done|]. intros Hok.
  destruct (Hw st m Hf Hok) as (it & its & Hs & -> & Hm).
  destruct (served_prefix _ _ _ _ Hs) as (rest & Hr); [done|].
  unfold answer in Hr. simpl in Hr. injection Hr as -> _. exact (conj eq_refl Hm).
Qed.

(** ** Reading a stream *)

(** A list of items that ends with its first status. *)
Lemma prefix_with_finish (ms : list Z) its rest st st' :
  its ++ rest = (reply <$> ms) ++ [finish st] → last its = Some (finish st') →
  its = (reply <$> ms) ++ [finish st] ∧ st' = st.
Proof.
  revert its. induction ms as [|m ms IH]; intros its; simpl.
  - destruct its as [|it [|it' its]]; [done| |by destruct its]. simpl.
    intros [= -> _] [= <-]. done.
  - destruct its as [|it its]; [done|]. intros [= -> He] Hl. destruct its as [|it' its]; [done|].
    destruct (IH (it' :: its) He) as [-> ->]; [by rewrite last_cons_cons in Hl|]. done.
Qed.

(** Reading and finishing a stream on which the server has sent [ms]. *)
Lemma read_list name t (read : M StreamMembers (option Message)) fin (ms : list Z) its fuel ops :
  (∀ ops, read (streaming name t ops) =
     Ok (stream_Read (length ops)) (streaming name t (ops ++ [OpRead]))) →
  (∀ ops, fin (streaming name t ops) =
     Ok (stream_Finish (length ops)).1 (streaming name t (ops ++ [OpFinish]))) →
  (∀ j, stream_Read (length ops + j) = its !! j ≫= msg) →
  (∀ i, (stream_Finish i).1 = Status_OK) →
  its = (reply <$> ms) ++ [finish Status_OK] → length ms < fuel →
  ∃ ops', read_and_finish fuel read fin (streaming name t ops) =
    Some (Ok (ms : list Message, Status_OK) (streaming name t ops')).
Proof.
  intros Hread Hfin Hw Hst Hits Hf. unfold read_and_finish.
  enough (∃ ops', read_all fuel read (streaming name t ops) =
    Some (Ok (ms : list Message) (streaming name t ops'))) as [ops' ->].
  { rewrite Hfin, Hst. eauto. }
  revert its fuel ops Hw Hits Hf. induction ms as [|m ms IH]; intros its fuel ops Hw Hits Hf;
    (destruct fuel as [|fuel]; [simpl in Hf; lia|]); cbn [read_all]; rewrite Hread;
    rewrite <- (Nat.add_0_r (length ops)), (Hw 0), Hits; simpl; [eauto|].
  destruct (IH ((reply <$> ms) ++ [finish Status_OK]) fuel (ops ++ [OpRead])) as [ops' ->];
    [|done|simpl in Hf; lia|eauto].
  intros j. rewrite length_app. simpl. specialize (Hw (S j)). rewrite Hits in Hw.
  transitivity (stream_Read (length ops + S j)); [f_equal; lia|]. exact Hw.
Qed.

(** What the wire carries when the whole answer is [ms] and an OK status. *)
Lemma stream_wire_answer method reqs over base its (ms : list Z) :
  stream_wire method reqs over base its →
  answer method reqs over = (reply <$> ms) ++ [finish Status_OK] →
  its = (reply <$> ms) ++ [finish Status_OK] ∧ ∀ i, (stream_Finish i).1 = Status_OK.
Proof.
  intros [Hs _ Hfin] Ha. destruct (served_prefix _ _ _ _ Hs) as [rest Hr].
  { intros ->. by destruct ms. }
  rewrite Ha in Hr.
  destruct (prefix_with_finish ms its rest Status_OK _ Hr (Hfin 0)) as [Hits _]. split; [done|].
  intros i. specialize (Hfin i). rewrite Hits, last_snoc in Hfin. by injection Hfin as Hfin.
Qed.

Lemma bidi_writes_instantiated (ms : list Z) name ops :
  for_each ms (λ i, Bidi_Write (i : Message) ;; mret tt) (streaming name BIDI_STREAMING ops) =
    Ok tt (streaming name BIDI_STREAMING (ops ++ (OpWrite <$> (ms : list Message)))).
Proof.
  revert ops. induction ms as [|m ms IH]; intros ops; cbn [for_each]; [by rewrite app_nil_r|].
  etransitivity; [exact (IH (ops ++ [OpWrite (m : Message)]))|]. by rewrite <- app_assoc.
Qed.

Lemma length_running_sums acc ms : length (running_sums acc ms) = 2 * length ms.
Proof. revert acc. induction ms as [|m ms IH]; intros acc; simpl; [done|]. rewrite IH. lia. Qed.

Lemma running_sum_client_answer (inputs : list Z) its fuel :
  stream_wire GetRunningSum_name inputs true (S (S (length inputs))) its →
  2 * length inputs < fuel →
  ∃ c', running_sum_client fuel inputs (Bidi_new GetRunningSum_name) =
    Some (Ok (running_sums 0 inputs : list Message, Status_OK) c').
Proof.
  intros Hw Hf.
  destruct (stream_wire_answer _ _ _ _ _ (running_sums 0 inputs) Hw eq_refl) as [Hits Hst].
  assert (∃ a, (for_each inputs (λ i, Bidi_Write (i : Message) ;; mret tt) ;;
    Bidi_StreamWritesDone) (Bidi_new GetRunningSum_name) =
    Ok a (streaming GetRunningSum_name BIDI_STREAMING (OpCreate GetRunningSum_name BIDI_STREAMING 0 None ::
      (OpWrite <$> (inputs : list Message)) ++ [OpWritesDone]))) as [a Ha].
  { destruct inputs as [|m ms]; [by eexists|]. eexists. unfold mbind at 1, M_bind at 1.
    match goal with |- match ?x with _ => _ end = _ =>
      assert (x = Ok tt (streaming GetRunningSum_name BIDI_STREAMING
        (OpCreate GetRunningSum_name BIDI_STREAMING 0 None :: OpWrite m :: (OpWrite <$> ms)))) as -> end;
      [exact (bidi_writes_instantiated ms _
         [OpCreate GetRunningSum_name BIDI_STREAMING 0 None; OpWrite m])|].
    reflexivity. }
  unfold running_sum_client. rewrite Ha. clear Ha.
  match goal with |- context [streaming _ _ ?ops] =>
    destruct (read_list GetRunningSum_name BIDI_STREAMING Bidi_StreamRead Bidi_StreamFinish
      (running_sums 0 inputs) its fuel ops) as [ops' Hx]; try done;
      [| |exists (streaming GetRunningSum_name BIDI_STREAMING ops'); exact Hx] end.
  - intros j. rewrite <- (sw_read _ _ _ _ _ Hw). f_equal. simpl. rewrite length_app, length_fmap.
    simpl. lia.
  - by rewrite length_running_sums.
Qed.

Lemma sequence_client_answer (input : Z) its fuel :
  stream_wire GetSequence_name [input] true 1 its → Z.to_nat input < fuel →
  ∃ c', sequence_client fuel input (ServerStreaming_new GetSequence_name) =
    Some (Ok (seqZ 0 input : list Message, Status_OK) c').
Proof.
  intros Hw Hf.
  destruct (stream_wire_answer _ _ _ _ _ (seqZ 0 input) Hw) as [Hits Hst].
  { unfold answer. simpl. by rewrite app_nil_r. }
  pose proof (λ o, read_list GetSequence_name SERVER_STREAMING ServerStreaming_StreamRead
    ServerStreaming_StreamFinish (seqZ 0 input) its fuel
    [OpCreate GetSequence_name SERVER_STREAMING 0 (Some o)]) as Hx.
  destruct (Hx input) as [ops' Hops]; try done.
  - exact (sw_read _ _ _ _ _ Hw).
  - by rewrite length_seqZ.
  - exists (streaming GetSequence_name SERVER_STREAMING ops'). exact Hops.
Qed.

End wire.

(** C13: unary calls over the wire, on channels on which every call gets the
    first answer that the server hands to gRPC for it, in a run in which its
    handler does not overflow an [int]: no call ends with an error of the
    transport or at its deadline.  A client of [GetSquare] with a strategy of
    the kind of the test [RetryWithUnrecoverableError], unlimited but for some
    codes, [INTERNAL] among them, whose deadline can be computed, makes
    exactly one call and returns: true, with the square as the response, if
    the input is not negative; false, with the server's own error, if it is.
    The client of [WriteFromOtherThread] makes exactly one call and returns
    true with what it sent, provided that all that other threads write with
    the writer of the RPC is the value of the request. *)
Theorem unary_clients_correct (ch1 ch2 : Channel) delay codes now (request value : Z) c :
  unary_wire (H:=ch1) (served GetSquare_name [request] true) request →
  unary_wire (H:=ch2) (echoed value) value →
  retry_strategy_ c = Some (CreateUnlimitedConstantDelayStrategy_codes delay codes) →
  StatusCode_INTERNAL ∈ codes → (∃ d, compute_deadline now (timeout_ c) = inr d) →
  (∃ c', UnaryClient_Write (H1:=ch1) 1 now (request : Message) c =
      Some (Ok (0 <=? request, if 0 <=? request then Status_OK else internal_error)%Z c') ∧
    length (calls c') = S (length (calls c)) ∧
    ((0 ≤ request)%Z → response_ c' = (request * request)%Z)) ∧
  match Client_of GetEchoMethod with
  | inr (NormalClient c2) =>
      ∃ c', UnaryClient_Write (H1:=ch2) 1 now (value : Message) c2 = Some (Ok (true, Status_OK) c') ∧
        length (calls c') = 1 ∧ response_ c' = (value : Message)
  | _ => False
  end.
Proof.
  intros Hsq Hecho Hst Hin Hd. split; [by apply (square_client_answer delay codes)|].
  exact (echo_client_answer now value 0%Z Hecho).
Qed.

(** C12: streams over the wire.  The clients of the tests of the blocking
    clients of streaming methods, each on a channel of its own that carries
    what the server hands to gRPC in a run in which its handler does not
    overflow an [int].  [ProcessRpcStreamTest] returns; if the status it gets
    is not an error, it is the server's OK, and the response is the sum of the
    inputs plus ten for each of them.  In [ProcessBidiStreamingRpcTest] the
    reads return the running sums, each twice, and in
    [ProcessServerStreamingRpcTest] the numbers from zero below the input, in
    order; on these two channels the stream arrives up to its end, so that
    then a read fails, and the status is OK. *)
Theorem stream_clients_correct (ch1 ch2 ch3 : Channel) (inputs : list Z) (input : Z) sums numbers
    fuel :
  finish_wire (H:=ch1) GetSum_name inputs (S (S (length inputs))) →
  stream_wire (H:=ch2) GetRunningSum_name inputs true (S (S (length inputs))) sums →
  stream_wire (H:=ch3) GetSequence_name [input] true 1 numbers →
  2 * length inputs < fuel → Z.to_nat input < fuel →
  match Client_of GetSumMethod, Client_of GetRunningSumMethod, Client_of GetSequenceMethod with
  | inr (ClientStreamingObject c1), inr (BidiObject c2), inr (ServerStreamingObject c3) =>
      (∃ st c', sum_client (H:=ch1) inputs c1 = Ok st c' ∧ (status_ok st = true →
         st = Status_OK ∧ stream_response_ c' = (sum_list_Z inputs + 10 * Z.of_nat (length inputs))%Z)) ∧
      (∃ c', running_sum_client (H:=ch2) fuel inputs c2 =
         Some (Ok (running_sums 0 inputs : list Message, Status_OK) c')) ∧
      (∃ c', sequence_client (H:=ch3) fuel input c3 =
         Some (Ok (seqZ 0 input : list Message, Status_OK) c'))
  | _, _, _ => False
  end.
Proof.
  intros Hsum Hrun Hseq Hf1 Hf2.
  exact (conj (sum_client_answer inputs 0%Z Hsum) (conj
    (running_sum_client_answer inputs sums fuel Hrun Hf1)
    (sequence_client_answer input numbers fuel Hseq Hf2))).
Qed.

(** ** Asynchronous clients *)

(** The tags gRPC returns to a client that reads a stream of the items [its],
    in the order of the requests the client makes: the write, a read for each
    message, a read that fails, the finish. *)
Definition stream_completions (its : list SendItem) (st : Status) :
    list (ClientEvent.Event * bool * Message * Status) :=
  [(ClientEvent.WRITE, true, 0%Z, Status_OK)] ++
  ((λ m, (ClientEvent.READ, true, m, Status_OK)) <$> omap msg its) ++
  [(ClientEvent.READ, false, 0%Z, Status_OK); (ClientEvent.FINISH, true, 0%Z, st)].

Lemma stream_exec_app ls1 ls2 c :
  stream_exec (ls1 ++ ls2) c = stream_exec ls1 c ≫= stream_exec ls2.
Proof.
  revert c. induction ls1 as [|[[[e ok] m] st] ls1 IH]; intros c; [done|].
  cbn [app stream_exec]. destruct (decide _); [|done].
  destruct (AsyncStream_complete e ok m st c); [apply IH|done].
Qed.

Lemma stream_exec_reads (ms : list Z) re fs lg rc :
  ∃ re', stream_exec ((λ m, (ClientEvent.READ, true, m, Status_OK)) <$> (ms : list Message))
      (mkAsyncStream true true re fs [ClientEvent.READ] lg rc) =
    Some (mkAsyncStream true true re' fs [ClientEvent.READ]
      (lg ++ ((λ m : Message, (Status_OK, Some m)) <$> ms)) (rc ++ ms)).
Proof.
  revert re lg rc. induction ms as [|m ms IH]; intros re lg rc.
  { exists re. by rewrite !app_nil_r. }
  cbn [fmap list_fmap stream_exec]. rewrite decide_True by set_solver.
  destruct (IH (Some m) (lg ++ [(Status_OK, Some m)]) (rc ++ [m])) as [re' Hx]. exists re'.
  rewrite <- !app_assoc in Hx. exact Hx.
Qed.

Lemma messages_reply (ms : list Z) st : omap msg ((reply <$> ms) ++ [finish st]) = ms.
Proof. induction ms as [|m ms IH]; [done|]. exact (f_equal (cons m) IH). Qed.

(** C14: asynchronous clients, when gRPC returns to them what the server hands
    to gRPC in a run in which its handler does not overflow an [int].  For the
    client of the test [AsyncClientUnary] the callback is called once: with
    status OK and the square, or, if the input is negative, with the server's
    own error and no response.  For the client of
    [AsyncClientServerStreaming], whose stream arrives up to its end: the
    callback gets the numbers from zero below the input in order, each with
    status OK, and then the end of the stream. *)
Theorem async_clients_correct (input : Z) st st' (m : Z) it its stream :
  served GetSquare_name [input] true (it :: its) → carried it st (m : Message) →
  served GetSequence_name [input] true stream → last stream = Some (finish st') →
  match AsyncClient_of GetSquareMethod, AsyncClient_of GetSequenceMethod with
  | inr (Some (UnaryClient_ c1)), inr (Some (StreamClient_ c2)) =>
      (∃ c c', AsyncUnary_WriteAsync (input : Message) c1 = Ok tt c ∧
         AsyncUnary_complete ClientEvent.FINISH st (m : Message) c = Ok tt c' ∧
         u_log c' = [if (0 <=? input)%Z then (Status_OK, Some ((input * input)%Z : Message))
                     else (internal_error, None)]) ∧
      (∃ c c', AsyncStream_WriteAsync (input : Message) c2 = Ok tt c ∧
         stream_exec (stream_completions stream st') c = Some c' ∧ stream_tags c' = [] ∧
         stream_log c' = ((λ i : Message, (Status_OK, Some i)) <$> (seqZ 0 input : list Message)) ++
           [(Status_OK, None)])
  | _, _ => False
  end.
Proof.
  intros Hq%square_answer [-> Hm] Hs Hl. refine (conj _ _).
  { rewrite Z.leb_antisym. destruct (input <? 0)%Z; subst it; [|simpl in Hm; subst m];
      do 2 eexists; split_and!; done. }
  destruct (served_prefix _ _ _ _ Hs) as [rest Hr]; [done|]. unfold answer in Hr. simpl in Hr.
  rewrite app_nil_r in Hr.
  destruct (prefix_with_finish (seqZ 0 input) stream rest Status_OK _ Hr Hl) as [Hits _].
  destruct (stream_exec_reads (seqZ 0 input) None Status_OK [] []) as [re' Hx].
  do 2 eexists. split; [done|]. unfold stream_completions. rewrite Hits, messages_reply.
  split; [|split].
  - rewrite stream_exec_app. change (stream_exec [_] _) with
      (Some (mkAsyncStream true true None Status_OK [ClientEvent.READ] [] [])).
    cbn [option_bind mbind]. rewrite stream_exec_app.
    etransitivity; [exact (f_equal (λ o, o ≫= stream_exec _) Hx)|]. reflexivity.
  - reflexivity.
  - reflexivity.
Qed.

(** ** A channel to the server

    The channel of the witnesses: the answers are those of the runs of the
    server in [MathService]. *)

Definition running_items : list SendItem := (reply <$> [0; 0; 1; 1; 3; 3]%Z) ++ [finish Status_OK].

#[local] Instance math_channel : Channel := {|
  BlockingUnaryCall := λ _ m, if (m <? 0)%Z then (internal_error, 0%Z) else (Status_OK, (m * m)%Z);
  stream_Write := λ _ _, true;
  stream_Read := λ i, running_items !! (i - 5) ≫= msg;
  stream_WritesDone := λ _, true;
  stream_Finish := λ _, (Status_OK, 33%Z)
|}.

Definition served_in (method : string) (reqs : list Z) (over : bool) (its : list SendItem)
    (p : nat) (w : World) (x : Rpc) : bool :=
  match handler_ x with Some (Some _) => true | _ => false end &&
  bool_decide (fully_qualified_name (rpc_handler_info_ x) = method) &&
  bool_decide (requests (callbacks_of w p) = reqs) &&
  bool_decide (reads_over (callbacks_of w p) = over) &&
  bool_decide (sent p (grpc_calls w) = its).

Lemma served_check acts p method reqs over its :
  match server_actions (start_actions ++ acts) fixture_server with
  | Some s =>
      match services_ s !! Math_name with
      | Some v =>
          match heap_ (service_state_ v) !! p with
          | Some (_, x) => served_in method reqs over its p (service_state_ v) x
          | None => false
          end
      | None => false
      end
  | None => false
  end = true → served method reqs over its.
Proof.
  intros Hc. destruct (test_check acts p (served_in method reqs over its p) Hc)
    as (s & v & n & x & Hrun & Hv & Hp & Hf).
  unfold served_in in Hf. destruct (handler_ x) as [[z|]|] eqn:Hh; try discriminate Hf. simpl in Hf.
  repeat match type of Hf with _ && _ = true =>
    let H := fresh in apply andb_true_iff in Hf as [Hf H]; apply bool_decide_eq_true in H end.
  apply bool_decide_eq_true in Hf. exists s, v, p, n, x, z. split_and!; assumption.
Qed.

(** The input of [RetryWithUnrecoverableError], and the client of that test. *)
Definition negative_input : Message := (-11)%Z.
Definition no_response : Message := 0%Z.
Definition retrying_client : UnaryClient :=
  UnaryClient_with_timeout 50000000 (Some (CreateUnlimitedConstantDelayStrategy_codes
    10000000 {[StatusCode_INTERNAL]})) no_response.

(** The channel of [WriteFromOtherThread], on which the answer is the echo. *)
Definition echo_channel : Channel := {|
  BlockingUnaryCall := λ _ m, (Status_OK, m);
  stream_Write := λ _ _, true;
  stream_Read := λ _, None;
  stream_WritesDone := λ _, true;
  stream_Finish := λ _, (Status_OK, 0%Z)
|}.

Definition echo_value : Message := 13%Z.

Lemma echoed_test : echoed 13 [reply 13].
Proof.
  destruct (test_check WriteFromOtherThread 0 (λ w x,
    bool_decide (handler_ x = Some (Some 0%Z)) &&
    bool_decide (fully_qualified_name (rpc_handler_info_ x) = GetEcho_name) &&
    bool_decide (requests (callbacks_of w 0) = [13%Z]) &&
    bool_decide (items 0 (written w) = [reply 13]) &&
    bool_decide (sent 0 (grpc_calls w) = [reply 13])))
    as (s & v & n & x & Hrun & Hv & Hp & Hf); [vm_compute; reflexivity|].
  repeat match type of Hf with _ && _ = true =>
    let H := fresh in apply andb_true_iff in Hf as [Hf H]; apply bool_decide_eq_true in H end.
  apply bool_decide_eq_true in Hf. exists s, v, 0, n, x, 0%Z. split_and!; try assumption.
  match goal with E : items 0 _ = _ |- _ => rewrite E end. repeat constructor.
Qed.

Lemma unary_clients_correct_witness :
  (∃ c', UnaryClient_Write (H1:=math_channel) 1 1000 negative_input retrying_client =
      Some (Ok (false, internal_error) c') ∧ length (calls c') = 1) ∧
  (∃ c', UnaryClient_Write (H1:=echo_channel) 1 1000 echo_value (UnaryClient_new no_response) =
      Some (Ok (true, Status_OK) c') ∧ response_ c' = echo_value).
Proof.
  destruct (unary_clients_correct math_channel echo_channel 10000000 {[StatusCode_INTERNAL]} 1000
    (-11)%Z 13%Z retrying_client) as [(c1 & Hx1 & Hl1 & _) (c2 & Hx2 & _ & Hr2)].
  - intros i st m [= <- <-]. exists (finish internal_error), []. split.
    + apply (served_check RetryWithUnrecoverableError 3). vm_compute. reflexivity.
    + split; [reflexivity|exact I].
  - intros i st m [= <- <-]. exists (reply 13), []. split; [exact echoed_test|split; reflexivity].
  - reflexivity.
  - set_solver.
  - eexists. reflexivity.
  - split; [exists c1; split; [exact Hx1|exact Hl1]|exists c2; split; [exact Hx2|exact Hr2]].
Defined.

(** The channel of a client that reads the sequence. *)
Definition sequence_items : list SendItem := (reply <$> seqZ 0 12) ++ [finish Status_OK].

Definition sequence_channel : Channel := {|
  BlockingUnaryCall := λ _ m, (Status_OK, m);
  stream_Write := λ _ _, true;
  stream_Read := λ i, sequence_items !! (i - 1) ≫= msg;
  stream_WritesDone := λ _, true;
  stream_Finish := λ _, (Status_OK, 0%Z)
|}.

Lemma stream_clients_correct_witness :
  match Client_of GetSumMethod, Client_of GetRunningSumMethod, Client_of GetSequenceMethod with
  | inr (ClientStreamingObject c1), inr (BidiObject c2), inr (ServerStreamingObject c3) =>
      (∃ st c', sum_client (H:=math_channel) [0; 1; 2]%Z c1 = Ok st c' ∧
         (status_ok st = true → st = Status_OK ∧ stream_response_ c' = 33%Z)) ∧
      (∃ c', running_sum_client (H:=math_channel) 13 [0; 1; 2]%Z c2 =
         Some (Ok (running_sums 0 [0; 1; 2]%Z : list Message, Status_OK) c')) ∧
      (∃ c', sequence_client (H:=sequence_channel) 13 12%Z c3 =
         Some (Ok (seqZ 0 12 : list Message, Status_OK) c'))
  | _, _, _ => False
  end.
Proof.
  apply (stream_clients_correct math_channel math_channel sequence_channel [0; 1; 2]%Z 12%Z
    running_items sequence_items 13).
  - intros st m [= <- <-] _. exists (reply 33), [].
    split; [|split; reflexivity]. apply (served_check ProcessRpcStreamTest 4). vm_compute. reflexivity.
  - split.
    + apply (served_check ProcessBidiStreamingRpcTest 1). vm_compute. reflexivity.
    + intros j. change (running_items !! (5 + j - 5) ≫= msg = running_items !! j ≫= msg).
      replace (5 + j - 5) with j by lia. reflexivity.
    + intros i. reflexivity.
  - split.
    + apply (served_check ProcessServerStreamingRpcTest 2). vm_compute. reflexivity.
    + intros j. change (sequence_items !! (1 + j - 1) ≫= msg = sequence_items !! j ≫= msg).
      replace (1 + j - 1) with j by lia. reflexivity.
    + intros i. reflexivity.
  - simpl. lia.
  - simpl. lia.
Defined.

Lemma async_clients_correct_witness :
  match AsyncClient_of GetSquareMethod, AsyncClient_of GetSequenceMethod with
  | inr (Some (UnaryClient_ c1)), inr (Some (StreamClient_ c2)) =>
      (∃ c c', AsyncUnary_WriteAsync (12%Z : Message) c1 = Ok tt c ∧
         AsyncUnary_complete ClientEvent.FINISH Status_OK (144%Z : Message) c = Ok tt c' ∧
         u_log c' = [(Status_OK, Some (144%Z : Message))]) ∧
      (∃ c c', AsyncStream_WriteAsync (12%Z : Message) c2 = Ok tt c ∧
         stream_exec (stream_completions sequence_items Status_OK) c = Some c' ∧ stream_tags c' = [] ∧
         stream_log c' = ((λ i : Message, (Status_OK, Some i)) <$> (seqZ 0 12 : list Message)) ++
           [(Status_OK, None)])
  | _, _ => False
  end.
Proof.
  apply (async_clients_correct 12 Status_OK Status_OK 144 (reply 144) [] sequence_items).
  - apply (served_check (connect 3 (Some 12%Z) ++ next_events 1) 3). vm_compute. reflexivity.
  - split; reflexivity.
  - apply (served_check ProcessServerStreamingRpcTest 2). vm_compute. reflexivity.
  - reflexivity.
Defined.
