(* ===== verification/ServiceProps.v ===== *)
(** * Properties of the service

    The theorems about [Rpc], [ActiveRpcs], [Service] and the threads that
    drive them, each with a concrete run of the service of [Square] on which
    its hypotheses hold. *)

From Stdlib Require Import ZArith Lia.
From stdpp Require Import base option list strings gmap.
From S2P Require Import Prelude Interfaces BlockingQueue Rpc Service ServiceInv ServiceLemmas.
From S2P Require Import ServiceHandlers ServiceSafety ServiceSteps ServiceFlow ServiceProtocol.
From S2P Require Import ServiceOrder ServiceLeak EventLoop ServiceExamples.
Import Event EventDeleter.

Set Default Proof Using "Type".

Section properties.
Context `{GrpcStatus, Application, EventQueueSelector} (N : nat) `{!SelectorOk N}.

(** C2: no step crashes.  In every state a calm run can reach, whatever a
    completion queue thread, an event queue thread or a writer does next
    returns normally: no CHECK or LOG(FATAL) fires, no null pointer and no
    destroyed [Rpc] is used, and no push blocks.  Calm means that connections
    succeed while the service is serving and fail afterwards, and that no RPC
    is removed in the middle of a writer call. *)
Theorem service_step_safe infos cqs s c w l :
  sel_inv s → calm_run N infos cqs s c w → env_ok w l → conn_ok w l →
  ∃ w', exec l w = Ok tt w'.
Proof.
  intros Hs Hrun Henv Hok.
  pose proof (wp_exec N w l (calm_run_inv N _ _ _ _ _ Hs Hrun) Henv Hok) as Hwp.
  unfold wp in Hwp. destruct (exec l w) as [[] w'|]; [by exists w'|done].
Qed.

(** Tags are never dangling.  A tag gRPC can still return, or an event in
    an event queue, points into an [Rpc] object that exists, and that object
    knows about it: the pending flag of the event is set; queued events are
    in the event queue of their RPC. *)
Theorem service_tags_alive infos cqs s c w r e :
  sel_inv s → calm_run N infos cqs s c w →
  ((r, e) ∈ inflight w → (e = DONE → r ∈ started w) →
     ∃ n x, heap_ w !! r = Some (n, x) ∧ is_pending x e = true) ∧
  (∀ q, queued w r e q →
     ∃ n x, heap_ w !! r = Some (n, x) ∧ event_queue_ x = q ∧ is_pending x e = true).
Proof.
  intros Hs Hrun. destruct (calm_run_inv N _ _ _ _ _ Hs Hrun) as (C & _). split.
  - intros Hin Hd. destruct (c_flying _ _ _ C _ _ Hin) as [?|(_ & -> & Hn)]; [done|].
    by destruct (Hn (Hd eq_refl)).
  - intros q Hq. destruct (c_queued _ _ _ C _ _ _ Hq) as (n & x & ? & ? & ? & _). eauto.
Qed.

(** C4: the pending flags are exact.  On a calm run (connections succeed
    exactly while the service is serving, no RPC is removed in the middle of a
    writer call), between two events: the flag of an event of a live RPC is
    set if and only if its tag is with gRPC or in the RPC's event queue; the
    tag is in at most one of the two places and there once, it is in no other
    event queue, and an RPC with a flag that is set is registered as active. *)
Theorem service_pending_exact infos cqs s c w r n x e :
  sel_inv s → calm_run N infos cqs s c w → heap_ w !! r = Some (n, x) →
  (is_pending x e = true ↔ (r, e) ∈ inflight w ∨ queued w r e (event_queue_ x)) ∧
  ((r, e) ∈ inflight w → ∀ q, ¬ queued w r e q) ∧
  (∀ q, queued w r e q → q = event_queue_ x) ∧
  NoDup (inflight w) ∧ (∀ q bq, event_queues w !! q = Some bq → NoDup (tags bq)) ∧
  (is_pending x e = true → r ∈ rpcs_ w).
Proof.
  intros Hs Hrun Hx. destruct (calm_run_inv N _ _ _ _ _ Hs Hrun) as (C & _).
  assert (∀ q, queued w r e q →
    event_queue_ x = q ∧ is_pending x e = true ∧ (r, e) ∉ inflight w) as Hqd.
  { intros q Hq. destruct (c_queued _ _ _ C _ _ _ Hq) as (m & y & Hy & ? & ? & ? & _).
    by simplify_eq. }
  split_and!.
  - split; [by apply (c_complete _ _ _ C _ _ _ _ Hx)|]. intros [Hin|Hq]; [|by apply (Hqd _ Hq)].
    destruct (c_flying _ _ _ C _ _ Hin) as [(m & y & Hy & Hp)|(Hn & _)]; [|congruence].
    by simplify_eq.
  - intros Hin q Hq. by destruct (Hqd q Hq) as (_ & _ & ?).
  - intros q Hq. by destruct (Hqd q Hq) as [-> _].
  - apply (c_nodup _ _ _ C).
  - intros q bq Hbq. apply (c_queues _ _ _ C _ _ Hbq).
  - by apply (c_alive _ _ _ C _ _ _ _ Hx).
Qed.

(** Shared ownership.  The use count of a live RPC object is one for the
    entry in [ActiveRpcs::rpcs_] plus one for every writer call in progress
    on it; in particular the object dies when the last of them lets go. *)
Theorem service_use_count infos cqs s c w r n x :
  sel_inv s → calm_run N infos cqs s c w → heap_ w !! r = Some (n, x) →
  r ∈ rpcs_ w ∧ n = 1 + holders w r.
Proof.
  intros Hs Hrun Hx. pose proof (calm_run_inv N _ _ _ _ _ Hs Hrun) as Hinv.
  assert (r ∈ rpcs_ w) as Hact by (by eapply inv_active). split; [done|].
  destruct Hinv as (C & _). rewrite (c_count _ _ _ C _ _ _ Hx), decide_True by done. lia.
Qed.

(** Order of messages.  On every run and every interleaving, the items
    handed to gRPC for an RPC are a prefix of the items that its handler and
    its writers enqueued, in that order; as long as the RPC lives, what is
    missing is exactly its send queue: nothing is lost, duplicated or
    reordered. *)
Theorem send_queue_fifo infos cqs s c w r :
  run infos cqs N s c w →
  sent r (grpc_calls w) `prefix_of` items r (enqueued w) ∧
  ∀ n x, heap_ w !! r = Some (n, x) →
    items r (enqueued w) = sent r (grpc_calls w) ++ send_queue_ x.
Proof.
  intros Hrun%run_flow. split; [apply (f_prefix _ _ Hrun)|intros n x; by eapply flow_live].
Qed.

(** One write at a time.  gRPC allows one outstanding write operation per
    call: at most one of the [WRITE] and [FINISH] tags of an RPC is with
    gRPC. *)
Theorem one_write_outstanding infos cqs s c w r :
  sel_inv s → calm_run N infos cqs s c w →
  length (filter (λ t, t = (r, WRITE) ∨ t = (r, FINISH)) (inflight w)) ≤ 1.
Proof.
  intros Hs Hrun. destruct (calm_run_inv N _ _ _ _ _ Hs Hrun) as (C & _).
  pose proof (run_flow _ _ _ _ _ _ (calm_run_run N _ _ _ _ _ Hrun)) as F.
  assert (¬ ((r, WRITE) ∈ inflight w ∧ (r, FINISH) ∈ inflight w)) as Hexcl.
  { intros [Hw Hf]. destruct (c_flying _ _ _ C _ _ Hw) as [(n & x & Hx & Hpw)|(_ & ? & _)]; [|done].
    destruct (c_flying _ _ _ C _ _ Hf) as [(m & y & Hy & Hpf)|(_ & ? & _)]; [|done].
    rewrite Hx in Hy. injection Hy as <- <-. pose proof (f_excl _ _ F _ _ _ Hx Hpw). congruence. }
  by apply filter_pair_le_1; [apply (c_nodup _ _ _ C)|].
Qed.

(** No forgotten messages.  On every run, when the send queue of a live
    RPC is not empty, the service will look at it again: a write or the
    finish is pending, a [WRITE_NEEDED] event for it is queued, or a writer
    call is about to queue one; unless the RPC was already finished. *)
Theorem send_queue_served infos cqs s c w r n x :
  run infos cqs N s c w → heap_ w !! r = Some (n, x) → send_queue_ x ≠ [] →
  is_pending x WRITE = true ∨ is_pending x FINISH = true ∨ announced w r ∨ finished w r.
Proof.
  intros Hrun%run_flow Hx Hne. destruct (f_served _ _ Hrun r n x Hx); [done|by intros []|naive_solver|tauto].
Qed.

(** C9: order of callbacks.  On a calm run, in which every event is handled
    in one step: the calls a handler gets are [Initialize], then [OnRequest]
    any number of times, then [OnReadsDone] at most once, with [OnFinish]
    anywhere after the first; and between two events the flags of an RPC that
    still exists tell where in this order it is. *)
Theorem callbacks_in_order infos cqs s c w r :
  sel_inv s → calm_run N infos cqs s c w →
  ∃ st, stage_from Created (callbacks_of w r) = Some st ∧
    ∀ n x, heap_ w !! r = Some (n, x) → st = stage_of x.
Proof. intros Hs Hrun. apply (calm_ordered N _ _ _ _ _ Hs Hrun). Qed.

(** C15: listeners.  On a calm run, between two events and while the service
    is serving: the RPC objects whose [NEW_CONNECTION] flag is set, which wait
    for a connection or for theirs to be handled, are, counted with
    multiplicity, exactly one per registered method and completion queue.
    (While a connection is being handled its slot has none, until the new
    object is registered.) *)
Theorem one_listener_per_slot infos cqs s c w :
  sel_inv s → calm_run N infos cqs s c w → shutting_down_ w = false →
  listeners (heap_ w) ≡ₚ slots infos cqs.
Proof. apply calm_listeners. Qed.

(** Start.  [StartServing] on a fresh server returns, and puts one
    waiting object per method and completion queue in place. *)
Theorem start_serving_total infos cqs s c :
  sel_inv s → ∃ w, StartServing infos cqs (world_init N s c) = Ok tt w ∧
    listeners (heap_ w) ≡ₚ slots infos cqs ∧ shutting_down_ w = false.
Proof.
  intros Hs. pose proof (wp_StartServing N infos cqs _ (inv_init N s c Hs) eq_refl) as Hwp.
  unfold wp in Hwp. destruct (StartServing _ _ _) as [[] w|] eqn:E; [|done].
  exists w. split_and!; [done| |apply Hwp].
  by destruct (calm_start_waiting N _ _ _ _ _ Hs E) as (_ & ? & _).
Qed.

(** Isolation.  Handling an event of a connected RPC changes no other
    RPC object, creates none and does not stop the service. *)
Theorem handle_event_isolated e this b w w' r :
  HandleEvent e this b w = Ok tt w' → e ≠ NEW_CONNECTION → r ≠ this →
  heap_ w' !! r = heap_ w !! r ∧ next_ptr w' = next_ptr w ∧ shutting_down_ w' = shutting_down_ w.
Proof.
  intros Hx Hne Hr. pose proof (preserves_Ok _ _ _ _ _ (tc_HandleEvent this e b Hne) Hx) as Ht.
  split_and!; [by apply (touches_other this)|apply Ht|apply Ht].
Qed.

(** No leaks.  An RPC stays in [ActiveRpcs] only while a [DONE], [READ],
    [WRITE] or [FINISH] event of it is outstanding, that is, with gRPC or in
    its event queue. *)
Theorem active_rpc_outstanding infos cqs s c w r :
  sel_inv s → calm_run N infos cqs s c w → r ∈ rpcs_ w →
  ∃ e, e ∈ [DONE; READ; WRITE; FINISH] ∧ ((r, e) ∈ inflight w ∨ ∃ q, queued w r e q).
Proof.
  intros Hs Hrun Hr. destruct (calm_lively N _ _ _ _ _ Hs Hrun r Hr) as (n & x & Hx & Ha).
  destruct (calm_run_inv N _ _ _ _ _ Hs Hrun) as (C & _).
  assert (∃ e, e ∈ [DONE; READ; WRITE; FINISH] ∧ is_pending x e = true) as (e & He & Hp).
  { unfold any_pending in Ha. rewrite !orb_true_iff in Ha.
    destruct Ha as [[[?|?]|?]|?]; eexists; (split; [|done]); set_solver. }
  exists e. split; [done|]. destruct (c_complete _ _ _ C _ _ _ _ Hx Hp); eauto.
Qed.

(** Clean shutdown.  Once the event queues are empty and the only tags
    still with gRPC belong to RPC objects that are gone, the destructor of
    [ActiveRpcs] finds no RPC in flight. *)
Theorem drained_service_destroys infos cqs s c w :
  sel_inv s → calm_run N infos cqs s c w →
  (∀ r e, (r, e) ∈ inflight w → heap_ w !! r = None) →
  (∀ q bq, event_queues w !! q = Some bq → tags bq = []) →
  ActiveRpcs_destroy w = Ok tt w.
Proof.
  intros Hs Hrun Hfly Hq. pose proof (calm_lively N _ _ _ _ _ Hs Hrun) as L.
  destruct (calm_run_inv N _ _ _ _ _ Hs Hrun) as (C & _).
  assert (rpcs_ w = ∅) as E.
  { apply set_eq. intros r. split; [|set_solver]. intros Hr. exfalso.
    destruct (L r Hr) as (n & x & Hx & Ha).
    assert (∀ e, is_pending x e = false) as Hnone.
    { intros e. destruct (is_pending x e) eqn:Hp; [exfalso|done].
      destruct (c_complete _ _ _ C _ _ _ _ Hx Hp) as [Hin|(bq & Hb & Hin)].
      - rewrite (Hfly _ _ Hin) in Hx. done.
      - rewrite (Hq _ _ Hb) in Hin. by apply elem_of_nil in Hin. }
    unfold any_pending in Ha. by rewrite !Hnone in Ha. }
  unfold ActiveRpcs_destroy, mbind, M_bind, get. by rewrite decide_True.
Qed.

(** C33: a connection that fails while the service is serving.  The source
    drops the [Rpc] and then clones it: with no writer call in progress the
    object is gone by then, and the clone reads freed memory. *)
Theorem failed_connection_use_after_free w r x :
  shutting_down_ w = false → heap_ w !! r = Some (1, x) → r ∈ rpcs_ w →
  HandleNewConnection r false w = Fail UseAfterFree.
Proof.
  intros Hsd Hx Hr. unfold HandleNewConnection, ActiveRpcs_Remove, Clone, deref, modify, release,
    mbind, M_bind, mret, M_ret, get. simpl. rewrite Hsd, decide_True by done. simpl. rewrite Hx.
  simpl. by rewrite lookup_delete_eq.
Qed.

(** C34: a connection that arrives at shutdown.  [HandleNewConnection] drops
    the [Rpc] although gRPC still holds the tag of its [DONE] event; when that
    tag is returned, the completion queue thread writes to freed memory. *)
Theorem refused_connection_dangles w r x b b' :
  shutting_down_ w = true → heap_ w !! r = Some (1, x) → r ∈ rpcs_ w →
  ∃ w', HandleNewConnection r b w = Ok tt w' ∧ inflight w' = inflight w ∧
    RunCompletionQueue_body r DONE b' w' = Fail UseAfterFree.
Proof.
  intros Hsd Hx Hr. unfold HandleNewConnection, ActiveRpcs_Remove, modify, release,
    RunCompletionQueue_body, GetRpcEvent, deref, mbind, M_bind, mret, M_ret, get. simpl.
  rewrite Hsd, decide_True by done. simpl. rewrite Hx.
  eexists. split_and!; [done|done|]. simpl. by rewrite lookup_delete_eq.
Qed.

End properties.

(** ** Concrete runs

    The runs of the [Square] service on which the hypotheses above hold. *)

Import Square.

(** The call is answered, the client is gone and the service stops. *)
Definition stopped : list Label :=
  answered ++ [LCompletion 0 DONE true None; LEvent 0; LStopServing;
    LCompletion 1 NEW_CONNECTION false None; LEvent 0].

(** A handler has answered and a writer call has enqueued a second answer. *)
Definition writing : list Label :=
  [LCompletion 0 NEW_CONNECTION true (Some 11%Z); LEvent 0; LWriterBegin 0 (WWrite 5%Z);
   LWriterStep 0].

(** Step by [vm_compute] from a goal [after_calm] or [after_run] gives. *)
Ltac by_run := vm_compute; first [discriminate | reflexivity].

Lemma service_step_safe_witness :
  ∃ w', exec (LEvent 0) (after true writing) = Ok tt w'.
Proof.
  apply (service_step_safe (H1:=selector) 1 [info] [0] tt 0%Z).
  - exact I.
  - apply after_calm. by_run.
  - apply env_okb_sound. by_run.
  - apply conn_okb_sound. by_run.
Defined.

Lemma service_tags_alive_witness :
  ∃ n x, heap_ (after true answered) !! 0 = Some (n, x) ∧ is_pending x DONE = true.
Proof.
  apply (service_tags_alive (H1:=selector) 1 [info] [0] tt 0%Z (after true answered) 0 DONE).
  - exact I.
  - apply after_calm. by_run.
  - apply (bool_decide_eq_true_1 _). by_run.
  - intros _. apply (bool_decide_eq_true_1 _). by_run.
Defined.

Lemma service_pending_exact_witness :
  ∃ n x, heap_ (after true answered) !! 0 = Some (n, x) ∧ is_pending x DONE = true ∧
    (0, DONE) ∈ inflight (after true answered) ∧
    ∀ q, ¬ queued (after true answered) 0 DONE q.
Proof.
  assert ((0, DONE) ∈ inflight (after true answered)) as Hin
    by (apply (bool_decide_eq_true_1 _); by_run).
  destruct (object_check (after true answered) 0 (λ _ x, is_pending x DONE)) as (n & x & Hx & Hp);
    [by_run|].
  exists n, x. split; [exact Hx|].
  destruct (service_pending_exact (H1:=selector) 1 [info] [0] tt 0%Z (after true answered) 0 n x DONE)
    as (Hiff & Hno & _).
  - exact I.
  - apply after_calm. by_run.
  - exact Hx.
  - split; [apply Hiff; left; exact Hin|split; [exact Hin|exact (Hno Hin)]].
Defined.

Lemma service_use_count_witness :
  ∃ n x, heap_ (after true writing) !! 0 = Some (n, x) ∧ n = 1 + holders (after true writing) 0.
Proof.
  destruct (object_check (after true writing) 0 (λ n _, Nat.eqb n 2)) as (n & x & Hx & Hn);
    [by_run|].
  exists n, x. split; [exact Hx|].
  apply (service_use_count (H1:=selector) 1 [info] [0] tt 0%Z (after true writing) 0 n x).
  - exact I.
  - apply after_calm. by_run.
  - exact Hx.
Defined.

Lemma send_queue_fifo_witness :
  sent 0 (grpc_calls (after false answered)) `prefix_of` items 0 (enqueued (after false answered)).
Proof.
  apply (send_queue_fifo (H1:=selector) 1 [info] [0] tt 0%Z (after false answered) 0).
  apply after_run. by_run.
Defined.

Lemma one_write_outstanding_witness :
  length (filter (λ t, t = (0, WRITE) ∨ t = (0, FINISH))
    (inflight (after true (take 3 answered)))) ≤ 1.
Proof.
  apply (one_write_outstanding (H1:=selector) 1 [info] [0] tt 0%Z (after true (take 3 answered)) 0).
  - exact I.
  - apply after_calm. by_run.
Defined.

Lemma send_queue_served_witness :
  ∃ n x, heap_ (after false writing) !! 0 = Some (n, x) ∧
    (is_pending x WRITE = true ∨ is_pending x FINISH = true ∨
     announced (after false writing) 0 ∨ finished (after false writing) 0).
Proof.
  destruct (object_check (after false writing) 0
    (λ _ x, match send_queue_ x with [] => false | _ => true end)) as (n & x & Hx & Hs); [by_run|].
  exists n, x. split; [exact Hx|].
  apply (send_queue_served (H1:=selector) 1 [info] [0] tt 0%Z (after false writing) 0 n x).
  - apply after_run. by_run.
  - exact Hx.
  - by destruct (send_queue_ x).
Defined.

Lemma callbacks_in_order_witness :
  ∃ st, stage_from Created (callbacks_of (after true stopped) 0) = Some st ∧
    ∀ n x, heap_ (after true stopped) !! 0 = Some (n, x) → st = stage_of x.
Proof.
  apply (callbacks_in_order (H1:=selector) 1 [info] [0] tt 0%Z (after true stopped) 0).
  - exact I.
  - apply after_calm. by_run.
Defined.

Lemma one_listener_per_slot_witness :
  listeners (heap_ (after true answered)) ≡ₚ slots [info] [0].
Proof.
  apply (one_listener_per_slot (H1:=selector) 1 [info] [0] tt 0%Z (after true answered)).
  - exact I.
  - apply after_calm. by_run.
  - by_run.
Defined.

Lemma start_serving_total_witness :
  ∃ w, StartServing [info; info] [0; 1] (world_init (H1:=selector) 1 tt 0%Z) = Ok tt w ∧
    listeners (heap_ w) ≡ₚ slots [info; info] [0; 1] ∧ shutting_down_ w = false.
Proof. apply (start_serving_total (H1:=selector) 1 [info; info] [0; 1] tt 0%Z). exact I. Defined.

Lemma handle_event_isolated_witness :
  ∃ w', HandleEvent FINISH 0 true (after true (take 3 answered)) = Ok tt w' ∧
    heap_ w' !! 1 = heap_ (after true (take 3 answered)) !! 1.
Proof.
  destruct (HandleEvent FINISH 0 true (after true (take 3 answered))) as [[] w'|f] eqn:E.
  - exists w'. split; [done|].
    apply (handle_event_isolated FINISH 0 true (after true (take 3 answered)) w' 1);
      [exact E|discriminate|discriminate].
  - exfalso. revert E. vm_compute. discriminate.
Defined.

Lemma active_rpc_outstanding_witness :
  ∃ e, e ∈ [DONE; READ; WRITE; FINISH] ∧
    ((0, e) ∈ inflight (after true answered) ∨ ∃ q, queued (after true answered) 0 e q).
Proof.
  apply (active_rpc_outstanding (H1:=selector) 1 [info] [0] tt 0%Z (after true answered) 0).
  - exact I.
  - apply after_calm. by_run.
  - apply (bool_decide_eq_true_1 _). by_run.
Defined.

Lemma drained_service_destroys_witness :
  ActiveRpcs_destroy (after true stopped) = Ok tt (after true stopped).
Proof.
  apply (drained_service_destroys (H1:=selector) 1 [info] [0] tt 0%Z (after true stopped)).
  - exact I.
  - apply after_calm. by_run.
  - assert (Forall (λ t, heap_ (after true stopped) !! t.1 = None) (inflight (after true stopped)))
      as Hf by (vm_compute; repeat constructor).
    intros r e Hin. by apply (proj1 (Forall_forall _ _) Hf (r, e)).
  - assert (Forall (λ bq, tags bq = []) (event_queues (after true stopped)))
      as Hf by (vm_compute; repeat constructor).
    intros q bq Hq. apply (proj1 (Forall_forall _ _) Hf). by eapply list_elem_of_lookup_2.
Defined.

(** The first listener, before any connection. *)
Lemma failed_connection_use_after_free_witness :
  HandleNewConnection 0 false (after true []) = Fail UseAfterFree.
Proof.
  destruct (object_check (after true []) 0 (λ n _, Nat.eqb n 1)) as (n & x & Hx & Hn); [by_run|].
  apply Nat.eqb_eq in Hn as ->.
  apply (failed_connection_use_after_free (after true []) 0 x).
  - by_run.
  - exact Hx.
  - apply (bool_decide_eq_true_1 _). by_run.
Defined.

(** A connection is established, the service stops, and only then does the
    event queue thread get to the connection. *)
Definition late_connection : list Label :=
  [LCompletion 0 NEW_CONNECTION true (Some 11%Z); LStopServing].

Lemma refused_connection_dangles_witness :
  run [info] [0] 1 tt 0%Z (after false late_connection) ∧
  (0, DONE) ∈ inflight (after false late_connection) ∧ 0 ∈ started (after false late_connection) ∧
  ∃ w', HandleNewConnection 0 true (after false late_connection) = Ok tt w' ∧
    inflight w' = inflight (after false late_connection) ∧
    RunCompletionQueue_body 0 DONE true w' = Fail UseAfterFree.
Proof.
  split_and!.
  - apply after_run. by_run.
  - apply (bool_decide_eq_true_1 _). by_run.
  - apply (bool_decide_eq_true_1 _). by_run.
  - destruct (object_check (after false late_connection) 0 (λ n _, Nat.eqb n 1))
      as (n & x & Hx & Hn); [by_run|].
    apply Nat.eqb_eq in Hn as ->.
    apply (refused_connection_dangles (after false late_connection) 0 x true true).
    + by_run.
    + exact Hx.
    + apply (bool_decide_eq_true_1 _). by_run.
Defined.

(** A writer call has enqueued its message when the client goes away and the
    RPC, which has nothing pending any more, is removed. *)
Definition raced : list Label :=
  answered ++ [LCompletion 0 DONE true None; LWriterBegin 0 (WWrite 5%Z); LWriterStep 0; LEvent 0].

(** C35: a writer racing with the end of its RPC.  There is a run of a service
    in which a thread that holds a [Writer] calls [Write] while the RPC is
    being removed, and the call aborts the process in
    [ActiveRpcs::GetWeakPtr]. *)
Theorem writer_race_aborts :
  ∃ w, run [info] [0] 1 tt 0%Z w ∧ env_ok w (LWriterStep 0) ∧
    exec (LWriterStep 0) w = Fail (CheckFailed "ActiveRpcs::GetWeakPtr").
Proof.
  exists (after false raced). split_and!.
  - apply after_run. by_run.
  - apply env_okb_sound. by_run.
  - by_run.
Qed.

(** The same writer call, with the client still there. *)
Definition written_late : list Label :=
  answered ++ [LWriterBegin 0 (WWrite 5%Z); LWriterStep 0; LWriterStep 0; LWriterStep 0;
    LWriterStep 0; LEvent 0].

(** C36: writing after the end.  A message written to a unary RPC after its
    [FINISH] event was handled and before its [DONE] event makes the service
    call [Finish] on the same call a second time, which gRPC forbids. *)
Theorem late_write_finishes_twice :
  ∃ w c1 c2, run [info] [0] 1 tt 0%Z w ∧
    filter (λ c, tag_of c = (0, FINISH)) (grpc_calls w) = [c1; c2].
Proof.
  exists (after false written_late). do 2 eexists. split; [apply after_run; by_run|].
  vm_compute. reflexivity.
Qed.

Lemma drain_terminates_witness :
  ∃ fuel r, RunEventQueue_drain fuel 0 (after false writing) = Some r ∧
    ∀ w', r = Ok tt w' → ∃ bq', event_queues w' !! 0 = Some bq' ∧ deque_ bq' = [].
Proof.
  destruct (event_queues (after false writing) !! 0) as [bq|] eqn:Hq;
    [|exfalso; revert Hq; vm_compute; discriminate].
  apply (drain_terminates (H1:=selector) [info] [0] 1 tt 0%Z (after false writing) 0 bq).
  - apply after_run. by_run.
  - exact Hq.
Defined.
